(* ===== verification/_CoqProject ===== *)
-Q . S2P
Prelude.v
CHeap.v
NgxQueue.v
RBTree.v
RBRemove.v
RBOrder.v
Splay.v
Ae.v
CLib.v
Anet.v
CFloat.v
Strings.v
Bytes.v
BufferTyping.v
Sds.v
Resp.v
Proc.v
Redis.v
LevelDB.v
Binlog.v
Iterator.v
SSDB.v
Link.v
BackendSync.v
Config.v
Slave.v
Replication.v
Server.v
Sessions.v
Log.v
Thread.v
ThreadPool.v
Tree.v
BTree.v
SkipList.v
