(* ===== verification/Prelude.v ===== *)
(** * A verification of the SSDB server

    This library models the C++ server under [src/ssdb/src/]: a key-value store
    over LevelDB that speaks the Redis protocol and replicates itself from a
    master to slaves; the data structures of [src/algorithm/]; and the event loop, the
    red-black tree, the queues and the work pool in C of [src/cnm/]; and the strings in C
    of [src/redis-2.8.0/].

    ** The program

    [ssdb_server.cpp: run] loads a configuration, opens two stores (one for data,
    one for the position of replication), makes an [SSDBServer], which registers
    its handlers in the command table of a [NetworkServer], and enters the event
    loop of libuv.  The loop gives every connection ([Link]) the bytes that
    arrive.  [Link::onRead] takes requests out of its input buffer, either in the
    Redis protocol ([RedisLink]) or as packets of length-prefixed strings; it looks
    the command up ([ProcMap]), calls the handler ([proc_kv.cpp], [serv.cpp]) on the
    store ([SSDBImpl]) and sends the [Response].  Every update of the store is one
    LevelDB batch that contains its record of the binary log ([BinlogQueue]).  The
    command [sync140] hands the connection to a thread of [BackendSync], which
    copies the key space to the slave and follows the log; at the other end [Slave]
    applies what arrives to its own store.

    The C files of [src/algorithm/] are three search structures on the heap: a tree
    with parent pointers, a B-tree and a skip list.  Those of [src/cnm/] are the start of
    another server: an event loop over epoll ([net/ae.c], [ae_epoll.c]) that keeps its
    timers in a red-black tree ([net/tree.h]), helpers for sockets ([net/anet.c]), and a pool of threads
    ([util/threadpool.c]) that take their work from a queue of links embedded in it
    ([util/queue.h]).

    ** How code is modelled

    Operations are functions that pass their state explicitly and have the names of
    the source; objects are records with the members of the source.  [int],
    [int64_t], [uint64_t] and [char] are integers with their range: unsigned
    arithmetic and conversions wrap, signed overflow is undefined.  An operation
    that can run into undefined behaviour, or whose loop needs fuel, is in [exec]
    (below): [Done] with a value, [UB], or [NoFuel].  Theorems conclude [Done], so
    they say that there is no undefined behaviour and that the loop ends; those that
    conclude [UB] exhibit a defect.  Memory is modelled where it matters: a [Buffer]
    owns a block whose content past the data is arbitrary and whose reallocation may
    fail (class [Heap]); a C string is the memory from its first byte on.

    Code outside of the repository is never given a definition: LevelDB is the
    class [LevelDB] with its documented laws [LevelDBSpec]; calls of libuv, of the
    clock and of the operating system are arguments (what they return) or, for epoll and
    sockets, classes with their laws; a parsed JSON
    file is a value of [Config.json].  The [Mem] store instantiates the laws and the
    Samples modules evaluate concrete runs on it.

    ** The files

    - [Prelude]: bytes, integers, [exec] and its notation, lemmas on lists by [Z]
      index, tactics, hints.
    - [CLib]: the functions of the C library that the program calls ([memcmp],
      [strtol], [%d], ...); [CFloat]: [atof], which requests with scores use.
    - [Strings]: [util/strings.h].
    - [Bytes]: [util/bytes.h], [bytes.cpp]: [Bytes], [Buffer], [Decoder];
      [BufferTyping]: what a client of [Buffer] may do and rely on.
    - [Resp]: [net/resp.cpp], a response.  [Proc]: [net/proc.cpp], the command table.
    - [Redis]: [net/link_redis.cpp].  [Link]: [net/link.cpp].
    - [LevelDB]: the interface of the engine, its laws, and lemmas that turn
      iterators into statements on the sorted list of entries.
    - [Binlog]: [ssdb/binlog.cpp], [const.h].  [Iterator]: [ssdb/iterator.cpp].
      [SSDB]: [ssdb/ssdb_impl.cpp].
    - [BackendSync]: [backend_sync.cpp], the master's side of replication; [Slave]:
      [slave.cpp], the other side; [Replication]: both, with a store that changes
      between any two calls.
    - [Config]: [util/config.cpp].  [Server]: [net/server.cpp], [serv.cpp],
      [proc_kv.cpp], [ssdb_server.cpp].
    - [Sessions]: [acceptLink] and [onRead] as the callbacks of the loop, for several
      connections.
    - [Log]: [util/log.cpp], the logger and its rotation.
    - [Thread]: [util/thread.h], the queues and the pool of workers.
    - [CHeap]: structs on the heap of a C program, a monad for the programs that
      follow pointers, [sees] for what a heap holds.  [Tree]: [tree.c]; [BTree]:
      [btree.c]; [SkipList]: [skip-list.c], all of [src/algorithm/].
    - [NgxQueue]: [cnm/util/queue.h].  [ThreadPool]: [cnm/util/threadpool.c].
    - [RBTree]: the macros [RB_*] of [cnm/net/tree.h], with insertion and search;
      [RBRemove]: removal; [RBOrder]: traversal, and the class [OrderedSet] of what the
      tree promises; [Splay]: the macros [SPLAY_*] of the same file.
      [Ae]: [cnm/net/ae.c] and [ae_epoll.c], over that class.
    - [Anet]: [cnm/net/anet.c], the wrappers of the calls for sockets.
    - [Sds]: [redis-2.8.0/doc/sds.c], the growing strings of Redis.

    ** What is shown

    - Storage.  [Binlog.log_inv] says that a store contains exactly the log [h]:
      it holds of an empty store, every transaction extends it by its records or
      leaves everything as it was ([transaction_atomic]), opening the store again
      finds its end ([recovery]), and readers see all of it ([find_next_correct],
      [find_last_correct]).  [SSDB.represents] relates a store to an abstract one
      (pairs, hashes, history); [ssdb_refinement] is the refinement for sequences of
      operations, where reads succeed and writes may fail ([hset_read_error] and
      [incr_hsize_read_error] are what failing reads do), and [reopen] that it survives
      a restart.
      [key_codecs] is the injectivity that it rests on.
    - Requests.  [parse_req_roundtrip] and [parse_req_total] for the parser on
      well-formed and on arbitrary input, [recv_req_complete] and
      [send_resp_reply] for translation and replies, the latter against a reading of the
      request as the client wrote it ([Redis.reply_to]); [session_chunks]: the
      requests of a stream that arrives in any pieces are answered as the specification
      of the commands says, and the store goes on representing it;
      [server_serializable] puts the whole server together: connections are accepted at
      any time and their bytes are interleaved, and there is an order of all requests in
      which they are answered so.
    - Buffers.  [buffer_safety]: progress and preservation for any sequence of calls that
      clients are permitted to make, which act as those of a queue of bytes;
      [appends_spec]: the same for the growing strings in C, with the number of
      reallocations.
    - Packets.  [send_recv], [stream_chunks] (any cut into chunks), [onRead_ends].
    - Replication.  [sync_follows_log] for the reader of the log; [slave_refines]
      for the slave against the abstract [Replica]; [convergence] and [resumption]
      for the system of master and thread, where updates interleave with calls in any
      way; [end_to_end] composes them, from operations on the master's store to what
      the slave's store holds, through the bytes on the wire.  What the constructor of
      [Client] leaves in the pointer [iter] is a parameter of [sys_start]: a full copy
      converges when it is [NULL] by chance and is undefined when it is not, a
      reconnection at a position does not read it.  The master's store never fails to
      read and the slave's stores never fail in these theorems; what happens otherwise
      is shown apart ([failed_update_is_skipped]).
    - Concurrency.  [Thread.step] interleaves producers, workers and the consumer of
      the pool at every call that can block; the invariant of [PoolSpec] gives
      [pool_safe] (no job duplicated, none lost but where [stop] cancels a worker inside
      [proc], mutual exclusion of all threads) and [pool_progress]
      (no deadlock and no lost wakeup within the capacity of the pipe), the latter
      with a measure for the steps of a thread on its own.
    - The logger never writes past its buffer ([logv_line]) and rotation keeps every
      line ([log_history]); the configuration is read as described
      ([config_load_spec]); [restart] shows that [run] serves what was stored.
    - Search structures.  Each file relates the heap to a tree or list annotated with
      addresses ([Tree.TreeSpec.holds], [BTree.BTreeSpec.reps], [SkipList.holds]) and
      shows that the operations on pointers are those on sorted keys
      ([tree_refinement], [btree_refinement], [skip_list_refinement]) without
      undefined behaviour, with the neighbours of a node ([neighbours]), the balance of
      the B-tree and the nodes a deletion leaks.
    - The red-black tree.  A zipper ([RBTree.frame]) splits the heap at the node that a
      macro works on, so that a rotation of pointers is a rotation of trees
      ([rotate_spec]); [rbt] is the discipline of colours.  [rb_refinement]: any sequence
      of calls is the one on the sorted list, and the colours stay right;
      [rb_find_bounded]: hence searches are logarithmic.
    - The splay tree.  [splay_refinement]: for any sequence of calls, the pointers that
      the top-down splaying turns around are the same sorted list as those of the
      red-black tree.
    - The event loop.  [Ae.SystemLaws] is what epoll documents; that the clock is not
      set back ([Ae.SteadyClock]) or out of range ([Ae.SetClock]) are assumptions of
      their own, of the theorems on timers.  Events are specified by their bits
      ([Ae.waits], [Ae.reads], [Ae.writes]).
      [registrations_agree]: the kernel waits for exactly what the loop has
      registered; [process_events_calls]: a round calls exactly what is due;
      [process_time_events_spec]: exactly the timers whose time has come are called, in
      order, and the periodic ones are set again; [timeout_correct_spec];
      [main_safe]: the loop as a whole has no undefined behaviour and returns only when
      told to.
    - The socket helpers.  [Anet.SocketLaws] is what the kernel and the resolver document
      about descriptors; programs over them are proved by weakest preconditions
      ([AnetSpec.wp]).  [connect_spec] and [tcp_server_spec]: exactly the descriptor that
      is returned stays open, with the options asked for, but for the leaks that the
      latter states; [anetRead_spec]: the loops read and write all of a block.
    - The queue and the work pool in C.  [queue_refinement]: the macros on links are
      operations on lists, for any number of queues in one heap; [work_pool_safe] and
      [work_pool_drains]: every piece of work that is submitted is done once, and all of it
      if threads are scheduled.
    - Defects that modelling showed, each proved on the model: updates lost when the
      log is empty at the start of a copy ([empty_log_race]), copies that are never
      resumed, updates a slave skips, a size that is wrong after a read error, the
      integer overflow of a hostile packet, reads past the received data, input
      buffers that only grow, a job lost and two deadlocks in the pool, failures of start-up that
      nothing tests, a B-tree search that reads memory that is never written, a skip
      list that loses keys when it grows and frees its head, an event loop that never
      waits and from which a descriptor cannot be taken out, sockets that are not closed
      when a call fails, growing strings that are written past their block.

    ** Fuel and bounds

    Loops that follow the structure of their input are structural.  The others get
    fuel computed from their input, and it is proved enough for all inputs, not
    only in the examples:
    the loops of [parse_req], of packets and of [onRead] get one unit per byte in the
    buffer and one more, because each round consumes one ([parse_req_total],
    [onRead_ends], [slave_onRead_ends]); [BackendSync.sync_fuel] is the last sequence
    number plus two, as each round passes a record ([sync_follows_log]); the loop of
    [KIterator] goes round once ([kv_enumeration]); a buffer at least doubles from
    8192 bytes, so that 20 rounds pass any [int] ([BufferSpec.ends_ensure_loop]); a
    byte has 8 bits.  Loops over pointers get the size of the heap and one more
    ([CHeap.with_fuel]): the nodes they pass are different cells.
    Theorems state their bounds: 2^29 bytes for what one connection or response
    holds in its buffer (its sizes are [int]s that growing doubles), and 2^25 for what one connection receives
    in all (a connection never gives space back, see [input_never_compacted]), 2^61 or 2^62 operations for
    sequence numbers and hash sizes, 4096 bytes for a line of the log.  The capacity
    of the pool's pipe is a parameter.  In [BTree] and [SkipList], [malloc] is assumed to
    succeed, since the code does not test its result; in [Tree] it may fail.  The loops
    over timers get a number of turns; more than the number of timers is enough when
    callbacks do not set timers ([process_time_events_spec]), and when they do
    [main_safe] holds for any number.  Times and periods are below 2^60 microseconds.

    ** What is not modelled

    - libuv, LevelDB and [util/json.hpp] (third-party code): see above.  Whether
      [uv_write] completes is not known to the code either, which ignores it.
    - [include.h] and the members for statistics: times are only printed.
    - [net/main.cpp]: calls functions with arguments they no longer take.
    - Of [str_to_double]: all but the integer part of its result, which is what its caller
      takes.
    - Redis requests cut right between their last two bytes: the parser then reads a
      byte past the data received ([Redis.Overread]), so that what it does depends on
      the heap; [parse_req_total] holds for them, [session_chunks] and
      [server_serializable] exclude them.
    - The functions [main] of [src/algorithm]: their calls are the examples of the
      Samples modules.
    - The programs in Go, Java and other languages of the repository.
    - The end of a connection: [onRead] ignores it, so that the link stays. *)
From Stdlib.Strings Require Export Ascii.
From Stdlib Require Export ZArith Lia.
From stdpp Require Export base numbers list gmap strings sorting.

#[global] Open Scope Z_scope.

(** * Bytes *)

(** A C++ [char] is an [ascii], a byte string ([std::string], the contents of
    a [Bytes] or of a [leveldb::Slice]) is a list of them. *)
Abbreviation char := ascii.
Abbreviation bytes := (list ascii).

Definition lit (s : string) : bytes := String.list_ascii_of_string s.

(** The unsigned and the signed value of a [char] (the platform's [char] is
    signed), and the [char] of an integer, reduced modulo 256. *)
Definition uchar (c : char) : Z := Z.of_N (N_of_ascii c).
Definition schar (c : char) : Z := if uchar c <? 128 then uchar c else uchar c - 256.
Definition chr (z : Z) : char := ascii_of_N (Z.to_N (z mod 256)).

Definition zlen {A} (l : list A) : Z := Z.of_nat (length l).
Definition ztake {A} (n : Z) (l : list A) : list A := take (Z.to_nat n) l.
Definition zdrop {A} (n : Z) (l : list A) : list A := drop (Z.to_nat n) l.

Definition NUL : char := chr 0.
Definition LF : char := chr 10.
Definition CR : char := chr 13.

Lemma uchar_range c : 0 <= uchar c < 256.
Proof.
  unfold uchar. pose proof (N_ascii_bounded c). lia.
Qed.

Lemma uchar_inj c d : uchar c = uchar d -> c = d.
Proof.
  unfold uchar. intros H. apply N2Z.inj in H.
  rewrite <- (ascii_N_embedding c), <- (ascii_N_embedding d). by rewrite H.
Qed.

Lemma uchar_chr z : uchar (chr z) = z mod 256.
Proof.
  unfold uchar, chr. pose proof (Z.mod_pos_bound z 256).
  rewrite N_ascii_embedding; lia.
Qed.

Lemma chr_uchar c : chr (uchar c) = c.
Proof.
  apply uchar_inj. rewrite uchar_chr. apply Z.mod_small, uchar_range.
Qed.

(** * Outcomes *)

(** A computation finishes with a value, runs into undefined behaviour of the
    C++ abstract machine (an out-of-bounds access, a signed overflow), or runs
    out of the fuel of a loop; the last is shown never to happen where a loop
    is given fuel. *)
Inductive exec (A : Type) : Type :=
  | Done (a : A)
  | UB
  | NoFuel.
Arguments Done {A} a.
Arguments UB {A}.
Arguments NoFuel {A}.

Definition ebind {A B} (m : exec A) (f : A -> exec B) : exec B :=
  match m with Done a => f a | UB => UB | NoFuel => NoFuel end.

Notation "'let*' p := m 'in' k" := (ebind m (fun p => k))
  (at level 10, p pattern, m at level 200, k at level 200).

Definition is_done {A} (m : exec A) : Prop := exists a, m = Done a.

(** A computation that does not run out of fuel. *)
Definition ends {A} (m : exec A) : Prop := m <> NoFuel.

(** Undefined behaviour unless the condition holds. *)
Definition guard (b : bool) : exec unit := if b then Done tt else UB.

Lemma bind_Done {A B} (f : A -> exec B) m b :
  ebind m f = Done b <-> exists a, m = Done a /\ f a = Done b.
Proof.
  destruct m; cbn; split; try (intros (? & ? & ?); congruence); intros H; try done.
  eauto.
Qed.

Lemma is_done_bind {A B} (f : A -> exec B) m :
  is_done m -> (forall a, m = Done a -> is_done (f a)) -> is_done (ebind m f).
Proof. intros [a ->] H. by apply H. Qed.

Lemma ends_bind {A B} (f : A -> exec B) m :
  ends m -> (forall a, m = Done a -> ends (f a)) -> ends (ebind m f).
Proof. unfold ends. destruct m; cbn; auto. Qed.

Lemma ends_guard b : ends (guard b).
Proof. by destruct b. Qed.

Create HintDb ends.
#[export] Hint Resolve ends_guard : ends.
(** Computations built from steps that end. *)
Ltac ends_tac :=
  repeat first [ done | solve [eauto with ends] | apply ends_bind; [| intros] | progress intros | case_match ].

Lemma guard_Done b u : guard b = Done u <-> b = true.
Proof. destruct b, u; cbn; split; congruence. Qed.

(** * Machine integers *)

Definition int_min : Z := - 2 ^ 31.
Definition int_max : Z := 2 ^ 31 - 1.
Definition int64_min : Z := - 2 ^ 63.
Definition int64_max : Z := 2 ^ 63 - 1.
Definition uint64_max : Z := 2 ^ 64 - 1.

(** Conversions wrap around (two's complement). *)
Definition to_int (z : Z) : Z := (z + 2 ^ 31) mod 2 ^ 32 - 2 ^ 31.
Definition to_int64 (z : Z) : Z := (z + 2 ^ 63) mod 2 ^ 64 - 2 ^ 63.
Definition to_uint64 (z : Z) : Z := z mod 2 ^ 64.
Definition to_uint32 (z : Z) : Z := z mod 2 ^ 32.
Definition to_uint16 (z : Z) : Z := z mod 2 ^ 16.
Definition to_uint8 (z : Z) : Z := z mod 2 ^ 8.

Definition is_int (z : Z) : Prop := int_min <= z <= int_max.
Definition is_int64 (z : Z) : Prop := int64_min <= z <= int64_max.
Definition is_uint64 (z : Z) : Prop := 0 <= z <= uint64_max.

(** Signed arithmetic is undefined where it overflows. *)
Definition ck_int (z : Z) : exec Z :=
  if (int_min <=? z) && (z <=? int_max) then Done z else UB.

Definition ck_int64 (z : Z) : exec Z :=
  if (int64_min <=? z) && (z <=? int64_max) then Done z else UB.

(** The machine constants, unfolded for [lia]. *)
Ltac ints :=
  unfold is_int, is_int64, is_uint64, int_min, int_max, int64_min, int64_max, uint64_max in *.
Ltac zlia := ints; lia.

Lemma ck_int_Done z a : ck_int z = Done a <-> is_int z /\ a = z.
Proof.
  unfold ck_int. split.
  - intros H. case_match; simplify_eq. zlia.
  - intros [H ->]. case_match; [done | zlia].
Qed.

Lemma ck_int_ok z : is_int z -> ck_int z = Done z.
Proof. intros. by apply ck_int_Done. Qed.

Lemma ends_ck_int z : ends (ck_int z).
Proof. unfold ck_int. ends_tac. Qed.
Lemma ends_ck_int64 z : ends (ck_int64 z).
Proof. unfold ck_int64. ends_tac. Qed.
#[export] Hint Resolve ends_ck_int ends_ck_int64 : ends.

Lemma ck_int64_ok z : is_int64 z -> ck_int64 z = Done z.
Proof. unfold ck_int64. intros. case_match; [done | zlia]. Qed.

Lemma to_int_id z : is_int z -> to_int z = z.
Proof. unfold to_int. intros. rewrite Z.mod_small; zlia. Qed.

Lemma to_int64_id z : is_int64 z -> to_int64 z = z.
Proof. unfold to_int64. intros. rewrite Z.mod_small; zlia. Qed.

Lemma to_uint64_id z : is_uint64 z -> to_uint64 z = z.
Proof. unfold to_uint64. intros. rewrite Z.mod_small; zlia. Qed.

Lemma to_uint64_range z : is_uint64 (to_uint64 z).
Proof. unfold to_uint64. pose proof (Z.mod_pos_bound z (2 ^ 64)). zlia. Qed.

(** * Lists indexed by [Z] *)

Section ZLists.
Context {A : Type}.
Implicit Types (l k : list A) (n m : Z).

Lemma zlen_nonneg l : 0 <= zlen l.
Proof. unfold zlen. lia. Qed.

Lemma zlen_nil : zlen (@nil A) = 0.
Proof. done. Qed.

Lemma zlen_cons x l : zlen (x :: l) = 1 + zlen l.
Proof. unfold zlen. cbn [length]. lia. Qed.

Lemma zlen_app l k : zlen (l ++ k) = zlen l + zlen k.
Proof. unfold zlen. rewrite length_app. lia. Qed.

Lemma zlen_0 l : zlen l = 0 -> l = [].
Proof. destruct l; [done |]. rewrite zlen_cons. pose proof (zlen_nonneg l). lia. Qed.

Lemma zlen_ztake n l : 0 <= n <= zlen l -> zlen (ztake n l) = n.
Proof. unfold zlen, ztake. intros. rewrite length_take. lia. Qed.

Lemma zlen_zdrop n l : 0 <= n <= zlen l -> zlen (zdrop n l) = zlen l - n.
Proof. unfold zlen, zdrop. intros. rewrite length_drop. lia. Qed.

Lemma ztake_zdrop n l : ztake n l ++ zdrop n l = l.
Proof. apply take_drop. Qed.

Lemma ztake_app l k : ztake (zlen l) (l ++ k) = l.
Proof. unfold ztake, zlen. rewrite Nat2Z.id. by rewrite take_app_length. Qed.

Lemma zdrop_app l k : zdrop (zlen l) (l ++ k) = k.
Proof. unfold zdrop, zlen. rewrite Nat2Z.id. by rewrite drop_app_length. Qed.

Lemma ztake_app' n l k : n = zlen l -> ztake n (l ++ k) = l.
Proof. intros ->. apply ztake_app. Qed.

Lemma zdrop_app' n l k : n = zlen l -> zdrop n (l ++ k) = k.
Proof. intros ->. apply zdrop_app. Qed.

Lemma ztake_app_le n l k : n <= zlen l -> ztake n (l ++ k) = ztake n l.
Proof. unfold ztake, zlen. intros. apply take_app_le. lia. Qed.

Lemma zdrop_app_le n l k : n <= zlen l -> zdrop n (l ++ k) = zdrop n l ++ k.
Proof. unfold zdrop, zlen. intros. apply drop_app_le. lia. Qed.

Lemma zdrop_app_ge n l k : 0 <= n -> zdrop (zlen l + n) (l ++ k) = zdrop n k.
Proof.
  unfold zdrop, zlen. intros. rewrite drop_app_ge by lia. f_equal. lia.
Qed.

Lemma ztake_all n l : zlen l <= n -> ztake n l = l.
Proof. unfold ztake, zlen. intros. apply take_ge. lia. Qed.

Lemma zdrop_all n l : zlen l <= n -> zdrop n l = [].
Proof. unfold zdrop, zlen. intros. apply drop_ge. lia. Qed.

Lemma ztake_0 l : ztake 0 l = [].
Proof. done. Qed.

Lemma zdrop_0 l : zdrop 0 l = l.
Proof. done. Qed.

Lemma zdrop_zdrop n m l : 0 <= n -> 0 <= m -> zdrop n (zdrop m l) = zdrop (m + n) l.
Proof. unfold zdrop. intros. rewrite drop_drop. f_equal. lia. Qed.

Lemma zdrop_cons n x l : 0 < n -> zdrop n (x :: l) = zdrop (n - 1) l.
Proof.
  unfold zdrop. intros. by replace (Z.to_nat n) with (S (Z.to_nat (n - 1))) by lia.
Qed.

Lemma ztake_ztake n m l : 0 <= n <= m -> ztake n (ztake m l) = ztake n l.
Proof. unfold ztake. intros. rewrite take_take. f_equal. lia. Qed.

Lemma zdrop_ztake n m l :
  0 <= n <= m -> zdrop n (ztake m l) = ztake (m - n) (zdrop n l).
Proof.
  unfold zdrop, ztake. intros. rewrite skipn_firstn_comm. f_equal. lia.
Qed.
End ZLists.

#[export] Hint Resolve zlen_nonneg uchar_range : core.

(** Lengths of concatenations, computed. *)
Ltac zl_simp :=
  repeat match goal with
  | |- context [zlen (?l ++ ?k)] => rewrite (zlen_app l k)
  | |- context [zlen (?x :: ?l)] => rewrite (zlen_cons x l)
  | |- context [zlen (@nil ?A)] => rewrite (@zlen_nil A)
  | H : context [zlen (?l ++ ?k)] |- _ => rewrite (zlen_app l k) in H
  | H : context [zlen (?x :: ?l)] |- _ => rewrite (zlen_cons x l) in H
  | H : context [zlen (@nil ?A)] |- _ => rewrite (@zlen_nil A) in H
  end.

(** Arithmetic over lengths: they are computed and known to be non-negative,
    which discharges the side conditions of most list lemmas. *)
Ltac zl :=
  zl_simp;
  repeat match goal with
  | |- context [zlen ?l] => lazymatch goal with
      | _ : 0 <= zlen l |- _ => fail
      | _ => pose proof (zlen_nonneg l) end
  | _ : context [zlen ?l] |- _ => lazymatch goal with
      | _ : 0 <= zlen l |- _ => fail
      | _ => pose proof (zlen_nonneg l) end
  end;
  zlia.

(** Arithmetic side conditions met by [eauto with lia]. *)
Create HintDb lia.
#[export] Hint Extern 1 (_ <= _) => lia : lia.
#[export] Hint Extern 1 (_ < _) => lia : lia.

(** * Accounting *)

(** The sum of a number over a list, and what changing one element does to it. *)
Section Tally.
Context {A : Type}.

Definition tally (g : A -> nat) (l : list A) : nat := sum_list (g <$> l).

Lemma tally_cons g x l : tally g (x :: l) = (g x + tally g l)%nat.
Proof. reflexivity. Qed.

Lemma tally_insert g l i a b : l !! i = Some a ->
  (tally g (<[i := b]> l) + g a = tally g l + g b)%nat.
Proof.
  revert i. induction l as [| x l IH]; intros [| i] Hi; try done.
  - injection Hi as <-. change (<[0%nat := b]> (x :: l)) with (b :: l). rewrite !tally_cons. lia.
  - specialize (IH i Hi). change (<[S i := b]> (x :: l)) with (x :: <[i := b]> l). rewrite !tally_cons. lia.
Qed.

Lemma tally_pos g l : (0 < tally g l)%nat -> exists i a, l !! i = Some a /\ (0 < g a)%nat.
Proof.
  induction l as [| x l IH]; [unfold tally; cbn; lia |]. rewrite tally_cons. intros H.
  destruct (g x) eqn:E; [| exists 0%nat, x; split; [done | lia]].
  destruct IH as (i & a & Hi & Ha); [lia |]. by exists (S i), a.
Qed.

Lemma tally_ge g l i a : l !! i = Some a -> (g a <= tally g l)%nat.
Proof.
  revert i. induction l as [| x l IH]; intros [| i] Hi; try done; rewrite tally_cons.
  - injection Hi as ->. lia.
  - specialize (IH i Hi). lia.
Qed.

Lemma tally_replicate g n a : g a = 0%nat -> tally g (replicate n a) = 0%nat.
Proof. intros Hg. induction n; unfold tally in *; cbn; lia. Qed.

Lemma two_holders g ws i j (a b : A) : ws !! i = Some a -> ws !! j = Some b -> i <> j ->
  (g a + g b <= tally g ws)%nat.
Proof.
  revert i j. induction ws as [| x ws IH]; intros [| i] [| j] Hi Hj Hij; try done; rewrite tally_cons.
  - injection Hi as ->. pose proof (tally_ge g ws j b Hj). lia.
  - injection Hj as ->. pose proof (tally_ge g ws i a Hi). lia.
  - specialize (IH i j Hi Hj ltac:(congruence)). lia.
Qed.

End Tally.

Lemma tally_map {A B} (g : A -> nat) (h : B -> A) l : tally g (h <$> l) = tally (fun x => g (h x)) l.
Proof. unfold tally. by rewrite <- list_fmap_compose. Qed.

Definition b2n (b : bool) : nat := if b then 1 else 0.

Lemma b2n_le b : (b2n b <= 1)%nat.
Proof. destruct b; cbn; lia. Qed.

(** Lists joined from parts. *)
Lemma mjoin_cons {A} (x : list A) (l : list (list A)) : mjoin (x :: l) = x ++ mjoin l.
Proof. reflexivity. Qed.

Lemma mjoin_insert {A B} (g : A -> list B) (l : list A) i a b : l !! i = Some a ->
  mjoin (g <$> <[i := b]> l) ++ g a ≡ₚ mjoin (g <$> l) ++ g b.
Proof.
  revert i. induction l as [| x l IH]; intros [| i] Hi; try done.
  - injection Hi as <-. change (<[0%nat := b]> (x :: l)) with (b :: l).
    rewrite !fmap_cons, !mjoin_cons. solve_Permutation.
  - specialize (IH i Hi). change (<[S i := b]> (x :: l)) with (x :: <[i := b]> l).
    rewrite !fmap_cons, !mjoin_cons, <- !app_assoc. by rewrite IH.
Qed.

Lemma mjoin_replicate {A B} (g : A -> list B) n a : g a = [] -> mjoin (g <$> replicate n a) = [].
Proof. intros Hg. induction n as [| n IH]; [done |]. cbn [replicate]. by rewrite fmap_cons, mjoin_cons, Hg, IH. Qed.

(** * Streams *)

(** A stream of messages that is cut somewhere: whole messages, and a proper prefix of
    the next one. *)
Section Streams.
Context {A B : Type} (enc : A -> list B).
Implicit Types (ms : list A) (part : list B).

(** A proper prefix of the first of the messages to come. *)
Definition pending part ms : Prop :=
  part = [] \/ exists m ms' missing, ms = m :: ms' /\ part ++ missing = enc m /\ missing <> [].

Lemma split_stream ms : forall w fut, w ++ fut = mjoin (enc <$> ms) ->
  exists ms1 ms2 part, ms = ms1 ++ ms2 /\ w = mjoin (enc <$> ms1) ++ part /\ part ++ fut = mjoin (enc <$> ms2) /\
    pending part ms2.
Proof.
  induction ms as [| m ms IH]; intros w fut E.
  - apply app_nil in E as [-> ->]. exists [], [], []. split_and!; try done. by left.
  - rewrite fmap_cons, mjoin_cons in E. apply app_eq_inv in E as [(k & -> & Ek) | (k & Ek & E')].
    + destruct (IH k fut (eq_sym Ek)) as (ms1 & ms2 & part & -> & -> & Ep & Hp).
      exists (m :: ms1), ms2, part. split_and!; try done. by rewrite fmap_cons, mjoin_cons, app_assoc.
    + destruct (decide (k = [])) as [-> | Hk].
      * rewrite app_nil_r in Ek. cbn in E'. subst w fut. exists [m], ms, [].
        split_and!; [done | | done | by left]. by rewrite fmap_cons, mjoin_cons, !app_nil_r.
      * exists [], (m :: ms), w. split_and!; try done.
        -- by rewrite fmap_cons, mjoin_cons, Ek, E', app_assoc.
        -- right. exists m, ms, k. by split_and!.
Qed.

(** What is pending has no whole message. *)
Lemma pending_no_whole part ms1 ms2 rest : (forall m, enc m <> []) -> pending part (ms1 ++ ms2) ->
  part = mjoin (enc <$> ms1) ++ rest -> ms1 = [].
Proof.
  intros Hne Hp E. destruct ms1 as [| m ms]; [done |]. exfalso. rewrite fmap_cons, mjoin_cons, <- app_assoc in E.
  destruct Hp as [-> | (m' & ms' & missing & [= <- <-] & Em & Hm)].
  - symmetry in E. apply app_nil in E as [E _]. by apply (Hne m).
  - apply (f_equal length) in E, Em. rewrite !length_app in *. destruct missing; [done |]. cbn in *. lia.
Qed.
End Streams.
