(* ===== verification/CHeap.v ===== *)
(** Structs on the heap of a C program: a store of cells of one type, pointers
    into it, and the programs that use them.  Reading or writing through a null
    or dangling pointer, and freeing twice, is undefined behaviour. *)
From S2P Require Import Prelude.

Abbreviation loc := positive.
(** A pointer; [None] is [NULL]. *)
Abbreviation ptr := (option loc).

(** What [malloc] answers: nothing, or an address that is not in use. *)
Class Malloc (T : Type) := {
  malloc : gmap loc T -> ptr;
  malloc_fresh h l : malloc h = Some l -> h !! l = None
}.

Section Programs.
Context {T : Type}.

(** A program that works on the heap. *)
Definition M (A : Type) : Type := gmap loc T -> exec (A * gmap loc T).

Definition ret {A} (a : A) : M A := fun h => Done (a, h).
Definition bind {A B} (m : M A) (f : A -> M B) : M B := fun h =>
  let* (a, h) := m h in f a h.
Definition no_fuel {A} : M A := fun _ => NoFuel.
(** Loops over the heap are given its size as fuel. *)
Definition with_fuel {A} (f : nat -> M A) : M A := fun h => f (S (size h)) h.

Definition load (p : ptr) : M T := fun h =>
  match p ≫= (h !!.) with Some v => Done (v, h) | None => UB end.
Definition store (p : ptr) (v : T) : M unit := fun h =>
  match p with
  | Some l => if decide (is_Some (h !! l)) then Done (tt, <[l := v]> h) else UB
  | None => UB
  end.
Definition modify (p : ptr) (f : T -> T) : M unit := bind (load p) (fun v => store p (f v)).
Definition alloc `{Malloc T} (v : T) : M ptr := fun h =>
  match malloc h with Some l => Done (Some l, <[l := v]> h) | None => Done (None, h) end.
Definition dealloc (p : ptr) : M unit := fun h =>
  match p with
  | Some l => if decide (is_Some (h !! l)) then Done (tt, delete l h) else UB
  | None => Done (tt, h)
  end.

(** [l[i]]; outside of the array it is undefined. *)
Definition index {A} (l : list A) (i : Z) : M A := fun h =>
  if 0 <=? i then match l !! Z.to_nat i with Some a => Done (a, h) | None => UB end else UB.
(** The indices of [for(int j = a; j < b; ++j)] and of [for(int j = a; j >= b; j--)]. *)
Definition up (a b : Z) : list Z := (fun i => a + Z.of_nat i) <$> seq 0 (Z.to_nat (b - a)).
Definition down (a b : Z) : list Z := (fun i => a - Z.of_nat i) <$> seq 0 (Z.to_nat (a - b + 1)).
End Programs.
Arguments M : clear implicits.

Notation "'let!' p := m 'in' k" := (bind m (fun p => k))
  (at level 10, p pattern, m at level 200, k at level 200).
Notation "m ;! k" := (bind m (fun _ => k)) (at level 90, right associativity).

(** * What a heap holds *)

Section Cells.
Context {T : Type}.
Implicit Types (h : gmap loc T) (cs : list (loc * T)).

(** The heap has these cells (and perhaps others). *)
Definition sees h cs : Prop := Forall (fun c => h !! c.1 = Some c.2) cs.

Lemma bind_ret {A B} (a : A) (f : A -> M T B) h : bind (ret a) f h = f a h.
Proof. done. Qed.

Lemma bind_eq {A B} (m : M T A) (f : A -> M T B) h a h' :
  m h = Done (a, h') -> bind m f h = f a h'.
Proof. unfold bind. by intros ->. Qed.

Lemma bind_bind {A B C} (m : M T A) (f : A -> M T B) (g : B -> M T C) h :
  bind (bind m f) g h = bind m (fun a => bind (f a) g) h.
Proof. unfold bind. by destruct (m h) as [[a h'] | |]. Qed.

Lemma bind_load {B} l v (f : T -> M T B) h : h !! l = Some v -> bind (load (Some l)) f h = f v h.
Proof. intros H. apply bind_eq. unfold load. cbn. by rewrite H. Qed.

Lemma bind_store {B} l v w (f : unit -> M T B) h :
  h !! l = Some w -> bind (store (Some l) v) f h = f tt (<[l := v]> h).
Proof. intros H. apply bind_eq. unfold store. by rewrite decide_True by eauto. Qed.

Lemma bind_modify {B} l v g (f : unit -> M T B) h :
  h !! l = Some v -> bind (modify (Some l) g) f h = f tt (<[l := g v]> h).
Proof.
  intros H. unfold modify. rewrite bind_bind, (bind_load _ v) by done. by apply (bind_store _ _ v).
Qed.

Lemma bind_dealloc {B} l v (f : unit -> M T B) h :
  h !! l = Some v -> bind (dealloc (Some l)) f h = f tt (delete l h).
Proof. intros H. apply bind_eq. unfold dealloc. by rewrite decide_True by eauto. Qed.

Lemma bind_index {A B} (l : list A) i a (f : A -> M T B) h :
  0 <= i -> l !! Z.to_nat i = Some a -> bind (index l i) f h = f a h.
Proof. intros Hi Ha. apply bind_eq. unfold index. by rewrite (proj2 (Z.leb_le 0 i) Hi), Ha. Qed.

Lemma bind_alloc `{Malloc T} {B} v (f : ptr -> M T B) h :
  bind (alloc v) f h = match malloc h with Some l => f (Some l) (<[l := v]> h) | None => f None h end.
Proof. unfold bind, alloc. by destruct (malloc h). Qed.

Lemma sees_nil h : sees h [].
Proof. constructor. Qed.

Lemma sees_cons h l v cs : sees h ((l, v) :: cs) <-> h !! l = Some v /\ sees h cs.
Proof. unfold sees. by rewrite Forall_cons. Qed.

Lemma sees_app h cs ds : sees h (cs ++ ds) <-> sees h cs /\ sees h ds.
Proof. apply Forall_app. Qed.

Lemma sees_lookup h cs l v : sees h cs -> (l, v) ∈ cs -> h !! l = Some v.
Proof. unfold sees. rewrite Forall_forall. intros H Hin. by apply (H _ Hin). Qed.

Lemma sees_insert h l v cs : l ∉ cs.*1 -> sees h cs -> sees (<[l := v]> h) cs.
Proof.
  unfold sees. rewrite !Forall_forall. intros Hl H c Hc.
  rewrite lookup_insert_ne; [by apply H |]. intros ->. apply Hl, list_elem_of_fmap_2, Hc.
Qed.

Lemma sees_delete h l cs : l ∉ cs.*1 -> sees h cs -> sees (delete l h) cs.
Proof.
  unfold sees. rewrite !Forall_forall. intros Hl H c Hc.
  rewrite lookup_delete_ne; [by apply H |]. intros ->. apply Hl, list_elem_of_fmap_2, Hc.
Qed.

Lemma sees_dom h cs l : sees h cs -> l ∈ cs.*1 -> is_Some (h !! l).
Proof.
  intros H Hl. apply list_elem_of_fmap_1 in Hl as ([l' v] & -> & Hin).
  exists v. by apply (sees_lookup _ cs).
Qed.

Lemma sees_agree h h' cs : (forall x, x ∈ cs.*1 -> h' !! x = h !! x) -> sees h cs -> sees h' cs.
Proof.
  unfold sees. rewrite !Forall_forall. intros Ha H c Hc.
  rewrite Ha; [by apply H | by apply list_elem_of_fmap_2].
Qed.

(** The heap is as large as what it is seen to hold. *)
Lemma sees_size h cs : sees h cs -> NoDup cs.*1 -> (length cs <= size h)%nat.
Proof.
  intros Hs Hn. rewrite <- (length_fmap fst), <- size_dom.
  rewrite <- (size_list_to_set (C := gset loc)) by done. apply subseteq_size.
  intros l. rewrite elem_of_list_to_set, elem_of_dom. by apply sees_dom.
Qed.

(** ** All of the cells a structure has *)

(** The heap has these cells, all different, and perhaps others. *)
Definition owned h cs : Prop := sees h cs /\ NoDup cs.*1.

#[export] Instance owned_proper h : Proper ((≡ₚ) ==> iff) (owned h).
Proof. intros cs cs' E. unfold owned, sees. by rewrite E. Qed.

Lemma owned_perm h cs cs' : owned h cs -> cs ≡ₚ cs' -> owned h cs'.
Proof. by intros O <-. Qed.

Lemma owned_load {B} a v cs h (f : T -> M T B) : owned h ((a, v) :: cs) -> bind (load (Some a)) f h = f v h.
Proof. intros [Hs _]. apply sees_cons in Hs as [Ha _]. by apply bind_load. Qed.

Lemma owned_modify a v cs h g : owned h ((a, v) :: cs) ->
  modify (Some a) g h = Done (tt, <[a := g v]> h) /\ owned (<[a := g v]> h) ((a, g v) :: cs).
Proof.
  intros [Hs Hn]. apply sees_cons in Hs as [Ha Hs]. split.
  - unfold modify. rewrite (bind_load _ _ _ _ Ha). unfold store. by rewrite decide_True by eauto.
  - split; [| done]. apply sees_cons. split; [apply lookup_insert_eq |].
    apply sees_insert; [by apply NoDup_cons in Hn as [Hn _] | done].
Qed.

Lemma owned_store a v w cs h : owned h ((a, v) :: cs) ->
  store (Some a) w h = Done (tt, <[a := w]> h) /\ owned (<[a := w]> h) ((a, w) :: cs).
Proof.
  intros H. destruct (owned_modify a v cs h (fun _ => w) H) as [E Ho]. split; [| done]. rewrite <- E.
  unfold modify. by rewrite (owned_load a v cs) by done.
Qed.

Lemma owned_app h cs cs' : owned h (cs ++ cs') -> owned h cs.
Proof. intros [Hs Hn]. rewrite sees_app in Hs. rewrite fmap_app in Hn. apply NoDup_app in Hn. split; tauto. Qed.

Lemma owned_ne h a v b w cs : owned h ((a, v) :: (b, w) :: cs) -> a <> b.
Proof. intros [_ Hn]. apply NoDup_cons in Hn as [Hn _]. cbn in Hn. set_solver. Qed.

Lemma owned_notin h a v cs : owned h ((a, v) :: cs) -> a ∉ cs.*1.
Proof. intros [_ Hn]. by apply NoDup_cons in Hn as [Hn _]. Qed.

Lemma owned_size h cs : owned h cs -> (length cs <= size h)%nat.
Proof. intros [Hs Hn]. by apply sees_size. Qed.

Lemma owned_lookup h a v cs : owned h ((a, v) :: cs) -> h !! a = Some v.
Proof. intros [Hs _]. by apply sees_cons in Hs as [Ha _]. Qed.

Lemma run_fuel {A B} (m : nat -> M T A) (f : A -> M T B) h :
  bind (with_fuel m) f h = bind (m (S (size h))) f h.
Proof. done. Qed.
End Cells.

(** Bringing the cell of [a] to the front. *)
Ltac del a l :=
  lazymatch l with
  | (a, _) :: ?t => constr:(t)
  | ?x :: ?t => let t' := del a t in constr:(x :: t')
  | ?Y ++ ?t => let t' := del a t in constr:(Y ++ t')
  end.
Ltac val a l :=
  lazymatch l with
  | (a, ?v) :: _ => constr:(v)
  | _ :: ?t => val a t
  | _ ++ ?t => val a t
  end.
Ltac focus O a :=
  lazymatch type of O with
  | owned _ ((a, _) :: _) => idtac
  | owned ?h ?cs =>
      let v := val a cs in let r := del a cs in
      let E := fresh in
      assert (cs ≡ₚ (a, v) :: r) as E by solve_Permutation;
      rewrite E in O; clear E
  end.

(** Bringing the cells [X] of a part to the front. *)
Ltac del_part X l :=
  lazymatch l with
  | X => lazymatch type of X with list ?A => constr:(@nil A) end
  | X ++ ?t => constr:(t)
  | ?x :: ?t => let t' := del_part X t in constr:(x :: t')
  | ?Y ++ ?t => let t' := del_part X t in constr:(Y ++ t')
  end.
Ltac front O X :=
  lazymatch type of O with
  | owned _ (X ++ _) => idtac
  | owned ?h ?cs =>
      let r := del_part X cs in
      let E := fresh in
      assert (cs ≡ₚ X ++ r) as E by solve_Permutation;
      rewrite E in O; clear E
  end.

(** [NoDup] of a rearranged list. *)
Ltac nodup_perm H := refine (proj1 (NoDup_Permutation_proper _ _ _) H); solve_Permutation.
