(* ===== verification/NgxQueue.v ===== *)
(** The intrusive queues of [cnm/util/queue.h]: circular doubly linked lists through
    cells that the caller embeds in its own structs, with a cell of its own (the
    sentinel) for the queue itself.

    The macros are programs on a heap of cells.  [ring] says that the cells after a
    sentinel are a given list, both ways round; [queue_refinement] that the macros
    are the list operations, for any number of queues in one heap. *)
From S2P Require Import Prelude CHeap.

(** [ngx_queue_s] *)
Record ngx_queue_t := mkQueue { prev : ptr; next : ptr }.

Abbreviation heap := (gmap loc ngx_queue_t).
Abbreviation prog := (M ngx_queue_t).

Definition with_prev (p : ptr) (c : ngx_queue_t) : ngx_queue_t := mkQueue p (next c).
Definition with_next (n : ptr) (c : ngx_queue_t) : ngx_queue_t := mkQueue (prev c) n.
(** [(q)->prev], [(q)->next], and assignments to them. *)
Definition get_prev (q : ptr) : prog ptr := let! c := load q in ret (prev c).
Definition get_next (q : ptr) : prog ptr := let! c := load q in ret (next c).
Definition set_prev (q p : ptr) : prog unit := modify q (with_prev p).
Definition set_next (q n : ptr) : prog unit := modify q (with_next n).

(** * The macros *)

Definition ngx_queue_init (q : ptr) : prog unit :=
  set_prev q q ;! set_next q q.

Definition ngx_queue_empty (h : ptr) : prog bool :=
  let! p := get_prev h in ret (bool_decide (h = p)).

Definition ngx_queue_insert_head (h x : ptr) : prog unit :=
  (let! n := get_next h in set_next x n) ;!
  (let! n := get_next x in set_prev n x) ;!
  set_prev x h ;!
  set_next h x.

Definition ngx_queue_insert_after := ngx_queue_insert_head.

Definition ngx_queue_insert_tail (h x : ptr) : prog unit :=
  (let! p := get_prev h in set_prev x p) ;!
  (let! p := get_prev x in set_next p x) ;!
  set_next x h ;!
  set_prev h x.

Definition ngx_queue_head (h : ptr) : prog ptr := get_next h.
Definition ngx_queue_last (h : ptr) : prog ptr := get_prev h.
Definition ngx_queue_sentinel (h : ptr) : ptr := h.
Definition ngx_queue_next (q : ptr) : prog ptr := get_next q.
Definition ngx_queue_prev (q : ptr) : prog ptr := get_prev q.

Definition ngx_queue_remove (x : ptr) : prog unit :=
  (let! n := get_next x in let! p := get_prev x in set_prev n p) ;!
  (let! p := get_prev x in let! n := get_next x in set_next p n).

Definition ngx_queue_split (h q n : ptr) : prog unit :=
  (let! p := get_prev h in set_prev n p) ;!
  (let! p := get_prev n in set_next p n) ;!
  set_next n q ;!
  (let! p := get_prev q in set_prev h p) ;!
  (let! p := get_prev h in set_next p h) ;!
  set_prev q n.

Definition ngx_queue_add (h n : ptr) : prog unit :=
  (let! p := get_prev h in let! m := get_next n in set_next p m) ;!
  (let! m := get_next n in let! p := get_prev h in set_prev m p) ;!
  (let! p := get_prev n in set_prev h p) ;!
  (let! p := get_prev h in set_next p h).

(** The loop that visits a queue: [for(q = head(h); q != sentinel(h); q = next(q))],
    as the comment of [ae_work_submit] has it. *)
Fixpoint walk_loop (fuel : nat) (h q : ptr) : prog (list ptr) :=
  match fuel with
  | O => no_fuel
  | S fuel =>
      if decide (q = ngx_queue_sentinel h) then ret []
      else let! n := ngx_queue_next q in let! l := walk_loop fuel h n in ret (q :: l)
  end.
Definition walk (h : ptr) : prog (list ptr) :=
  let! q := ngx_queue_head h in with_fuel (fun fuel => walk_loop fuel h q).

(** * What a heap holds *)
Module QueueSpec.

Definition nxt (h : heap) (x : loc) : ptr := h !! x ≫= next.
Definition prv (h : heap) (x : loc) : ptr := h !! x ≫= prev.
Definition cell (h : heap) (x : loc) : Prop := is_Some (h !! x).
#[global] Typeclasses Opaque cell.

Lemma nxt_here h x n : cell h x -> nxt (alter (with_next n) x h) x = n.
Proof. intros [c Hc]. unfold nxt. by rewrite lookup_alter_eq, Hc. Qed.
Lemma prv_here h x p : cell h x -> prv (alter (with_prev p) x h) x = p.
Proof. intros [c Hc]. unfold prv. by rewrite lookup_alter_eq, Hc. Qed.
Lemma nxt_other h x y n : y <> x -> nxt (alter (with_next n) x h) y = nxt h y.
Proof. intros Hne. unfold nxt. by rewrite lookup_alter_ne. Qed.
Lemma prv_other h x y p : y <> x -> prv (alter (with_prev p) x h) y = prv h y.
Proof. intros Hne. unfold prv. by rewrite lookup_alter_ne. Qed.
Lemma nxt_prev h x y p : nxt (alter (with_prev p) x h) y = nxt h y.
Proof. unfold nxt. rewrite lookup_alter. by case_decide; subst; destruct (h !! _). Qed.
Lemma prv_next h x y n : prv (alter (with_next n) x h) y = prv h y.
Proof. unfold prv. rewrite lookup_alter. by case_decide; subst; destruct (h !! _). Qed.
Lemma cell_alter f h x y : cell (alter f x h) y <-> cell h y.
Proof. unfold cell. by rewrite lookup_alter_is_Some. Qed.
Lemma cell_nxt h x y : nxt h x = Some y -> cell h x.
Proof. unfold nxt, cell. by destruct (h !! x). Qed.
Lemma cell_prv h x y : prv h x = Some y -> cell h x.
Proof. unfold prv, cell. by destruct (h !! x). Qed.

Lemma run_get_next {B} x (f : ptr -> prog B) h : cell h x -> bind (get_next (Some x)) f h = f (nxt h x) h.
Proof.
  intros [c Hc]. unfold get_next. rewrite bind_bind, (bind_load _ c), bind_ret by done.
  unfold nxt. by rewrite Hc.
Qed.
Lemma run_get_prev {B} x (f : ptr -> prog B) h : cell h x -> bind (get_prev (Some x)) f h = f (prv h x) h.
Proof.
  intros [c Hc]. unfold get_prev. rewrite bind_bind, (bind_load _ c), bind_ret by done.
  unfold prv. by rewrite Hc.
Qed.
Lemma eq_set_next x n h : cell h x -> set_next (Some x) n h = Done (tt, alter (with_next n) x h).
Proof.
  intros [c Hc]. unfold set_next, modify. rewrite (bind_load _ c) by done. unfold store.
  rewrite decide_True by eauto. f_equal. f_equal. apply map_eq. intros y. rewrite lookup_alter.
  case_decide; subst; [by rewrite lookup_insert_eq, Hc | by rewrite lookup_insert_ne].
Qed.
Lemma eq_set_prev x p h : cell h x -> set_prev (Some x) p h = Done (tt, alter (with_prev p) x h).
Proof.
  intros [c Hc]. unfold set_prev, modify. rewrite (bind_load _ c) by done. unfold store.
  rewrite decide_True by eauto. f_equal. f_equal. apply map_eq. intros y. rewrite lookup_alter.
  case_decide; subst; [by rewrite lookup_insert_eq, Hc | by rewrite lookup_insert_ne].
Qed.
Lemma run_set_next {B} x n (f : unit -> prog B) h :
  cell h x -> bind (set_next (Some x) n) f h = f tt (alter (with_next n) x h).
Proof. intros Hc. by apply bind_eq, eq_set_next. Qed.
Lemma run_set_prev {B} x p (f : unit -> prog B) h :
  cell h x -> bind (set_prev (Some x) p) f h = f tt (alter (with_prev p) x h).
Proof. intros Hc. by apply bind_eq, eq_set_prev. Qed.

(** [b] comes after [a]. *)
Definition linked (h : heap) (a b : loc) : Prop := nxt h a = Some b /\ prv h b = Some a.

Fixpoint chain (h : heap) (a : loc) (l : list loc) : Prop :=
  match l with [] => True | b :: l => linked h a b /\ chain h b l end.

(** The queue at [q] has the cells [l]. *)
Definition ring (h : heap) (q : loc) (l : list loc) : Prop :=
  cell h q /\ NoDup (q :: l) /\ chain h q l /\ linked h (List.last l q) q.

Lemma last_cons (a b : loc) l : List.last (b :: l) a = List.last l b.
Proof. revert a b. induction l as [| c l IH]; intros a b; [done |]. by rewrite IH, <- (IH a c). Qed.

Lemma last_snoc (a b : loc) l : List.last (l ++ [b]) a = b.
Proof. apply last_last. Qed.

Lemma last_app (a b : loc) l k : List.last (l ++ b :: k) a = List.last k b.
Proof. revert a. induction l as [| c l IH]; intros a; [apply last_cons |]. cbn [app]. by rewrite last_cons, IH. Qed.

Lemma chain_cat h a l k : chain h a (l ++ k) <-> chain h a l /\ chain h (List.last l a) k.
Proof.
  revert a. induction l as [| b l IH]; intros a; cbn [app chain]; [cbn; tauto |].
  rewrite IH, last_cons. tauto.
Qed.

(** Only the [next] of the cells before the end and the [prev] of those after the
    start matter. *)
Lemma chain_agree h h' a l : chain h a l ->
  (forall x, x ∈ a :: l -> x <> List.last l a -> nxt h' x = nxt h x) ->
  (forall x, x ∈ l -> prv h' x = prv h x) -> NoDup (a :: l) -> chain h' a l.
Proof.
  revert a. induction l as [| b l IH]; intros a Hc Hn Hp Hnd; [done |].
  destruct Hc as [[H1 H2] Hc]. apply NoDup_cons in Hnd as [Ha Hnd]. split; [split |].
  - rewrite Hn; [done | left |]. rewrite last_cons. intros ->. apply Ha.
    clear. revert b. induction l as [| c l IH]; intros b; [left |].
    rewrite last_cons. right. apply IH.
  - rewrite Hp; [done | left].
  - apply IH; [done | | | done].
    + intros x Hx Hl. rewrite last_cons in Hn. apply Hn; [by right | done].
    + intros x Hx. apply Hp. by right.
Qed.

Lemma last_in (a : loc) l : List.last l a ∈ a :: l.
Proof.
  revert a. induction l as [| b l IH]; intros a; [left |]. rewrite last_cons. right. apply IH.
Qed.

Lemma chain_cell h a l x : chain h a l -> x ∈ l -> cell h x.
Proof.
  revert a. induction l as [| b l IH]; intros a H Hx; [by inversion Hx |]. destruct H as [Hl Hc].
  apply elem_of_cons in Hx as [-> | Hx]; [| by apply (IH b)]. destruct Hl as [_ Hp]. by apply cell_prv in Hp.
Qed.

(** Only cells of [D] differ, and the same ones are there. *)
Definition within (D : list loc) (h h' : heap) : Prop :=
  (forall y, y ∉ D -> h' !! y = h !! y) /\ forall y, cell h' y <-> cell h y.

Lemma within_refl D h : within D h h.
Proof. done. Qed.

Lemma within_alter D h h' f x : x ∈ D -> within D h h' -> within D h (alter f x h').
Proof.
  intros Hx [Ha Hc]. split; intros y.
  - intros Hy. rewrite lookup_alter_ne by (intros ->; done). by apply Ha.
  - by rewrite cell_alter.
Qed.

Lemma ring_frame D h h' q l : within D h h' -> ring h q l -> (forall x, x ∈ q :: l -> x ∉ D) -> ring h' q l.
Proof.
  intros [Ha Hcc] (Hq & Hnd & Hc & H1 & H2) Hd.
  assert (forall x, x ∈ q :: l -> nxt h' x = nxt h x /\ prv h' x = prv h x) as E
    by (intros x Hx; unfold nxt, prv; by rewrite (Ha x (Hd x Hx))).
  split_and!; [by apply Hcc | done | |].
  - apply (chain_agree h); [done | | | done]; intros x Hx; [by intros _; apply E | apply E; by right].
  - split; [rewrite (proj1 (E _ (last_in q l))) | rewrite (proj2 (E q ltac:(left)))]; done.
Qed.

Lemma ring_cell h q l x : ring h q l -> x ∈ q :: l -> cell h x.
Proof.
  intros (Hq & _ & Hc & _) Hx. apply elem_of_cons in Hx as [-> | Hx]; [done | by apply (chain_cell h q l)].
Qed.

(** Running a macro: cells are there, and fields are read back. *)
Ltac qcell := repeat rewrite cell_alter; first [assumption | eassumption].
Ltac qread := repeat first
  [ rewrite nxt_prev | rewrite prv_next
  | rewrite nxt_here by qcell | rewrite prv_here by qcell
  | rewrite nxt_other by congruence | rewrite prv_other by congruence ].
Ltac qstep := repeat first
  [ rewrite bind_bind
  | rewrite run_get_next by qcell; qread | rewrite run_get_prev by qcell; qread
  | rewrite run_set_next by qcell | rewrite run_set_prev by qcell
  | rewrite eq_set_next by qcell | rewrite eq_set_prev by qcell
  | progress (repeat match goal with
      | H : nxt ?h ?x = Some _ |- context [nxt ?h ?x] => rewrite H
      | H : prv ?h ?x = Some _ |- context [prv ?h ?x] => rewrite H end) ].
Ltac qwithin := repeat (apply within_alter; [set_solver |]); apply within_refl.

Lemma init_ring h q : cell h q -> exists h',
  ngx_queue_init (Some q) h = Done (tt, h') /\ ring h' q [] /\ within [q] h h'.
Proof.
  intros Hq. unfold ngx_queue_init. qstep. eexists. split; [done |]. split; [| qwithin].
  split_and!; [qcell | by apply NoDup_singleton | done |]. split; cbn; qread; done.
Qed.

Lemma insert_tail_ring h q l x : ring h q l -> cell h x -> x ∉ q :: l -> exists h',
  ngx_queue_insert_tail (Some q) (Some x) h = Done (tt, h') /\ ring h' q (l ++ [x]) /\
  within (x :: q :: l) h h'.
Proof.
  intros Hr Hx Hn. pose proof (ring_cell _ _ _ _ Hr (last_in q l)) as Hz.
  pose proof (last_in q l) as Hzi. destruct Hr as (Hq & Hnd & Hc & H1 & H2).
  set (z := List.last l q) in *.
  assert (x <> z) by (intros ->; done). assert (x <> q) by (intros ->; apply Hn; left).
  unfold ngx_queue_insert_tail. qstep. eexists. split; [done |]. split; [| qwithin].
  split_and!; [qcell | | |].
  - rewrite app_comm_cons. apply NoDup_app. split_and!; [done | set_solver | by apply NoDup_singleton].
  - apply chain_cat. split.
    + apply (chain_agree h); [done | | | done]; intros y Hy; [intros Hyz; fold z in Hyz |].
      * assert (y <> x) by (by intros ->). by qread.
      * assert (y <> q) by (intros ->; by apply NoDup_cons in Hnd as [? _]).
        assert (y <> x) by (intros ->; apply Hn; by right). by qread.
    + split; [| done]. fold z. split; qread; done.
  - rewrite last_snoc. split; qread; done.
Qed.

Lemma insert_head_ring h q l x : ring h q l -> cell h x -> x ∉ q :: l -> exists h',
  ngx_queue_insert_head (Some q) (Some x) h = Done (tt, h') /\ ring h' q (x :: l) /\
  within (x :: q :: l) h h'.
Proof.
  intros Hr Hx Hn. pose proof Hr as (Hq & Hnd & Hc & H1 & H2).
  assert (exists f, nxt h q = Some f /\ f ∈ q :: l) as (f & Hf & Hfi).
  { destruct l as [| f l]; [exists q; split; [done | left] |].
    destruct Hc as [[Hf _] _]. exists f. split; [done | right; left]. }
  pose proof (ring_cell _ _ _ _ Hr Hfi) as Hfc.
  assert (x <> f) by (intros ->; done). assert (x <> q) by (intros ->; apply Hn; left).
  unfold ngx_queue_insert_head. qstep. eexists. split; [done |]. split; [| qwithin].
  apply NoDup_cons in Hnd as Hql. destruct Hql as [Hql _].
  split_and!; [qcell | | |].
  - apply NoDup_cons. split; [set_solver |]. apply NoDup_cons. split; [set_solver |]. by apply NoDup_cons in Hnd as [_ ?].
  - split; [split; qread; done |]. destruct l as [| f' l]; [done |]. destruct Hc as [[Hf' Hp'] Hc].
    rewrite Hf in Hf'. injection Hf' as <-. apply NoDup_cons in Hnd as [_ Hnd].
    split; [split; qread; done |]. apply (chain_agree h); [done | | | done]; intros y Hy; [intros Hyz |].
    + assert (y <> q) by (by intros ->). assert (y <> x) by (intros ->; apply Hn; by right). by qread.
    + assert (y <> f) by (intros ->; by apply NoDup_cons in Hnd as [? _]).
      assert (y <> x) by (intros ->; apply Hn; by right; right). by qread.
  - destruct l as [| f' l]; rewrite !last_cons in *.
    + cbn [List.last] in *. rewrite Hf in H1. injection H1 as ->. split; qread; done.
    + destruct Hc as [[Hf' _] _]. rewrite Hf in Hf'. injection Hf' as <-.
      assert (List.last l f <> q) by (intros E; apply Hql; rewrite <- E; apply last_in).
      assert (List.last l f <> x) by (intros <-; apply Hn; right; apply last_in).
      assert (q <> f) by (intros ->; apply Hql; left).
      split; qread; done.
Qed.

Lemma NoDup_app_ne (l k : list loc) : NoDup (l ++ k) -> forall a b, a ∈ l -> b ∈ k -> a <> b.
Proof. intros (_ & H & _)%NoDup_app a b Ha Hb ->. by apply (H b). Qed.

Lemma remove_ring h q l1 x l2 : ring h q (l1 ++ x :: l2) -> exists h',
  ngx_queue_remove (Some x) h = Done (tt, h') /\ ring h' q (l1 ++ l2) /\ within (q :: l1 ++ l2) h h'.
Proof.
  intros Hr. pose proof Hr as (Hq & Hnd & Hc & H1 & H2).
  apply chain_cat in Hc as [Hc1 [[Hp Hp'] Hc2]]. set (p := List.last l1 q) in *.
  set (n := List.hd q l2).
  assert (nxt h x = Some n /\ prv h n = Some x /\ n ∈ q :: l2) as (Hn & Hn' & Hni).
  { unfold n. destruct l2 as [| f l2].
    - rewrite last_snoc in *. split_and!; [done | done | left].
    - destruct Hc2 as [[? ?] _]. cbn [List.hd]. split_and!; [done | done | right; left]. }
  pose proof (last_in q l1) as Hpi. fold p in Hpi.
  apply NoDup_Permutation_proper with (x := q :: l1 ++ x :: l2) (y := x :: q :: l1 ++ l2) in Hnd as Hnd';
    [| solve_Permutation]. apply NoDup_cons in Hnd' as [Hx Hnd'].
  assert (n <> x) by (intros E; apply Hx; rewrite <- E; set_solver).
  assert (p <> x) by (intros E; apply Hx; rewrite <- E; set_solver).
  assert (cell h p) by (apply (ring_cell _ _ _ _ Hr); set_solver).
  assert (cell h n) by (apply (ring_cell _ _ _ _ Hr); set_solver).
  assert (cell h x) by (apply (ring_cell _ _ _ _ Hr); set_solver).
  assert (forall y, y ∈ q :: l1 -> y ∈ l2 -> False) as Hd
    by (rewrite app_comm_cons in Hnd'; by apply NoDup_app in Hnd' as (_ & ? & _)).
  apply NoDup_cons in Hnd' as Hq'. destruct Hq' as [Hq' _].
  unfold ngx_queue_remove. qstep. eexists. split; [done |]. split; [| qwithin].
  split_and!; [qcell | done | apply chain_cat; split |]; fold p.
  - apply (chain_agree h); [done | | |].
    + intros y _ Hyp. fold p in Hyp. by qread.
    + intros y Hy. assert (y <> n); [| by qread]. intros ->. apply elem_of_cons in Hni as [Hni | Hni].
      * apply Hq'. rewrite <- Hni. set_solver.
      * by apply (Hd n); [right |].
    + rewrite app_comm_cons in Hnd'. by apply NoDup_app in Hnd' as (? & _ & _).
  - unfold n in *. destruct l2 as [| f l2]; [done |]. destruct Hc2 as [_ Hc2]. cbn [hd] in *.
    split; [split; qread; done |]. rewrite app_comm_cons in Hnd'. apply NoDup_app in Hnd' as (_ & _ & Hnd').
    apply (chain_agree h); [done | | | done]; intros y Hy; [intros _ |].
    + assert (y <> p); [| by qread]. intros ->. by apply (Hd p).
    + assert (y <> f); [| by qread]. intros ->. by apply NoDup_cons in Hnd' as [? _].
  - unfold n in *. destruct l2 as [| f l2]; cbn [hd] in *.
    + rewrite app_nil_r. fold p. split; qread; done.
    + rewrite last_app in *. rewrite last_cons in *. pose proof (last_in f l2) as Hl.
      assert (List.last l2 f <> p) by (intros E; apply (Hd p); [done | by rewrite <- E]).
      assert (q <> f) by (intros ->; apply Hq'; set_solver). split; qread; done.
Qed.

Lemma split_ring h q l1 x l2 n : ring h q (l1 ++ x :: l2) -> cell h n -> n ∉ q :: l1 ++ x :: l2 -> exists h',
  ngx_queue_split (Some q) (Some x) (Some n) h = Done (tt, h') /\
  ring h' q l1 /\ ring h' n (x :: l2) /\ within (n :: q :: l1 ++ x :: l2) h h'.
Proof.
  intros Hr Hn Hni. pose proof Hr as (Hq & Hnd & Hc & H1 & H2).
  rewrite last_app in *. apply chain_cat in Hc as [Hc1 [[Hp Hp'] Hc2]].
  set (p := List.last l1 q) in *. set (z := List.last l2 x) in *.
  pose proof (last_in q l1) as Hpi. fold p in Hpi. pose proof (last_in x l2) as Hzi. fold z in Hzi.
  assert (cell h p) by (apply (ring_cell _ _ _ _ Hr); set_solver).
  assert (cell h z) by (apply (ring_cell _ _ _ _ Hr); set_solver).
  assert (cell h x) by (apply (ring_cell _ _ _ _ Hr); set_solver).
  rewrite app_comm_cons in Hnd. pose proof (NoDup_app_ne _ _ Hnd) as Hab.
  assert (n <> q /\ n <> p /\ n <> z /\ n <> x) as (? & ? & ? & ?)
    by (split_and!; intros ->; apply Hni; set_solver).
  assert (q <> x) by (apply Hab; [left | left]). assert (q <> z) by (apply Hab; [left | done]).
  assert (p <> x /\ p <> z) as [? ?] by (split; apply Hab; done || left).
  assert (forall y, y ∈ q :: l1 -> y <> n /\ y <> x /\ y <> z) as Hl
    by (intros y Hy; split_and!; [intros ->; set_solver | apply Hab; by try left ..]).
  assert (forall y, y ∈ x :: l2 -> y <> n /\ y <> q /\ y <> p) as Hr'
    by (intros y Hy; split_and!; [intros ->; set_solver | apply not_eq_sym, Hab; by try left ..]).
  apply NoDup_app in Hnd as (Hnd1 & _ & Hnd2). pose proof Hnd1 as [Hql _]%NoDup_cons. pose proof Hnd2 as [Hxl _]%NoDup_cons.
  unfold ngx_queue_split. qstep. eexists. split; [done |]. split; [| split; [| qwithin]].
  - split_and!; [qcell | done | | fold p; split; qread; done].
    apply (chain_agree h); [done | | | done]; intros y Hy.
    + intros Hyp. fold p in Hyp. destruct (Hl y Hy) as (? & ? & ?). by qread.
    + destruct (Hl y) as (? & ? & ?); [by right |]. assert (y <> q) by (by intros ->). by qread.
  - split_and!; [qcell | | split | rewrite last_cons; fold z; split; qread; done].
    + apply NoDup_cons. split; [set_solver | done].
    + split; qread; done.
    + apply (chain_agree h); [done | | | done]; intros y Hy.
      * intros Hyz. fold z in Hyz. destruct (Hr' y Hy) as (? & ? & ?). by qread.
      * destruct (Hr' y) as (? & ? & ?); [by right |]. assert (y <> x) by (by intros ->). by qread.
Qed.

Lemma add_ring h q l n k : ring h q l -> ring h n k -> NoDup ((q :: l) ++ n :: k) -> exists h',
  ngx_queue_add (Some q) (Some n) h = Done (tt, h') /\ ring h' q (l ++ k) /\ within ((q :: l) ++ n :: k) h h'.
Proof.
  intros Hr Hs Hnd. pose proof (NoDup_app_ne _ _ Hnd) as Hab.
  pose proof (last_in q l) as Hzi. set (z := List.last l q) in *.
  pose proof (ring_cell _ _ _ _ Hr Hzi) as Hz.
  destruct Hr as (Hq & Hnd1 & Hc & H1 & H2). fold z in H1, H2.
  assert (q <> n /\ z <> n) as [? ?] by (split; apply Hab; done || left).
  destruct k as [| f k].
  - destruct Hs as (Hn & _ & _ & H3 & H4). cbn [List.last] in *. rewrite app_nil_r.
    unfold ngx_queue_add. qstep. eexists. split; [done |]. split; [| qwithin].
    split_and!; [qcell | done | |].
    + apply (chain_agree h); [done | | | done]; intros y Hy.
      * intros Hyz. fold z in Hyz. by qread.
      * assert (y <> n) by (apply Hab; [by right | left]).
        assert (y <> q) by (intros ->; by apply NoDup_cons in Hnd1 as [? _]). by qread.
    + fold z. split; qread; done.
  - pose proof (last_in f k) as Hwi. set (w := List.last k f) in *.
    assert (cell h w /\ cell h f) as [Hw Hf] by (split; apply (ring_cell _ _ _ _ Hs); set_solver).
    destruct Hs as (Hn & Hnd2 & [[H5 H6] Hck] & H3 & H4). rewrite last_cons in *. fold w in H3, H4.
    pose proof Hnd2 as [Hnk Hndk]%NoDup_cons. pose proof Hndk as [Hfk _]%NoDup_cons.
    assert (n <> f /\ n <> w) as [? ?] by (split; intros ->; set_solver).
    assert (q <> f /\ q <> w) as [? ?] by (split; apply Hab; set_solver).
    assert (z <> f /\ z <> w) as [? ?] by (split; apply Hab; set_solver).
    assert (forall y, y ∈ q :: l -> y <> f /\ y <> w) as Hl by (intros y Hy; split; apply Hab; set_solver).
    assert (forall y, y ∈ f :: k -> y <> q /\ y <> z) as Hr' by (intros y Hy; split; apply not_eq_sym, Hab; set_solver).
    unfold ngx_queue_add. qstep. eexists. split; [done |]. split; [| qwithin].
    split_and!; [qcell | | apply chain_cat; split |].
    + rewrite app_comm_cons. apply NoDup_app. apply NoDup_app in Hnd as (_ & Hd & _). set_solver.
    + apply (chain_agree h); [done | | | done]; intros y Hy.
      * intros Hyz. fold z in Hyz. destruct (Hl y Hy). by qread.
      * destruct (Hl y); [by right |]. assert (y <> q) by (intros ->; by apply NoDup_cons in Hnd1 as [? _]). by qread.
    + fold z. split; [split; qread; done |]. apply (chain_agree h); [done | | | done]; intros y Hy.
      * intros Hyw. fold w in Hyw. destruct (Hr' y Hy). by qread.
      * destruct (Hr' y); [by right |]. assert (y <> f) by (by intros ->). by qread.
    + rewrite last_app. fold w. split; qread; done.
Qed.

Lemma empty_ring h q l : ring h q l -> ngx_queue_empty (Some q) h = Done (bool_decide (l = []), h).
Proof.
  intros (Hq & Hnd & _ & _ & Hp). unfold ngx_queue_empty. rewrite run_get_prev, Hp by done.
  unfold ret. do 2 f_equal. apply bool_decide_ext. split; [| by intros ->]. intros [= E].
  destruct l as [| x l]; [done |]. rewrite last_cons in E. apply NoDup_cons in Hnd as [Hn _].
  destruct Hn. rewrite E at 1. apply last_in.
Qed.

Lemma head_ring h q l : ring h q l -> ngx_queue_head (Some q) h = Done (Some (hd q l), h).
Proof.
  intros (Hq & _ & Hc & Hn & _). unfold ngx_queue_head, get_next. destruct Hq as [c Hcell].
  rewrite (bind_load _ c) by done. unfold ret. do 2 f_equal.
  assert (nxt h q = next c) as <- by (unfold nxt; by rewrite Hcell).
  destruct l as [| x l]; [done | by destruct Hc as [[? _] _]].
Qed.

Lemma last_ring h q l : ring h q l -> ngx_queue_last (Some q) h = Done (Some (List.last l q), h).
Proof.
  intros (Hq & _ & _ & _ & Hp). unfold ngx_queue_last, get_prev. destruct Hq as [c Hcell].
  rewrite (bind_load _ c) by done. unfold ret. do 2 f_equal. rewrite <- Hp. unfold prv. by rewrite Hcell.
Qed.

Lemma walk_loop_chain h q a l fuel : chain h a l -> linked h (List.last l a) q -> q ∉ l -> cell h a ->
  (length l < fuel)%nat -> forall n, nxt h a = n -> walk_loop fuel (Some q) n h = Done (Some <$> l, h).
Proof.
  revert a fuel. induction l as [| b l IH]; intros a [| fuel] Hc Hl Hq Ha Hf n Hn; cbn in Hf; [lia | | lia |].
  - destruct Hl as [Hl _]. cbn in Hl. rewrite Hl in Hn. subst n. cbn [walk_loop]. by rewrite decide_True.
  - destruct Hc as [[H1 H2] Hc]. rewrite H1 in Hn. subst n. cbn [walk_loop]. rewrite last_cons in Hl.
    rewrite decide_False by (intros [= ->]; apply Hq; left). pose proof (cell_prv _ _ _ H2) as Hb.
    unfold ngx_queue_next. rewrite run_get_next by done.
    rewrite (bind_eq _ _ _ (Some <$> l) h); [done |]. apply (IH b); try done; [set_solver | lia].
Qed.

Lemma walk_ring h q l : ring h q l -> walk (Some q) h = Done (Some <$> l, h).
Proof.
  intros Hr. pose proof Hr as (Hq & Hnd & Hc & Hl). unfold walk, with_fuel.
  rewrite (bind_eq _ _ _ _ _ (head_ring _ _ _ Hr)). apply (walk_loop_chain _ _ q); try done.
  - by apply NoDup_cons in Hnd as [? _].
  - assert (length (q :: l) <= size h)%nat; [| cbn in *; lia].
    rewrite <- size_dom, <- (size_list_to_set (C := gset loc)) by done. apply subseteq_size.
    intros x Hx%elem_of_list_to_set. apply elem_of_dom, (ring_cell _ _ _ _ Hr), Hx.
  - destruct l as [| x l]; [by destruct Hl | by destruct Hc as [[? _] _]].
Qed.

(** ** Any number of queues in a heap *)

Inductive op :=
  | Init (q : loc) | Insert_head (q x : loc) | Insert_tail (q x : loc) | Remove (q x : loc)
  | Split (q x n : loc) | Add (q n : loc) | Empty (q : loc) | Head (q : loc) | Last (q : loc) | Walk (q : loc).
Inductive answer := Nothing | Bool (b : bool) | Cell (p : ptr) | Cells (l : list ptr).

Definition run (o : op) : prog answer :=
  match o with
  | Init q => ngx_queue_init (Some q) ;! ret Nothing
  | Insert_head q x => ngx_queue_insert_head (Some q) (Some x) ;! ret Nothing
  | Insert_tail q x => ngx_queue_insert_tail (Some q) (Some x) ;! ret Nothing
  | Remove _ x => ngx_queue_remove (Some x) ;! ret Nothing
  | Split q x n => ngx_queue_split (Some q) (Some x) (Some n) ;! ret Nothing
  | Add q n => ngx_queue_add (Some q) (Some n) ;! ret Nothing
  | Empty q => let! b := ngx_queue_empty (Some q) in ret (Bool b)
  | Head q => let! p := ngx_queue_head (Some q) in ret (Cell p)
  | Last q => let! p := ngx_queue_last (Some q) in ret (Cell p)
  | Walk q => let! l := walk (Some q) in ret (Cells l)
  end.
Fixpoint run_all (ops : list op) : prog (list answer) :=
  match ops with
  | [] => ret []
  | o :: ops => let! a := run o in let! l := run_all ops in ret (a :: l)
  end.

(** What they mean: the queues are lists by their sentinel. *)
Abbreviation queues := (gmap loc (list loc)).

Definition cells_of (c : loc * list loc) : list loc := c.1 :: c.2.
Definition used (S : queues) : list loc := map_to_list S ≫= cells_of.
(** A cell of the heap that no queue uses. *)
Definition free (D : gset loc) (S : queues) (x : loc) : bool := bool_decide (x ∈ D /\ x ∉ used S).

(** A list before and from [x] on. *)
Fixpoint cut (x : loc) (l : list loc) : list loc * list loc :=
  match l with
  | [] => ([], [])
  | y :: l => if decide (y = x) then ([], y :: l) else let (a, b) := cut x l in (y :: a, b)
  end.

(** [None] where the caller may not call the macro. *)
Definition spec (D : gset loc) (o : op) (S : queues) : option (answer * queues) :=
  match o with
  | Init q => if free D S q then Some (Nothing, <[q := []]> S) else None
  | Insert_head q x =>
      l ← S !! q; if free D S x then Some (Nothing, <[q := x :: l]> S) else None
  | Insert_tail q x =>
      l ← S !! q; if free D S x then Some (Nothing, <[q := l ++ [x]]> S) else None
  | Remove q x =>
      l ← S !! q;
      match cut x l with (a, _ :: b) => Some (Nothing, <[q := a ++ b]> S) | _ => None end
  | Split q x n =>
      l ← S !! q;
      match cut x l with
      | (a, y :: b) => if free D S n then Some (Nothing, <[n := y :: b]> (<[q := a]> S)) else None
      | _ => None
      end
  | Add q n =>
      l ← S !! q; k ← S !! n;
      if decide (q = n) then None else Some (Nothing, <[q := l ++ k]> (delete n S))
  | Empty q => l ← S !! q; Some (Bool (bool_decide (l = [])), S)
  | Head q => l ← S !! q; Some (Cell (Some (hd q l)), S)
  | Last q => l ← S !! q; Some (Cell (Some (List.last l q)), S)
  | Walk q => l ← S !! q; Some (Cells (Some <$> l), S)
  end.
Fixpoint spec_all (D : gset loc) (ops : list op) (S : queues) : option (list answer * queues) :=
  match ops with
  | [] => Some ([], S)
  | o :: ops =>
      '(a, S) ← spec D o S; '(l, S) ← spec_all D ops S; Some (a :: l, S)
  end.

(** The heap has exactly the cells [D], and these queues in them, no two of which
    share a cell. *)
Record reps (D : gset loc) (h : heap) (S : queues) : Prop := {
  r_dom : dom h = D;
  r_ring q l : S !! q = Some l -> ring h q l;
  r_apart q l q' l' x : S !! q = Some l -> S !! q' = Some l' -> q <> q' -> x ∈ q :: l -> x ∉ q' :: l'
}.

Lemma free_spec D h S x : reps D h S -> free D S x = true ->
  cell h x /\ forall q l, S !! q = Some l -> x ∉ q :: l.
Proof.
  intros [<- _ _] Hf%bool_decide_eq_true. destruct Hf as [Hx Hu]. split; [by apply elem_of_dom |].
  intros q l Hq Hi. apply Hu. unfold used. apply list_elem_of_bind. exists (q, l).
  split; [done |]. by apply elem_of_map_to_list.
Qed.

(** One queue changes, within its own cells and free ones. *)
Lemma reps_insert D h h' S q l L : reps D h S -> within L h h' -> ring h' q l ->
  (forall x, x ∈ L -> forall q' l', S !! q' = Some l' -> q' <> q -> x ∉ q' :: l') ->
  (forall x, x ∈ q :: l -> x ∈ L) -> reps D h' (<[q := l]> S).
Proof.
  intros [Hd Hr Ha] Hw Hq HL Hl. split.
  - rewrite <- Hd. apply set_eq. intros x. rewrite !elem_of_dom. apply Hw.
  - intros q' l' H. apply lookup_insert_Some in H as [[<- <-] | [Hne H]]; [done |].
    apply (ring_frame L h); [done | by apply Hr |]. intros x Hx HxL. by apply (HL x HxL q' l').
  - intros q1 l1 q2 l2 x H1 H2 Hne Hx.
    apply lookup_insert_Some in H1 as [[<- <-] | [Hn1 H1]]; apply lookup_insert_Some in H2 as [[<- <-] | [Hn2 H2]].
    + done.
    + by apply (HL x (Hl x Hx) q2 l2).
    + intros Hx2. by apply (HL x (Hl x Hx2) q1 l1).
    + by apply (Ha q1 l1 q2 l2 x).
Qed.

Lemma cut_app x l a y b : cut x l = (a, y :: b) -> y = x /\ l = a ++ x :: b.
Proof.
  revert a. induction l as [| z l IH]; intros a H; cbn [cut] in H; [done |]. case_decide as Hz.
  - injection H as <- <- <-. by rewrite Hz.
  - destruct (cut x l) as [a' b'] eqn:E. injection H as <- ->. destruct (IH a' eq_refl) as [-> ->]. done.
Qed.

(** A macro that rearranges one queue and free cells. *)
Lemma reps_update D h h' S q l l' L : reps D h S -> S !! q = Some l -> within L h h' -> ring h' q l' ->
  (forall x, x ∈ L -> x ∈ q :: l \/ forall q' l', S !! q' = Some l' -> x ∉ q' :: l') ->
  (forall x, x ∈ q :: l' -> x ∈ L) -> reps D h' (<[q := l']> S).
Proof.
  intros HS Hq Hw Hr HL Hl. apply (reps_insert D h h' S q l' L); try done.
  intros x Hx q' k Hk Hne. destruct (HL x Hx) as [Hi | Hf]; [| by apply Hf].
  by apply (r_apart _ _ _ HS q l q' k).
Qed.

Lemma reps_split D h h' S q a x b n : reps D h S -> S !! q = Some (a ++ x :: b) ->
  (forall q' l', S !! q' = Some l' -> n ∉ q' :: l') -> ring h' q a -> ring h' n (x :: b) ->
  within (n :: q :: a ++ x :: b) h h' -> reps D h' (<[n := x :: b]> (<[q := a]> S)).
Proof.
  intros HS Hq Hn Hra Hrb Hw. pose proof (Hn _ _ Hq) as Hnq.
  pose proof (r_ring _ _ _ HS _ _ Hq) as (_ & Hnd & _). rewrite app_comm_cons in Hnd.
  pose proof (NoDup_app_ne _ _ Hnd) as Hab.
  apply (reps_insert D h' h' _ n (x :: b) (n :: x :: b)); [| apply within_refl | done | | done].
  - apply (reps_update D h h' S q (a ++ x :: b) a (n :: q :: a ++ x :: b)); try done; [| set_solver].
    intros y Hy. apply elem_of_cons in Hy as [-> | Hy]; [by right | by left].
  - intros y Hy q' l' H Hne. apply lookup_insert_Some in H as [[<- <-] | [Hq' H]].
    + apply elem_of_cons in Hy as [-> | Hy]; [set_solver |]. intros Hy'. by apply (Hab y y).
    + apply elem_of_cons in Hy as [-> | Hy]; [by apply (Hn q') |].
      apply (r_apart _ _ _ HS q (a ++ x :: b) q' l'); [done .. |]. right. apply elem_of_app. by right.
Qed.

Lemma reps_add D h h' S q l n k : reps D h S -> S !! q = Some l -> S !! n = Some k -> q <> n ->
  within ((q :: l) ++ n :: k) h h' -> ring h' q (l ++ k) -> reps D h' (<[q := l ++ k]> (delete n S)).
Proof.
  intros HS Hq Hn Hne Hw Hr.
  apply (reps_insert D h h' (delete n S) q (l ++ k) ((q :: l) ++ n :: k)); try done.
  - destruct HS as [Hd Hrs Ha]. split; [done | |].
    + intros q' l' [_ H]%lookup_delete_Some. by apply Hrs.
    + intros q1 l1 q2 l2 x [_ H1]%lookup_delete_Some [_ H2]%lookup_delete_Some. by apply Ha.
  - intros x Hx q' l' [Hn' H]%lookup_delete_Some Hq'. apply elem_of_app in Hx as [Hx | Hx].
    + by apply (r_apart _ _ _ HS q l q' l').
    + by apply (r_apart _ _ _ HS n k q' l').
  - intros x Hx. set_solver.
Qed.

Ltac ran E := eexists; cbn [run]; rewrite (bind_eq _ _ _ _ _ E); split; [reflexivity |].

Lemma run_op_spec D h S o a S' : reps D h S -> spec D o S = Some (a, S') ->
  exists h', run o h = Done (a, h') /\ reps D h' S'.
Proof.
  intros HS Ho. destruct o as [q | q x | q x | q x | q x n | q n | q | q | q | q]; cbn [spec] in Ho;
    try (apply bind_Some in Ho as (l & Hq & Ho); pose proof (r_ring _ _ _ HS _ _ Hq) as Hr).
  - destruct (free D S q) eqn:Ef; [injection Ho as <- <- | done].
    destruct (free_spec _ _ _ _ HS Ef) as [Hc Hf]. destruct (init_ring h q Hc) as (h' & E & Hr & Hw). ran E.
    apply (reps_insert D h h' S q [] [q]); try done. intros y ->%list_elem_of_singleton q' l' Hq' _. by apply Hf.
  - destruct (free D S x) eqn:Ef; [injection Ho as <- <- | done]. destruct (free_spec _ _ _ _ HS Ef) as [Hc Hf].
    destruct (insert_head_ring h q l x Hr Hc (Hf _ _ Hq)) as (h' & E & Hr' & Hw). ran E.
    apply (reps_update D h h' S q l (x :: l) (x :: q :: l)); try done; [| set_solver].
    intros y [-> | Hy]%elem_of_cons; [by right | by left].
  - destruct (free D S x) eqn:Ef; [injection Ho as <- <- | done]. destruct (free_spec _ _ _ _ HS Ef) as [Hc Hf].
    destruct (insert_tail_ring h q l x Hr Hc (Hf _ _ Hq)) as (h' & E & Hr' & Hw). ran E.
    apply (reps_update D h h' S q l (l ++ [x]) (x :: q :: l)); try done; [| set_solver].
    intros y [-> | Hy]%elem_of_cons; [by right | by left].
  - destruct (cut x l) as [b [| y c]] eqn:E; [done |]. injection Ho as <- <-.
    apply cut_app in E as [-> ->]. destruct (remove_ring h q b x c Hr) as (h' & E & Hr' & Hw). ran E.
    apply (reps_update D h h' S q (b ++ x :: c) (b ++ c) (q :: b ++ c)); try done. set_solver.
  - destruct (cut x l) as [b [| y c]] eqn:E; [done |]. destruct (free D S n) eqn:Ef; [| done]. injection Ho as <- <-.
    apply cut_app in E as [-> ->]. destruct (free_spec _ _ _ _ HS Ef) as [Hc Hf].
    destruct (split_ring h q b x c n Hr Hc (Hf _ _ Hq)) as (h' & E & Hra & Hrb & Hw). ran E.
    by apply (reps_split D h).
  - apply bind_Some in Ho as (k & Hn & Ho). case_decide as Hqn; [done |]. injection Ho as <- <-.
    pose proof (r_ring _ _ _ HS _ _ Hn) as Hs. destruct (add_ring h q l n k Hr Hs) as (h' & E & Hr' & Hw).
    { apply NoDup_app. split_and!; [by destruct Hr as (_ & ? & _) | | by destruct Hs as (_ & ? & _)].
      intros x Hx. by apply (r_apart _ _ _ HS q l n k). }
    ran E. by apply (reps_add D h).
  - injection Ho as <- <-. by ran (empty_ring _ _ _ Hr).
  - injection Ho as <- <-. by ran (head_ring _ _ _ Hr).
  - injection Ho as <- <-. by ran (last_ring _ _ _ Hr).
  - injection Ho as <- <-. by ran (walk_ring _ _ _ Hr).
Qed.

Lemma reps_empty h : reps (dom h) h ∅.
Proof. split; [done | |]; intros *; by rewrite lookup_empty. Qed.

(** C31: the macros implement lists, for any number of queues that share a heap: any
    calls whose arguments are as the macros require (what is inserted is in no queue,
    what is removed or split at is in one, what is appended is another queue) run
    without undefined behaviour, keep every queue a circle both ways round, and are
    insertion at either end, removal, splitting in front of an element and
    concatenation; the cells of the other queues are left alone. *)
Theorem queue_refinement D h S ops l S' : reps D h S -> spec_all D ops S = Some (l, S') ->
  exists h', run_all ops h = Done (l, h') /\ reps D h' S'.
Proof.
  revert h S l. induction ops as [| o ops IH]; intros h S l HS Ho; cbn [spec_all run_all] in *.
  - injection Ho as <- <-. by exists h.
  - apply bind_Some in Ho as ([a S1] & Ea & Ho). apply bind_Some in Ho as ([l2 S2] & El & Ho). injection Ho as <- <-.
    destruct (run_op_spec D h S o a S1 HS Ea) as (h1 & E1 & HS1). destruct (IH h1 S1 l2 HS1 El) as (h' & E & HS').
    exists h'. split; [| done]. rewrite (bind_eq _ _ _ _ _ E1). by rewrite (bind_eq _ _ _ _ _ E).
Qed.

End QueueSpec.

Module QueueSamples.
Import QueueSpec.

(** Eight cells whose pointers are null. *)
Definition cells8 : heap := list_to_map ((fun x => (x, mkQueue None None)) <$> [1; 2; 3; 4; 5; 6; 7; 8]%positive).

Definition sample_ops : list op :=
  [Init 1; Empty 1; Insert_tail 1 2; Insert_tail 1 3; Insert_head 1 4; Walk 1; Head 1; Last 1;
   Init 5; Insert_tail 5 6; Split 1 3 7; Walk 1; Walk 7; Add 1 5; Walk 1; Remove 1 2; Insert_head 7 2;
   Walk 1; Walk 7; Init 5; Add 7 5; Empty 7]%positive.
Definition sample_answers : list answer :=
  [Nothing; Bool true; Nothing; Nothing; Nothing; Cells (Some <$> [4; 2; 3]); Cell (Some 4); Cell (Some 3);
   Nothing; Nothing; Nothing; Cells (Some <$> [4; 2]); Cells (Some <$> [3]); Nothing; Cells (Some <$> [4; 2; 6]);
   Nothing; Nothing; Cells (Some <$> [4; 6]); Cells (Some <$> [2; 3]); Nothing; Nothing; Bool false]%positive.

Example sample_spec : fst <$> spec_all (dom cells8) sample_ops ∅ = Some sample_answers.
Proof. vm_compute. reflexivity. Qed.

(** The macros do not notice that an element is in the queue already: what was
    inserted after it is lost. *)
Example insert_twice :
  spec_all (dom cells8) [Init 1; Insert_tail 1 2; Insert_tail 1 3; Insert_tail 1 2]%positive ∅ = None /\
  match run_all [Init 1; Insert_tail 1 2; Insert_tail 1 3; Insert_tail 1 2; Walk 1]%positive cells8 with
  | Done (l, _) => List.last l Nothing = Cells [Some 2%positive]
  | _ => False
  end.
Proof. split; vm_compute; reflexivity. Qed.

Lemma queue_refinement_witness : exists h' S',
  run_all sample_ops cells8 = Done (sample_answers, h') /\ reps (dom cells8) h' S' /\
  S' !! 7%positive = Some [2; 3]%positive.
Proof.
  destruct (queue_refinement (dom cells8) cells8 ∅ sample_ops sample_answers
    (<[7 := [2; 3]]> (<[1 := [4; 6]]> ∅))%positive) as (h' & E & H).
  - apply reps_empty.
  - vm_compute. reflexivity.
  - exists h'. eexists. split; [exact E |]. split; [exact H | vm_compute; reflexivity].
Defined.
End QueueSamples.
