(* ===== verification/RBTree.v ===== *)
(** The red-black tree of [cnm/net/tree.h]: the macros [RB_*], which the event loop
    instantiates for its timers.

    Nodes are embedded in the elements, so that an element is the address of its
    node and the heap is a map from these addresses.  The comparison of elements is a
    parameter, as it is of the macros.  Where the macros write the left and the right
    case one after the other as mirror images, there is one definition with a side. *)
From S2P Require Import Prelude CHeap.

Module RB.

Definition RB_BLACK : Z := 0.
Definition RB_RED : Z := 1.

(** [RB_ENTRY(type)] *)
Record rb_entry := mkEntry { rbe_left : ptr; rbe_right : ptr; rbe_parent : ptr; rbe_color : Z }.
Abbreviation heap := (gmap loc rb_entry).
Abbreviation prog := (M rb_entry).

Inductive side := L | R.
#[export] Instance side_eq_dec : EqDecision side.
Proof. solve_decision. Defined.
Definition flip (s : side) : side := match s with L => R | R => L end.

(** The fields, and assignments to them. *)
Definition get_child (s : side) (n : rb_entry) : ptr := match s with L => rbe_left n | R => rbe_right n end.
Definition with_child (s : side) (p : ptr) (n : rb_entry) : rb_entry :=
  match s with
  | L => mkEntry p (rbe_right n) (rbe_parent n) (rbe_color n)
  | R => mkEntry (rbe_left n) p (rbe_parent n) (rbe_color n)
  end.
Definition with_parent (p : ptr) (n : rb_entry) : rb_entry := mkEntry (rbe_left n) (rbe_right n) p (rbe_color n).
Definition with_color (c : Z) (n : rb_entry) : rb_entry := mkEntry (rbe_left n) (rbe_right n) (rbe_parent n) c.

Definition child (s : side) (p : ptr) : prog ptr := let! n := load p in ret (get_child s n).
Definition RB_LEFT : ptr -> prog ptr := child L.
Definition RB_RIGHT : ptr -> prog ptr := child R.
Definition RB_PARENT (p : ptr) : prog ptr := let! n := load p in ret (rbe_parent n).
Definition RB_COLOR (p : ptr) : prog Z := let! n := load p in ret (rbe_color n).
Definition set_child (s : side) (p q : ptr) : prog unit := modify p (with_child s q).
Definition set_parent (p q : ptr) : prog unit := modify p (with_parent q).
Definition set_color (p : ptr) (c : Z) : prog unit := modify p (with_color c).

(** [if(p) f(p)] *)
Definition when (p : ptr) (m : prog unit) : prog unit := match p with Some _ => m | None => ret tt end.

(** [RB_INIT], [RB_EMPTY]: the head is its member [rbh_root]. *)
Definition RB_INIT : ptr := None.
Definition RB_EMPTY (root : ptr) : bool := bool_decide (root = None).

Definition RB_SET (elm parent : ptr) : prog unit :=
  set_parent elm parent ;!
  set_child R elm None ;! set_child L elm None ;!
  set_color elm RB_RED.

Definition RB_SET_BLACKRED (black red : ptr) : prog unit :=
  set_color black RB_BLACK ;! set_color red RB_RED.

(** [if(LEFT(parent) == elm) LEFT(parent) = p else RIGHT(parent) = p], or the root
    where there is no parent; the root after it. *)
Definition replace_child (root parent elm p : ptr) : prog ptr :=
  match parent with
  | None => ret p
  | Some _ =>
      let! l := RB_LEFT parent in
      (if decide (l = elm) then set_child L parent p else set_child R parent p) ;!
      ret root
  end.

(** [RB_ROTATE_LEFT] and [RB_ROTATE_RIGHT] ([RB_AUGMENT] is empty). *)
Definition rotate (s : side) (root elm : ptr) : prog ptr :=
  let! tmp := child (flip s) elm in
  let! b := child s tmp in
  set_child (flip s) elm b ;!
  when b (let! b := child s tmp in set_parent b elm) ;!
  (let! p := RB_PARENT elm in set_parent tmp p) ;!
  let! p := RB_PARENT elm in
  let! root := replace_child root p elm tmp in
  set_child s tmp elm ;!
  set_parent elm tmp ;!
  ret root.
Definition RB_ROTATE_LEFT : ptr -> ptr -> prog ptr := rotate L.
Definition RB_ROTATE_RIGHT : ptr -> ptr -> prog ptr := rotate R.

(** [p == NULL || RB_COLOR(p) == RB_BLACK] and [p && RB_COLOR(p) == RB_RED] *)
Definition is_black (p : ptr) : prog bool :=
  match p with None => ret true | Some _ => let! c := RB_COLOR p in ret (c =? RB_BLACK) end.
Definition is_red (p : ptr) : prog bool :=
  match p with None => ret false | Some _ => let! c := RB_COLOR p in ret (c =? RB_RED) end.

Fixpoint insert_color_loop (fuel : nat) (root elm : ptr) : prog ptr :=
  match fuel with
  | O => no_fuel
  | S fuel =>
    let! parent := RB_PARENT elm in
    let! red := is_red parent in
    if red : bool then
      let! gparent := RB_PARENT parent in
      let! l := RB_LEFT gparent in
      let s := if decide (parent = l) then L else R in
      let! tmp := child (flip s) gparent in
      let! red := is_red tmp in
      if red : bool then
        set_color tmp RB_BLACK ;!
        RB_SET_BLACKRED parent gparent ;!
        insert_color_loop fuel root gparent
      else
        let! q := child (flip s) parent in
        let! (root, parent, elm) :=
          (if decide (q = elm) then let! root := rotate s root parent in ret (root, elm, parent)
           else ret (root, parent, elm)) in
        RB_SET_BLACKRED parent gparent ;!
        let! root := rotate (flip s) root gparent in
        insert_color_loop fuel root elm
    else ret root
  end.

Definition RB_INSERT_COLOR (root elm : ptr) : prog ptr :=
  let! root := with_fuel (fun fuel => insert_color_loop fuel root elm) in
  set_color root RB_BLACK ;!
  ret root.

Fixpoint remove_color_loop (fuel : nat) (root parent elm : ptr) : prog (ptr * ptr) :=
  match fuel with
  | O => no_fuel
  | S fuel =>
    let! black := is_black elm in
    if (black : bool) && bool_decide (elm <> root) then
      let! l := RB_LEFT parent in
      let s := if decide (l = elm) then L else R in
      let! tmp := child (flip s) parent in
      let! c := RB_COLOR tmp in
      let! (root, tmp) :=
        (if c =? RB_RED then
           RB_SET_BLACKRED tmp parent ;!
           let! root := rotate s root parent in
           let! tmp := child (flip s) parent in
           ret (root, tmp)
         else ret (root, tmp)) in
      let! l := RB_LEFT tmp in
      let! bl := is_black l in
      let! both := (if bl : bool then let! r := RB_RIGHT tmp in is_black r else ret false) in
      if both : bool then
        set_color tmp RB_RED ;!
        let! p := RB_PARENT parent in
        remove_color_loop fuel root p parent
      else
        let! far := child (flip s) tmp in
        let! black := is_black far in
        let! (root, tmp) :=
          (if black : bool then
             let! near := child s tmp in
             when near (set_color near RB_BLACK) ;!
             set_color tmp RB_RED ;!
             let! root := rotate (flip s) root tmp in
             let! tmp := child (flip s) parent in
             ret (root, tmp)
           else ret (root, tmp)) in
        let! c := RB_COLOR parent in
        set_color tmp c ;!
        set_color parent RB_BLACK ;!
        let! far := child (flip s) tmp in
        when far (set_color far RB_BLACK) ;!
        let! root := rotate s root parent in
        ret (root, root)
    else ret (root, elm)
  end.

Definition RB_REMOVE_COLOR (root parent elm : ptr) : prog ptr :=
  let! (root, elm) := with_fuel (fun fuel => remove_color_loop (S fuel) root parent elm) in
  when elm (set_color elm RB_BLACK) ;!
  ret root.

(** [while((left = RB_LEFT(elm))) elm = left;] *)
Fixpoint leftmost_loop (fuel : nat) (elm : ptr) : prog ptr :=
  match fuel with
  | O => no_fuel
  | S fuel =>
    let! next := RB_LEFT elm in
    match next with None => ret elm | Some _ => leftmost_loop fuel next end
  end.

(** [do { RB_AUGMENT(left); } while((left = RB_PARENT(left)));] *)
Fixpoint augment_loop (fuel : nat) (left : ptr) : prog unit :=
  match fuel with
  | O => no_fuel
  | S fuel =>
    let! p := RB_PARENT left in
    when p (augment_loop fuel p)
  end.

(** [RB_REMOVE]: what it returns, and the root. *)
Definition RB_REMOVE (root elm : ptr) : prog (ptr * ptr) :=
  let old := elm in
  let! l := RB_LEFT elm in
  let! r := RB_RIGHT elm in
  let! (root, parent, child, color) :=
    match l, r with
    | Some _, Some _ =>
        let! elm := RB_RIGHT elm in
        let! elm := with_fuel (fun fuel => leftmost_loop fuel elm) in
        let! child := RB_RIGHT elm in
        let! parent := RB_PARENT elm in
        let! color := RB_COLOR elm in
        when child (set_parent child parent) ;!
        let! root := replace_child root parent elm child in
        let! q := RB_PARENT elm in
        let parent := if decide (q = old) then elm else parent in
        (let! n := load old in store elm n) ;!
        let! q := RB_PARENT old in
        let! root := replace_child root q old elm in
        (let! l := RB_LEFT old in set_parent l elm) ;!
        let! r := RB_RIGHT old in
        when r (set_parent r elm) ;!
        when parent (with_fuel (fun fuel => augment_loop fuel parent)) ;!
        ret (root, parent, child, color)
    | _, _ =>
        let child := match l with None => r | Some _ => l end in
        let! parent := RB_PARENT elm in
        let! color := RB_COLOR elm in
        when child (set_parent child parent) ;!
        let! root := replace_child root parent elm child in
        ret (root, parent, child, color)
    end in
  let! root := (if color =? RB_BLACK then RB_REMOVE_COLOR root parent child else ret root) in
  ret (old, root).

Section Compare.
(** [cmp(a, b)] *)
Variable cmp : loc -> loc -> Z.

(** The loop of [RB_INSERT]: the element that compares equal, or the last one and
    what it compared to. *)
Fixpoint insert_loop (fuel : nat) (elm : loc) (tmp parent : ptr) (comp : Z) : prog (ptr * ptr * Z) :=
  match fuel with
  | O => no_fuel
  | S fuel =>
    match tmp with
    | None => ret (None, parent, comp)
    | Some t =>
        let parent := tmp in
        let comp := cmp elm t in
        if comp <? 0 then let! l := RB_LEFT tmp in insert_loop fuel elm l parent comp
        else if 0 <? comp then let! r := RB_RIGHT tmp in insert_loop fuel elm r parent comp
        else ret (tmp, parent, comp)
    end
  end.

(** [RB_INSERT]: what it returns, and the root. *)
Definition RB_INSERT (root : ptr) (elm : loc) : prog (ptr * ptr) :=
  let! (found, parent, comp) := with_fuel (fun fuel => insert_loop fuel elm root None 0) in
  match found with
  | Some _ => ret (found, root)
  | None =>
      RB_SET (Some elm) parent ;!
      let! root :=
        match parent with
        | Some _ => (if comp <? 0 then set_child L parent (Some elm) else set_child R parent (Some elm)) ;! ret root
        | None => ret (Some elm)
        end in
      let! root := RB_INSERT_COLOR root (Some elm) in
      ret (None, root)
  end.

Fixpoint find_loop (fuel : nat) (elm : loc) (tmp : ptr) : prog ptr :=
  match fuel with
  | O => no_fuel
  | S fuel =>
    match tmp with
    | None => ret None
    | Some t =>
        let comp := cmp elm t in
        if comp <? 0 then let! l := RB_LEFT tmp in find_loop fuel elm l
        else if 0 <? comp then let! r := RB_RIGHT tmp in find_loop fuel elm r
        else ret tmp
    end
  end.
Definition RB_FIND (root : ptr) (elm : loc) : prog ptr := with_fuel (fun fuel => find_loop fuel elm root).
End Compare.

Fixpoint climb_loop (fuel : nat) (elm : ptr) : prog ptr :=
  match fuel with
  | O => no_fuel
  | S fuel =>
    let! p := RB_PARENT elm in
    match p with
    | None => ret None
    | Some _ =>
        let! r := RB_RIGHT p in
        if decide (elm = r) then climb_loop fuel p else RB_PARENT elm
    end
  end.

Definition RB_NEXT (elm : ptr) : prog ptr :=
  let! r := RB_RIGHT elm in
  match r with
  | Some _ => with_fuel (fun fuel => leftmost_loop fuel r)
  | None =>
      let! p := RB_PARENT elm in
      let! is_left :=
        match p with None => ret false | Some _ => let! l := RB_LEFT p in ret (bool_decide (elm = l)) end in
      if is_left : bool then RB_PARENT elm
      else with_fuel (fun fuel => climb_loop fuel elm)
  end.

Fixpoint minmax_loop (fuel : nat) (val : Z) (tmp parent : ptr) : prog ptr :=
  match fuel with
  | O => no_fuel
  | S fuel =>
    match tmp with
    | None => ret parent
    | Some _ =>
        let! next := (if val <? 0 then RB_LEFT tmp else RB_RIGHT tmp) in
        minmax_loop fuel val next tmp
    end
  end.
Definition RB_MINMAX (root : ptr) (val : Z) : prog ptr := with_fuel (fun fuel => minmax_loop fuel val root None).
Definition RB_NEGINF : Z := -1.
Definition RB_INF : Z := 1.
Definition RB_MIN (root : ptr) : prog ptr := RB_MINMAX root RB_NEGINF.
Definition RB_MAX (root : ptr) : prog ptr := RB_MINMAX root RB_INF.

(** The elements that [RB_FOREACH] visits. *)
Fixpoint foreach_loop (fuel : nat) (x : ptr) : prog (list loc) :=
  match fuel with
  | O => no_fuel
  | S fuel =>
    match x with
    | None => ret []
    | Some a => let! y := RB_NEXT x in let! l := foreach_loop fuel y in ret (a :: l)
    end
  end.
Definition RB_FOREACH (root : ptr) : prog (list loc) :=
  let! x := RB_MIN root in with_fuel (fun fuel => foreach_loop fuel x).
End RB.
Import RB.

(** * Trees *)

(** A tree with the addresses and the colours of its nodes. *)
Inductive tree := Leaf | Node (a : loc) (c : Z) (l r : tree).

Definition root_of (t : tree) : ptr := match t with Leaf => None | Node a _ _ _ => Some a end.
Definition color_of (t : tree) : Z := match t with Leaf => RB_BLACK | Node _ c _ _ => c end.

(** A node with the subtree [t] on one side and [u] on the other, and its cell. *)
Definition mk (s : side) (a : loc) (c : Z) (t u : tree) : tree :=
  match s with L => Node a c t u | R => Node a c u t end.
Definition entry (s : side) (p q par : ptr) (c : Z) : rb_entry :=
  match s with L => mkEntry p q par c | R => mkEntry q p par c end.

(** The elements in order, and the cells, below a parent. *)
Fixpoint elems (t : tree) : list loc :=
  match t with Leaf => [] | Node a _ l r => elems l ++ a :: elems r end.
Fixpoint cells (par : ptr) (t : tree) : list (loc * rb_entry) :=
  match t with
  | Leaf => []
  | Node a c l r => (a, mkEntry (root_of l) (root_of r) par c) :: cells (Some a) l ++ cells (Some a) r
  end.

(** A tree with a hole: the way from the hole to the root. *)
Inductive frame := In (s : side) (a : loc) (c : Z) (sib : tree).
Definition frame_loc (f : frame) : loc := let 'In _ a _ _ := f in a.
Definition fill1 (f : frame) (t : tree) : tree := let 'In s a c sib := f in mk s a c t sib.
Definition fill (C : list frame) (t : tree) : tree := foldl (fun t f => fill1 f t) t C.
Definition top (C : list frame) : ptr := match C with [] => None | f :: _ => Some (frame_loc f) end.
Definition frame_cells (f : frame) (p par : ptr) : list (loc * rb_entry) :=
  let 'In s a c sib := f in (a, entry s p (root_of sib) par c) :: cells (Some a) sib.
Fixpoint ctx_cells (C : list frame) (p : ptr) : list (loc * rb_entry) :=
  match C with
  | [] => []
  | f :: C => frame_cells f p (top C) ++ ctx_cells C (Some (frame_loc f))
  end.
Fixpoint before (C : list frame) : list loc :=
  match C with
  | [] => []
  | In L _ _ _ :: C => before C
  | In R a _ t :: C => before C ++ elems t ++ [a]
  end.
Fixpoint after (C : list frame) : list loc :=
  match C with
  | [] => []
  | In L a _ t :: C => a :: elems t ++ after C
  | In R _ _ _ :: C => after C
  end.

Module RBTreeSpec.
Implicit Types (t u : tree) (C D : list frame) (h : heap) (cs : list (loc * rb_entry)).

(** ** Trees and contexts *)

Lemma elems_mk_L a c t u : elems (mk L a c t u) = elems t ++ a :: elems u.
Proof. done. Qed.
Lemma elems_mk_R a c t u : elems (mk R a c t u) = elems u ++ a :: elems t.
Proof. done. Qed.

Lemma elems_fill C : forall t, elems (fill C t) = before C ++ elems t ++ after C.
Proof.
  induction C as [| [[] a c u] C IH]; intros t; cbn [fill foldl]; [by rewrite app_nil_r | |];
    setoid_rewrite IH; csimpl; by simplify_list_eq.
Qed.

Lemma rb_fill_app C D t : fill (C ++ D) t = fill D (fill C t).
Proof. apply foldl_app. Qed.

Lemma fill_cons f C t : fill (f :: C) t = fill C (fill1 f t).
Proof. done. Qed.

Lemma rb_before_app C D : before (C ++ D) = before D ++ before C.
Proof. induction C as [| [[] a c u] C IH]; csimpl; rewrite ?IH; by simplify_list_eq. Qed.

Lemma rb_after_app C D : after (C ++ D) = after C ++ after D.
Proof. induction C as [| [[] a c u] C IH]; csimpl; rewrite ?IH; by simplify_list_eq. Qed.

Lemma cells_mk par s a c t u :
  cells par (mk s a c t u) ≡ₚ (a, entry s (root_of t) (root_of u) par c) :: cells (Some a) t ++ cells (Some a) u.
Proof. destruct s; cbn; [done | solve_Permutation]. Qed.

Lemma rb_cells_fill C : forall t, cells None (fill C t) ≡ₚ ctx_cells C (root_of t) ++ cells (top C) t.
Proof.
  induction C as [| [s a c u] C IH]; intros t; [done |]. rewrite fill_cons. cbn [fill1].
  rewrite IH, cells_mk. cbn [ctx_cells frame_cells top frame_loc].
  replace (root_of (mk s a c t u)) with (Some a) by (by destruct s). solve_Permutation.
Qed.

Lemma rb_cells_locs t : forall par, (cells par t).*1 ≡ₚ elems t.
Proof.
  induction t as [| a c l IHl r IHr]; intros par; csimpl; [done |].
  rewrite fmap_app, IHl, IHr. solve_Permutation.
Qed.

Lemma rb_ctx_cells_locs C : forall p, (ctx_cells C p).*1 ≡ₚ before C ++ after C.
Proof.
  induction C as [| [[] a c u] C IH]; intros p; csimpl; [done | |];
    rewrite fmap_app, rb_cells_locs, IH; solve_Permutation.
Qed.

(** The heap holds the tree. *)
Definition holds h t : Prop := owned h (cells None t).

Lemma rb_holds_fill h C t : holds h (fill C t) <-> owned h (ctx_cells C (root_of t) ++ cells (top C) t).
Proof. unfold holds. by rewrite rb_cells_fill. Qed.

Lemma holds_NoDup h t : holds h t -> NoDup (elems t).
Proof. intros [_ Hn]. by rewrite rb_cells_locs in Hn. Qed.

Lemma rb_holds_size h t : holds h t -> (length (elems t) <= size h)%nat.
Proof. intros Hh. rewrite <- (rb_cells_locs t None), length_fmap. by apply owned_size. Qed.

Fixpoint height t : nat := match t with Leaf => 0 | Node _ _ l r => S (height l `max` height r) end%nat.
Lemma height_elems t : (height t <= length (elems t))%nat.
Proof. induction t; csimpl; rewrite ?length_app; csimpl; lia. Qed.

Lemma rb_length_ctx C : (length C <= length (before C ++ after C))%nat.
Proof. induction C as [| [[] a c u] C IH]; csimpl in *; rewrite ?length_app in *; csimpl; rewrite ?length_app in *; lia. Qed.

Lemma holds_depth h C t : holds h (fill C t) -> (length C + length (elems t) <= size h)%nat.
Proof.
  intros Hh. pose proof (rb_holds_size _ _ Hh) as H. rewrite elems_fill in H. pose proof (rb_length_ctx C).
  rewrite !length_app in *. lia.
Qed.

(** ** Reading and writing *)

Lemma run_child {B} s a v h (f : ptr -> prog B) : h !! a = Some v -> bind (child s (Some a)) f h = f (get_child s v) h.
Proof. intros H. unfold child. rewrite bind_bind. by rewrite (bind_load _ _ _ _ H). Qed.
Lemma run_parent {B} a v h (f : ptr -> prog B) : h !! a = Some v -> bind (RB_PARENT (Some a)) f h = f (rbe_parent v) h.
Proof. intros H. unfold RB_PARENT. rewrite bind_bind. by rewrite (bind_load _ _ _ _ H). Qed.
Lemma run_color {B} a v h (f : Z -> prog B) : h !! a = Some v -> bind (RB_COLOR (Some a)) f h = f (rbe_color v) h.
Proof. intros H. unfold RB_COLOR. rewrite bind_bind. by rewrite (bind_load _ _ _ _ H). Qed.
Lemma eq_child s a v h : h !! a = Some v -> child s (Some a) h = Done (get_child s v, h).
Proof. intros H. unfold child. by rewrite (bind_load _ _ _ _ H). Qed.
Lemma eq_parent a v h : h !! a = Some v -> RB_PARENT (Some a) h = Done (rbe_parent v, h).
Proof. intros H. unfold RB_PARENT. by rewrite (bind_load _ _ _ _ H). Qed.

Lemma get_child_entry s p q par c : get_child s (entry s p q par c) = p.
Proof. by destruct s. Qed.
Lemma get_flip_entry s p q par c : get_child (flip s) (entry s p q par c) = q.
Proof. by destruct s. Qed.
Lemma with_child_entry s p q par c p' : with_child s p' (entry s p q par c) = entry s p' q par c.
Proof. by destruct s. Qed.
Lemma with_flip_entry s p q par c q' : with_child (flip s) q' (entry s p q par c) = entry s p q' par c.
Proof. by destruct s. Qed.
Lemma with_parent_entry s p q par c par' : with_parent par' (entry s p q par c) = entry s p q par' c.
Proof. by destruct s. Qed.
Lemma with_color_entry s p q par c c' : with_color c' (entry s p q par c) = entry s p q par c'.
Proof. by destruct s. Qed.
Lemma rbe_parent_entry s p q par c : rbe_parent (entry s p q par c) = par.
Proof. by destruct s. Qed.
Lemma rbe_color_entry s p q par c : rbe_color (entry s p q par c) = c.
Proof. by destruct s. Qed.
Lemma mkEntry_entry p q par c : mkEntry p q par c = entry L p q par c.
Proof. done. Qed.
Create Rewrite HintDb entries.
#[export] Hint Rewrite get_child_entry get_flip_entry with_child_entry with_flip_entry with_parent_entry with_color_entry
  rbe_parent_entry rbe_color_entry : entries.

(** [rd O a] runs the read of a field of [a] at the front of the program; [wr O a]
    the assignment to one, where [O] says what the heap holds. *)
Ltac rd O a :=
  focus O a; rewrite ?bind_bind;
  first [ rewrite (run_child _ _ _ _ _ (owned_lookup _ _ _ _ O))
        | rewrite (run_parent _ _ _ _ (owned_lookup _ _ _ _ O))
        | rewrite (run_color _ _ _ _ (owned_lookup _ _ _ _ O)) ];
  autorewrite with entries.
Ltac wr O a :=
  focus O a; rewrite ?bind_bind;
  let E := fresh in
  lazymatch goal with |- context [modify (Some a) ?g] => destruct (owned_modify _ _ _ _ g O) as [E O'] end;
  first [rewrite (bind_eq _ _ _ _ _ E) | rewrite E]; cbv beta; clear E O; rename O' into O;
  autorewrite with entries in O |- *.

(** The root of the whole tree, when the hole is filled with [p]. *)
Fixpoint ctx_root C (p : ptr) : ptr :=
  match C with [] => p | f :: C => ctx_root C (Some (frame_loc f)) end.
Lemma root_mk s a c t u : root_of (mk s a c t u) = Some a.
Proof. by destruct s. Qed.
Lemma rb_root_fill C : forall t, root_of (fill C t) = ctx_root C (root_of t).
Proof. induction C as [| [s a c u] C IH]; intros t; [done |]. rewrite fill_cons, IH. cbn. by rewrite root_mk. Qed.
Lemma ctx_root_cons C p q : C <> [] -> ctx_root C p = ctx_root C q.
Proof. by destruct C. Qed.

Lemma fill_not_leaf C s a c t u : fill C (mk s a c t u) <> Leaf.
Proof.
  intros E. apply (f_equal root_of) in E. rewrite rb_root_fill, root_mk in E. cbn in E.
  revert E. generalize a. induction C as [| f C IH]; intros b E; [done | by apply (IH (frame_loc f))].
Qed.

(** The parent of a subtree changes. *)
Lemma reparent_spec h t par q F : owned h (cells par t ++ F) -> exists h',
  when (root_of t) (set_parent (root_of t) q) h = Done (tt, h') /\ owned h' (cells q t ++ F).
Proof.
  intros O. destruct t as [| a c l r]; cbn [root_of when cells app] in *; [by exists h |].
  destruct (owned_modify _ _ _ _ (with_parent q) O) as [E O']. eexists. split; [exact E | exact O'].
Qed.

Lemma reparent_child_spec h t par q F s y v : owned h (cells par t ++ F) -> h !! y = Some v ->
  get_child s v = root_of t -> exists h',
  when (root_of t) (let! b := child s (Some y) in set_parent b q) h = Done (tt, h') /\ owned h' (cells q t ++ F).
Proof.
  intros O Hy Ec. destruct (reparent_spec h t par q F O) as (h' & E & O'). exists h'. split; [| done].
  destruct t; [done |]. cbn [when root_of] in *. by rewrite (run_child _ _ _ _ _ Hy), Ec.
Qed.

(** The pointer that leads to a subtree changes. *)
Lemma replace_child_spec h C a q F : owned h (ctx_cells C (Some a) ++ F) -> a ∉ before C ++ after C -> exists h',
  replace_child (ctx_root C (Some a)) (top C) (Some a) q h = Done (ctx_root C q, h') /\
  owned h' (ctx_cells C q ++ F).
Proof.
  intros O Ha. destruct C as [| [s b c u] C]; cbn [top replace_child ctx_root frame_loc]; [by exists h |].
  cbn [ctx_cells frame_cells app] in O. unfold RB_LEFT.
  rewrite (run_child _ _ _ _ _ (owned_lookup _ _ _ _ O)).
  assert (if decide (get_child L (entry s (Some a) (root_of u) (top C) c) = Some a) then s = L else s = R) as Hs.
  { destruct s; cbn; [by rewrite decide_True |]. rewrite decide_False; [done |]. intros E.
    apply Ha. destruct u; cbn in E; [done |]. injection E as ->. csimpl. set_solver. }
  destruct (owned_modify _ _ _ _ (with_child s q) O) as [E O']. rewrite with_child_entry in O'.
  exists (<[b := with_child s q (entry s (Some a) (root_of u) (top C) c)]> h). split.
  - case_decide; subst s; unfold set_child; by rewrite (bind_eq _ _ _ _ _ E).
  - rewrite with_child_entry. exact O'.
Qed.

(** An inner node at the hole is not around it. *)
Lemma focus_apart h C s a c t u : holds h (fill C (mk s a c t u)) -> a ∉ before C ++ after C.
Proof.
  intros Hn%holds_NoDup. rewrite elems_fill in Hn. intros Hi.
  assert (a ∈ elems (mk s a c t u)) as Ha by (destruct s; csimpl; set_solver).
  apply NoDup_app in Hn as (_ & Hd & Hn). apply NoDup_app in Hn as (_ & Hd' & _). set_solver.
Qed.

(** A rotation of the heap is the rotation of the tree. *)
Lemma rotate_spec h C s x cx y cy t u w : holds h (fill C (mk s x cx t (mk s y cy u w))) -> exists h',
  rotate s (root_of (fill C (mk s x cx t (mk s y cy u w)))) (Some x) h =
    Done (root_of (fill C (mk s y cy (mk s x cx t u) w)), h') /\
  holds h' (fill C (mk s y cy (mk s x cx t u) w)).
Proof.
  intros O. pose proof (focus_apart _ _ _ _ _ _ _ O) as Hx.
  apply rb_holds_fill in O. rewrite !cells_mk, !rb_root_fill, !root_mk in *.
  unfold rotate, set_child.
  eapply (owned_perm _ _ ((x, entry s (root_of t) (Some y) (top C) cx) ::
    (y, entry s (root_of u) (root_of w) (Some x) cy) ::
    cells (Some y) u ++ ctx_cells C (Some x) ++ cells (Some x) t ++ cells (Some y) w)) in O; [| solve_Permutation].
  rd O x. rd O y. wr O x. focus O y. pose proof (owned_lookup _ _ _ _ O) as Hy. front O (cells (Some y) u).
  destruct (reparent_child_spec _ _ _ (Some x) _ s _ _ O Hy (get_child_entry _ _ _ _ _)) as (h1 & E & O1).
  rewrite (bind_eq _ _ _ _ _ E). clear E O Hy. rename O1 into O. unfold set_parent.
  rewrite bind_bind. rd O x. wr O y. rd O x. front O (ctx_cells C (Some x)).
  destruct (replace_child_spec _ _ _ (Some y) _ O Hx) as (h2 & E & O1).
  rewrite (bind_eq _ _ _ _ _ E). clear E O. rename O1 into O.
  wr O y. wr O x. eexists. split; [done |].
  apply rb_holds_fill. rewrite root_mk, !cells_mk, root_mk. eapply owned_perm; [exact O |]. solve_Permutation.
Qed.

(** ** Nodes in place *)

Lemma mk_flip s a c t u : mk (flip s) a c u t = mk s a c t u.
Proof. by destruct s. Qed.
Lemma flip_flip s : flip (flip s) = s.
Proof. by destruct s. Qed.
Definition at_side (s : side) {A} (x y : A) : A := match s with L => x | R => y end.
Lemma node_mk s a c l r : Node a c l r = mk s a c (at_side s l r) (at_side s r l).
Proof. by destruct s. Qed.

(** The cell of a node in a tree. *)
Lemma holds_at h C s a c t u : holds h (fill C (mk s a c t u)) ->
  h !! a = Some (entry s (root_of t) (root_of u) (top C) c).
Proof.
  intros O. apply rb_holds_fill in O. rewrite cells_mk in O. eapply owned_lookup, owned_perm; [exact O |].
  symmetry. apply Permutation_middle.
Qed.

Lemma is_black_spec {B} h C t (f : bool -> prog B) : holds h (fill C t) ->
  bind (is_black (root_of t)) f h = f (color_of t =? RB_BLACK) h.
Proof.
  intros O. destruct t as [| a c l r]; [done |]. cbn [root_of is_black color_of]. rewrite bind_bind.
  by rewrite (run_color _ _ _ _ (holds_at _ _ L _ _ _ _ O)).
Qed.

Lemma is_red_spec {B} h C t (f : bool -> prog B) : holds h (fill C t) ->
  bind (is_red (root_of t)) f h = f (color_of t =? RB_RED) h.
Proof.
  intros O. destruct t as [| a c l r]; [done |]. cbn [root_of is_red color_of]. rewrite bind_bind.
  by rewrite (run_color _ _ _ _ (holds_at _ _ L _ _ _ _ O)).
Qed.

Lemma is_red_at {B} h C s a c t u (f : bool -> prog B) : holds h (fill C (mk s a c t u)) ->
  bind (is_red (Some a)) f h = f (c =? RB_RED) h.
Proof. intros O. rewrite <- (root_mk s a c t u), (is_red_spec _ _ _ _ O). by destruct s. Qed.
Lemma is_black_at {B} h C s a c t u (f : bool -> prog B) : holds h (fill C (mk s a c t u)) ->
  bind (is_black (Some a)) f h = f (c =? RB_BLACK) h.
Proof. intros O. rewrite <- (root_mk s a c t u), (is_black_spec _ _ _ _ O). by destruct s. Qed.

Lemma recolor_spec h C s a c t u c' : holds h (fill C (mk s a c t u)) -> exists h',
  set_color (Some a) c' h = Done (tt, h') /\ holds h' (fill C (mk s a c' t u)).
Proof.
  intros O. apply rb_holds_fill in O. rewrite cells_mk, root_mk in O.
  eapply (owned_perm _ _ ((a, entry s (root_of t) (root_of u) (top C) c) ::
    ctx_cells C (Some a) ++ cells (Some a) t ++ cells (Some a) u)) in O; [| solve_Permutation].
  destruct (owned_modify _ _ _ _ (with_color c') O) as [E O']. rewrite with_color_entry in E, O'.
  eexists. split; [exact E |]. apply rb_holds_fill. rewrite cells_mk, root_mk. eapply owned_perm; [exact O' |].
  solve_Permutation.
Qed.

(** Two subtrees of a node do not start at the same address. *)
Lemma other_side h C s a c t u b : holds h (fill C (mk s a c t u)) -> root_of t = Some b -> root_of u <> Some b.
Proof.
  intros O Ht Hu. apply holds_NoDup in O. rewrite elems_fill in O. apply NoDup_app in O as (_ & _ & O).
  apply NoDup_app in O as (O & _ & _). destruct t as [| b' ? ? ?]; [done |]. destruct u as [| b'' ? ? ?]; [done |].
  cbn in Ht, Hu. injection Ht as ->. injection Hu as ->.
  destruct s; cbn [mk elems] in O; apply NoDup_app in O as (_ & Hd & _); apply (Hd b); csimpl; set_solver.
Qed.

(** The test for the side of a node. *)
Lemma side_of h C s a c t u b : holds h (fill C (mk s a c t u)) -> root_of t = Some b ->
  (if decide (Some b = get_child L (entry s (root_of t) (root_of u) (top C) c)) then L else R) = s.
Proof.
  intros O Hb. destruct s; [by rewrite decide_True |]. apply decide_False. intros E.
  by eapply (other_side _ _ _ _ _ _ _ _ O Hb).
Qed.

(** ** The colours *)

(** A red-black tree with a root of colour [c] and black height [n]. *)
Inductive rbt : Z -> nat -> tree -> Prop :=
  | rbt_leaf : rbt RB_BLACK 0 Leaf
  | rbt_red n a l r : rbt RB_BLACK n l -> rbt RB_BLACK n r -> rbt RB_RED n (Node a RB_RED l r)
  | rbt_black c d n a l r : rbt c n l -> rbt d n r -> rbt RB_BLACK (S n) (Node a RB_BLACK l r).
Definition valid t : Prop := exists n, rbt RB_BLACK n t.

(** The tree with a hole is one when the hole is filled with a tree of black height
    [n], which may be red if [b]. *)
Inductive rbc : bool -> nat -> list frame -> Prop :=
  | rbc_nil n : rbc false n []
  | rbc_red n s a u C : rbt RB_BLACK n u -> rbc true n C -> rbc false n (In s a RB_RED u :: C)
  | rbc_black b c n s a u C : rbt c n u -> rbc b (S n) C -> rbc true n (In s a RB_BLACK u :: C).

Lemma rbt_color c n t : rbt c n t -> c = color_of t.
Proof. by destruct 1. Qed.

Lemma rbt_mk_red n s a t u : rbt RB_BLACK n t -> rbt RB_BLACK n u -> rbt RB_RED n (mk s a RB_RED t u).
Proof. intros. destruct s; by constructor. Qed.
Lemma rbt_mk_black c d n s a t u : rbt c n t -> rbt d n u -> rbt RB_BLACK (S n) (mk s a RB_BLACK t u).
Proof. intros. destruct s; by econstructor. Qed.

Lemma rbt_black_or_red c n t : rbt c n t -> c = RB_BLACK \/ c = RB_RED.
Proof. destruct 1; auto. Qed.

Lemma plug C : forall b n c t, rbc b n C -> rbt c n t -> (c = RB_RED -> b = true) -> valid (fill C t).
Proof.
  induction C as [| [s a d u] C IH]; intros b n c t HC Ht Hc.
  - inversion HC; subst. destruct (rbt_black_or_red _ _ _ Ht) as [-> | ->]; [by exists n | by specialize (Hc eq_refl)].
  - rewrite fill_cons. cbn [fill1]. inversion HC; subst.
    + destruct (rbt_black_or_red _ _ _ Ht) as [-> | ->]; [| by specialize (Hc eq_refl)].
      apply (IH true n RB_RED); [done | by apply rbt_mk_red | done].
    + eapply IH; [done | by eapply rbt_mk_black | done].
Qed.

Definition blacken t : tree := match t with Leaf => Leaf | Node a _ l r => Node a RB_BLACK l r end.
Lemma blacken_valid t : valid t -> blacken t = t.
Proof. intros [n Ht]. by inversion Ht. Qed.

Lemma elems_rotate s x cx y cy t u w :
  elems (mk s y cy (mk s x cx t u) w) = elems (mk s x cx t (mk s y cy u w)).
Proof. destruct s; csimpl; by simplify_list_eq. Qed.
Lemma elems_color s a c c' t u : elems (mk s a c t u) = elems (mk s a c' t u).
Proof. by destruct s. Qed.
Lemma elems_mk s a c t t' u u' : elems t = elems t' -> elems u = elems u' -> elems (mk s a c t u) = elems (mk s a c t' u').
Proof. intros Et Eu. destruct s; csimpl; by rewrite Et, Eu. Qed.
Lemma elems_fill_eq C t t' : elems t = elems t' -> elems (fill C t) = elems (fill C t').
Proof. rewrite !elems_fill. by intros ->. Qed.

(** Going through a program one call at a time, where [O] says what tree the heap
    holds: [step_by H] for a call that the lemma [H] describes. *)
Ltac step_by H :=
  let h' := fresh "h" in let E := fresh "E" in let O' := fresh "O" in
  destruct H as (h' & E & O'); first [rewrite (bind_eq _ _ _ _ _ E) | rewrite E]; clear E.

(** ** Insertion *)

Lemma fill_near C s a c t u : fill (In s a c u :: C) t = fill C (mk s a c t u).
Proof. done. Qed.
Lemma fill_far C s a c t u : fill (In (flip s) a c t :: C) u = fill C (mk s a c t u).
Proof. by rewrite fill_near, mk_flip. Qed.

Lemma root_same C s s' a c c' t t' u u' : root_of (fill C (mk s a c t u)) = root_of (fill C (mk s' a c' t' u')).
Proof. by rewrite !rb_root_fill, !root_mk. Qed.

(** [RB_SET_BLACKRED] on a node and its parent. *)
Lemma set_blackred_spec h C s s' p g c d t e u : holds h (fill C (mk s g c (mk s' p d t e) u)) -> exists h',
  RB_SET_BLACKRED (Some p) (Some g) h = Done (tt, h') /\
  holds h' (fill C (mk s g RB_RED (mk s' p RB_BLACK t e) u)).
Proof.
  intros O. unfold RB_SET_BLACKRED. rewrite <- fill_near in O.
  step_by (recolor_spec _ _ _ _ _ _ _ RB_BLACK O). rewrite fill_near in O0.
  step_by (recolor_spec _ _ _ _ _ _ _ RB_RED O0). by eexists.
Qed.

(** The last case: the rotation at the grandparent. *)
Lemma insert_rotate h C s p g c d e t u : holds h (fill C (mk s g c u (mk s p d t e))) -> exists h',
  (RB_SET_BLACKRED (Some p) (Some g) ;!
   rotate s (root_of (fill C (mk s g c u (mk s p d t e)))) (Some g)) h =
    Done (root_of (fill (In (flip s) p RB_BLACK (mk s g RB_RED u t) :: C) e), h') /\
  holds h' (fill (In (flip s) p RB_BLACK (mk s g RB_RED u t) :: C) e) /\
  elems (fill (In (flip s) p RB_BLACK (mk s g RB_RED u t) :: C) e) = elems (fill C (mk s g c u (mk s p d t e))).
Proof.
  intros O. rewrite <- (mk_flip s g) in O. step_by (set_blackred_spec _ _ _ _ _ _ _ _ _ _ _ O).
  rewrite mk_flip in O0. rewrite fill_far.
  rewrite (root_same C s s g c RB_RED u u _ (mk s p RB_BLACK t e)).
  step_by (rotate_spec _ _ _ _ _ _ _ _ _ _ O0). eexists. split; [done |]. split; [done |].
  apply elems_fill_eq. rewrite elems_rotate. erewrite elems_color. by apply elems_mk, elems_color.
Qed.

Lemma mk_sides s s' a c t u : mk s' a c t u = mk s a c (if decide (s = s') then t else u) (if decide (s = s') then u else t).
Proof. by destruct s, s'. Qed.

(** The red node and its red parent are brought into line: both on the side of the
    parent. *)
Lemma insert_turn h C s s' s0 p g x cg sib l r unc n :
  holds h (fill C (mk s' g cg (mk s p RB_RED (mk s0 x RB_RED l r) sib) unc)) ->
  rbt RB_BLACK n l -> rbt RB_BLACK n r -> rbt RB_BLACK n sib -> exists h' p' e a b t,
  let T := fill C (mk s' g cg (mk s' p' RB_RED (mk s' e RB_RED a b) t) unc) in
  (let! q := child (flip s') (Some p) in
   if decide (q = Some x) then
     let! root := rotate s' (root_of (fill C (mk s' g cg (mk s p RB_RED (mk s0 x RB_RED l r) sib) unc))) (Some p) in
     ret (root, Some x, Some p)
   else ret (root_of (fill C (mk s' g cg (mk s p RB_RED (mk s0 x RB_RED l r) sib) unc)), Some p, Some x)) h =
    Done ((root_of T, Some p', Some e), h') /\ holds h' T /\
  elems T = elems (fill C (mk s' g cg (mk s p RB_RED (mk s0 x RB_RED l r) sib) unc)) /\
  rbt RB_BLACK n a /\ rbt RB_BLACK n b /\ rbt RB_BLACK n t.
Proof.
  intros O Hl Hr Hsib. pose proof O as Op. rewrite <- fill_near in Op.
  pose proof (holds_at _ _ _ _ _ _ _ Op) as Hp. rewrite root_mk in Hp.
  rewrite (mk_sides s' s0) in O, Op |- *. set (a := if decide (s' = s0) then l else r) in *.
  set (b := if decide (s' = s0) then r else l) in *.
  assert (rbt RB_BLACK n a /\ rbt RB_BLACK n b) as [Ha Hb] by (subst a b; by destruct (decide (s' = s0))).
  rewrite (run_child _ _ _ _ _ Hp). destruct (decide (s = s')) as [-> | Hs].
  - rewrite get_flip_entry, decide_False by (eapply (other_side _ _ _ _ _ _ _ _ Op); apply root_mk).
    by exists h, p, x, a, b, sib.
  - assert (s = flip s') as -> by (by destruct s, s'). rewrite get_child_entry, decide_True by done.
    rewrite (mk_flip s' p) in *. rewrite fill_near in Op. rewrite <- fill_near in O |- *.
    step_by (rotate_spec _ _ _ _ _ _ _ _ _ _ O). eexists _, x, p, sib, a, b. split_and!; try done.
    apply (elems_fill_eq (In s' g cg unc :: C)), elems_rotate.
Qed.

Lemma insert_loop_spec fuel : forall h C s0 x l r n b,
  holds h (fill C (mk s0 x RB_RED l r)) -> rbt RB_BLACK n l -> rbt RB_BLACK n r -> rbc b n C -> (length C < fuel)%nat ->
  exists h' t, insert_color_loop fuel (root_of (fill C (mk s0 x RB_RED l r))) (Some x) h = Done (root_of t, h') /\
    holds h' t /\ elems t = elems (fill C (mk s0 x RB_RED l r)) /\ t <> Leaf /\ valid (blacken t).
Proof.
  induction fuel as [| fuel IH]; intros h C s0 x l r n b O Hl Hr HC Hf; [lia |]. cbn [insert_color_loop].
  rewrite (run_parent _ _ _ _ (holds_at _ _ _ _ _ _ _ O)), rbe_parent_entry.
  destruct C as [| [s p cp sib] C]; cbn [top frame_loc].
  { exists h, (mk s0 x RB_RED l r). split_and!; try done; [by destruct s0 |].
    exists (S n). replace (blacken _) with (mk s0 x RB_BLACK l r) by (by destruct s0). by eapply rbt_mk_black. }
  rewrite fill_near in O. rewrite (is_red_at _ _ _ _ _ _ _ _ O).
  inversion HC as [| ? ? ? ? ? Hsib HC' | ? ? ? ? ? ? ? Hsib HC']; subst.
  2: { exists h, (fill C (mk s p RB_BLACK (mk s0 x RB_RED l r) sib)).
    assert (valid (fill C (mk s p RB_BLACK (mk s0 x RB_RED l r) sib))) as Hv
      by (rewrite <- fill_near; eapply plug; [done | by apply rbt_mk_red | done]).
    split_and!; try done; [| by rewrite blacken_valid]. by apply fill_not_leaf. }
  rewrite Z.eqb_refl. inversion HC' as [| | b' cu ? s' g unc C' Hunc HC'']; subst.
  rewrite (run_parent _ _ _ _ (holds_at _ _ _ _ _ _ _ O)), rbe_parent_entry. cbn [top frame_loc].
  rewrite fill_near in O. unfold RB_LEFT. pose proof (holds_at _ _ _ _ _ _ _ O) as Hg.
  rewrite (run_child _ _ _ _ _ Hg), (side_of _ _ _ _ _ _ _ _ O (root_mk _ _ _ _ _)).
  rewrite (run_child _ _ _ _ _ Hg), get_flip_entry. rewrite <- (fill_far C') in O.
  rewrite (is_red_spec _ _ _ _ O).
  destruct (rbt_black_or_red _ _ _ Hunc) as [-> | ->]; rewrite <- (rbt_color _ _ _ Hunc).
  - change (RB_BLACK =? RB_RED) with false. cbn iota. rewrite fill_far in O.
    destruct (insert_turn _ _ _ _ _ _ _ _ _ _ _ _ _ _ O Hl Hr Hsib) as (h1 & p' & e & a & c & t & E & O1 & Ee & Ha & Hc & Ht).
    rewrite !fill_near, <- bind_bind, (bind_eq _ _ _ _ _ E). rewrite <- (mk_flip s' g), <- (mk_flip s' p') in O1.
    destruct (insert_rotate _ _ _ _ _ _ _ _ _ _ O1) as (h2 & E2 & O2 & Ee2).
    rewrite <- (mk_flip s' g), <- (mk_flip s' p') in Ee. rewrite <- (mk_flip s' g _ (mk s' p' _ _ _)), <- (mk_flip s' p').
    rewrite <- bind_bind, (bind_eq _ _ _ _ _ E2).
    destruct (IH h2 _ s' e a c n true O2 Ha Hc) as (h3 & t3 & E3 & O3 & Ee3 & Hne & Hv).
    + by econstructor; [apply rbt_mk_red | exact HC''].
    + cbn [length] in *. lia.
    + exists h3, t3. split_and!; try done. by rewrite Ee3, Ee2, Ee.
  - rewrite Z.eqb_refl. inversion Hunc as [| ? u ul ur Hul Hur |]; subst. cbn [root_of].
    rewrite (node_mk L) in O |- *. destruct (recolor_spec _ _ _ _ _ _ _ RB_BLACK O) as (h1 & E & O1).
    rewrite (bind_eq _ _ _ _ _ E). rewrite fill_far in O1.
    destruct (set_blackred_spec _ _ _ _ _ _ _ _ _ _ _ O1) as (h2 & E2 & O2). rewrite (bind_eq _ _ _ _ _ E2).
    rewrite !fill_near. erewrite (root_same C' s' s' g RB_BLACK RB_RED).
    destruct (IH h2 C' s' g _ _ (S n) b' O2) as (h3 & t3 & E3 & O3 & Ee3 & Hne & Hv).
    + by eapply rbt_mk_black; [apply rbt_mk_red |].
    + by eapply rbt_mk_black.
    + done.
    + cbn [length] in *. lia.
    + exists h3, t3. split_and!; try done. rewrite Ee3. apply elems_fill_eq. by destruct s', s.
Qed.

Lemma unplug C : forall t, valid (fill C t) -> exists b n c, rbc b n C /\ rbt c n t /\ (c = RB_RED -> b = true).
Proof.
  induction C as [| [s a d u] C IH]; intros t Hv.
  - destruct Hv as [n Hv]. exists false, n, RB_BLACK. split_and!; [constructor | done | done].
  - rewrite fill_cons in Hv. destruct (IH _ Hv) as (b & n & c & HC & Ht & Hc). cbn [fill1] in Ht.
    assert (d = c) as -> by (rewrite (rbt_color _ _ _ Ht); by destruct s).
    destruct (rbt_black_or_red _ _ _ Ht) as [-> | ->].
    + destruct s; inversion Ht; subst; eexists true, _, _; (split_and!; [by econstructor | done | done]).
    + rewrite (Hc eq_refl) in HC.
      destruct s; inversion Ht; subst; eexists false, _, _; (split_and!; [by econstructor | done | done]).
Qed.

Lemma insert_color_spec h C s x l r n b : holds h (fill C (mk s x RB_RED l r)) -> rbt RB_BLACK n l -> rbt RB_BLACK n r ->
  rbc b n C -> exists h' t, RB_INSERT_COLOR (root_of (fill C (mk s x RB_RED l r))) (Some x) h = Done (root_of t, h') /\
    holds h' t /\ elems t = elems (fill C (mk s x RB_RED l r)) /\ valid t.
Proof.
  intros O Hl Hr HC. unfold RB_INSERT_COLOR. rewrite run_fuel.
  destruct (insert_loop_spec (S (size h)) _ _ _ _ _ _ _ _ O Hl Hr HC) as (h1 & t & E & O1 & Ee & Hne & Hv).
  { pose proof (holds_depth _ _ _ O). lia. }
  rewrite (bind_eq _ _ _ _ _ E). destruct t as [| a c u v]; [done |]. cbn [root_of].
  step_by (recolor_spec _ [] L _ _ _ _ RB_BLACK O1). exists h0, (Node a RB_BLACK u v). done.
Qed.

(** ** Searching *)

(** What [cmp] must be. *)
Class Ordering (cmp : loc -> loc -> Z) := {
  cmp_flip a b : cmp a b < 0 <-> 0 < cmp b a;
  cmp_le_trans a b c : cmp a b <= 0 -> cmp b c <= 0 -> cmp a c <= 0
}.

Section Search.
Context (cmp : loc -> loc -> Z) `{Ordering cmp}.

Lemma cmp_trans a b c : cmp a b < 0 -> cmp b c <= 0 -> cmp a c < 0.
Proof.
  intros Hab Hbc. assert (cmp a c <= 0) by (apply (cmp_le_trans a b c); lia).
  destruct (decide (cmp a c < 0)); [done |]. assert (cmp c a <= 0) as Hca.
  { pose proof (proj2 (cmp_flip a c)). lia. }
  pose proof (cmp_le_trans b c a Hbc Hca). pose proof (proj1 (cmp_flip a b) Hab). lia.
Qed.
Lemma cmp_trans' a b c : cmp a b <= 0 -> cmp b c < 0 -> cmp a c < 0.
Proof.
  intros Hab Hbc. assert (cmp a c <= 0) by (apply (cmp_le_trans a b c); lia).
  destruct (decide (cmp a c < 0)); [done |]. assert (cmp c a <= 0) as Hca.
  { pose proof (proj2 (cmp_flip a c)). lia. }
  pose proof (cmp_le_trans c a b Hca Hab). pose proof (proj1 (cmp_flip b c) Hbc). lia.
Qed.

Definition sorted (l : list loc) : Prop := StronglySorted (fun a b => cmp a b < 0) l.

Lemma sorted_app l k : sorted (l ++ k) <-> sorted l /\ sorted k /\ forall a b, a ∈ l -> b ∈ k -> cmp a b < 0.
Proof.
  unfold sorted. induction l as [| x l IH]; cbn.
  - split; [intros Hs; split_and!; [constructor | done | intros a b Ha; by apply elem_of_nil in Ha] | tauto].
  - rewrite !StronglySorted_cons, !Forall_forall, IH. setoid_rewrite elem_of_app. setoid_rewrite elem_of_cons.
    split; [intros (Hx & Hl & Hk & Hlk); split_and!; auto; intros a b [-> | Ha] Hb; auto
           | intros ((Hx & Hl) & Hk & Hlk); split_and!; auto; intros b [Hb | Hb]; auto].
Qed.

(** Insertion into a sorted list. *)
Fixpoint add (x : loc) (l : list loc) : list loc :=
  match l with
  | [] => [x]
  | y :: l => if cmp x y <? 0 then x :: y :: l else y :: add x l
  end.

Lemma add_app x l k : (forall a, a ∈ l -> cmp a x < 0) -> (forall b, b ∈ k -> cmp x b < 0) -> add x (l ++ k) = l ++ x :: k.
Proof.
  intros Hl Hk. induction l as [| y l IH]; cbn.
  - destruct k as [| z k]; [done |]. cbn. rewrite (proj2 (Z.ltb_lt _ _)); [done |]. apply Hk. left.
  - assert (cmp y x < 0) as Hy by (apply Hl; left). apply cmp_flip in Hy.
    rewrite (proj2 (Z.ltb_ge _ _)) by lia. rewrite IH; [done |]. intros a Ha. apply Hl. by right.
Qed.

Lemma rb_sorted_add x l : sorted l -> (forall a, a ∈ l -> cmp x a <> 0) -> exists lo hi, l = lo ++ hi /\
  add x l = lo ++ x :: hi /\ sorted (add x l).
Proof.
  intros Hs Hx. assert (exists lo hi, l = lo ++ hi /\ (forall a, a ∈ lo -> cmp a x < 0) /\ (forall b, b ∈ hi -> cmp x b < 0))
    as (lo & hi & -> & Hlo & Hhi).
  { induction Hs as [| y l Hs IH Hy].
    { exists [], []. split_and!; [done | by intros ? ?%elem_of_nil ..]. }
    destruct (decide (cmp x y < 0)) as [Hxy | Hxy].
    - exists [], (y :: l). split_and!; [done | by intros ? ?%elem_of_nil |]. rewrite Forall_forall in Hy.
      intros b [-> | Hb]%elem_of_cons; [done |]. apply (cmp_trans _ y); [done |]. by apply Z.lt_le_incl, Hy.
    - destruct IH as (lo & hi & -> & Hlo & Hhi); [intros a Ha; apply Hx; by right |].
      exists (y :: lo), hi. split_and!; [done | | done]. intros a [-> | Ha]%elem_of_cons; [| by apply Hlo].
      apply cmp_flip. pose proof (Hx y ltac:(left)). lia. }
  exists lo, hi. split; [done |]. rewrite add_app by done. split; [done |].
  apply sorted_app in Hs as (H1 & H2 & H3). apply sorted_app. split_and!; [done | |].
  - constructor; [done |]. by apply Forall_forall.
  - intros a b Ha [-> | Hb]%elem_of_cons; auto.
Qed.

(** Where an element belongs: everything before the hole is smaller, everything
    after it greater, and the last comparison went to its side. *)
Definition place C (x : loc) (comp : Z) : Prop :=
  (forall a, a ∈ before C -> cmp a x < 0) /\ (forall b, b ∈ after C -> cmp x b < 0) /\
  match C with [] => True | In s _ _ _ :: _ => s = if comp <? 0 then L else R end.

Lemma place_left C x comp a c l r : sorted (elems (fill C (Node a c l r))) -> place C x comp -> cmp x a < 0 ->
  place (In L a c r :: C) x (cmp x a).
Proof.
  intros Hs (Hb & Ha & _) Hx. rewrite elems_fill in Hs. cbn [elems] in Hs. rewrite !sorted_app in Hs.
  destruct Hs as (_ & (( _ & Hs & _) & _) & _). apply StronglySorted_inv in Hs as [_ Hs]. rewrite Forall_forall in Hs.
  split_and!; [done | | by rewrite (proj2 (Z.ltb_lt _ _))].
  cbn [after]. intros b [-> | [Hr | ?]%elem_of_app]%elem_of_cons; [done | | by apply Ha].
  apply (cmp_trans x a); [done |]. by apply Z.lt_le_incl, Hs.
Qed.

Lemma place_right C x comp a c l r : sorted (elems (fill C (Node a c l r))) -> place C x comp -> 0 < cmp x a ->
  place (In R a c l :: C) x (cmp x a).
Proof.
  intros Hs (Hb & Ha & _) Hx. rewrite elems_fill in Hs. cbn [elems] in Hs. rewrite !sorted_app in Hs.
  destruct Hs as (_ & ((_ & _ & Hs) & _) & _). apply cmp_flip in Hx as Hax.
  split_and!; [| done | by rewrite (proj2 (Z.ltb_ge _ _)) by lia].
  cbn [before]. intros b [Hbb | [Hl | ->%list_elem_of_singleton]%elem_of_app]%elem_of_app; [by apply Hb | | done].
  apply (cmp_trans b a); [| lia]. apply Hs; [done | left].
Qed.

Lemma insert_loop_at x fuel : forall h C t comp, holds h (fill C t) -> sorted (elems (fill C t)) -> place C x comp ->
  (height t < fuel)%nat ->
  (exists a p c, a ∈ elems t /\ cmp x a = 0 /\
    insert_loop cmp fuel x (root_of t) (top C) comp h = Done ((Some a, p, c), h)) \/
  (exists D comp', fill C t = fill D Leaf /\ place D x comp' /\
    insert_loop cmp fuel x (root_of t) (top C) comp h = Done ((None, top D, comp'), h)).
Proof.
  induction fuel as [| fuel IH]; intros h C t comp O Hs Hp Hf; [lia |].
  destruct t as [| a c l r]; cbn [root_of insert_loop].
  { right. by exists C, comp. }
  pose proof (holds_at _ _ L _ _ _ _ O) as Ha. cbn [height] in Hf. unfold RB_LEFT, RB_RIGHT.
  destruct (cmp x a <? 0) eqn:E1; [| destruct (0 <? cmp x a) eqn:E2].
  - rewrite (run_child _ _ _ _ _ Ha). cbn [get_child entry rbe_left].
    destruct (IH h (In L a c r :: C) l (cmp x a) O Hs) as [(b & p & d & Hb & Hx & E) | (D & d & E)].
    + apply (place_left C x comp a c l r); [done | done | lia].
    + lia.
    + left. exists b, p, d. split_and!; [cbn; set_solver | done | done].
    + right. by exists D, d.
  - rewrite (run_child _ _ _ _ _ Ha). cbn [get_child entry rbe_right].
    destruct (IH h (In R a c l :: C) r (cmp x a) O Hs) as [(b & p & d & Hb & Hx & E) | (D & d & E)].
    + apply (place_right C x comp a c l r); [done | done | lia].
    + lia.
    + left. exists b, p, d. split_and!; [cbn; set_solver | done | done].
    + right. by exists D, d.
  - left. exists a, (Some a), (cmp x a). split_and!; [cbn; set_solver | lia | done].
Qed.

(** The new node is linked in. *)
Lemma attach_spec h D x comp v : owned h ((x, v) :: cells None (fill D Leaf)) -> place D x comp -> exists h',
  (RB_SET (Some x) (top D) ;!
   match top D with
   | Some _ => (if comp <? 0 then set_child L (top D) (Some x) else set_child R (top D) (Some x)) ;!
               ret (root_of (fill D Leaf))
   | None => ret (Some x)
   end) h = Done (root_of (fill D (Node x RB_RED Leaf Leaf)), h') /\ holds h' (fill D (Node x RB_RED Leaf Leaf)).
Proof.
  intros O (_ & _ & Hside). rewrite rb_cells_fill, app_nil_r in O. unfold RB_SET, set_parent, set_child, set_color.
  destruct v as [vl vr vp vc]. wr O x. wr O x. wr O x. wr O x.
  cbn [with_parent with_child with_color rbe_left rbe_right rbe_parent rbe_color] in O |- *.
  rewrite mkEntry_entry in O |- *. rewrite !rb_root_fill. cbn [root_of].
  destruct D as [| [s b c u] D]; cbn [top frame_loc].
  - eexists. split; [done |]. by apply rb_holds_fill.
  - cbn [ctx_cells frame_cells app root_of] in O. subst s.
    destruct (comp <? 0); wr O b; eexists; (split; [done |]); apply rb_holds_fill; (eapply owned_perm; [exact O |]);
      cbn [ctx_cells frame_cells app cells root_of top frame_loc entry]; solve_Permutation.
Qed.

Lemma owned_more h t x v : holds h t -> h !! x = Some v -> x ∉ elems t -> owned h ((x, v) :: cells None t).
Proof.
  intros [Hs Hn] Hx Hxt. split; [by apply sees_cons |]. cbn. apply NoDup_cons. split; [| done].
  by rewrite rb_cells_locs.
Qed.

Lemma fuel_enough h t : holds h t -> (height t < S (size h))%nat.
Proof. intros O. pose proof (height_elems t). pose proof (rb_holds_size _ _ O). lia. Qed.

(** [RB_INSERT] on the heap is [add] on the elements, and keeps a red-black tree. *)
Lemma rb_insert_spec h t x : holds h t -> valid t -> sorted (elems t) -> is_Some (h !! x) ->
  (exists a, a ∈ elems t /\ cmp x a = 0 /\ RB_INSERT cmp (root_of t) x h = Done ((Some a, root_of t), h)) \/
  ((forall a, a ∈ elems t -> cmp x a <> 0) /\ exists h' t',
    RB_INSERT cmp (root_of t) x h = Done ((None, root_of t'), h') /\
    holds h' t' /\ valid t' /\ elems t' = add x (elems t)).
Proof.
  intros O Hv Hs [v Hx]. unfold RB_INSERT. rewrite run_fuel.
  assert (place [] x 0) as Hp by (split_and!; [by intros ? ?%elem_of_nil ..| done]).
  destruct (insert_loop_at x (S (size h)) h [] t 0 O Hs Hp (fuel_enough _ _ O))
    as [(a & p & c & Ha & Hc & E) | (D & comp & Et & HD & E)]; cbn [top] in E; rewrite (bind_eq _ _ _ _ _ E); [left; by exists a |].
  cbn in Et. subst t. right. destruct HD as (Hb & Ha & Hside).
  assert (forall a, a ∈ elems (fill D Leaf) -> cmp x a <> 0) as Hne.
  { intros a. rewrite elems_fill. cbn [elems app]. intros [Hi | Hi]%elem_of_app.
    - apply Hb, cmp_flip in Hi. lia.
    - apply Ha in Hi. lia. }
  split; [done |].
  assert (x ∉ elems (fill D Leaf)) as Hxt.
  { intros Hi. pose proof (Hne x Hi). pose proof (cmp_flip x x). lia. }
  destruct (attach_spec _ _ _ _ _ (owned_more _ _ _ _ O Hx Hxt) (conj Hb (conj Ha Hside))) as (h1 & E1 & O1).
  rewrite <- bind_bind, (bind_eq _ _ _ _ _ E1).
  destruct (unplug _ _ Hv) as (b & n & c & HC & Hl & _). inversion Hl; subst.
  destruct (insert_color_spec _ _ L _ _ _ _ _ O1 Hl Hl HC) as (h2 & t2 & E2 & O2 & Ee & Hv2).
  rewrite (bind_eq _ _ _ _ _ E2). exists h2, t2. split_and!; [done | done | done |].
  rewrite Ee, !elems_fill. cbn [elems app mk]. by rewrite add_app.
Qed.

Lemma find_loop_at x fuel : forall h C t, holds h (fill C t) -> sorted (elems (fill C t)) -> (height t < fuel)%nat ->
  exists p, find_loop cmp fuel x (root_of t) h = Done (p, h) /\
    match p with Some a => a ∈ elems t /\ cmp x a = 0 | None => forall a, a ∈ elems t -> cmp x a <> 0 end.
Proof.
  induction fuel as [| fuel IH]; intros h C t O Hs Hf; [lia |].
  destruct t as [| a c l r]; cbn [root_of find_loop].
  { exists None. split; [done |]. by intros a ?%elem_of_nil. }
  pose proof (holds_at _ _ L _ _ _ _ O) as Ha. cbn [height] in Hf. unfold RB_LEFT, RB_RIGHT.
  assert (sorted (elems l ++ a :: elems r)) as Hs'.
  { rewrite elems_fill in Hs. apply sorted_app in Hs as (_ & Hs & _). by apply sorted_app in Hs as (Hs & _ & _). }
  apply sorted_app in Hs' as (_ & Har & Hla). apply StronglySorted_inv in Har as [_ Har]. rewrite Forall_forall in Har.
  destruct (cmp x a <? 0) eqn:E1; [| destruct (0 <? cmp x a) eqn:E2].
  - rewrite (run_child _ _ _ _ _ Ha). cbn [get_child entry rbe_left].
    destruct (IH h (In L a c r :: C) l O Hs) as (p & E & Hp); [lia |]. exists p. split; [done |]. destruct p as [b |].
    + cbn. split; [set_solver | tauto].
    + cbn. intros b [Hb | [-> | Hb]%elem_of_cons]%elem_of_app; [by apply Hp | lia |].
      apply Z.ltb_lt in E1. pose proof (cmp_trans x a b E1). specialize (Har b Hb). lia.
  - rewrite (run_child _ _ _ _ _ Ha). cbn [get_child entry rbe_right].
    destruct (IH h (In R a c l :: C) r O Hs) as (p & E & Hp); [lia |]. exists p. split; [done |]. destruct p as [b |].
    + cbn. split; [set_solver | tauto].
    + cbn. intros b [Hb | [-> | Hb]%elem_of_cons]%elem_of_app; [| lia | by apply Hp].
      apply Z.ltb_lt in E2. apply cmp_flip in E2. specialize (Hla b a Hb ltac:(left)).
      assert (cmp b x < 0) as Hbx by (apply (cmp_trans b a); [done | lia]). apply cmp_flip in Hbx. lia.
  - exists (Some a). split; [done |]. cbn. split; [set_solver | lia].
Qed.

Lemma rb_find_spec h t x : holds h t -> sorted (elems t) -> exists p, RB_FIND cmp (root_of t) x h = Done (p, h) /\
  match p with Some a => a ∈ elems t /\ cmp x a = 0 | None => forall a, a ∈ elems t -> cmp x a <> 0 end.
Proof. intros O Hs. apply (find_loop_at x _ h [] t O Hs). by apply fuel_enough. Qed.

End Search.

End RBTreeSpec.
