(* ===== verification/RBRemove.v ===== *)
(** Removal from the red-black tree of [cnm/net/tree.h]: the node is unlinked, or
    its successor takes its place, and the colours are repaired.  The file is about the
    definitions of [RBTree]. *)
From S2P Require Import Prelude CHeap RBTree.
Import RB RBTreeSpec.

Module RBRemoveSpec.
Implicit Types (t u : tree) (C D : list frame) (h : heap) (cs : list (loc * rb_entry)).

(** ** The colours *)

(** A subtree that is missing one black node: it is [n] high where [S n] is due,
    or would be as high as due if its root were black. *)
Definition nearly (n : nat) t : Prop := rbt RB_BLACK n t \/ color_of t = RB_RED /\ rbt RB_BLACK (S n) (blacken t).

(** The hole has its parent [p], of colour [c], with the sibling [u]. *)
Definition due (n : nat) (c : Z) C : Prop :=
  if c =? RB_RED then rbc true (S n) C else exists b, rbc b (S (S n)) C.

Lemma rbc_due b n s a c u C : rbc b (S n) (In s a c u :: C) ->
  due n c C /\ (exists d, rbt d (S n) u /\ (c = RB_RED -> d = RB_BLACK)) /\ (c = RB_BLACK \/ c = RB_RED).
Proof.
  intros HC. inversion HC; subst; (split_and!; [| eexists; split; [eassumption | done] | auto]); [done | by eexists].
Qed.

Lemma due_plug n c C t : due n c C -> (c = RB_RED -> rbt RB_RED (S n) t) -> (c = RB_BLACK -> rbt RB_BLACK (S (S n)) t) ->
  c = RB_BLACK \/ c = RB_RED -> valid (fill C t).
Proof.
  intros Hd Hr Hb [-> | ->]; unfold due in Hd; cbn in Hd.
  - destruct Hd as [b Hd]. eapply plug; [exact Hd | by apply Hb | done].
  - eapply plug; [exact Hd | by apply Hr | done].
Qed.

(** A red sibling is rotated away, so that the sibling is black. *)
Lemma remove_sibling h C s p c t u n : holds h (fill C (mk s p c t u)) -> due n c C ->
  (exists d, rbt d (S n) u /\ (c = RB_RED -> d = RB_BLACK)) -> c = RB_BLACK \/ c = RB_RED -> exists h' D c' w x y,
  let T := fill D (mk s p c' t (mk s w RB_BLACK x y)) in
  (let! tmp := child (flip s) (Some p) in
   let! d := RB_COLOR tmp in
   if d =? RB_RED then
     RB_SET_BLACKRED tmp (Some p) ;!
     let! root := rotate s (root_of (fill C (mk s p c t u))) (Some p) in
     let! tmp := child (flip s) (Some p) in
     ret (root, tmp)
   else ret (root_of (fill C (mk s p c t u)), tmp)) h = Done ((root_of T, Some w), h') /\
  holds h' T /\ elems T = elems (fill C (mk s p c t u)) /\ due n c' D /\
  (exists dx dy, rbt dx n x /\ rbt dy n y) /\ (c' = RB_RED \/ c' = RB_BLACK /\ D = C).
Proof.
  intros O Hd (d & Hu & Hcd) Hc. pose proof (holds_at _ _ _ _ _ _ _ O) as Hp.
  rewrite (run_child _ _ _ _ _ Hp), get_flip_entry.
  destruct u as [| w dw wl wr]; [by inversion Hu |]. cbn [root_of]. rewrite (node_mk s) in *.
  set (x := at_side s wl wr) in *. set (y := at_side s wr wl) in *.
  pose proof O as Ow. rewrite <- (fill_far C) in Ow. rewrite (run_color _ _ _ _ (holds_at _ _ _ _ _ _ _ Ow)), rbe_color_entry.
  assert (dw = d) as -> by (rewrite (rbt_color _ _ _ Hu); by destruct s).
  destruct (rbt_black_or_red _ _ _ Hu) as [-> | ->].
  - exists h, C, c, w, x, y. split_and!; try done; [| destruct Hc; auto].
    destruct s; inversion Hu; subst; subst x y; eauto.
  - destruct Hc as [-> | ->]; [| by specialize (Hcd eq_refl)]. rewrite Z.eqb_refl.
    assert (rbt RB_BLACK (S n) x /\ rbt RB_BLACK (S n) y) as [Hx Hy] by (destruct s; inversion Hu; by subst x y).
    rewrite <- (mk_flip s p) in O. destruct (set_blackred_spec _ _ _ _ _ _ _ _ _ _ _ O) as (h1 & E1 & O1).
    rewrite (bind_eq _ _ _ _ _ E1). rewrite mk_flip in O1.
    erewrite (root_same C s s p RB_BLACK RB_RED). step_by (rotate_spec _ _ _ _ _ _ _ _ _ _ O1).
    destruct x as [| w' d' a b] eqn:Ex; [by inversion Hx |].
    assert (d' = RB_BLACK) as -> by (symmetry; apply (rbt_color _ _ _ Hx)). rewrite (node_mk s) in *.
    rewrite <- fill_near in O0. rewrite (run_child _ _ _ _ _ (holds_at _ _ _ _ _ _ _ O0)), get_flip_entry, root_mk.
    eexists h0, (In s w RB_BLACK y :: C), RB_RED, w', _, _. split_and!; [done | exact O0 | | | | by left].
    + rewrite fill_near. apply elems_fill_eq. rewrite elems_rotate. erewrite (elems_color s p). by apply elems_mk, elems_color.
    + destruct Hd as [b' Hd]. by econstructor.
    + destruct s; inversion Hx; subst; eauto.
Qed.

(** A sibling with a red child gets it on the far side. *)
Lemma remove_far h C s p c t w x y n dx dy : holds h (fill C (mk s p c t (mk s w RB_BLACK x y))) ->
  rbt dx n x -> rbt dy n y -> ~ (dx = RB_BLACK /\ dy = RB_BLACK) -> exists h' w' x' y' d,
  let T := fill C (mk s p c t (mk s w' RB_BLACK x' y')) in
  (let! far := child (flip s) (Some w) in
   let! black := is_black far in
   if black : bool then
     let! near := child s (Some w) in
     when near (set_color near RB_BLACK) ;!
     set_color (Some w) RB_RED ;!
     let! root := rotate (flip s) (root_of (fill C (mk s p c t (mk s w RB_BLACK x y)))) (Some w) in
     let! tmp := child (flip s) (Some p) in
     ret (root, tmp)
   else ret (root_of (fill C (mk s p c t (mk s w RB_BLACK x y))), Some w)) h = Done ((root_of T, Some w'), h') /\
  holds h' T /\ elems T = elems (fill C (mk s p c t (mk s w RB_BLACK x y))) /\
  rbt d n x' /\ rbt RB_RED n y'.
Proof.
  intros O Hx Hy Hne. pose proof O as Ow. rewrite <- (fill_far C) in Ow. pose proof (holds_at _ _ _ _ _ _ _ Ow) as Hw.
  rewrite (run_child _ _ _ _ _ Hw), get_flip_entry. pose proof Ow as Oy. rewrite <- (fill_far (_ :: C)) in Oy.
  rewrite (is_black_spec _ _ _ _ Oy), <- (rbt_color _ _ _ Hy).
  destruct (rbt_black_or_red _ _ _ Hy) as [-> | ->].
  2: { by exists h, w, x, y, dx. }
  destruct (rbt_black_or_red _ _ _ Hx) as [-> | ->]; [by destruct Hne |].
  rewrite Z.eqb_refl. rewrite (run_child _ _ _ _ _ Hw), get_child_entry.
  destruct x as [| x d x1 x2]; [by inversion Hx |]. cbn [root_of when].
  assert (d = RB_RED) as -> by (symmetry; apply (rbt_color _ _ _ Hx)). rewrite (node_mk s) in *.
  set (u := at_side s x1 x2) in *. set (v := at_side s x2 x1) in *.
  assert (rbt RB_BLACK n u /\ rbt RB_BLACK n v) as [Hu Hv] by (destruct s; inversion Hx; by subst u v).
  pose proof Ow as Ox. rewrite <- fill_near in Ox.
  step_by (recolor_spec _ _ _ _ _ _ _ RB_BLACK Ox). rewrite fill_near in O0.
  step_by (recolor_spec _ _ _ _ _ _ _ RB_RED O0). rewrite <- (mk_flip s w), <- (mk_flip s x) in O1.
  rewrite <- fill_far. erewrite (root_same _ s (flip s)). step_by (rotate_spec _ _ _ _ _ _ _ _ _ _ O1).
  rewrite (mk_flip s x), (mk_flip s w) in O2. pose proof (holds_at (h2) C s p c t (mk s x RB_BLACK u (mk s w RB_RED v y))) as Hp.
  rewrite <- fill_far in Hp. rewrite (run_child _ _ _ _ _ (Hp O2)), get_flip_entry, root_mk.
  exists h2, x, u, (mk s w RB_RED v y), RB_BLACK. rewrite fill_far in O2. split_and!; [| done | | done | by apply rbt_mk_red].
  - unfold ret. rewrite <- fill_far. by rewrite !rb_root_fill, !root_mk.
  - rewrite fill_far. apply elems_fill_eq, elems_mk; [done |]. destruct s; csimpl; by simplify_list_eq.
Qed.

(** The missing node is made up for. *)
Lemma remove_final h C s p c t w x y n d : holds h (fill C (mk s p c t (mk s w RB_BLACK x y))) ->
  due n c C -> c = RB_BLACK \/ c = RB_RED -> rbt RB_BLACK n t -> rbt d n x -> rbt RB_RED n y -> exists h' T,
  (let! c0 := RB_COLOR (Some p) in
   set_color (Some w) c0 ;!
   set_color (Some p) RB_BLACK ;!
   let! far := child (flip s) (Some w) in
   when far (set_color far RB_BLACK) ;!
   let! root := rotate s (root_of (fill C (mk s p c t (mk s w RB_BLACK x y)))) (Some p) in
   ret (root, root)) h = Done ((root_of T, root_of T), h') /\
  holds h' T /\ elems T = elems (fill C (mk s p c t (mk s w RB_BLACK x y))) /\ valid T.
Proof.
  intros O Hd Hc Ht Hx Hy. rewrite (run_color _ _ _ _ (holds_at _ _ _ _ _ _ _ O)), rbe_color_entry.
  pose proof O as Ow. rewrite <- (fill_far C) in Ow. step_by (recolor_spec _ _ _ _ _ _ _ c Ow). rewrite fill_far in O0.
  step_by (recolor_spec _ _ _ _ _ _ _ RB_BLACK O0). pose proof O1 as O2. rewrite <- (fill_far C) in O2.
  rewrite (run_child _ _ _ _ _ (holds_at _ _ _ _ _ _ _ O2)), get_flip_entry.
  inversion Hy as [| ? a l r Hl Hr |]; subst. cbn [root_of when]. rewrite <- (fill_far (_ :: C)), (node_mk L a) in O2.
  step_by (recolor_spec _ _ _ _ _ _ _ RB_BLACK O2). rewrite !fill_far in O3.
  rewrite (root_same C s s p c RB_BLACK t t _ (mk s w c x (mk L a RB_BLACK l r))). step_by (rotate_spec _ _ _ _ _ _ _ _ _ _ O3).
  eexists _, _. split_and!; [done | exact O4 | |].
  - apply elems_fill_eq. rewrite elems_rotate. by destruct s; csimpl.
  - assert (rbt RB_BLACK (S n) (mk s p RB_BLACK t x)) by (by eapply rbt_mk_black).
    assert (rbt RB_BLACK (S n) (mk L a RB_BLACK l r)) by (by eapply rbt_mk_black).
    eapply due_plug; [exact Hd | intros ->; by apply rbt_mk_red | intros ->; by eapply rbt_mk_black | done].
Qed.

(** The test of the children of the sibling. *)
Lemma both_black_spec {B} h C s w c x y (f : bool -> prog B) : holds h (fill C (mk s w c x y)) ->
  (let! l := RB_LEFT (Some w) in
   let! bl := is_black l in
   let! both := (if bl : bool then let! r := RB_RIGHT (Some w) in is_black r else ret false) in
   f both) h = f ((color_of x =? RB_BLACK) && (color_of y =? RB_BLACK)) h.
Proof.
  intros O. set (l := at_side s x y). set (r := at_side s y x).
  replace (mk s w c x y) with (mk L w c l r) in O by (by destruct s).
  replace ((color_of x =? RB_BLACK) && (color_of y =? RB_BLACK)) with ((color_of l =? RB_BLACK) && (color_of r =? RB_BLACK))
    by (subst l r; destruct s; [done | apply andb_comm]).
  pose proof (holds_at _ _ _ _ _ _ _ O) as Hw. unfold RB_LEFT, RB_RIGHT.
  rewrite (run_child _ _ _ _ _ Hw). cbn [get_child entry rbe_left].
  pose proof O as Ol. rewrite <- fill_near in Ol. rewrite (is_black_spec _ _ _ _ Ol).
  destruct (color_of l =? RB_BLACK); [| done]. rewrite bind_bind, (run_child _ _ _ _ _ Hw). cbn [get_child entry rbe_right].
  rewrite <- (fill_far C) in O. by rewrite (is_black_spec _ _ _ _ O).
Qed.

(** Above the hole is not below it. *)
Lemma ctx_root_in C a : Some a = ctx_root C (Some a) -> C <> [] -> a ∈ before C ++ after C.
Proof.
  assert (forall b, Some a = ctx_root C b -> Some a = b \/ a ∈ before C ++ after C) as H.
  { induction C as [| [s x d u] C IH]; intros b E; cbn in E; [by left |]. right.
    destruct (IH _ E) as [[= ->] | H]; destruct s; csimpl; set_solver. }
  destruct C as [| [s x d u] C]; [done |]. intros E _. rewrite (ctx_root_cons _ _ None) in E by done.
  by destruct (H None E).
Qed.

Lemma root_apart h C t : holds h (fill C t) -> C <> [] -> root_of t <> root_of (fill C t).
Proof.
  intros O HC E. rewrite rb_root_fill in E. apply holds_NoDup in O. rewrite elems_fill in O.
  destruct t as [| a c l r]; cbn [root_of] in E.
  - destruct C as [| f C]; [done |]. cbn in E. revert E. clear. revert f.
    induction C as [| g C IH]; intros f; cbn; [done | apply IH].
  - pose proof (ctx_root_in _ _ E HC) as Ha.
    apply NoDup_app in O as (_ & Hd & O). apply NoDup_app in O as (_ & Hd' & _).
    apply elem_of_app in Ha as [Ha | Ha]; [apply (Hd _ Ha) | apply (Hd' a)]; set_solver.
Qed.

(** The test for the side of the hole, where it may be empty. *)
Lemma side_of_hole h C s a c t u : holds h (fill C (mk s a c t u)) -> u <> Leaf ->
  (if decide (get_child L (entry s (root_of t) (root_of u) (top C) c) = root_of t) then L else R) = s.
Proof.
  intros O Hu. destruct s; [by rewrite decide_True |]. apply decide_False. intros E. cbn in E.
  destruct u as [| b d l r]; [done |]. by apply (other_side _ _ _ _ _ _ _ _ O (eq_sym E) eq_refl).
Qed.

Lemma blacken_spec h C t : holds h (fill C t) -> exists h',
  when (root_of t) (set_color (root_of t) RB_BLACK) h = Done (tt, h') /\ holds h' (fill C (blacken t)).
Proof.
  intros O. destruct t as [| a c l r]; [by exists h |]. by apply (recolor_spec _ _ L _ _ _ _ RB_BLACK O).
Qed.

Lemma bind_bind3 {T A B X Y} (m : M T A) (f : A -> M T B) (g : A -> B -> M T X) (k : X -> M T Y) (h : gmap loc T) :
  bind m (fun a => bind (f a) (fun b => bind (g a b) k)) h = bind (bind m (fun a => bind (f a) (g a))) k h.
Proof.
  unfold bind. destruct (m h) as [[a h1] | |]; cbn; [| done ..].
  by destruct (f a h1) as [[b h2] | |].
Qed.

Lemma color_mk s a c t u : color_of (mk s a c t u) = c.
Proof. by destruct s. Qed.

(** With a red sibling the parent takes over. *)
Lemma remove_pass n s p c t u C : due n c C -> rbt RB_BLACK n t -> rbt RB_RED n u -> c = RB_BLACK \/ c = RB_RED ->
  exists m b, nearly m (mk s p c t u) /\ rbc b (S m) C.
Proof.
  intros Hd Ht Hu [-> | ->]; unfold due in Hd; cbn in Hd.
  - destruct Hd as [b Hd]. exists (S n), b. split; [left; by eapply rbt_mk_black | done].
  - exists n, true. split; [right | done]. rewrite color_mk. split; [done |].
    replace (blacken _) with (mk s p RB_BLACK t u) by (by destruct s). by eapply rbt_mk_black.
Qed.

(** A tree that is one black node short at the hole is mended, but for the colour of
    the node that the loop ends at. *)
Lemma remove_loop_spec fuel : forall h C t n b, holds h (fill C t) -> nearly n t -> rbc b (S n) C ->
  ((if (color_of t =? RB_RED)%Z then 1 else 2 + length C) <= fuel)%nat -> exists h' D u,
  remove_color_loop fuel (root_of (fill C t)) (top C) (root_of t) h = Done ((root_of (fill D u), root_of u), h') /\
  holds h' (fill D u) /\ elems (fill D u) = elems (fill C t) /\ valid (fill D (blacken u)).
Proof.
  induction fuel as [| fuel IH]; intros h C t n b O Ht HC Hf; [destruct (color_of t =? RB_RED); lia |].
  cbn [remove_color_loop]. rewrite (is_black_spec _ _ _ _ O).
  destruct Ht as [Ht | [Hred Ht]].
  2: { rewrite Hred. exists h, C, t. split_and!; [done | done | done |]. by eapply plug; [| exact Ht |]. }
  rewrite <- (rbt_color _ _ _ Ht) in Hf |- *. rewrite Z.eqb_refl. cbn [andb]. change (RB_BLACK =? RB_RED) with false in Hf.
  destruct C as [| [s p c u] C].
  { rewrite bool_decide_eq_false_2 by (intros E; by apply E). exists h, [], t. split_and!; [done | done | done |].
    cbn. rewrite blacken_valid; by exists n. }
  rewrite bool_decide_eq_true_2 by (by apply (root_apart _ _ _ O)).
  destruct (rbc_due _ _ _ _ _ _ _ HC) as (Hd & Hu & Hc). rewrite fill_near in O |- *. cbn [top frame_loc].
  unfold RB_LEFT at 1. rewrite (run_child _ _ _ _ _ (holds_at _ _ _ _ _ _ _ O)), (side_of_hole _ _ _ _ _ _ _ O).
  2: { destruct Hu as (d & Hu & _). by destruct u; [inversion Hu |]. }
  rewrite bind_bind3.
  destruct (remove_sibling _ _ _ _ _ _ _ _ O Hd Hu Hc) as (h1 & D & c' & w & x & y & E & O1 & Ee & Hd' & (dx & dy & Hx & Hy) & Hc').
  rewrite (bind_eq _ _ _ _ _ E). clear E. pose proof O1 as Ow. rewrite <- (fill_far D) in Ow.
  rewrite (both_black_spec _ _ _ _ _ _ _ _ Ow). rewrite <- (rbt_color _ _ _ Hx), <- (rbt_color _ _ _ Hy).
  destruct ((dx =? RB_BLACK) && (dy =? RB_BLACK)) eqn:Eb.
  - apply andb_prop in Eb as [->%Z.eqb_eq ->%Z.eqb_eq].
    destruct (recolor_spec _ _ _ _ _ _ _ RB_RED Ow) as (h2 & E & O2). rewrite (bind_eq _ _ _ _ _ E). rewrite fill_far in O2.
    rewrite (run_parent _ _ _ _ (holds_at _ _ _ _ _ _ _ O2)), rbe_parent_entry.
    erewrite (root_same D s s p), <- (root_mk s p c' t (mk s w RB_RED x y)).
    assert (elems (mk s p c' t (mk s w RB_RED x y)) = elems (mk s p c' t (mk s w RB_BLACK x y))) as Ee2
      by (by apply elems_mk, elems_color).
    pose proof (rbt_mk_red _ s w _ _ Hx Hy) as Hw.
    destruct (remove_pass n s p c' t (mk s w RB_RED x y) D Hd' Ht Hw) as (m & b' & Hn & HD).
    { destruct Hc' as [-> | [-> _]]; auto. }
    destruct (IH h2 D _ m b' O2 Hn HD) as (h3 & D3 & u3 & E3 & O3 & Ee3 & Hv).
    { destruct Hc' as [-> | [-> ->]]; rewrite color_mk; cbn in *; lia. }
    exists h3, D3, u3. split_and!; [done | done | | done]. rewrite Ee3, <- Ee. by apply elems_fill_eq.
  - rewrite bind_bind3.
    destruct (remove_far _ _ _ _ _ _ _ _ _ _ _ _ O1 Hx Hy) as (h2 & w' & x' & y' & d & E & O2 & Ee2 & Hx' & Hy').
    { intros [-> ->]. done. }
    rewrite (bind_eq _ _ _ _ _ E).
    assert (c' = RB_BLACK \/ c' = RB_RED) as Hcc by (destruct Hc' as [-> | [-> _]]; auto).
    destruct (remove_final _ _ _ _ _ _ _ _ _ _ _ O2 Hd' Hcc Ht Hx' Hy') as (h3 & T & E3 & O3 & Ee3 & Hv).
    exists h3, [], T. rewrite E3. split_and!; [done | done | | by rewrite blacken_valid].
    cbn. by rewrite Ee3, Ee2.
Qed.

Lemma remove_color_spec h C t n b : holds h (fill C t) -> nearly n t -> rbc b (S n) C -> exists h' T,
  RB_REMOVE_COLOR (root_of (fill C t)) (top C) (root_of t) h = Done (root_of T, h') /\
  holds h' T /\ elems T = elems (fill C t) /\ valid T.
Proof.
  intros O Ht HC. unfold RB_REMOVE_COLOR. rewrite run_fuel.
  destruct (remove_loop_spec (S (S (size h))) _ _ _ _ _ O Ht HC) as (h1 & D & u & E & O1 & Ee & Hv).
  { pose proof (holds_depth _ _ _ O). case_match; lia. }
  rewrite (bind_eq _ _ _ _ _ E). step_by (blacken_spec _ _ _ O1). exists h0, (fill D (blacken u)).
  split_and!; [| done | | done].
  - unfold ret. do 2 f_equal. rewrite !rb_root_fill. by destruct u.
  - rewrite <- Ee. apply elems_fill_eq. by destruct u.
Qed.

(** ** Unlinking *)

(** Taking a node out that has at most one subtree: what becomes of the colours. *)
Lemma unlink_colors C a c t u : valid (fill C (Node a c t u)) -> t = Leaf \/ u = Leaf ->
  let v := match t with Leaf => u | Node _ _ _ _ => t end in
  if c =? RB_BLACK then exists n b, nearly n v /\ rbc b (S n) C else valid (fill C v).
Proof.
  intros Hv Hl. destruct (unplug _ _ Hv) as (b & n & d & HC & Ht & Hd).
  assert (forall e v, rbt e 0 v -> v = Leaf \/ e = RB_RED /\ exists x, v = Node x RB_RED Leaf Leaf) as H0.
  { intros e v Hr. inversion Hr as [| ? x l r Hl0 Hr0 |]; subst; [by left |]. right. split; [done |]. exists x.
    by inversion Hl0; inversion Hr0; subst. }
  inversion Ht as [| ? ? ? ? Htl Hul | e f m ? ? ? Htl Hul]; subst; cbn.
  - assert (t = Leaf /\ u = Leaf) as [-> ->].
    { destruct Hl as [-> | ->]; [inversion Htl; subst; destruct (H0 _ _ Hul) as [-> | [? ?]]
        | inversion Hul; subst; destruct (H0 _ _ Htl) as [-> | [? ?]]]; done. }
    inversion Htl; subst. eapply plug; [exact HC | constructor | done].
  - assert (m = O) as -> by (destruct Hl as [-> | ->]; [by inversion Htl | by inversion Hul]).
    exists O, b. split; [| done].
    assert (forall e v, rbt e 0 v -> nearly 0 v) as Hn.
    { intros e' v Hr. destruct (H0 _ _ Hr) as [-> | [_ [x ->]]]; [left; constructor | right].
      split; [done |]. by repeat econstructor. }
    destruct t; eauto.
Qed.

(** The pointer to a node gets to its only subtree. *)
Lemma unlink_node_spec h C a v par t F : owned h (ctx_cells C (Some a) ++ (a, v) :: cells par t ++ F) -> exists h',
  (when (root_of t) (set_parent (root_of t) (top C)) ;!
   replace_child (ctx_root C (Some a)) (top C) (Some a) (root_of t)) h = Done (root_of (fill C t), h') /\
  owned h' ((a, v) :: cells None (fill C t) ++ F).
Proof.
  intros O.
  assert (a ∉ before C ++ after C) as Ha.
  { rewrite <- (rb_ctx_cells_locs C (Some a)). destruct O as [_ Hn]. rewrite fmap_app in Hn. csimpl.
    apply NoDup_app in Hn as (_ & Hd & _). intros Hi. by apply (Hd _ Hi); left. }
  front O (cells par t). destruct (reparent_spec _ _ _ (top C) _ O) as (h1 & E1 & O1). rewrite (bind_eq _ _ _ _ _ E1).
  front O1 (ctx_cells C (Some a)). destruct (replace_child_spec _ _ _ (root_of t) _ O1 Ha) as (h2 & E2 & O2).
  exists h2. rewrite E2, rb_root_fill. split; [done |]. eapply owned_perm; [exact O2 |]. rewrite rb_cells_fill. solve_Permutation.
Qed.

(** The end of [RB_REMOVE]. *)
Lemma finish_spec h C t c old : holds h (fill C t) ->
  (if c =? RB_BLACK then exists n b, nearly n t /\ rbc b (S n) C else valid (fill C t)) -> exists h' T,
  (let! root := (if c =? RB_BLACK then RB_REMOVE_COLOR (root_of (fill C t)) (top C) (root_of t)
                 else ret (root_of (fill C t))) in
   ret (old, root)) h = Done ((old : ptr, root_of T), h') /\ holds h' T /\ elems T = elems (fill C t) /\ valid T.
Proof.
  intros O Hc. destruct (c =? RB_BLACK); [| by exists h, (fill C t)]. destruct Hc as (n & b & Ht & HC).
  destruct (remove_color_spec _ _ _ _ _ O Ht HC) as (h1 & T & E & H). exists h1, T. by rewrite (bind_eq _ _ _ _ _ E).
Qed.

Lemma augment_loop_spec h C : forall fuel t, holds h (fill C t) -> t <> Leaf -> (length C < fuel)%nat ->
  augment_loop fuel (root_of t) h = Done (tt, h).
Proof.
  induction C as [| [s a c u] C IH]; intros [| fuel] t O Ht Hf; cbn [length] in Hf; try lia;
    destruct t as [| b d l r]; try done; cbn [augment_loop root_of];
    rewrite (run_parent _ _ _ _ (holds_at _ _ L _ _ _ _ O)); cbn [entry rbe_parent top frame_loc when]; [done |].
  rewrite <- (root_mk s a c (Node b d l r) u). apply IH; [done | by destruct s | lia].
Qed.

(** The successor takes the place of the node: its cell, and the pointers to it. *)
Lemma take_place_spec {B} h C a m v c l r (k : ptr -> prog B) : owned h ((m, v) :: cells None (fill C (Node a c l r))) ->
  l <> Leaf -> exists h',
  ((let! n := load (Some a) in store (Some m) n) ;!
   let! q := RB_PARENT (Some a) in
   let! root := replace_child (root_of (fill C (Node a c l r))) q (Some a) (Some m) in
   (let! l := RB_LEFT (Some a) in set_parent l (Some m)) ;!
   let! r := RB_RIGHT (Some a) in
   when r (set_parent r (Some m)) ;!
   k root) h = k (root_of (fill C (Node m c l r))) h' /\
  holds h' (fill C (Node m c l r)).
Proof.
  intros O Hl. assert (a ∉ before C ++ after C) as Ha.
  { apply (focus_apart h C L a c l r). destruct O as [Hs Hn]. apply sees_cons in Hs as [_ Hs].
    cbn in Hn. apply NoDup_cons in Hn as [_ Hn]. by split. }
  rewrite rb_cells_fill in O. cbn [cells root_of] in O. rewrite mkEntry_entry in O. focus O a.
  rewrite bind_bind, (owned_load _ _ _ _ _ O). focus O m.
  destruct (owned_store _ _ (entry L (root_of l) (root_of r) (top C) c) _ _ O) as [E O1].
  rewrite (bind_eq _ _ _ _ _ E). clear E O. rename O1 into O. rd O a. rewrite rb_root_fill. cbn [root_of].
  front O (ctx_cells C (Some a)). destruct (replace_child_spec _ _ _ (Some m) _ O Ha) as (h1 & E & O1).
  rewrite (bind_eq _ _ _ _ _ E). clear E O. rename O1 into O. unfold RB_LEFT, RB_RIGHT. rd O a. cbn [get_child entry rbe_left].
  front O (cells (Some a) l). destruct (reparent_spec _ _ _ (Some m) _ O) as (h2 & E & O1).
  destruct l as [| b d l1 l2] eqn:El; [done |]. rewrite <- El in *. replace (root_of l) with (Some b) in * by (by subst l).
  cbn [when] in E. rewrite (bind_eq _ _ _ _ _ E). clear E O. rename O1 into O. rd O a. cbn [get_child entry rbe_right].
  front O (cells (Some a) r). destruct (reparent_spec _ _ _ (Some m) _ O) as (h3 & E & O1).
  rewrite (bind_eq _ _ _ _ _ E). eexists. split; [by rewrite rb_root_fill |]. apply rb_holds_fill. cbn [root_of cells].
  replace (root_of l) with (Some b) by (by subst l). rewrite mkEntry_entry.
  focus O1 a. destruct O1 as [Hs Hn]. apply sees_cons in Hs as [_ Hs]. cbn in Hn. apply NoDup_cons in Hn as [_ Hn].
  eapply owned_perm; [split; [exact Hs | exact Hn] |]. solve_Permutation.
Qed.

Lemma leftmost_loop_spec fuel : forall h C t, holds h (fill C t) -> t <> Leaf -> (height t < fuel)%nat ->
  exists m c r D, t = fill D (Node m c Leaf r) /\ before D = [] /\ leftmost_loop fuel (root_of t) h = Done (Some m, h).
Proof.
  induction fuel as [| fuel IH]; intros h C t O Ht Hf; [lia |]. destruct t as [| a c l r]; [done |].
  cbn [leftmost_loop root_of]. unfold RB_LEFT. rewrite (run_child _ _ _ _ _ (holds_at _ _ L _ _ _ _ O)).
  cbn [get_child entry rbe_left height] in *. destruct l as [| b d l1 l2] eqn:El; [by exists a, c, r, [] |].
  rewrite <- El in *. destruct (IH h (In L a c r :: C) l O) as (m & e & v & D & E & HD & E2); [by subst l | lia |].
  exists m, e, v, (D ++ [In L a c r]). rewrite rb_fill_app, <- E, rb_before_app, HD. split_and!; [done | done |].
  rewrite <- E2. by subst l.
Qed.

Lemma rbc_rename n s a a' c u C D : forall b, rbc b n (D ++ In s a c u :: C) -> rbc b n (D ++ In s a' c u :: C).
Proof.
  revert n. induction D as [| f D IH]; intros n b HC; inversion HC; subst; econstructor; eauto.
Qed.

Lemma valid_rename D s a a' c u C t : valid (fill (D ++ In s a c u :: C) t) -> valid (fill (D ++ In s a' c u :: C) t).
Proof.
  intros (b & n & d & HC & Ht & Hd)%unplug. eapply plug; [by eapply rbc_rename | exact Ht | exact Hd].
Qed.

Lemma owned_tail h a v cs : owned h ((a, v) :: cs) -> owned h cs.
Proof. intros O. apply (owned_app _ _ [(a, v)]). eapply owned_perm; [exact O |]. solve_Permutation. Qed.

(** A node with at most one subtree is unlinked. *)
Lemma remove_simple h C a c l r : holds h (fill C (Node a c l r)) -> valid (fill C (Node a c l r)) ->
  l = Leaf \/ r = Leaf -> exists h' t,
  RB_REMOVE (root_of (fill C (Node a c l r))) (Some a) h = Done ((Some a, root_of t), h') /\
  holds h' t /\ elems t = before C ++ (elems l ++ elems r) ++ after C /\ valid t.
Proof.
  intros O Hv Hl. pose proof (holds_at _ _ L _ _ _ _ O) as Ha. cbn [entry] in Ha.
  pose proof (unlink_colors _ _ _ _ _ Hv Hl) as Hc. set (v := match l with Leaf => r | _ => l end) in Hc.
  unfold RB_REMOVE. unfold RB_LEFT at 1. rewrite (run_child _ _ _ _ _ Ha). unfold RB_RIGHT at 1.
  rewrite (run_child _ _ _ _ _ Ha). cbn [get_child rbe_left rbe_right].
  apply rb_holds_fill in O. cbn [root_of cells] in O.
  assert (owned h (ctx_cells C (Some a) ++ (a, mkEntry (root_of l) (root_of r) (top C) c) :: cells (Some a) v ++ [])) as O1.
  { eapply owned_perm; [exact O |]. subst v. destruct l; cbn [cells]; [by rewrite app_nil_r |].
    destruct Hl as [| ->]; [done |]. cbn [cells]. by rewrite !app_nil_r. }
  destruct (unlink_node_spec _ _ _ _ _ _ _ O1) as (h1 & E1 & O2). rewrite app_nil_r in O2. apply owned_tail in O2.
  destruct (finish_spec _ _ _ _ (Some a) O2 Hc) as (h2 & T & E2 & O3 & Ee & HvT). exists h2, T.
  split_and!; [| done | | done].
  - rewrite <- E2. rewrite rb_root_fill in *. cbn [root_of] in *. subst v.
    destruct l as [| b d l1 l2]; [| destruct Hl as [| ->]; [done |]]; cbn [root_of] in *;
      rewrite bind_bind, (run_parent _ _ _ _ Ha), bind_bind, (run_color _ _ _ _ Ha); cbn [rbe_parent rbe_color];
      rewrite <- bind_bind3, <- bind_bind, (bind_eq _ _ _ _ _ E1); by rewrite bind_ret, rb_root_fill.
  - rewrite Ee, elems_fill. subst v. destruct l; [done |]. destruct Hl as [| ->]; [done |]. by rewrite app_nil_r.
Qed.

Lemma fill_context D a c l C t : fill (D ++ In R a c l :: C) t = fill C (Node a c l (fill D t)).
Proof. by rewrite rb_fill_app. Qed.

(** The parent of the hole after the renaming. *)
Lemma top_renamed h D a m c l C t : holds h (fill (D ++ In R a c l :: C) t) ->
  (if decide (top (D ++ In R a c l :: C) = Some a) then Some m else top (D ++ In R a c l :: C)) = top (D ++ In R m c l :: C).
Proof.
  intros O. destruct D as [| [s b d u] D]; cbn; [by rewrite decide_True |]. apply decide_False. intros [= ->].
  apply (focus_apart _ _ s _ d t u) in O. apply O. rewrite rb_before_app. csimpl. set_solver.
Qed.

(** Climbing from the parent of the hole does nothing. *)
Lemma visit_top {B} h C t (b : B) : holds h (fill C t) ->
  (when (top C) (with_fuel (fun fuel => augment_loop fuel (top C))) ;! ret b) h = Done (b, h).
Proof.
  intros O. destruct C as [| [s a c u] C]; [done |]. cbn [top frame_loc when]. rewrite run_fuel.
  rewrite <- (root_mk s a c t u). rewrite (bind_eq _ _ _ tt h); [done |]. apply augment_loop_spec with C.
  - done.
  - by destruct s.
  - pose proof (holds_depth _ _ _ O). cbn in *. lia.
Qed.

(** A node with two subtrees is replaced by its successor. *)
Lemma remove_replace h C a c l r : holds h (fill C (Node a c l r)) -> valid (fill C (Node a c l r)) ->
  l <> Leaf -> r <> Leaf -> exists h' t,
  RB_REMOVE (root_of (fill C (Node a c l r))) (Some a) h = Done ((Some a, root_of t), h') /\
  holds h' t /\ elems t = before C ++ (elems l ++ elems r) ++ after C /\ valid t.
Proof.
  intros O Hv Hl Hr. pose proof (holds_at _ _ L _ _ _ _ O) as Ha. cbn [entry] in Ha.
  pose proof O as Or. replace (fill C (Node a c l r)) with (fill (In R a c l :: C) r) in Or, Hv by done.
  unfold RB_REMOVE. unfold RB_LEFT at 1. rewrite (run_child _ _ _ _ _ Ha). unfold RB_RIGHT at 1.
  rewrite (run_child _ _ _ _ _ Ha). cbn [get_child rbe_left rbe_right].
  destruct (leftmost_loop_spec (S (size h)) _ _ _ Or Hr) as (m & cm & r' & D & Er & HD & E1).
  { pose proof (height_elems r). pose proof (holds_depth _ _ _ Or). lia. }
  destruct (root_of l) as [b |] eqn:El; [| by destruct l]. destruct (root_of r) as [d |] eqn:Er'; [| by destruct r].
  unfold RB_RIGHT at 1. rewrite !bind_bind, (run_child _ _ _ _ _ Ha). cbn [get_child rbe_right].
  rewrite bind_bind, run_fuel, (bind_eq _ _ _ _ _ E1). clear E1. subst r. rewrite <- rb_fill_app in Or, Hv.
  set (K := D ++ In R a c l :: C) in *. pose proof (holds_at _ _ L _ _ _ _ Or) as Hm. cbn [entry] in Hm.
  unfold RB_RIGHT at 1. rewrite bind_bind, (run_child _ _ _ _ _ Hm), bind_bind, (run_parent _ _ _ _ Hm).
  rewrite bind_bind, (run_color _ _ _ _ Hm). cbn [get_child rbe_right rbe_parent rbe_color].
  pose proof (unlink_colors _ _ _ _ _ Hv (or_introl eq_refl)) as Hc. cbn beta iota zeta in Hc.
  set (K' := D ++ In R m c l :: C).
  match goal with |- context [bind ?p _ h] => set (inner := p) end.
  assert (exists h3, inner h = Done ((root_of (fill K' r'), top K', root_of r', cm), h3) /\ holds h3 (fill K' r')) as (h3 & E & O3).
  { subst inner. pose proof Or as O1. apply rb_holds_fill in O1. cbn [root_of cells app] in O1.
    eapply (owned_perm _ _ (ctx_cells K (Some m) ++ (m, mkEntry None (root_of r') (top K) cm) :: cells (Some m) r' ++ [])) in O1;
      [| by rewrite app_nil_r].
    destruct (unlink_node_spec _ _ _ _ _ _ _ O1) as (h1 & E1 & O2). rewrite app_nil_r in O2.
    replace (root_of (fill C (Node a c l (fill D (Node m cm Leaf r'))))) with (ctx_root K (Some m))
      by (rewrite <- fill_context; symmetry; apply (rb_root_fill K)).
    rewrite <- bind_bind, (bind_eq _ _ _ _ _ E1), (run_parent _ _ _ _ (owned_lookup _ _ _ _ O2)). cbn [rbe_parent].
    subst K. rewrite (top_renamed h1 D a m c l C r') by (by apply owned_tail in O2). rewrite !fill_context in O2 |- *. fold K'.
    destruct (take_place_spec _ _ _ _ _ _ _ _ (fun root => when (top K')
      (with_fuel (fun fuel => augment_loop fuel (top K'))) ;! ret (root, top K', root_of r', cm)) O2 Hl) as (h2 & E2 & O3).
    rewrite E2. unfold K' in O3 |- *. rewrite <- fill_context in O3 |- *. exists h2. split; [| done]. apply (visit_top _ _ _ _ O3). }
  rewrite (bind_eq _ _ _ _ _ E). destruct (finish_spec h3 K' r' cm (Some a) O3) as (h4 & T & E4 & O4 & Ee & HvT).
  { destruct (cm =? RB_BLACK); [| by apply (valid_rename D R a m)].
    destruct Hc as (n & b' & Hn & HC). exists n, b'. split; [done | by apply (rbc_rename _ _ a)]. }
  exists h4, T. split_and!; [done | done | | done]. rewrite Ee. subst K'.
  rewrite elems_fill, rb_before_app, rb_after_app, HD, (elems_fill D), HD. csimpl. by simplify_list_eq.
Qed.

Lemma split_at a : forall t, a ∈ elems t -> exists C c l r, t = fill C (Node a c l r).
Proof.
  induction t as [| b c l IHl r IHr]; cbn [elems]; [by intros ?%elem_of_nil |].
  intros [Ha | [-> | Ha]%elem_of_cons]%elem_of_app.
  - destruct (IHl Ha) as (C & d & u & v & ->). exists (C ++ [In L b c r]), d, u, v. by rewrite rb_fill_app.
  - by exists [], c, l, r.
  - destruct (IHr Ha) as (C & d & u & v & ->). exists (C ++ [In R b c l]), d, u, v. by rewrite rb_fill_app.
Qed.

(** An element is at one place of a list without repetitions. *)
Lemma NoDup_split {A} (a : A) l l' k k' : NoDup (l ++ a :: k) -> l ++ a :: k = l' ++ a :: k' -> l = l' /\ k = k'.
Proof.
  revert l'. induction l as [| x l IH]; intros [| y l'] Hn E; cbn in *; simplify_eq; try done;
    apply NoDup_cons in Hn as [Hx Hn]; try (exfalso; apply Hx; set_solver).
  match goal with E : _ ++ _ = _ |- _ => by destruct (IH _ Hn E) as [-> ->] end.
Qed.

(** [RB_REMOVE] takes the element out, and keeps a red-black tree. *)
Lemma rb_remove_spec h t a xs ys : holds h t -> valid t -> elems t = xs ++ a :: ys -> exists h' t',
  RB_REMOVE (root_of t) (Some a) h = Done ((Some a, root_of t'), h') /\
  holds h' t' /\ valid t' /\ elems t' = xs ++ ys.
Proof.
  intros O Hv E. destruct (split_at a t) as (C & c & l & r & ->); [rewrite E; set_solver |].
  pose proof (holds_NoDup _ _ O) as Hn. rewrite elems_fill in E, Hn. cbn [elems] in E, Hn.
  assert ((before C ++ elems l) ++ a :: (elems r ++ after C) = xs ++ a :: ys) as E2 by (rewrite <- E; by simplify_list_eq).
  apply NoDup_split in E2 as [<- <-]; [| revert Hn; by simplify_list_eq].
  assert (exists h' t, RB_REMOVE (root_of (fill C (Node a c l r))) (Some a) h = Done ((Some a, root_of t), h') /\
    holds h' t /\ elems t = before C ++ (elems l ++ elems r) ++ after C /\ valid t) as (h' & t & H1 & H2 & H3 & H4).
  { assert ({l = Leaf \/ r = Leaf} + {l <> Leaf /\ r <> Leaf}) as [Hl | [Hl Hr]] by (destruct l; [left; auto | destruct r; [left; auto | by right]]).
    - by apply remove_simple.
    - by apply remove_replace. }
  exists h', t. split_and!; [done | done | done |]. rewrite H3. by simplify_list_eq.
Qed.

End RBRemoveSpec.
