(* ===== verification/RBOrder.v ===== *)
(** The order of the red-black tree of [cnm/net/tree.h]: [RB_MIN], [RB_MAX], [RB_NEXT]
    and [RB_FOREACH], what all the operations together promise to the code that uses
    the tree, and that they keep the promise.  The file is about the definitions of
    [RBTree]. *)
From S2P Require Import Prelude CHeap RBTree RBRemove.
Import RB RBTreeSpec RBRemoveSpec.

Module RBOrderSpec.
Implicit Types (t u : tree) (C D : list frame) (h : heap).

(** ** Walking *)

Lemma head_app {A} (l k : list A) : head (l ++ k) = match l with [] => head k | a :: _ => Some a end.
Proof. by destruct l. Qed.

Lemma elems_not_nil t : t <> Leaf -> elems t <> [].
Proof. destruct t as [| a c l r]; [done |]. cbn [elems]. by destruct (elems l). Qed.

Lemma minmax_loop_spec val fuel : forall h C t par, holds h (fill C t) -> (height t < fuel)%nat ->
  minmax_loop fuel val (root_of t) par h =
    Done (match t with Leaf => par | Node _ _ _ _ => if val <? 0 then head (elems t) else last (elems t) end, h).
Proof.
  induction fuel as [| fuel IH]; intros h C t par O Hf; [lia |]. destruct t as [| a c l r]; cbn [minmax_loop root_of]; [done |].
  pose proof (holds_at _ _ L _ _ _ _ O) as Ha. cbn [height elems] in *. unfold RB_LEFT, RB_RIGHT.
  destruct (val <? 0); rewrite (run_child _ _ _ _ _ Ha); cbn [get_child entry rbe_left rbe_right].
  - rewrite (IH h (In L a c r :: C) l) by (done || lia). destruct l as [| b d u v]; [done |].
    rewrite head_app. destruct (elems (Node b d u v)) eqn:E; [| done]. by apply elems_not_nil in E.
  - rewrite (IH h (In R a c l :: C) r) by (done || lia). rewrite last_app_cons, last_cons.
    destruct r as [| b d u v]; [done |]. destruct (last (elems (Node b d u v))) eqn:E; [done |].
    by apply last_None, elems_not_nil in E.
Qed.

Lemma rb_min_spec h t : holds h t -> RB_MIN (root_of t) h = Done (head (elems t), h).
Proof.
  intros O. unfold RB_MIN, RB_MINMAX, with_fuel. rewrite (minmax_loop_spec _ _ h [] t) by (done || by apply fuel_enough).
  by destruct t.
Qed.
Lemma rb_max_spec h t : holds h t -> RB_MAX (root_of t) h = Done (last (elems t), h).
Proof.
  intros O. unfold RB_MAX, RB_MINMAX, with_fuel. rewrite (minmax_loop_spec _ _ h [] t) by (done || by apply fuel_enough).
  by destruct t.
Qed.

Lemma head_before D m c r : before D = [] -> head (elems (fill D (Node m c Leaf r))) = Some m.
Proof. intros E. by rewrite elems_fill, E. Qed.

(** From the last node of a subtree to the next one. *)
Lemma climb_loop_spec fuel : forall h C t, holds h (fill C t) -> t <> Leaf -> (length C < fuel)%nat ->
  climb_loop fuel (root_of t) h = Done (head (after C), h).
Proof.
  induction fuel as [| fuel IH]; intros h C t O Ht Hf; [lia |]. destruct t as [| a c l r] eqn:Et; [done |]. rewrite <- Et in O.
  cbn [climb_loop root_of]. replace (Some a) with (root_of t) by (by subst t).
  assert (h !! a = Some (mkEntry (root_of l) (root_of r) (top C) c)) as Ha by (subst t; apply (holds_at _ _ L _ _ _ _ O)).
  replace (root_of t) with (Some a) by (by subst t). rewrite (run_parent _ _ _ _ Ha). cbn [rbe_parent].
  destruct C as [| [s b d u] C]; cbn [top frame_loc]; [done |]. rewrite fill_near in O. unfold RB_RIGHT.
  rewrite (run_child _ _ _ _ _ (holds_at _ _ _ _ _ _ _ O)). assert (root_of t = Some a) as Hr by (by subst t).
  destruct s; cbn [get_child entry rbe_left rbe_right].
  - rewrite decide_False by (intros E; by apply (other_side _ _ _ _ _ _ _ _ O Hr)).
    rewrite (eq_parent _ _ _ Ha). done.
  - rewrite Hr, decide_True by done. rewrite <- (root_mk R b d t u). cbn [after]. apply IH; [done | done |]. cbn in Hf. lia.
Qed.

Lemma rb_next_at h C a c l r : holds h (fill C (Node a c l r)) ->
  RB_NEXT (Some a) h = Done (head (elems r ++ after C), h).
Proof.
  intros O. pose proof (holds_at _ _ L _ _ _ _ O) as Ha. cbn [entry] in Ha. unfold RB_NEXT. unfold RB_RIGHT at 1.
  rewrite (run_child _ _ _ _ _ Ha). cbn [get_child rbe_right].
  assert ({r = Leaf} + {r <> Leaf}) as [-> | Hr] by (destruct r; [by left | by right]); cbn [root_of].
  - rewrite (run_parent _ _ _ _ Ha). cbn [rbe_parent elems app].
    assert (climb_loop (S (size h)) (Some a) h = Done (head (after C), h)) as Hc.
    { apply (climb_loop_spec _ h C (Node a c l Leaf) O); [done |]. pose proof (holds_depth _ _ _ O). lia. }
    destruct C as [| [s b d u] C]; cbn [top frame_loc]; [exact Hc |].
    pose proof O as Ob. rewrite fill_near in Ob. unfold RB_LEFT.
    rewrite bind_bind, (run_child _ _ _ _ _ (holds_at _ _ _ _ _ _ _ Ob)), bind_ret.
    destruct s; cbn [get_child entry rbe_left root_of].
    + rewrite bool_decide_eq_true_2 by done. rewrite (eq_parent _ _ _ Ha). done.
    + rewrite bool_decide_eq_false_2; [exact Hc |]. intros E.
      by apply (other_side _ _ _ _ _ _ _ a Ob eq_refl).
  - pose proof O as Or. replace (fill C (Node a c l r)) with (fill (In R a c l :: C) r) in Or by done.
    destruct (leftmost_loop_spec (S (size h)) _ _ _ Or Hr) as (m & e & v & D & E & HD & El).
    { pose proof (height_elems r). pose proof (holds_depth _ _ _ Or). lia. }
    rewrite head_app. destruct (elems r) as [| x k] eqn:Ex; [by apply elems_not_nil in Ex |].
    destruct r as [| b d u w] eqn:Er; [done |]. cbn [root_of] in *. unfold with_fuel. rewrite El.
    rewrite <- (head_before D m e v HD), <- E, Ex. done.
Qed.

Lemma rb_next_spec h t a xs ys : holds h t -> elems t = xs ++ a :: ys -> RB_NEXT (Some a) h = Done (head ys, h).
Proof.
  intros O E. destruct (split_at a t) as (C & c & l & r & ->); [rewrite E; set_solver |].
  pose proof (holds_NoDup _ _ O) as Hn. rewrite elems_fill in E, Hn. cbn [elems] in E, Hn.
  assert ((before C ++ elems l) ++ a :: (elems r ++ after C) = xs ++ a :: ys) as E2 by (rewrite <- E; by simplify_list_eq).
  apply NoDup_split in E2 as [<- <-]; [| revert Hn; by simplify_list_eq]. by apply (rb_next_at _ _ _ c l).
Qed.

Lemma foreach_loop_spec fuel : forall h t xs ys, holds h t -> elems t = xs ++ ys -> (length ys < fuel)%nat ->
  foreach_loop fuel (head ys) h = Done (ys, h).
Proof.
  induction fuel as [| fuel IH]; intros h t xs ys O E Hf; [lia |]. destruct ys as [| a ys]; cbn [foreach_loop head]; [done |].
  rewrite (bind_eq _ _ _ _ _ (rb_next_spec _ _ _ _ _ O E)). cbn [length] in Hf.
  rewrite (bind_eq _ _ _ ys h); [done |]. apply (IH h t (xs ++ [a])); [done | by simplify_list_eq | lia].
Qed.

Lemma rb_foreach_spec h t : holds h t -> RB_FOREACH (root_of t) h = Done (elems t, h).
Proof.
  intros O. unfold RB_FOREACH. rewrite (bind_eq _ _ _ _ _ (rb_min_spec _ _ O)).
  apply (foreach_loop_spec _ h t []); [done | done |]. pose proof (rb_holds_size _ _ O). lia.
Qed.

(** ** The cells stay *)

(** The operations keep the set of nodes on the heap. *)
Definition keeps {A} (m : prog A) : Prop := forall h a h', m h = Done (a, h') -> dom h' = dom h.

Lemma keeps_ret {A} (a : A) : keeps (ret a).
Proof. by intros h b h' [= <- <-]. Qed.
Lemma keeps_bind {A B} (m : prog A) (f : A -> prog B) : keeps m -> (forall a, keeps (f a)) -> keeps (bind m f).
Proof.
  intros Hm Hf h b h' E. unfold bind in E. destruct (m h) as [[a h1] | |] eqn:E1; [| done ..].
  by rewrite (Hf _ _ _ _ E), (Hm _ _ _ E1).
Qed.
Lemma keeps_load p : keeps (load p).
Proof. intros h v h'. unfold load. by destruct (p ≫= (h !!.)) as [w |]; [intros [= <- <-] |]. Qed.
Lemma keeps_store p v : keeps (store p v).
Proof.
  intros h [] h'. unfold store. destruct p as [l |]; [| done]. case_decide as Hl; [| done]. intros [= <-].
  apply dom_insert_lookup_L, Hl.
Qed.
Lemma keeps_no_fuel {A} : keeps (@no_fuel rb_entry A).
Proof. by intros h a h'. Qed.
Lemma keeps_with_fuel {A} (f : nat -> prog A) : (forall n, keeps (f n)) -> keeps (with_fuel f).
Proof. intros Hf h. apply (Hf _ h). Qed.
Create HintDb keeps.
#[export] Hint Resolve keeps_ret keeps_load keeps_store keeps_no_fuel : keeps.
Ltac keeps_step :=
  first [ progress intros | solve [auto with keeps] | apply keeps_bind | apply keeps_with_fuel | case_match ].
Ltac solve_keeps := repeat keeps_step.

Lemma keeps_modify p g : keeps (modify p g).
Proof. solve_keeps. Qed.
Lemma keeps_child s p : keeps (child s p).
Proof. solve_keeps. Qed.
Lemma keeps_parent p : keeps (RB_PARENT p).
Proof. solve_keeps. Qed.
Lemma keeps_color p : keeps (RB_COLOR p).
Proof. solve_keeps. Qed.
#[export] Hint Resolve keeps_modify keeps_child keeps_parent keeps_color : keeps.
Lemma keeps_replace_child root parent elm p : keeps (replace_child root parent elm p).
Proof. unfold replace_child, RB_LEFT, set_child. solve_keeps. Qed.
#[export] Hint Resolve keeps_replace_child : keeps.
Lemma keeps_rotate s root elm : keeps (rotate s root elm).
Proof. unfold rotate, when, set_child, set_parent. solve_keeps. Qed.
#[export] Hint Resolve keeps_rotate : keeps.
Lemma keeps_insert_color root elm : keeps (RB_INSERT_COLOR root elm).
Proof.
  apply keeps_bind; [| unfold set_color; solve_keeps]. apply keeps_with_fuel. intros fuel. revert root elm.
  induction fuel as [| fuel IH]; intros root elm; cbn [insert_color_loop];
    unfold RB_LEFT, is_red, RB_SET_BLACKRED, set_color; solve_keeps.
Qed.
Lemma keeps_remove_color root parent elm : keeps (RB_REMOVE_COLOR root parent elm).
Proof.
  apply keeps_bind; [| unfold when, set_color; solve_keeps]. apply keeps_with_fuel. intros fuel. generalize (S fuel).
  clear fuel. intros fuel. revert root parent elm.
  induction fuel as [| fuel IH]; intros root parent elm; cbn [remove_color_loop];
    unfold RB_LEFT, RB_RIGHT, is_black, RB_SET_BLACKRED, set_color, when; solve_keeps.
Qed.
#[export] Hint Resolve keeps_insert_color keeps_remove_color : keeps.
Lemma keeps_leftmost fuel : forall elm, keeps (leftmost_loop fuel elm).
Proof. induction fuel; intros elm; cbn [leftmost_loop]; unfold RB_LEFT; solve_keeps. Qed.
Lemma keeps_augment fuel : forall elm, keeps (augment_loop fuel elm).
Proof. induction fuel; intros elm; cbn [augment_loop]; unfold when; solve_keeps. Qed.
Lemma keeps_insert_loop cmp fuel : forall elm tmp parent comp, keeps (insert_loop cmp fuel elm tmp parent comp).
Proof. induction fuel; intros elm tmp parent comp; cbn [insert_loop]; unfold RB_LEFT, RB_RIGHT; solve_keeps. Qed.
#[export] Hint Resolve keeps_leftmost keeps_augment keeps_insert_loop : keeps.
Lemma keeps_insert cmp root elm : keeps (RB_INSERT cmp root elm).
Proof. unfold RB_INSERT, RB_SET, set_parent, set_child, set_color. solve_keeps. Qed.
Lemma keeps_remove root elm : keeps (RB_REMOVE root elm).
Proof. unfold RB_REMOVE, RB_LEFT, RB_RIGHT, set_parent, when. solve_keeps. Qed.

(** ** The promise *)

(** What the code that uses the tree relies on: [rep h root l] says that the tree at
    [root] has the elements [l], in order. *)
Class OrderedSet (rep : heap -> ptr -> list loc -> Prop) := {
  os_empty h : rep h RB_INIT [];
  os_is_empty h root l : rep h root l -> RB_EMPTY root = bool_decide (l = []);
  os_nodup h root l : rep h root l -> NoDup l;
  os_live h root l a : rep h root l -> a ∈ l -> is_Some (h !! a);
  os_alloc h root l x v : rep h root l -> h !! x = None -> rep (<[x := v]> h) root l;
  os_insert cmp `{Ordering cmp} h root l x : rep h root l -> sorted cmp l -> is_Some (h !! x) ->
    (exists a, a ∈ l /\ cmp x a = 0 /\ RB_INSERT cmp root x h = Done ((Some a, root), h)) \/
    ((forall a, a ∈ l -> cmp x a <> 0) /\ exists h' root', RB_INSERT cmp root x h = Done ((None, root'), h') /\
      rep h' root' (add cmp x l) /\ dom h' = dom h);
  os_find cmp `{Ordering cmp} h root l x : rep h root l -> sorted cmp l ->
    exists p, RB_FIND cmp root x h = Done (p, h) /\
      match p with Some a => a ∈ l /\ cmp x a = 0 | None => forall a, a ∈ l -> cmp x a <> 0 end;
  os_remove h root xs a ys : rep h root (xs ++ a :: ys) -> exists h' root',
    RB_REMOVE root (Some a) h = Done ((Some a, root'), h') /\ rep h' root' (xs ++ ys) /\ dom h' = dom h;
  os_min h root l : rep h root l -> RB_MIN root h = Done (head l, h);
  os_max h root l : rep h root l -> RB_MAX root h = Done (last l, h);
  os_next h root xs a ys : rep h root (xs ++ a :: ys) -> RB_NEXT (Some a) h = Done (head ys, h);
  os_foreach h root l : rep h root l -> RB_FOREACH root h = Done (l, h)
}.

(** The tree: coloured as a red-black tree is. *)
Definition rb_rep h (root : ptr) (l : list loc) : Prop :=
  exists t, root = root_of t /\ elems t = l /\ holds h t /\ valid t.

#[export] Instance rb_ordered_set : OrderedSet rb_rep.
Proof.
  split.
  - intros h. exists Leaf. split_and!; [done | done | | by exists O; constructor]. split; [apply sees_nil | constructor].
  - intros h root l (t & -> & <- & O & Hv). unfold RB_EMPTY. apply bool_decide_ext.
    destruct t as [| a c u v]; [done |]. cbn. split; [done |]. by destruct (elems u).
  - intros h root l (t & -> & <- & O & Hv). by apply holds_NoDup in O.
  - intros h root l a (t & -> & <- & O & Hv) Ha. destruct O as [Hs Hn]. apply (sees_dom _ _ _ Hs). by rewrite rb_cells_locs.
  - intros h root l x v (t & -> & <- & [Hs Hn] & Hv) Hx. exists t. split_and!; [done | done | | done]. split; [| done].
    apply sees_insert; [| done]. intros Hi. apply (sees_dom _ _ _ Hs) in Hi as [w Hw]. by rewrite Hx in Hw.
  - intros cmp Hcmp h root l x (t & -> & <- & O & Hv) Hs Hx.
    destruct (rb_insert_spec cmp h t x O Hv Hs Hx) as [H | (Hne & h' & t' & E & O' & Hv' & Ee)]; [by left | right].
    split; [done |]. exists h', (root_of t'). split_and!; [done | by exists t' | by eapply keeps_insert].
  - intros cmp Hcmp h root l x (t & -> & <- & O & Hv) Hs. by apply rb_find_spec.
  - intros h root xs a ys (t & -> & E & O & Hv).
    destruct (rb_remove_spec h t a xs ys O Hv E) as (h' & t' & E' & O' & Hv' & Ee).
    exists h', (root_of t'). split_and!; [done | by exists t' | by eapply keeps_remove].
  - intros h root l (t & -> & <- & O & Hv). by apply rb_min_spec.
  - intros h root l (t & -> & <- & O & Hv). by apply rb_max_spec.
  - intros h root xs a ys (t & -> & E & O & Hv). by eapply rb_next_spec.
  - intros h root l (t & -> & <- & O & Hv). by apply rb_foreach_spec.
Qed.

(** ** Any sequence of calls *)

Inductive call :=
  | Insert (x : loc) | Remove (x : loc) | Find (x : loc) | Next (x : loc) | Min | Max | Foreach.
(** What a call returns: a pointer, or what is visited. *)
Inductive answer := Ptr (p : ptr) | Seen (l : list loc).

Lemma filter_keep (x : loc) (l : list loc) : x ∉ l -> filter (fun a => a <> x) l = l.
Proof. induction l as [| a l IH]; intros Hx; [done |]. rewrite filter_cons_True, IH; set_solver. Qed.
Lemma filter_out (x : loc) (xs ys : list loc) : NoDup (xs ++ x :: ys) -> filter (fun a => a <> x) (xs ++ x :: ys) = xs ++ ys.
Proof.
  intros Hn. rewrite filter_app, filter_cons_False by tauto. apply NoDup_app in Hn as (_ & Hd & [Hx _]%NoDup_cons).
  rewrite !filter_keep; [done | done |]. intros Hi. by apply (Hd x Hi); left.
Qed.

(** The element after [x] *)
Fixpoint next_in (x : loc) (l : list loc) : ptr :=
  match l with [] => None | a :: l => if decide (a = x) then head l else next_in x l end.
Lemma next_in_split (x : loc) (xs ys : list loc) : x ∉ xs -> next_in x (xs ++ x :: ys) = head ys.
Proof.
  induction xs as [| a xs IH]; cbn; intros Hx; [by rewrite decide_True |].
  rewrite decide_False by set_solver. apply IH. set_solver.
Qed.

Section Calls.
Context (cmp : loc -> loc -> Z).

Definition run_call (c : call) (root : ptr) : prog (answer * ptr) :=
  match c with
  | Insert x => let! (p, root) := RB_INSERT cmp root x in ret (Ptr p, root)
  | Remove x => let! (p, root) := RB_REMOVE root (Some x) in ret (Ptr p, root)
  | Find x => let! p := RB_FIND cmp root x in ret (Ptr p, root)
  | Next x => let! p := RB_NEXT (Some x) in ret (Ptr p, root)
  | Min => let! p := RB_MIN root in ret (Ptr p, root)
  | Max => let! p := RB_MAX root in ret (Ptr p, root)
  | Foreach => let! l := RB_FOREACH root in ret (Seen l, root)
  end.
Fixpoint run_calls (cs : list call) (root : ptr) : prog (list answer * ptr) :=
  match cs with
  | [] => ret ([], root)
  | c :: cs =>
      let! (a, root) := run_call c root in
      let! (l, root) := run_calls cs root in
      ret (a :: l, root)
  end.

(** The same on a sorted list. *)
Definition same (x : loc) (l : list loc) : ptr := head (filter (fun a => cmp x a = 0) l).
Definition call_spec (c : call) (l : list loc) : answer * list loc :=
  match c with
  | Insert x => match same x l with Some a => (Ptr (Some a), l) | None => (Ptr None, add cmp x l) end
  | Remove x => (Ptr (Some x), filter (fun a => a <> x) l)
  | Find x => (Ptr (same x l), l)
  | Next x => (Ptr (next_in x l), l)
  | Min => (Ptr (head l), l)
  | Max => (Ptr (last l), l)
  | Foreach => (Seen l, l)
  end.
Fixpoint calls_spec (cs : list call) (l : list loc) : list answer * list loc :=
  match cs with
  | [] => ([], l)
  | c :: cs => let (a, l) := call_spec c l in let (r, l) := calls_spec cs l in (a :: r, l)
  end.

(** The calls that have a meaning: a node that is inserted is one of [nodes], a node
    that is removed or left for the next one is in the tree. *)
Definition legal (nodes : gset loc) (c : call) (l : list loc) : Prop :=
  match c with Insert x => x ∈ nodes | Remove x | Next x => x ∈ l | _ => True end.
Fixpoint all_legal (nodes : gset loc) (cs : list call) (l : list loc) : Prop :=
  match cs with [] => True | c :: cs => legal nodes c l /\ all_legal nodes cs (call_spec c l).2 end.

Context `{Ordering cmp} `{OrderedSet rep}.

Lemma same_some x a l : sorted cmp l -> a ∈ l -> cmp x a = 0 -> same x l = Some a.
Proof.
  intros Hs Ha Hx. unfold same. destruct (filter (fun a => cmp x a = 0) l) as [| b k] eqn:E.
  - exfalso. apply (not_elem_of_nil a). rewrite <- E. by apply list_elem_of_filter.
  - assert (b ∈ filter (fun a => cmp x a = 0) l) as [Hb Hbl]%list_elem_of_filter by (rewrite E; left).
    cbn. f_equal. apply list_elem_of_split in Ha as (xs & ys & ->). apply sorted_app in Hs as (_ & Hs & Hlt).
    apply StronglySorted_inv in Hs as [_ Hys]. rewrite Forall_forall in Hys.
    pose proof (cmp_flip x a). pose proof (cmp_flip a x). pose proof (cmp_flip x b). pose proof (cmp_flip b x).
    pose proof (cmp_le_trans a x b). pose proof (cmp_le_trans b x a). pose proof (cmp_flip a b). pose proof (cmp_flip b a).
    apply elem_of_app in Hbl as [Hbl | [-> | Hbl]%elem_of_cons]; [| done |].
    + specialize (Hlt b a Hbl ltac:(left)). lia.
    + specialize (Hys b Hbl). lia.
Qed.

Lemma same_none x l : (forall a, a ∈ l -> cmp x a <> 0) -> same x l = None.
Proof.
  intros Hne. unfold same. destruct (filter (fun a => cmp x a = 0) l) as [| b k] eqn:E; [done |].
  assert (b ∈ filter (fun a => cmp x a = 0) l) as [Hb Hbl]%list_elem_of_filter by (rewrite E; left). by destruct (Hne b).
Qed.

#[export] Instance legal_dec nodes c l : Decision (legal nodes c l).
Proof. destruct c; cbn; apply _. Defined.
#[export] Instance all_legal_dec nodes cs : forall l, Decision (all_legal nodes cs l).
Proof. induction cs; intros l; cbn; apply _. Defined.

Lemma run_call_spec c h root l : rep h root l -> sorted cmp l -> legal (dom h) c l -> exists h' root',
  run_call c root h = Done (((call_spec c l).1, root'), h') /\ rep h' root' (call_spec c l).2 /\
  sorted cmp (call_spec c l).2 /\ dom h' = dom h.
Proof.
  intros Hr Hs Hl. pose proof (os_nodup _ _ _ Hr) as Hn. destruct c as [x | x | x | x | | |]; cbn [run_call call_spec legal] in *.
  - apply elem_of_dom in Hl. destruct (os_insert cmp h root l x Hr Hs Hl) as [(a & Ha & Hx & E) | (Hne & h' & root' & E & Hr' & Hd)];
      rewrite (bind_eq _ _ _ _ _ E).
    + rewrite (same_some x a) by done. by exists h, root.
    + rewrite same_none by done. exists h', root'. split_and!; [done | done | | done].
      by destruct (rb_sorted_add cmp x l Hs Hne) as (lo & hi & _ & _ & H1).
  - apply list_elem_of_split in Hl as (xs & ys & ->). destruct (os_remove _ _ _ _ _ Hr) as (h' & root' & E & Hr' & Hd).
    rewrite (bind_eq _ _ _ _ _ E). cbn [fst snd]. rewrite filter_out by done. exists h', root'. split_and!; [done | done | | done].
    apply sorted_app in Hs as (H1 & H2 & H3). apply sorted_app. apply StronglySorted_inv in H2 as [H2 _].
    split_and!; [done | done |]. intros a b Ha Hb. apply H3; [done | by right].
  - destruct (os_find cmp h root l x Hr Hs) as (p & E & Hp). rewrite (bind_eq _ _ _ _ _ E). exists h, root.
    split_and!; [| done | done | done]. cbn. destruct p as [a |]; [destruct Hp; by rewrite (same_some x a) | by rewrite same_none].
  - apply list_elem_of_split in Hl as (xs & ys & ->). rewrite (bind_eq _ _ _ _ _ (os_next _ _ _ _ _ Hr)). cbn [fst snd].
    rewrite next_in_split; [by exists h, root |]. apply NoDup_app in Hn as (_ & Hd & _). intros Hi. by apply (Hd x Hi); left.
  - rewrite (bind_eq _ _ _ _ _ (os_min _ _ _ Hr)). by exists h, root.
  - rewrite (bind_eq _ _ _ _ _ (os_max _ _ _ Hr)). by exists h, root.
  - rewrite (bind_eq _ _ _ _ _ (os_foreach _ _ _ Hr)). by exists h, root.
Qed.

Lemma run_calls_spec cs : forall h root l, rep h root l -> sorted cmp l -> all_legal (dom h) cs l -> exists h' root',
  run_calls cs root h = Done (((calls_spec cs l).1, root'), h') /\ rep h' root' (calls_spec cs l).2 /\
  sorted cmp (calls_spec cs l).2.
Proof.
  induction cs as [| c cs IH]; intros h root l Hr Hs Hl; cbn [run_calls calls_spec all_legal] in *; [by exists h, root |].
  destruct Hl as [Hl Hls]. destruct (run_call_spec c h root l Hr Hs Hl) as (h1 & root1 & E1 & Hr1 & Hs1 & Hd1).
  rewrite (bind_eq _ _ _ _ _ E1). rewrite <- Hd1 in Hls. destruct (IH _ _ _ Hr1 Hs1 Hls) as (h2 & root2 & E2 & Hr2 & Hs2).
  destruct (call_spec c l) as [a l1]. cbn [fst snd] in *. destruct (calls_spec cs l1) as [as_ l2]. cbn [fst snd] in *.
  rewrite (bind_eq _ _ _ _ _ E2). by exists h2, root2.
Qed.
End Calls.

(** C23: any legal sequence of calls of the macros, from any red-black tree in order,
    answers what the same calls answer on the sorted list of its elements (insertion
    refuses an element that compares equal and returns the one in the way), runs into
    no undefined behaviour, and leaves a red-black tree of that list, in order. *)
Theorem rb_refinement cmp `{Ordering cmp} cs h root l :
  rb_rep h root l -> sorted cmp l -> all_legal cmp (dom h) cs l -> exists h' root',
  run_calls cmp cs root h = Done (((calls_spec cmp cs l).1, root'), h') /\
  rb_rep h' root' (calls_spec cmp cs l).2 /\ sorted cmp (calls_spec cmp cs l).2.
Proof. exact (run_calls_spec cmp cs h root l). Qed.

(** ** The height *)

Lemma rbt_height c n t : rbt c n t -> (height t <= 2 * n + (if (c =? RB_RED)%Z then 1 else 0) /\ 2 ^ n <= S (length (elems t)))%nat.
Proof.
  induction 1 as [| n a l r Hl [IHl1 IHl2] Hr [IHr1 IHr2] | c d n a l r Hl [IHl1 IHl2] Hr [IHr1 IHr2]]; cbn [height elems].
  - split; [lia | done].
  - rewrite length_app. cbn in *. lia.
  - rewrite length_app. cbn [length Nat.pow]. cbn in *. destruct (c =? RB_RED)%Z, (d =? RB_RED)%Z; lia.
Qed.

Lemma valid_height t : valid t -> (height t <= 2 * Nat.log2 (S (length (elems t))))%nat.
Proof.
  intros [n [H1 H2]%rbt_height]. apply Nat.log2_le_mono in H2. rewrite Nat.log2_pow2 in H2 by lia. cbn in H1. lia.
Qed.

(** C40: a search in a red-black tree of [n] elements takes at most
    [2 * log2 (n + 1) + 1] turns, one for each node on the way and one that finds its
    end: the loop of [RB_FIND], bounded to as many turns, gives the answer of the
    unbounded one. *)
Theorem rb_find_bounded cmp `{Ordering cmp} h root l x :
  rb_rep h root l -> sorted cmp l -> exists p, RB_FIND cmp root x h = Done (p, h) /\
  find_loop cmp (S (2 * Nat.log2 (S (length l)))) x root h = Done (p, h).
Proof.
  intros (t & -> & <- & O & Hv) Hs. pose proof (valid_height t Hv) as Hh.
  destruct (find_loop_at cmp x (S (size h)) h [] t O Hs (fuel_enough _ _ O)) as (p & E & Hp).
  destruct (find_loop_at cmp x (S (2 * Nat.log2 (S (length (elems t))))) h [] t O Hs) as (q & E' & Hq); [lia |].
  exists p. split; [exact E |]. rewrite E'. do 2 f_equal.
  destruct p as [a |], q as [b |]; [| destruct Hp as [Ha Hx]; by destruct (Hq a) | destruct Hq as [Ha Hx]; by destruct (Hp b) | done].
  destruct Hp as [Ha Hx], Hq as [Hb Hx']. rewrite <- (same_some cmp x a (elems t)), <- (same_some cmp x b (elems t)) by done. done.
Qed.

End RBOrderSpec.
Import RBOrderSpec.

Module RBSamples.
(** Elements are compared by their address. *)
Definition by_address (a b : loc) : Z := Z.pos a - Z.pos b.
#[export] Instance by_address_ordering : Ordering by_address.
Proof. split; unfold by_address; lia. Qed.

Definition blank : rb_entry := mkEntry None None None RB_BLACK.
Definition nodes (n : nat) : heap := list_to_map ((fun i => (Pos.of_succ_nat i, blank)) <$> seq 0 n).

Definition calls : list call :=
  [Insert 4; Insert 2; Insert 6; Insert 1; Insert 3; Insert 5; Insert 7; Insert 8; Foreach; Insert 3;
   Remove 4; Remove 1; Next 5; Min; Max; Remove 2; Find 6; Find 2; Foreach]%positive.

Example calls_answers : (calls_spec by_address calls []).1 =
  [Ptr None; Ptr None; Ptr None; Ptr None; Ptr None; Ptr None; Ptr None; Ptr None; Seen [1; 2; 3; 4; 5; 6; 7; 8];
   Ptr (Some 3); Ptr (Some 4); Ptr (Some 1); Ptr (Some 6); Ptr (Some 2); Ptr (Some 8); Ptr (Some 2);
   Ptr (Some 6); Ptr None; Seen [3; 5; 6; 7; 8]]%positive.
Proof. vm_compute. reflexivity. Qed.

Lemma calls_legal : all_legal by_address (dom (nodes 8)) calls [].
Proof. apply (bool_decide_unpack _). vm_compute. exact I. Qed.

Lemma sorted_nil : sorted by_address [].
Proof. constructor. Qed.

Lemma rb_refinement_witness : exists h' root',
  run_calls by_address calls RB_INIT (nodes 8) = Done (((calls_spec by_address calls []).1, root'), h') /\
  rb_rep h' root' [3; 5; 6; 7; 8]%positive /\ sorted by_address [3; 5; 6; 7; 8]%positive.
Proof. exact (rb_refinement by_address calls (nodes 8) RB_INIT [] (os_empty _) sorted_nil calls_legal). Defined.

Definition three : tree := Node 2 RB_BLACK (Node 1 RB_RED Leaf Leaf) (Node 3 RB_RED Leaf Leaf).
Lemma three_rep : rb_rep (list_to_map (cells None three)) (Some 2%positive) [1; 2; 3]%positive.
Proof.
  exists three. split_and!; [done | done | | exists 1%nat; repeat econstructor]. split.
  - repeat constructor.
  - apply (bool_decide_unpack _). vm_compute. exact I.
Qed.
Lemma three_sorted : sorted by_address [1; 2; 3]%positive.
Proof. repeat constructor. Qed.

Lemma rb_find_bounded_witness : exists p, RB_FIND by_address (Some 2%positive) 3%positive (list_to_map (cells None three)) =
    Done (p, list_to_map (cells None three)) /\
  find_loop by_address 5 3%positive (Some 2%positive) (list_to_map (cells None three)) = Done (p, list_to_map (cells None three)).
Proof. exact (rb_find_bounded by_address _ _ _ 3%positive three_rep three_sorted). Defined.
End RBSamples.
