(* ===== verification/Splay.v ===== *)
(** The splay tree of [cnm/net/tree.h]: the macros [SPLAY_*].

    Every operation first moves the node it is about to the root.  The loop takes the
    tree apart into what is smaller and what is greater, whose ends hang on the two
    fields of a node on the stack, and puts it together again below the new root.
    Nodes, comparison and sides are as in [RBTree]; the calls and their specification are
    those of [RBOrder], so that both trees implement the same ordered set. *)
From S2P Require Import Prelude CHeap RBTree RBRemove RBOrder.

Module Splay.
Import RB.

(** [SPLAY_ENTRY(type)] *)
Record sp_entry := mkSp { spe_left : ptr; spe_right : ptr }.
Abbreviation heap := (gmap loc sp_entry).
Abbreviation prog := (M sp_entry).

Definition get_link (s : side) (n : sp_entry) : ptr := match s with L => spe_left n | R => spe_right n end.
Definition with_link (s : side) (p : ptr) (n : sp_entry) : sp_entry :=
  match s with L => mkSp p (spe_right n) | R => mkSp (spe_left n) p end.
Definition sp_child (s : side) (p : ptr) : prog ptr := let! n := load p in ret (get_link s n).
Definition SPLAY_LEFT : ptr -> prog ptr := sp_child L.
Definition SPLAY_RIGHT : ptr -> prog ptr := sp_child R.
Definition set_link (s : side) (p q : ptr) : prog unit := modify p (with_link s q).

(** The head is its member [sph_root]. *)
Definition SPLAY_INIT : ptr := None.
Definition SPLAY_EMPTY (root : ptr) : bool := bool_decide (root = None).

(** [SPLAY_ROTATE_LEFT] and [SPLAY_ROTATE_RIGHT]; the root after it *)
Definition sp_rotate (s : side) (root tmp : ptr) : prog ptr :=
  (let! b := sp_child s tmp in set_link (flip s) root b) ;!
  set_link s tmp root ;!
  ret tmp.
Definition SPLAY_ROTATE_LEFT : ptr -> ptr -> prog ptr := sp_rotate L.
Definition SPLAY_ROTATE_RIGHT : ptr -> ptr -> prog ptr := sp_rotate R.

(** [SPLAY_LINKLEFT] and [SPLAY_LINKRIGHT]; the root and [tmp] after it *)
Definition sp_link (s : side) (root tmp : ptr) : prog (ptr * ptr) :=
  set_link s tmp root ;!
  let! c := sp_child s root in
  ret (c, root).
Definition SPLAY_LINKLEFT : ptr -> ptr -> prog (ptr * ptr) := sp_link L.
Definition SPLAY_LINKRIGHT : ptr -> ptr -> prog (ptr * ptr) := sp_link R.

Definition SPLAY_ASSEMBLE (root node lft rgt : ptr) : prog unit :=
  (let! p := SPLAY_LEFT root in set_link R lft p) ;!
  (let! p := SPLAY_RIGHT root in set_link L rgt p) ;!
  (let! p := SPLAY_RIGHT node in set_link L root p) ;!
  let! p := SPLAY_LEFT node in set_link R root p.

(** Where a variable of a function is: an address that is not in use. *)
Class Stack := { local : heap -> loc; local_fresh h : h !! local h = None }.
(** [struct type __node] with both links cleared, while [m] runs *)
Definition with_node `{Stack} {A} (m : ptr -> prog A) : prog A := fun h =>
  let n := local h in
  let* (a, h) := m (Some n) (<[n := mkSp None None]> h) in
  Done (a, delete n h).

Section Loop.
(** [__comp] at a node *)
Variable dir : loc -> Z.

(** The loops of [SPLAY] and of [SPLAY_MINMAX]: the root, [__left] and [__right] *)
Fixpoint splay_loop (fuel : nat) (root lft rgt : ptr) : prog (ptr * ptr * ptr) :=
  match fuel with
  | O => no_fuel
  | S fuel =>
    match root with
    | None => fun _ => UB
    | Some a =>
      let comp := dir a in
      if comp =? 0 then ret (root, lft, rgt)
      else if comp <? 0 then
        let! tmp := SPLAY_LEFT root in
        match tmp with
        | None => ret (root, lft, rgt)
        | Some b =>
            let! (root, stop) :=
              (if dir b <? 0 then
                 let! root := SPLAY_ROTATE_RIGHT root tmp in
                 let! c := SPLAY_LEFT root in
                 ret (root, bool_decide (c = None))
               else ret (root, false)) in
            if stop : bool then ret (root, lft, rgt)
            else let! (root, rgt) := SPLAY_LINKLEFT root rgt in splay_loop fuel root lft rgt
        end
      else
        let! tmp := SPLAY_RIGHT root in
        match tmp with
        | None => ret (root, lft, rgt)
        | Some b =>
            let! (root, stop) :=
              (if 0 <? dir b then
                 let! root := SPLAY_ROTATE_LEFT root tmp in
                 let! c := SPLAY_RIGHT root in
                 ret (root, bool_decide (c = None))
               else ret (root, false)) in
            if stop : bool then ret (root, lft, rgt)
            else let! (root, lft) := SPLAY_LINKRIGHT root lft in splay_loop fuel root lft rgt
        end
    end
  end.

Definition splay_with `{Stack} (root : ptr) : prog ptr :=
  with_node (fun node =>
    let! (root, lft, rgt) := with_fuel (fun fuel => splay_loop fuel root node node) in
    SPLAY_ASSEMBLE root node lft rgt ;!
    ret root).
End Loop.

Section Operations.
Context (cmp : loc -> loc -> Z) `{Stack}.

Definition SPLAY (root : ptr) (elm : loc) : prog ptr := splay_with (cmp elm) root.
(** With 0 the loop goes on for ever. *)
Definition SPLAY_MINMAX (root : ptr) (comp : Z) : prog ptr :=
  if comp =? 0 then no_fuel else splay_with (fun _ => comp) root.

(** [*_SPLAY_FIND]: what it returns, and the root; likewise below *)
Definition SPLAY_FIND (root : ptr) (elm : loc) : prog (ptr * ptr) :=
  if SPLAY_EMPTY root then ret (None, root) else
  let! root := SPLAY root elm in
  match root with
  | None => fun _ => UB
  | Some a => if cmp elm a =? 0 then ret (root, root) else ret (None, root)
  end.

Fixpoint down_loop (fuel : nat) (elm : ptr) : prog ptr :=
  match fuel with
  | O => no_fuel
  | S fuel => let! l := SPLAY_LEFT elm in match l with Some _ => down_loop fuel l | None => ret elm end
  end.

Definition SPLAY_NEXT (root : ptr) (elm : loc) : prog (ptr * ptr) :=
  let! root := SPLAY root elm in
  let! r := SPLAY_RIGHT (Some elm) in
  match r with
  | Some _ => let! e := with_fuel (fun fuel => down_loop fuel r) in ret (e, root)
  | None => ret (None, root)
  end.

Definition SPLAY_MIN_MAX (root : ptr) (val : Z) : prog (ptr * ptr) :=
  let! root := SPLAY_MINMAX root val in ret (root, root).

Definition SPLAY_INSERT (root : ptr) (elm : loc) : prog (ptr * ptr) :=
  if SPLAY_EMPTY root then
    set_link R (Some elm) None ;! set_link L (Some elm) None ;! ret (None, Some elm)
  else
    let! root := SPLAY root elm in
    match root with
    | None => fun _ => UB
    | Some a =>
        let comp := cmp elm a in
        if comp <? 0 then
          (let! p := SPLAY_LEFT root in set_link L (Some elm) p) ;!
          set_link R (Some elm) root ;!
          set_link L root None ;!
          ret (None, Some elm)
        else if 0 <? comp then
          (let! p := SPLAY_RIGHT root in set_link R (Some elm) p) ;!
          set_link L (Some elm) root ;!
          set_link R root None ;!
          ret (None, Some elm)
        else ret (root, root)
    end.

Definition SPLAY_REMOVE (root : ptr) (elm : loc) : prog (ptr * ptr) :=
  if SPLAY_EMPTY root then ret (None, root) else
  let! root := SPLAY root elm in
  match root with
  | None => fun _ => UB
  | Some a =>
      if cmp elm a =? 0 then
        let! l := SPLAY_LEFT root in
        match l with
        | None => let! root := SPLAY_RIGHT root in ret (Some elm, root)
        | Some _ =>
            let! tmp := SPLAY_RIGHT root in
            let! root := SPLAY_LEFT root in
            let! root := SPLAY root elm in
            set_link R root tmp ;!
            ret (Some elm, root)
        end
      else ret (None, root)
  end.

Definition SPLAY_NEGINF : Z := -1.
Definition SPLAY_INF : Z := 1.
Definition SPLAY_MIN (root : ptr) : prog (ptr * ptr) := if SPLAY_EMPTY root then ret (None, root) else SPLAY_MIN_MAX root SPLAY_NEGINF.
Definition SPLAY_MAX (root : ptr) : prog (ptr * ptr) := if SPLAY_EMPTY root then ret (None, root) else SPLAY_MIN_MAX root SPLAY_INF.

(** The elements that [SPLAY_FOREACH] visits, and the root *)
Fixpoint visit_loop (fuel : nat) (root x : ptr) : prog (list loc * ptr) :=
  match fuel with
  | O => no_fuel
  | S fuel =>
    match x with
    | None => ret ([], root)
    | Some a => let! (y, root) := SPLAY_NEXT root a in let! (l, root) := visit_loop fuel root y in ret (a :: l, root)
    end
  end.
Definition SPLAY_FOREACH (root : ptr) : prog (list loc * ptr) :=
  let! (x, root) := SPLAY_MIN root in with_fuel (fun fuel => visit_loop fuel root x).
End Operations.
End Splay.

(** * Trees and what hangs on the node *)

Module SplaySpec.
Import RB RBTreeSpec RBRemoveSpec RBOrderSpec Splay.

Inductive tree := Leaf | Node (a : loc) (l r : tree).
Definition root_of (t : tree) : ptr := match t with Leaf => None | Node a _ _ => Some a end.
Definition mk (s : side) (a : loc) (t u : tree) : tree := match s with L => Node a t u | R => Node a u t end.
Definition ent (s : side) (p q : ptr) : sp_entry := match s with L => mkSp p q | R => mkSp q p end.
Fixpoint elems (t : tree) : list loc := match t with Leaf => [] | Node a l r => elems l ++ a :: elems r end.
Fixpoint cells (t : tree) : list (loc * sp_entry) :=
  match t with Leaf => [] | Node a l r => (a, mkSp (root_of l) (root_of r)) :: cells l ++ cells r end.

(** The part that [LINK] on side [s] builds: nodes along the children on that side,
    innermost first, each with its other subtree; [p] is what the last one has there. *)
Abbreviation spine := (list (loc * tree)).
Fixpoint hang (C : spine) (p : ptr) : ptr := match C with [] => p | (a, _) :: C => hang C (Some a) end.
Fixpoint chain (s : side) (C : spine) (p : ptr) : list (loc * sp_entry) :=
  match C with [] => [] | (a, u) :: C => (a, ent s p (root_of u)) :: cells u ++ chain s C (Some a) end.
Definition tip (n : loc) (C : spine) : loc := match C with [] => n | (a, _) :: _ => a end.
Fixpoint plug (s : side) (C : spine) (t : tree) : tree := match C with [] => t | (a, u) :: C => plug s C (mk s a t u) end.
Fixpoint later (C : spine) : list loc := match C with [] => [] | (a, u) :: C => a :: elems u ++ later C end.
Fixpoint earlier (C : spine) : list loc := match C with [] => [] | (a, u) :: C => earlier C ++ elems u ++ [a] end.

Section Proofs.
Implicit Types (t u w l r : tree) (C D : spine) (h : heap) (F G : list (loc * sp_entry)).

Lemma ent_flip s p q : ent (flip s) q p = ent s p q.
Proof. by destruct s. Qed.
Lemma get_ent s p q : get_link s (ent s p q) = p.
Proof. by destruct s. Qed.
Lemma get_flip_ent s p q : get_link (flip s) (ent s p q) = q.
Proof. by destruct s. Qed.
Lemma with_ent s p q p' : with_link s p' (ent s p q) = ent s p' q.
Proof. by destruct s. Qed.
Lemma with_flip_ent s p q q' : with_link (flip s) q' (ent s p q) = ent s p q'.
Proof. by destruct s. Qed.

Lemma sp_cells_mk s a t u : cells (mk s a t u) ≡ₚ (a, ent s (root_of t) (root_of u)) :: cells t ++ cells u.
Proof. destruct s; cbn; [done | by rewrite Permutation_app_comm]. Qed.

Lemma sp_root_mk s a t u : root_of (mk s a t u) = Some a.
Proof. by destruct s. Qed.

Lemma root_plug s C : forall t, root_of (plug s C t) = hang C (root_of t).
Proof. induction C as [| [a u] C IH]; intros t; [done |]. cbn. rewrite IH. by rewrite sp_root_mk. Qed.

Lemma cells_plug s C : forall t, cells (plug s C t) ≡ₚ chain s C (root_of t) ++ cells t.
Proof.
  induction C as [| [a u] C IH]; intros t; cbn; [done |]. rewrite IH, sp_root_mk, sp_cells_mk. solve_Permutation.
Qed.

Lemma elems_plug_L C : forall t, elems (plug L C t) = elems t ++ later C.
Proof. induction C as [| [a u] C IH]; intros t; cbn; [by rewrite app_nil_r |]. rewrite IH. cbn. by rewrite <- !app_assoc. Qed.
Lemma elems_plug_R C : forall t, elems (plug R C t) = earlier C ++ elems t.
Proof. induction C as [| [a u] C IH]; intros t; cbn; [done |]. rewrite IH. cbn. by rewrite <- !app_assoc. Qed.

Lemma sp_cells_locs t : (cells t).*1 ≡ₚ elems t.
Proof.
  induction t as [| a l IHl r IHr]; cbn; [done |]. rewrite fmap_app, IHl, IHr. solve_Permutation.
Qed.

(** ** Running field accesses *)

Lemma run_link {B} s a v h (f : ptr -> prog B) : h !! a = Some v -> bind (sp_child s (Some a)) f h = f (get_link s v) h.
Proof. intros Ha. unfold sp_child. by rewrite bind_bind, (bind_load _ _ _ _ Ha). Qed.

Lemma bind_ext {A B} (m : prog A) (f g : A -> prog B) h : (forall a h, f a h = g a h) -> bind m f h = bind m g h.
Proof. intros E. unfold bind. by destruct (m h) as [[a h'] | |]; cbn. Qed.

End Proofs.

Create Rewrite HintDb links.
#[export] Hint Rewrite get_ent get_flip_ent with_ent with_flip_ent : links.

(** Reads and writes of fields, as in [RBTree]. *)
Ltac rd O a :=
  focus O a; rewrite ?bind_bind; rewrite (run_link _ _ _ _ _ (owned_lookup _ _ _ _ O)); autorewrite with links.
Ltac wr O a :=
  focus O a; rewrite ?bind_bind; unfold set_link at 1;
  let E := fresh in let O' := fresh in
  lazymatch goal with |- context [modify (Some a) ?g] => destruct (owned_modify _ _ _ _ g O) as [E O'] end;
  first [rewrite (bind_eq _ _ _ _ _ E) | rewrite E]; cbv beta; clear E O; rename O' into O; autorewrite with links in O |- *.

Section Moves.
Context `{Stack}.
Implicit Types (t u w l r : tree) (C D : spine) (h : heap) (F G : list (loc * sp_entry)).

(** The node, the two parts, the rest of the tree, and other cells *)
Definition state_at h (n : loc) (s : side) C p D q t F : Prop :=
  owned h ((n, ent s (hang C p) (hang D q)) :: chain s C p ++ chain (flip s) D q ++ cells t ++ F).

Lemma state_flip h n s C p D q t F : state_at h n s C p D q t F -> state_at h n (flip s) D q C p t F.
Proof.
  unfold state_at. intros O. rewrite ent_flip, flip_flip. eapply owned_perm; [exact O |]. solve_Permutation.
Qed.

(** Setting the link at the end of a part *)
Lemma set_tip_spec h n s C p q p' G : owned h ((n, ent s (hang C p) q) :: chain s C p ++ G) -> exists h',
  set_link s (Some (tip n C)) p' h = Done (tt, h') /\ owned h' ((n, ent s (hang C p') q) :: chain s C p' ++ G).
Proof.
  intros O. destruct C as [| [a u] C]; cbn [tip chain hang] in *.
  - destruct (owned_modify _ _ _ _ (with_link s p') O) as [E O']. rewrite with_ent in E, O'. eexists. exact (conj E O').
  - set (rest := cells u ++ chain s C (Some a) ++ G).
    assert (owned h ((a, ent s p (root_of u)) :: (n, ent s (hang C (Some a)) q) :: rest)) as O1
      by (eapply owned_perm; [exact O |]; subst rest; rewrite <- !app_comm_cons, <- !app_assoc; solve_Permutation).
    destruct (owned_modify _ _ _ _ (with_link s p') O1) as [E O']. rewrite with_ent in E, O'. eexists. split; [exact E |].
    eapply owned_perm; [exact O' |]. subst rest. rewrite <- !app_comm_cons, <- !app_assoc. solve_Permutation.
Qed.

Lemma sp_link_spec h n s C p D q a t u F : state_at h n s C p D q (mk s a t u) F -> exists h',
  sp_link s (Some a) (Some (tip n C)) h = Done ((root_of t, Some a), h') /\ state_at h' n s ((a, u) :: C) (root_of t) D q t F.
Proof.
  intros O. destruct (set_tip_spec _ _ _ _ _ _ (Some a) _ O) as (h' & E & O'). exists h'. unfold sp_link.
  rewrite (bind_eq _ _ _ _ _ E). rewrite sp_cells_mk in O'. unfold state_at. cbn [hang chain].
  assert (owned h' ((a, ent s (root_of t) (root_of u)) :: (n, ent s (hang C (Some a)) (hang D q)) :: chain s C (Some a) ++
    chain (flip s) D q ++ cells t ++ cells u ++ F)) as O1 by (eapply owned_perm; [exact O' |]; solve_Permutation).
  rewrite (run_link _ _ _ _ _ (owned_lookup _ _ _ _ O1)), get_ent. split; [done |].
  eapply owned_perm; [exact O1 |]. rewrite <- !app_comm_cons, <- !app_assoc. solve_Permutation.
Qed.

Lemma sp_rotate_spec h n s C p D q a b t u w F : state_at h n s C p D q (mk s a (mk s b t u) w) F -> exists h',
  sp_rotate (flip s) (Some a) (Some b) h = Done (Some b, h') /\ state_at h' n s C p D q (mk s b t (mk s a u w)) F.
Proof.
  unfold state_at. intros O. rewrite !sp_cells_mk in O. unfold sp_rotate. rewrite flip_flip.
  set (X := chain s C p) in *. set (Y := chain (flip s) D q) in *. rewrite <- !app_comm_cons, <- !app_assoc in O.
  rd O b. wr O a.
  wr O b.
  eexists. split; [done |]. rewrite !sp_cells_mk, sp_root_mk. eapply owned_perm; [exact O |].
  rewrite <- !app_comm_cons, <- !app_assoc. solve_Permutation.
Qed.

(** The loop stops with nothing left on the side that it looks at. *)
Context (dir : loc -> Z).

(** What [dir] says of nodes in their order: first greater than 0, at most one equal,
    then less. *)
Definition mono (k : list loc) : Prop := StronglySorted (fun a b => dir a <= 0 -> dir b < 0) k.
Definition below (k : list loc) : Prop := Forall (fun a => 0 < dir a) k.
Definition above (k : list loc) : Prop := Forall (fun a => dir a < 0) k.

Lemma mono_app k k' : mono (k ++ k') -> mono k /\ mono k' /\ forall a b, a ∈ k -> b ∈ k' -> dir a <= 0 -> dir b < 0.
Proof.
  unfold mono. induction k as [| x k IH]; cbn; [intros Hm; split_and!; [constructor | done | by intros ? ? ?%elem_of_nil] |].
  rewrite !StronglySorted_cons, !Forall_forall. intros [Hx (H1 & H2 & H3)%IH].
  split_and!; [intros y Hy Hd; apply Hx; [set_solver | done] | done | done |].
  intros a b [-> | Ha]%elem_of_cons Hb Hd; [apply Hx; [set_solver | done] | by apply (H3 a)].
Qed.
(** At a node, what is on its sides *)
Lemma mono_at l a r : mono (elems l ++ a :: elems r) ->
  mono (elems l) /\ mono (elems r) /\ (dir a <= 0 -> above (elems r)) /\ (0 <= dir a -> below (elems l)).
Proof.
  intros (Hl & Hr & Hlr)%mono_app. apply StronglySorted_inv in Hr as [Hr Ha]. split_and!; [done | done | |].
  - intros Hd. rewrite Forall_forall in Ha. apply Forall_forall. auto.
  - intros Hd. apply Forall_forall. intros x Hx. specialize (Hlr x a Hx ltac:(left)).
    destruct (decide (dir x <= 0)); [specialize (Hlr ltac:(done)) |]; lia.
Qed.

(** Where the loop stops: the nodes in their order, [a] at the root *)
Definition stops n F (k : list loc) (a : loc) C D h : Prop := exists l r p q,
  state_at h n L C p D q (Node a l r) F /\ k = earlier D ++ elems l ++ a :: elems r ++ later C /\
  above (elems r ++ later C) /\ below (earlier D ++ elems l).

(** One step towards a side: [s] is where the sign of [dir] says. *)
Definition towards (s : side) (z : Z) : bool := match s with L => z <? 0 | R => 0 <? z end.
Definition side_step (s : side) (root tmp : ptr) (b : loc) (e : ptr) : prog (ptr * ptr * bool) :=
  let! (root, stop) :=
    (if towards s (dir b) then
       let! root := sp_rotate (flip s) root tmp in
       let! c := sp_child s root in
       ret (root, bool_decide (c = None))
     else ret (root, false)) in
  if stop : bool then ret (root, e, true) else let! (root, e) := sp_link s root e in ret (root, e, false).

Lemma side_step_spec s h n C p D q a b t u w F : state_at h n s C p D q (mk s a (mk s b t u) w) F ->
  exists h',
  (towards s (dir b) = true /\ t = Leaf /\ state_at h' n s C p D q (mk s b Leaf (mk s a u w)) F /\
     side_step s (Some a) (Some b) b (Some (tip n C)) h = Done ((Some b, Some (tip n C), true), h')) \/
  (towards s (dir b) = true /\ t <> Leaf /\ state_at h' n s ((b, mk s a u w) :: C) (root_of t) D q t F /\
     side_step s (Some a) (Some b) b (Some (tip n C)) h = Done ((root_of t, Some b, false), h')) \/
  (towards s (dir b) = false /\ state_at h' n s ((a, w) :: C) (Some b) D q (mk s b t u) F /\
     side_step s (Some a) (Some b) b (Some (tip n C)) h = Done ((Some b, Some a, false), h')).
Proof.
  intros O. unfold side_step. destruct (towards s (dir b)).
  - destruct (sp_rotate_spec _ _ _ _ _ _ _ _ _ _ _ _ _ O) as (h1 & E1 & O1). rewrite bind_bind, (bind_eq _ _ _ _ _ E1), bind_bind.
    assert (h1 !! b = Some (ent s (root_of t) (Some a))) as Hb.
    { unfold state_at in O1. rewrite sp_cells_mk, sp_root_mk in O1. rewrite <- !app_comm_cons in O1. focus O1 b. by apply owned_lookup in O1. }
    rewrite (run_link _ _ _ _ _ Hb), get_ent, bind_ret. destruct t as [| c l r] eqn:Et; cbn [root_of].
    + exists h1. left. by rewrite bool_decide_true.
    + rewrite bool_decide_false by done. destruct (sp_link_spec _ _ _ _ _ _ _ _ _ _ _ O1) as (h2 & E2 & O2).
      exists h2. right. left. rewrite (bind_eq _ _ _ _ _ E2). done.
  - destruct (sp_link_spec _ _ _ _ _ _ _ _ _ _ _ O) as (h2 & E2 & O2). rewrite sp_root_mk in *.
    exists h2. right. right. rewrite bind_ret, (bind_eq _ _ _ _ _ E2). done.
Qed.
Definition swap {A} (s : side) (x y : A) : A := match s with L => x | R => y end.

(** The parts that the loop hands on: [__left], [__right] *)
Definition handed (s : side) (e o : ptr) : ptr * ptr := match s with L => (o, e) | R => (e, o) end.
Definition looking (a : loc) : side := if dir a <? 0 then L else R.

Lemma splay_loop_step fuel a e o h : dir a <> 0 -> let s := looking a in
  splay_loop dir (S fuel) (Some a) (handed s e o).1 (handed s e o).2 h =
  (let! tmp := sp_child s (Some a) in
   match tmp with
   | None => ret (Some a, (handed s e o).1, (handed s e o).2)
   | Some b =>
       let! (root, e, stop) := side_step s (Some a) tmp b e in
       if stop : bool then ret (root, (handed s e o).1, (handed s e o).2)
       else splay_loop dir fuel root (handed s e o).1 (handed s e o).2
   end) h.
Proof.
  intros Ha s. subst s. unfold looking. cbn [splay_loop]. rewrite (proj2 (Z.eqb_neq _ _) Ha).
  destruct (dir a <? 0); apply bind_ext; intros [b |] h1; [| done | | done]; unfold side_step; rewrite bind_bind;
    apply bind_ext; intros [root []] h2; [done | | done |]; rewrite bind_bind; by apply bind_ext; intros [root' e'] h3.
Qed.

(** A turn of the loop: it ends with nothing left on the side that it looks at, or goes
    on with less. *)
Lemma turn_spec fuel s h n X x Y y a t u F : state_at h n s X x Y y (mk s a t u) F -> dir a <> 0 -> looking a = s ->
  let parts X := handed s (Some (tip n X)) (Some (tip n Y)) in
  exists h',
  (exists b v, splay_loop dir (S fuel) (Some a) (parts X).1 (parts X).2 h = Done ((Some b, (parts X).1, (parts X).2), h') /\
     state_at h' n s X x Y y (mk s b Leaf v) F /\
     (b = a /\ t = Leaf /\ v = u \/ exists w, t = mk s b Leaf w /\ v = mk s a w u /\ towards s (dir b) = true)) \/
  (exists X' x' t', splay_loop dir (S fuel) (Some a) (parts X).1 (parts X).2 h =
       splay_loop dir fuel (root_of t') (parts X').1 (parts X').2 h' /\
     state_at h' n s X' x' Y y t' F /\ t' <> Leaf /\
     (X' = (a, u) :: X /\ t' = t \/
      exists b w, t = mk s b t' w /\ X' = (b, mk s a w u) :: X /\ towards s (dir b) = true)).
Proof.
  intros O Ha <- parts. subst parts. cbv beta. rewrite splay_loop_step by done. set (s := looking a) in *. fold s in O.
  assert (h !! a = Some (ent s (root_of t) (root_of u))) as Hc.
  { unfold state_at in O. rewrite sp_cells_mk, <- !app_comm_cons in O. focus O a. by apply owned_lookup in O. }
  rewrite (run_link _ _ _ _ _ Hc), get_ent. destruct t as [| b l r] eqn:Et; cbn [root_of].
  { exists h. left. exists a, u. split; [done |]. split; [done |]. by left. }
  set (t0 := swap s l r). set (w := swap s r l). assert (Node b l r = mk s b t0 w) as Ew by (subst t0 w; by destruct s). rewrite Ew in O.
  destruct (side_step_spec _ _ _ _ _ _ _ _ _ _ _ _ _ O) as (h' & [(Hb & Ht & O' & E) | [(Hb & Ht & O' & E) | (Hb & O' & E)]]);
    exists h'; rewrite (bind_eq _ _ _ _ _ E).
  - left. exists b, (mk s a w u). split_and!; [done | done |]. right. exists w. by rewrite Ew, Ht.
  - right. exists ((b, mk s a w u) :: X), (root_of t0), t0. split_and!; [done | done | done |]. right. by exists b, w.
  - right. exists ((a, u) :: X), (Some b), (Node b l r). split_and!; [done | by rewrite Ew | done | by left].
Qed.
Lemma elems_len_mk s a t u : length (elems (mk s a t u)) = S (length (elems t) + length (elems u)).
Proof. destruct s; cbn; rewrite length_app; cbn; lia. Qed.
Lemma above_app k k' : above (k ++ k') <-> above k /\ above k'.
Proof. apply Forall_app. Qed.
Lemma below_app k k' : below (k ++ k') <-> below k /\ below k'.
Proof. apply Forall_app. Qed.
Lemma above_cons a k : above (a :: k) <-> dir a < 0 /\ above k.
Proof. unfold above. by rewrite Forall_cons. Qed.
Lemma below_cons a k : below (a :: k) <-> 0 < dir a /\ below k.
Proof. unfold below. by rewrite Forall_cons. Qed.

Create Rewrite HintDb spines.
#[local] Hint Rewrite above_app above_cons below_app below_cons : spines.
(** What is on the two sides, from [H] at a node inside, and the order [E] *)
Ltac parts H E :=
  cbn [later earlier elems mk app]; autorewrite with spines; split_and?; try done; try lia; try (apply H; lia);
  try solve [constructor]; try (by rewrite E; simplify_list_eq).

(** The loop: it ends, and only moves nodes. *)
Lemma splay_loop_spec fuel n F k : forall h C p D q t, t <> Leaf -> state_at h n L C p D q t F ->
  mono (elems t) -> above (later C) -> below (earlier D) -> k = earlier D ++ elems t ++ later C -> (length (elems t) < fuel)%nat ->
  exists h' a C' D', splay_loop dir fuel (root_of t) (Some (tip n D)) (Some (tip n C)) h =
    Done ((Some a, Some (tip n D'), Some (tip n C')), h') /\ stops n F k a C' D' h'.
Proof.
  induction fuel as [| fuel IH]; intros h C p D q t Ht O Hm HC HD Ek Hf; [lia |]. destruct t as [| a l r]; [done |].
  cbn [root_of elems] in *. destruct (mono_at _ _ _ Hm) as (Hml & Hmr & Hr & Hl). rewrite length_app in Hf. cbn in Hf.
  destruct (decide (dir a = 0)) as [E0 | E0].
  { exists h, a, C, D. split; [cbn [splay_loop]; by rewrite (proj2 (Z.eqb_eq _ _) E0) |]. exists l, r, p, q.
    rewrite above_app, below_app. split_and!; try done; [by rewrite Ek, <- app_assoc | apply Hr; lia | apply Hl; lia]. }
  destruct (Z.ltb_spec (dir a) 0) as [Hd | Hd].
  - assert (looking a = L) as Hs by (unfold looking; by rewrite (proj2 (Z.ltb_lt _ _) Hd)). specialize (Hr ltac:(lia)).
    destruct (turn_spec fuel L h n C p D q a l r F O E0 Hs) as (h1 & [(b & v & E & O1 & Hb) | (C1 & p1 & t1 & E & O1 & Ht1 & Hc)]);
      cbn [handed fst snd] in E; rewrite E.
    + exists h1, b, C, D. split; [done |]. exists Leaf, v, p, q. split; [done |]. cbn [elems mk] in *.
      destruct Hb as [(-> & -> & ->) | (w & -> & -> & Hb%Z.ltb_lt)]; cbn [elems mk app] in *.
      * parts Hr Ek.
      * destruct (mono_at Leaf b w Hml) as (_ & _ & Hw & _). parts Hw Ek.
    + destruct Hc as [(-> & ->) | (b & w & -> & -> & Hb%Z.ltb_lt)]; cbn [mk elems later] in *.
      * apply (IH _ _ _ _ _ _ Ht1 O1); parts Hr Ek.
      * destruct (mono_at _ _ _ Hml) as (H1 & _ & Hw & _). rewrite length_app in Hf. cbn in Hf.
        apply (IH _ _ _ _ _ _ Ht1 O1); parts Hw Ek.
  - assert (looking a = R) as Hs by (unfold looking; by rewrite (proj2 (Z.ltb_ge _ _) Hd)). specialize (Hl ltac:(lia)).
    apply state_flip in O. cbn [flip] in O.
    destruct (turn_spec fuel R h n D q C p a r l F O E0 Hs) as (h1 & [(b & v & E & O1 & Hb) | (D1 & q1 & t1 & E & O1 & Ht1 & Hc)]);
      cbn [handed fst snd] in E; rewrite E; apply state_flip in O1; cbn [flip] in O1.
    + exists h1, b, C, D. split; [done |]. exists v, Leaf, p, q. split; [done |]. cbn [elems mk] in *.
      destruct Hb as [(-> & -> & ->) | (w & -> & -> & Hb%Z.ltb_lt)]; cbn [elems mk app] in *.
      * parts Hl Ek.
      * destruct (mono_at w b Leaf Hmr) as (_ & _ & _ & Hw). parts Hw Ek.
    + destruct Hc as [(-> & ->) | (b & w & -> & -> & Hb%Z.ltb_lt)]; cbn [mk elems earlier] in *.
      * apply (IH _ _ _ _ _ _ Ht1 O1); parts Hl Ek.
      * destruct (mono_at _ _ _ Hmr) as (_ & H1 & _ & Hw). rewrite length_app in Hf. cbn in Hf.
        apply (IH _ _ _ _ _ _ Ht1 O1); parts Hw Ek.
Qed.
(** ** The tree put together *)

Lemma assemble_spec h n C p D q a l r F : state_at h n L C p D q (Node a l r) F -> exists h' v,
  SPLAY_ASSEMBLE (Some a) (Some n) (Some (tip n D)) (Some (tip n C)) h = Done (tt, h') /\
  owned h' ((n, v) :: cells (Node a (plug R D l) (plug L C r)) ++ F).
Proof.
  intros O. unfold SPLAY_ASSEMBLE, SPLAY_LEFT, SPLAY_RIGHT.
  assert (forall h s X x y G, owned h ((n, ent s (hang X x) y) :: chain s X x ++ (a, mkSp (root_of l) (root_of r)) :: G) ->
    forall p', exists h', (let! p := sp_child p' (Some a) in set_link s (Some (tip n X)) p) h = Done (tt, h') /\
      let x' := get_link p' (mkSp (root_of l) (root_of r)) in
      owned h' ((n, ent s (hang X x') y) :: chain s X x' ++ (a, mkSp (root_of l) (root_of r)) :: G)) as Hset.
  { intros h0 s X x y G O0 p'. assert (h0 !! a = Some (mkSp (root_of l) (root_of r))) as Ha.
    { focus O0 a. by apply owned_lookup in O0. }
    destruct (set_tip_spec _ _ _ _ _ _ (get_link p' (mkSp (root_of l) (root_of r))) _ O0) as (h' & E & O').
    exists h'. rewrite (run_link _ _ _ _ _ Ha). by split. }
  apply state_flip in O. unfold state_at in O. cbn [flip cells] in O.
  destruct (Hset h R D q (hang C p) (chain L C p ++ cells l ++ cells r ++ F)) with (p' := L) as (h1 & E1 & O1); [eapply owned_perm; [exact O |]; solve_Permutation |].
  rewrite (bind_eq _ _ _ _ _ E1). cbn [get_link spe_left] in O1.
  destruct (Hset h1 L C p (hang D (root_of l)) (chain R D (root_of l) ++ cells l ++ cells r ++ F)) with (p' := R) as (h2 & E2 & O2);
    [eapply owned_perm; [exact O1 |]; rewrite (ent_flip L); solve_Permutation |].
  rewrite (bind_eq _ _ _ _ _ E2). cbn [get_link spe_right] in O2. clear O O1 Hset.
  set (X := chain L C (root_of r)) in *. set (Y := chain R D (root_of l)) in *. set (G := cells l ++ cells r ++ F) in *.
  rd O2 n. wr O2 a. rd O2 n. wr O2 a. eexists _, _. split; [done |]. cbn [ent get_link with_link spe_left spe_right cells] in *.
  rewrite !cells_plug, !root_plug. eapply owned_perm; [exact O2 |]. subst X Y G. cbn [flip]. solve_Permutation.
Qed.

(** Splaying: the tree has the same nodes in the same order, and its root splits them. *)
Lemma splay_with_spec h t F : t <> Leaf -> owned h (cells t ++ F) -> mono (elems t) -> exists h' a l r,
  splay_with dir (root_of t) h = Done (Some a, h') /\ owned h' (cells (Node a l r) ++ F) /\
  elems t = elems l ++ a :: elems r /\ below (elems l) /\ above (elems r).
Proof.
  intros Ht O Hm. unfold splay_with, with_node. set (n := local h).
  assert (O1 : state_at (<[n := mkSp None None]> h) n L [] None [] None t F).
  { destruct O as [Hs Hn]. unfold state_at. cbn [chain hang app].
    assert (n ∉ (cells t ++ F).*1) as Hf by (intros Hi; apply (sees_dom _ _ _ Hs) in Hi as [w Hw]; pose proof (local_fresh h); unfold n in Hw; congruence).
    split; [apply sees_cons; split; [apply lookup_insert_eq | by apply sees_insert] | by constructor]. }
  assert (Hsize : (length (elems t) < S (size (<[n := mkSp None None]> h)))%nat).
  { unfold state_at in O1. cbn [chain hang app] in O1. apply owned_size in O1. rewrite <- sp_cells_locs, length_fmap.
    cbn in O1. rewrite length_app in O1. lia. }
  destruct (splay_loop_spec (S (size (<[n := mkSp None None]> h))) n F (elems t) _ [] None [] None t Ht O1 Hm) as (h1 & a & C & D & E1 & l & r & p & q & O2 & Ek & Ha & Hb);
    [constructor | constructor | by rewrite app_nil_r | done |].
  destruct (assemble_spec _ _ _ _ _ _ _ _ _ _ O2) as (h2 & v & E2 & O3).
  cbn [tip] in E1. exists (delete n h2), a, (plug R D l), (plug L C r).
  split; [rewrite run_fuel, (bind_eq _ _ _ _ _ E1), (bind_eq _ _ _ _ _ E2); done |]. rewrite elems_plug_L, elems_plug_R.
  split_and!; [| by rewrite Ek, <- app_assoc | done | done].
  destruct O3 as [Hs [Hn Hnd]%NoDup_cons]. apply sees_cons in Hs as [_ Hs]. split; [by apply sees_delete | done].
Qed.
End Moves.

(** ** The operations on sorted lists *)

Section Operations.
Context (cmp : loc -> loc -> Z) `{Ordering cmp} `{Stack}.
Implicit Types (t u l r : tree) (h : heap) (F : list (loc * sp_entry)).

Lemma mono_sorted x k : sorted cmp k -> mono (cmp x) k.
Proof.
  induction 1 as [| a k Hs IH Ha]; constructor; [done |]. eapply Forall_impl; [exact Ha |].
  cbn. intros b Hab Hxa. by apply (cmp_trans' cmp x a b).
Qed.
Lemma mono_const z k : z <> 0 -> mono (fun _ => z) k.
Proof. intros Hz. induction k as [| a k IH]; constructor; [done |]. apply Forall_forall. intros b _. lia. Qed.

Lemma cmp_refl x : cmp x x = 0.
Proof. pose proof (cmp_flip x x). lia. Qed.

(** The tree at [root] has the elements [k], in order, and is made of some of [nodes]. *)
Definition sp_rep (nodes : gset loc) h (root : ptr) (k : list loc) : Prop := exists t F,
  root = root_of t /\ elems t = k /\ owned h (cells t ++ F) /\ list_to_set ((cells t ++ F).*1) = nodes.

Lemma sp_rep_intro nodes h t F (C : list (loc * sp_entry)) : owned h (cells t ++ F) -> list_to_set (C.*1) = nodes -> C.*1 ≡ₚ (cells t ++ F).*1 ->
  sp_rep nodes h (root_of t) (elems t).
Proof. intros O En Ep. exists t, F. split_and!; [done | done | done |]. by rewrite <- Ep. Qed.

Lemma sp_rep_nodup nodes h root k : sp_rep nodes h root k -> NoDup k.
Proof.
  intros (t & F & -> & <- & [_ Hn] & _). rewrite fmap_app, sp_cells_locs in Hn. by apply NoDup_app in Hn as [Hn _].
Qed.

(** [SPLAY]: the root splits the list at the place of the element. *)
Lemma splay_spec h t F x : t <> Leaf -> owned h (cells t ++ F) -> sorted cmp (elems t) -> exists h' a l r,
  SPLAY cmp (root_of t) x h = Done (Some a, h') /\ owned h' (cells (Node a l r) ++ F) /\
  elems t = elems l ++ a :: elems r /\ (forall b, b ∈ elems l -> cmp b x < 0) /\ (forall b, b ∈ elems r -> cmp x b < 0).
Proof.
  intros Ht O Hs. destruct (splay_with_spec (cmp x) h t F Ht O (mono_sorted _ _ Hs)) as (h' & a & l & r & E & O' & Ee & Hb & Ha).
  exists h', a, l, r. split_and!; [done | done | done | |]; intros b Hin.
  - rewrite cmp_flip. unfold below in Hb. rewrite Forall_forall in Hb. by apply Hb.
  - unfold above in Ha. rewrite Forall_forall in Ha. by apply Ha.
Qed.

(** A node is where the element that compares equal is. *)
Lemma locs_splay t a l r F : elems t = elems l ++ a :: elems r -> (cells t ++ F).*1 ≡ₚ (cells (Node a l r) ++ F).*1.
Proof. intros Ee. rewrite !fmap_app, !sp_cells_locs. by rewrite Ee. Qed.

Lemma same_split x xs a ys : sorted cmp (xs ++ a :: ys) -> (forall b, b ∈ xs -> cmp b x < 0) -> (forall b, b ∈ ys -> cmp x b < 0) ->
  same cmp x (xs ++ a :: ys) = if cmp x a =? 0 then Some a else None.
Proof.
  intros Hs Hl Hr. destruct (Z.eqb_spec (cmp x a) 0) as [E | E].
  - apply (same_some cmp x a); [done | apply elem_of_app; right; left | done].
  - apply same_none. intros b [Hb | [-> | Hb]%elem_of_cons]%elem_of_app; [| done |].
    + apply Hl, cmp_flip in Hb. lia.
    + apply Hr in Hb. lia.
Qed.

Lemma sp_find_spec nodes h root k x : sp_rep nodes h root k -> sorted cmp k -> exists h' root',
  SPLAY_FIND cmp root x h = Done ((same cmp x k, root'), h') /\ sp_rep nodes h' root' k.
Proof.
  intros (t & F & -> & <- & O & En) Hs. unfold SPLAY_FIND, SPLAY_EMPTY. destruct t as [| a0 l0 r0] eqn:Et.
  { exists h, None. split; [done |]. by exists Leaf, F. }
  rewrite <- Et in *. rewrite bool_decide_false by (by subst t).
  destruct (splay_spec h t F x ltac:(by subst t) O Hs) as (h' & a & l & r & E & O' & Ee & Hl & Hr).
  rewrite (bind_eq _ _ _ _ _ E), Ee in *. rewrite same_split by done. exists h', (Some a). split; [by destruct (cmp x a =? 0) |].
  exact (sp_rep_intro nodes h' (Node a l r) F _ O' En (locs_splay _ _ _ _ _ Ee)).
Qed.

Lemma sp_minmax_spec (z : Z) nodes h root k : z = SPLAY_NEGINF \/ z = SPLAY_INF -> k <> [] -> sp_rep nodes h root k -> exists h' a,
  SPLAY_MIN_MAX root z h = Done ((Some a, Some a), h') /\ sp_rep nodes h' (Some a) k /\ Some a = if z <? 0 then head k else last k.
Proof.
  intros Hz Hk (t & F & -> & <- & O & En). unfold SPLAY_MIN_MAX, SPLAY_MINMAX.
  assert (z <> 0) as Hz0 by (destruct Hz as [-> | ->]; done). rewrite (proj2 (Z.eqb_neq _ _) Hz0).
  destruct (splay_with_spec (fun _ => z) h t F) as (h' & a & l & r & E & O' & Ee & Hb & Ha); [by destruct t | done | by apply mono_const |].
  rewrite (bind_eq _ _ _ _ _ E). exists h', a. split; [done |].
  pose proof (sp_rep_intro nodes h' (Node a l r) F _ O' En (locs_splay _ _ _ _ _ Ee)) as Hrep. rewrite Ee. split; [exact Hrep |].
  destruct Hz as [-> | ->]; cbn [Z.ltb Z.compare SPLAY_NEGINF SPLAY_INF].
  - destruct (elems l) as [| b k]; [done |]. apply Forall_inv in Hb. unfold SPLAY_NEGINF in Hb. lia.
  - destruct (elems r) as [| b k]; [by rewrite last_snoc |]. apply Forall_inv in Ha. unfold SPLAY_INF in Ha. lia.
Qed.
Lemma not_in_split x xs a ys : (forall b, b ∈ xs -> cmp b x < 0) -> (forall b, b ∈ ys -> cmp x b < 0) -> cmp x a <> 0 ->
  x ∉ xs ++ a :: ys.
Proof.
  intros Hl Hr Hc. rewrite elem_of_app, elem_of_cons. pose proof (cmp_refl x) as Hx.
  intros [Hin%Hl | [-> | Hin%Hr]]; [lia | done | lia].
Qed.

(** A node that is not in the tree *)
Lemma free_node h t F (nodes : gset loc) x : list_to_set ((cells t ++ F).*1) = nodes -> x ∈ nodes -> x ∉ elems t -> exists v F',
  cells t ++ F ≡ₚ (x, v) :: cells t ++ F'.
Proof.
  intros En Hx Hn. rewrite <- En, elem_of_list_to_set, fmap_app, elem_of_app, sp_cells_locs in Hx. destruct Hx as [| Hx]; [done |].
  apply list_elem_of_fmap_1 in Hx as ([y v] & -> & Hin). apply list_elem_of_split in Hin as (F1 & F2 & ->).
  exists v, (F1 ++ F2). solve_Permutation.
Qed.

Lemma sp_insert_spec nodes h root k x : sp_rep nodes h root k -> sorted cmp k -> x ∈ nodes -> exists h' root',
  SPLAY_INSERT cmp root x h = Done ((same cmp x k, root'), h') /\
  sp_rep nodes h' root' (match same cmp x k with Some _ => k | None => add cmp x k end).
Proof.
  intros (t & F & -> & <- & O & En) Hs Hx. unfold SPLAY_INSERT, SPLAY_EMPTY. destruct t as [| a0 l0 r0] eqn:Et.
  { destruct (free_node h Leaf F nodes x En Hx) as (v & F' & Ep); [by intros ?%elem_of_nil |]. cbn [cells app] in *.
    rewrite Ep in O. cbn [root_of]. rewrite bool_decide_true by done. destruct v as [p q].
    replace (mkSp p q) with (ent L p q) in O by done.
    wr O x.
    wr O x. cbn [with_link ent] in *. eexists _, (Some x). split; [done |].
    refine (sp_rep_intro nodes _ (Node x Leaf Leaf) F' _ O En _). by rewrite Ep. }
  rewrite <- Et in *. rewrite bool_decide_false by (by subst t).
  destruct (splay_spec h t F x ltac:(by subst t) O Hs) as (h1 & a & l & r & E & O1 & Ee & Hl & Hr).
  rewrite (bind_eq _ _ _ _ _ E). rewrite Ee in *. rewrite same_split by done.
  pose proof (locs_splay _ _ _ _ F Ee) as Hlocs.
  assert (En1 : list_to_set ((cells (Node a l r) ++ F).*1) = nodes) by (by rewrite <- Hlocs).
  destruct (Z.eqb_spec (cmp x a) 0) as [Hc | Hc].
  { rewrite Hc. cbn [Z.ltb Z.compare]. exists h1, (Some a). split; [done |]. exact (sp_rep_intro nodes h1 (Node a l r) F _ O1 En1 ltac:(done)). }
  assert (x ∉ elems (Node a l r)) as Hf by by apply not_in_split.
  destruct (free_node h1 (Node a l r) F nodes x En1 Hx Hf) as (v & F' & Ep). pose proof O1 as O2. rewrite Ep in O2. cbn [cells] in O2.
  replace (mkSp (root_of l) (root_of r)) with (ent L (root_of l) (root_of r)) in O2 by done.
  replace v with (ent L (spe_left v) (spe_right v)) in O2 by (by destruct v). rewrite <- !app_comm_cons, <- app_assoc in O2.
  unfold SPLAY_LEFT, SPLAY_RIGHT. destruct (Z.ltb_spec (cmp x a) 0) as [Hlt | Hge].
  - rd O2 a. wr O2 x. wr O2 x. wr O2 a. cbn [with_link ent] in *. eexists _, (Some x). split; [done |].
    rewrite (add_app cmp x (elems l) (a :: elems r)); [| exact Hl | intros b [-> | Hb]%elem_of_cons; auto].
    refine (sp_rep_intro nodes _ (Node x l (Node a Leaf r)) F' (cells (Node a l r) ++ F) _ En1 _).
    + eapply owned_perm; [exact O2 |]. cbn [cells app root_of]. solve_Permutation.
    + rewrite Ep, fmap_cons, !fmap_app, !sp_cells_locs. cbn. rewrite <- ?app_assoc. solve_Permutation.
  - rewrite (proj2 (Z.ltb_lt 0 (cmp x a))) by lia. rd O2 a. wr O2 x. wr O2 x. wr O2 a. cbn [with_link ent] in *. eexists _, (Some x). split; [done |].
    replace (elems l ++ a :: elems r) with ((elems l ++ [a]) ++ elems r) by by simplify_list_eq.
    rewrite (add_app cmp x (elems l ++ [a]) (elems r)); [| | exact Hr].
    2: { intros b [Hb | ->%list_elem_of_singleton]%elem_of_app; [by apply Hl | apply cmp_flip; lia]. }
    rewrite <- app_assoc. change (elems l ++ [a] ++ x :: elems r) with (elems l ++ a :: [] ++ x :: elems r).
    replace (elems l ++ a :: [] ++ x :: elems r) with (elems (Node x (Node a l Leaf) r)) by (cbn; by rewrite <- app_assoc).
    refine (sp_rep_intro nodes _ (Node x (Node a l Leaf) r) F' (cells (Node a l r) ++ F) _ En1 _).
    + eapply owned_perm; [exact O2 |]. cbn [cells app root_of]. rewrite app_nil_r. solve_Permutation.
    + rewrite Ep, fmap_cons, !fmap_app, !sp_cells_locs. cbn. rewrite <- ?app_assoc. solve_Permutation.
Qed.
(** The root is the element itself, if it is in the tree. *)
Lemma splay_found x xs a ys k : x ∈ k -> k = xs ++ a :: ys -> (forall b, b ∈ xs -> cmp b x < 0) -> (forall b, b ∈ ys -> cmp x b < 0) -> a = x.
Proof.
  intros Hx -> Hl Hr. pose proof (cmp_refl x) as H1. apply elem_of_app in Hx as [Hx%Hl | [-> | Hx%Hr]%elem_of_cons]; [lia | done | lia].
Qed.

(** [SPLAY] for an element of the tree *)
Lemma splay_at h t F x : x ∈ elems t -> owned h (cells t ++ F) -> sorted cmp (elems t) -> exists h' l r,
  SPLAY cmp (root_of t) x h = Done (Some x, h') /\ owned h' (cells (Node x l r) ++ F) /\
  elems t = elems l ++ x :: elems r /\ (forall b, b ∈ elems l -> cmp b x < 0).
Proof.
  intros Hx O Hs. destruct (splay_spec h t F x) as (h' & a & l & r & E & O' & Ee & Hl & Hr); [by intros ->; apply elem_of_nil in Hx | done | done |].
  pose proof (splay_found x _ a _ _ Hx Ee Hl Hr) as ->. by exists h', l, r.
Qed.

Lemma sp_remove_spec nodes h root k x : sp_rep nodes h root k -> sorted cmp k -> x ∈ k -> exists h' root',
  SPLAY_REMOVE cmp root x h = Done ((Some x, root'), h') /\ sp_rep nodes h' root' (filter (fun a => a <> x) k).
Proof.
  intros Hrep Hs Hx. pose proof (sp_rep_nodup _ _ _ _ Hrep) as Hnd. destruct Hrep as (t & F & -> & <- & O & En).
  unfold SPLAY_REMOVE, SPLAY_EMPTY. rewrite bool_decide_false by (destruct t; [by apply elem_of_nil in Hx | done]).
  destruct (splay_at h t F x Hx O Hs) as (h1 & l & r & E & O1 & Ee & Hl). rewrite (bind_eq _ _ _ _ _ E), cmp_refl. cbn [Z.eqb].
  pose proof (locs_splay _ _ _ _ F Ee) as Hlocs. rewrite Ee in *. rewrite filter_out by done.
  unfold SPLAY_LEFT, SPLAY_RIGHT. cbn [cells] in O1.
  assert (owned h1 ((x, ent L (root_of l) (root_of r)) :: cells l ++ cells r ++ F)) as O2 by (rewrite app_assoc; exact O1).
  rd O2 x. destruct l as [| b l1 l2] eqn:El; cbn [root_of].
  - rd O2 x. cbn [ent get_link spe_right]. exists h1, (root_of r). split; [done |].
    refine (sp_rep_intro nodes h1 r ((x, ent L None (root_of r)) :: F) _ _ En _).
    + eapply owned_perm; [exact O2 |]. cbn [cells app root_of]. solve_Permutation.
    + rewrite Hlocs, !fmap_app, fmap_cons, !sp_cells_locs. cbn. solve_Permutation.
  - rewrite <- El in *. replace (Some b) with (root_of l) in * by (by subst l). rd O2 x. rd O2 x. cbn [ent get_link spe_left spe_right].
    assert (O3 : owned h1 (cells l ++ (x, ent L (root_of l) (root_of r)) :: cells r ++ F)) by (eapply owned_perm; [exact O2 |]; solve_Permutation).
    destruct (splay_spec h1 l _ x ltac:(by subst l) O3) as (h2 & c & u & w & E2 & O4 & Eu & Hu & Hw).
    { apply sorted_app in Hs as (Hs & _). done. }
    rewrite (bind_eq _ _ _ _ _ E2). assert (w = Leaf) as ->.
    { destruct w as [| d w1 w2]; [done |]. exfalso. assert (d ∈ elems (Node d w1 w2)) as Hd by (cbn; set_solver).
      pose proof (Hw d Hd) as H1. assert (cmp d x < 0) as H2%cmp_flip by (apply Hl; rewrite Eu; set_solver). lia. }
    cbn [cells root_of] in O4. replace (mkSp (root_of u) None) with (ent L (root_of u) None) in O4 by done.
    rewrite app_nil_r, <- !app_comm_cons in O4. wr O4 c. cbn [with_link ent] in O4. eexists _, (Some c). split; [done |].
    rewrite Eu. cbn [elems]. rewrite <- app_assoc. change (elems u ++ [c] ++ elems r) with (elems (Node c u r)).
    refine (sp_rep_intro nodes _ (Node c u r) ((x, ent L (root_of l) (root_of r)) :: F) _ _ En _).
    + eapply owned_perm; [exact O4 |]. cbn [cells app root_of]. solve_Permutation.
    + rewrite Hlocs, !fmap_app, fmap_cons, !sp_cells_locs. cbn. rewrite Eu. cbn. solve_Permutation.
Qed.

Lemma down_loop_spec fuel : forall h a l r G, owned h (cells (Node a l r) ++ G) -> (length (elems l) < fuel)%nat ->
  down_loop fuel (Some a) h = Done (head (elems (Node a l r)), h).
Proof.
  induction fuel as [| fuel IH]; intros h a l r G O Hf; [lia |]. cbn [down_loop]. unfold SPLAY_LEFT.
  pose proof (owned_lookup _ _ _ _ O) as Ha. rewrite (run_link _ _ _ _ _ Ha). cbn [get_link spe_left].
  destruct l as [| b l1 l2]; [done |]. cbn [root_of]. cbn [elems] in Hf. rewrite length_app in Hf. cbn in Hf.
  rewrite (IH h b l1 l2 ((a, mkSp (Some b) (root_of r)) :: cells r ++ G)); [| | lia].
  - cbn [elems]. rewrite <- app_assoc. by destruct (elems l1).
  - eapply owned_perm; [exact O |]. cbn [cells root_of]. solve_Permutation.
Qed.

Lemma sp_next_spec nodes h root xs x ys : sp_rep nodes h root (xs ++ x :: ys) -> sorted cmp (xs ++ x :: ys) -> exists h' root',
  SPLAY_NEXT cmp root x h = Done ((head ys, root'), h') /\ sp_rep nodes h' root' (xs ++ x :: ys).
Proof.
  intros Hrep Hs. pose proof (sp_rep_nodup _ _ _ _ Hrep) as Hnd. destruct Hrep as (t & F & -> & Ek & O & En).
  rewrite <- Ek in Hs, Hnd. unfold SPLAY_NEXT.
  destruct (splay_at h t F x ltac:(rewrite Ek; set_solver) O Hs) as (h1 & l & r & E & O1 & Ee & _). rewrite (bind_eq _ _ _ _ _ E).
  assert (elems l = xs /\ elems r = ys) as [<- <-].
  { rewrite Ee in Hnd, Ek. by apply (NoDup_split x). }
  pose proof (owned_lookup _ _ _ _ O1) as Hx. unfold SPLAY_RIGHT. rewrite (run_link _ _ _ _ _ Hx). cbn [get_link spe_right].
  exists h1, (Some x). split.
  - destruct r as [| b r1 r2]; [done |]. cbn [root_of].
    assert (O2 : owned h1 (cells (Node b r1 r2) ++ (x, mkSp (root_of l) (Some b)) :: cells l ++ F)).
    { eapply owned_perm; [exact O1 |]. change (cells (Node x l (Node b r1 r2))) with ((x, mkSp (root_of l) (Some b)) :: cells l ++ cells (Node b r1 r2)).
      set (X := cells (Node b r1 r2)). solve_Permutation. }
    assert (length (elems r1) < S (size h1))%nat as Hsz.
    { pose proof (owned_size _ _ O2) as Hsz. rewrite length_app, <- (length_fmap fst), sp_cells_locs in Hsz. cbn [elems] in Hsz.
      rewrite length_app in Hsz. cbn in Hsz. lia. }
    by rewrite run_fuel, (bind_eq _ _ _ _ _ (down_loop_spec _ _ _ _ _ _ O2 Hsz)).
  - exact (sp_rep_intro nodes h1 (Node x l r) F _ O1 En (locs_splay _ _ _ _ _ Ee)).
Qed.

Lemma sp_min_spec (z : Z) nodes h root k : z = SPLAY_NEGINF \/ z = SPLAY_INF -> sp_rep nodes h root k -> exists h' root',
  (if SPLAY_EMPTY root then ret (None, root) else SPLAY_MIN_MAX root z) h =
    Done ((if z <? 0 then head k else last k, root'), h') /\ sp_rep nodes h' root' k.
Proof.
  intros Hz Hrep. pose proof Hrep as (t & F & -> & Ek & _ & _). destruct (decide (k = [])) as [-> | Hk].
  - destruct t as [| a l r]; [| cbn in Ek; by destruct (elems l)]. exists h, None. split; [by destruct Hz as [-> | ->] | done].
  - unfold SPLAY_EMPTY. rewrite bool_decide_false by (destruct t; [by subst k | done]).
    destruct (sp_minmax_spec z nodes h (root_of t) k Hz Hk Hrep) as (h' & a & E & Hrep' & Ea).
    exists h', (Some a). by rewrite E, <- Ea.
Qed.

Lemma visit_loop_spec nodes fuel : forall h root xs ys, sp_rep nodes h root (xs ++ ys) -> sorted cmp (xs ++ ys) ->
  (length ys < fuel)%nat -> exists h' root',
  visit_loop cmp fuel root (head ys) h = Done ((ys, root'), h') /\ sp_rep nodes h' root' (xs ++ ys).
Proof.
  induction fuel as [| fuel IH]; intros h root xs ys Hrep Hs Hf; [lia |]. cbn [visit_loop].
  destruct ys as [| y ys]; cbn [head]; [by exists h, root |].
  destruct (sp_next_spec _ _ _ _ _ _ Hrep Hs) as (h1 & root1 & E1 & Hrep1). rewrite (bind_eq _ _ _ _ _ E1).
  rewrite cons_middle, app_assoc in *. destruct (IH h1 root1 (xs ++ [y]) ys Hrep1 Hs) as (h2 & root2 & E2 & Hrep2); [cbn in Hf; lia |].
  rewrite (bind_eq _ _ _ _ _ E2). by exists h2, root2.
Qed.

Lemma sp_foreach_spec nodes h root k : sp_rep nodes h root k -> sorted cmp k -> exists h' root',
  SPLAY_FOREACH cmp root h = Done ((k, root'), h') /\ sp_rep nodes h' root' k.
Proof.
  intros Hrep Hs. destruct (sp_min_spec SPLAY_NEGINF nodes h root k (or_introl eq_refl) Hrep) as (h1 & root1 & E1 & Hrep1).
  unfold SPLAY_FOREACH, SPLAY_MIN. rewrite (bind_eq _ _ _ _ _ E1). cbn [Z.ltb Z.compare SPLAY_NEGINF].
  apply (visit_loop_spec nodes _ h1 root1 [] k Hrep1 Hs). destruct Hrep1 as (t & F & _ & <- & O & _). apply owned_size in O.
  rewrite length_app, <- (length_fmap fst), sp_cells_locs in O. lia.
Qed.

(** ** Any sequence of calls *)

Definition sp_run_call (c : call) (root : ptr) : prog (answer * ptr) :=
  match c with
  | Insert x => let! (p, root) := SPLAY_INSERT cmp root x in ret (Ptr p, root)
  | Remove x => let! (p, root) := SPLAY_REMOVE cmp root x in ret (Ptr p, root)
  | Find x => let! (p, root) := SPLAY_FIND cmp root x in ret (Ptr p, root)
  | Next x => let! (p, root) := SPLAY_NEXT cmp root x in ret (Ptr p, root)
  | Min => let! (p, root) := SPLAY_MIN root in ret (Ptr p, root)
  | Max => let! (p, root) := SPLAY_MAX root in ret (Ptr p, root)
  | Foreach => let! (l, root) := SPLAY_FOREACH cmp root in ret (Seen l, root)
  end.
Fixpoint sp_run_calls (cs : list call) (root : ptr) : prog (list answer * ptr) :=
  match cs with
  | [] => ret ([], root)
  | c :: cs =>
      let! (a, root) := sp_run_call c root in
      let! (l, root) := sp_run_calls cs root in
      ret (a :: l, root)
  end.

Lemma call_sorted nodes c k : sorted cmp k -> NoDup k -> legal nodes c k -> sorted cmp (call_spec cmp c k).2.
Proof.
  intros Hs Hn Hl. destruct c as [x | x | x | x | | |]; cbn [call_spec snd legal] in *; try done.
  - destruct (same cmp x k) eqn:E; [done |]. cbn [snd].
    assert (forall a, a ∈ k -> cmp x a <> 0) as Hne.
    { intros a Ha Hc. by rewrite (same_some cmp x a k Hs Ha Hc) in E. }
    by destruct (rb_sorted_add cmp x k Hs Hne) as (lo & hi & _ & _ & H1).
  - apply list_elem_of_split in Hl as (xs & ys & ->). rewrite filter_out by done.
    apply sorted_app in Hs as (H1 & H2 & H3). apply sorted_app. apply StronglySorted_inv in H2 as [H2 _].
    split; [done |]. split; [done |]. intros a b Ha Hb. apply H3; [done | by right].
Qed.

Lemma sp_run_call_spec nodes c h root k : sp_rep nodes h root k -> sorted cmp k -> legal nodes c k -> exists h' root',
  sp_run_call c root h = Done (((call_spec cmp c k).1, root'), h') /\ sp_rep nodes h' root' (call_spec cmp c k).2.
Proof.
  intros Hrep Hs Hl. pose proof (sp_rep_nodup _ _ _ _ Hrep) as Hn.
  destruct c as [x | x | x | x | | |]; cbn [sp_run_call call_spec legal fst snd] in *.
  - destruct (sp_insert_spec _ _ _ _ x Hrep Hs Hl) as (h' & root' & E & H'). rewrite (bind_eq _ _ _ _ _ E).
    exists h', root'. by destruct (same cmp x k).
  - destruct (sp_remove_spec _ _ _ _ x Hrep Hs Hl) as (h' & root' & E & H'). rewrite (bind_eq _ _ _ _ _ E). by exists h', root'.
  - destruct (sp_find_spec _ _ _ _ x Hrep Hs) as (h' & root' & E & H'). rewrite (bind_eq _ _ _ _ _ E). by exists h', root'.
  - apply list_elem_of_split in Hl as (xs & ys & ->). destruct (sp_next_spec _ _ _ _ _ _ Hrep Hs) as (h' & root' & E & H').
    rewrite (bind_eq _ _ _ _ _ E), next_in_split; [by exists h', root' |].
    apply NoDup_app in Hn as (_ & Hd & _). intros Hi. by apply (Hd x Hi); left.
  - destruct (sp_min_spec SPLAY_NEGINF _ _ _ _ (or_introl eq_refl) Hrep) as (h' & root' & E & H').
    unfold SPLAY_MIN. rewrite (bind_eq _ _ _ _ _ E). by exists h', root'.
  - destruct (sp_min_spec SPLAY_INF _ _ _ _ (or_intror eq_refl) Hrep) as (h' & root' & E & H').
    unfold SPLAY_MAX. rewrite (bind_eq _ _ _ _ _ E). by exists h', root'.
  - destruct (sp_foreach_spec _ _ _ _ Hrep Hs) as (h' & root' & E & H'). rewrite (bind_eq _ _ _ _ _ E). by exists h', root'.
Qed.

(** C38: the splay tree implements the same ordered set as the red-black tree: any legal
    sequence of calls of the macros, from any splay tree in order, answers what the same
    calls answer on the sorted list of its elements, however the calls have moved the
    nodes; there is no undefined behaviour, the loops end, and the tree that is left has
    the elements of that list, in order. *)
Theorem splay_refinement cs : forall nodes h root k, sp_rep nodes h root k -> sorted cmp k -> all_legal cmp nodes cs k ->
  exists h' root', sp_run_calls cs root h = Done (((calls_spec cmp cs k).1, root'), h') /\
    sp_rep nodes h' root' (calls_spec cmp cs k).2 /\ sorted cmp (calls_spec cmp cs k).2.
Proof.
  induction cs as [| c cs IH]; intros nodes h root k Hrep Hs Hl; cbn [sp_run_calls calls_spec all_legal] in *; [by exists h, root |].
  destruct Hl as [Hl Hls]. destruct (sp_run_call_spec nodes c h root k Hrep Hs Hl) as (h1 & root1 & E1 & Hrep1).
  pose proof (call_sorted nodes c k Hs (sp_rep_nodup _ _ _ _ Hrep) Hl) as Hs1. rewrite (bind_eq _ _ _ _ _ E1).
  destruct (IH _ _ _ _ Hrep1 Hs1 Hls) as (h2 & root2 & E2 & Hrep2 & Hs2).
  destruct (call_spec cmp c k) as [a k1]. cbn [fst snd] in *. destruct (calls_spec cmp cs k1) as [as_ k2]. cbn [fst snd] in *.
  rewrite (bind_eq _ _ _ _ _ E2). by exists h2, root2.
Qed.
End Operations.
End SplaySpec.

Module SplaySamples.
Import Splay SplaySpec RBTreeSpec RBOrderSpec RBSamples.

(** The variables of a function are above all nodes. *)
#[export, refine] Instance sample_stack : Stack := { local h := fresh (dom h) }.
Proof. intros h. apply not_elem_of_dom, is_fresh. Defined.

Definition sp_nodes : list (loc * sp_entry) := (fun i => (Pos.of_succ_nat i, mkSp None None)) <$> seq 0 8.

Lemma sp_rep_empty : sp_rep (list_to_set (sp_nodes.*1)) (list_to_map sp_nodes) SPLAY_INIT [].
Proof.
  exists Leaf, sp_nodes. split_and!; [done | done | | done]. split; [repeat constructor |].
  apply (bool_decide_unpack _). vm_compute. exact I.
Qed.

Lemma sp_calls_legal : all_legal by_address (list_to_set (sp_nodes.*1)) calls [].
Proof. apply (bool_decide_unpack _). vm_compute. exact I. Qed.

(** The calls of [RBSamples], with the same answers. *)
Lemma splay_refinement_witness : exists h' root',
  sp_run_calls by_address calls SPLAY_INIT (list_to_map sp_nodes) = Done (((calls_spec by_address calls []).1, root'), h') /\
  sp_rep (list_to_set (sp_nodes.*1)) h' root' [3; 5; 6; 7; 8]%positive /\ sorted by_address [3; 5; 6; 7; 8]%positive.
Proof.
  exact (splay_refinement by_address calls _ (list_to_map sp_nodes) SPLAY_INIT [] sp_rep_empty sorted_nil sp_calls_legal).
Defined.

(** After a call the node is at the root. *)
Example splay_at_root : (let! (_, root) := sp_run_calls by_address [Insert 1; Insert 3; Insert 2; Insert 5; Find 1]%positive SPLAY_INIT in ret root)
  (list_to_map sp_nodes) = Done (Some 1%positive, list_to_map [(1, mkSp None (Some 3)); (2, mkSp None None); (3, mkSp (Some 2) (Some 5));
    (4, mkSp None None); (5, mkSp None None); (6, mkSp None None); (7, mkSp None None); (8, mkSp None None)]%positive).
Proof. vm_compute. reflexivity. Qed.
End SplaySamples.
