(* ===== verification/Ae.v ===== *)
(** The event loop of [cnm/net/ae.c] and its interface to epoll in
    [cnm/net/ae_epoll.c]: registration of file events, polling and dispatch, and timers in the
    red-black tree of [RBTree].

    The kernel (epoll and the clock) is a class of the calls that the code makes; the
    callbacks are functions on the whole state, so that they may call the event loop
    again.  The timers rely on the tree only through the promise [OrderedSet]. *)
From S2P Require Import Prelude CHeap RBTree RBRemove RBOrder.
Import RB RBTreeSpec RBOrderSpec.

Module Ae.

Definition AE_OK : Z := 0.
Definition AE_ERR : Z := -1.
Definition AE_NONE : Z := 0.
Definition AE_READABLE : Z := 1.
Definition AE_WRITABLE : Z := 2.
Definition AE_NOMORE : Z := -1.
Definition ERANGE : Z := 34.

(** ** [struct timeval] and its macros *)

Record timeval := mkTv { tv_sec : Z; tv_usec : Z }.

Definition timer_lt (a b : timeval) : bool :=
  if tv_sec a =? tv_sec b then tv_usec a <? tv_usec b else tv_sec a <? tv_sec b.
Definition timeradd (a b : timeval) : exec timeval :=
  let* sec := ck_int64 (tv_sec a + tv_sec b) in
  let* usec := ck_int64 (tv_usec a + tv_usec b) in
  if 1000000 <=? usec then let* sec := ck_int64 (sec + 1) in Done (mkTv sec (usec - 1000000))
  else Done (mkTv sec usec).
Definition timersub (a b : timeval) : exec timeval :=
  let* sec := ck_int64 (tv_sec a - tv_sec b) in
  let* usec := ck_int64 (tv_usec a - tv_usec b) in
  if usec <? 0 then let* sec := ck_int64 (sec - 1) in Done (mkTv sec (usec + 1000000))
  else Done (mkTv sec usec).

(** ** The kernel *)

Inductive ctl := EPOLL_CTL_ADD | EPOLL_CTL_MOD | EPOLL_CTL_DEL.
Definition EPOLLIN : Z := 1.
Definition EPOLLOUT : Z := 4.
Definition EPOLLERR : Z := 8.
Definition EPOLLHUP : Z := 16.

(** The epoll instance and the clock; [None] is the answer -1. *)
Class System := {
  os : Type;
  epoll_ctl : os -> ctl -> Z -> Z -> option unit * os;
  (** at most so many events, after at most so many milliseconds *)
  epoll_wait : os -> Z -> Z -> option (list (Z * Z)) * os;
  gettimeofday : os -> timeval * os
}.

(** What [malloc] and [epoll_create] answer while a loop is created. *)
Record creation := mkCreation {
  ok_loop : bool; ok_events : bool; ok_fired : bool; ok_state : bool; ok_epevents : bool; ok_epfd : bool
}.

(** The blocks that a loop owns. *)
Inductive block := B_loop | B_events | B_fired | B_state | B_epevents | B_epfd.
#[export] Instance block_eq_dec : EqDecision block.
Proof. solve_decision. Defined.

Section Loop.
Context {Proc Data Env : Type} `{EqDecision Proc} `{System} `{Malloc rb_entry}.

(** Members without a value are not initialised. *)
Record aeFileEvent := mkFileEvent {
  fe_mask : Z; rfileProc : option Proc; wfileProc : option Proc; fe_clientData : option Data
}.
Record aeFireEvent := mkFireEvent { fired_fd : Z; fired_mask : Z }.
(** [timeNode] is a cell of the heap of nodes, at the same address. *)
Record aeTimeEvent := mkTimeEvent {
  timeout : timeval; te_tv : timeval; timeProc : Proc; te_mask : Z; te_clientData : option Data
}.
Record aeEventLoop := mkEventLoop {
  maxfd : Z; setsize : Z; eventtv : timeval; events : list aeFileEvent; fired : list (option aeFireEvent);
  timetree : ptr; stop : Z
}.

(** The state that a program of the loop works on: the loop, the timers and their
    nodes, the kernel, and what belongs to the callbacks. *)
Record state := mkState {
  el : aeEventLoop; nodes : gmap loc rb_entry; timers : gmap loc aeTimeEvent; kern : os; errno : Z; env : Env
}.

Definition set_el (l : aeEventLoop) (s : state) : state := mkState l (nodes s) (timers s) (kern s) (errno s) (env s).
Definition set_nodes (h : gmap loc rb_entry) (s : state) : state := mkState (el s) h (timers s) (kern s) (errno s) (env s).
Definition set_timers (t : gmap loc aeTimeEvent) (s : state) : state := mkState (el s) (nodes s) t (kern s) (errno s) (env s).
Definition set_kern (k : os) (s : state) : state := mkState (el s) (nodes s) (timers s) k (errno s) (env s).
Definition set_env (e : Env) (s : state) : state := mkState (el s) (nodes s) (timers s) (kern s) (errno s) e.
Definition set_errno (z : Z) (s : state) : state := mkState (el s) (nodes s) (timers s) (kern s) z (env s).

Definition set_maxfd (fd : Z) (l : aeEventLoop) : aeEventLoop :=
  mkEventLoop fd (setsize l) (eventtv l) (events l) (fired l) (timetree l) (stop l).
Definition set_events (es : list aeFileEvent) (l : aeEventLoop) : aeEventLoop :=
  mkEventLoop (maxfd l) (setsize l) (eventtv l) es (fired l) (timetree l) (stop l).
Definition set_fired (fs : list (option aeFireEvent)) (l : aeEventLoop) : aeEventLoop :=
  mkEventLoop (maxfd l) (setsize l) (eventtv l) (events l) fs (timetree l) (stop l).
Definition set_timetree (p : ptr) (l : aeEventLoop) : aeEventLoop :=
  mkEventLoop (maxfd l) (setsize l) (eventtv l) (events l) (fired l) p (stop l).
Definition set_stop (z : Z) (l : aeEventLoop) : aeEventLoop :=
  mkEventLoop (maxfd l) (setsize l) (eventtv l) (events l) (fired l) (timetree l) z.

(** The callbacks. *)
Context (run_file : Proc -> Z -> option Data -> Z -> state -> exec state)
        (run_time : Proc -> option Data -> state -> exec (Z * state)).
(** What a node has in it before it is used. *)
Context (garbage : rb_entry).

(** An element of an array; outside of it, it is undefined. *)
Definition at_index {A} (l : list A) (i : Z) : exec A :=
  if 0 <=? i then match l !! Z.to_nat i with Some a => Done a | None => UB end else UB.
Definition put_index {A} (i : Z) (a : A) (l : list A) : exec (list A) :=
  let* _ := at_index l i in Done (<[Z.to_nat i := a]> l).

(** ** epoll *)

(** [ee.events] for a mask *)
Definition ee_events (mask : Z) : Z :=
  Z.lor (if Z.land mask AE_READABLE =? 0 then 0 else EPOLLIN) (if Z.land mask AE_WRITABLE =? 0 then 0 else EPOLLOUT).

Definition aeApiAddEvent (fd mask : Z) (s : state) : exec (Z * state) :=
  let* fe := at_index (events (el s)) fd in
  let op := if fe_mask fe =? AE_NONE then EPOLL_CTL_ADD else EPOLL_CTL_MOD in
  let mask := Z.lor mask (fe_mask fe) in
  let (r, k) := epoll_ctl (kern s) op fd (ee_events mask) in
  Done (match r with None => -1 | Some _ => 0 end, set_kern k s).

Definition aeApiDelEvent (fd delmask : Z) (s : state) : exec state :=
  let* fe := at_index (events (el s)) fd in
  let mask := Z.land (fe_mask fe) (Z.lnot delmask) in
  let (_, k) := epoll_ctl (kern s) (if mask =? AE_NONE then EPOLL_CTL_DEL else EPOLL_CTL_MOD) fd (ee_events mask) in
  Done (set_kern k s).

(** The mask of what epoll reports. *)
Definition fire_mask (e : Z) : Z :=
  Z.lor (if Z.land e EPOLLIN =? 0 then 0 else AE_READABLE)
    (if (Z.land e EPOLLOUT =? 0) && (Z.land e EPOLLERR =? 0) && (Z.land e EPOLLHUP =? 0) then 0 else AE_WRITABLE).

Fixpoint fire_loop (j : Z) (es : list (Z * Z)) (fs : list (option aeFireEvent)) : exec (list (option aeFireEvent)) :=
  match es with
  | [] => Done fs
  | (fd, e) :: es =>
      let* fs := put_index j (Some (mkFireEvent fd (fire_mask e))) fs in
      fire_loop (j + 1) es fs
  end.

Definition aeApiPoll (tvp : option timeval) (s : state) : exec (Z * state) :=
  let ms := match tvp with Some tv => tv_sec tv * 1000 + tv_usec tv ÷ 1000 | None => -1 end in
  let (r, k) := epoll_wait (kern s) (setsize (el s)) ms in
  let s := set_kern k s in
  match r with
  | None => Done (-1, s)
  | Some es =>
      let* fs := fire_loop 0 es (fired (el s)) in
      Done (zlen es, set_el (set_fired fs (el s)) s)
  end.

(** ** Creation and deletion *)

Definition aeCreateEventLoop (size : Z) (c : creation) (k : os) : option (aeEventLoop * os) * list block :=
  if ok_loop c then
    let live := (if ok_events c then [B_events] else []) ++ (if ok_fired c then [B_fired] else []) in
    if ok_events c && ok_fired c then
      let (now, k) := gettimeofday k in
      if ok_state c && ok_epevents c && ok_epfd c then
        (Some (mkEventLoop (-1) size now (replicate (Z.to_nat size) (mkFileEvent AE_NONE None None None))
                 (replicate (Z.to_nat size) None) RB_INIT 0, k),
         B_loop :: live ++ [B_state; B_epevents; B_epfd])
      else (None, live)
    else (None, live)
  else (None, []).

(** What [aeApiFree] and [aeDeleteEventLoop] release. *)
Definition aeApiFree : list block := [B_epfd; B_epevents; B_state].
Definition aeDeleteEventLoop (live : list block) : list block :=
  filter (fun b => b ∉ aeApiFree ++ [B_events; B_loop]) live.

Definition aeStop (s : state) : state := set_el (set_stop 1 (el s)) s.

(** ** File events *)

(** [fe->mask |= mask] and the callbacks of its directions *)
Definition with_event (mask : Z) (proc : Proc) (data : option Data) (fe : aeFileEvent) : aeFileEvent :=
  mkFileEvent (Z.lor (fe_mask fe) mask)
    (if Z.land mask AE_READABLE =? 0 then rfileProc fe else Some proc)
    (if Z.land mask AE_WRITABLE =? 0 then wfileProc fe else Some proc) data.

Definition aeCreateFileEvent (fd mask : Z) (proc : Proc) (data : option Data) (s : state) : exec (Z * state) :=
  if setsize (el s) <=? fd then Done (AE_ERR, set_errno ERANGE s)
  else
    let* (r, s) := aeApiAddEvent fd mask s in
    if r =? -1 then Done (AE_ERR, s)
    else
      let* fe := at_index (events (el s)) fd in
      let* es := put_index fd (with_event mask proc data fe) (events (el s)) in
      let l := set_events es (el s) in
      let l := if maxfd l <? fd then set_maxfd fd l else l in
      Done (AE_OK, set_el l s).

(** Calling a callback that is not initialised is undefined. *)
Definition call_file (p : option Proc) (fd : Z) (data : option Data) (mask : Z) (s : state) : exec state :=
  match p with Some p => run_file p fd data mask s | None => UB end.

(** One turn of the loop of [aeProcessEvents]. *)
Definition dispatch (j : Z) (s : state) : exec state :=
  let* f := at_index (fired (el s)) j in
  match f with
  | None => UB
  | Some f =>
      let fd := fired_fd f in
      let mask := fired_mask f in
      let* fe := at_index (events (el s)) fd in
      let rfired := negb (Z.land (Z.land (fe_mask fe) mask) AE_READABLE =? 0) in
      let* s := if rfired then call_file (rfileProc fe) fd (fe_clientData fe) mask s else Done s in
      let* fe := at_index (events (el s)) fd in
      if negb (Z.land (Z.land (fe_mask fe) mask) AE_WRITABLE =? 0) &&
         (negb rfired || bool_decide (wfileProc fe <> rfileProc fe))
      then call_file (wfileProc fe) fd (fe_clientData fe) mask s
      else Done s
  end.

Fixpoint dispatch_loop (n : nat) (j : Z) (s : state) : exec state :=
  match n with O => Done s | S n => let* s := dispatch j s in dispatch_loop n (j + 1) s end.

Definition aeProcessEvents (s : state) : exec (Z * state) :=
  if maxfd (el s) =? -1 then Done (0, s)
  else
    let* (numevents, s) := aeApiPoll (Some (mkTv 0 5)) s in
    let* s := dispatch_loop (Z.to_nat numevents) 0 s in
    Done (Z.max 0 numevents, s).

(** ** Time events *)

(** A program on the nodes. *)
Definition on_tree {A} (p : prog A) (s : state) : exec (A * state) :=
  let* (a, h) := p (nodes s) in Done (a, set_nodes h s).

Definition timeout_of (tm : gmap loc aeTimeEvent) (a : loc) : timeval :=
  from_option timeout (mkTv 0 0) (tm !! a).
Definition compare (tm : gmap loc aeTimeEvent) (a b : loc) : Z :=
  if timer_lt (timeout_of tm a) (timeout_of tm b) then -1
  else if timer_lt (timeout_of tm b) (timeout_of tm a) then 1
  else if (a <? b)%positive then -1
  else if (b <? a)%positive then 1
  else 0.

Definition aeCreateTimeEvent (tv : option timeval) (proc : Proc) (data : option Data) (mask : Z) (s : state) :
    exec (Z * state) :=
  match tv with
  | None => Done (AE_ERR, s)
  | Some tv =>
    match malloc (nodes s) with
    | None => Done (AE_ERR, s)
    | Some te =>
        let s := set_nodes (<[te := garbage]> (nodes s)) s in
        let (now, k) := gettimeofday (kern s) in
        let s := set_kern k s in
        let* timeout := timeradd now tv in
        let s := set_timers (<[te := mkTimeEvent timeout tv proc mask None]> (timers s)) s in
        let* (_, root, s) := on_tree (RB_INSERT (compare (timers s)) (timetree (el s)) te) s in
        Done (AE_OK, set_el (set_timetree root (el s)) s)
    end
  end.

Fixpoint time_loop (fuel : nat) (now : timeval) (te : ptr) (s : state) : exec state :=
  match te, fuel with
  | None, _ => Done s
  | _, O => NoFuel
  | Some a, S fuel =>
    let* e := match timers s !! a with Some e => Done e | None => UB end in
    if timer_lt now (timeout e) then Done s
    else
      let* (next, s) := on_tree (RB_NEXT te) s in
      let* (retval, s) := run_time (timeProc e) (te_clientData e) s in
      let* s :=
        (if retval =? AE_NOMORE then Done s
         else
           let* e := match timers s !! a with Some e => Done e | None => UB end in
           let* (_, s) := aeCreateTimeEvent (Some (te_tv e)) (timeProc e) (te_clientData e) 0 s in
           Done s) in
      let* (_, root, s) := on_tree (RB_REMOVE (timetree (el s)) te) s in
      time_loop fuel now next (set_el (set_timetree root (el s)) s)
  end.

Definition aeProcessTimeEvents (fuel : nat) (s : state) : exec state :=
  let (now, k) := gettimeofday (kern s) in
  let s := set_kern k s in
  let* (te, s) := on_tree (RB_MIN (timetree (el s))) s in
  time_loop fuel now te s.

Fixpoint correct_loop (fuel : nat) (off : timeval) (ev : ptr) (s : state) : exec state :=
  match ev, fuel with
  | None, _ => Done s
  | _, O => NoFuel
  | Some a, S fuel =>
    let* e := match timers s !! a with Some e => Done e | None => UB end in
    let* t := timersub (timeout e) off in
    let s := set_timers (<[a := mkTimeEvent t (te_tv e) (timeProc e) (te_mask e) (te_clientData e)]> (timers s)) s in
    let* (next, s) := on_tree (RB_NEXT ev) s in
    correct_loop fuel off next s
  end.
Definition timeout_correct (off : timeval) (s : state) : exec state :=
  let* (ev, s) := on_tree (RB_MIN (timetree (el s))) s in
  correct_loop (S (size (nodes s))) off ev s.

(** ** The main loop *)

Fixpoint main_loop (fuel : nat) (s : state) : exec state :=
  if stop (el s) =? 0 then
    match fuel with
    | O => NoFuel
    | S fuel =>
      let* (_, s) := aeProcessEvents s in
      let* s := aeProcessTimeEvents fuel s in
      main_loop fuel s
    end
  else Done s.
Definition aeMain (fuel : nat) (s : state) : exec state := main_loop fuel (set_el (set_stop 0 (el s)) s).

End Loop.
End Ae.
Import Ae.

(** * What the kernel promises *)

(** A time in microseconds; a time whose members are in range. *)
Definition us (t : timeval) : Z := tv_sec t * 1000000 + tv_usec t.
Definition normal (t : timeval) : Prop := - 2 ^ 62 <= tv_sec t < 2 ^ 62 /\ 0 <= tv_usec t < 1000000.
Definition span (t : timeval) : Prop := normal t /\ 0 < us t < 2 ^ 60.

(** The documented behaviour of epoll (the events registered for a descriptor, what
    makes a call fail, what may be reported); reading the clock is nothing to it. *)
Class SystemLaws `{System} := {
  interest : os -> Z -> option Z;
  ctl_ok k op fd e u k' : epoll_ctl k op fd e = (Some u, k') ->
    match op with EPOLL_CTL_ADD => interest k fd = None | _ => is_Some (interest k fd) end /\
    forall x, interest k' x =
      if decide (x = fd) then match op with EPOLL_CTL_DEL => None | _ => Some e end else interest k x;
  ctl_err k op fd e k' : epoll_ctl k op fd e = (None, k') -> forall x, interest k' x = interest k x;
  wait_interest k max ms r k' : epoll_wait k max ms = (r, k') -> forall x, interest k' x = interest k x;
  wait_ok k max ms es k' : epoll_wait k max ms = (Some es, k') -> zlen es <= max /\
    Forall (fun '(fd, e) => exists m, interest k fd = Some m /\ Z.land e (Z.lnot (Z.lor m (Z.lor EPOLLERR EPOLLHUP))) = 0) es;
  time_interest k t k' : gettimeofday k = (t, k') -> forall x, interest k' x = interest k x
}.

(** Two assumptions on the clock, which the documentation of [gettimeofday] does not
    promise.  It is set to a time after the Epoch and before 2^60 microseconds (some
    36,500 years) of it; *)
Class SetClock `{System} := {
  time_set k t k' : gettimeofday k = (t, k') -> normal t /\ 0 <= us t < 2 ^ 60
}.
(** and nobody sets it back: every answer is at least the one before. *)
Class SteadyClock `{System} := {
  clock : os -> Z;
  time_steady k t k' : gettimeofday k = (t, k') -> clock k <= us t /\ clock k' = us t
}.

(** ** What epoll is told and tells, by the bits of Linux: 0x001 is EPOLLIN, 0x004
    EPOLLOUT, 0x008 EPOLLERR and 0x010 EPOLLHUP; bit 0 of a mask of the loop is the
    direction of reading, bit 1 the one of writing. *)

(** The events waited for on a descriptor with a mask. *)
Definition waits (mask : Z) : Z :=
  (if Z.testbit mask 0 then 0x001 else 0) + (if Z.testbit mask 1 then 0x004 else 0).
(** What an event makes ready: errors and hang-ups count as writable. *)
Definition reads (e : Z) : bool := Z.testbit e 0.
Definition writes (e : Z) : bool := Z.testbit e 2 || Z.testbit e 3 || Z.testbit e 4.
Definition directions (e : Z) : Z := (if reads e then 1 else 0) + (if writes e then 2 else 0).

Module AeSpec.
Section Spec.
Context {Proc Data Env : Type} `{EqDecision Proc} `{SystemLaws} `{Malloc rb_entry}.
Abbreviation state := (@Ae.state Proc Data Env _).
Abbreviation eventLoop := (@Ae.aeEventLoop Proc Data).
Abbreviation fileEvent := (@Ae.aeFileEvent Proc Data).
Abbreviation timeEvent := (@Ae.aeTimeEvent Proc Data).
Implicit Types (s : state) (fe : fileEvent).

(** ** Registered descriptors *)

Lemma land_bit x k : 0 <= k -> (Z.land x (2 ^ k) =? 0) = negb (Z.testbit x k).
Proof.
  intros Hk. destruct (Z.testbit x k) eqn:E; cbn.
  - apply Z.eqb_neq. intros H0'. assert (Z.testbit (Z.land x (2 ^ k)) k = false) as E' by (rewrite H0'; apply Z.bits_0).
    by rewrite Z.land_spec, E, Z.pow2_bits_true in E'.
  - apply Z.eqb_eq, Z.bits_inj'. intros i Hi. rewrite Z.land_spec, Z.bits_0. destruct (decide (i = k)) as [-> |].
    + by rewrite E.
    + by rewrite Z.pow2_bits_false, andb_false_r.
Qed.

Lemma ee_events_waits m : ee_events m = waits m.
Proof.
  unfold ee_events, waits. change AE_READABLE with (2 ^ 0). change AE_WRITABLE with (2 ^ 1).
  rewrite (land_bit m 0), (land_bit m 1) by done.
  by destruct (Z.testbit m 0), (Z.testbit m 1).
Qed.

Lemma fire_mask_directions e : fire_mask e = directions e.
Proof.
  unfold fire_mask, directions, reads, writes. change EPOLLIN with (2 ^ 0).
  change EPOLLOUT with (2 ^ 2). change EPOLLERR with (2 ^ 3). change EPOLLHUP with (2 ^ 4).
  rewrite (land_bit e 0), (land_bit e 2), (land_bit e 3), (land_bit e 4) by done.
  by destruct (Z.testbit e 0), (Z.testbit e 2), (Z.testbit e 3), (Z.testbit e 4).
Qed.

(** What epoll knows of a descriptor is what its entry says. *)
Definition file_ok (l : eventLoop) (k : os) (fd : Z) fe : Prop :=
  0 <= fe_mask fe < 4 /\
  (fe_mask fe = AE_NONE -> interest k fd = None) /\
  (fe_mask fe <> AE_NONE -> interest k fd = Some (waits (fe_mask fe)) /\ fd <= maxfd l) /\
  (Z.land (fe_mask fe) AE_READABLE <> 0 -> is_Some (rfileProc fe)) /\
  (Z.land (fe_mask fe) AE_WRITABLE <> 0 -> is_Some (wfileProc fe)).
Definition loop_ok (l : eventLoop) (k : os) : Prop :=
  zlen (events l) = setsize l /\ zlen (fired l) = setsize l /\
  (forall fd fe, 0 <= fd -> events l !! Z.to_nat fd = Some fe -> file_ok l k fd fe) /\
  (forall fd, interest k fd <> None -> 0 <= fd < setsize l).

Lemma at_index_spec {A} (l : list A) i a : at_index l i = Done a <-> 0 <= i /\ l !! Z.to_nat i = Some a.
Proof.
  unfold at_index. destruct (Z.leb_spec 0 i); [| split; [done | lia]].
  destruct (l !! Z.to_nat i); split; [intros [= ->]; done | intros [_ [= ->]]; done | done | intros [_ ?]; done].
Qed.

Lemma at_index_lt {A} (l : list A) i : 0 <= i < zlen l -> exists a, at_index l i = Done a /\ l !! Z.to_nat i = Some a.
Proof.
  intros [Hi0 Hi1]. unfold zlen in Hi1. destruct (lookup_lt_is_Some_2 l (Z.to_nat i)) as [a Ha]; [lia |].
  exists a. split; [| done]. by apply at_index_spec.
Qed.

Lemma put_index_lt {A} (l : list A) i a : 0 <= i < zlen l -> put_index i a l = Done (<[Z.to_nat i := a]> l).
Proof. intros Hi. unfold put_index. by destruct (at_index_lt l i Hi) as (b & -> & _). Qed.

Lemma mask_cases (P : Z -> Prop) : P 0 -> P 1 -> P 2 -> P 3 -> forall m, 0 <= m < 4 -> P m.
Proof. intros H0' H1' H2' H3' m Hm. assert (m = 0 \/ m = 1 \/ m = 2 \/ m = 3) as [-> | [-> | [-> | ->]]] by lia; done. Qed.

Lemma mask_or m n : 0 <= m < 4 -> 0 < n < 4 -> 0 <= Z.lor m n < 4 /\ Z.lor m n <> AE_NONE.
Proof.
  intros Hm Hn. revert m Hm. assert (n = 1 \/ n = 2 \/ n = 3) as [-> | [-> | ->]] by lia; by apply mask_cases.
Qed.

Lemma old_bit m n d : Z.land n d = 0 -> Z.land (Z.lor m n) d <> 0 -> Z.land m d <> 0.
Proof. intros E Hm E2. apply Hm. by rewrite Z.land_lor_distr_l, E, E2. Qed.

(** The kernel's answer to a registration: the whole of the new state. *)
Lemma add_event_spec fd mask s fe : loop_ok (el s) (kern s) -> 0 <= fd < setsize (el s) ->
  events (el s) !! Z.to_nat fd = Some fe -> exists r k, aeApiAddEvent fd mask s = Done (r, set_kern k s) /\
  (r = -1 /\ (forall x, interest k x = interest (kern s) x) \/
   r = 0 /\ forall x, interest k x = if decide (x = fd) then Some (waits (Z.lor mask (fe_mask fe))) else interest (kern s) x).
Proof.
  intros (Hl & _ & _) Hfd Hfe. unfold aeApiAddEvent.
  rewrite (proj2 (at_index_spec (events (el s)) fd fe)) by (split; [lia | done]). cbn [ebind].
  destruct (epoll_ctl _ _ _ _) as [[u |] k] eqn:E; eexists _, k; (split; [done |]).
  - right. split; [done |]. destruct (ctl_ok _ _ _ _ _ _ E) as [_ Hk]. intros x. rewrite Hk, ee_events_waits. by destruct (fe_mask fe =? AE_NONE).
  - left. split; [done | by apply (ctl_err _ _ _ _ _ E)].
Qed.

(** [aeCreateFileEvent] either fails and changes nothing, or registers the
    descriptor for the directions asked for besides the ones it had. *)
Definition registered (l l' : eventLoop) (fd mask : Z) (proc : Proc) (data : option Data) : Prop :=
  exists fe, events l !! Z.to_nat fd = Some fe /\
  events l' = <[Z.to_nat fd := with_event mask proc data fe]> (events l) /\
  maxfd l' = Z.max (maxfd l) fd /\ setsize l' = setsize l /\ fired l' = fired l /\ timetree l' = timetree l /\ stop l' = stop l.

Lemma with_event_ok (l l' : eventLoop) k k' fd mask proc data fe : file_ok l k fd fe -> 0 < mask < 4 -> fd <= maxfd l' ->
  interest k' fd = Some (waits (Z.lor mask (fe_mask fe))) -> file_ok l' k' fd (with_event mask proc data fe).
Proof.
  intros (Hm & _ & _ & Hr & Hw) Hmask Hfd Hk. destruct (mask_or _ _ Hm Hmask) as [H3 H4].
  unfold file_ok, with_event. cbn [fe_mask rfileProc wfileProc].
  split; [done |]. split_and!.
  - done.
  - intros _. by rewrite Z.lor_comm.
  - intros HR. destruct (Z.eqb_spec (Z.land mask AE_READABLE) 0) as [E |]; [| eauto]. apply Hr. by eapply old_bit.
  - intros HW. destruct (Z.eqb_spec (Z.land mask AE_WRITABLE) 0) as [E |]; [| eauto]. apply Hw. by eapply old_bit.
Qed.

Lemma create_file_event_spec fd mask proc data s : loop_ok (el s) (kern s) -> 0 <= fd -> 0 < mask < 4 ->
  exists r s', aeCreateFileEvent fd mask proc data s = Done (r, s') /\ loop_ok (el s') (kern s') /\
  nodes s' = nodes s /\ timers s' = timers s /\ env s' = env s /\
  (forall x, x <> fd \/ r <> AE_OK -> interest (kern s') x = interest (kern s) x) /\
  (r = AE_ERR /\ el s' = el s \/ r = AE_OK /\ fd < setsize (el s) /\ registered (el s) (el s') fd mask proc data).
Proof.
  intros Hok Hfd Hmask. unfold aeCreateFileEvent. destruct (Z.leb_spec (setsize (el s)) fd) as [Hge | Hlt].
  { eexists _, _. split_and!; [done | exact Hok | done | done | done | done | by left]. }
  pose proof Hok as (Hl & Hf & Hfile & Hreg).
  destruct (at_index_lt (events (el s)) fd) as (fe & Ei & Hfe); [lia |].
  destruct (add_event_spec fd mask s fe Hok) as (r & k & E & Hr); [lia | done |]. rewrite E. cbn [ebind].
  destruct Hr as [[-> Hk] | [-> Hk]].
  - eexists _, _. split_and!; [done | | done | done | done | intros x _; apply Hk | by left]. cbn. split_and!; [done | done | |].
    + intros x fx Hx Hfx. unfold file_ok. rewrite Hk. by apply Hfile.
    + intros x. rewrite Hk. apply Hreg.
  - change (0 =? -1) with false. cbn [el set_kern]. rewrite Ei. cbn [ebind]. rewrite put_index_lt by lia. cbn [ebind].
    set (l := set_events _ (el s)). set (l' := if maxfd l <? fd then set_maxfd fd l else l).
    assert (events l' = <[Z.to_nat fd := with_event mask proc data fe]> (events (el s))) as He
      by (unfold l'; by destruct (maxfd l <? fd)).
    assert (maxfd l' = Z.max (maxfd (el s)) fd) as Hm
      by (unfold l'; change (maxfd (el s)) with (maxfd l); destruct (Z.ltb_spec (maxfd l) fd); cbn [maxfd set_maxfd]; lia).
    assert (setsize l' = setsize (el s) /\ fired l' = fired (el s) /\ timetree l' = timetree (el s) /\ stop l' = stop (el s))
      as (Hs & Hfi & Ht & Hst) by (unfold l'; by destruct (maxfd l <? fd)).
    eexists _, _. split_and!; [done | | done | done | done | | right; split_and!; [done | done | by exists fe]].
    2: { cbn [kern set_el set_kern]. intros x [Hx | Hx]; [by rewrite Hk, decide_False | by destruct Hx]. }
    cbn [el kern set_el set_kern]. split_and!.
    + rewrite He, Hs. unfold zlen in *. by rewrite length_insert.
    + by rewrite Hfi, Hs.
    + intros x fx Hx. rewrite He. destruct (decide (x = fd)) as [-> | Hne].
      * rewrite list_lookup_insert_eq by (by eapply lookup_lt_Some). intros [= <-].
        eapply (with_event_ok (el s)); [by apply Hfile | done | lia |]. by rewrite Hk, decide_True.
      * rewrite list_lookup_insert_ne by lia. intros Hfx. destruct (Hfile x fx Hx Hfx) as (H3 & H4 & H5 & H6 & H7).
        split_and!; [lia | lia | | | done | done]; rewrite Hk, decide_False by done; [done |].
        intros H8. destruct (H5 H8) as [H9 H10]. split; [done | lia].
    + intros x. rewrite Hk, Hs. case_decide; [subst; lia | apply Hreg].
Qed.

(** A sequence of registrations and their answers. *)
Fixpoint register_all (calls : list (Z * Z * Proc * option Data)) s : exec (list Z * state) :=
  match calls with
  | [] => Done ([], s)
  | (fd, mask, proc, data) :: calls =>
      let* (r, s) := aeCreateFileEvent fd mask proc data s in
      let* (rs, s) := register_all calls s in
      Done (r :: rs, s)
  end.
Lemma register_all_ok calls : forall s, loop_ok (el s) (kern s) ->
  Forall (fun '(fd, mask, _, _) => 0 <= fd /\ 0 < mask < 4) calls -> exists rs s',
  register_all calls s = Done (rs, s') /\ loop_ok (el s') (kern s').
Proof.
  induction calls as [| [[[fd mask] proc] data] calls IH]; intros s Hok Hc; cbn [register_all]; [by exists [], s |].
  apply Forall_cons in Hc as [[Hfd Hm] Hc].
  destruct (create_file_event_spec fd mask proc data s Hok Hfd Hm) as (r & s1 & E1 & Hok1 & _). rewrite E1. cbn [ebind].
  destruct (IH s1 Hok1 Hc) as (rs & s2 & E2 & Hok2). rewrite E2. by eexists _, s2.
Qed.

(** The directions granted to a descriptor. *)
Fixpoint granted (x : Z) (calls : list (Z * Z * Proc * option Data)) (rs : list Z) : Z :=
  match calls, rs with
  | (fd, mask, _, _) :: calls, r :: rs =>
      Z.lor (if bool_decide (fd = x /\ r = AE_OK) then mask else AE_NONE) (granted x calls rs)
  | _, _ => AE_NONE
  end.

Lemma register_all_granted calls : forall s, loop_ok (el s) (kern s) ->
  Forall (fun '(fd, mask, _, _) => 0 <= fd /\ 0 < mask < 4) calls -> exists rs s',
  register_all calls s = Done (rs, s') /\ loop_ok (el s') (kern s') /\ length rs = length calls /\
  forall x fe, 0 <= x -> events (el s) !! Z.to_nat x = Some fe -> exists fe',
    events (el s') !! Z.to_nat x = Some fe' /\ fe_mask fe' = Z.lor (fe_mask fe) (granted x calls rs) /\
    (granted x calls rs = 0 -> fe' = fe /\ interest (kern s') x = interest (kern s) x).
Proof.
  induction calls as [| [[[fd mask] proc] data] calls IH]; intros s Hok Hc; cbn [register_all granted].
  { exists [], s. split_and!; [done | done | done |]. intros x fe _ Hfe. exists fe. split; [done | by rewrite Z.lor_0_r]. }
  apply Forall_cons in Hc as [[Hfd Hm] Hc].
  destruct (create_file_event_spec fd mask proc data s Hok Hfd Hm) as (r & s1 & E1 & Hok1 & _ & _ & _ & Hk & Hr). rewrite E1. cbn [ebind].
  destruct (IH s1 Hok1 Hc) as (rs & s2 & E2 & Hok2 & Hlen & Hfe2). rewrite E2. cbn [ebind].
  exists (r :: rs), s2. split_and!; [done | done | cbn; lia |]. intros x fe Hx Hfe.
  destruct (decide (fd = x /\ r = AE_OK)) as [[-> ->] | Hno].
  - destruct Hr as [[? _] | (_ & Hlt & fe0 & Hfe0 & Hev & _)]; [done |].
    rewrite bool_decide_eq_true_2 by done. rewrite Hfe in Hfe0. injection Hfe0 as <-.
    destruct (Hfe2 x (with_event mask proc data fe) Hx) as (fe' & Hfe' & Hmask & _).
    { rewrite Hev. apply list_lookup_insert_eq. by eapply lookup_lt_Some. }
    exists fe'. split_and!; [done | rewrite Hmask; cbn; by rewrite Z.lor_assoc |].
    intros E. apply Z.lor_eq_0_iff in E as [E _]. lia.
  - rewrite bool_decide_eq_false_2 by done. rewrite Z.lor_0_l. rewrite <- (Hk x) by (destruct (decide (x = fd)); [right | left]; naive_solver).
    apply Hfe2; [done |]. destruct Hr as [[-> ->] | (-> & Hlt & fe0 & Hfe0 & Hev & _)]; [done |].
    rewrite Hev, list_lookup_insert_ne; [done |]. intros E. apply Hno. split; [lia | done].
Qed.

(** C26: after any sequence of registrations of descriptors that are not negative, for
    reading, writing or both, on a loop that agrees with epoll at first, and whatever
    epoll answers, the entry of every descriptor
    has just the directions that were granted to it besides those it had, and epoll
    waits for exactly these: for 0x001 (EPOLLIN) if and only if the mask has the
    direction of reading, for 0x004 (EPOLLOUT) if and only if it has the one of
    writing, and for nothing if it has none.  A descriptor for which no call succeeded
    keeps its whole entry, and epoll waits for what it waited for on it. *)
Theorem registrations_agree calls : forall s, loop_ok (el s) (kern s) ->
  Forall (fun '(fd, mask, _, _) => 0 <= fd /\ 0 < mask < 4) calls -> exists rs s',
  register_all calls s = Done (rs, s') /\ loop_ok (el s') (kern s') /\ length rs = length calls /\
  forall x fe, 0 <= x -> events (el s) !! Z.to_nat x = Some fe -> exists fe',
    events (el s') !! Z.to_nat x = Some fe' /\ fe_mask fe' = Z.lor (fe_mask fe) (granted x calls rs) /\
    interest (kern s') x = (if fe_mask fe' =? 0 then None else Some (waits (fe_mask fe'))) /\
    (granted x calls rs = 0 -> fe' = fe /\ interest (kern s') x = interest (kern s) x).
Proof.
  intros s Hok Hc. destruct (register_all_granted calls s Hok Hc) as (rs & s' & E & Hok' & Hlen & Hfe).
  exists rs, s'. split_and!; [done | done | done |]. intros x fe Hx Hx1.
  destruct (Hfe x fe Hx Hx1) as (fe' & Hfe' & Hmask & Hsame). exists fe'. split_and!; [done | done | | done].
  pose proof Hok' as (_ & _ & Hfile & _). destruct (Hfile x fe' Hx Hfe') as (_ & Hn & Hs & _).
  destruct (Z.eqb_spec (fe_mask fe') 0) as [Ez | Ez]; [by apply Hn | by apply Hs].
Qed.

(** Nothing takes a descriptor out of the loop again, so that its entry keeps its
    mask after it has been closed (when epoll forgets it): a new descriptor with the
    same number cannot be registered any more, with any callback, at any later time. *)
Lemma closed_fd_stuck fd mask proc data s fe : 0 <= fd < setsize (el s) ->
  events (el s) !! Z.to_nat fd = Some fe -> fe_mask fe <> AE_NONE -> interest (kern s) fd = None ->
  exists s', aeCreateFileEvent fd mask proc data s = Done (AE_ERR, s') /\ el s' = el s /\ interest (kern s') fd = None.
Proof.
  intros Hfd Hfe Hm Hk. unfold aeCreateFileEvent. rewrite (proj2 (Z.leb_gt _ _)) by lia. unfold aeApiAddEvent.
  rewrite (proj2 (at_index_spec (events (el s)) fd fe)) by (split; [lia | done]). cbn [ebind].
  rewrite (proj2 (Z.eqb_neq _ _) Hm). destruct (epoll_ctl _ _ _ _) as [[u |] k] eqn:E; cbn.
  - destruct (ctl_ok _ _ _ _ _ _ E) as [[m Hm'] _]. by rewrite Hk in Hm'.
  - eexists. split_and!; [done | done |]. cbn. by rewrite (ctl_err _ _ _ _ _ E).
Qed.

(** ** Dispatch *)

Section Dispatch.
Context (run_file : Proc -> Z -> option Data -> Z -> state -> exec state).

(** What the poll leaves in the array [fired]. *)
Definition fires (es : list (Z * Z)) : list (option aeFireEvent) :=
  (fun '(fd, e) => Some (mkFireEvent fd (directions e))) <$> es.
Lemma fire_loop_spec es : forall done rest, zlen es <= zlen rest ->
  fire_loop (zlen done) es (done ++ rest) = Done (done ++ fires es ++ drop (length es) rest).
Proof.
  induction es as [| [fd e] es IH]; intros l rest Hl; cbn [fire_loop]; [done |].
  rewrite fire_mask_directions. rewrite zlen_cons in Hl. destruct rest as [| r rest]; [unfold zlen in Hl; cbn in Hl; lia |]. rewrite zlen_cons in Hl.
  rewrite put_index_lt by (unfold zlen in *; rewrite length_app; cbn; lia). cbn [ebind].
  unfold zlen at 2. rewrite Nat2Z.id, <- (Nat.add_0_r (length l)), insert_app_r. cbn [insert list_insert].
  replace (zlen l + 1) with (zlen (l ++ [Some (mkFireEvent fd (directions e))])) by (unfold zlen; rewrite length_app; cbn; lia).
  replace (l ++ Some (mkFireEvent fd (directions e)) :: rest) with ((l ++ [Some (mkFireEvent fd (directions e))]) ++ rest) by by simplify_list_eq.
  rewrite IH by lia. by simplify_list_eq.
Qed.

(** The calls that a ready descriptor asks for: the callback of each direction that
    is ready and registered, and only one call when both are the same. *)
Definition calls_of (fe : fileEvent) (e : Z) : list (option Proc) :=
  match reads e && Z.testbit (fe_mask fe) 0, writes e && Z.testbit (fe_mask fe) 1 with
  | true, true => if decide (wfileProc fe = rfileProc fe) then [rfileProc fe] else [rfileProc fe; wfileProc fe]
  | true, false => [rfileProc fe]
  | false, true => [wfileProc fe]
  | false, false => []
  end.
Fixpoint run_calls (ps : list (option Proc)) (fd : Z) (data : option Data) (mask : Z) (s : state) : exec state :=
  match ps with
  | [] => Done s
  | p :: ps => let* s := call_file run_file p fd data mask s in run_calls ps fd data mask s
  end.
Fixpoint run_ready (l : eventLoop) (es : list (Z * Z)) (s : state) : exec state :=
  match es with
  | [] => Done s
  | (fd, e) :: es =>
      let* fe := at_index (events l) fd in
      let* s := run_calls (calls_of fe e) fd (fe_clientData fe) (directions e) s in
      run_ready l es s
  end.

(** Callbacks that leave the loop alone. *)
Definition quiet : Prop := forall p fd data mask s s', run_file p fd data mask s = Done s' -> el s' = el s.

Lemma call_quiet p fd data mask s s' : quiet -> call_file run_file p fd data mask s = Done s' -> el s' = el s.
Proof. intros Hq. unfold call_file. destruct p; [apply Hq | done]. Qed.

Lemma run_calls_quiet ps fd data mask : quiet -> forall s s', run_calls ps fd data mask s = Done s' -> el s' = el s.
Proof.
  intros Hq. induction ps as [| p ps IH]; intros s s'; cbn [run_calls]; [by intros [= <-] |].
  destruct (call_file _ _ _ _ _ _) as [s1 | |] eqn:E; cbn; [| done ..]. intros E2.
  by rewrite (IH _ _ E2), (call_quiet _ _ _ _ _ _ Hq E).
Qed.

Lemma ready_reads m e : (Z.land (Z.land m (fire_mask e)) AE_READABLE =? 0) = negb (reads e && Z.testbit m 0).
Proof.
  change AE_READABLE with (2 ^ 0). rewrite land_bit, Z.land_spec, fire_mask_directions by done.
  unfold directions. f_equal. rewrite andb_comm. f_equal. by destruct (reads e), (writes e).
Qed.
Lemma ready_writes m e : (Z.land (Z.land m (fire_mask e)) AE_WRITABLE =? 0) = negb (writes e && Z.testbit m 1).
Proof.
  change AE_WRITABLE with (2 ^ 1). rewrite land_bit, Z.land_spec, fire_mask_directions by done.
  unfold directions. f_equal. rewrite andb_comm. f_equal. by destruct (reads e), (writes e).
Qed.

Lemma dispatch_calls j s fd e : quiet -> at_index (fired (el s)) j = Done (Some (mkFireEvent fd (directions e))) ->
  dispatch run_file j s =
    (let* fe := at_index (events (el s)) fd in run_calls (calls_of fe e) fd (fe_clientData fe) (directions e) s).
Proof.
  intros Hq Hj. rewrite <- fire_mask_directions in Hj. unfold dispatch. rewrite Hj. cbn [ebind fired_fd fired_mask].
  destruct (at_index (events (el s)) fd) as [fe | |] eqn:Efe; cbn [ebind]; [| done ..].
  rewrite ready_reads. unfold calls_of. destruct (reads e && Z.testbit (fe_mask fe) 0) eqn:Er; cbn [negb];
    rewrite fire_mask_directions.
  - destruct (call_file _ (rfileProc fe) _ _ _ _) as [s1 | |] eqn:E1; cbn [ebind].
    2, 3: destruct (writes e && _); [case_decide |]; cbn; by rewrite E1.
    rewrite (call_quiet _ _ _ _ _ _ Hq E1), Efe. cbn [ebind negb orb].
    rewrite <- fire_mask_directions at 1. rewrite ready_writes.
    destruct (writes e && _); cbn [andb negb].
    + destruct (decide (wfileProc fe = rfileProc fe)) as [Ep | Ep].
      * rewrite bool_decide_eq_false_2 by tauto. cbn. by rewrite E1.
      * rewrite bool_decide_eq_true_2 by done. cbn. rewrite E1. cbn. by destruct (call_file _ _ _ _ _ s1).
    + cbn. by rewrite E1.
  - cbn [ebind]. rewrite Efe. cbn [ebind negb orb]. rewrite <- fire_mask_directions at 1. rewrite ready_writes.
    destruct (writes e && _); cbn; [by destruct (call_file _ _ _ _ _ s) | done].
Qed.

Lemma dispatch_loop_spec es : forall done rest s, quiet -> fired (el s) = done ++ fires es ++ rest ->
  dispatch_loop run_file (length es) (zlen done) s = run_ready (el s) es s.
Proof.
  induction es as [| [fd e] es IH]; intros l rest s Hq Hf; cbn [length dispatch_loop run_ready]; [done |].
  rewrite (dispatch_calls _ _ fd e); [| done |].
  2: { apply at_index_spec. split; [unfold zlen; lia |]. unfold zlen. rewrite Hf, Nat2Z.id. by rewrite lookup_app_r, Nat.sub_diag by lia. }
  destruct (at_index (events (el s)) fd) as [fe | |]; cbn [ebind]; [| done ..].
  destruct (run_calls _ _ _ _ s) as [s1 | |] eqn:E; cbn [ebind]; [| done ..].
  rewrite <- (run_calls_quiet _ _ _ _ Hq _ _ E).
  replace (zlen l + 1) with (zlen (l ++ [Some (mkFireEvent fd (directions e))])) by (unfold zlen; rewrite length_app; cbn; lia).
  apply (IH _ rest); [done |]. rewrite (run_calls_quiet _ _ _ _ Hq _ _ E), Hf. by simplify_list_eq.
Qed.

(** C25: with callbacks that leave the loop alone, one round of [aeProcessEvents] on a
    loop that has a descriptor asks epoll what is ready without ever waiting (the five
    microseconds are rounded to 0 ms) and then makes exactly the calls that are due, in
    the order of the answer: for each descriptor the callback of every direction that is
    ready and registered, with the data of the descriptor and the ready directions, a
    callback shared by both directions once.  Ready for reading is what has the bit
    0x001 (EPOLLIN), ready for writing what has one of 0x004 (EPOLLOUT), 0x008 (EPOLLERR)
    and 0x010 (EPOLLHUP). *)
Theorem process_events_calls s : quiet -> loop_ok (el s) (kern s) -> maxfd (el s) <> -1 ->
  aeProcessEvents run_file s =
    match epoll_wait (kern s) (setsize (el s)) 0 with
    | (None, k) => Done (0, set_kern k s)
    | (Some es, k) =>
        let l := set_fired (fires es ++ drop (length es) (fired (el s))) (el s) in
        let* s := run_ready l es (set_el l (set_kern k s)) in
        Done (zlen es, s)
    end.
Proof.
  intros Hq (Hl & Hf & _) Hm. unfold aeProcessEvents. rewrite (proj2 (Z.eqb_neq _ _) Hm). unfold aeApiPoll.
  change (tv_sec (mkTv 0 5) * 1000 + tv_usec (mkTv 0 5) ÷ 1000) with 0.
  destruct (epoll_wait _ _ _) as [[es |] k] eqn:E; [| done]. cbn [ebind el set_kern].
  destruct (wait_ok _ _ _ _ _ E) as [Hes _].
  assert (zlen es <= zlen (fired (el s))) as Hle by lia.
  assert (fire_loop 0 es (fired (el s)) = Done (fires es ++ drop (length es) (fired (el s)))) as ->
    by exact (fire_loop_spec es [] (fired (el s)) Hle).
  cbn [ebind]. unfold zlen at 1. rewrite Nat2Z.id. set (s1 := set_el _ _).
  assert (dispatch_loop run_file (length es) 0 s1 = run_ready (el s1) es s1) as ->
    by (by apply (dispatch_loop_spec es [] (drop (length es) (fired (el s))))).
  subst s1. cbn [el set_el]. destruct (run_ready _ _ _); cbn; [| done ..]. do 2 f_equal. unfold zlen. lia.
Qed.

(** ** Safety *)

(** What dispatch relies on; closing a descriptor does not break it. *)
Definition file_safe fe : Prop :=
  (Z.land (fe_mask fe) AE_READABLE <> 0 -> is_Some (rfileProc fe)) /\
  (Z.land (fe_mask fe) AE_WRITABLE <> 0 -> is_Some (wfileProc fe)).
Definition loop_safe (l : eventLoop) (k : os) : Prop :=
  zlen (events l) = setsize l /\ zlen (fired l) = setsize l /\ Forall file_safe (events l) /\
  (forall fd, interest k fd <> None -> 0 <= fd < setsize l).

Lemma loop_ok_safe l k : loop_ok l k -> loop_safe l k.
Proof.
  intros (H1' & H2' & H3' & H4'). split_and!; [done | done | | done]. apply Forall_lookup. intros i fe Hi.
  destruct (H3' (Z.of_nat i) fe) as (_ & _ & _ & Hp); [lia | by rewrite Nat2Z.id | exact Hp].
Qed.

Lemma with_event_safe fe mask proc data : file_safe fe -> file_safe (with_event mask proc data fe).
Proof.
  intros [Hr Hw]. split; cbn; intros Hm; (case_match eqn:E; [apply Z.eqb_eq in E | eauto]);
    [apply Hr | apply Hw]; by eapply old_bit.
Qed.

(** Registering a descriptor is safe inside a callback. *)
Lemma create_file_event_safe fd mask proc data s : loop_safe (el s) (kern s) -> 0 <= fd -> exists r s',
  aeCreateFileEvent fd mask proc data s = Done (r, s') /\ loop_safe (el s') (kern s') /\ fired (el s') = fired (el s) /\
  setsize (el s') = setsize (el s) /\ nodes s' = nodes s /\ timers s' = timers s /\ timetree (el s') = timetree (el s).
Proof.
  intros Hok Hfd. unfold aeCreateFileEvent. destruct (Z.leb_spec (setsize (el s)) fd) as [Hge | Hlt].
  { eexists _, _. split_and!; done. }
  pose proof Hok as (Hl & Hf & Hp & Hreg). destruct (at_index_lt (events (el s)) fd) as (fe & Ei & Hfe); [lia |].
  unfold aeApiAddEvent. rewrite Ei. cbn [ebind]. destruct (epoll_ctl _ _ _ _) as [[u |] k] eqn:E.
  - cbn [ebind]. change (0 =? -1) with false. cbn [el set_kern]. rewrite Ei. cbn [ebind]. rewrite put_index_lt by lia. cbn [ebind].
    destruct (ctl_ok _ _ _ _ _ _ E) as [_ Hk]. set (l' := if _ <? fd then _ else _).
    assert (events l' = <[Z.to_nat fd := with_event mask proc data fe]> (events (el s)) /\ setsize l' = setsize (el s) /\
      fired l' = fired (el s) /\ timetree l' = timetree (el s)) as (He & Hs & Hfi & Htt) by (unfold l'; by destruct (_ <? fd)).
    eexists _, _. split_and!; [done | | exact Hfi | exact Hs | done | done | exact Htt]. cbn [el kern set_el set_kern]. split_and!.
    + rewrite He, Hs. unfold zlen in *. by rewrite length_insert.
    + by rewrite Hfi, Hs.
    + rewrite He. apply Forall_insert; [done |]. apply with_event_safe. by eapply Forall_lookup_1.
    + intros x. rewrite Hk, Hs. case_decide; [subst; lia | apply Hreg].
  - eexists _, _. split_and!; [done | | done | done | done | done | done]. cbn. split_and!; [done | done | done |].
    intros x. rewrite (ctl_err _ _ _ _ _ E). apply Hreg.
Qed.

(** Callbacks that return and keep a property [I] of the state, which is one that polling
    keeps. *)
Section Kept.
Context (I : state -> Prop) (I_safe : forall s, I s -> loop_safe (el s) (kern s)).
Context (I_kern : forall s k, I s -> (forall x, interest k x = interest (kern s) x) -> I (set_kern k s)).
Context (I_fired : forall s fs, I s -> zlen fs = setsize (el s) -> I (set_el (set_fired fs (el s)) s)).

Definition keeping : Prop := forall p fd data mask s, I s -> exists s',
  run_file p fd data mask s = Done s' /\ I s' /\ fired (el s') = fired (el s) /\ setsize (el s') = setsize (el s).

Lemma call_keeping p fd data mask s : keeping -> is_Some p -> I s -> exists s',
  call_file run_file p fd data mask s = Done s' /\ I s' /\ fired (el s') = fired (el s) /\ setsize (el s') = setsize (el s).
Proof. intros Hl [q ->] Hs. by apply Hl. Qed.

Lemma safe_at s fd : loop_safe (el s) (kern s) -> 0 <= fd < setsize (el s) -> exists fe,
  at_index (events (el s)) fd = Done fe /\ file_safe fe.
Proof.
  intros (Hl & _ & Hp & _) Hlt. destruct (at_index_lt (events (el s)) fd) as (fe & E & Hfe); [lia |].
  exists fe. split; [done | by eapply Forall_lookup_1].
Qed.

Lemma masked_bit m mask dir : Z.land (Z.land m mask) dir <> 0 -> Z.land m dir <> 0.
Proof. intros Hn E. apply Hn. rewrite <- Z.land_assoc, (Z.land_comm mask), Z.land_assoc, E. apply Z.land_0_l. Qed.

Lemma dispatch_kept j s fd mask : keeping -> I s -> 0 <= fd < setsize (el s) ->
  at_index (fired (el s)) j = Done (Some (mkFireEvent fd mask)) -> exists s',
  dispatch run_file j s = Done s' /\ I s' /\ fired (el s') = fired (el s) /\ setsize (el s') = setsize (el s).
Proof.
  intros Hlaw Hs Hfd Hj. unfold dispatch. rewrite Hj. cbn [ebind fired_fd fired_mask].
  destruct (safe_at s fd (I_safe s Hs) Hfd) as (fe & Efe & Hr & Hw). rewrite Efe. cbn [ebind].
  assert (exists s1, (if negb (Z.land (Z.land (fe_mask fe) mask) AE_READABLE =? 0)
      then call_file run_file (rfileProc fe) fd (fe_clientData fe) mask s else Done s) = Done s1 /\
    I s1 /\ fired (el s1) = fired (el s) /\ setsize (el s1) = setsize (el s)) as (s1 & E1 & Hs1 & Hf1 & Hz1).
  { destruct (Z.eqb_spec (Z.land (Z.land (fe_mask fe) mask) AE_READABLE) 0) as [E | E]; cbn [negb]; [by exists s |].
    apply call_keeping; [done | by eapply Hr, masked_bit | done]. }
  rewrite E1. cbn [ebind]. destruct (safe_at s1 fd (I_safe s1 Hs1) ltac:(lia)) as (fe1 & Efe1 & Hr1 & Hw1). rewrite Efe1. cbn [ebind].
  destruct (Z.eqb_spec (Z.land (Z.land (fe_mask fe1) mask) AE_WRITABLE) 0) as [E | E]; cbn [negb andb]; [by exists s1 |].
  match goal with |- context [if ?b then _ else _] => destruct b end; [| by exists s1].
  destruct (call_keeping (wfileProc fe1) fd (fe_clientData fe1) mask s1 Hlaw) as (s2 & E2 & Hs2 & Hf2 & Hz2);
    [by eapply Hw1, masked_bit | done |].
  exists s2. split_and!; [done | done | congruence | congruence].
Qed.

Lemma dispatch_loop_kept es : forall done rest s, keeping -> I s ->
  fired (el s) = done ++ fires es ++ rest -> Forall (fun '(fd, _) => 0 <= fd < setsize (el s)) es -> exists s',
  dispatch_loop run_file (length es) (zlen done) s = Done s' /\ I s'.
Proof.
  induction es as [| [fd e] es IH]; intros l rest s Hlaw Hs Hf He; cbn [length dispatch_loop]; [by exists s |].
  apply Forall_cons in He as [Hfd He].
  destruct (dispatch_kept (zlen l) s fd (directions e) Hlaw Hs Hfd) as (s1 & E1 & Hs1 & Hf1 & Hz1).
  { apply at_index_spec. split; [unfold zlen; lia |]. unfold zlen. rewrite Hf, Nat2Z.id. by rewrite lookup_app_r, Nat.sub_diag by lia. }
  rewrite E1. cbn [ebind].
  replace (zlen l + 1) with (zlen (l ++ [Some (mkFireEvent fd (directions e))])) by (unfold zlen; rewrite length_app; cbn; lia).
  apply (IH _ rest); [done | done | rewrite Hf1, Hf; by simplify_list_eq | by rewrite Hz1].
Qed.

Lemma process_events_kept s : keeping -> I s -> exists n s', aeProcessEvents run_file s = Done (n, s') /\ I s'.
Proof.
  intros Hlaw Hs. pose proof (I_safe s Hs) as (Hl & Hf & Hp & Hreg). unfold aeProcessEvents.
  destruct (maxfd (el s) =? -1); [by exists 0, s |]. unfold aeApiPoll.
  destruct (epoll_wait _ _ _) as [r k] eqn:E. pose proof (wait_interest _ _ _ _ _ E) as Hk.
  pose proof (I_kern s k Hs Hk) as Hs1. destruct r as [es |]; cbn [ebind]; [| by eexists _, _].
  destruct (wait_ok _ _ _ _ _ E) as [Hes Hfds]. cbn [el set_kern].
  assert (zlen es <= zlen (fired (el s))) as Hle by lia.
  assert (fire_loop 0 es (fired (el s)) = Done (fires es ++ drop (length es) (fired (el s)))) as ->
    by exact (fire_loop_spec es [] (fired (el s)) Hle).
  cbn [ebind]. unfold zlen at 1. rewrite Nat2Z.id. set (s1 := set_el _ _).
  destruct (dispatch_loop_kept es [] (drop (length es) (fired (el s))) s1) as (s2 & E2 & Hs2); [done | | done | |].
  - apply (I_fired (set_kern k s)); [done |]. cbn [el set_kern]. unfold zlen in *.
    rewrite length_app, length_drop. unfold fires. rewrite length_fmap. lia.
  - eapply Forall_impl; [exact Hfds |]. intros [fd e] (m & Hm & _). cbn. apply Hreg. by rewrite Hm.
  - change (dispatch_loop run_file (length es) 0 s1 = Done s2) in E2. rewrite E2. by eexists _, s2.
Qed.
End Kept.

(** Callbacks that return, after anything that is safe. *)
Definition lawful : Prop := keeping (fun s => loop_safe (el s) (kern s)).

(** A round of [aeProcessEvents] never calls a callback that was not set and never
    leaves its arrays, whatever the callbacks do that is safe itself (registering
    more descriptors is, closing one is), and leaves a loop that is safe again. *)
Theorem process_events_safe s : lawful -> loop_safe (el s) (kern s) -> exists n s',
  aeProcessEvents run_file s = Done (n, s') /\ loop_safe (el s') (kern s').
Proof.
  apply (process_events_kept (fun s => loop_safe (el s) (kern s))).
  - done.
  - intros s0 k (H1' & H2' & H3' & H4') Hk. split_and!; [done | done | done |]. intros fd. cbn. rewrite Hk. apply H4'.
  - by intros s0 fs (H1' & H2' & H3' & H4') Hfs.
Qed.

End Dispatch.

(** ** Times *)

Lemma timer_lt_us a b : normal a -> normal b -> timer_lt a b = (us a <? us b).
Proof.
  intros [_ Ha] [_ Hb]. unfold timer_lt, us. apply eq_true_iff_eq.
  destruct (Z.eqb_spec (tv_sec a) (tv_sec b)); rewrite !Z.ltb_lt; lia.
Qed.

Lemma ck_int64_done z : - 2 ^ 63 <= z < 2 ^ 63 -> ck_int64 z = Done z.
Proof. intros Hz. apply ck_int64_ok. zlia. Qed.

Lemma timeradd_spec a b : normal a -> normal b -> 0 <= us a < 2 ^ 60 -> 0 <= us b < 2 ^ 60 -> exists c,
  timeradd a b = Done c /\ normal c /\ us c = us a + us b.
Proof.
  intros [Ha1 Ha2] [Hb1 Hb2] Ha Hb. unfold timeradd, normal, us in *.
  rewrite !ck_int64_done by lia. cbn [ebind]. destruct (Z.leb_spec 1000000 (tv_usec a + tv_usec b)).
  - rewrite ck_int64_done by lia. cbn [ebind]. eexists. split; [done |]. cbn. lia.
  - eexists. split; [done |]. cbn. lia.
Qed.

Lemma timersub_spec a b : normal a -> normal b -> 0 <= us a < 2 ^ 61 -> 0 <= us b < 2 ^ 60 -> exists c,
  timersub a b = Done c /\ normal c /\ us c = us a - us b.
Proof.
  intros [Ha1 Ha2] [Hb1 Hb2] Ha Hb. unfold timersub, normal, us in *.
  rewrite !ck_int64_done by lia. cbn [ebind]. destruct (Z.ltb_spec (tv_usec a - tv_usec b) 0).
  - rewrite ck_int64_done by lia. cbn [ebind]. eexists. split; [done |]. cbn. lia.
  - eexists. split; [done |]. cbn. lia.
Qed.

(** ** The order of timers *)

Lemma timer_lt_irrefl a : timer_lt a a = false.
Proof. unfold timer_lt. rewrite Z.eqb_refl. apply Z.ltb_irrefl. Qed.
Lemma timer_lt_cases a b : timer_lt a b = true <-> tv_sec a < tv_sec b \/ tv_sec a = tv_sec b /\ tv_usec a < tv_usec b.
Proof. unfold timer_lt. destruct (Z.eqb_spec (tv_sec a) (tv_sec b)); rewrite Z.ltb_lt; lia. Qed.

Lemma compare_lt (tm : gmap loc timeEvent) a b : compare tm a b < 0 <->
  timer_lt (timeout_of tm a) (timeout_of tm b) = true \/
  timer_lt (timeout_of tm b) (timeout_of tm a) = false /\ (a < b)%positive.
Proof.
  unfold compare. destruct (timer_lt (timeout_of tm a) (timeout_of tm b)) eqn:E1; [split; [by left | lia] |].
  destruct (timer_lt (timeout_of tm b) (timeout_of tm a)) eqn:E2; [split; [lia | intros [? | [? _]]; done] |].
  destruct (Pos.ltb_spec a b); [split; [by right | lia] |]. destruct (Pos.ltb_spec b a); (split; [lia | intros [? | [_ ?]]; [done | lia]]).
Qed.

Lemma compare_flip (tm : gmap loc timeEvent) a b : compare tm a b = - compare tm b a.
Proof.
  unfold compare. destruct (timer_lt (timeout_of tm a) (timeout_of tm b)) eqn:E1, (timer_lt (timeout_of tm b) (timeout_of tm a)) eqn:E2;
    try done.
  - apply timer_lt_cases in E1, E2. lia.
  - destruct (Pos.ltb_spec a b), (Pos.ltb_spec b a); lia.
Qed.

#[export] Instance compare_ordering (tm : gmap loc timeEvent) : Ordering (compare tm).
Proof.
  split.
  - intros a b. rewrite compare_flip. lia.
  - intros a b c Hab Hbc. destruct (Z.le_gt_cases (compare tm a c) 0) as [| Hac]; [done |].
    rewrite compare_flip in Hac. assert (compare tm c a < 0) as Hca by lia.
    apply compare_lt in Hca.
    assert (~ compare tm b a < 0) as Hba by (rewrite compare_flip in Hab; lia).
    assert (~ compare tm c b < 0) as Hcb by (rewrite compare_flip in Hbc; lia).
    rewrite compare_lt in Hba, Hcb. revert Hca Hba Hcb. rewrite <- !not_true_iff_false, !timer_lt_cases. lia.
Qed.

Lemma compare_eq (tm : gmap loc timeEvent) a b : compare tm a b = 0 -> a = b.
Proof. unfold compare. repeat case_match; try done. destruct (Pos.ltb_spec a b), (Pos.ltb_spec b a); try done. lia. Qed.

Lemma compare_agree (tm tm' : gmap loc timeEvent) a b : tm !! a = tm' !! a -> tm !! b = tm' !! b ->
  compare tm a b = compare tm' a b.
Proof. intros Ha Hb. unfold compare, timeout_of. by rewrite Ha, Hb. Qed.

Lemma sorted_agree (cmp cmp' : loc -> loc -> Z) l : (forall a b, a ∈ l -> b ∈ l -> cmp a b = cmp' a b) ->
  sorted cmp l -> sorted cmp' l.
Proof.
  intros Hag Hs. induction Hs as [| a l Hs IH Ha]; constructor.
  - apply IH. intros x y Hx Hy. apply Hag; by right.
  - rewrite Forall_forall in *. intros b Hb. rewrite <- Hag; [by apply Ha | left | by right].
Qed.

Section Timers.
Context {rep : heap -> ptr -> list loc -> Prop} `{!OrderedSet rep}.

(** The timers of the loop, in order.  [compare] is the order by their timeouts. *)
Definition timers_ok s (l : list loc) : Prop :=
  rep (nodes s) (timetree (el s)) l /\ sorted (compare (timers s)) l /\
  (forall a, a ∈ l -> is_Some (timers s !! a)) /\ dom (timers s) = dom (nodes s).

Lemma timers_ok_env s l e : timers_ok s l -> timers_ok (set_env e s) l.
Proof. done. Qed.

(** What a node has in it before it is used. *)
Context (garbage : rb_entry).

(** [aeCreateTimeEvent] where there is memory: the new timer goes to its place; what
    the caller passes as [clientData] is not kept. *)
Lemma create_time_event_spec {clock_set : SetClock} tv proc data mask s l te :
  timers_ok s l -> normal tv -> 0 <= us tv < 2 ^ 60 -> malloc (nodes s) = Some te -> exists s' t lo hi,
  aeCreateTimeEvent garbage (Some tv) proc data mask s = Done (AE_OK, s') /\ l = lo ++ hi /\ timers_ok s' (lo ++ te :: hi) /\
  (te ∉ dom (timers s)) /\
  timers s' = <[te := mkTimeEvent t tv proc mask None]> (timers s) /\ normal t /\
  us t < 2 ^ 61 /\ (exists now, gettimeofday (kern s) = (now, kern s') /\ us t = us now + us tv) /\ env s' = env s /\
  el s' = set_timetree (timetree (el s')) (el s) /\ forall x, interest (kern s') x = interest (kern s) x.
Proof.
  intros (Hr & Hs & Hlive & Hdom) Hn Htv Hte. pose proof (malloc_fresh _ _ Hte) as Hfresh.
  assert (te ∉ dom (timers s)) as Hnd by (rewrite Hdom; by apply not_elem_of_dom).
  assert (te ∉ l) as Hnl by (intros Hi; apply Hnd, elem_of_dom, Hlive, Hi).
  unfold aeCreateTimeEvent. rewrite Hte. cbn [kern set_nodes].
  destruct (gettimeofday (kern s)) as [now k] eqn:Eg. destruct (time_set _ _ _ Eg) as (Hnow & Hus).
  destruct (timeradd_spec now tv Hnow Hn Hus Htv) as (t & Et & Hnt & Hut). rewrite Et. cbn [ebind].
  set (tm := <[te := mkTimeEvent t tv proc mask None]> (timers s)).
  assert (forall a b, a ∈ l -> b ∈ l -> compare (timers s) a b = compare tm a b) as Hag.
  { intros a b Ha Hb. apply compare_agree; unfold tm; rewrite lookup_insert_ne; try done; by intros ->. }
  pose proof (sorted_agree _ _ _ Hag Hs) as Hs'.
  unfold on_tree. cbn [nodes timers el set_nodes set_kern set_timers]. fold tm.
  destruct (os_insert (compare tm) (<[te := garbage]> (nodes s)) (timetree (el s)) l te) as
    [(a & Ha & Hc & _) | (Hne & h' & root' & E & Hr' & Hd')]; [by apply os_alloc | done | by eexists; apply lookup_insert_eq | |].
  { exfalso. apply compare_eq in Hc. by subst a. }
  rewrite E. cbn [ebind]. destruct (rb_sorted_add (compare tm) te l Hs' Hne) as (lo & hi & -> & El & Hsl).
  rewrite El in Hr', Hsl.
  eexists _, t, lo, hi. split_and!; [done | done | | done | done | done | lia | by exists now | done | done | apply (time_interest _ _ _ Eg)].
  split_and!; cbn [el nodes timers set_el set_nodes set_timers]; [exact Hr' | exact Hsl | |].
  - intros a Ha. unfold tm. destruct (decide (a = te)) as [-> | Hne']; [by eexists; apply lookup_insert_eq |].
    rewrite lookup_insert_ne by done. apply Hlive. set_solver.
  - unfold tm. by rewrite Hd', !dom_insert_L, Hdom.
Qed.

(** The timers that are due, and those that are not. *)
Definition is_due (now : timeval) (tm : gmap loc timeEvent) (a : loc) : Prop := timer_lt now (timeout_of tm a) = false.
#[export] Instance is_due_dec now tm a : Decision (is_due now tm a).
Proof. unfold is_due. apply _. Defined.
Definition due (now : timeval) (tm : gmap loc timeEvent) (l : list loc) : list loc := filter (is_due now tm) l.
Definition pending (now : timeval) (tm : gmap loc timeEvent) (l : list loc) : list loc := filter (fun a => ~ is_due now tm a) l.

Lemma later_sorted now tm a b : ~ is_due now tm a -> compare tm a b < 0 -> ~ is_due now tm b.
Proof.
  unfold is_due. rewrite compare_lt, <- !not_true_iff_false, !timer_lt_cases. lia.
Qed.

Lemma all_later now tm a l : sorted (compare tm) (a :: l) -> ~ is_due now tm a -> Forall (fun b => ~ is_due now tm b) (a :: l).
Proof.
  intros [_ Hl]%StronglySorted_inv Ha. constructor; [done |]. eapply Forall_impl; [exact Hl |]. intros b. by apply later_sorted.
Qed.

Lemma none_due now tm l : Forall (fun b => ~ is_due now tm b) l -> due now tm l = [] /\ pending now tm l = l.
Proof.
  induction 1 as [| a l Ha _ [IH1 IH2]]; [done |]. unfold due, pending in *.
  rewrite filter_cons_False, filter_cons_True by done. by rewrite IH1, IH2.
Qed.

Lemma due_empty now tm l : due now tm l = [] -> Forall (fun b => ~ is_due now tm b) l.
Proof.
  intros E. apply Forall_forall. intros b Hb Hd. apply (not_elem_of_nil b). rewrite <- E. unfold due. by apply list_elem_of_filter.
Qed.

Lemma due_agree now tm tm' l : (forall a, a ∈ l -> tm' !! a = tm !! a) ->
  due now tm' l = due now tm l /\ pending now tm' l = pending now tm l.
Proof.
  intros Hag. induction l as [| a l IH]; [done |]. destruct IH as [IH1 IH2]; [intros b Hb; apply Hag; by right |].
  assert (is_due now tm' a <-> is_due now tm a) as Ha by (unfold is_due, timeout_of; rewrite Hag; [done | left]).
  unfold due, pending in *. rewrite !filter_cons, IH1, IH2. by destruct (decide (is_due now tm' a)), (decide (is_due now tm a)); try tauto;
    destruct (decide (~ is_due now tm' a)), (decide (~ is_due now tm a)); try tauto.
Qed.

(** ** One round of timers *)

Section Round.
Context {clock_set : SetClock} {clock_steady : SteadyClock} (run_time : Proc -> option Data -> state -> exec (Z * state)).
(** Callbacks of timers that work on what is theirs, and what they answer. *)
Context (tcb : Proc -> option Data -> Env -> Z * Env).
Context (quiet_time : forall p d s, run_time p d s = Done ((tcb p d (env s)).1, set_env (tcb p d (env s)).2 s)).
(** There is memory for timers. *)
Context (plenty : forall h : heap, is_Some (malloc h)).

(** The callbacks of these timers, one after the other: the timers that go on. *)
Fixpoint run_due (es : list timeEvent) (e : Env) : list timeEvent * Env :=
  match es with
  | [] => ([], e)
  | x :: es =>
      let (r, e) := tcb (timeProc x) (te_clientData x) e in
      let (k, e) := run_due es e in
      (if r =? AE_NOMORE then k else x :: k, e)
  end.

(** A timer that goes on: a new one with the same callback and period, due a period
    after it was called at the earliest. *)
Definition renewal (now : timeval) (tm : gmap loc timeEvent) (a : loc) (x : timeEvent) : Prop :=
  exists t, tm !! a = Some (mkTimeEvent t (te_tv x) (timeProc x) 0 None) /\ us now + us (te_tv x) <= us t.

Definition spans (tm : gmap loc timeEvent) (l : list loc) : Prop :=
  forall a e, a ∈ l -> tm !! a = Some e -> span (te_tv e).

(** What a round leaves. *)
Definition round_ok (now : timeval) s (l : list loc) (kept : list timeEvent) (e : Env) s' : Prop :=
  exists l' fresh, timers_ok s' l' /\ Permutation l' (pending now (timers s) l ++ fresh) /\
    Forall2 (renewal now (timers s')) fresh kept /\ env s' = e /\ Forall (fun a => ~ is_due now (timers s') a) l' /\
    forall a, a ∈ dom (timers s) -> timers s' !! a = timers s !! a.

Definition events_of (tm : gmap loc timeEvent) (l : list loc) : list timeEvent := omap (tm !!.) l.

(** A timer that has been called is set again, or not. *)
Lemma renew_spec now s a ys e r : timers_ok s (a :: ys) -> timers s !! a = Some e -> is_due now (timers s) a ->
  span (te_tv e) -> normal now -> us now <= clock (kern s) -> exists s2 lo hi new,
  (if r =? AE_NOMORE then Done s
   else
     let* e := match timers s !! a with Some e => Done e | None => UB end in
     let* (_, s) := aeCreateTimeEvent garbage (Some (te_tv e)) (timeProc e) (te_clientData e) 0 s in
     Done s) = Done s2 /\
  ys = lo ++ hi /\ timers_ok s2 (a :: lo ++ new ++ hi) /\
  Forall2 (renewal now (timers s2)) new (if r =? AE_NOMORE then [] else [e]) /\
  Forall (fun b => ~ is_due now (timers s2) b) new /\ env s2 = env s /\ clock (kern s) <= clock (kern s2) /\
  (forall x, x ∈ dom (timers s) -> timers s2 !! x = timers s !! x) /\ Forall (fun b => b ∈ dom (timers s2)) new.
Proof.
  intros Ht Ha Hdue [Hn Htv] Hnow Hck. destruct (r =? AE_NOMORE).
  { exists s, ys, [], []. rewrite !app_nil_r. by split_and!. }
  rewrite Ha. cbn [ebind]. destruct (plenty (nodes s)) as [te Hte].
  destruct (create_time_event_spec (te_tv e) (timeProc e) (te_clientData e) 0 s _ te Ht Hn ltac:(lia) Hte)
    as (s2 & t & lo & hi & E & El & Ht2 & Hnd & Etm & Hnt & Hut & (now2 & Eg & Ht') & Henv & _).
  rewrite E. cbn [ebind]. destruct (time_steady _ _ _ Eg) as [Hck1 Hck2].
  assert (te <> a) as Hne by (intros ->; apply Hnd, elem_of_dom; eauto).
  assert (timers s2 !! te = Some (mkTimeEvent t (te_tv e) (timeProc e) 0 None)) as Hte2
    by (rewrite Etm; apply lookup_insert_eq).
  assert (~ is_due now (timers s2) te) as Hlater.
  { unfold is_due, timeout_of. rewrite Hte2. cbn. rewrite timer_lt_us, not_false_iff_true, Z.ltb_lt by done. lia. }
  assert (forall x, x ∈ dom (timers s) -> timers s2 !! x = timers s !! x) as Hag.
  { intros x Hx. rewrite Etm. apply lookup_insert_ne. by intros ->. }
  destruct lo as [| b lo]; cbn in El.
  - exfalso. subst hi. destruct Ht2 as (_ & [_ Hs]%StronglySorted_inv & _). apply Forall_cons in Hs as [Hs _].
    apply (later_sorted _ _ _ _ Hlater Hs). unfold is_due, timeout_of. rewrite Hag by (apply elem_of_dom; eauto). exact Hdue.
  - injection El as <- ->. exists s2, lo, hi, [te]. split_and!; try done; [| | lia |].
    + constructor; [| constructor]. exists t. split; [done | lia].
    + by constructor.
    + constructor; [| constructor]. apply elem_of_dom. eauto.
Qed.

Lemma head_all_later now tm l b : sorted (compare tm) l -> head l = Some b -> ~ is_due now tm b -> Forall (fun b => ~ is_due now tm b) l.
Proof. intros Hs Hb Hl. destruct l as [| c l]; [done |]. injection Hb as ->. by apply all_later. Qed.

(** One turn of the loop, at a timer that is due. *)
Lemma time_turn now s a ys e : timers_ok s (a :: ys) -> timers s !! a = Some e -> is_due now (timers s) a ->
  spans (timers s) (a :: ys) -> normal now -> us now <= clock (kern s) -> exists s' l' new,
  (forall fuel, time_loop run_time garbage (S fuel) now (Some a) s = time_loop run_time garbage fuel now (head ys) s') /\
  timers_ok s' l' /\ spans (timers s') l' /\ us now <= clock (kern s') /\
  (head ys = head l' \/ due now (timers s') l' = [] /\ forall b, head ys = Some b -> b ∈ l') /\
  due now (timers s') l' = due now (timers s) ys /\ Permutation (pending now (timers s') l') (new ++ pending now (timers s) ys) /\
  (forall x, x ∈ dom (timers s) -> timers s' !! x = timers s !! x) /\
  env s' = (tcb (timeProc e) (te_clientData e) (env s)).2 /\ Forall (fun b => b ∈ dom (timers s')) new /\
  Forall2 (renewal now (timers s')) new
    (if (tcb (timeProc e) (te_clientData e) (env s)).1 =? AE_NOMORE then [] else [e]).
Proof.
  intros Ht Ha Hdue Hsp Hnow Hck. set (r := tcb (timeProc e) (te_clientData e) (env s)).
  destruct (renew_spec now (set_env r.2 s) a ys e r.1 (timers_ok_env s _ r.2 Ht) Ha Hdue (Hsp a e ltac:(left) Ha) Hnow Hck)
    as (s2 & lo & hi & new & E & -> & Ht2 & Hren & Hlater & Henv & Hck2 & Hag & Hdom).
  cbn [timers set_env env kern] in Hag, Henv, Hck2. pose proof Ht2 as (Hr2 & Hs2 & Hlive2 & Hd2).
  destruct (os_remove _ _ [] _ _ Hr2) as (h3 & root3 & E3 & Hr3 & Hdh3).
  set (s3 := set_el (set_timetree root3 (el s2)) (set_nodes h3 s2)).
  assert (forall x, x ∈ a :: lo ++ hi -> timers s2 !! x = timers s !! x) as Hag'.
  { intros x Hx. apply Hag, elem_of_dom. by apply Ht. }
  assert (timers_ok s3 (lo ++ new ++ hi)) as Ht3.
  { split_and!; cbn; [exact Hr3 | by apply StronglySorted_inv in Hs2 as [? _] | intros x Hx; apply Hlive2; by right | by rewrite Hdh3]. }
  assert (due now (timers s2) (lo ++ hi) = due now (timers s) (lo ++ hi) /\
    pending now (timers s2) (lo ++ hi) = pending now (timers s) (lo ++ hi)) as [Hdl Hpl].
  { apply due_agree. intros x Hx. apply Hag'. by right. }
  destruct (none_due _ _ _ Hlater) as [Hn1 Hn2]. unfold due, pending in Hn1, Hn2, Hdl, Hpl. rewrite filter_app in Hdl, Hpl.
  exists s3, (lo ++ new ++ hi), new. split_and!.
  - intros fuel. cbn [time_loop]. rewrite Ha. cbn [ebind]. unfold is_due, timeout_of in Hdue. rewrite Ha in Hdue. cbn in Hdue. rewrite Hdue.
    unfold on_tree at 1. destruct Ht as (Hr & _). rewrite (os_next _ _ [] _ _ Hr). cbn [ebind].
    replace (set_nodes (nodes s) s) with s by (by destruct s). rewrite quiet_time. cbn [ebind fst snd]. fold r.
    rewrite E. cbn [ebind]. unfold on_tree. rewrite E3. done.
  - exact Ht3.
  - intros x f Hx Hf. cbn in Hf. apply elem_of_app in Hx as [Hx | [Hx | Hx]%elem_of_app].
    + rewrite Hag' in Hf by set_solver. apply (Hsp x); [set_solver | done].
    + apply Forall2_length in Hren as Hlen. destruct (r.1 =? AE_NOMORE).
      * destruct new; [by apply elem_of_nil in Hx | done].
      * apply Forall2_cons_inv_r in Hren as (b & ? & (t & Hb & _) & Hnil & ->). apply Forall2_nil_inv_r in Hnil as ->.
        apply list_elem_of_singleton in Hx as ->. rewrite Hb in Hf. injection Hf as <-. apply (Hsp a e); [left | done].
    + rewrite Hag' in Hf by set_solver. apply (Hsp x); [set_solver | done].
  - cbn. lia.
  - destruct lo as [| b lo]; [| by left]. destruct new as [| b new]; [by left |]. right. split; [| intros c Hc; destruct hi; set_solver].
    cbn [app] in Ht3. apply none_due, (head_all_later _ _ _ b); [exact (proj1 (proj2 Ht3)) | done |]. by apply Forall_cons in Hlater as [? _].
  - cbn. unfold due. by rewrite filter_app, filter_app, Hn1.
  - cbn. unfold pending. rewrite filter_app, filter_app, Hn2, <- Hpl. solve_Permutation.
  - exact Hag.
  - exact Henv.
  - exact Hdom.
  - exact Hren.
Qed.

Lemma renewal_mono now tm tm' new k : Forall2 (renewal now tm) new k -> Forall (fun b => b ∈ dom tm) new ->
  (forall x, x ∈ dom tm -> tm' !! x = tm !! x) -> Forall2 (renewal now tm') new k.
Proof.
  intros H2 Hn Hag. induction H2 as [| b x new k (t & Hb & Ht) _ IH]; constructor; apply Forall_cons in Hn as [Hb' Hn]; [| by apply IH].
  exists t. by rewrite Hag.
Qed.

Lemma time_loop_spec now fuel : normal now -> forall s l te, timers_ok s l -> spans (timers s) l -> us now <= clock (kern s) ->
  (te = head l \/ due now (timers s) l = [] /\ forall a, te = Some a -> a ∈ l) -> (length (due now (timers s) l) < fuel)%nat ->
  exists s', time_loop run_time garbage fuel now te s = Done s' /\
  let (kept, e) := run_due (events_of (timers s) (due now (timers s) l)) (env s) in round_ok now s l kept e s'.
Proof.
  intros Hnow. induction fuel as [| fuel IH]; intros s l te Ht Hsp Hck Hte Hf; [lia |].
  destruct (decide (due now (timers s) l = [])) as [Hd | Hd].
  - exists s. pose proof (due_empty _ _ _ Hd) as Hlate. destruct (none_due _ _ _ Hlate) as [_ Hp]. split.
    + destruct te as [a |]; cbn [time_loop]; [| done].
      assert (a ∈ l) as Ha by (destruct Hte as [Ha | [_ Ha]]; [destruct l; [done |]; injection Ha as ->; left | by apply Ha]).
      destruct Ht as (_ & _ & Hlive & _). destruct (Hlive a Ha) as [e He]. rewrite He. cbn [ebind].
      rewrite Forall_forall in Hlate. specialize (Hlate a Ha). unfold is_due, timeout_of in Hlate. rewrite He in Hlate. cbn in Hlate.
      apply not_false_iff_true in Hlate. by rewrite Hlate.
    + rewrite Hd. cbn. exists l, []. rewrite app_nil_r, Hp. by split_and!.
  - destruct Hte as [-> | [? _]]; [| done]. destruct l as [| a ys]; [done |]. cbn [head].
    assert (is_due now (timers s) a) as Hda.
    { destruct (decide (is_due now (timers s) a)) as [| Hl]; [done |]. destruct Hd. apply none_due, all_later; [apply Ht | done]. }
    destruct (proj1 (proj2 (proj2 Ht)) a ltac:(left)) as [e He].
    destruct (time_turn now s a ys e Ht He Hda Hsp Hnow Hck) as (s1 & l1 & new & E & Ht1 & Hsp1 & Hck1 & Hnext & Hdue1 & Hpend1 & Hag1 & Henv1 & Hnew & Hren).
    unfold due in Hf at 1. rewrite filter_cons_True in Hf by done. cbn [length] in Hf.
    destruct (IH s1 l1 (head ys) Ht1 Hsp1 Hck1 Hnext) as (s2 & E2 & Hround); [rewrite Hdue1; unfold due; lia |].
    exists s2. rewrite E. split; [done |].
    unfold due at 1. rewrite filter_cons_True by done. unfold events_of. cbn [omap list_omap]. rewrite He. cbn [run_due].
    assert (forall x, x ∈ due now (timers s) ys -> timers s1 !! x = timers s !! x) as Hagd.
    { intros x [_ Hx]%list_elem_of_filter. apply Hag1, elem_of_dom, Ht. by right. }
    assert (events_of (timers s1) (due now (timers s1) l1) = omap (timers s !!.) (due now (timers s) ys)) as Hev.
    { rewrite Hdue1. unfold events_of. revert Hagd. generalize (due now (timers s) ys). clear.
      intros l Hag. induction l as [| x l IH]; [done |]. cbn. rewrite Hag by left. rewrite IH; [done |]. intros y Hy. apply Hag. by right. }
    rewrite Hev in Hround. rewrite Henv1 in Hround. fold (due now (timers s) ys).
    destruct (tcb (timeProc e) (te_clientData e) (env s)) as [r ev]. cbn [fst snd] in *.
    destruct (run_due _ ev) as [kept e']. destruct Hround as (l2 & fresh & Ht2 & Hl2 & Hren2 & Henv2 & Hlate2 & Hag2).
    exists l2, (new ++ fresh). split_and!.
    + exact Ht2.
    + rewrite Hl2, Hpend1. unfold pending at 2. rewrite filter_cons_False by tauto. solve_Permutation.
    + assert (Forall2 (renewal now (timers s2)) new (if r =? AE_NOMORE then [] else [e])) as Hren1
        by (by eapply renewal_mono).
      replace (if r =? AE_NOMORE then kept else e :: kept) with ((if r =? AE_NOMORE then [] else [e]) ++ kept)
        by (by destruct (r =? AE_NOMORE)). by apply Forall2_app.
    + done.
    + done.
    + intros x Hx. rewrite Hag2; [by apply Hag1 |]. apply elem_of_dom. rewrite Hag1 by done. by apply elem_of_dom.
Qed.

(** C24: one round of [aeProcessTimeEvents], with callbacks that leave the loop alone
    and memory for timers, calls exactly the timers whose time has come when the round
    begins, each once and in the order of their times, and ends; afterwards the tree
    has, in order, the timers that were not due and a new one for every timer whose
    callback did not answer [AE_NOMORE], with the same callback and period, none of
    which is due; no other timer has changed.  Assumed: the periods of the timers are
    positive and below 2^60 microseconds, nobody sets the clock back ([SteadyClock]),
    and it shows a time within 2^60 microseconds of the Epoch ([SetClock]). *)
Theorem process_time_events_spec fuel s l : timers_ok s l -> spans (timers s) l -> (length l < fuel)%nat ->
  exists now k s', gettimeofday (kern s) = (now, k) /\ aeProcessTimeEvents run_time garbage fuel s = Done s' /\
  let (kept, e) := run_due (events_of (timers s) (due now (timers s) l)) (env s) in round_ok now s l kept e s'.
Proof.
  intros Ht Hsp Hf. unfold aeProcessTimeEvents. destruct (gettimeofday (kern s)) as [now k] eqn:Eg.
  destruct (time_set _ _ _ Eg) as (Hn & Hus). destruct (time_steady _ _ _ Eg) as (Hck & Hck'). pose proof Ht as (Hr & _).
  assert (length (due now (timers s) l) <= length l)%nat by apply length_filter.
  destruct (time_loop_spec now fuel Hn (set_kern k s) l (head l) Ht Hsp ltac:(cbn; lia) ltac:(by left) ltac:(cbn; lia)) as (s' & E & Hround).
  exists now, k, s'. split_and!; [done | | exact Hround]. unfold on_tree. cbn [nodes el set_kern].
  rewrite (os_min _ _ _ Hr). cbn [ebind]. rewrite <- E. by destruct s.
Qed.

End Round.

(** ** The main loop *)

Section Main.
Context {clock_set : SetClock} (run_file : Proc -> Z -> option Data -> Z -> state -> exec state).
Context (run_time : Proc -> option Data -> state -> exec (Z * state)).

(** Descriptors and timers are in order, and the periods of the timers are positive. *)
Definition sys_ok s (l : list loc) : Prop := loop_safe (el s) (kern s) /\ timers_ok s l /\ spans (timers s) l.
Definition all_ok s : Prop := exists l, sys_ok s l.

(** A result that is not undefined behaviour. *)
Definition fine {A} (m : exec A) (P : A -> Prop) : Prop := match m with Done a => P a | UB => False | NoFuel => True end.

(** Callbacks of timers that return and keep the loop in order; they may set further
    timers. *)
Definition keeping_time : Prop := forall p d s l, sys_ok s l -> exists r s' l',
  run_time p d s = Done (r, s') /\ sys_ok s' l' /\ l ⊆ l'.

Lemma stop_ok s l : sys_ok s l -> sys_ok (aeStop s) l.
Proof. by intros (H1' & H2' & H3'). Qed.

Lemma create_time_event_safe tv proc data mask s l : sys_ok s l -> span tv -> exists r s' l',
  aeCreateTimeEvent garbage (Some tv) proc data mask s = Done (r, s') /\ sys_ok s' l' /\ l ⊆ l' /\
  fired (el s') = fired (el s) /\ setsize (el s') = setsize (el s).
Proof.
  intros (Hsafe & Ht & Hsp) [Hn Htv]. destruct (malloc (nodes s)) as [te |] eqn:Hte.
  - destruct (create_time_event_spec tv proc data mask s l te Ht Hn ltac:(lia) Hte)
      as (s' & t & lo & hi & E & -> & Ht' & Hnd & Etm & Hnt & Hut & _ & Henv & Hel & Hint).
    exists AE_OK, s', (lo ++ te :: hi). rewrite Hel. split_and!; [done | | set_solver | done | done]. split_and!; [| done |].
    + rewrite Hel. destruct Hsafe as (H1' & H2' & H3' & H4'). split_and!; [done | done | done |]. intros x. rewrite Hint. apply H4'.
    + intros a e Ha He. rewrite Etm in He. destruct (decide (a = te)) as [-> | Hne].
      * rewrite lookup_insert_eq in He. injection He as <-. by split.
      * rewrite lookup_insert_ne in He by done. apply (Hsp a); [set_solver | done].
  - exists AE_ERR, s, l. split_and!; try done. unfold aeCreateTimeEvent. by rewrite Hte.
Qed.

(** A timer is taken out. *)
Lemma remove_time_event_safe s l a : sys_ok s l -> a ∈ l -> exists xs ys h root,
  l = xs ++ a :: ys /\ on_tree (RB_REMOVE (timetree (el s)) (Some a)) s = Done ((Some a, root), set_nodes h s) /\
  sys_ok (set_el (set_timetree root (el s)) (set_nodes h s)) (xs ++ ys).
Proof.
  intros (Hsafe & (Hr & Hs & Hlive & Hdom) & Hsp) (xs & ys & ->)%list_elem_of_split.
  destruct (os_remove _ _ _ _ _ Hr) as (h & root & E & Hr' & Hd). exists xs, ys, h, root. unfold on_tree. rewrite E.
  split; [done |]. split; [done |]. split; [exact Hsafe |]. split; [split; [exact Hr' | split; [| split]] |].
  - apply sorted_app in Hs as (H1' & H2' & H3'). apply sorted_app. apply StronglySorted_inv in H2' as [H2' _].
    split_and!; [done | done |]. intros b c Hb Hc. apply H3'; [done | by right].
  - intros b Hb. apply Hlive. set_solver.
  - cbn. by rewrite Hd.
  - intros b e Hb. apply Hsp. set_solver.
Qed.

Lemma time_loop_safe now fuel : keeping_time -> forall s l te, sys_ok s l -> (forall a, te = Some a -> a ∈ l) ->
  fine (time_loop run_time garbage fuel now te s) all_ok.
Proof.
  intros Hkeep. induction fuel as [| fuel IH]; intros s l te Hs Hte; destruct te as [a |]; cbn [time_loop]; try done; try by exists l.
  pose proof Hs as (Hsafe & (Hr & Hsort & Hlive & Hdom) & Hsp). specialize (Hte a eq_refl).
  destruct (Hlive a Hte) as [e He]. rewrite He. cbn [ebind]. destruct (timer_lt now (timeout e)); [by exists l |].
  pose proof (os_nodup _ _ _ Hr) as Hnd. apply list_elem_of_split in Hte as (xs & ys & ->).
  unfold on_tree at 1. rewrite (os_next _ _ _ _ _ Hr). cbn [ebind]. replace (set_nodes (nodes s) s) with s by (by destruct s).
  destruct (Hkeep (timeProc e) (te_clientData e) s _ Hs) as (r & s1 & l1 & E1 & Hs1 & Hl1). rewrite E1. cbn [ebind].
  assert (exists s2 l2, (if r =? AE_NOMORE then Done s1
      else
        let* e := match timers s1 !! a with Some e => Done e | None => UB end in
        let* (_, s) := aeCreateTimeEvent garbage (Some (te_tv e)) (timeProc e) (te_clientData e) 0 s1 in
        Done s) = Done s2 /\ sys_ok s2 l2 /\ l1 ⊆ l2) as (s2 & l2 & E2 & Hs2 & Hl2).
  { destruct (r =? AE_NOMORE); [by exists s1, l1 |]. assert (a ∈ l1) as Ha1 by set_solver.
    pose proof Hs1 as (_ & (_ & _ & Hlive1 & _) & Hsp1). destruct (Hlive1 a Ha1) as [e1 He1]. rewrite He1. cbn [ebind].
    destruct (create_time_event_safe (te_tv e1) (timeProc e1) (te_clientData e1) 0 s1 l1 Hs1 (Hsp1 a e1 Ha1 He1)) as (r2 & s2 & l2 & E2 & Hs2 & Hl2 & _).
    rewrite E2. by exists s2, l2. }
  rewrite E2. cbn [ebind]. assert (a ∈ l2) as Ha2 by set_solver.
  destruct (remove_time_event_safe s2 l2 a Hs2 Ha2) as (us & vs & h & root & -> & E3 & Hs3). rewrite E3. cbn [ebind].
  apply (IH _ (us ++ vs)); [exact Hs3 |]. intros b Hb. assert (b ∈ ys) as Hby by (destruct ys; [done |]; injection Hb as ->; left).
  assert (b <> a) as Hne.
  { intros ->. apply NoDup_app in Hnd as (_ & _ & [Hnd _]%NoDup_cons). done. }
  assert (b ∈ us ++ a :: vs) as Hin by (apply Hl2, Hl1; set_solver). set_solver.
Qed.

(** C27: the main loop never runs into undefined behaviour, however long it runs, and
    when it returns it was told to stop: whatever epoll answers, and even if the clock
    is set back meanwhile, with any callbacks that return and leave descriptors and
    timers in order (they may register descriptors, set timers and stop the loop).
    Assumed: the periods of the timers are positive and below 2^60 microseconds, and
    the clock shows a time within 2^60 microseconds after the Epoch ([SetClock]). *)
Theorem main_safe fuel s : keeping run_file all_ok -> keeping_time -> all_ok s ->
  fine (aeMain run_file run_time garbage fuel s) (fun s' => stop (el s') <> 0 /\ all_ok s').
Proof.
  intros Hfile Htime [l Hs]. unfold aeMain. assert (all_ok (set_el (set_stop 0 (el s)) s)) as Hok by (by exists l).
  revert Hok. generalize (set_el (set_stop 0 (el s)) s). clear s l Hs.
  induction fuel as [| fuel IH]; intros s Hok; cbn [main_loop]; destruct (Z.eqb_spec (stop (el s)) 0) as [| Hstop]; try done.
  destruct (process_events_kept run_file all_ok) with (s := s) as (n & s1 & E1 & l1 & Hs1); try done.
  - by intros s0 (l0 & H0' & _).
  - intros s0 k (l0 & (H1' & H2' & H3' & H4') & Ht & Hsp) Hk. exists l0. split; [| by split].
    split_and!; [done | done | done |]. intros fd. cbn. rewrite Hk. apply H4'.
  - intros s0 fs (l0 & (H1' & H2' & H3' & H4') & Ht & Hsp) Hfs. exists l0. split; [| by split].
    by split_and!.
  - rewrite E1. cbn [ebind]. unfold aeProcessTimeEvents. destruct (gettimeofday (kern s1)) as [now k] eqn:Eg.
    assert (sys_ok (set_kern k s1) l1) as Hs2.
    { destruct Hs1 as ((H1' & H2' & H3' & H4') & Ht & Hsp). split; [| by split]. split_and!; [done | done | done |]. intros fd. cbn. rewrite (time_interest _ _ _ Eg). apply H4'. }
    pose proof Hs2 as (_ & (Hr & _) & _). unfold on_tree. rewrite (os_min _ _ _ Hr). cbn [ebind].
    replace (set_nodes (nodes (set_kern k s1)) (set_kern k s1)) with (set_kern k s1) by (by destruct s1).
    assert (forall a, head l1 = Some a -> a ∈ l1) as Hhead by (intros a Ha; destruct l1; [done |]; injection Ha as ->; left).
    pose proof (time_loop_safe now fuel Htime (set_kern k s1) l1 (head l1) Hs2 Hhead) as Hfine.
    destruct (time_loop run_time garbage fuel now (head l1) (set_kern k s1)) as [s3 | |]; [by apply IH | done | done].
Qed.

End Main.

(** ** Moving the timers *)

Definition shifted (off : timeval) (x y : timeEvent) : Prop :=
  normal (timeout y) /\ us (timeout y) = us (timeout x) - us off /\
  te_tv y = te_tv x /\ timeProc y = timeProc x /\ te_mask y = te_mask x /\ te_clientData y = te_clientData x.
Definition sane (tm : gmap loc timeEvent) (l : list loc) : Prop :=
  forall a e, a ∈ l -> tm !! a = Some e -> normal (timeout e) /\ 0 <= us (timeout e) < 2 ^ 61.

Lemma correct_loop_spec off fuel : normal off -> 0 <= us off < 2 ^ 60 -> forall s xs ys,
  rep (nodes s) (timetree (el s)) (xs ++ ys) -> NoDup ys -> sane (timers s) ys ->
  (forall a, a ∈ ys -> is_Some (timers s !! a)) -> (length ys < fuel)%nat -> exists tm,
  correct_loop fuel off (head ys) s = Done (set_timers tm s) /\ dom tm = dom (timers s) /\
  (forall a, a ∉ ys -> tm !! a = timers s !! a) /\
  forall a e, a ∈ ys -> timers s !! a = Some e -> exists f, tm !! a = Some f /\ shifted off e f.
Proof.
  intros Hn Hoff. induction fuel as [| fuel IH]; intros s xs ys Hr Hnd Hsane Hlive Hf; [lia |].
  destruct ys as [| a ys]; cbn [correct_loop head].
  { exists (timers s). split_and!; [by destruct s | done | done | by intros ? ? ?%elem_of_nil]. }
  destruct (Hlive a ltac:(left)) as [e He]. rewrite He. cbn [ebind length] in *.
  destruct (Hsane a e ltac:(left) He) as [Hne Hue].
  destruct (timersub_spec (timeout e) off Hne Hn Hue Hoff) as (t & Et & Hnt & Hut). rewrite Et. cbn [ebind].
  set (f := mkTimeEvent t (te_tv e) (timeProc e) (te_mask e) (te_clientData e)). apply NoDup_cons in Hnd as [Ha Hnd].
  unfold on_tree. cbn [nodes set_timers]. rewrite (os_next _ _ _ _ _ Hr). cbn [ebind].
  assert (forall b, b ∈ ys -> <[a := f]> (timers s) !! b = timers s !! b) as Hag.
  { intros b Hb. apply lookup_insert_ne. by intros ->. }
  destruct (IH (set_timers (<[a := f]> (timers s)) s) (xs ++ [a]) ys) as (tm & E & Hd & Hout & Hin); cbn [nodes el timers set_timers].
  - by rewrite <- app_assoc.
  - done.
  - intros b x Hb Hx. rewrite Hag in Hx by done. apply (Hsane b x); [by right | done].
  - intros b Hb. rewrite Hag by done. apply Hlive. by right.
  - lia.
  - exists tm. cbn [timers set_timers] in *. split_and!.
    + exact E.
    + rewrite Hd. apply dom_insert_lookup_L. eauto.
    + intros b Hb. rewrite Hout by set_solver. apply lookup_insert_ne. set_solver.
    + intros b x [-> | Hb]%elem_of_cons Hx; [| apply Hin; [done | by rewrite Hag]].
      exists f. rewrite Hout, lookup_insert_eq by done. split; [done |]. rewrite He in Hx. injection Hx as <-. by split_and!.
Qed.

(** [timeout_correct] moves every timer of the tree back by the same time, changes
    nothing else, and the tree is in order for the new times as it was before. *)
Theorem timeout_correct_spec off s l : timers_ok s l -> normal off -> 0 <= us off < 2 ^ 60 -> sane (timers s) l ->
  exists s', timeout_correct off s = Done s' /\ timers_ok s' l /\ el s' = el s /\ nodes s' = nodes s /\ env s' = env s /\
  (forall a, a ∉ l -> timers s' !! a = timers s !! a) /\
  forall a e, a ∈ l -> timers s !! a = Some e -> exists f, timers s' !! a = Some f /\ shifted off e f.
Proof.
  intros Ht Hn Hoff Hsane. pose proof Ht as (Hr & Hs & Hlive & Hdom). unfold timeout_correct, on_tree.
  rewrite (os_min _ _ _ Hr). cbn [ebind]. pose proof (os_nodup _ _ _ Hr) as Hnd.
  assert (length l <= size (nodes s))%nat as Hlen.
  { rewrite <- size_dom, <- (size_list_to_set (C := gset loc) l) by done. apply subseteq_size. intros a.
    rewrite elem_of_list_to_set, elem_of_dom. by apply (os_live _ _ _ _ Hr). }
  replace (set_nodes (nodes s) s) with s by (by destruct s).
  destruct (correct_loop_spec off (S (size (nodes s))) Hn Hoff s [] l Hr Hnd Hsane Hlive ltac:(lia)) as (tm & E & Hd & Hout & Hin).
  exists (set_timers tm s). split_and!; try done. split_and!; cbn [nodes el timers set_timers]; [done | | | by rewrite Hd].
  - revert Hs. apply sorted_agree. intros a b Ha Hb. destruct (Hlive a Ha) as [x Hx], (Hlive b Hb) as [y Hy].
    destruct (Hsane a x Ha Hx) as [Hnx _], (Hsane b y Hb Hy) as [Hny _].
    destruct (Hin a x Ha Hx) as (x' & Hx' & Hnx' & Hux & _), (Hin b y Hb Hy) as (y' & Hy' & Hny' & Huy & _).
    unfold compare, timeout_of. rewrite Hx, Hy, Hx', Hy'. cbn. rewrite !timer_lt_us by done. rewrite Hux, Huy.
    by replace (us (timeout x) - us off <? us (timeout y) - us off) with (us (timeout x) <? us (timeout y)) by (apply eq_true_iff_eq; rewrite !Z.ltb_lt; lia);
      replace (us (timeout y) - us off <? us (timeout x) - us off) with (us (timeout y) <? us (timeout x)) by (apply eq_true_iff_eq; rewrite !Z.ltb_lt; lia).
  - intros a Ha. destruct (Hlive a Ha) as [x Hx]. destruct (Hin a x Ha Hx) as (y & Hy & _). eauto.
Qed.


(** ** Creation and deletion *)

(** Everything is answered with success. *)
Definition created (c : creation) : bool := ok_loop c && ok_events c && ok_fired c && ok_state c && ok_epevents c && ok_epfd c.

(** [aeCreateEventLoop] succeeds when every call in it does: the loop then has no
    descriptors, agrees with an epoll instance that is new, and has no timers.  When a
    later call fails the arrays that it had got are lost, and deleting a loop releases
    all of its blocks but [fired]. *)
Theorem create_event_loop_spec size c k h : 0 <= size -> (forall fd, interest k fd = None) ->
  match aeCreateEventLoop (Proc := Proc) (Data := Data) size c k with
  | (Some (l, k'), live) => created c = true /\ loop_ok l k' /\ maxfd l = -1 /\ rep h (timetree l) [] /\
      live ≡ₚ [B_loop; B_events; B_fired; B_state; B_epevents; B_epfd] /\ aeDeleteEventLoop live = [B_fired]
  | (None, live) => created c = false /\
      live = if ok_loop c then (if ok_events c then [B_events] else []) ++ (if ok_fired c then [B_fired] else []) else []
  end.
Proof.
  intros Hsize Hk. unfold aeCreateEventLoop, created. destruct (ok_loop c); cbn [andb]; [| done].
  destruct (ok_events c); cbn [andb]; [| done]. destruct (ok_fired c); cbn [andb]; [| done].
  destruct (gettimeofday k) as [now k'] eqn:Eg. destruct (ok_state c); cbn [andb]; [| done].
  destruct (ok_epevents c); cbn [andb]; [| done]. destruct (ok_epfd c); [| done].
  assert (forall fd, interest k' fd = None) as Hk' by (intros fd; by rewrite (time_interest _ _ _ Eg)).
  split_and!; [done | | done | apply os_empty | by cbn | done].
  unfold loop_ok, zlen. cbn. rewrite !length_replicate. split_and!; [lia | lia | | intros fd Hfd; by rewrite Hk' in Hfd].
  intros fd fe _ [-> _]%lookup_replicate. by split_and!.
Qed.

End Timers.

End Spec.
End AeSpec.

Import AeSpec.

Module AeSamples.
(** A kernel that keeps its promises: the events registered, what will be reported, and
    the time in microseconds. *)
Record kernel := mkKernel { k_interest : gmap Z Z; k_ready : list (Z * Z); k_time : Z }.
Definition last_time : Z := 2 ^ 60 - 1.
Definition now_of (k : kernel) : Z := Z.min last_time (Z.max 0 (k_time k)).
Definition sample_ctl (k : kernel) (op : ctl) (fd e : Z) : option unit * kernel :=
  match op, k_interest k !! fd with
  | EPOLL_CTL_ADD, None | EPOLL_CTL_MOD, Some _ => (Some tt, mkKernel (<[fd := e]> (k_interest k)) (k_ready k) (k_time k))
  | EPOLL_CTL_DEL, Some _ => (Some tt, mkKernel (delete fd (k_interest k)) (k_ready k) (k_time k))
  | _, _ => (None, k)
  end.
Definition reported (k : kernel) : list (Z * Z) :=
  omap (fun '(fd, e) => m ← k_interest k !! fd; Some (fd, Z.land e (Z.lor m (Z.lor EPOLLERR EPOLLHUP)))) (k_ready k).
Definition sample_wait (k : kernel) (max ms : Z) : option (list (Z * Z)) * kernel :=
  if max <=? 0 then (None, k) else (Some (ztake max (reported k)), k).
Definition sample_time (k : kernel) : timeval * kernel :=
  let t := now_of (mkKernel (k_interest k) (k_ready k) (k_time k + 1)) in
  (mkTv (t / 1000000) (t mod 1000000), mkKernel (k_interest k) (k_ready k) t).

#[export] Instance sample_system : System := {
  os := kernel; epoll_ctl := sample_ctl; epoll_wait := sample_wait; gettimeofday := sample_time
}.

#[export, refine] Instance sample_laws : SystemLaws := {
  interest (k : os) fd := k_interest k !! fd
}.
Proof.
  - intros k op fd e u k'. cbn. unfold sample_ctl.
    destruct op, (k_interest k !! fd) eqn:E; intros [= _ <-]; cbn; (split; [done || by eexists |]);
      intros x; case_decide; subst; rewrite ?lookup_insert_eq, ?lookup_delete_eq, ?lookup_insert_ne, ?lookup_delete_ne by done; done.
  - intros k op fd e k'. cbn. unfold sample_ctl. by destruct op, (k_interest k !! fd); intros [= <-].
  - intros k max ms r k'. cbn. unfold sample_wait. by destruct (max <=? 0); intros [= _ <-].
  - intros k max ms es k'. cbn. unfold sample_wait. destruct (Z.leb_spec max 0); [done |]. intros [= <- <-]. split.
    + unfold zlen, ztake. rewrite length_take. lia.
    + unfold ztake. apply Forall_take. unfold reported. apply Forall_forall. intros [fd e] He. apply list_elem_of_omap in He as ([fd' e'] & _ & He).
      destruct (k_interest k !! fd') as [m |] eqn:E; cbn in He; [| done]. injection He as <- <-. exists m. split; [done |].
      rewrite <- Z.land_assoc, Z.land_lnot_diag. apply Z.land_0_r.
  - intros k t k'. cbn. unfold sample_time. by intros [= <- <-].
Defined.

Lemma sample_time_spec k t k' : gettimeofday k = (t, k') ->
  normal t /\ 0 <= us t < 2 ^ 60 /\ now_of k <= us t /\ now_of k' = us t.
Proof.
  cbn. unfold sample_time. intros [= <- <-]. unfold normal, us, now_of, last_time. cbn.
  pose proof (Z.div_mod (Z.min (2 ^ 60 - 1) (Z.max 0 (k_time k + 1))) 1000000).
  pose proof (Z.mod_pos_bound (Z.min (2 ^ 60 - 1) (Z.max 0 (k_time k + 1))) 1000000).
  lia.
Qed.

#[export] Instance sample_set : SetClock := {
  time_set k t k' E := let '(conj Hn (conj Hu _)) := sample_time_spec k t k' E in conj Hn Hu
}.
#[export] Instance sample_steady : SteadyClock := {
  clock (k : os) := now_of k;
  time_steady k t k' E := let '(conj _ (conj _ Hc)) := sample_time_spec k t k' E in Hc
}.

#[export] Instance fresh_node : Malloc rb_entry := {
  malloc h := Some (fresh (dom h));
  malloc_fresh h l := ltac:(intros [= <-]; apply not_elem_of_dom, is_fresh)
}.

(** Callbacks are numbers; they note what they are called with.  Callback 7 registers
    the next descriptor. *)
Abbreviation world := (@Ae.state nat nat (list (nat * Z)) sample_system).
Definition note (p : nat) (z : Z) (s : world) : world := set_env (env s ++ [(p, z)]) s.
Definition logging (p : nat) (fd : Z) (data : option nat) (mask : Z) (s : world) : exec world := Done (note p mask s).
Definition accepting (p : nat) (fd : Z) (data : option nat) (mask : Z) (s : world) : exec world :=
  if (p =? 7)%nat then let* (_, s) := aeCreateFileEvent 1 AE_READABLE 3%nat None s in Done (note p mask s)
  else Done (note p mask s).
(** Timers with an odd callback go on. *)
Definition ticking (p : nat) (data : option nat) (e : list (nat * Z)) : Z * list (nat * Z) :=
  (if Nat.odd p then 1 else AE_NOMORE, e ++ [(p, 0)]).
Definition ticks (p : nat) (data : option nat) (s : world) : exec (Z * world) :=
  Done ((ticking p data (env s)).1, set_env (ticking p data (env s)).2 s).

Definition blank : rb_entry := mkEntry None None None 0.
Definition idle : world :=
  mkState (mkEventLoop (-1) 4 (mkTv 0 0) (replicate 4 (mkFileEvent AE_NONE None None None)) (replicate 4 None) None 0)
    ∅ ∅ (mkKernel ∅ [(2, 5); (3, 16); (0, 1)] 50) 0 [].
Lemma idle_ok : loop_ok (el idle) (kern idle).
Proof.
  split_and!; [done | done | | by intros fd]. intros fd fe _ [-> _]%lookup_replicate. by split_and!.
Qed.

Definition registrations : list (Z * Z * nat * option nat) :=
  [(2, AE_READABLE, 5%nat, None); (2, AE_WRITABLE, 5%nat, Some 1%nat); (3, AE_WRITABLE, 7%nat, None); (9, AE_READABLE, 1%nat, None)].

Lemma registrations_agree_witness : exists rs s', register_all registrations idle = Done (rs, s') /\
  loop_ok (el s') (kern s') /\ length rs = 4%nat /\
  forall x fe, 0 <= x -> events (el idle) !! Z.to_nat x = Some fe -> exists fe',
    events (el s') !! Z.to_nat x = Some fe' /\ fe_mask fe' = Z.lor (fe_mask fe) (granted x registrations rs) /\
    interest (kern s') x = (if fe_mask fe' =? 0 then None else Some (waits (fe_mask fe'))) /\
    (granted x registrations rs = 0 -> fe' = fe /\ interest (kern s') x = interest (kern idle) x).
Proof.
  apply (registrations_agree registrations idle idle_ok).
  repeat constructor; discriminate.
Defined.

Definition outcome {A B} (d : B) (m : exec (A * B)) : B := match m with Done (_, b) => b | _ => d end.
(** The loop after the registrations. *)
Definition busy : world := outcome idle (register_all registrations idle).
Example busy_masks : fe_mask <$> events (el busy) = [0; 0; 3; 2].
Proof. vm_compute. reflexivity. Qed.

Lemma busy_ok : loop_ok (el busy) (kern busy).
Proof.
  destruct (register_all_ok registrations idle idle_ok) as (rs & s' & E & H); [repeat constructor; discriminate |].
  unfold busy. by rewrite E.
Qed.

Lemma logging_quiet : quiet logging.
Proof. by intros p fd data mask s s' [= <-]. Qed.

Lemma process_events_calls_witness :
  aeProcessEvents logging busy =
    match epoll_wait (kern busy) 4 0 with
    | (None, k) => Done (0, set_kern k busy)
    | (Some es, k) =>
        let l := set_fired (fires es ++ drop (length es) (fired (el busy))) (el busy) in
        let* s := run_ready logging l es (set_el l (set_kern k busy)) in
        Done (zlen es, s)
    end.
Proof. apply (process_events_calls logging busy logging_quiet busy_ok). vm_compute. discriminate. Defined.
(** Descriptor 2 is ready both ways with one callback, descriptor 3 has hung up. *)
Example busy_round : (let* (n, s) := aeProcessEvents logging busy in Done (n, env s)) = Done (2, [(5%nat, 3); (7%nat, 2)]).
Proof. vm_compute. reflexivity. Qed.

Lemma accepting_lawful : lawful accepting.
Proof.
  intros p fd data mask s Hs. unfold accepting. destruct (p =? 7)%nat; [| by eexists].
  destruct (create_file_event_safe 1 AE_READABLE 3%nat None s Hs ltac:(lia)) as (r & s' & E & Hs' & Hf & Hz & _). rewrite E. cbn [ebind].
  by eexists.
Qed.

Lemma process_events_safe_witness : exists n s', aeProcessEvents accepting busy = Done (n, s') /\ loop_safe (el s') (kern s').
Proof. exact (process_events_safe accepting busy accepting_lawful (loop_ok_safe _ _ busy_ok)). Defined.

Definition new_kernel : @os sample_system := mkKernel ∅ [] 0.
Lemma create_event_loop_spec_witness :
  match aeCreateEventLoop (Proc := nat) (Data := nat) 4 (mkCreation true true true true true true) new_kernel with
  | (Some (l, k'), live) => true = true /\ loop_ok l k' /\ maxfd l = -1 /\ rb_rep ∅ (timetree l) [] /\
      live ≡ₚ [B_loop; B_events; B_fired; B_state; B_epevents; B_epfd] /\ aeDeleteEventLoop live = [B_fired]
  | (None, live) => true = false /\ live = [B_events; B_fired]
  end.
Proof. apply (create_event_loop_spec 4 (mkCreation true true true true true true) new_kernel ∅); [lia | done]. Defined.

(** Three timers, two of which are due. *)
Definition three : tree := Node 2 RB_BLACK (Node 1 RB_RED Leaf Leaf) (Node 3 RB_RED Leaf Leaf).
Definition period : timeval := mkTv 2 500000.
Definition clocked : world :=
  mkState (mkEventLoop 2 4 (mkTv 0 0) (<[2%nat := mkFileEvent AE_READABLE (Some 7%nat) None None]> (replicate 4 (mkFileEvent AE_NONE None None None)))
      (replicate 4 None) (Some 2%positive) 0) (list_to_map (cells None three))
    (list_to_map [(1%positive, mkTimeEvent (mkTv 0 100) period 1%nat 0 None); (2%positive, mkTimeEvent (mkTv 0 200) period 2%nat 0 None);
       (3%positive, mkTimeEvent (mkTv 5 0) period 3%nat 0 None)])
    (mkKernel {[2 := 1]} [(2, 1)] 300) 0 [].
Lemma clocked_ok : timers_ok (rep := rb_rep) clocked [1; 2; 3]%positive.
Proof.
  split_and!.
  - exists three. split_and!; [done | done | | exists 1%nat; repeat econstructor]. split; [repeat constructor |].
    apply (bool_decide_unpack _). vm_compute. exact I.
  - repeat constructor.
  - intros a Ha. repeat (apply elem_of_cons in Ha as [-> | Ha]; [by eexists |]). by apply elem_of_nil in Ha.
  - vm_compute. reflexivity.
Qed.
Lemma clocked_spans : spans (timers clocked) [1; 2; 3]%positive.
Proof.
  intros a e Ha He. assert (te_tv e = period) as ->; [| unfold period; split; [split; cbn; lia | unfold us; cbn; lia]].
  repeat (apply elem_of_cons in Ha as [-> | Ha]; [vm_compute in He; by injection He as <- |]). by apply elem_of_nil in Ha.
Qed.

Lemma process_time_events_spec_witness : exists now k s', gettimeofday (kern clocked) = (now, k) /\
  aeProcessTimeEvents ticks blank 4 clocked = Done s' /\
  let (kept, e) := run_due ticking (events_of (timers clocked) (due now (timers clocked) [1; 2; 3]%positive)) (env clocked) in
  round_ok (rep := rb_rep) now clocked [1; 2; 3]%positive kept e s'.
Proof.
  apply (process_time_events_spec blank ticks ticking).
  - done.
  - intros h. by eexists.
  - exact clocked_ok.
  - exact clocked_spans.
  - cbn. lia.
Defined.
Example clocked_round :
  (let* s := aeProcessTimeEvents ticks blank 4 clocked in
   let* (l, _) := RB_FOREACH (timetree (el s)) (nodes s) in
   Done (env s, timeout_of (timers s) <$> l)) =
  Done ([(1%nat, 0); (2%nat, 0)], [mkTv 2 500302; mkTv 5 0]).
Proof. vm_compute. reflexivity. Qed.

Lemma timeout_correct_spec_witness : exists s', timeout_correct (mkTv 0 50) clocked = Done s' /\
  timers_ok (rep := rb_rep) s' [1; 2; 3]%positive /\ el s' = el clocked /\ nodes s' = nodes clocked /\ env s' = env clocked /\
  (forall a, a ∉ [1; 2; 3]%positive -> timers s' !! a = timers clocked !! a) /\
  forall a e, a ∈ [1; 2; 3]%positive -> timers clocked !! a = Some e -> exists f, timers s' !! a = Some f /\ shifted (mkTv 0 50) e f.
Proof.
  apply timeout_correct_spec.
  - exact clocked_ok.
  - split; cbn; lia.
  - unfold us. cbn. lia.
  - intros a e Ha He.
    repeat (apply elem_of_cons in Ha as [-> | Ha]; [vm_compute in He; injection He as <-; unfold normal, us; cbn; lia |]). by apply elem_of_nil in Ha.
Defined.

(** Callback 2 of a timer stops the loop. *)
Definition stopping (p : nat) (data : option nat) (s : world) : exec (Z * world) :=
  let s := set_env (env s ++ [(p, 0)]) s in
  Done (if Nat.odd p then 1 else AE_NOMORE, if (p =? 2)%nat then aeStop s else s).

Lemma clocked_safe : loop_safe (el clocked) (kern clocked).
Proof.
  split_and!; [done | done | |].
  - cbn. repeat (apply Forall_cons; split; [split; intros Hm; first [done | by eexists] |]). by apply Forall_nil.
  - intros fd. cbn. intros Hfd. destruct (decide (fd = 2)) as [-> |]; [lia |]. by rewrite lookup_singleton_ne in Hfd.
Qed.

Lemma accepting_keeps : keeping accepting (all_ok (rep := rb_rep)).
Proof.
  intros p fd data mask s (l & Hs & Ht & Hsp). unfold accepting. destruct (p =? 7)%nat; [| eexists; split_and!; [done | by exists l | done | done]].
  destruct (create_file_event_safe 1 AE_READABLE 3%nat None s Hs ltac:(lia)) as (r & s' & E & Hs' & Hf & Hz & Hn & Htm & Htt).
  rewrite E. cbn [ebind]. eexists. split_and!; [done | | exact Hf | exact Hz]. exists l. split; [exact Hs' |].
  unfold timers_ok, note. cbn [nodes el timers set_env]. by rewrite Hn, Htm, Htt.
Qed.

Lemma stopping_keeps : keeping_time (rep := rb_rep) stopping.
Proof.
  intros p d s l Hs. unfold stopping. destruct (p =? 2)%nat; eexists _, _, l; (split; [done | split; [exact Hs | done]]).
Qed.

Lemma main_safe_witness :
  fine (aeMain accepting stopping blank 10 clocked) (fun s' => stop (el s') <> 0 /\ all_ok (rep := rb_rep) s').
Proof.
  apply (main_safe blank accepting stopping 10 clocked accepting_keeps stopping_keeps).
  exists [1; 2; 3]%positive. exact (conj clocked_safe (conj clocked_ok clocked_spans)).
Defined.
Example clocked_main : (let* s := aeMain accepting stopping blank 10 clocked in Done (env s, fe_mask <$> events (el s))) =
  Done ([(7%nat, 1); (1%nat, 0); (2%nat, 0)], [0; 1; 1; 0]).
Proof. vm_compute. reflexivity. Qed.
End AeSamples.
