(* ===== verification/CLib.v ===== *)
(** The C library functions the program calls, on byte strings: character
    classes, [memchr], [memcmp], [strtol] and its relatives, decimal [printf]
    conversions, and the little-endian representation of 64-bit integers.  A
    C string is the memory from its first byte on: a scan that reaches the end
    of the block without meeting a terminator is undefined behaviour, so
    [std::string::c_str()] is the string followed by [NUL]. *)
From S2P Require Import Prelude.

(** * Character classes (the "C" locale) *)

Definition isspace (c : char) : bool :=
  ((9 <=? uchar c) && (uchar c <=? 13)) || (uchar c =? 32).
Definition isdigit (c : char) : bool := (48 <=? uchar c) && (uchar c <=? 57).
Definition tolower (c : char) : char :=
  if (65 <=? uchar c) && (uchar c <=? 90) then chr (uchar c + 32) else c.
Definition toupper (c : char) : char :=
  if (97 <=? uchar c) && (uchar c <=? 122) then chr (uchar c - 32) else c.

(** * Memory blocks *)

(** A read of [n] bytes at offset [i], and of one byte. *)
Definition mread (m : bytes) (i n : Z) : exec bytes :=
  if (0 <=? i) && (0 <=? n) && (i + n <=? zlen m) then Done (ztake n (zdrop i m)) else UB.
Definition mget (m : bytes) (i : Z) : exec char :=
  if 0 <=? i then match zdrop i m with c :: _ => Done c | [] => UB end else UB.
(** A write of the bytes [s] at offset [i]. *)
Definition mwrite (m : bytes) (i : Z) (s : bytes) : exec bytes :=
  if (0 <=? i) && (i + zlen s <=? zlen m)
  then Done (ztake i m ++ s ++ zdrop (i + zlen s) m) else UB.

(** [memchr]: the offset of the first occurrence. *)
Fixpoint memchr (s : bytes) (c : char) : option Z :=
  match s with
  | [] => None
  | d :: s' => if decide (d = c) then Some 0 else Z.succ <$> memchr s' c
  end.

(** The sign of [memcmp] on the first [min] bytes of the two areas. *)
Fixpoint memcmp (s t : bytes) : Z :=
  match s, t with
  | c :: s', d :: t' =>
      if uchar c <? uchar d then -1 else if uchar d <? uchar c then 1 else memcmp s' t'
  | _, _ => 0
  end.

(** [strlen] and the C string that starts a block. *)
Fixpoint cstring (m : bytes) : exec bytes :=
  match m with
  | [] => UB
  | c :: m' => if decide (c = NUL) then Done [] else let* s := cstring m' in Done (c :: s)
  end.

(** * Decimal integers *)

Definition digit (d : Z) : char := chr (48 + d).
Definition digit_val (c : char) : Z := uchar c - 48.

Fixpoint digits_aux (fuel : nat) (n : Z) (acc : bytes) : bytes :=
  match fuel with
  | O => acc
  | S f => let acc' := digit (n mod 10) :: acc in
           if n <? 10 then acc' else digits_aux f (n / 10) acc'
  end.
(** Decimal digits of a natural number; the binary logarithm bounds their
    count. *)
Definition digits (n : Z) : bytes := digits_aux (S (Z.to_nat (Z.log2 n))) n [].

(** [%d], [%ld], [%llu] of [printf]. *)
Definition print_int (z : Z) : bytes :=
  if z <? 0 then chr 45 :: digits (- z) else digits z.

Definition dec_step (a : Z) (c : char) : Z := 10 * a + digit_val c.
Definition dec_value (s : bytes) : Z := foldl dec_step 0 s.

Fixpoint skip_spaces (m : bytes) : bytes :=
  match m with
  | c :: m' => if isspace c then skip_spaces m' else m
  | [] => []
  end.

Fixpoint span_digits (m : bytes) : bytes * bytes :=
  match m with
  | c :: m' => if isdigit c then let '(ds, r) := span_digits m' in (c :: ds, r) else ([], m)
  | [] => ([], [])
  end.

Definition read_sign (m : bytes) : bool * bytes :=
  match m with
  | c :: m' => if decide (c = chr 45) then (true, m')
               else if decide (c = chr 43) then (false, m') else (false, m)
  | [] => (false, [])
  end.

(** The scan shared by [strtol], [strtoll] and [strtoull] in base 10: the sign,
    the digits and the rest of the memory.  [endptr] is the start of the rest,
    or the start of the block when there is no digit. *)
Definition scan_int (m : bytes) : exec (bool * bytes * bytes) :=
  let '(neg, m1) := read_sign (skip_spaces m) in
  let '(ds, r) := span_digits m1 in
  match r return exec (bool * bytes * bytes) with
  | [] => UB
  | _ => Done (neg, ds, match ds with [] => m | _ => r end)
  end.

Definition clamp (lo hi z : Z) : Z := Z.max lo (Z.min hi z).

(** The value, [endptr] and whether [errno] was set to [ERANGE]; the signed
    versions saturate, the unsigned one saturates the magnitude and negates
    modulo [2^64] (glibc). *)
Definition strtol (m : bytes) : exec (Z * bytes * bool) :=
  let* (neg, ds, r) := scan_int m in
  let v := if (neg : bool) then - dec_value ds else dec_value ds in
  Done (clamp int64_min int64_max v, r, (v <? int64_min) || (int64_max <? v)).
Definition strtoull (m : bytes) : exec (Z * bytes * bool) :=
  let* (neg, ds, r) := scan_int m in
  let v := dec_value ds in
  Done ((if uint64_max <? v then uint64_max
         else if (neg : bool) then to_uint64 (- v) else v), r, uint64_max <? v).

(** [atoi] is the conversion to [int] of [strtol] (glibc). *)
Definition atoi (m : bytes) : exec Z := let* (v, _, _) := strtol m in Done (to_int v).

(** [snprintf] into a buffer of [n] bytes keeps at most [n - 1] of them. *)
Definition snprintf (n : Z) (s : bytes) : bytes := ztake (n - 1) s.

(** * Little-endian representation *)

Fixpoint le_bytes (n : nat) (z : Z) : bytes :=
  match n with
  | O => []
  | S n' => chr z :: le_bytes n' (z / 256)
  end.

Fixpoint le_value (s : bytes) : Z :=
  match s with
  | [] => 0
  | c :: s' => uchar c + 256 * le_value s'
  end.

(** The object representation of a 64-bit integer on the little-endian target,
    and its unsigned and signed readings. *)
Definition mem_u64 (z : Z) : bytes := le_bytes 8 z.
Definition rd_u64 (s : bytes) : Z := le_value s.
Definition rd_i64 (s : bytes) : Z := to_int64 (le_value s).

(** * Lemmas: digits *)

Lemma uchar_digit d : 0 <= d < 10 -> uchar (digit d) = 48 + d.
Proof. intros. unfold digit. rewrite uchar_chr. apply Z.mod_small. lia. Qed.

Lemma isdigit_digit d : 0 <= d < 10 -> isdigit (digit d) = true.
Proof. intros. unfold isdigit. rewrite uchar_digit by done. lia. Qed.

Lemma digit_val_digit d : 0 <= d < 10 -> digit_val (digit d) = d.
Proof. intros. unfold digit_val. rewrite uchar_digit by done. lia. Qed.

Lemma digits_aux_app f : forall n acc, digits_aux f n acc = digits_aux f n [] ++ acc.
Proof.
  induction f as [|f IH]; intros n acc; cbn; [done |].
  case_match; [done |]. rewrite IH, (IH _ [_]), <- app_assoc. done.
Qed.

(** Enough fuel: the logarithm at least halves at each step. *)
Lemma digits_aux_spec f : forall n, 0 <= n < 2 ^ Z.of_nat f -> 0 < Z.of_nat f ->
  let ds := digits_aux f n [] in
  dec_value ds = n /\ Forall (fun c => isdigit c = true) ds /\ ds <> [] /\
  (forall k, 1 <= k -> zlen ds <= k <-> n < 10 ^ k).
Proof.
  induction f as [|f IH]; intros n Hn Hf; [lia |]. cbn [digits_aux].
  destruct (Z.ltb_spec n 10) as [Hlt | Hge].
  - cbn. unfold dec_value, dec_step. cbn. rewrite Z.mod_small by lia.
    rewrite digit_val_digit by lia. repeat split; intros; try done; try lia.
    + repeat constructor. apply isdigit_digit. lia.
    + assert (10 ^ 1 <= 10 ^ k) by (apply Z.pow_le_mono_r; lia). lia.
  - assert (Hf1 : 0 < Z.of_nat f).
    { destruct f; [cbn in Hn; lia | lia]. }
    assert (Hdiv : 0 <= n / 10 < 2 ^ Z.of_nat f).
    { rewrite Nat2Z.inj_succ, Z.pow_succ_r in Hn by lia.
      split; [apply Z.div_pos; lia |]. apply Z.div_lt_upper_bound; lia. }
    destruct (IH _ Hdiv Hf1) as (Hv & Hd & Hne & Hlen). clear IH.
    rewrite digits_aux_app. set (ds := digits_aux f (n / 10) []) in *.
    pose proof (Z.mod_pos_bound n 10). repeat split; intros.
    + unfold dec_value in *. rewrite foldl_app. cbn. rewrite Hv.
      unfold dec_step. rewrite digit_val_digit by lia. pose proof (Z.div_mod n 10). lia.
    + apply Forall_app. split; [done |]. repeat constructor. apply isdigit_digit. lia.
    + by destruct ds.
    + rewrite zlen_app in *. change (zlen [digit (n mod 10)]) with 1 in *.
      destruct (decide (k = 1)) as [-> | ?].
      { pose proof (zlen_nonneg ds). destruct ds; [done |]. rewrite zlen_cons in *. zl. }
      assert (Hk : n / 10 < 10 ^ (k - 1)) by (apply Hlen; lia).
      replace k with (Z.succ (k - 1)) by lia. rewrite Z.pow_succ_r by lia.
      pose proof (Z.div_mod n 10). lia.
    + rewrite zlen_app. change (zlen [digit (n mod 10)]) with 1.
      destruct (decide (k = 1)) as [-> | ?]; [lia |].
      assert (n / 10 < 10 ^ (k - 1)).
      { apply Z.div_lt_upper_bound; [lia |]. rewrite <- Z.pow_succ_r by lia.
        by replace (Z.succ (k - 1)) with k by lia. }
      assert (zlen ds <= k - 1) by (apply Hlen; lia). lia.
Qed.

Section Digits.
Context (n : Z) (Hn : 0 <= n).

Lemma digits_fuel : 0 <= n < 2 ^ Z.of_nat (S (Z.to_nat (Z.log2 n))).
Proof using Hn.
  pose proof (Z.log2_nonneg n).
  rewrite Nat2Z.inj_succ, Z2Nat.id by done.
  destruct (decide (n = 0)) as [-> |]; [cbn; lia |].
  split; [done |]. apply Z.log2_spec. lia.
Qed.

Lemma dec_value_digits : dec_value (digits n) = n.
Proof using Hn. apply digits_aux_spec; [apply digits_fuel | lia]. Qed.

Lemma digits_isdigit : Forall (fun c => isdigit c = true) (digits n).
Proof using Hn. apply digits_aux_spec; [apply digits_fuel | lia]. Qed.

Lemma digits_nonempty : digits n <> [].
Proof using Hn. apply digits_aux_spec; [apply digits_fuel | lia]. Qed.

Lemma zlen_digits k : 1 <= k -> zlen (digits n) <= k <-> n < 10 ^ k.
Proof using Hn. apply digits_aux_spec; [apply digits_fuel | lia]. Qed.
End Digits.

(** * Lemmas: scanning integers *)

Lemma snprintf_id n s : zlen s < n -> snprintf n s = s.
Proof. intros. apply ztake_all. lia. Qed.

Lemma isdigit_not_space c : isdigit c = true -> isspace c = false.
Proof. unfold isdigit, isspace. lia. Qed.

Lemma isdigit_not_sign c : isdigit c = true -> c <> chr 45 /\ c <> chr 43.
Proof. intros H. split; intros ->; vm_compute in H; discriminate. Qed.

Lemma span_digits_app ds c r :
  Forall (fun c => isdigit c = true) ds -> isdigit c = false ->
  span_digits (ds ++ c :: r) = (ds, c :: r).
Proof.
  intros Hds Hc. induction Hds as [| d ds Hd _ IH]; cbn.
  - by rewrite Hc.
  - by rewrite Hd, IH.
Qed.

(** A number whose digits are followed by a non-digit is scanned back. *)
Lemma scan_int_digits ds c r :
  Forall (fun c => isdigit c = true) ds -> ds <> [] -> isdigit c = false ->
  scan_int (ds ++ c :: r) = Done (false, ds, c :: r).
Proof.
  intros Hds Hne Hc. unfold scan_int.
  assert (read_sign (skip_spaces (ds ++ c :: r)) = (false, ds ++ c :: r)) as ->.
  { destruct Hds as [| d ds Hd _]; [done |]. cbn.
    rewrite isdigit_not_space by done. cbn.
    destruct (isdigit_not_sign _ Hd). by rewrite !decide_False. }
  rewrite span_digits_app by done. by destruct ds.
Qed.

Lemma scan_int_neg_digits ds c r :
  Forall (fun c => isdigit c = true) ds -> ds <> [] -> isdigit c = false ->
  scan_int (chr 45 :: ds ++ c :: r) = Done (true, ds, c :: r).
Proof.
  intros Hds Hne Hc. unfold scan_int.
  change (read_sign (skip_spaces (chr 45 :: ds ++ c :: r))) with (true, ds ++ c :: r).
  cbn iota beta. rewrite span_digits_app by done. by destruct ds.
Qed.

Lemma strtol_print_int z c r :
  is_int64 z -> isdigit c = false -> strtol (print_int z ++ c :: r) = Done (z, c :: r, false).
Proof.
  intros Hz Hc. unfold strtol, print_int. destruct (Z.ltb_spec z 0).
  - cbn [app]. rewrite scan_int_neg_digits by eauto using digits_isdigit, digits_nonempty with lia.
    cbn [ebind]. rewrite dec_value_digits by lia. unfold clamp. repeat f_equal; zlia.
  - rewrite scan_int_digits by eauto using digits_isdigit, digits_nonempty.
    cbn [ebind]. rewrite dec_value_digits by lia. unfold clamp. repeat f_equal; zlia.
Qed.

Lemma strtoull_print_int z c r :
  is_uint64 z -> isdigit c = false -> strtoull (print_int z ++ c :: r) = Done (z, c :: r, false).
Proof.
  intros Hz Hc. unfold strtoull, print_int. destruct (Z.ltb_spec z 0); [zlia |].
  rewrite scan_int_digits by eauto using digits_isdigit, digits_nonempty.
  cbn [ebind]. rewrite dec_value_digits by lia. case_match; [zlia | done].
Qed.

Lemma atoi_print_int z c r :
  is_int z -> isdigit c = false -> atoi (print_int z ++ c :: r) = Done z.
Proof.
  intros Hz Hc. unfold atoi. rewrite strtol_print_int by (done || zlia).
  cbn. by rewrite to_int_id.
Qed.

Lemma span_digits_length m ds r : span_digits m = (ds, r) -> m = ds ++ r.
Proof.
  revert ds. induction m as [| c m IH]; intros ds; cbn; [naive_solver |].
  destruct (isdigit c); [| naive_solver].
  destruct (span_digits m) as [ds' r'] eqn:E. intros [= <- <-]. cbn. f_equal. eauto.
Qed.

(** A scan succeeds as soon as the memory holds a terminator that no number
    contains, such as [NUL]. *)
Lemma span_digits_stop m c r :
  isdigit c = false -> exists ds r', span_digits (m ++ c :: r) = (ds, r') /\ r' <> [].
Proof.
  intros Hc. induction m as [| d m IH]; cbn.
  - rewrite Hc. eauto.
  - destruct (isdigit d); [| eauto].
    destruct IH as (ds & r' & -> & Hr'). eauto.
Qed.

Lemma scan_int_stop m c r :
  isspace c = false -> isdigit c = false -> c <> chr 45 -> c <> chr 43 ->
  is_done (scan_int (m ++ c :: r)).
Proof.
  intros Hs Hd Hm Hp.
  assert (exists m', skip_spaces (m ++ c :: r) = m' ++ c :: r) as [m1 E1].
  { clear - Hs. induction m as [| d m IH]; cbn; [rewrite Hs; by exists [] |].
    destruct (isspace d); [done | by exists (d :: m)]. }
  assert (exists b m', read_sign (m1 ++ c :: r) = (b, m' ++ c :: r)) as (b & m2 & E2).
  { destruct m1 as [| d m1]; cbn.
    - rewrite !decide_False by done. by exists false, [].
    - repeat case_decide; eauto. by exists false, (d :: m1). }
  unfold scan_int. rewrite E1, E2.
  destruct (span_digits_stop m2 c r Hd) as (ds & r' & -> & Hr').
  destruct r'; [done |]. by eexists.
Qed.

(** * Lemmas: memory *)

Lemma mread_ok m i n : 0 <= i -> 0 <= n -> i + n <= zlen m ->
  mread m i n = Done (ztake n (zdrop i m)).
Proof. intros. unfold mread. case_match; [done | lia]. Qed.

Lemma mwrite_ok m i s : 0 <= i -> i + zlen s <= zlen m ->
  mwrite m i s = Done (ztake i m ++ s ++ zdrop (i + zlen s) m).
Proof. intros. unfold mwrite. case_match; [done | lia]. Qed.

Lemma mread_Done m i n s : mread m i n = Done s ->
  0 <= i /\ 0 <= n /\ i + n <= zlen m /\ s = ztake n (zdrop i m).
Proof. unfold mread. intros H. case_match; [|done]. simplify_eq. repeat split; lia || done. Qed.

Lemma mget_app p c s : mget (p ++ c :: s) (zlen p) = Done c.
Proof. unfold mget. rewrite zdrop_app. case_match; [done |]. zl. Qed.

Lemma mwrite_app p x s q : zlen x = zlen s -> mwrite (p ++ x ++ q) (zlen p) s = Done (p ++ s ++ q).
Proof.
  intros H. rewrite mwrite_ok by zl. rewrite ztake_app.
  rewrite (app_assoc p x q), zdrop_app' by zl. done.
Qed.

Lemma memchr_app s c t : c ∉ s -> memchr (s ++ c :: t) c = Some (zlen s).
Proof.
  induction s as [| d s IH]; cbn.
  - by rewrite decide_True.
  - intros [Hn1 Hn2]%not_elem_of_cons. rewrite decide_False, IH by congruence. cbn. f_equal. zl.
Qed.

Lemma memchr_None s c : memchr s c = None <-> c ∉ s.
Proof.
  induction s as [| d s IH]; cbn.
  - split; [intros _; apply not_elem_of_nil | done].
  - rewrite not_elem_of_cons. case_decide; [naive_solver |].
    rewrite fmap_None, IH. naive_solver.
Qed.

Lemma memchr_Some s c i : memchr s c = Some i ->
  exists p q, s = p ++ c :: q /\ zlen p = i /\ c ∉ p.
Proof.
  revert i. induction s as [| d s IH]; cbn; intros i; [done |].
  case_decide; intros H'; simplify_eq.
  - exists [], s. repeat split. apply not_elem_of_nil.
  - apply fmap_Some in H' as (j & Hj & ->). destruct (IH _ Hj) as (p & q & -> & Hp & Hn).
    exists (d :: p), q. repeat split; [zl |].
    apply not_elem_of_cons. naive_solver.
Qed.

(** A block is cut at its first [c] in one way only. *)
Lemma app_first_inj (p q p' q' : bytes) c :
  c ∉ p -> c ∉ p' -> p ++ c :: q = p' ++ c :: q' -> p = p' /\ q = q'.
Proof.
  intros Hp Hp' E.
  assert (zlen p = zlen p') as Hl.
  { apply (memchr_app p c q) in Hp. apply (memchr_app p' c q') in Hp'. congruence. }
  apply app_inj_1 in E as [-> E]; [by injection E | unfold zlen in Hl; lia].
Qed.

(** A decimal number holds no other character. *)
Lemma print_int_notin z c : isdigit c = false -> c <> chr 45 -> c ∉ print_int z.
Proof.
  intros Hd Hm. assert (forall n, 0 <= n -> c ∉ digits n).
  { intros n Hn Hin. pose proof (digits_isdigit n Hn) as HF.
    rewrite Forall_forall in HF. apply HF in Hin. congruence. }
  unfold print_int. destruct (Z.ltb_spec z 0); [| auto].
  rewrite not_elem_of_cons. split; [done |]. apply H. lia.
Qed.

Lemma print_int_head z : 0 <= z -> exists c t, print_int z = c :: t /\ isdigit c = true.
Proof.
  intros Hz. unfold print_int. destruct (Z.ltb_spec z 0); [lia |].
  pose proof (digits_isdigit z Hz) as HF. pose proof (digits_nonempty z Hz).
  destruct HF as [| c t]; [done |]. eauto.
Qed.

(** * Lemmas: little-endian integers *)

Lemma zlen_le_bytes n z : zlen (le_bytes n z) = Z.of_nat n.
Proof. revert z. induction n as [| n IH]; intros z; [done |]. cbn. rewrite zlen_cons, IH. lia. Qed.

Lemma le_value_bytes n z : le_value (le_bytes n z) = z mod 256 ^ Z.of_nat n.
Proof.
  revert z. induction n as [| n IH]; intros z.
  - cbn. by rewrite Z.mod_1_r.
  - cbn [le_bytes le_value]. rewrite uchar_chr, IH, Nat2Z.inj_succ, Z.pow_succ_r by lia.
    assert (0 < 256 ^ Z.of_nat n) by (apply Z.pow_pos_nonneg; lia).
    rewrite Z.rem_mul_r by lia. lia.
Qed.

Lemma le_value_range s : 0 <= le_value s < 256 ^ zlen s.
Proof.
  induction s as [| c s IH]; [split; vm_compute; congruence |].
  cbn [le_value]. rewrite zlen_cons, Z.add_1_l, Z.pow_succ_r by zl.
  pose proof (uchar_range c). lia.
Qed.

Lemma le_bytes_value s : le_bytes (length s) (le_value s) = s.
Proof.
  induction s as [| c s IH]; [done |]. cbn [length le_bytes le_value].
  pose proof (uchar_range c). f_equal.
  - apply uchar_inj. rewrite uchar_chr, Z.mul_comm, Z.mod_add, Z.mod_small by lia. done.
  - rewrite Z.mul_comm, Z.div_add, Z.div_small, Z.add_0_l by lia. done.
Qed.

Lemma zlen_mem_u64 z : zlen (mem_u64 z) = 8.
Proof. apply zlen_le_bytes. Qed.

Lemma rd_mem_u64 z : is_uint64 z -> rd_u64 (mem_u64 z) = z.
Proof.
  intros. unfold rd_u64, mem_u64. rewrite le_value_bytes. apply Z.mod_small.
  change (256 ^ Z.of_nat 8) with (2 ^ 64). zlia.
Qed.

Lemma rd_mem_i64 z : is_int64 z -> rd_i64 (mem_u64 z) = z.
Proof.
  intros. unfold rd_i64, mem_u64, to_int64. rewrite le_value_bytes.
  change (256 ^ Z.of_nat 8) with (2 ^ 64).
  rewrite Zplus_mod_idemp_l. rewrite Z.mod_small; zlia.
Qed.

Lemma mem_u64_inj x y : is_uint64 x -> is_uint64 y -> mem_u64 x = mem_u64 y -> x = y.
Proof. intros Hx Hy H. rewrite <- (rd_mem_u64 x), <- (rd_mem_u64 y) by done. by rewrite H. Qed.

(** * The bytewise order *)

(** Lexicographic comparison of unsigned bytes. *)
Fixpoint lex (s t : bytes) : comparison :=
  match s, t with
  | [], [] => Eq
  | [], _ :: _ => Lt
  | _ :: _, [] => Gt
  | c :: s', d :: t' =>
      match uchar c ?= uchar d with Eq => lex s' t' | r => r end
  end.
Definition bytes_lt (s t : bytes) : Prop := lex s t = Lt.
Definition bytes_le (s t : bytes) : Prop := lex s t <> Gt.

#[global] Instance bytes_lt_dec : RelDecision bytes_lt.
Proof. intros s t. unfold bytes_lt. solve_decision. Defined.
#[global] Instance bytes_le_dec : RelDecision bytes_le.
Proof. intros s t. unfold bytes_le. solve_decision. Defined.

Lemma lex_refl s : lex s s = Eq.
Proof. induction s as [| c s IH]; [done |]. cbn. by rewrite Z.compare_refl. Qed.

Lemma lex_Eq s t : lex s t = Eq -> s = t.
Proof.
  revert t. induction s as [| c s IH]; intros [| d t]; cbn; try done.
  destruct (Z.compare_spec (uchar c) (uchar d)) as [E | |]; try done.
  intros H. by rewrite (uchar_inj _ _ E), (IH _ H).
Qed.

Lemma lex_antisym s t : lex t s = CompOpp (lex s t).
Proof.
  revert t. induction s as [| c s IH]; intros [| d t]; cbn; try done.
  rewrite (Z.compare_antisym (uchar c)). destruct (uchar c ?= uchar d); cbn; auto.
Qed.

Lemma lex_app p s t : lex (p ++ s) (p ++ t) = lex s t.
Proof. induction p as [| c p IH]; [done |]. cbn. by rewrite Z.compare_refl. Qed.

Lemma bytes_lt_cons c s d t :
  bytes_lt (c :: s) (d :: t) <-> uchar c < uchar d \/ (c = d /\ bytes_lt s t).
Proof.
  unfold bytes_lt. cbn. destruct (Z.compare_spec (uchar c) (uchar d)) as [E | |].
  - apply uchar_inj in E as ->. split; [by right |]. intros [? | [_ ?]]; [lia | done].
  - split; [by left | done].
  - split; [done |]. intros [? | [-> _]]; lia.
Qed.

#[global] Instance bytes_lt_strict : StrictOrder bytes_lt.
Proof.
  split.
  - intros s. unfold complement, bytes_lt. by rewrite lex_refl.
  - intros s. induction s as [| c s IH]; intros [| d t] [| e u]; try done.
    rewrite !bytes_lt_cons. intros [H | [-> H]] [H' | [-> H']]; [left; lia | by left | by left |].
    right. split; [done |]. by eapply IH.
Qed.

Lemma bytes_lt_trichotomy s t : bytes_lt s t \/ s = t \/ bytes_lt t s.
Proof.
  unfold bytes_lt. rewrite (lex_antisym s t). destruct (lex s t) eqn:E; auto.
  right; left. by apply lex_Eq.
Qed.

Lemma bytes_le_lteq s t : bytes_le s t <-> bytes_lt s t \/ s = t.
Proof.
  unfold bytes_le, bytes_lt. split.
  - intros H. destruct (lex s t) eqn:E; [right; by apply lex_Eq | by left | done].
  - intros [-> | ->]; [done |]. by rewrite lex_refl.
Qed.

Lemma bytes_not_lt s t : ~ bytes_lt s t <-> bytes_le t s.
Proof. unfold bytes_lt, bytes_le. rewrite (lex_antisym s t). by destruct (lex s t). Qed.

#[global] Instance bytes_le_partial : PartialOrder bytes_le.
Proof.
  split; [split |].
  - intros s. unfold bytes_le. by rewrite lex_refl.
  - intros s t u. rewrite !bytes_le_lteq. intros [H | ->] [H' | ->]; auto.
    left. by etrans.
  - intros s t. rewrite !bytes_le_lteq. intros [H | ->] [H' | ?]; auto.
    by destruct (irreflexivity bytes_lt s); etrans.
Qed.

#[global] Instance bytes_le_total : Total bytes_le.
Proof. intros s t. rewrite !bytes_le_lteq. destruct (bytes_lt_trichotomy s t) as [| [|]]; auto. Qed.

Lemma bytes_lt_le_trans s t u : bytes_lt s t -> bytes_le t u -> bytes_lt s u.
Proof. rewrite bytes_le_lteq. intros ? [? | <-]; [by etrans | done]. Qed.

Lemma bytes_le_lt_trans s t u : bytes_le s t -> bytes_lt t u -> bytes_lt s u.
Proof. rewrite bytes_le_lteq. intros [? | ->] ?; [by etrans | done]. Qed.

Lemma bytes_lt_app_inv p s t : bytes_lt (p ++ s) (p ++ t) <-> bytes_lt s t.
Proof. unfold bytes_lt. by rewrite lex_app. Qed.

Lemma bytes_le_nil s : bytes_le [] s.
Proof. unfold bytes_le. by destruct s. Qed.

(** The sign of [memcmp] over a common length agrees with the order. *)
Lemma memcmp_lex s t : length s = length t ->
  (memcmp s t < 0 <-> lex s t = Lt) /\ (memcmp s t = 0 <-> lex s t = Eq) /\
  (0 < memcmp s t <-> lex s t = Gt).
Proof.
  revert t. induction s as [| c s IH]; intros [| d t]; cbn [length memcmp lex]; intros H; try done.
  destruct (Z.compare_spec (uchar c) (uchar d)) as [E | E | E].
  - rewrite (proj2 (Z.ltb_ge _ _)), (proj2 (Z.ltb_ge _ _)) by lia. apply IH. lia.
  - rewrite (proj2 (Z.ltb_lt _ _)) by lia. naive_solver lia.
  - rewrite (proj2 (Z.ltb_ge _ _)), (proj2 (Z.ltb_lt _ _)) by lia. naive_solver lia.
Qed.

Lemma lex_app_same s t s' t' : length s = length t ->
  lex (s ++ s') (t ++ t') = match lex s t with Eq => lex s' t' | r => r end.
Proof.
  revert t. induction s as [| c s IH]; intros [| d t]; cbn; try done.
  intros H. destruct (uchar c ?= uchar d); try done. apply IH. lia.
Qed.

(** Big-endian bytes are ordered as the numbers. *)
Lemma lex_be_bytes n : forall a b, 0 <= a < 256 ^ Z.of_nat n -> 0 <= b < 256 ^ Z.of_nat n ->
  lex (reverse (le_bytes n a)) (reverse (le_bytes n b)) = (a ?= b).
Proof.
  induction n as [| n IH]; intros a b Ha Hb.
  - cbn in Ha, Hb. replace a with b by lia. by rewrite Z.compare_refl.
  - rewrite Nat2Z.inj_succ, Z.pow_succ_r in Ha, Hb by lia.
    cbn [le_bytes]. rewrite !reverse_cons, lex_app_same.
    2: { pose proof (zlen_le_bytes n (a / 256)). pose proof (zlen_le_bytes n (b / 256)).
         unfold zlen in *. rewrite !length_reverse. lia. }
    rewrite IH by (split; [apply Z.div_pos; lia | apply Z.div_lt_upper_bound; lia]).
    pose proof (Z.div_mod a 256). pose proof (Z.div_mod b 256).
    pose proof (Z.mod_pos_bound a 256). pose proof (Z.mod_pos_bound b 256).
    destruct (Z.compare_spec (a / 256) (b / 256)); cbn; rewrite ?uchar_chr;
      destruct (Z.compare_spec a b); try lia; try done;
      destruct (Z.compare_spec (a mod 256) (b mod 256)); try lia; done.
Qed.

(** * Termination *)

Lemma cstring_app s m : NUL ∉ s -> cstring (s ++ NUL :: m) = Done s.
Proof.
  induction s as [| c s IH]; [done |]. intros [H1 H2]%not_elem_of_cons.
  cbn. rewrite decide_False by done. by rewrite IH.
Qed.

Lemma cstring_unended w : NUL ∉ w -> cstring w = UB.
Proof.
  induction w as [| c w IH]; [done |]. intros [H1 H2]%not_elem_of_cons. cbn. rewrite decide_False by done. by rewrite IH.
Qed.

Lemma cstring_ended w v : exists t, cstring (w ++ NUL :: v) = Done t.
Proof.
  induction w as [| c w [t IH]]; [by exists [] |]. cbn. destruct (decide (c = NUL)); [by exists [] | rewrite IH; by eexists].
Qed.

Lemma ends_mread m i n : ends (mread m i n).
Proof. unfold mread. ends_tac. Qed.
Lemma ends_mget m i : ends (mget m i).
Proof. unfold mget. ends_tac. Qed.
Lemma ends_mwrite m i s : ends (mwrite m i s).
Proof. unfold mwrite. ends_tac. Qed.
Lemma ends_scan_int m : ends (scan_int m).
Proof. unfold scan_int. ends_tac. Qed.
#[export] Hint Resolve ends_mread ends_mget ends_mwrite ends_scan_int : ends.
Lemma ends_strtol m : ends (strtol m).
Proof. unfold strtol. ends_tac. Qed.
Lemma ends_strtoull m : ends (strtoull m).
Proof. unfold strtoull. ends_tac. Qed.
#[export] Hint Resolve ends_strtol ends_strtoull : ends.
Lemma ends_atoi m : ends (atoi m).
Proof. unfold atoi. ends_tac. Qed.
Lemma ends_cstring m : ends (cstring m).
Proof. induction m as [| c m IH]; cbn [cstring]; ends_tac. Qed.
#[export] Hint Resolve ends_atoi ends_cstring : ends.
