(* ===== verification/Anet.v ===== *)
(** The wrappers of [cnm/net/anet.c] around the calls for sockets: connecting, listening,
    accepting, options, and loops that read and write all of a block.

    The kernel and the resolver are a class of the calls that the code makes; what they
    document is the class [SocketLaws]: which descriptors are open, with what options,
    and how many lists of addresses are still to be freed.  The library code is a program
    of a state monad over the kernel and the caller's buffer for messages. *)
From S2P Require Import Prelude CLib.

Module Anet.

Definition ANET_OK : Z := 0.
Definition ANET_ERR : Z := -1.
Definition ANET_ERR_LEN : Z := 256.
Definition ANET_NONE : Z := 0.
Definition ANET_IP_ONLY : Z := 1.
Definition ANET_CONNECT_NONE : Z := 0.
Definition ANET_CONNECT_NONBLOCK : Z := 1.

(** The constants of the platform. *)
Definition AF_UNSPEC : Z := 0.
Definition AF_LOCAL : Z := 1.
Definition AF_INET : Z := 2.
Definition AF_INET6 : Z := 10.
Definition SOCK_STREAM : Z := 1.
Definition AI_PASSIVE : Z := 1.
Definition AI_NUMERICHOST : Z := 4.
Definition EINTR : Z := 4.
Definition EINPROGRESS : Z := 115.
Definition O_RDWR : Z := 2.
Definition O_NONBLOCK : Z := 2048.

(** An option with its level. *)
Inductive sockopt :=
  | SO_REUSEADDR | SO_SNDBUF | SO_KEEPALIVE | SO_SNDTIMEO
  | TCP_NODELAY | TCP_KEEPIDLE | TCP_KEEPINTVL | TCP_KEEPCNT | IPV6_V6ONLY.
Inductive optval := OptInt (z : Z) | OptTimeval (sec usec : Z).

(** The address and the port (as the code has them in memory, the port in network
    order), or the member [sun_path]. *)
Inductive sockaddr := SaIn (sin_addr sin_port : Z) | SaIn6 (sin6_addr sin6_port : Z) | SaUn (sun_path : bytes).

Record addrinfo := mkAddrinfo { ai_family : Z; ai_socktype : Z; ai_protocol : Z; ai_addr : sockaddr }.
Record hints := mkHints { h_flags : Z; h_family : Z; h_socktype : Z }.

(** The calls of the kernel and of the resolver: what they return, and what they write
    for the caller. *)
Class Sockets := {
  kernel : Type;
  errno : kernel -> Z;
  socket : Z -> Z -> Z -> kernel -> Z * kernel;
  close : Z -> kernel -> Z * kernel;
  setsockopt : Z -> sockopt -> optval -> kernel -> Z * kernel;
  fcntl_getfl : Z -> kernel -> Z * kernel;
  fcntl_setfl : Z -> Z -> kernel -> Z * kernel;
  connect : Z -> sockaddr -> kernel -> Z * kernel;
  bind_ : Z -> sockaddr -> kernel -> Z * kernel;
  listen : Z -> Z -> kernel -> Z * kernel;
  accept : Z -> kernel -> Z * sockaddr * kernel;
  read : Z -> Z -> kernel -> Z * bytes * kernel;
  write : Z -> bytes -> kernel -> Z * kernel;
  getpeername : Z -> kernel -> Z * sockaddr * kernel;
  getsockname : Z -> kernel -> Z * sockaddr * kernel;
  chmod : bytes -> Z -> kernel -> Z * kernel;
  getaddrinfo : option bytes -> option bytes -> hints -> kernel -> Z * list addrinfo * kernel;
  freeaddrinfo : list addrinfo -> kernel -> kernel;
  (** the text of an address, if it and its end fit *)
  inet_ntop : Z -> Z -> Z -> option bytes;
  strerror : Z -> bytes;
  gai_strerror : Z -> bytes;
  (** a [struct sockaddr_un] read as a [struct sockaddr_in6] *)
  un_as_in6 : bytes -> Z * Z
}.

(** The kernel, and the buffer for messages if the caller gave one. *)
Record state `{Sockets} := mkState { sys : kernel; err : option bytes }.

Definition M `{Sockets} (A : Type) : Type := state -> exec (A * state).
Definition ret `{Sockets} {A} (a : A) : M A := fun s => Done (a, s).
Definition bind `{Sockets} {A B} (m : M A) (f : A -> M B) : M B := fun s => let* (a, s) := m s in f a s.
Definition pure `{Sockets} {A} (e : exec A) : M A := fun s => let* a := e in Done (a, s).
Definition call `{Sockets} {A} (f : kernel -> A * kernel) : M A := fun s =>
  let (a, k) := f (sys s) in Done (a, mkState _ k (err s)).
Definition get_errno `{Sockets} : M Z := fun s => Done (errno (sys s), s).

Notation "'let^' p := m 'in' k" := (bind m (fun p => k))
  (at level 10, p pattern, m at level 200, k at level 200).

Section Code.
Context `{Sockets}.

(** [vsnprintf] of a text into the caller's buffer *)
Definition anetSetError (text : bytes) : M unit := fun s =>
  Done (tt, mkState _ (sys s) (match err s with None => None | Some _ => Some (snprintf ANET_ERR_LEN text) end)).
(** ... of a text with [strerror(errno)] *)
Definition set_error_errno (text ending : bytes) : M unit :=
  let^ e := get_errno in anetSetError (text ++ strerror e ++ ending).

(** ** Options of a descriptor *)

Definition anetSetBlock (fd non_block : Z) : M Z :=
  let^ flags := call (fcntl_getfl fd) in
  if flags =? -1 then let^ _ := set_error_errno (lit "fcntl(F_GETFL): ") [] in ret ANET_ERR
  else
    let flags := if non_block =? 0 then Z.land flags (Z.lnot O_NONBLOCK) else Z.lor flags O_NONBLOCK in
    let^ r := call (fcntl_setfl fd flags) in
    if r =? -1 then let^ _ := set_error_errno (lit "fcntl(F_SETFL,O_NONBLOCK): ") [] in ret ANET_ERR
    else ret ANET_OK.
Definition anetNonBlock (fd : Z) : M Z := anetSetBlock fd 1.
Definition anetBlock (fd : Z) : M Z := anetSetBlock fd 0.

(** [if (setsockopt(fd, o, v) == -1) { anetSetError(...); return ANET_ERR; }], and
    what comes after it *)
Definition setsockopt_or (fd : Z) (o : sockopt) (v : optval) (text ending : bytes) (next : M Z) : M Z :=
  let^ r := call (setsockopt fd o v) in
  if r =? -1 then let^ _ := set_error_errno text ending in ret ANET_ERR else next.

(** The same with [< 0]. *)
Definition setsockopt_neg (fd : Z) (o : sockopt) (v : optval) (text ending : bytes) (next : M Z) : M Z :=
  let^ r := call (setsockopt fd o v) in
  if r <? 0 then let^ _ := set_error_errno text ending in ret ANET_ERR else next.

Definition anetKeepAlive (fd interval : Z) : M Z :=
  setsockopt_or fd SO_KEEPALIVE (OptInt 1) (lit "setsockopt SO_KEEPALIVE: ") [] (
  setsockopt_neg fd TCP_KEEPIDLE (OptInt interval) (lit "setsockopt TCP_KEEPIDLE: ") [LF] (
  let val := Z.quot interval 3 in
  let val := if val =? 0 then 1 else val in
  setsockopt_neg fd TCP_KEEPINTVL (OptInt val) (lit "setsockopt TCP_KEEPINTVL: ") [LF] (
  setsockopt_neg fd TCP_KEEPCNT (OptInt 3) (lit "setsockopt TCP_KEEPCNT: ") [LF] (
  ret ANET_OK)))).

Definition anetSetTcpNoDelay (fd val : Z) : M Z :=
  setsockopt_or fd TCP_NODELAY (OptInt val) (lit "setsockopt TCP_NODELAY: ") [] (ret ANET_OK).
Definition anetEnableTcpNoDelay (fd : Z) : M Z := anetSetTcpNoDelay fd 1.
Definition anetDisableTcpNoDelay (fd : Z) : M Z := anetSetTcpNoDelay fd 0.
Definition anetSetSendBuffer (fd buffsize : Z) : M Z :=
  setsockopt_or fd SO_SNDBUF (OptInt buffsize) (lit "setsockopt SO_SNDBUF: ") [] (ret ANET_OK).
Definition anetTcpKeepAlive (fd : Z) : M Z :=
  setsockopt_or fd SO_KEEPALIVE (OptInt 1) (lit "setsockopt SO_KEEPALIVE: ") [] (ret ANET_OK).
Definition anetSendTimeout (fd ms : Z) : M Z :=
  setsockopt_or fd SO_SNDTIMEO (OptTimeval (Z.quot ms 1000) (Z.rem ms 1000 * 1000)) (lit "setsockopt SO_SNDTIMEO: ") [] (ret ANET_OK).
Definition anetSetReuseAddr (fd : Z) : M Z :=
  setsockopt_or fd SO_REUSEADDR (OptInt 1) (lit "setsockopt SO_REUSEADDR: ") [] (ret ANET_OK).

(** ** Names *)

(** The text that [inet_ntop] puts into a buffer, which it leaves alone when it fails. *)
Definition ntop (af addr : Z) (buf : bytes) (len : Z) : exec bytes :=
  match inet_ntop af addr len with
  | Some t => mwrite buf 0 (t ++ [NUL])
  | None => Done buf
  end.

Definition ntohs (p : Z) : Z := 256 * (p mod 256) + p / 256 mod 256.

(** The address and the port; a local address is read as if it were one of IPv6. *)
Definition addr_port (sa : sockaddr) : Z * Z :=
  match sa with SaIn a p | SaIn6 a p => (a, p) | SaUn path => un_as_in6 path end.

(** What [anetTcpAccept], [anetPeerToString] and [anetSockName] do with an address:
    it goes to [ip] and [port], where they are given. *)
Definition addr_out (sa : sockaddr) (ip : option bytes) (ip_len : Z) (port : option Z) : exec (option bytes * option Z) :=
  let '(af, (a, p)) := match sa with SaIn a p => (AF_INET, (a, p)) | _ => (AF_INET6, addr_port sa) end in
  let* ip := match ip with None => Done None | Some buf => let* buf := ntop af a buf ip_len in Done (Some buf) end in
  Done (ip, match port with None => None | Some _ => Some (ntohs p) end).

Definition anetGenericResolve (host : bytes) (ipbuf : bytes) (ipbuf_len flags : Z) : M (Z * bytes) :=
  let ai_flags := if Z.land flags ANET_IP_ONLY =? 0 then 0 else AI_NUMERICHOST in
  let^ (rv, info) := call (getaddrinfo (Some host) None (mkHints ai_flags AF_UNSPEC SOCK_STREAM)) in
  if negb (rv =? 0) then let^ _ := anetSetError (gai_strerror rv) in ret (ANET_ERR, ipbuf)
  else
    match info with
    | [] => pure UB
    | i :: _ =>
        let^ ipbuf := pure (if ai_family i =? AF_INET then ntop AF_INET (addr_port (ai_addr i)).1 ipbuf ipbuf_len
                            else ntop AF_INET6 (addr_port (ai_addr i)).1 ipbuf ipbuf_len) in
        let^ _ := call (fun k => (tt, freeaddrinfo info k)) in
        ret (ANET_OK, ipbuf)
    end.
Definition anetResolve (host ipbuf : bytes) (ipbuf_len : Z) : M (Z * bytes) :=
  anetGenericResolve host ipbuf ipbuf_len ANET_NONE.
Definition anetResolveIP (host ipbuf : bytes) (ipbuf_len : Z) : M (Z * bytes) :=
  anetGenericResolve host ipbuf ipbuf_len ANET_IP_ONLY.

(** [anetPeerToString] and [anetSockName], with the call that they make *)
Definition name_to_string (get : kernel -> Z * sockaddr * kernel) (ip : option bytes) (ip_len : Z) (port : option Z) :
    M (Z * option bytes * option Z) :=
  let^ (r, sa) := call get in
  if r =? -1 then
    let port := match port with None => None | Some _ => Some 0 end in
    let^ ip := pure (match ip with
                     | None => UB
                     | Some buf => let* buf := mwrite buf 0 [chr 63] in mwrite buf 1 [NUL]
                     end) in
    ret (-1, Some ip, port)
  else
    let^ (ip, port) := pure (addr_out sa ip ip_len port) in
    ret (0, ip, port).
Definition anetPeerToString (fd : Z) := name_to_string (getpeername fd).
Definition anetSockName (fd : Z) := name_to_string (getsockname fd).

(** ** Connecting *)

Definition anetCreateSocket (domain : Z) : M Z :=
  let^ s := call (socket domain SOCK_STREAM 0) in
  if s =? -1 then let^ _ := set_error_errno (lit "creating socket: ") [] in ret ANET_ERR
  else
    let^ r := anetSetReuseAddr s in
    if r =? ANET_ERR then let^ _ := call (close s) in ret ANET_ERR else ret s.

Definition nonblocking (flags : Z) : bool := negb (Z.land flags ANET_CONNECT_NONBLOCK =? 0).

(** The label that a loop jumps to. *)
Inductive label := to_error | to_end.

(** The loop over the addresses, from one with [s] as the descriptor of the last try *)
Fixpoint connect_loop (flags : Z) (p : list addrinfo) (s : Z) : M (label * Z) :=
  match p with
  | [] => let^ _ := set_error_errno (lit "creating socket: ") [] in ret (to_error, s)
  | a :: p =>
      let^ s := call (socket (ai_family a) (ai_socktype a) (ai_protocol a)) in
      if s =? -1 then connect_loop flags p s else
      let^ r := anetSetReuseAddr s in
      if r =? ANET_ERR then ret (to_error, s) else
      let^ r := if nonblocking flags then anetNonBlock s else ret ANET_OK in
      if negb (r =? ANET_OK) then ret (to_error, s) else
      let^ r := call (connect s (ai_addr a)) in
      if r =? -1 then
        let^ e := get_errno in
        if (e =? EINPROGRESS) && nonblocking flags then ret (to_end, s)
        else let^ _ := call (close s) in connect_loop flags p ANET_ERR
      else ret (to_end, s)
  end.

Definition anetTcpGenericConnect (addr : bytes) (port flags : Z) : M Z :=
  let portstr := snprintf 6 (print_int port) in
  let^ (rv, servinfo) := call (getaddrinfo (Some addr) (Some portstr) (mkHints 0 AF_UNSPEC SOCK_STREAM)) in
  if negb (rv =? 0) then let^ _ := anetSetError (gai_strerror rv) in ret ANET_ERR
  else
    let^ (l, s) := connect_loop flags servinfo ANET_ERR in
    let^ s := match l with
              | to_error => if s =? ANET_ERR then ret s else let^ _ := call (close s) in ret ANET_ERR
              | to_end => ret s
              end in
    let^ _ := call (fun k => (tt, freeaddrinfo servinfo k)) in
    ret s.
Definition anetTcpConnect (addr : bytes) (port : Z) : M Z := anetTcpGenericConnect addr port ANET_CONNECT_NONE.
Definition anetTcpNonBlockConnect (addr : bytes) (port : Z) : M Z := anetTcpGenericConnect addr port ANET_CONNECT_NONBLOCK.

(** [strncpy(sa.sun_path, path, sizeof(sa.sun_path) - 1)] for what was in [sun_path] *)
Definition UNIX_PATH : Z := 108.
Definition set_sun_path (path old : bytes) : bytes :=
  ztake (UNIX_PATH - 1) (path ++ replicate (Z.to_nat (UNIX_PATH - 1)) NUL) ++ zdrop (UNIX_PATH - 1) old.

(** [stack] is what the variable [sa] has in it before. *)
Definition anetUnixGenericConnect (stack : bytes) (path : bytes) (flags : Z) : M Z :=
  let^ s := anetCreateSocket AF_LOCAL in
  if s =? ANET_ERR then ret ANET_ERR else
  let sa := SaUn (set_sun_path path stack) in
  let^ r := if nonblocking flags then anetNonBlock s else ret ANET_OK in
  if negb (r =? ANET_OK) then ret ANET_ERR else
  let^ r := call (connect s sa) in
  if r =? -1 then
    let^ e := get_errno in
    if (e =? EINPROGRESS) && nonblocking flags then ret s
    else
      let^ _ := set_error_errno (lit "connect: ") [] in
      let^ _ := call (close s) in ret ANET_ERR
  else ret s.
Definition anetUnixConnect (stack path : bytes) : M Z := anetUnixGenericConnect stack path ANET_CONNECT_NONE.
Definition anetUnixNonBlockConnect (stack path : bytes) : M Z := anetUnixGenericConnect stack path ANET_CONNECT_NONBLOCK.

(** ** Reading and writing *)

(** The loops work on the block [m], from the offset [buf] on. *)
Fixpoint read_loop (fuel : nat) (fd : Z) (m : bytes) (buf count totlen : Z) : M (Z * bytes) :=
  match fuel with
  | O => pure NoFuel
  | S fuel =>
      if totlen =? count then ret (totlen, m) else
      let^ n := pure (ck_int (count - totlen)) in
      let^ (nread, data) := call (read fd (to_uint64 n)) in
      let^ m := pure (mwrite m buf data) in
      let nread := to_int nread in
      if nread =? 0 then ret (totlen, m) else
      if nread =? -1 then ret (-1, m) else
      let^ totlen := pure (ck_int (totlen + nread)) in
      read_loop fuel fd m (buf + nread) count totlen
  end.
Definition anetRead (fuel : nat) (fd : Z) (m : bytes) (buf count : Z) : M (Z * bytes) := read_loop fuel fd m buf count 0.

Fixpoint write_loop (fuel : nat) (fd : Z) (m : bytes) (buf count totlen : Z) : M Z :=
  match fuel with
  | O => pure NoFuel
  | S fuel =>
      if totlen =? count then ret totlen else
      let^ n := pure (ck_int (count - totlen)) in
      let^ data := pure (mread m buf (to_uint64 n)) in
      let^ nwritten := call (write fd data) in
      let nwritten := to_int nwritten in
      if nwritten =? 0 then ret totlen else
      if nwritten =? -1 then ret (-1) else
      let^ totlen := pure (ck_int (totlen + nwritten)) in
      write_loop fuel fd m (buf + nwritten) count totlen
  end.
Definition anetWrite (fuel : nat) (fd : Z) (m : bytes) (buf count : Z) : M Z := write_loop fuel fd m buf count 0.

(** ** Listening *)

Definition anetListen (s : Z) (sa : sockaddr) (backlog : Z) : M Z :=
  let^ r := call (bind_ s sa) in
  if r =? -1 then
    let^ _ := set_error_errno (lit "bind: ") [] in
    let^ _ := call (close s) in ret ANET_ERR
  else
    let^ r := call (listen s backlog) in
    if r =? -1 then
      let^ _ := set_error_errno (lit "listen: ") [] in
      let^ _ := call (close s) in ret ANET_ERR
    else ret ANET_OK.

Definition anetV6Only (s : Z) : M Z :=
  let^ r := call (setsockopt s IPV6_V6ONLY (OptInt 1)) in
  if r =? -1 then
    let^ _ := set_error_errno (lit "setsockopt: ") [] in
    let^ _ := call (close s) in ret ANET_ERR
  else ret ANET_OK.

(** The loop over the addresses; both ways out of it set [s]. *)
Fixpoint server_loop (af backlog : Z) (p : list addrinfo) : M (label * Z) :=
  match p with
  | [] => let^ _ := anetSetError (lit "unable to bind socket") in ret (to_error, ANET_ERR)
  | a :: p =>
      let^ s := call (socket (ai_family a) (ai_socktype a) (ai_protocol a)) in
      if s =? -1 then server_loop af backlog p else
      let^ r := if af =? AF_INET6 then anetV6Only s else ret ANET_OK in
      if r =? ANET_ERR then ret (to_error, s) else
      let^ r := anetSetReuseAddr s in
      if r =? ANET_ERR then ret (to_error, s) else
      let^ r := anetListen s (ai_addr a) backlog in
      if r =? ANET_ERR then ret (to_error, s) else
      ret (to_end, s)
  end.

Definition _anetTcpServer (port : Z) (bindaddr : option bytes) (af backlog : Z) : M Z :=
  let _port := snprintf 6 (print_int port) in
  let^ (rv, servinfo) := call (getaddrinfo bindaddr (Some _port) (mkHints AI_PASSIVE af SOCK_STREAM)) in
  if negb (rv =? 0) then let^ _ := anetSetError (gai_strerror rv) in ret ANET_ERR
  else
    let^ (l, s) := server_loop af backlog servinfo in
    let s := match l with to_error => ANET_ERR | to_end => s end in
    let^ _ := call (fun k => (tt, freeaddrinfo servinfo k)) in
    ret s.
Definition anetTcpServer (port : Z) (bindaddr : option bytes) (backlog : Z) : M Z := _anetTcpServer port bindaddr AF_INET backlog.
Definition anetTcp6Server (port : Z) (bindaddr : option bytes) (backlog : Z) : M Z := _anetTcpServer port bindaddr AF_INET6 backlog.

Definition anetUnixServer (path : bytes) (perm backlog : Z) : M Z :=
  let^ s := anetCreateSocket AF_LOCAL in
  if s =? ANET_ERR then ret ANET_ERR else
  let sun_path := set_sun_path path (replicate (Z.to_nat UNIX_PATH) NUL) in
  let^ r := anetListen s (SaUn sun_path) backlog in
  if r =? ANET_ERR then ret ANET_ERR else
  let^ _ := if perm =? 0 then ret 0 else let^ p := pure (cstring sun_path) in call (chmod p perm) in
  ret s.

(** ** Accepting *)

Fixpoint anetGenericAccept (fuel : nat) (s : Z) : M (Z * sockaddr) :=
  match fuel with
  | O => pure NoFuel
  | S fuel =>
      let^ (fd, sa) := call (accept s) in
      if fd =? -1 then
        let^ e := get_errno in
        if e =? EINTR then anetGenericAccept fuel s
        else let^ _ := set_error_errno (lit "accept: ") [] in ret (ANET_ERR, sa)
      else ret (fd, sa)
  end.

Definition anetTcpAccept (fuel : nat) (s : Z) (ip : option bytes) (ip_len : Z) (port : option Z) : M (Z * option bytes * option Z) :=
  let^ (fd, sa) := anetGenericAccept fuel s in
  if fd =? -1 then ret (ANET_ERR, ip, port) else
  let^ (ip, port) := pure (addr_out sa ip ip_len port) in
  ret (fd, ip, port).
Definition anetUnixAccept (fuel : nat) (s : Z) : M Z :=
  let^ (fd, _) := anetGenericAccept fuel s in
  if fd =? -1 then ret ANET_ERR else ret fd.
End Code.
End Anet.

(** * What the calls document *)

Module AnetSpec.
Import Anet.

#[export] Instance sockopt_eq_dec : EqDecision sockopt.
Proof. solve_decision. Defined.
#[export] Instance sockopt_countable : Countable sockopt.
Proof.
  refine (inj_countable' (fun o => match o with
    | SO_REUSEADDR => 0 | SO_SNDBUF => 1 | SO_KEEPALIVE => 2 | SO_SNDTIMEO => 3 | TCP_NODELAY => 4
    | TCP_KEEPIDLE => 5 | TCP_KEEPINTVL => 6 | TCP_KEEPCNT => 7 | IPV6_V6ONLY => 8 end%nat)
   (fun n => match n with
    | 0 => SO_REUSEADDR | 1 => SO_SNDBUF | 2 => SO_KEEPALIVE | 3 => SO_SNDTIMEO | 4 => TCP_NODELAY
    | 5 => TCP_KEEPIDLE | 6 => TCP_KEEPINTVL | 7 => TCP_KEEPCNT | _ => IPV6_V6ONLY end%nat) _).
  by intros [].
Defined.

(** An open descriptor of a socket. *)
Inductive conn := Idle | Pending (a : sockaddr) | Connected (a : sockaddr) | Broken.
Record desc := mkDesc {
  d_family : Z; d_flags : Z; d_opts : gmap sockopt optval; d_conn : conn; d_addr : option sockaddr; d_backlog : option Z
}.
Definition new_desc (family : Z) : desc := mkDesc family O_RDWR ∅ Idle None None.
Definition set_opt (o : sockopt) (v : optval) (d : desc) : desc :=
  mkDesc (d_family d) (d_flags d) (<[o := v]> (d_opts d)) (d_conn d) (d_addr d) (d_backlog d).
Definition set_conn (c : conn) (d : desc) : desc :=
  mkDesc (d_family d) (d_flags d) (d_opts d) c (d_addr d) (d_backlog d).
Definition set_addr (a : sockaddr) (d : desc) : desc :=
  mkDesc (d_family d) (d_flags d) (d_opts d) (d_conn d) (Some a) (d_backlog d).
Definition set_backlog (n : Z) (d : desc) : desc :=
  mkDesc (d_family d) (d_flags d) (d_opts d) (d_conn d) (d_addr d) (Some n).
(** [F_SETFL] changes these flags and ignores the others. *)
Definition SETTABLE : Z := 0x46c00.
Definition set_flags (fl : Z) (d : desc) : desc :=
  mkDesc (d_family d) (Z.lor (Z.land fl SETTABLE) (Z.land (d_flags d) (Z.lnot SETTABLE))) (d_opts d) (d_conn d) (d_addr d) (d_backlog d).

(** [descs]: the open descriptors; [lists]: how many results of the resolver are not
    freed; [taken] and [sent]: what has been read from and written to a descriptor. *)
Class SocketLaws `{Sockets} := {
  descs : kernel -> gmap Z desc;
  lists : kernel -> Z;
  taken : kernel -> Z -> bytes;
  sent : kernel -> Z -> bytes;

  socket_law f t p k r k' : socket f t p k = (r, k') -> lists k' = lists k /\
    (r = -1 /\ descs k' = descs k \/ 0 <= r /\ descs k !! r = None /\ descs k' = <[r := new_desc f]> (descs k));
  close_law fd k r k' : close fd k = (r, k') -> lists k' = lists k /\ descs k' = delete fd (descs k);
  setsockopt_law fd o v k r k' : setsockopt fd o v k = (r, k') -> lists k' = lists k /\
    (r = -1 /\ descs k' = descs k \/ r = 0 /\ descs k' = alter (set_opt o v) fd (descs k));
  getfl_law fd k r k' : fcntl_getfl fd k = (r, k') -> lists k' = lists k /\ descs k' = descs k /\
    (r = -1 \/ 0 <= r /\ exists d, descs k !! fd = Some d /\ d_flags d = r);
  setfl_law fd fl k r k' : fcntl_setfl fd fl k = (r, k') -> lists k' = lists k /\
    (r = -1 /\ descs k' = descs k \/ r = 0 /\ descs k' = alter (set_flags fl) fd (descs k));
  connect_law fd a k r k' : connect fd a k = (r, k') -> lists k' = lists k /\
    (r = 0 /\ descs k' = alter (set_conn (Connected a)) fd (descs k) \/
     r = -1 /\ errno k' = EINPROGRESS /\ descs k' = alter (set_conn (Pending a)) fd (descs k) \/
     r = -1 /\ errno k' <> EINPROGRESS /\ exists c, descs k' = alter (set_conn c) fd (descs k));
  bind_law fd a k r k' : bind_ fd a k = (r, k') -> lists k' = lists k /\
    (r = -1 /\ descs k' = descs k \/ r = 0 /\ descs k' = alter (set_addr a) fd (descs k));
  listen_law fd n k r k' : listen fd n k = (r, k') -> lists k' = lists k /\
    (r = -1 /\ descs k' = descs k \/ r = 0 /\ descs k' = alter (set_backlog n) fd (descs k));
  accept_law fd k r a k' : accept fd k = (r, a, k') -> lists k' = lists k /\
    (r = -1 /\ descs k' = descs k \/
     0 <= r /\ descs k !! r = None /\ exists d, d_conn d = Connected a /\ descs k' = <[r := d]> (descs k));
  read_law fd n k r s k' : read fd n k = (r, s, k') -> lists k' = lists k /\ descs k' = descs k /\
    (r = -1 /\ s = [] /\ taken k' = taken k \/
     r = zlen s /\ r <= n /\ taken k' fd = taken k fd ++ s /\ forall x, x <> fd -> taken k' x = taken k x);
  write_law fd s k r k' : write fd s k = (r, k') -> lists k' = lists k /\ descs k' = descs k /\
    (r = -1 /\ sent k' = sent k \/
     0 <= r <= zlen s /\ sent k' fd = sent k fd ++ ztake r s /\ forall x, x <> fd -> sent k' x = sent k x);
  getpeername_law fd k r a k' : getpeername fd k = (r, a, k') -> lists k' = lists k /\ descs k' = descs k;
  getsockname_law fd k r a k' : getsockname fd k = (r, a, k') -> lists k' = lists k /\ descs k' = descs k;
  chmod_law p m k r k' : chmod p m k = (r, k') -> lists k' = lists k /\ descs k' = descs k;
  resolve_law h p hs k r ais k' : getaddrinfo h p hs k = (r, ais, k') -> descs k' = descs k /\
    (r <> 0 /\ lists k' = lists k \/ r = 0 /\ ais <> [] /\ lists k' = lists k + 1);
  free_law ais k : descs (freeaddrinfo ais k) = descs k /\ lists (freeaddrinfo ais k) = lists k - 1;
  ntop_law af a n t : inet_ntop af a n = Some t -> zlen t < n
}.

Section Spec.
Context `{SocketLaws}.
Implicit Types (s : state) (m : gmap Z desc) (n : Z).

(** ** Programs that end with a condition *)

Definition wp {A} (p : M A) s (Q : A -> state -> Prop) : Prop := exists a s', p s = Done (a, s') /\ Q a s'.

Lemma wp_ret {A} (a : A) s (Q : A -> state -> Prop) : Q a s -> wp (ret a) s Q.
Proof. by exists a, s. Qed.

Lemma wp_bind {A B} (p : M A) (f : A -> M B) s Q : wp p s (fun a s' => wp (f a) s' Q) -> wp (bind p f) s Q.
Proof. intros (a & s' & E & b & s'' & E' & HQ). exists b, s''. unfold bind. by rewrite E. Qed.

Lemma wp_call {A B} (f : kernel -> A * kernel) (g : A -> M B) s Q :
  (forall a k, f (sys s) = (a, k) -> wp (g a) (mkState _ k (err s)) Q) -> wp (bind (call f) g) s Q.
Proof.
  intros Hf. destruct (f (sys s)) as [a k] eqn:E. apply wp_bind. exists a, (mkState _ k (err s)). unfold call. rewrite E. auto.
Qed.

Lemma wp_pure {A B} (e : exec A) a (g : A -> M B) s Q : e = Done a -> wp (g a) s Q -> wp (bind (pure e) g) s Q.
Proof. intros -> Hg. apply wp_bind. by exists a, s. Qed.

Lemma wp_mono {A} (p : M A) s (Q R : A -> state -> Prop) : wp p s Q -> (forall a s', Q a s' -> R a s') -> wp p s R.
Proof. intros (a & s' & E & HQ) HR. exists a, s'. auto. Qed.

Lemma wp_errno {B} (g : Z -> M B) s Q : wp (g (errno (sys s))) s Q -> wp (bind get_errno g) s Q.
Proof. intros Hg. apply wp_bind. by exists (errno (sys s)), s. Qed.

(** The open descriptors, and the results of the resolver still to be freed. *)
Definition world m n s : Prop := descs (sys s) = m /\ lists (sys s) = n.
(** A message is in the caller's buffer, within its length. *)
Definition complains s s' : Prop := exists text, err s' = (fun _ => snprintf ANET_ERR_LEN text) <$> err s.

Lemma complains_after s1 s s' : err s1 = err s -> complains s1 s' -> complains s s'.
Proof. unfold complains. by intros ->. Qed.

Lemma complains_still s s1 s2 : complains s s1 -> err s2 = err s1 -> complains s s2.
Proof. unfold complains. by intros Hc ->. Qed.

Lemma wp_error text m n s (Q : unit -> state -> Prop) : world m n s ->
  (forall s', world m n s' -> complains s s' -> Q tt s') -> wp (anetSetError text) s Q.
Proof.
  intros Hw Hg. unfold anetSetError. eexists _, _. split; [done |]. apply Hg; [done |].
  exists text. by destruct (err s).
Qed.

Lemma wp_error_errno {B} text ending (g : unit -> M B) m n s Q : world m n s ->
  (forall s', world m n s' -> complains s s' -> wp (g tt) s' Q) -> wp (bind (set_error_errno text ending) g) s Q.
Proof. intros Hw Hg. apply wp_bind, wp_errno. by apply (wp_error _ m n). Qed.

(** ** Options *)

(** Setting an option, in both forms that the code has. *)
Lemma wp_option fd o v text ending next m n s Q : world m n s ->
  (forall s', world m n s' -> complains s s' -> Q ANET_ERR s') ->
  (forall s', world (alter (set_opt o v) fd m) n s' -> err s' = err s -> wp next s' Q) ->
  wp (setsockopt_or fd o v text ending next) s Q /\ wp (setsockopt_neg fd o v text ending next) s Q.
Proof.
  intros [<- <-] Herr Hok.
  split; apply wp_call; intros r k (Hl & [[-> Hd] | [-> Hd]])%setsockopt_law; cbn [Z.eqb Z.ltb Z.compare Pos.eqb].
  2, 4: by apply Hok.
  all: apply (wp_error_errno _ _ _ (descs (sys s)) (lists (sys s))); [by split | auto using wp_ret].
Qed.

Lemma set_reuse_spec fd m n s Q : world m n s ->
  (forall s', world m n s' -> complains s s' -> Q ANET_ERR s') ->
  (forall s', world (alter (set_opt SO_REUSEADDR (OptInt 1)) fd m) n s' -> err s' = err s -> Q ANET_OK s') ->
  wp (anetSetReuseAddr fd) s Q.
Proof.
  intros Hw Herr Hok. refine (proj1 (wp_option fd _ _ _ [] _ m n s Q Hw Herr _)).
  intros s' Hw' He. apply wp_ret. auto.
Qed.
(** ** Blocking *)

Definition block_flags (non_block fl : Z) : Z :=
  if non_block =? 0 then Z.land fl (Z.lnot O_NONBLOCK) else Z.lor fl O_NONBLOCK.
Definition set_block (non_block : Z) (d : desc) : desc :=
  mkDesc (d_family d) (block_flags non_block (d_flags d)) (d_opts d) (d_conn d) (d_addr d) (d_backlog d).

(** [O_NONBLOCK] is a bit, and one that can be set. *)
Lemma testbit_nonblock i : 0 <= i -> Z.testbit O_NONBLOCK i = (i =? 11).
Proof. intros Hi. change O_NONBLOCK with (2 ^ 11). rewrite Z.pow2_bits_eqb by lia. apply Z.eqb_sym. Qed.

Lemma testbit_block_flags nb fl i : 0 <= i ->
  Z.testbit (block_flags nb fl) i = if i =? 11 then negb (nb =? 0) else Z.testbit fl i.
Proof.
  intros Hi. unfold block_flags.
  destruct (nb =? 0); rewrite ?Z.land_spec, ?Z.lor_spec, ?Z.lnot_spec, testbit_nonblock by done;
    destruct (i =? 11), (Z.testbit fl i); done.
Qed.

Lemma set_flags_block nb d : set_flags (block_flags nb (d_flags d)) d = set_block nb d.
Proof.
  unfold set_flags, set_block. f_equal. apply Z.bits_inj'. intros i Hi.
  rewrite Z.lor_spec, !Z.land_spec, Z.lnot_spec, testbit_block_flags by done.
  destruct (Z.eqb_spec i 11) as [-> |]; [change (Z.testbit SETTABLE 11) with true |];
    repeat destruct (Z.testbit _ _); by destruct (nb =? 0).
Qed.

Lemma alter_at {A} (f : A -> A) k x (m : gmap Z A) : m !! k = Some x -> alter f k m = <[k := f x]> m.
Proof. intros E. rewrite <- (insert_id m k x E) at 1. apply alter_insert_eq. Qed.

Lemma wp_set_block fd nb m n s Q : world m n s ->
  (forall s', world m n s' -> complains s s' -> Q ANET_ERR s') ->
  (forall s' d, m !! fd = Some d -> world (<[fd := set_block nb d]> m) n s' -> err s' = err s -> Q ANET_OK s') ->
  wp (anetSetBlock fd nb) s Q.
Proof.
  intros [<- <-] Herr Hok. apply wp_call. intros r k (Hl & Hd & Hr)%getfl_law.
  destruct Hr as [-> | (Hr & d & Ed & <-)]; cbn [Z.eqb Pos.eqb].
  { apply (wp_error_errno _ _ _ (descs (sys s)) (lists (sys s))); [by split | auto using wp_ret]. }
  rewrite (proj2 (Z.eqb_neq _ _)) by lia. fold (block_flags nb (d_flags d)).
  apply wp_call. cbn [sys err]. intros r k' (Hl' & [[-> Hd'] | [-> Hd']])%setfl_law; cbn [Z.eqb Pos.eqb].
  - apply (wp_error_errno _ _ _ (descs (sys s)) (lists (sys s))); [split; cbn; congruence | auto using wp_ret].
  - apply wp_ret, (Hok _ d Ed); [| done]. split; cbn [sys]; [| congruence].
    by rewrite Hd', Hd, (alter_at _ _ d), set_flags_block.
Qed.

(** Only the one flag of the descriptor changes, or nothing and there is a message. *)
Theorem set_block_spec fd non_block s : exists r s', anetSetBlock fd non_block s = Done (r, s') /\ lists (sys s') = lists (sys s) /\
  (r = ANET_ERR /\ descs (sys s') = descs (sys s) /\ complains s s' \/
   r = ANET_OK /\ err s' = err s /\ exists d, descs (sys s) !! fd = Some d /\
     descs (sys s') = <[fd := set_block non_block d]> (descs (sys s)) /\
     forall i, 0 <= i -> Z.testbit (d_flags (set_block non_block d)) i =
       if i =? 11 then negb (non_block =? 0) else Z.testbit (d_flags d) i).
Proof.
  apply (wp_set_block fd non_block (descs (sys s)) (lists (sys s))); [done | |].
  - intros s' [Hd Hl] Hc. split; [done |]. by left.
  - intros s' d Ed [Hd Hl] He. split; [done |]. right. split_and!; try done. exists d. split_and!; try done.
    intros i Hi. by apply testbit_block_flags.
Qed.

(** The wrappers of one option, the option and its value *)
Definition one_option (fd size ms : Z) : list (M Z * sockopt * optval) :=
  [(anetEnableTcpNoDelay fd, TCP_NODELAY, OptInt 1); (anetDisableTcpNoDelay fd, TCP_NODELAY, OptInt 0);
   (anetSetSendBuffer fd size, SO_SNDBUF, OptInt size); (anetTcpKeepAlive fd, SO_KEEPALIVE, OptInt 1);
   (anetSendTimeout fd ms, SO_SNDTIMEO, OptTimeval (Z.quot ms 1000) (Z.rem ms 1000 * 1000));
   (anetSetReuseAddr fd, SO_REUSEADDR, OptInt 1)].

(** Each sets its option, or nothing and there is a message; a time in milliseconds is
    the same as a [timeval], which is normal. *)
Theorem one_option_spec fd size ms s p o v : (p, o, v) ∈ one_option fd size ms ->
  (exists r s', p s = Done (r, s') /\
    (r = ANET_ERR /\ world (descs (sys s)) (lists (sys s)) s' /\ complains s s' \/
     r = ANET_OK /\ world (alter (set_opt o v) fd (descs (sys s))) (lists (sys s)) s' /\ err s' = err s)) /\
  forall sec usec, v = OptTimeval sec usec -> 0 <= ms -> 1000000 * sec + usec = 1000 * ms /\ 0 <= usec < 1000000.
Proof.
  intros Hin. split.
  - assert (exists text, p = setsockopt_or fd o v text [] (ret ANET_OK)) as [text ->].
    { unfold one_option in Hin. rewrite !elem_of_cons, elem_of_nil in Hin.
      destruct Hin as [E | [E | [E | [E | [E | [E | []]]]]]]; injection E as -> -> ->; by eexists. }
    refine (proj1 (wp_option fd o v text [] (ret ANET_OK) (descs (sys s)) (lists (sys s)) s (fun r s' => _) _ _ _)); [done | |].
    + intros s' Hw Hc. by left.
    + intros s' Hw He. apply wp_ret. by right.
  - intros sec usec -> Hms. unfold one_option in Hin. rewrite !elem_of_cons, elem_of_nil in Hin.
    destruct Hin as [E | [E | [E | [E | [E | [E | []]]]]]]; try discriminate E. injection E as _ _ -> ->.
    pose proof (Z.quot_rem' ms 1000). pose proof (Z.rem_bound_pos ms 1000 Hms ltac:(lia)). lia.
Qed.

(** ** Closing and opening *)

Lemma wp_close {B} fd (g : Z -> M B) m n s Q : world m n s ->
  (forall r s', world (delete fd m) n s' -> err s' = err s -> wp (g r) s' Q) -> wp (bind (call (close fd)) g) s Q.
Proof. intros [<- <-] Hg. apply wp_call. intros r k (Hl & Hd)%close_law. by apply Hg. Qed.

Lemma wp_free {B} ais (g : unit -> M B) m n s Q : world m n s ->
  (forall s', world m (n - 1) s' -> err s' = err s -> wp (g tt) s' Q) ->
  wp (bind (call (fun k => (tt, freeaddrinfo ais k))) g) s Q.
Proof.
  intros [<- <-] Hg. apply wp_call. intros [] k [= <-]. destruct (free_law ais (sys s)) as [Hd Hl]. by apply Hg.
Qed.

Lemma wp_socket {B} f t p (g : Z -> M B) m n s Q : world m n s ->
  (forall s', world m n s' -> err s' = err s -> wp (g (-1)) s' Q) ->
  (forall r s', 0 <= r -> m !! r = None -> world (<[r := new_desc f]> m) n s' -> err s' = err s -> wp (g r) s' Q) ->
  wp (bind (call (socket f t p)) g) s Q.
Proof.
  intros [<- <-] Herr Hok. apply wp_call. intros r k (Hl & [[-> Hd] | (Hr & Hf & Hd)])%socket_law; [by apply Herr | by apply Hok].
Qed.

(** ** Connecting *)

(** A connected socket, or one that is connecting. *)
Definition connecting (flags family : Z) (c : conn) : desc :=
  mkDesc family (if nonblocking flags then Z.lor O_RDWR O_NONBLOCK else O_RDWR) {[SO_REUSEADDR := OptInt 1]} c None None.
Definition reached (flags : Z) (a : sockaddr) (c : conn) : Prop :=
  c = Connected a \/ nonblocking flags = true /\ c = Pending a.

(** The flags of a descriptor that is made ready for a call of [connect] *)
Lemma wp_maybe_nonblock {B} flags x f (g : Z -> M B) m n s Q :
  world (<[x := set_opt SO_REUSEADDR (OptInt 1) (new_desc f)]> m) n s ->
  (forall s', nonblocking flags = true -> world (<[x := set_opt SO_REUSEADDR (OptInt 1) (new_desc f)]> m) n s' ->
     complains s s' -> wp (g ANET_ERR) s' Q) ->
  (forall s', world (<[x := connecting flags f Idle]> m) n s' -> err s' = err s -> wp (g ANET_OK) s' Q) ->
  wp (bind (if nonblocking flags then anetNonBlock x else ret ANET_OK) g) s Q.
Proof.
  intros Hw Herr Hok. apply wp_bind. unfold connecting in Hok. destruct (nonblocking flags).
  - eapply wp_set_block; [exact Hw | auto |]. intros s' d Ed Hw' He. rewrite lookup_insert_eq in Ed. injection Ed as <-.
    rewrite insert_insert_eq in Hw'. by apply Hok.
  - apply wp_ret. by apply Hok.
Qed.

Lemma wp_connect {B} flags x f a (g : Z -> M B) m n s Q : world (<[x := connecting flags f Idle]> m) n s ->
  (forall s', world (<[x := connecting flags f (Connected a)]> m) n s' -> err s' = err s -> wp (g 0) s' Q) ->
  (forall s', errno (sys s') = EINPROGRESS -> world (<[x := connecting flags f (Pending a)]> m) n s' -> err s' = err s -> wp (g (-1)) s' Q) ->
  (forall s' d, errno (sys s') <> EINPROGRESS -> world (<[x := d]> m) n s' -> err s' = err s -> wp (g (-1)) s' Q) ->
  wp (bind (call (connect x a)) g) s Q.
Proof.
  intros [Hw Hn] H1 H2 H3. apply wp_call. intros r k (Hl & Hd)%connect_law. rewrite Hw in Hd.
  destruct Hd as [[-> Hd] | [(-> & He & Hd) | (-> & He & c & Hd)]].
  - rewrite alter_insert_eq in Hd. apply H1; [split; cbn; [exact Hd | congruence] | done].
  - rewrite alter_insert_eq in Hd. apply H2; [done | split; cbn; [exact Hd | congruence] | done].
  - rewrite alter_insert_eq in Hd. eapply H3; [done | split; cbn; [exact Hd | congruence] | done].
Qed.
(** Where the loop stops: with a socket that is reached, or with a message and at most
    one socket, which is closed at the label. *)
Definition tried flags (ais : list addrinfo) m n s (l : label) x s' : Prop :=
  match l with
  | to_end => 0 <= x /\ m !! x = None /\ err s' = err s /\ exists a c, a ∈ ais /\ reached flags (ai_addr a) c /\
      world (<[x := connecting flags (ai_family a) c]> m) n s'
  | to_error => complains s s' /\
      (x = ANET_ERR /\ world m n s' \/ 0 <= x /\ m !! x = None /\ exists d, world (<[x := d]> m) n s')
  end.

Lemma connect_loop_spec flags m n ais : forall s, world m n s ->
  wp (connect_loop flags ais ANET_ERR) s (fun '(l, x) s' => tried flags ais m n s l x s').
Proof.
  induction ais as [| a ais IH]; intros s Hw; cbn [connect_loop].
  { apply (wp_error_errno _ _ _ m n); [done |]. intros s' Hw' Hc. apply wp_ret. split; [done |]. by left. }
  assert (Hnext : forall s', world m n s' -> err s' = err s ->
    wp (connect_loop flags ais ANET_ERR) s' (fun '(l, x) s'' => tried flags (a :: ais) m n s l x s'')).
  { intros s' Hw' He. eapply wp_mono; [by apply IH |]. intros [[] x] s''; unfold tried; rewrite ?He.
    - intros (Hc & Hx). split; [by apply complains_after with s' | done].
    - intros (Hx & Hf & ? & b & c & Hb & Hr). split_and!; try done. exists b, c. split; [by right | done]. }
  apply (wp_socket _ _ _ _ m n); [done | intros s1 Hw1 He1; by apply Hnext |].
  intros x s1 Hx Hf Hw1 He1. rewrite (proj2 (Z.eqb_neq _ _)) by lia.
  assert (Hlost : forall s2 d, world (<[x := d]> m) n s2 -> complains s1 s2 -> tried flags (a :: ais) m n s to_error x s2).
  { intros s2 d Hw2 Hc2. split; [by apply complains_after with s1 |]. right. split_and!; try done. by exists d. }
  apply wp_bind, (set_reuse_spec _ _ n _ _ Hw1); rewrite alter_insert_eq || (intros s2 Hw2 Hc2; by apply wp_ret, (Hlost _ _ Hw2)).
  intros s2 Hw2 He2. cbn [Z.eqb ANET_OK ANET_ERR].
  apply (wp_maybe_nonblock flags x (ai_family a) _ m n); [done | intros s3 _ Hw3 Hc3; apply wp_ret, (Hlost _ _ Hw3); by apply complains_after with s2 |].
  intros s3 Hw3 He3. cbn [Z.eqb ANET_OK negb].
  apply (wp_connect flags x (ai_family a) _ _ m n); [done | | |].
  - intros s4 Hw4 He4. apply wp_ret. split_and!; try congruence. exists a, (Connected (ai_addr a)). split_and!; [left | by left | done].
  - intros s4 Herr Hw4 He4. cbn [Z.eqb Pos.eqb]. apply wp_errno. rewrite Herr. change (EINPROGRESS =? EINPROGRESS) with true. cbn [andb].
    destruct (nonblocking flags) eqn:Hnb.
    + apply wp_ret. split_and!; try congruence. exists a, (Pending (ai_addr a)). split_and!; [left | by right | done].
    + apply (wp_close _ _ _ _ _ _ Hw4). intros r s5 Hw5 He5. rewrite delete_insert_id in Hw5 by done. apply Hnext; congruence.
  - intros s4 d Herr Hw4 He4. cbn [Z.eqb Pos.eqb]. apply wp_errno. rewrite (proj2 (Z.eqb_neq _ _) Herr). cbn [andb].
    apply (wp_close _ _ _ _ _ _ Hw4). intros r s5 Hw5 He5. rewrite delete_insert_id in Hw5 by done. apply Hnext; congruence.
Qed.

(** C28: connecting over TCP leaks nothing: whatever the kernel and the resolver answer,
    [anetTcpGenericConnect] either returns -1 with a message, and exactly the descriptors
    are open that were open before, or it returns one new descriptor, which is a socket
    for an address that the resolver gave, with [SO_REUSEADDR], blocking as asked for, and
    connected (or connecting, if it does not block); in both cases the list of addresses
    has been freed. *)
Theorem connect_spec addr port flags s rv ais k :
  getaddrinfo (Some addr) (Some (snprintf 6 (print_int port))) (mkHints 0 AF_UNSPEC SOCK_STREAM) (sys s) = (rv, ais, k) ->
  exists r s', anetTcpGenericConnect addr port flags s = Done (r, s') /\ lists (sys s') = lists (sys s) /\
    (r = ANET_ERR /\ descs (sys s') = descs (sys s) /\ complains s s' \/
     0 <= r /\ descs (sys s) !! r = None /\ err s' = err s /\ exists a c, a ∈ ais /\ reached flags (ai_addr a) c /\
       descs (sys s') = <[r := connecting flags (ai_family a) c]> (descs (sys s))).
Proof.
  intros Eg. apply wp_call. rewrite Eg. intros ? ? [= <- <-].
  destruct (resolve_law _ _ _ _ _ _ _ Eg) as (Hd & Hl). set (s1 := mkState _ k (err s)).
  destruct (Z.eqb_spec rv 0) as [-> | Hrv]; cbn [negb].
  - assert (world (descs (sys s)) (lists (sys s) + 1) s1) as Hw1 by (split; cbn; [done | by destruct Hl as [[] | (_ & _ & ?)]]).
    apply wp_bind. eapply wp_mono; [by apply connect_loop_spec |]. intros [[] x] s2 Hx.
    + destruct Hx as (Hc & Hx). apply wp_bind.
      apply (wp_mono _ _ (fun r s' => r = ANET_ERR /\ world (descs (sys s)) (lists (sys s) + 1) s' /\ complains s s')).
      * destruct Hx as [(-> & Hw2) | (Hx & Hf & d & Hw2)]; [by apply wp_ret |].
        rewrite (proj2 (Z.eqb_neq _ _)) by (unfold ANET_ERR; lia). apply (wp_close _ _ _ _ _ _ Hw2).
        intros r s3 Hw3 He3. rewrite delete_insert_id in Hw3 by done. apply wp_ret. split_and!; try done.
        by apply (complains_still s s2).
      * intros r s3 (-> & Hw3 & Hc3). apply (wp_free _ _ _ _ _ _ Hw3). intros s4 [Hd4 Hl4] He4. apply wp_ret.
        split; [lia |]. left. split_and!; try done.
        by apply (complains_still s s3).
    + destruct Hx as (Hx & Hf & He & a & c & Ha & Hr & Hw2). apply wp_bind, wp_ret, (wp_free _ _ _ _ _ _ Hw2).
      intros s3 [Hd3 Hl3] He3. apply wp_ret. split; [lia |]. right. split_and!; try done; [by rewrite He3, He |]. by exists a, c.
  - apply wp_bind, (wp_error _ (descs (sys s)) (lists (sys s))).
    + split; cbn; [done |]. by destruct Hl as [[] | []].
    + intros s2 [Hd2 Hl2] Hc. apply wp_ret. split; [done |]. by left.
Qed.
(** ** Local sockets *)

Definition reusable (family : Z) : desc := set_opt SO_REUSEADDR (OptInt 1) (new_desc family).

Lemma wp_create_socket {B} domain (g : Z -> M B) m n s Q : world m n s ->
  (forall s', world m n s' -> complains s s' -> wp (g ANET_ERR) s' Q) ->
  (forall x s', 0 <= x -> m !! x = None -> world (<[x := reusable domain]> m) n s' -> err s' = err s -> wp (g x) s' Q) ->
  wp (bind (anetCreateSocket domain) g) s Q.
Proof.
  intros Hw Herr Hok. apply wp_bind, (wp_socket _ _ _ _ m n); [done | |].
  - intros s1 Hw1 He1. cbn [Z.eqb Pos.eqb]. apply (wp_error_errno _ _ _ m n); [done |]. intros s2 Hw2 Hc2.
    apply wp_ret, Herr; [done | by apply complains_after with s1].
  - intros x s1 Hx Hf Hw1 He1. rewrite (proj2 (Z.eqb_neq _ _)) by lia.
    apply wp_bind, (set_reuse_spec _ _ n _ _ Hw1); rewrite ?alter_insert_eq; intros s2 Hw2 Hc2.
    + cbn [Z.eqb Pos.eqb ANET_ERR]. assert (world (<[x := new_desc domain]> m) n s2) as Hw2' by done.
      apply (wp_close _ _ _ _ _ _ Hw2'). intros r s3 Hw3 He3. rewrite delete_insert_id in Hw3 by done.
      apply wp_ret, Herr; [done |]. apply complains_after with s1; [done |]. by apply (complains_still s1 s2).
    + apply wp_ret, Hok; try done. congruence.
Qed.

(** [anetUnixGenericConnect] is the same for local sockets, but that it does not close
    the socket when [fcntl] fails. *)
Theorem unix_connect_spec stack path flags s :
  exists r s', anetUnixGenericConnect stack path flags s = Done (r, s') /\ lists (sys s') = lists (sys s) /\
    (r = ANET_ERR /\ complains s s' /\
       (descs (sys s') = descs (sys s) \/
        nonblocking flags = true /\ exists x, descs (sys s) !! x = None /\ descs (sys s') = <[x := reusable AF_LOCAL]> (descs (sys s))) \/
     0 <= r /\ descs (sys s) !! r = None /\ err s' = err s /\ exists c, reached flags (SaUn (set_sun_path path stack)) c /\
       descs (sys s') = <[r := connecting flags AF_LOCAL c]> (descs (sys s))).
Proof.
  set (m := descs (sys s)). set (n := lists (sys s)). unfold anetUnixGenericConnect.
  apply (wp_create_socket _ _ m n); [done | |].
  { intros s1 [Hd1 Hl1] Hc1. apply wp_ret. split; [done |]. left. split_and!; [done | done | by left]. }
  intros x s1 Hx Hf Hw1 He1. rewrite (proj2 (Z.eqb_neq _ _)) by (unfold ANET_ERR; lia).
  apply (wp_maybe_nonblock flags x AF_LOCAL _ m n); [done | |].
  { intros s2 Hflags [Hd2 Hl2] Hc2. apply wp_ret. split; [done |]. left. split_and!; [done | by apply complains_after with s1 |].
    right. split; [done |]. by exists x. }
  intros s2 Hw2 He2. cbn [Z.eqb ANET_OK negb].
  assert (Hfail : forall s3 d, world (<[x := d]> m) n s3 -> err s3 = err s2 ->
    wp (let^ _ := set_error_errno (lit "connect: ") [] in let^ _ := call (close x) in ret ANET_ERR) s3
      (fun r s4 => r = ANET_ERR /\ world m n s4 /\ complains s s4)).
  { intros s3 d Hw3 He3. apply (wp_error_errno _ _ _ _ _ _ _ Hw3). intros s4 Hw4 Hc4. apply (wp_close _ _ _ _ _ _ Hw4).
    intros r s5 Hw5 He5. rewrite delete_insert_id in Hw5 by done. apply wp_ret. split_and!; [done | done |].
    apply complains_after with s3; [congruence |]. by apply (complains_still s3 s4). }
  apply (wp_connect flags x AF_LOCAL _ _ m n); [done | | |].
  - intros s3 [Hd3 Hl3] He3. apply wp_ret. split; [done |]. right. split_and!; try congruence. eexists. split; [by left | done].
  - intros s3 Herr Hw3 He3. cbn [Z.eqb Pos.eqb]. apply wp_errno. rewrite Herr. change (EINPROGRESS =? EINPROGRESS) with true. cbn [andb].
    destruct (nonblocking flags) eqn:Hnb.
    + destruct Hw3 as [Hd3 Hl3]. apply wp_ret. split; [done |]. right. split_and!; try congruence. eexists. split; [by right | done].
    + eapply wp_mono; [by eapply Hfail |]. intros r s4 (-> & [Hd4 Hl4] & Hc4). split; [done |]. left. split_and!; [done | done | by left].
  - intros s3 d Herr Hw3 He3. cbn [Z.eqb Pos.eqb]. apply wp_errno. rewrite (proj2 (Z.eqb_neq _ _) Herr). cbn [andb].
    eapply wp_mono; [by eapply Hfail |]. intros r s4 (-> & [Hd4 Hl4] & Hc4). split; [done |]. left. split_and!; [done | done | by left].
Qed.

(** The path arrives as it is, if it is shorter than the member by two bytes. *)
Theorem sun_path_spec path stack : NUL ∉ path -> zlen stack = UNIX_PATH -> zlen path < UNIX_PATH - 1 ->
  zlen (set_sun_path path stack) = UNIX_PATH /\ cstring (set_sun_path path stack) = Done path.
Proof.
  intros Hn Hs Hp. unfold UNIX_PATH in Hs, Hp. unfold set_sun_path, ztake, UNIX_PATH.
  change (Z.to_nat (108 - 1)) with 107%nat. unfold zlen in Hp. rewrite take_app, take_ge, take_replicate by lia.
  destruct (107 - length path)%nat as [| j] eqn:Ej; [lia |].
  rewrite Nat.min_l by lia. cbn [replicate]. split; [| rewrite <- app_assoc; by apply cstring_app].
  rewrite !zlen_app, zlen_zdrop, zlen_cons by lia. unfold zlen in *. rewrite length_replicate. lia.
Qed.

(** ... a longer one is cut, and has no end but by what the variable had in it before. *)
Theorem unix_path_unterminated path stack c : NUL ∉ path -> UNIX_PATH - 1 <= zlen path ->
  zdrop (UNIX_PATH - 1) stack = [c] -> c <> NUL -> cstring (set_sun_path path stack) = UB.
Proof.
  intros Hn Hp Es Hc. apply cstring_unended. unfold set_sun_path. rewrite Es, ztake_app_le by done.
  rewrite not_elem_of_app, list_elem_of_singleton. split; [| congruence]. intros Hin.
  apply Hn. rewrite <- (ztake_zdrop (UNIX_PATH - 1) path), elem_of_app. by left.
Qed.

(** ** Listening *)

(** [anetV6Only] and [anetListen] close the socket when they fail. *)
Lemma wp_v6 x d m n s Q : m !! x = None -> world (<[x := d]> m) n s ->
  (forall s', world m n s' -> complains s s' -> Q ANET_ERR s') ->
  (forall s', world (<[x := set_opt IPV6_V6ONLY (OptInt 1) d]> m) n s' -> err s' = err s -> Q ANET_OK s') ->
  wp (anetV6Only x) s Q.
Proof.
  intros Hf [Hd Hl] Herr Hok. apply wp_call. intros r k (Hl1 & [[-> Hd1] | [-> Hd1]])%setsockopt_law; cbn [Z.eqb Pos.eqb].
  - apply (wp_error_errno _ _ _ (<[x := d]> m) n); [split; cbn; congruence |]. intros s2 Hw2 Hc2.
    apply (wp_close _ _ _ _ _ _ Hw2). intros r s3 Hw3 He3. rewrite delete_insert_id in Hw3 by done. apply wp_ret, Herr; [done |].
    by apply (complains_still _ s2).
  - apply wp_ret, Hok; [| done]. rewrite Hd, alter_insert_eq in Hd1. split; cbn; [done | congruence].
Qed.

Lemma wp_listen x d a backlog m n s Q : m !! x = None -> world (<[x := d]> m) n s ->
  (forall s', world m n s' -> complains s s' -> Q ANET_ERR s') ->
  (forall s', world (<[x := set_backlog backlog (set_addr a d)]> m) n s' -> err s' = err s -> Q ANET_OK s') ->
  wp (anetListen x a backlog) s Q.
Proof.
  intros Hf [Hd Hl] Herr Hok.
  assert (Hfail : forall s1 d1 text, world (<[x := d1]> m) n s1 -> err s1 = err s ->
    wp (let^ _ := set_error_errno text [] in let^ _ := call (close x) in ret ANET_ERR) s1 Q).
  { intros s1 d1 text Hw1 He1. apply (wp_error_errno _ _ _ _ _ _ _ Hw1). intros s2 Hw2 Hc2.
    apply (wp_close _ _ _ _ _ _ Hw2). intros r s3 Hw3 He3. rewrite delete_insert_id in Hw3 by done. apply wp_ret, Herr; [done |].
    apply complains_after with s1; [done |]. by apply (complains_still _ s2). }
  apply wp_call. intros r k (Hl1 & [[-> Hd1] | [-> Hd1]])%bind_law; cbn [Z.eqb Pos.eqb].
  - apply (Hfail _ d); [split; cbn; congruence | done].
  - rewrite Hd, alter_insert_eq in Hd1.
    apply wp_call. cbn [sys err]. intros r k2 (Hl2 & [[-> Hd2] | [-> Hd2]])%listen_law; cbn [Z.eqb Pos.eqb].
    + apply (Hfail _ (set_addr a d)); [split; cbn; congruence | done].
    + apply wp_ret, Hok; [| done]. rewrite Hd1, alter_insert_eq in Hd2. split; cbn; [done | congruence].
Qed.

Definition unbound (af family : Z) : desc :=
  if af =? AF_INET6 then set_opt IPV6_V6ONLY (OptInt 1) (new_desc family) else new_desc family.
Definition listening (af : Z) (a : addrinfo) (backlog : Z) : desc :=
  set_backlog backlog (set_addr (ai_addr a) (set_opt SO_REUSEADDR (OptInt 1) (unbound af (ai_family a)))).

Lemma server_loop_spec af backlog m n ais : forall s, world m n s ->
  wp (server_loop af backlog ais) s (fun '(l, x) s' =>
    match l with
    | to_end => 0 <= x /\ m !! x = None /\ err s' = err s /\ exists a, a ∈ ais /\ world (<[x := listening af a backlog]> m) n s'
    | to_error => complains s s' /\ (world m n s' \/ exists y a, a ∈ ais /\ m !! y = None /\ world (<[y := unbound af (ai_family a)]> m) n s')
    end).
Proof.
  induction ais as [| a ais IH]; intros s Hw; cbn [server_loop].
  { apply wp_bind, (wp_error _ m n); [done |]. intros s' Hw' Hc. apply wp_ret. split; [done |]. by left. }
  apply (wp_socket _ _ _ _ m n); [done | |].
  { intros s1 Hw1 He1. eapply wp_mono; [by apply IH |]. intros [[] x] s2; rewrite ?He1.
    - intros (Hc & Hx). split; [by apply complains_after with s1 |]. destruct Hx as [| (y & b & Hb & ?)]; [by left | right].
      exists y, b. split; [by right | done].
    - intros (Hx & Hf & He & b & Hb & Hw2). split_and!; try done. exists b. split; [by right | done]. }
  intros x s1 Hx Hf Hw1 He1. rewrite (proj2 (Z.eqb_neq _ _)) by lia.
  apply wp_bind, (wp_mono _ _ (fun r s2 => r = ANET_ERR /\ world m n s2 /\ complains s s2 \/
    r = ANET_OK /\ world (<[x := unbound af (ai_family a)]> m) n s2 /\ err s2 = err s)).
  { unfold unbound. destruct (af =? AF_INET6); [| apply wp_ret; by right].
    apply (wp_v6 _ _ _ _ _ _ Hf Hw1); intros s2 Hw2 He2; [left | right]; split_and!; try done; [by apply complains_after with s1 | congruence]. }
  intros r s2 [(-> & Hw2 & Hc2) | (-> & Hw2 & He2)]; cbn [Z.eqb Pos.eqb ANET_OK ANET_ERR].
  { apply wp_ret. split; [done |]. by left. }
  apply wp_bind, (set_reuse_spec _ _ _ _ _ Hw2); rewrite ?alter_insert_eq; intros s3 Hw3 Hc3; cbn [Z.eqb Pos.eqb ANET_OK ANET_ERR].
  { apply wp_ret. split; [by apply complains_after with s2 |]. right. exists x, a. split_and!; [left | done | done]. }
  apply wp_bind, (wp_listen _ _ _ _ _ _ _ _ Hf Hw3); intros s4 Hw4 Hc4; cbn [Z.eqb Pos.eqb ANET_OK ANET_ERR]; apply wp_ret.
  - split; [apply complains_after with s3; [congruence | done] |]. by left.
  - split_and!; try congruence. exists a. split; [left | done].
Qed.

(** C29: listening over TCP: whatever the kernel and the resolver answer, [_anetTcpServer]
    returns one new descriptor, a socket bound to an address that the resolver gave for
    the port, with [SO_REUSEADDR] (and [IPV6_V6ONLY] for IPv6) and the backlog asked for;
    or it returns -1 with a message and opens nothing, but that it leaves a socket open
    when [SO_REUSEADDR] cannot be set.  The list of addresses has been freed. *)
Theorem tcp_server_spec port bindaddr af backlog s rv ais k :
  getaddrinfo bindaddr (Some (snprintf 6 (print_int port))) (mkHints AI_PASSIVE af SOCK_STREAM) (sys s) = (rv, ais, k) ->
  exists r s', _anetTcpServer port bindaddr af backlog s = Done (r, s') /\ lists (sys s') = lists (sys s) /\
    (r = ANET_ERR /\ complains s s' /\
       (descs (sys s') = descs (sys s) \/
        exists x a, a ∈ ais /\ descs (sys s) !! x = None /\ descs (sys s') = <[x := unbound af (ai_family a)]> (descs (sys s))) \/
     0 <= r /\ descs (sys s) !! r = None /\ err s' = err s /\ exists a, a ∈ ais /\
       descs (sys s') = <[r := listening af a backlog]> (descs (sys s))).
Proof.
  intros Eg. apply wp_call. rewrite Eg. intros ? ? [= <- <-].
  destruct (resolve_law _ _ _ _ _ _ _ Eg) as (Hd & Hl). set (s1 := mkState _ k (err s)).
  destruct (Z.eqb_spec rv 0) as [-> | Hrv]; cbn [negb].
  - assert (world (descs (sys s)) (lists (sys s) + 1) s1) as Hw1 by (split; cbn; [done | by destruct Hl as [[] | (_ & _ & ?)]]).
    apply wp_bind. eapply wp_mono; [by apply server_loop_spec |]. intros [[] x] s2 Hx.
    + destruct Hx as (Hc & Hx).
      assert (exists m, world m (lists (sys s) + 1) s2 /\ (m = descs (sys s) \/
        exists y a, a ∈ ais /\ descs (sys s) !! y = None /\ m = <[y := unbound af (ai_family a)]> (descs (sys s)))) as (m & Hw2 & Hm)
        by naive_solver.
      apply (wp_free _ _ _ _ _ _ Hw2). intros s3 [Hd3 Hl3] He3. apply wp_ret. split; [lia |]. left. rewrite Hd3.
      split_and!; [done | by apply (complains_still s s2) | done].
    + destruct Hx as (Hx & Hf & He & a & Ha & Hw2). apply (wp_free _ _ _ _ _ _ Hw2).
      intros s3 [Hd3 Hl3] He3. apply wp_ret. split; [lia |]. right. split_and!; try done; [by rewrite He3, He |]. by exists a.
  - apply wp_bind, (wp_error _ (descs (sys s)) (lists (sys s))).
    + split; cbn; [done |]. by destruct Hl as [[] | []].
    + intros s2 [Hd2 Hl2] Hc. apply wp_ret. split; [done |]. left. split_and!; [done | done | by left].
Qed.
(** A local server does not leak, and its path always has an end. *)
Theorem unix_server_spec path perm backlog s :
  exists r s', anetUnixServer path perm backlog s = Done (r, s') /\ lists (sys s') = lists (sys s) /\
    (r = ANET_ERR /\ complains s s' /\ descs (sys s') = descs (sys s) \/
     0 <= r /\ descs (sys s) !! r = None /\ err s' = err s /\
       descs (sys s') = <[r := set_backlog backlog (set_addr (SaUn (set_sun_path path (replicate (Z.to_nat UNIX_PATH) NUL)))
         (reusable AF_LOCAL))]> (descs (sys s))).
Proof.
  set (m := descs (sys s)). set (n := lists (sys s)). unfold anetUnixServer.
  apply (wp_create_socket _ _ m n); [done | |].
  { intros s1 [Hd1 Hl1] Hc1. apply wp_ret. split; [done |]. by left. }
  intros x s1 Hx Hf Hw1 He1. rewrite (proj2 (Z.eqb_neq _ _)) by (unfold ANET_ERR; lia).
  set (stack := replicate (Z.to_nat UNIX_PATH) NUL).
  destruct (cstring_ended (ztake (UNIX_PATH - 1) (path ++ replicate (Z.to_nat (UNIX_PATH - 1)) NUL)) []) as [t Et].
  change (cstring (set_sun_path path stack) = Done t) in Et.
  apply wp_bind, (wp_listen _ _ _ _ _ _ _ _ Hf Hw1); intros s2 [Hd2 Hl2] Hc2; cbn [Z.eqb Pos.eqb ANET_OK ANET_ERR].
  { apply wp_ret. split; [done |]. left. split_and!; [done | by apply complains_after with s1 | done]. }
  apply wp_bind, (wp_mono _ _ (fun _ s3 => world (descs (sys s2)) (lists (sys s2)) s3 /\ err s3 = err s2)).
  - destruct (perm =? 0); [by apply wp_ret |]. apply (wp_pure _ t); [done |].
    destruct (chmod t perm (sys s2)) as [r k] eqn:Ec. exists r, (mkState _ k (err s2)). unfold call. rewrite Ec.
    destruct (chmod_law _ _ _ _ _ Ec). by split_and!.
  - intros _ s3 [[Hd3 Hl3] He3]. apply wp_ret. split; [congruence |]. right. split_and!; try congruence.
Qed.

(** ** Reading and writing *)

Definition splice (w : bytes) (i : Z) (v : bytes) : bytes := ztake i w ++ v ++ zdrop (i + zlen v) w.

Lemma splice_splice w i u v : 0 <= i -> i + zlen u + zlen v <= zlen w ->
  splice (splice w i u) (i + zlen u) v = splice w i (u ++ v).
Proof.
  intros Hi Hl. pose proof (zlen_nonneg u). pose proof (zlen_nonneg v). unfold splice.
  assert (zlen (ztake i w) = i) as Ht by (apply zlen_ztake; lia). rewrite !app_assoc.
  rewrite (ztake_app' (i + zlen u) (ztake i w ++ u)) by (rewrite zlen_app; lia).
  replace (i + zlen u + zlen v) with (zlen (ztake i w ++ u) + zlen v) by (rewrite zlen_app; lia).
  rewrite zdrop_app_ge, zdrop_zdrop, zlen_app by lia. do 2 f_equal. lia.
Qed.

Lemma zlen_splice w i v : 0 <= i -> i + zlen v <= zlen w -> zlen (splice w i v) = zlen w.
Proof.
  intros Hi Hl. pose proof (zlen_nonneg v). unfold splice. rewrite !zlen_app, zlen_ztake, zlen_zdrop by lia. lia.
Qed.

(** What a call changes of the world around it. *)
Definition quiet s s' : Prop := world (descs (sys s)) (lists (sys s)) s' /\ err s' = err s.

Lemma read_loop_spec fd count : count <= int_max -> forall fuel blk buf tot s,
  0 <= tot <= count -> 0 <= buf -> buf + (count - tot) <= zlen blk -> (Z.to_nat (count - tot) < fuel)%nat ->
  exists r v s', read_loop fuel fd blk buf count tot s = Done ((r, splice blk buf v), s') /\ quiet s s' /\
    taken (sys s') fd = taken (sys s) fd ++ v /\ (forall x, x <> fd -> taken (sys s') x = taken (sys s) x) /\
    tot + zlen v <= count /\
    (r = tot + zlen v /\ (r = count \/ exists k, read fd (count - r) k = (0, [], sys s')) \/
     r = -1 /\ exists k, read fd (count - tot - zlen v) k = (-1, [], sys s')).
Proof.
  intros Hc. induction fuel as [| fuel IH]; intros blk buf tot s Ht Hb Hm Hf; [lia |]. cbn [read_loop].
  assert (Hsp : forall w, w = splice w buf []) by (intros w; unfold splice; cbn; by rewrite Z.add_0_r, ztake_zdrop).
  destruct (Z.eqb_spec tot count) as [-> | Hne].
  { exists count, [], s. rewrite <- Hsp, app_nil_r, Z.add_0_r. by split_and!; [| | | | lia | left; split; [| left]]. }
  unfold bind at 1, pure at 1. rewrite ck_int_ok by zlia. cbn [ebind]. rewrite to_uint64_id by zlia.
  unfold bind at 1, call. destruct (read fd (count - tot) (sys s)) as [[r v] k] eqn:Er. cbn [ebind].
  destruct (read_law _ _ _ _ _ _ Er) as (Hl & Hd & [(-> & -> & Htk) | (-> & Hv & Htk & Hto)]).
  - unfold bind at 1, pure at 1. rewrite mwrite_ok by (rewrite ?zlen_nil; lia). fold (splice blk buf []). cbn [ebind].
    change (to_int (-1)) with (-1). cbn [Z.eqb Pos.eqb].
    exists (-1), [], (mkState _ k (err s)). rewrite app_nil_r, zlen_nil, Z.add_0_r, Z.sub_0_r. cbn [sys].
    split_and!; [done | done | congruence | intros; congruence | lia |]. right. split; [done |]. by exists (sys s).
  - pose proof (zlen_nonneg v). unfold bind at 1, pure at 1. rewrite mwrite_ok by lia. fold (splice blk buf v). cbn [ebind].
    rewrite to_int_id by zlia. rewrite (proj2 (Z.eqb_neq (zlen v) (-1))) by lia.
    destruct (Z.eqb_spec (zlen v) 0) as [Ez | Hnz].
    + apply zlen_0 in Ez as ->. exists tot, [], (mkState _ k (err s)). cbn [sys].
      rewrite zlen_nil, Z.add_0_r.
      split_and!; [done | done | done | done | lia |]. left. split; [done |]. right. by exists (sys s).
    + unfold bind at 1, pure at 1. rewrite ck_int_ok by zlia. cbn [ebind].
      destruct (IH (splice blk buf v) (buf + zlen v) (tot + zlen v) (mkState _ k (err s))) as (r & v' & s' & E & [[Hd' Hl'] He'] & Ht1 & Ht2 & Hle & Hend);
        [lia | lia | rewrite zlen_splice by lia; lia | lia |].
      rewrite E. exists r, (v ++ v'), s'. cbn [sys err] in *. rewrite splice_splice, zlen_app by lia.
      split_and!; [done | split; [split |]; congruence | by rewrite Ht1, Htk, app_assoc | intros; rewrite Ht2, Hto by done; done | lia |].
      destruct Hend as [[-> Hend] | [-> [k' Ek]]]; [left; split; [lia | done] | right; split; [done |]].
      exists k'. by replace (count - tot - (zlen v + zlen v')) with (count - (tot + zlen v) - zlen v') by lia.
Qed.
(** C30: [anetRead] reads all of a block: for any way in which the kernel divides what
    arrives, the loop ends, stays within the block, and puts what the calls of [read] have
    returned there, byte for byte and in order; it returns the count, or what there was
    before the end of the input, or -1 if a call fails. *)
Theorem anetRead_spec fuel fd blk buf count s : 0 <= count <= int_max -> 0 <= buf -> buf + count <= zlen blk ->
  (Z.to_nat count < fuel)%nat ->
  exists r v s', anetRead fuel fd blk buf count s = Done ((r, splice blk buf v), s') /\ quiet s s' /\
    taken (sys s') fd = taken (sys s) fd ++ v /\ (forall x, x <> fd -> taken (sys s') x = taken (sys s) x) /\
    zlen v <= count /\
    (r = zlen v /\ (r = count \/ exists k, read fd (count - r) k = (0, [], sys s')) \/
     r = -1 /\ exists k, read fd (count - zlen v) k = (-1, [], sys s')).
Proof.
  intros Hc Hb Hm Hf.
  destruct (read_loop_spec fd count (proj2 Hc) fuel blk buf 0 s) as (r & v & s' & E & H1 & H2 & H3 & H4 & H5); try lia.
  exists r, v, s'. rewrite Z.sub_0_r in H5. by split_and!.
Qed.

Lemma write_loop_spec fd blk count : count <= int_max -> forall fuel buf tot s,
  0 <= tot <= count -> 0 <= buf -> buf + (count - tot) <= zlen blk -> (Z.to_nat (count - tot) < fuel)%nat ->
  exists r n s', write_loop fuel fd blk buf count tot s = Done (r, s') /\ quiet s s' /\
    sent (sys s') fd = sent (sys s) fd ++ ztake n (zdrop buf blk) /\
    (forall x, x <> fd -> sent (sys s') x = sent (sys s) x) /\ 0 <= n <= count - tot /\
    (r = tot + n /\ (r = count \/ exists v k, write fd v k = (0, sys s')) \/
     r = -1 /\ exists v k, write fd v k = (-1, sys s')).
Proof.
  intros Hc. induction fuel as [| fuel IH]; intros buf tot s Ht Hb Hm Hf; [lia |]. cbn [write_loop].
  destruct (Z.eqb_spec tot count) as [-> | Hne].
  { exists count, 0, s. rewrite ztake_0, app_nil_r, Z.add_0_r. by split_and!; [| | | | lia | lia | left; split; [| left]]. }
  unfold bind at 1, pure at 1. rewrite ck_int_ok by zlia. cbn [ebind]. rewrite to_uint64_id by zlia.
  unfold bind at 1, pure at 1. rewrite mread_ok by lia. cbn [ebind].
  set (v := ztake (count - tot) (zdrop buf blk)).
  assert (Hv : zlen v = count - tot) by (apply zlen_ztake; rewrite zlen_zdrop by lia; lia).
  unfold bind at 1, call. destruct (write fd v (sys s)) as [r k] eqn:Er. cbn [ebind].
  destruct (write_law _ _ _ _ _ Er) as (Hl & Hd & [(-> & Hs) | (Hr & Hs & Hso)]).
  - change (to_int (-1)) with (-1). cbn [Z.eqb Pos.eqb].
    exists (-1), 0, (mkState _ k (err s)). rewrite ztake_0, app_nil_r. cbn [sys].
    split_and!; [done | done | congruence | intros; congruence | lia | lia |]. right. split; [done |]. by exists v, (sys s).
  - rewrite Hv in Hr. rewrite to_int_id by zlia. rewrite (proj2 (Z.eqb_neq r (-1))) by lia.
    destruct (Z.eqb_spec r 0) as [-> | Hnz].
    + exists tot, 0, (mkState _ k (err s)). cbn [sys]. rewrite ztake_0 in *. rewrite Z.add_0_r.
      split_and!; [done | done | done | done | lia | lia |]. left. split; [done |]. right. by exists v, (sys s).
    + unfold bind at 1, pure at 1. rewrite ck_int_ok by zlia. cbn [ebind].
      destruct (IH (buf + r) (tot + r) (mkState _ k (err s))) as (r' & n & s' & E & [[Hd' Hl'] He'] & Ht1 & Ht2 & Hle & Hend); [lia.. |].
      rewrite E. exists r', (r + n), s'. cbn [sys err] in *.
      split_and!; [done | split; [split |]; congruence | | intros; rewrite Ht2, Hso by done; done | lia | lia |].
      * rewrite Ht1, Hs, <- app_assoc. f_equal. unfold v. rewrite <- zdrop_zdrop by lia.
        unfold ztake.
        rewrite take_take, Nat.min_l, Z2Nat.inj_add by lia. unfold zdrop at 2. apply take_take_drop.
      * destruct Hend as [[-> Hend] | [-> Hend]]; [left; split; [lia | done] | by right].
Qed.
(** [anetWrite] likewise writes all of a block, in order. *)
Theorem anetWrite_spec fuel fd blk buf count s : 0 <= count <= int_max -> 0 <= buf -> buf + count <= zlen blk ->
  (Z.to_nat count < fuel)%nat ->
  exists r n s', anetWrite fuel fd blk buf count s = Done (r, s') /\ quiet s s' /\
    sent (sys s') fd = sent (sys s) fd ++ ztake n (zdrop buf blk) /\ (forall x, x <> fd -> sent (sys s') x = sent (sys s) x) /\
    0 <= n <= count /\
    (r = n /\ (r = count \/ exists v k, write fd v k = (0, sys s')) \/ r = -1 /\ exists v k, write fd v k = (-1, sys s')).
Proof.
  intros Hc Hb Hm Hf.
  destruct (write_loop_spec fd blk count (proj2 Hc) fuel buf 0 s) as (r & n & s' & E & H1 & H2 & H3 & H4 & H5); try lia.
  exists r, n, s'. rewrite Z.sub_0_r in H4. by split_and!; try lia.
Qed.

(** A count below zero is not taken for an error: the loop calls [read] with a huge size. *)
Theorem read_negative fuel fd blk buf count s : int_min <= count < 0 ->
  read_loop (S fuel) fd blk buf count 0 s =
    (let^ (nread, data) := call (read fd (2 ^ 64 + count)) in
     let^ blk1 := pure (mwrite blk buf data) in
     let nread := to_int nread in
     if nread =? 0 then ret (0, blk1) else
     if nread =? -1 then ret (-1, blk1) else
     let^ totlen := pure (ck_int nread) in
     read_loop fuel fd blk1 (buf + nread) count totlen) s.
Proof.
  intros Hc. cbn [read_loop]. rewrite (proj2 (Z.eqb_neq 0 count)), Z.sub_0_r by lia.
  unfold bind at 1, pure at 1. rewrite ck_int_ok by zlia. cbn [ebind].
  replace (to_uint64 count) with (2 ^ 64 + count) by (unfold to_uint64; rewrite <- (Z.mod_add _ 1), Z.mod_small; zlia).
  done.
Qed.

(** ** Accepting *)

(** [n] calls of [accept] that a signal interrupts, and one that is not *)
Inductive accepts (sd : Z) : nat -> kernel -> Z -> sockaddr -> kernel -> Prop :=
  | accepts_now k fd a k' : accept sd k = (fd, a, k') -> fd <> -1 \/ errno k' <> EINTR -> accepts sd 0 k fd a k'
  | accepts_again (n : nat) k a0 k1 fd a k' : accept sd k = (-1, a0, k1) -> errno k1 = EINTR -> accepts sd n k1 fd a k' ->
      accepts sd (S n) k fd a k'.

(** [accept] is called again as long as signals interrupt it, and the first other
    answer is the result: one new descriptor, connected to the peer, whose address is
    handed out; or -1 with a message, and no descriptor. *)
Lemma generic_accept_spec sd (n fuel : nat) s fd a k : accepts sd n (sys s) fd a k -> (n < fuel)%nat ->
  exists s', anetGenericAccept fuel sd s = Done ((fd, a), s') /\ lists (sys s') = lists (sys s) /\
    (fd = ANET_ERR /\ descs (sys s') = descs (sys s) /\ complains s s' \/
     0 <= fd /\ descs (sys s) !! fd = None /\ err s' = err s /\ exists d, d_conn d = Connected a /\
       descs (sys s') = <[fd := d]> (descs (sys s))).
Proof.
  intros Ha. revert fuel. remember (sys s) as k0 eqn:Ek. revert s Ek.
  induction Ha as [k fd a k' Ea Hstop | n k a0 k1 fd a k' Ea Hi Ha IH]; intros s -> fuel Hf; (destruct fuel as [| fuel]; [lia |]);
    cbn [anetGenericAccept]; destruct (accept_law _ _ _ _ _ Ea) as (Hl & Hd); unfold bind at 1, call; rewrite Ea; cbn [ebind].
  - destruct Hd as [(-> & Hd) | (Hfd & Hf' & d & Hc & Hd)].
    + cbn [Z.eqb Pos.eqb]. destruct Hstop as [| Hstop]; [done |]. unfold bind at 1, get_errno. cbn [ebind sys].
      rewrite (proj2 (Z.eqb_neq _ _) Hstop).
      destruct (wp_error_errno (lit "accept: ") [] (fun _ => ret (ANET_ERR, a)) (descs k') (lists k') (mkState _ k' (err s))
        (fun r s' => r = (ANET_ERR, a) /\ world (descs k') (lists k') s' /\ complains s s')) as (? & s' & E & -> & [Hd' Hl'] & Hc); [done | |].
      { intros s' Hw' Hc'. by apply wp_ret. }
      exists s'. split; [exact E |]. split; [congruence |]. left. split_and!; [done | congruence | done].
    + rewrite (proj2 (Z.eqb_neq _ _)) by lia. eexists. split; [done |]. split; [done |]. right. split_and!; try done. by exists d.
  - cbn [Z.eqb Pos.eqb]. unfold bind at 1, get_errno. cbn [ebind sys]. rewrite Hi. change (EINTR =? EINTR) with true.
    destruct Hd as [(_ & Hd) | (? & _)]; [| done].
    destruct (IH (mkState _ k1 (err s)) eq_refl fuel ltac:(lia)) as (s' & E & Hl' & Hr). exists s'. cbn [sys err] in *.
    rewrite <- Hd. split; [done |]. split; [congruence | done].
Qed.
(** ** Addresses *)

(** The port is the same in both orders of its bytes. *)
Lemma ntohs_ntohs p : 0 <= p < 2 ^ 16 -> 0 <= ntohs p < 2 ^ 16 /\ ntohs (ntohs p) = p.
Proof.
  intros Hp. unfold ntohs. pose proof (Z.mod_pos_bound p 256 ltac:(lia)). pose proof (Z.div_mod p 256 ltac:(lia)).
  assert (0 <= p / 256 < 256) by (split; [apply Z.div_pos; lia | apply Z.div_lt_upper_bound; lia]).
  rewrite (Z.mod_small (p / 256)) by done. split; [lia |].
  rewrite <- (Z.mod_unique (256 * (p mod 256) + p / 256) 256 (p mod 256) (p / 256)) by lia.
  rewrite <- (Z.div_unique (256 * (p mod 256) + p / 256) 256 (p mod 256) (p / 256)), Z.mod_small by lia. lia.
Qed.

(** What the caller's buffer holds afterwards: the text, if it fits *)
Definition text_of (af addr : Z) (buf : bytes) (len : Z) : bytes :=
  match inet_ntop af addr len with Some t => splice buf 0 (t ++ [NUL]) | None => buf end.

Lemma ntop_spec af addr buf len : len <= zlen buf -> ntop af addr buf len = Done (text_of af addr buf len).
Proof.
  intros Hl. unfold ntop, text_of. destruct (inet_ntop af addr len) as [t |] eqn:E; [| done].
  apply ntop_law in E. rewrite mwrite_ok; [done | lia | rewrite zlen_app; cbn; change (zlen [NUL]) with 1; lia].
Qed.

Definition af_of (sa : sockaddr) : Z := match sa with SaIn _ _ => AF_INET | _ => AF_INET6 end.
Definition ip_out (sa : sockaddr) (ip : option bytes) (len : Z) : option bytes :=
  (fun buf => text_of (af_of sa) (addr_port sa).1 buf len) <$> ip.
Definition port_out (sa : sockaddr) (port : option Z) : option Z := (fun _ => ntohs (addr_port sa).2) <$> port.
Definition holds (ip : option bytes) (len : Z) : Prop := forall buf, ip = Some buf -> len <= zlen buf.

Lemma addr_out_spec sa ip len port : holds ip len -> addr_out sa ip len port = Done (ip_out sa ip len, port_out sa port).
Proof.
  intros Hi. unfold addr_out, ip_out, port_out.
  assert (exists p, addr_port sa = (p.1, p.2) /\ match sa with SaIn a p => (AF_INET, (a, p)) | _ => (AF_INET6, addr_port sa) end = (af_of sa, p))
    as ([a p] & E1 & E2) by (destruct sa; [by exists (sin_addr, sin_port) | by exists (sin6_addr, sin6_port) |];
      cbn; destruct (un_as_in6 sun_path) as [x y]; by exists (x, y)).
  rewrite E2, E1. destruct ip as [buf |], port; cbn [ebind fmap option_fmap option_map fst snd];
    rewrite ?ntop_spec by (by apply Hi); done.
Qed.

(** The address of a peer is printed where the caller wants it. *)
Theorem tcp_accept_spec sd (n fuel : nat) s fd a k ip len port : accepts sd n (sys s) fd a k -> (n < fuel)%nat -> holds ip len ->
  exists s', lists (sys s') = lists (sys s) /\
    (anetTcpAccept fuel sd ip len port s = Done ((ANET_ERR, ip, port), s') /\ descs (sys s') = descs (sys s) /\ complains s s' \/
     anetTcpAccept fuel sd ip len port s = Done ((fd, ip_out a ip len, port_out a port), s') /\
       descs (sys s) !! fd = None /\ exists d, d_conn d = Connected a /\ descs (sys s') = <[fd := d]> (descs (sys s))).
Proof.
  intros Ha Hf Hi. destruct (generic_accept_spec sd n fuel s fd a k Ha Hf) as (s' & E & Hl & Hr). exists s'. split; [done |].
  unfold anetTcpAccept. destruct Hr as [(-> & Hd & Hc) | (Hfd & Hn & He & Hd)]; [left | right].
  - split; [unfold bind at 1; by rewrite E | done].
  - split; [| done]. unfold bind at 1. rewrite E. cbn [ebind]. rewrite (proj2 (Z.eqb_neq _ _)) by lia.
    unfold bind, pure. by rewrite addr_out_spec.
Qed.

(** The name of a peer that is gone is a question mark, but without a buffer for it the
    code writes through the null pointer, which it tests for everywhere else. *)
Theorem peer_error fd len port s a k : getpeername fd (sys s) = (-1, a, k) ->
  anetPeerToString fd None len port s = UB /\
  forall buf, 2 <= zlen buf -> anetPeerToString fd (Some buf) len port s =
    Done ((-1, Some (splice buf 0 [chr 63; NUL]), (fun _ => 0) <$> port), mkState _ k (err s)).
Proof.
  intros E. unfold anetPeerToString, name_to_string, bind at 1, call.
  split; [by rewrite E; destruct port |]. intros buf Hb. unfold bind at 1. rewrite E. cbn [ebind Z.eqb Pos.eqb].
  assert (zlen [chr 63] = 1) as H1 by done. assert (zlen [NUL] = 1) as H2 by done.
  pose proof (zlen_splice buf 0 [chr 63] ltac:(lia) ltac:(lia)) as H3.
  unfold bind, pure. rewrite mwrite_ok by lia. fold (splice buf 0 [chr 63]). cbn [ebind]. rewrite mwrite_ok by lia.
  fold (splice (splice buf 0 [chr 63]) 1 [NUL]). change 1 with (0 + zlen [chr 63]) at 1.
  rewrite (splice_splice buf 0 [chr 63] [NUL]) by lia. by destruct port.
Qed.

Theorem peer_name fd ip len port s r a k : getpeername fd (sys s) = (r, a, k) -> r <> -1 -> holds ip len ->
  anetPeerToString fd ip len port s = Done ((0, ip_out a ip len, port_out a port), mkState _ k (err s)).
Proof.
  intros E Hr Hi. unfold anetPeerToString, name_to_string, bind at 1, call. rewrite E. cbn [ebind].
  rewrite (proj2 (Z.eqb_neq _ _) Hr). unfold bind, pure. by rewrite addr_out_spec.
Qed.

(** A name is resolved to the text of its first address. *)
Theorem resolve_spec host buf len flags s rv ais k :
  getaddrinfo (Some host) None (mkHints (if Z.land flags ANET_IP_ONLY =? 0 then 0 else AI_NUMERICHOST) AF_UNSPEC SOCK_STREAM) (sys s) = (rv, ais, k) ->
  len <= zlen buf ->
  exists r buf' s', anetGenericResolve host buf len flags s = Done ((r, buf'), s') /\ world (descs (sys s)) (lists (sys s)) s' /\
    (r = ANET_ERR /\ rv <> 0 /\ buf' = buf /\ complains s s' \/
     r = ANET_OK /\ rv = 0 /\ err s' = err s /\ exists a rest, ais = a :: rest /\
       buf' = text_of (if ai_family a =? AF_INET then AF_INET else AF_INET6) (addr_port (ai_addr a)).1 buf len).
Proof.
  intros Eg Hb.
  enough (wp (anetGenericResolve host buf len flags) s (fun '(r, buf') s' => world (descs (sys s)) (lists (sys s)) s' /\
    (r = ANET_ERR /\ rv <> 0 /\ buf' = buf /\ complains s s' \/
     r = ANET_OK /\ rv = 0 /\ err s' = err s /\ exists a rest, ais = a :: rest /\
       buf' = text_of (if ai_family a =? AF_INET then AF_INET else AF_INET6) (addr_port (ai_addr a)).1 buf len)))
    as ([r buf'] & s' & E & Hs) by by exists r, buf', s'.
  apply wp_call. rewrite Eg. intros ? ? [= <- <-]. destruct (resolve_law _ _ _ _ _ _ _ Eg) as (Hd & Hl).
  destruct (Z.eqb_spec rv 0) as [-> | Hrv]; cbn [negb].
  - destruct Hl as [[? _] | (_ & Hne & Hl)]; [done |]. destruct ais as [| a ais]; [done |].
    apply (wp_pure _ (text_of (if ai_family a =? AF_INET then AF_INET else AF_INET6) (addr_port (ai_addr a)).1 buf len));
      [destruct (ai_family a =? AF_INET); by apply ntop_spec |].
    apply (wp_free _ _ (descs (sys s)) (lists (sys s) + 1)); [by split |]. intros s' [Hd' Hl'] He. apply wp_ret.
    split; [split; [done | lia] |]. right. split_and!; [done | done | done |]. by exists a, ais.
  - destruct Hl as [[_ Hl] | [? _]]; [| done].
    apply wp_bind, (wp_error _ (descs (sys s)) (lists (sys s))); [by split |]. intros s' Hw' Hc. apply wp_ret. split; [done |]. by left.
Qed.

(** ** Keeping connections alive *)

Definition keepalive (interval : Z) : list (sockopt * optval) :=
  [(SO_KEEPALIVE, OptInt 1); (TCP_KEEPIDLE, OptInt interval);
   (TCP_KEEPINTVL, OptInt (let v := Z.quot interval 3 in if v =? 0 then 1 else v)); (TCP_KEEPCNT, OptInt 3)].
Definition set_opts (os : list (sockopt * optval)) (d : desc) : desc := foldl (fun d '(o, v) => set_opt o v d) d os.

Definition kept fd interval s (r : Z) s' : Prop := exists os rest, os ++ rest = keepalive interval /\
  world (alter (set_opts os) fd (descs (sys s))) (lists (sys s)) s' /\
  (r = ANET_OK /\ rest = [] /\ err s' = err s \/ r = ANET_ERR /\ rest <> [] /\ complains s s').

Lemma wp_keep fd interval os o v rest text ending next s s1 : os ++ (o, v) :: rest = keepalive interval ->
  world (alter (set_opts os) fd (descs (sys s))) (lists (sys s)) s1 -> err s1 = err s ->
  (forall s2, world (alter (set_opts (os ++ [(o, v)])) fd (descs (sys s))) (lists (sys s)) s2 -> err s2 = err s ->
     wp next s2 (kept fd interval s)) ->
  wp (setsockopt_or fd o v text ending next) s1 (kept fd interval s) /\
  wp (setsockopt_neg fd o v text ending next) s1 (kept fd interval s).
Proof.
  intros Eo Hw He Hnext. apply (wp_option _ _ _ _ _ _ _ _ _ _ Hw).
  - intros s2 Hw2 Hc2. exists os, ((o, v) :: rest). split_and!; [done | done |]. right. split_and!; [done | done |].
    by apply complains_after with s1.
  - intros s2 [Hd2 Hl2] He2. apply Hnext; [| congruence]. split; [| done]. rewrite Hd2, alter_alter_eq.
    apply alter_ext. intros d _. unfold set_opts. by rewrite foldl_app.
Qed.

(** The four options are set in their order, up to the first that the kernel refuses; the
    pause between probes is never zero. *)
Theorem keepalive_spec fd interval s : exists r s' os rest, anetKeepAlive fd interval s = Done (r, s') /\
  os ++ rest = keepalive interval /\ world (alter (set_opts os) fd (descs (sys s))) (lists (sys s)) s' /\
  (r = ANET_OK /\ rest = [] /\ err s' = err s \/ r = ANET_ERR /\ rest <> [] /\ complains s s') /\
  (0 <= interval -> forall v, (TCP_KEEPINTVL, v) ∈ keepalive interval -> v = OptInt (Z.max 1 (interval / 3))).
Proof.
  enough (wp (anetKeepAlive fd interval) s (kept fd interval s)) as (r & s' & E & os & rest & Hos & Hw & Hr).
  { exists r, s', os, rest. split_and!; try done. intros Hi v Hv. unfold keepalive in Hv.
    assert (v = OptInt (let v := Z.quot interval 3 in if v =? 0 then 1 else v)) as -> by (set_solver).
    f_equal. rewrite Z.quot_div_nonneg by lia. cbn zeta. pose proof (Z.div_pos interval 3 Hi).
    destruct (Z.eqb_spec (interval / 3) 0); lia. }
  assert (Hw : world (alter (set_opts []) fd (descs (sys s))) (lists (sys s)) s).
  { split; [symmetry; by apply alter_id | done]. }
  unfold anetKeepAlive. eapply wp_keep; [| exact Hw | done |]; [reflexivity |]. intros s1 Hw1 He1.
  eapply wp_keep; [| exact Hw1 | done |]; [reflexivity |]. intros s2 Hw2 He2.
  eapply wp_keep; [| exact Hw2 | done |]; [reflexivity |]. intros s3 Hw3 He3.
  eapply wp_keep; [| exact Hw3 | done |]; [reflexivity |]. intros s4 Hw4 He4.
  apply wp_ret. eexists _, []. split; [| split; [exact Hw4 | by left]]. reflexivity.
Qed.
End Spec.
End AnetSpec.

(** * A kernel to run the code on *)

Module AnetSamples.
Import Anet AnetSpec.

(** [plan] is what becomes of the calls that can fail, in their order: the error, or 0;
    a call that is not planned succeeds.  [input] is what arrives, in pieces. *)
Record os := mkOs {
  k_errno : Z; k_descs : gmap Z desc; k_lists : Z; plan : list Z; input : list bytes;
  k_taken : gmap Z bytes; k_sent : gmap Z bytes
}.
Definition set_descs (m : gmap Z desc) (k : os) : os := mkOs (k_errno k) m (k_lists k) (plan k) (input k) (k_taken k) (k_sent k).
Definition set_errno (e : Z) (k : os) : os := mkOs e (k_descs k) (k_lists k) (plan k) (input k) (k_taken k) (k_sent k).
Definition set_lists (n : Z) (k : os) : os := mkOs (k_errno k) (k_descs k) n (plan k) (input k) (k_taken k) (k_sent k).

(** The next call, with its error: the state it finds has the rest of the plan. *)
Definition planned (k : os) : Z * os :=
  match plan k with
  | [] => (0, k)
  | e :: rest => (e, set_errno e (mkOs (k_errno k) (k_descs k) (k_lists k) rest (input k) (k_taken k) (k_sent k)))
  end.
Definition attempt (f : os -> Z * os) (k : os) : Z * os :=
  let (e, k) := planned k in if e =? 0 then f k else (-1, k).
Definition changing (f : gmap Z desc -> gmap Z desc) : os -> Z * os := attempt (fun k => (0, set_descs (f (k_descs k)) k)).

(** One above all descriptors in use. *)
Definition next_fd (m : gmap Z desc) : Z := 1 + map_fold (fun fd _ x => Z.max fd x) 2 m.

Definition o_socket (f _ _ : Z) : os -> Z * os := attempt (fun k =>
  let fd := next_fd (k_descs k) in (fd, set_descs (<[fd := new_desc f]> (k_descs k)) k)).
Definition o_getfl (fd : Z) : os -> Z * os := attempt (fun k =>
  match k_descs k !! fd with Some d => (if 0 <=? d_flags d then d_flags d else -1, k) | None => (-1, k) end).
Definition o_connect (fd : Z) (a : sockaddr) (k : os) : Z * os :=
  let (e, k) := planned k in
  if e =? 0 then (0, set_descs (alter (set_conn (Connected a)) fd (k_descs k)) k)
  else (-1, set_errno e (set_descs (alter (set_conn (if e =? EINPROGRESS then Pending a else Broken)) fd (k_descs k)) k)).
Definition peer : sockaddr := SaIn 7 20480.
Definition o_accept (_ : Z) (k : os) : Z * sockaddr * os :=
  let (fd, k) := attempt (fun k => let fd := next_fd (k_descs k) in
    (fd, set_descs (<[fd := set_conn (Connected peer) (new_desc AF_INET)]> (k_descs k)) k)) k in
  (fd, peer, k).
Definition log (fd : Z) (s : bytes) (m : gmap Z bytes) : gmap Z bytes := <[fd := default [] (m !! fd) ++ s]> m.
Definition o_read (fd n : Z) (k : os) : Z * bytes * os :=
  let (e, k) := planned k in
  if negb (e =? 0) || (n <? 0) then (-1, [], k) else
  let v := match input k with [] => [] | v :: _ => ztake n v end in
  let rest := match input k with [] => [] | v :: l => if zlen v <=? n then l else zdrop n v :: l end in
  (zlen v, v, mkOs (k_errno k) (k_descs k) (k_lists k) (plan k) rest (log fd v (k_taken k)) (k_sent k)).
Definition o_write (fd : Z) (v : bytes) : os -> Z * os := attempt (fun k =>
  let n := Z.min 4 (zlen v) in
  (n, mkOs (k_errno k) (k_descs k) (k_lists k) (plan k) (input k) (k_taken k) (log fd (ztake n v) (k_sent k)))).
Definition o_name (_ : Z) (k : os) : Z * sockaddr * os := let (r, k) := attempt (fun k => (0, k)) k in (r, peer, k).
Definition ais : list addrinfo :=
  [mkAddrinfo AF_INET6 SOCK_STREAM 6 (SaIn6 1 20480); mkAddrinfo AF_INET SOCK_STREAM 6 (SaIn 7 20480)].
Definition o_resolve (_ _ : option bytes) (_ : hints) (k : os) : Z * list addrinfo * os :=
  let (e, k) := planned k in
  if e =? 0 then (0, ais, set_lists (k_lists k + 1) k) else (e, [], k).

#[export] Instance sample_sockets : Sockets := {
  kernel := os; errno := k_errno; socket := o_socket; close fd k := (0, set_descs (delete fd (k_descs k)) k);
  setsockopt fd o v := changing (alter (set_opt o v) fd);
  fcntl_getfl := o_getfl; fcntl_setfl fd fl := changing (alter (set_flags fl) fd); connect := o_connect;
  bind_ fd a := changing (alter (set_addr a) fd); listen fd n := changing (alter (set_backlog n) fd);
  accept := o_accept; read := o_read; write := o_write; getpeername := o_name; getsockname := o_name;
  chmod _ _ := attempt (fun k => (0, k)); getaddrinfo := o_resolve; freeaddrinfo _ k := set_lists (k_lists k - 1) k;
  inet_ntop af _ n := let t := if af =? AF_INET then lit "0.0.0.7" else lit "::1" in if zlen t <? n then Some t else None;
  strerror e := lit "error " ++ print_int e; gai_strerror e := lit "no name"; un_as_in6 _ := (0, 0)
}.

Lemma planned_same k e k' : planned k = (e, k') ->
  k_descs k' = k_descs k /\ k_lists k' = k_lists k /\ k_taken k' = k_taken k /\ k_sent k' = k_sent k.
Proof. unfold planned. destruct (plan k); by intros [= <- <-]. Qed.

Lemma attempt_law (f : os -> Z * os) k r k' : attempt f k = (r, k') ->
  exists k1, k_descs k1 = k_descs k /\ k_lists k1 = k_lists k /\ k_taken k1 = k_taken k /\ k_sent k1 = k_sent k /\
    (f k1 = (r, k') \/ r = -1 /\ k' = k1).
Proof.
  unfold attempt. destruct (planned k) as [e k1] eqn:E. apply planned_same in E as (H1 & H2 & H3 & H4).
  destruct (e =? 0); intros H; exists k1; split_and!; try done; [by left | right]. by injection H.
Qed.

Lemma changing_law f k r k' : changing f k = (r, k') -> k_lists k' = k_lists k /\
  (r = -1 /\ k_descs k' = k_descs k \/ r = 0 /\ k_descs k' = f (k_descs k)).
Proof.
  intros (k1 & Hd & Hl & _ & _ & [E | [-> ->]])%attempt_law; [| split; [done | by left]].
  injection E as <- <-. cbn. rewrite Hd. split; [done | by right].
Qed.

Lemma next_fd_fresh m : 0 <= next_fd m /\ m !! next_fd m = None.
Proof.
  unfold next_fd.
  enough (2 <= map_fold (fun fd _ x => Z.max fd x) 2 m /\ forall fd d, m !! fd = Some d -> fd <= map_fold (fun fd _ x => Z.max fd x) 2 m) as [H1 H2].
  { split; [lia |]. destruct (m !! _) as [d |] eqn:E; [| done]. apply H2 in E. lia. }
  apply (map_fold_weak_ind (fun x m => 2 <= x /\ forall fd (d : desc), m !! fd = Some d -> fd <= x)); [done |].
  intros i d m' x Hi [H1 H2]. split; [lia |]. intros fd d'. rewrite lookup_insert_Some. intros [[-> _] | [_ E%H2]]; lia.
Qed.
#[export, refine] Instance sample_laws : SocketLaws := {
  descs := k_descs; lists := k_lists;
  taken k fd := default [] (k_taken k !! fd); sent k fd := default [] (k_sent k !! fd)
}.
Proof.
  - cbn. unfold o_socket. intros f t p k r k' (k1 & Hd & Hl & _ & _ & [E | [-> ->]])%attempt_law; [| split; [done | by left]].
    injection E as <- <-. cbn. rewrite Hd. destruct (next_fd_fresh (k_descs k)). split; [done | by right].
  - cbn. by intros fd k r k' [= <- <-].
  - cbn. intros fd o v k r k'. apply changing_law.
  - cbn. unfold o_getfl. intros fd k r k' (k1 & Hd & Hl & _ & _ & [E | [-> ->]])%attempt_law; [| by split_and!; [| | left]].
    rewrite Hd in E. destruct (k_descs k !! fd) as [d |] eqn:Ed; [| injection E as <- <-; by split_and!; [| | left]].
    destruct (Z.leb_spec 0 (d_flags d)); injection E as <- <-; split_and!; try done; [right; split; [done |]; by exists d | by left].
  - cbn. intros fd fl k r k'. apply changing_law.
  - cbn. unfold o_connect. intros fd a k r k'. destruct (planned k) as [e k1] eqn:E. apply planned_same in E as (Hd & Hl & _ & _).
    destruct (e =? 0); intros [= <- <-]; cbn; rewrite Hd; (split; [done |]); [by left | right].
    destruct (Z.eqb_spec e EINPROGRESS); [left | right; split_and!; [done | done | by exists Broken]]. done.
  - cbn. intros fd a k r k'. apply changing_law.
  - cbn. intros fd n k r k'. apply changing_law.
  - cbn. unfold o_accept. intros fd k r a k'. destruct (attempt _ k) as [r1 k2] eqn:E. intros [= <- <- <-].
    apply attempt_law in E as (k1 & Hd & Hl & _ & _ & [E | [-> ->]]); [| split; [done | by left]].
    injection E as <- <-. cbn. rewrite Hd. destruct (next_fd_fresh (k_descs k)). split; [done | right]. split_and!; [done | done |]. by exists (set_conn (Connected peer) (new_desc AF_INET)).
  - cbn. unfold o_read. intros fd n k r s k'. destruct (planned k) as [e k1] eqn:E. apply planned_same in E as (Hd & Hl & Ht & Hs).
    destruct (e =? 0); cbn [negb orb]; [| intros [= <- <- <-]; split_and!; try done; left; split_and!; [done | done | by rewrite Ht]].
    destruct (Z.ltb_spec n 0); intros [= <- <- <-]; (split_and!; [done | done |]); [left; split_and!; [done | done | by rewrite Ht] | right].
    cbn. rewrite Ht. unfold log. split_and!; [done | | by rewrite lookup_insert_eq | intros; by rewrite lookup_insert_ne].
    destruct (input k1) as [| v l]; [done |]. unfold zlen, ztake. rewrite length_take. lia.
  - cbn. unfold o_write. intros fd v k r k' (k1 & Hd & Hl & _ & Hs & [E | [-> ->]])%attempt_law;
      [injection E as <- <- | split_and!; [done | done |]; left; split; [done | by rewrite Hs]].
    cbn. split_and!; [done | done |]. right. rewrite Hs. unfold log. pose proof (zlen_nonneg v).
    split_and!; [lia | lia | by rewrite lookup_insert_eq | intros; by rewrite lookup_insert_ne].
  - cbn. unfold o_name. intros fd k r a k'. destruct (attempt _ k) as [r1 k2] eqn:E. intros [= <- <- <-].
    by apply attempt_law in E as (k1 & Hd & Hl & _ & _ & [[= <- <-] | [-> ->]]).
  - cbn. unfold o_name. intros fd k r a k'. destruct (attempt _ k) as [r1 k2] eqn:E. intros [= <- <- <-].
    by apply attempt_law in E as (k1 & Hd & Hl & _ & _ & [[= <- <-] | [-> ->]]).
  - cbn. intros p m k r k' E. by apply attempt_law in E as (k1 & Hd & Hl & _ & _ & [[= <- <-] | [-> ->]]).
  - cbn. unfold o_resolve. intros h p hs k r l k'. destruct (planned k) as [e k1] eqn:E. apply planned_same in E as (Hd & Hl & _ & _).
    destruct (Z.eqb_spec e 0); intros [= <- <- <-]; cbn; (split; [done |]); [right | left]; [by rewrite Hl | done].
  - cbn. done.
  - intros af a n t E. change ((let t := if af =? AF_INET then lit "0.0.0.7" else lit "::1" in if zlen t <? n then Some t else None) = Some t) in E.
    cbv zeta in E. destruct (Z.ltb_spec (zlen (if af =? AF_INET then lit "0.0.0.7" else lit "::1")) n) as [Hlt |]; [| done]. by injection E as <-.
Defined.

(** A program where no socket is open. *)
Definition start (p : list Z) (l : list bytes) : state := mkState sample_sockets (mkOs 0 ∅ 0 p l ∅ ∅) (Some []).
Definition result {A} (f : state (H := sample_sockets) -> A) {B} (r : exec (B * state)) : exec (B * A) :=
  let* (b, s) := r in Done (b, f s).
Definition open_fds (s : state) : list (Z * desc) := map_to_list (k_descs (sys s)).

(** The first address refuses, the second answers later. *)
Definition refused : state := start [0; 0; 0; 0; 0; 111; 0; 0; 0; 0; EINPROGRESS] [].

Lemma connect_spec_witness : exists s', anetTcpGenericConnect (lit "host") 80 1 refused = Done (3, s') /\
  lists (sys s') = 0 /\ open_fds s' = [(3, connecting 1 AF_INET (Pending (SaIn 7 20480)))].
Proof.
  destruct (connect_spec (H0 := sample_laws) (lit "host") 80 1 refused 0 ais (set_lists 1 (snd (planned (sys refused)))) eq_refl)
    as (r & s' & E & Hl & _).
  assert (result open_fds (anetTcpGenericConnect (lit "host") 80 1 refused) = Done (3, [(3, connecting 1 AF_INET (Pending (SaIn 7 20480)))])) as Ho
    by (vm_compute; reflexivity).
  unfold result in Ho. rewrite E in Ho. injection Ho as -> Ho. exists s'. exact (conj E (conj Hl Ho)).
Defined.

Lemma tcp_server_spec_witness : exists s', _anetTcpServer 80 None AF_INET6 128 (start [] []) = Done (3, s') /\
  lists (sys s') = 0 /\ open_fds s' = [(3, listening AF_INET6 (mkAddrinfo AF_INET6 SOCK_STREAM 6 (SaIn6 1 20480)) 128)].
Proof.
  destruct (tcp_server_spec (H0 := sample_laws) 80 None AF_INET6 128 (start [] []) 0 ais (set_lists 1 (sys (start [] []))) eq_refl)
    as (r & s' & E & Hl & _).
  assert (result open_fds (_anetTcpServer 80 None AF_INET6 128 (start [] [])) =
    Done (3, [(3, listening AF_INET6 (mkAddrinfo AF_INET6 SOCK_STREAM 6 (SaIn6 1 20480)) 128)])) as Ho by (vm_compute; reflexivity).
  unfold result in Ho. rewrite E in Ho. injection Ho as -> Ho. exists s'. exact (conj E (conj Hl Ho)).
Defined.

(** Two sockets that nobody closes: [SO_REUSEADDR] is refused to a server, and [fcntl] to
    a client.  The TCP client closes its socket in both cases. *)
Example server_leaks : result open_fds (anetTcpServer 80 None 128 (start [0; 0; 12] [])) = Done (ANET_ERR, [(3, new_desc AF_INET6)]).
Proof. vm_compute. reflexivity. Qed.
Example unix_client_leaks : result open_fds (anetUnixNonBlockConnect (replicate 108 NUL) (lit "/tmp/s") (start [0; 0; 12] [])) =
  Done (ANET_ERR, [(3, reusable AF_LOCAL)]).
Proof. vm_compute. reflexivity. Qed.
Example tcp_client_closes : result open_fds (anetTcpNonBlockConnect (lit "host") 80 (start [0; 0; 12] [])) = Done (ANET_ERR, []) /\
  result open_fds (anetTcpNonBlockConnect (lit "host") 80 (start [0; 0; 0; 12] [])) = Done (ANET_ERR, []).
Proof. split; vm_compute; reflexivity. Qed.
(** A server gives up at the first address that cannot be bound, a client goes on. *)
Example server_gives_up : result err (anetTcpServer 80 None 128 (start [0; 0; 0; 98] [])) = Done (ANET_ERR, Some (lit "bind: error 98")).
Proof. vm_compute. reflexivity. Qed.
(** A port of more than five digits is cut. *)
Example port_cut : snprintf 6 (print_int 123456) = snprintf 6 (print_int 12345).
Proof. vm_compute. reflexivity. Qed.

Lemma anetRead_spec_witness : exists s', anetRead 100 3 (lit "................") 2 9 (start [] [lit "abc"; lit "defgh"; lit "ijklm"]) =
    Done ((9, lit "..abcdefghi....."), s') /\ input (sys s') = [lit "jklm"].
Proof.
  destruct (anetRead_spec (H0 := sample_laws) 100 3 (lit "................") 2 9 (start [] [lit "abc"; lit "defgh"; lit "ijklm"]))
    as (r & v & s' & E & _); [by vm_compute | by vm_compute | by vm_compute | cbv; lia |].
  assert (result (fun s => input (sys s)) (anetRead 100 3 (lit "................") 2 9 (start [] [lit "abc"; lit "defgh"; lit "ijklm"])) =
    Done ((9, lit "..abcdefghi....."), [lit "jklm"])) as Hi by (vm_compute; reflexivity).
  unfold result in Hi. rewrite E in Hi. cbn [ebind] in Hi.
  assert (r = 9 /\ splice (lit "................") 2 v = lit "..abcdefghi....." /\ input (sys s') = [lit "jklm"]) as (-> & Hv & Hs)
    by (split_and!; congruence).
  rewrite Hv in E. exists s'. exact (conj E Hs).
Defined.

(** A signal interrupts [accept] twice. *)
Example accept_interrupted : result open_fds (anetTcpAccept 3 3 (Some (lit "................")) 16 (Some 0) (start [EINTR; EINTR] [])) =
  Done ((3, Some (lit "0.0.0.7" ++ [NUL] ++ lit "........"), Some 80), [(3, set_conn (Connected peer) (new_desc AF_INET))]).
Proof. vm_compute. reflexivity. Qed.
End AnetSamples.
