(* ===== verification/CFloat.v ===== *)
(** The one use of floating point on the request path, [(int64_t)atof(s)]: the
    decimal, hexadecimal and special forms of [strtod] are parsed to an exact
    rational, rounded to the nearest [double] (ties to even) and truncated.  The
    conversion of a value outside the range of [int64_t] is undefined. *)
From S2P Require Import Prelude CLib.

Definition hex_digit (c : char) : option Z :=
  if isdigit c then Some (uchar c - 48)
  else if (97 <=? uchar (tolower c)) && (uchar (tolower c) <=? 102) then Some (uchar (tolower c) - 87)
  else None.
Definition dec_digit (c : char) : option Z :=
  if isdigit c then Some (uchar c - 48) else None.

(** Digits in a base: their count, their value, and the rest. *)
Fixpoint scan_base (base : Z) (digit : char -> option Z) (acc n : Z) (s : bytes) : Z * Z * bytes :=
  match s with
  | c :: s' => match digit c with
               | Some d => scan_base base digit (acc * base + d) (n + 1) s'
               | None => (acc, n, s)
               end
  | [] => (acc, n, [])
  end.

(** A mantissa with an optional fraction: value, fraction digits, digits, rest. *)
Definition scan_mantissa (base : Z) (digit : char -> option Z) (s : bytes) : Z * Z * Z * bytes :=
  let '(m, n, r) := scan_base base digit 0 0 s in
  match r with
  | c :: r' =>
      if decide (c = chr 46) then
        let '(m', k, r2) := scan_base base digit m 0 r' in (m', k, n + k, r2)
      else (m, 0, n, r)
  | [] => (m, 0, n, [])
  end.

(** An optional exponent introduced by the letter [e] (lower case). *)
Definition scan_exponent (e : Z) (s : bytes) : Z :=
  match s with
  | c :: s' =>
      if uchar (tolower c) =? e then
        let '(neg, s1) := read_sign s' in
        let '(v, n, _) := scan_base 10 dec_digit 0 0 s1 in
        if n =? 0 then 0 else if (neg : bool) then - v else v
      else 0
  | [] => 0
  end.

(** The integer part of the [double] nearest to [num / den], both positive. *)
Definition double_trunc (num den : Z) : Z :=
  let scale x y e := if 0 <=? e then (x, y * 2 ^ e) else (x * 2 ^ (- e), y) in
  let e0 := Z.log2 num - Z.log2 den - 52 in
  let '(x0, y0) := scale num den e0 in
  let e := if x0 <? 2 ^ 52 * y0 then e0 - 1 else e0 in
  let '(x, y) := scale num den e in
  let q := x / y in
  let r := x mod y in
  let m := if (y <? 2 * r) || ((2 * r =? y) && Z.odd q) then q + 1 else q in
  if 0 <=? e then m * 2 ^ e else m / 2 ^ (- e).

(** [m * base ^ e], truncated, where [2 ^ lg <= base]; magnitudes far beyond
    those of [double] are infinite or zero, and are told by their logarithm. *)
Definition scaled_trunc (base lg m e : Z) : option Z :=
  if m =? 0 then Some 0
  else if 0 <=? e then
    if 1100 <? Z.log2 m + lg * e then None else Some (double_trunc (m * base ^ e) 1)
  else if Z.log2 m + 1 + lg * e <? -1100 then Some 0
  else Some (double_trunc m (base ^ (- e))).

Definition starts_with (p s : bytes) : bool := bool_decide (take (length p) (tolower <$> s) = p).

Definition atof_magnitude (s : bytes) : option Z :=
  if starts_with (lit "inf") s || starts_with (lit "nan") s then None
  else
    let '(hm, hk, hn, hr) := scan_mantissa 16 hex_digit (drop 2 s) in
    if starts_with (lit "0x") s && (0 <? hn)
    then scaled_trunc 2 1 hm (scan_exponent 112 hr - 4 * hk)
    else
      let '(m, k, n, r) := scan_mantissa 10 dec_digit s in
      if n =? 0 then Some 0 else scaled_trunc 10 3 m (scan_exponent 101 r - k).

(** [(int64_t)atof(s.c_str())]. *)
Definition atof_int64 (s : bytes) : exec Z :=
  let* cs := cstring (s ++ [NUL]) in
  let '(neg, t) := read_sign (skip_spaces cs) in
  match atof_magnitude t with
  | None => UB
  | Some v =>
      let v := if (neg : bool) then - v else v in
      if (int64_min <=? v) && (v <=? int64_max) then Done v else UB
  end.

Example atof_truncates : atof_int64 (lit " -2.75e1xyz") = Done (-27).
Proof. reflexivity. Qed.
Example atof_rounds : atof_int64 (lit "9007199254740993") = Done 9007199254740992.
Proof. reflexivity. Qed.
Example atof_rounds_up : atof_int64 (lit "0.99999999999999999999") = Done 1.
Proof. reflexivity. Qed.
Example atof_hex : atof_int64 (lit "0x1.8p4") = Done 24.
Proof. reflexivity. Qed.
Example atof_inf : atof_int64 (lit "+Infinity") = UB.
Proof. reflexivity. Qed.
Example atof_huge : atof_int64 (lit "1e999999999999") = UB.
Proof. reflexivity. Qed.

Lemma ends_atof s : ends (atof_int64 s).
Proof. unfold atof_int64. ends_tac. Qed.
#[export] Hint Resolve ends_atof : ends.
