(* ===== verification/Strings.v ===== *)
(** The string helpers of [ssdb/src/util/strings.h]: trimming, case, escaping,
    number conversions with their [errno] protocol, sub-strings, bit counts and
    byte order.  A [char *] argument is the memory block from that pointer on;
    a [std::string] is the list of its bytes. *)
From S2P Require Import Prelude CLib.

(** * Trimming *)

(** [ltrim] returns a pointer into its argument: the suffix it points to. *)
Fixpoint ltrim (m : bytes) : exec bytes :=
  match m with
  | [] => UB
  | c :: m' => if negb (bool_decide (c = NUL)) && isspace c then ltrim m' else Done m
  end.

Definition is_empty_str (m : bytes) : exec bool :=
  let* p := ltrim m in let* c := mget p 0 in Done (bool_decide (c = NUL)).

(** The scan of [rtrim] back from the [k]-th byte: the count of bytes kept. *)
Fixpoint rtrim_count (s : bytes) (k : nat) : nat :=
  match k with
  | O => O
  | S k' => match s !! k' with
            | Some c => if isspace c then rtrim_count s k' else k
            | None => k
            end
  end.

(** The block after the terminator is written, and the offset returned. *)
Definition rtrim (m : bytes) : exec (bytes * Z) :=
  let* s := cstring m in
  let n := Z.of_nat (rtrim_count s (length s)) in
  let* m' := mwrite m n [NUL] in
  Done (m', n).

(** [trim] trims the suffix in place and returns the pointer to it. *)
Definition trim (m : bytes) : exec bytes :=
  let* p := ltrim m in
  let* (p', _) := rtrim p in
  Done p'.

Definition strtolower (s : bytes) : bytes := tolower <$> s.
Definition strtoupper (s : bytes) : bytes := toupper <$> s.

(** [real_dirname]: [cwd] is the result of [getcwd]; the path is a C string. *)
Fixpoint strrchr (s : bytes) (c : char) : option nat :=
  match s with
  | [] => None
  | d :: s' => match strrchr s' c with
               | Some i => Some (S i)
               | None => if decide (d = c) then Some O else None
               end
  end.
Definition real_dirname (cwd : option bytes) (filepath : bytes) : bytes :=
  let dir := match filepath with
             | c :: _ => if decide (c = chr 47) then []
                         else default [] cwd ++ [chr 47]
             | [] => default [] cwd ++ [chr 47]
             end in
  match strrchr filepath (chr 47) with
  | Some p => dir ++ take p filepath
  | None => dir
  end.

(** * Escaping *)

Definition hex : bytes := lit "0123456789abcdef".
Definition hex_char (d : Z) : char := nth (Z.to_nat d) hex NUL.
Definition BS : char := chr 92.

Definition escape_char (c : char) : bytes :=
  if decide (c = CR) then [BS; chr 114]
  else if decide (c = LF) then [BS; chr 110]
  else if decide (c = chr 9) then [BS; chr 116]
  else if decide (c = BS) then [BS; BS]
  else if decide (c = chr 32) then [c]
  else if (33 <=? schar c) && (schar c <=? 126) then [c]
  else [BS; chr 120; hex_char (Z.shiftr (uchar c) 4); hex_char (Z.land (uchar c) 15)].

Definition str_escape (s : bytes) : bytes := mjoin (escape_char <$> s).
Definition hexmem (s : bytes) : bytes := str_escape s.

(** What [dump] prints. *)
Definition dump (s : bytes) (msg : option bytes) : bytes :=
  default (lit "dump") msg ++ lit " <" ++ hexmem s ++ lit ">" ++ [LF].

Definition hex_int (c : char) : Z :=
  if (48 <=? schar c) && (schar c <=? 57) then schar c - 48 else schar c - 97 + 10.

Definition unescape_simple (c : char) : char :=
  if decide (c = chr 97) then chr 7
  else if decide (c = chr 98) then chr 8
  else if decide (c = chr 102) then chr 12
  else if decide (c = chr 118) then chr 11
  else if decide (c = chr 114) then CR
  else if decide (c = chr 110) then LF
  else if decide (c = chr 116) then chr 9
  else c.

Fixpoint str_unescape (s : bytes) : bytes :=
  match s with
  | [] => []
  | c :: s1 =>
      if decide (c = BS) then
        match s1 with
        | [] => []
        | c2 :: s2 =>
            if decide (c2 = chr 120) then
              match s2 with
              | c3 :: c4 :: s4 =>
                  chr (Z.shiftl (hex_int c3) 4 + hex_int c4) :: str_unescape s4
              | _ => str_unescape s2
              end
            else unescape_simple c2 :: str_unescape s2
        end
      else c :: str_unescape s1
  end.

(** * Numbers *)

Definition str_int (v : Z) : bytes := snprintf 21 (print_int v).
Definition str_int64 (v : Z) : bytes := snprintf 21 (print_int v).
Definition str_uint64 (v : Z) : bytes := snprintf 21 (print_int v).
Definition str_cstr (m : bytes) : exec bytes := cstring m.

(** A [double] or a [float] by its value, [m * 2 ^ e] with a sign. *)
Inductive double := Finite (s : bool) (m : N) (e : Z) | Infinite (s : bool) | NaN (s : bool).

(** [num / den] to the nearest integer, ties to even. *)
Definition round_div (num den : Z) : Z :=
  let q := num / den in
  let r := num mod den in
  if (den <? 2 * r) || ((2 * r =? den) && Z.odd q) then q + 1 else q.

(** [%.<p>f] in the default rounding mode (glibc rounds the exact value). *)
Definition zpad (p : nat) (ds : bytes) : bytes := replicate (p - length ds) (chr 48) ++ ds.
Definition fixed (p : nat) (n : Z) : bytes :=
  digits (n / 10 ^ Z.of_nat p) ++
  (if p is O then [] else chr 46 :: zpad p (digits (n mod 10 ^ Z.of_nat p))).
Definition print_fixed (p : nat) (v : double) : bytes :=
  let sign (s : bool) := if s then [chr 45] else [] in
  match v with
  | Finite s m e =>
      let x := Z.of_N m * 10 ^ Z.of_nat p in
      sign s ++ fixed p (if 0 <=? e then x * 2 ^ e else round_div x (2 ^ (- e)))
  | Infinite s => sign s ++ lit "inf"
  | NaN s => sign s ++ lit "nan"
  end.

(** [v - floor(v) == 0]: a difference of [double]s is zero only between equal ones. *)
Definition is_floor (v : double) : bool :=
  match v with
  | Finite s m e =>
      let x := if s then - Z.of_N m else Z.of_N m in
      (0 <=? e) || (x / 2 ^ (- e) * 2 ^ (- e) =? x)
  | _ => false
  end.

Definition str_double (v : double) : bytes :=
  snprintf 21 (if is_floor v then print_fixed 0 v else print_fixed 6 v).
(** The conversion of a [float] is exact. *)
Definition str_float (v : double) : bytes := str_double v.

Definition EINVAL : Z := 22.
Definition ERANGE : Z := 34.

(** The [errno] left by a conversion: [e] is its value after the library call,
    [whole] says that the whole string was consumed. *)
Definition conv_errno (e : Z) (whole : bool) : Z :=
  if whole then 0 else if e =? 0 then EINVAL else e.

(** [*end == '\0' && size_t(end - start) == str.size()], where the block is the
    string followed by its terminator. *)
Definition whole_string (s r : bytes) : bool :=
  match r with
  | c :: _ => bool_decide (c = NUL) && (zlen (s ++ [NUL]) - zlen r =? zlen s)
  | [] => false
  end.

(** Value and [errno] after the call, given [errno] before it. *)
Definition str_to_int (errno : Z) (s : bytes) : exec (Z * Z) :=
  let* (v, r, rng) := strtol (s ++ [NUL]) in
  let e := if (rng : bool) then ERANGE else errno in
  Done (to_int v, conv_errno e (whole_string s r)).
Definition str_to_int64 (errno : Z) (s : bytes) : exec (Z * Z) :=
  let* (v, r, rng) := strtol (s ++ [NUL]) in
  let e := if (rng : bool) then ERANGE else errno in
  Done (v, conv_errno e (whole_string s r)).
Definition str_to_uint64 (errno : Z) (s : bytes) : exec (Z * Z) :=
  let* (v, r, rng) := strtoull (s ++ [NUL]) in
  let e := if (rng : bool) then ERANGE else errno in
  Done (v, conv_errno e (whole_string s r)).

(** The versions for [size] bytes at a pointer. *)
Definition str_to_int_at (errno : Z) (p : bytes) (size : Z) : exec (Z * Z) :=
  let* s := mread p 0 size in str_to_int errno s.
Definition str_to_int64_at (errno : Z) (p : bytes) (size : Z) : exec (Z * Z) :=
  let* s := mread p 0 size in str_to_int64 errno s.
Definition str_to_uint64_at (errno : Z) (p : bytes) (size : Z) : exec (Z * Z) :=
  let* s := mread p 0 size in str_to_uint64 errno s.

(** * Sub-strings *)

(** [std::string::substr] with [pos <= size()]. *)
Definition std_substr (s : bytes) (pos count : Z) : bytes := ztake count (zdrop pos s).

Definition substr (s : bytes) (start size : Z) : exec bytes :=
  let n := to_int (zlen s) in
  let* start := (if start <? 0 then ck_int (n + start) else Done start) in
  let* size := (if size <? 0 then let* e := ck_int (n + size) in ck_int (e - start)
                else Done size) in
  if (start <? 0) || (zlen s <=? start) || (size <? 0) then Done []
  else Done (std_substr s start size).

Definition str_slice (s : bytes) (start stop : Z) : exec bytes :=
  let n := to_int (zlen s) in
  let* start := (if start <? 0 then ck_int (n + start) else Done start) in
  let* size := (if stop <? 0
                then let* e := ck_int (n + stop) in
                     let* e1 := ck_int (e + 1) in ck_int (e1 - start)
                else let* d := ck_int (stop - start) in ck_int (d + 1)) in
  if (start <? 0) || (zlen s <=? start) || (size <? 0) then Done []
  else Done (std_substr s start size).

(** * Bits and byte order *)

(** The inner loop of [bitcount] on one [unsigned char]; eight rounds empty it. *)
Fixpoint bitcount_char (fuel : nat) (c n : Z) : exec Z :=
  if c =? 0 then Done n else
  match fuel with
  | O => NoFuel
  | S f => let* n := ck_int (n + Z.land c 1) in bitcount_char f (Z.shiftr c 1) n
  end.
Fixpoint bitcount_loop (s : bytes) (n : Z) : exec Z :=
  match s with
  | [] => Done n
  | c :: s' => let* n := bitcount_char 8 (uchar c) n in bitcount_loop s' n
  end.
Definition bitcount (s : bytes) : exec Z := bitcount_loop s 0.

Definition big_endian16 (v : Z) : Z :=
  to_uint16 (Z.lor (Z.shiftr v 8) (Z.shiftl v 8)).
Definition big_endian32 (v : Z) : Z :=
  Z.lor (Z.lor (Z.lor (Z.shiftr v 24) (Z.land (Z.shiftr v 8) 0xff00))
               (Z.land (to_uint32 (Z.shiftl v 8)) 0xff0000))
        (to_uint32 (Z.shiftl v 24)).
Definition big_endian64 (v : Z) : Z :=
  let h := to_uint32 (Z.shiftr v 32) in
  let l := to_uint32 (Z.land v 0xffffffff) in
  Z.lor (big_endian32 h) (to_uint64 (Z.shiftl (big_endian32 l) 32)).

(** * Escaping is undone by unescaping *)

Lemma str_unescape_char c t : str_unescape (escape_char c ++ t) = c :: str_unescape t.
Proof. destruct c as [[] [] [] [] [] [] [] []]; reflexivity. Qed.

(** Unescaping inverts escaping, on every byte string. *)
Theorem str_unescape_escape s : str_unescape (str_escape s) = s.
Proof.
  unfold str_escape. induction s as [| c s IH]; [done |].
  cbn. rewrite str_unescape_char. by f_equal.
Qed.

(** * Numbers *)

Lemma zlen_print_int k z : 1 <= k -> - 10 ^ (k - 1) < z < 10 ^ k -> zlen (print_int z) <= k.
Proof.
  intros Hk [Hl Hu]. unfold print_int. destruct (Z.ltb_spec z 0).
  - rewrite zlen_cons.
    destruct (decide (k = 1)) as [-> | ?]; [cbn in Hl; lia |].
    assert (zlen (digits (- z)) <= k - 1) by (apply zlen_digits; lia). lia.
  - by apply zlen_digits.
Qed.

Lemma str_int64_print z : is_int64 z -> str_int64 z = print_int z.
Proof. intros. apply snprintf_id. cut (zlen (print_int z) <= 20); [lia |]. apply zlen_print_int; zlia. Qed.

Lemma str_uint64_print z : is_uint64 z -> str_uint64 z = print_int z.
Proof. intros. apply snprintf_id. cut (zlen (print_int z) <= 20); [lia |]. apply zlen_print_int; zlia. Qed.

Lemma str_int_print z : is_int z -> str_int z = print_int z.
Proof. intros. apply str_int64_print. zlia. Qed.

Lemma whole_string_NUL s : whole_string s [NUL] = true.
Proof. unfold whole_string. rewrite bool_decide_true by done. zl_simp. change (zlen [NUL]) with 1. lia. Qed.

Lemma str_to_uint64_print e v : is_uint64 v -> str_to_uint64 e (print_int v) = Done (v, 0).
Proof.
  intros Hv. unfold str_to_uint64. rewrite strtoull_print_int by done.
  cbn [ebind]. by rewrite whole_string_NUL.
Qed.

Lemma str_to_int64_roundtrip e v : is_int64 v -> str_to_int64 e (str_int64 v) = Done (v, 0).
Proof.
  intros Hv. rewrite str_int64_print by done. unfold str_to_int64.
  rewrite strtol_print_int by done. cbn [ebind]. by rewrite whole_string_NUL.
Qed.

(** Printing a 64-bit or an [int] value with [str] and reading it back
    returns the value with [errno] cleared, whatever [errno] was. *)
Theorem str_to_str_roundtrip e :
  (forall v, is_uint64 v -> str_to_uint64 e (str_uint64 v) = Done (v, 0)) /\
  (forall v, is_int64 v -> str_to_int64 e (str_int64 v) = Done (v, 0)) /\
  (forall v, is_int v -> str_to_int e (str_int v) = Done (v, 0)).
Proof.
  repeat split; intros v Hv.
  - rewrite str_uint64_print by done. by apply str_to_uint64_print.
  - by apply str_to_int64_roundtrip.
  - rewrite str_int_print by done. unfold str_to_int.
    rewrite strtol_print_int by (done || zlia). cbn [ebind].
    by rewrite whole_string_NUL, to_int_id.
Qed.

(** * Byte order *)

Lemma lor_shiftl_add a b k : 0 <= k -> 0 <= a < 2 ^ k -> Z.lor a (Z.shiftl b k) = a + b * 2 ^ k.
Proof.
  intros Hk Ha. rewrite <- Z.shiftl_mul_pow2 by done.
  assert (Z.land a (Z.shiftl b k) = 0) as H0.
  { apply Z.bits_inj'. intros i Hi. rewrite Z.land_spec, Z.bits_0.
    destruct (Z.lt_ge_cases i k).
    - rewrite Z.shiftl_spec_low by done. apply andb_false_r.
    - rewrite <- (Z.mod_small a (2 ^ k)), Z.mod_pow2_bits_high by lia. done. }
  rewrite Z.add_nocarry_lxor, Z.lxor_lor by done. done.
Qed.

Lemma land_byte_at x k : 0 <= k -> Z.land x (Z.shiftl 255 k) = (x / 2 ^ k) mod 256 * 2 ^ k.
Proof.
  intros Hk. rewrite <- Z.shiftl_mul_pow2, <- Z.shiftr_div_pow2 by done.
  change 256 with (2 ^ 8). rewrite <- Z.land_ones by done.
  apply Z.bits_inj'. intros i Hi. rewrite Z.land_spec.
  destruct (Z.lt_ge_cases i k).
  - rewrite !Z.shiftl_spec_low by done. apply andb_false_r.
  - rewrite !Z.shiftl_spec, Z.land_spec, Z.shiftr_spec by lia.
    by replace (i - k + k) with i by lia.
Qed.

Lemma big_endian32_bytes c0 c1 c2 c3 :
  big_endian32 (le_value [c0; c1; c2; c3]) = le_value [c3; c2; c1; c0].
Proof.
  pose proof (uchar_range c0). pose proof (uchar_range c1).
  pose proof (uchar_range c2). pose proof (uchar_range c3).
  unfold big_endian32. cbn [le_value].
  set (v := uchar c0 + _).
  change 0xff00 with (Z.shiftl 255 8). change 0xff0000 with (Z.shiftl 255 16).
  rewrite !land_byte_at by done.
  assert (Z.shiftr v 24 = uchar c3) as ->.
  { rewrite Z.shiftr_div_pow2 by done. subst v. Z.to_euclidean_division_equations. lia. }
  assert ((Z.shiftr v 8 / 2 ^ 8) mod 256 = uchar c2) as ->.
  { rewrite Z.shiftr_div_pow2 by done. subst v. Z.to_euclidean_division_equations. lia. }
  assert ((to_uint32 (Z.shiftl v 8) / 2 ^ 16) mod 256 = uchar c1) as ->.
  { unfold to_uint32. rewrite Z.shiftl_mul_pow2 by done. subst v.
    Z.to_euclidean_division_equations. lia. }
  assert (to_uint32 (Z.shiftl v 24) = uchar c0 * 2 ^ 24) as ->.
  { unfold to_uint32. rewrite Z.shiftl_mul_pow2 by done. subst v.
    Z.to_euclidean_division_equations. lia. }
  rewrite <- !Z.shiftl_mul_pow2 by done.
  rewrite (lor_shiftl_add _ _ 8) by lia.
  rewrite (lor_shiftl_add _ _ 16) by lia.
  rewrite (lor_shiftl_add _ _ 24) by lia. lia.
Qed.

Lemma big_endian64_bytes c0 c1 c2 c3 c4 c5 c6 c7 :
  big_endian64 (le_value [c0; c1; c2; c3; c4; c5; c6; c7]) =
  le_value [c7; c6; c5; c4; c3; c2; c1; c0].
Proof.
  set (lo := le_value [c0; c1; c2; c3]). set (hi := le_value [c4; c5; c6; c7]).
  assert (0 <= lo < 2 ^ 32) by apply (le_value_range [c0; c1; c2; c3]).
  assert (0 <= hi < 2 ^ 32) by apply (le_value_range [c4; c5; c6; c7]).
  assert (le_value [c0; c1; c2; c3; c4; c5; c6; c7] = lo + hi * 2 ^ 32) as ->.
  { subst lo hi. cbn [le_value]. lia. }
  unfold big_endian64.
  assert (to_uint32 (Z.shiftr (lo + hi * 2 ^ 32) 32) = hi) as ->.
  { unfold to_uint32. rewrite Z.shiftr_div_pow2, Z.div_add, Z.div_small by lia.
    rewrite Z.add_0_l. by apply Z.mod_small. }
  assert (to_uint32 (Z.land (lo + hi * 2 ^ 32) 0xffffffff) = lo) as ->.
  { unfold to_uint32. change 0xffffffff with (Z.ones 32).
    rewrite Z.land_ones, Z.mod_add, !Z.mod_small by (rewrite ?Z.mod_small; lia). done. }
  subst lo hi. rewrite !big_endian32_bytes.
  pose proof (le_value_range [c7; c6; c5; c4]) as Hh.
  pose proof (le_value_range [c3; c2; c1; c0]) as Hl.
  change (256 ^ zlen _) with (2 ^ 32) in Hh, Hl.
  unfold to_uint64. rewrite Z.mod_small.
  - rewrite lor_shiftl_add by lia. cbn [le_value]. lia.
  - rewrite Z.shiftl_mul_pow2 by done. lia.
Qed.

Lemma mem_u64_cases v : exists c0 c1 c2 c3 c4 c5 c6 c7,
  mem_u64 v = [c0; c1; c2; c3; c4; c5; c6; c7].
Proof. unfold mem_u64. cbn. by repeat eexists. Qed.

Lemma big_endian64_spec v : is_uint64 v ->
  mem_u64 (big_endian64 v) = reverse (mem_u64 v) /\ big_endian64 (big_endian64 v) = v /\
  is_uint64 (big_endian64 v).
Proof.
  intros Hv. pose proof (rd_mem_u64 v Hv) as E. unfold rd_u64 in E.
  destruct (mem_u64_cases v) as (c0 & c1 & c2 & c3 & c4 & c5 & c6 & c7 & Hm).
  rewrite Hm in *. rewrite <- E, !big_endian64_bytes. repeat split.
  - apply (le_bytes_value [c7; c6; c5; c4; c3; c2; c1; c0]).
  - apply (le_value_range [c7; c6; c5; c4; c3; c2; c1; c0]).
  - pose proof (le_value_range [c7; c6; c5; c4; c3; c2; c1; c0]) as H.
    change (256 ^ zlen _) with (2 ^ 64) in H. zlia.
Qed.

(** [big_endian] on 64 bits reverses the bytes in memory, and so undoes
    itself. *)
Theorem big_endian64_reverse v : is_uint64 v ->
  mem_u64 (big_endian64 v) = reverse (mem_u64 v) /\ big_endian64 (big_endian64 v) = v /\
  is_uint64 (big_endian64 v).
Proof. apply big_endian64_spec. Qed.

Lemma big_endian64_reverse_witness :
  mem_u64 (big_endian64 258) = reverse (mem_u64 258) /\ big_endian64 (big_endian64 258) = 258 /\
  is_uint64 (big_endian64 258).
Proof. apply (big_endian64_reverse 258). split; vm_compute; congruence. Defined.

(** * Counting bits *)

Definition sumZ (l : list Z) : Z := foldr Z.add 0 l.

(** The number of bits set in a byte, bit by bit. *)
Definition bits_set (c : char) : Z :=
  sumZ ((fun i => Z.b2z (Z.testbit (uchar c) i)) <$> [0; 1; 2; 3; 4; 5; 6; 7]).

Fixpoint low_bits (f : nat) (v : Z) : Z :=
  match f with O => 0 | S f' => Z.land v 1 + low_bits f' (Z.shiftr v 1) end.

Lemma low_bits_0 f : low_bits f 0 = 0.
Proof. induction f as [| f IH]; [done |]. exact IH. Qed.

Lemma low_bits_8 c : low_bits 8 (uchar c) = bits_set c.
Proof. destruct c as [[] [] [] [] [] [] [] []]; reflexivity. Qed.

Lemma bits_set_range c : 0 <= bits_set c <= 8.
Proof. destruct c as [[] [] [] [] [] [] [] []]; split; vm_compute; congruence. Qed.

Lemma bitcount_char_spec f : forall v n, 0 <= v < 2 ^ Z.of_nat f -> 0 <= n ->
  n + Z.of_nat f <= int_max -> bitcount_char f v n = Done (n + low_bits f v).
Proof.
  induction f as [| f IH]; intros v n Hv Hn Hb.
  - cbn in Hv. assert (v = 0) as -> by lia. cbn. f_equal. lia.
  - cbn [bitcount_char]. destruct (Z.eqb_spec v 0) as [-> |].
    { rewrite low_bits_0. f_equal. lia. }
    assert (0 <= Z.land v 1 <= 1).
    { assert (Z.land v 1 = v mod 2) as -> by by apply (Z.land_ones v 1).
      pose proof (Z.mod_pos_bound v 2). lia. }
    rewrite ck_int_ok by zlia. cbn [ebind low_bits].
    rewrite IH; [f_equal; lia | | lia | zlia].
    rewrite Z.shiftr_div_pow2 by done. change (2 ^ 1) with 2.
    rewrite Nat2Z.inj_succ, Z.pow_succ_r in Hv by lia.
    split; [apply Z.div_pos; lia | apply Z.div_lt_upper_bound; lia].
Qed.

Lemma bitcount_loop_spec s : forall n, 0 <= n -> n + 8 * zlen s <= int_max ->
  bitcount_loop s n = Done (n + sumZ (bits_set <$> s)).
Proof.
  induction s as [| c s IH]; intros n Hn Hb; cbn [bitcount_loop].
  - cbn. f_equal. lia.
  - pose proof (bits_set_range c). pose proof (uchar_range c).
    rewrite (bitcount_char_spec 8) by (change (2 ^ Z.of_nat 8) with 256; zl). cbn [ebind]. rewrite low_bits_8.
    rewrite IH by zl. f_equal. change (sumZ (bits_set <$> c :: s)) with (bits_set c + sumZ (bits_set <$> s)). lia.
Qed.

(** [bitcount] returns the number of bits set in the string, for every
    string whose bit length fits an [int]. *)
Theorem bitcount_correct s :
  8 * zlen s <= int_max -> bitcount s = Done (sumZ (bits_set <$> s)).
Proof. intros. unfold bitcount. by rewrite bitcount_loop_spec. Qed.

(** * Trimming *)

Abbreviation spaces s := (Forall (fun c => isspace c = true) s).

Lemma isspace_NUL : isspace NUL = false.
Proof. done. Qed.

Lemma isspace_not_NUL c : isspace c = true -> c <> NUL.
Proof. intros H ->. by rewrite isspace_NUL in H. Qed.

Lemma ltrim_spaces ws m : spaces ws -> ltrim (ws ++ m) = ltrim m.
Proof.
  induction 1 as [| c ws Hc _ IH]; [done |]. cbn.
  rewrite bool_decide_false by auto using isspace_not_NUL. by rewrite Hc.
Qed.

Lemma ltrim_stop c m : isspace c = false -> ltrim (c :: m) = Done (c :: m).
Proof. intros Hc. cbn. by rewrite Hc, andb_false_r. Qed.

Lemma rtrim_count_app s ws : spaces ws -> forall k, (k <= length ws)%nat ->
  rtrim_count (s ++ ws) (length s + k) = rtrim_count (s ++ ws) (length s).
Proof.
  intros Hws. induction k as [| k IH]; intros Hk; [f_equal; lia |].
  rewrite Nat.add_succ_r. cbn [rtrim_count].
  rewrite lookup_app_r by lia. replace (length s + k - length s)%nat with k by lia.
  destruct (lookup_lt_is_Some_2 ws k) as [c Hc]; [lia |]. rewrite Hc.
  rewrite (Forall_lookup_1 _ _ _ _ Hws Hc). apply IH. lia.
Qed.

Lemma rtrim_count_stop s c ws : isspace c = false ->
  rtrim_count ((s ++ [c]) ++ ws) (length (s ++ [c])) = length (s ++ [c]).
Proof.
  intros Hc. rewrite length_app, Nat.add_1_r. cbn [rtrim_count].
  rewrite <- app_assoc, lookup_app_r, Nat.sub_diag by lia. cbn. by rewrite Hc.
Qed.

(** What is left of a string after trimming. *)
Definition trimmed (s : bytes) : Prop :=
  (forall c t, s = c :: t -> isspace c = false) /\
  (forall c t, s = t ++ [c] -> isspace c = false).

Lemma rtrim_spec s ws m : trimmed s -> spaces ws -> NUL ∉ s ->
  exists p, rtrim (s ++ ws ++ NUL :: m) = Done (p, zlen s) /\ cstring p = Done s.
Proof.
  intros [_ Hs] Hws Hn. unfold rtrim.
  assert (NUL ∉ ws).
  { intros H. rewrite Forall_forall in Hws. by apply Hws in H. }
  rewrite app_assoc, cstring_app by (rewrite not_elem_of_app; auto).
  cbn [ebind]. rewrite length_app, rtrim_count_app by done.
  assert (rtrim_count (s ++ ws) (length s) = length s) as ->.
  { destruct s as [| c s _] using rev_ind; [done |]. by apply rtrim_count_stop, (Hs c s). }
  fold (zlen s). rewrite mwrite_ok by zl. cbn [ebind].
  rewrite <- app_assoc, ztake_app. eexists. split; [done |].
  by apply cstring_app.
Qed.

(** [trim] leaves exactly the string without its leading and trailing white
    space, whatever follows it in the block. *)
Theorem trim_correct ws s ws' m :
  spaces ws -> trimmed s -> spaces ws' -> NUL ∉ s ->
  exists p, trim (ws ++ s ++ ws' ++ NUL :: m) = Done p /\ cstring p = Done s.
Proof.
  intros Hws Hs Hws' Hn. unfold trim. rewrite ltrim_spaces by done.
  destruct s as [| c s]; cbn [app].
  - rewrite ltrim_spaces by done. rewrite ltrim_stop by done. cbn [ebind].
    destruct (rtrim_spec [] [] m Hs) as (p & E & Hp); [done | done |].
    cbn [app] in E. rewrite E. eauto.
  - destruct Hs as [H1 H2]. rewrite ltrim_stop by eauto. cbn [ebind].
    destruct (rtrim_spec (c :: s) ws' m) as (p & E & Hp); [done..|].
    cbn [app] in E. rewrite E. eauto.
Qed.

Lemma trim_correct_witness :
  exists p, trim (lit "  a b " ++ [NUL]) = Done p /\ cstring p = Done (lit "a b").
Proof.
  apply (trim_correct (lit "  ") (lit "a b") (lit " ") []).
  - repeat constructor.
  - split; intros c t E; [by injection E as <- |].
    apply (f_equal reverse) in E. rewrite reverse_snoc in E. by injection E as <-.
  - repeat constructor.
  - intros H. repeat (apply elem_of_cons in H as [H | H]; [done |]). by apply not_elem_of_nil in H.
Defined.

(** * The [errno] protocol *)

(** A value that overflows is reported as a success: the whole string is
    consumed, so [errno] is reset to 0, although the value is saturated (and the
    empty string reads as 0 without an error either). *)
Theorem str_to_int64_overflow_silent e n :
  int64_max < n -> str_to_int64 e (print_int n) = Done (int64_max, 0) /\
  str_to_int64 e [] = Done (0, 0).
Proof.
  intros Hn. unfold str_to_int64. split; [| reflexivity].
  unfold strtol, print_int. destruct (Z.ltb_spec n 0); [zlia |].
  rewrite scan_int_digits by eauto using digits_isdigit, digits_nonempty with zarith lia.
  cbn [ebind]. rewrite whole_string_NUL, dec_value_digits by zlia.
  unfold clamp. repeat f_equal. zlia.
Qed.

Lemma str_to_int64_overflow_silent_witness :
  str_to_int64 0 (print_int (2 ^ 64)) = Done (int64_max, 0) /\ str_to_int64 0 [] = Done (0, 0).
Proof. apply (str_to_int64_overflow_silent 0 (2 ^ 64)). reflexivity. Defined.

Lemma ends_str_to_int e s : ends (str_to_int e s).
Proof. unfold str_to_int. ends_tac. Qed.
Lemma ends_str_to_int64 e s : ends (str_to_int64 e s).
Proof. unfold str_to_int64. ends_tac. Qed.
Lemma ends_str_to_uint64 e s : ends (str_to_uint64 e s).
Proof. unfold str_to_uint64. ends_tac. Qed.
#[export] Hint Resolve ends_str_to_int ends_str_to_int64 ends_str_to_uint64 : ends.

(** * Printing of [double]s *)

Example str_double_half : str_double (Finite true 11 (-2)) = lit "-2.750000".
Proof. reflexivity. Qed.
Example str_double_tie : print_fixed 0 (Finite false 5 (-1)) = lit "2".
Proof. reflexivity. Qed.
Example str_double_pad : str_double (Finite false 1 (-10)) = lit "0.000977".
Proof. reflexivity. Qed.
Example str_double_neg_zero : str_double (Finite true 0 0) = lit "-0".
Proof. reflexivity. Qed.
Example str_double_inf : str_double (Infinite true) = lit "-inf".
Proof. reflexivity. Qed.

Lemma round_div_exact n d : 0 < d -> round_div (n * d) d = n.
Proof.
  intros Hd. unfold round_div. rewrite Z.div_mul, Z.mod_mul by lia.
  replace (d <? 2 * 0) with false by lia. by replace (2 * 0 =? d) with false by lia.
Qed.

Lemma round_div_near n d : 0 < d -> 2 * Z.abs (round_div n d * d - n) <= d.
Proof.
  intros Hd. unfold round_div. pose proof (Z.div_mod n d ltac:(lia)) as E.
  pose proof (Z.mod_pos_bound n d Hd). set (q := n / d) in *. set (r := n mod d) in *.
  destruct (Z.ltb_spec d (2 * r)); cbn [orb].
  - replace ((q + 1) * d - n) with (d - r) by lia. lia.
  - destruct (Z.eqb_spec (2 * r) d); cbn [andb].
    + destruct (Z.odd q); [replace ((q + 1) * d - n) with (d - r) by lia |
        replace (q * d - n) with (- r) by lia]; lia.
    + replace (q * d - n) with (- r) by lia. lia.
Qed.

(** The integer that a floating-point number stands for, when there is one. *)
Definition stands_for (m : N) (e z : Z) : Prop :=
  if 0 <=? e then Z.of_N m * 2 ^ e = z else Z.of_N m = z * 2 ^ (- e).

Lemma stands_for_text s m e z : stands_for m e z ->
  is_floor (Finite s m e) = true /\
  print_fixed 0 (Finite s m e) = (if s then [chr 45] else []) ++ digits z.
Proof.
  unfold stands_for, is_floor, print_fixed, fixed. change (10 ^ Z.of_nat 0) with 1.
  rewrite !Z.mul_1_r, app_nil_r, Z.div_1_r. destruct (Z.leb_spec 0 e) as [He | He]; cbn [orb].
  - by intros ->.
  - assert (0 < 2 ^ (- e)) by (apply Z.pow_pos_nonneg; lia). intros ->. split.
    + destruct s; [rewrite <- Z.mul_opp_l |]; rewrite Z.div_mul by lia; lia.
    + by rewrite round_div_exact.
Qed.

Lemma str_double_whole s m e z : stands_for m e z -> 0 < z ->
  str_double (Finite s m e) = snprintf 21 (print_int (if s then - z else z)).
Proof.
  intros Hz Hp. destruct (stands_for_text s m e z Hz) as [Hf Ht]. unfold str_double.
  rewrite Hf, Ht. f_equal. unfold print_int.
  destruct s; [rewrite Z.opp_involutive |]; case_match; try lia; done.
Qed.

(** A number without a fraction prints as the integer it is, and is read back, if it
    has at most 19 digits. *)
Theorem str_double_integer s m e z : stands_for m e z -> 0 < z < 10 ^ 19 ->
  str_double (Finite s m e) = print_int (if s then - z else z).
Proof.
  intros Hz Hb. rewrite (str_double_whole s m e z) by (done || lia). apply snprintf_id.
  cut (zlen (print_int (if s then - z else z)) <= 20); [lia |].
  apply zlen_print_int; [lia |]. destruct s; lia.
Qed.

Lemma dec_value_lt y : Forall (fun c => isdigit c = true) y -> dec_value y < 10 ^ zlen y.
Proof.
  intros Hy. unfold dec_value. rewrite <- (Z.mul_1_l (10 ^ _)). change 1 with (0 + 1). generalize 0.
  induction Hy as [| c y Hc _ IH]; intros a; cbn [foldl].
  - change (10 ^ zlen []) with 1. lia.
  - specialize (IH (dec_step a c)). rewrite zlen_cons, Z.pow_add_r by zl.
    unfold isdigit in Hc. assert (dec_step a c + 1 <= (a + 1) * 10) by (unfold dec_step, digit_val; lia).
    assert (0 < 10 ^ zlen y) by (apply Z.pow_pos_nonneg; zl). nia.
Qed.

(** With more digits the text is cut, so that it shows a smaller number. *)
Theorem str_double_cut m e z : stands_for m e z -> 10 ^ 20 <= z ->
  str_double (Finite false m e) = ztake 20 (digits z) /\ dec_value (ztake 20 (digits z)) < z.
Proof.
  intros Hz Hb. rewrite (str_double_whole false m e z) by (done || lia).
  unfold print_int. replace (z <? 0) with false by lia. split; [done |].
  assert (Hl : 20 < zlen (digits z)).
  { apply Z.lt_nge. intros Hle. apply zlen_digits in Hle; lia. }
  pose proof (digits_isdigit z ltac:(lia)) as Hd.
  rewrite <- (ztake_zdrop 20 (digits z)) in Hd. apply Forall_app in Hd as [Hd _].
  apply dec_value_lt in Hd. rewrite zlen_ztake in Hd by lia. lia.
Qed.

(** Any other number below [10 ^ 11] prints with six digits after the point, to the
    nearest. *)
Theorem str_double_fraction s m e : is_floor (Finite s m e) = false ->
  Z.of_N m < 10 ^ 11 * 2 ^ (- e) -> exists n,
  str_double (Finite s m e) =
    (if s then [chr 45] else []) ++ digits (n / 10 ^ 6) ++ chr 46 :: zpad 6 (digits (n mod 10 ^ 6)) /\
  2 * Z.abs (n * 2 ^ (- e) - Z.of_N m * 10 ^ 6) <= 2 ^ (- e) /\ 0 <= n.
Proof.
  intros Hf Hm. unfold str_double. rewrite Hf. cbn [is_floor] in Hf. apply orb_false_elim in Hf as [He _].
  assert (0 < 2 ^ (- e)) as Hd by (apply Z.pow_pos_nonneg; lia).
  unfold print_fixed. rewrite He. set (n := round_div _ _).
  assert (Hn : 2 * Z.abs (n * 2 ^ (- e) - Z.of_N m * 10 ^ 6) <= 2 ^ (- e)) by by apply round_div_near.
  assert (0 <= n < 10 ^ 17 + 1) by nia. exists n. split; [| lia].
  apply snprintf_id. unfold fixed. rewrite !zlen_app, zlen_cons.
  change (10 ^ Z.of_nat 6) with (10 ^ 6).
  assert (zlen (digits (n / 10 ^ 6)) <= 12).
  { assert (0 <= n / 10 ^ 6 < 10 ^ 12) by (split; [apply Z.div_pos | apply Z.div_lt_upper_bound]; lia).
    apply zlen_digits; lia. }
  assert (zlen (zpad 6 (digits (n mod 10 ^ 6))) = 6).
  { pose proof (Z.mod_pos_bound n (10 ^ 6) ltac:(done)).
    assert (zlen (digits (n mod 10 ^ 6)) <= 6) as Hl by (apply zlen_digits; lia).
    unfold zpad, zlen in *. rewrite length_app, length_replicate. lia. }
  destruct s; zl.
Qed.

Lemma str_double_integer_witness : str_double (Finite true 3 5) = print_int (-96).
Proof. by apply (str_double_integer true 3 5 96). Defined.

Lemma str_double_cut_witness : str_double (Finite false 100000000000000000000 0) = lit "10000000000000000000" /\
  10000000000000000000 < 100000000000000000000.
Proof. apply (str_double_cut 100000000000000000000 0 100000000000000000000); done. Defined.

Lemma str_double_fraction_witness : exists n,
  str_double (Finite false 1 (-1)) = digits (n / 10 ^ 6) ++ chr 46 :: zpad 6 (digits (n mod 10 ^ 6)) /\
  2 * Z.abs (n * 2 - 1000000) <= 2 /\ 0 <= n.
Proof. apply (str_double_fraction false 1 (-1)); done. Defined.
