(* ===== verification/Bytes.v ===== *)
(** [Bytes], [Buffer] and [Decoder] of [ssdb/src/util/bytes.h] and
    [bytes.cpp].  A [Bytes] is a pointer and a length: its value is the bytes it
    covers at the time it is read.  A [Buffer] is modelled with its heap block,
    so that reads and writes outside the block are visible. *)
From S2P Require Import Prelude CLib.

(** * Bytes *)

Module Bytes.
Definition empty (b : bytes) : bool := zlen b =? 0.
Definition size (b : bytes) : Z := zlen b.

Definition compare (a b : bytes) : Z :=
  let min_len := if size a <? size b then size a else size b in
  let r := memcmp (ztake min_len a) (ztake min_len b) in
  if r =? 0 then
    if size a <? size b then -1 else if size b <? size a then 1 else r
  else r.

(** The operators of [bytes.h]. *)
Definition eqb (x y : bytes) : bool := (size x =? size y) && (memcmp x y =? 0).
Definition neb (x y : bytes) : bool := negb (eqb x y).
Definition gtb (x y : bytes) : bool := 0 <? compare x y.
Definition geb (x y : bytes) : bool := 0 <=? compare x y.
Definition ltb (x y : bytes) : bool := compare x y <? 0.
Definition leb (x y : bytes) : bool := compare x y <=? 0.

Lemma take_lex a b :
  let n := Nat.min (length a) (length b) in
  lex a b = match lex (take n a) (take n b) with
            | Eq => Z.compare (zlen a) (zlen b)
            | r => r
            end.
Proof.
  revert b. induction a as [| c a IH]; intros [| d b]; try done.
  cbn. destruct (uchar c ?= uchar d); try done. rewrite !zlen_cons, IH.
  destruct (lex _ _); try done. destruct (Z.compare_spec (zlen a) (zlen b));
    destruct (Z.compare_spec (1 + zlen a) (1 + zlen b)); lia || done.
Qed.

Lemma compare_lex a b :
  (compare a b < 0 <-> lex a b = Lt) /\ (compare a b = 0 <-> lex a b = Eq) /\
  (0 < compare a b <-> lex a b = Gt).
Proof.
  unfold compare, size.
  set (n := if zlen a <? zlen b then zlen a else zlen b).
  assert (Hn : Z.to_nat n = Nat.min (length a) (length b)).
  { subst n. unfold zlen. case_match; lia. }
  rewrite take_lex. unfold ztake. rewrite Hn. clearbody n.
  destruct (memcmp_lex (take (Nat.min (length a) (length b)) a)
                       (take (Nat.min (length a) (length b)) b)) as (Hl & He & Hg).
  { rewrite !length_take. lia. }
  set (r := memcmp _ _) in *.
  destruct (lex (take _ a) _).
  - rewrite (proj2 He) by done. cbn.
    destruct (Z.compare_spec (zlen a) (zlen b)); repeat case_match; naive_solver lia.
  - assert (r < 0) by by apply Hl. case_match; naive_solver lia.
  - assert (0 < r) by by apply Hg. case_match; naive_solver lia.
Qed.

Lemma eqb_eq x y : eqb x y = true <-> x = y.
Proof.
  unfold eqb, size. split.
  - intros [H1 H2]%andb_true_iff. apply lex_Eq, memcmp_lex; unfold zlen in *; lia.
  - intros ->. rewrite Z.eqb_refl. cbn. apply Z.eqb_eq, memcmp_lex; [done |]. apply lex_refl.
Qed.

Lemma gtb_lt x y : gtb x y = bool_decide (bytes_lt y x).
Proof.
  unfold gtb. destruct (compare_lex x y) as (_ & _ & Hg).
  apply eq_true_iff_eq. rewrite Z.ltb_lt, bool_decide_eq_true, Hg. unfold bytes_lt.
  rewrite (lex_antisym x y). by destruct (lex x y).
Qed.

(** [compare] and the comparison operators of [Bytes] decide the bytewise
    lexicographic order, a strict total order that the storage engine shares. *)
Theorem compare_order a b :
  (ltb a b = true <-> bytes_lt a b) /\ (gtb a b = true <-> bytes_lt b a) /\
  (leb a b = true <-> bytes_le a b) /\ (geb a b = true <-> bytes_le b a) /\
  (eqb a b = true <-> a = b) /\ (neb a b = true <-> a <> b) /\
  (compare a b = 0 <-> a = b).
Proof.
  pose proof (compare_lex a b) as (Hl & He & Hg). pose proof (eqb_eq a b) as Heq.
  pose proof (lex_antisym a b) as Ha. pose proof (lex_Eq a b) as HE.
  unfold ltb, gtb, leb, geb, neb, bytes_lt, bytes_le. rewrite Ha, negb_true_iff, <- not_true_iff_false, Heq.
  rewrite !Z.ltb_lt, !Z.leb_le.
  assert (a = b -> lex a b = Eq) by (intros ->; apply lex_refl).
  destruct (lex a b); cbn; repeat split; intros; try done; try naive_solver lia.
Qed.
End Bytes.

(** * Buffer *)

(** What the allocator leaves open: the bytes of fresh memory, and whether a
    [realloc] to a given size succeeds. *)
Class Heap := { junk : nat -> char; realloc_ok : Z -> bool }.

Module Buffer.
(** [mem] is the block of [total_] bytes at [buf]; [off] is [data_ - buf]. *)
Record t := mk { mem : bytes; off : Z; size_ : Z; total_ : Z }.

Section Ops.
Context `{Heap}.

Definition fresh (from n : Z) : bytes := junk <$> seq (Z.to_nat from) (Z.to_nat n).
Definition realloc (m : bytes) (n : Z) : option bytes :=
  if realloc_ok n then Some (ztake n m ++ fresh (zlen m) (n - zlen m)) else None.

(** [Buffer::Buffer(int total)] (the result of [malloc] is not checked). *)
Definition create (total : Z) : t := mk (fresh 0 total) 0 0 total.

Definition empty (b : t) : bool := size_ b =? 0.
Definition slot (b : t) : Z := off b + size_ b.
Definition space (b : t) : Z := total_ b - off b - size_ b.
Definition incr (b : t) (num : Z) : t := mk (mem b) (off b) (size_ b + num) (total_ b).
Definition decr (b : t) (num : Z) : t := mk (mem b) (off b + num) (size_ b - num) (total_ b).

(** [memcpy] of overlapping areas is undefined. *)
Definition nice (b : t) : exec t :=
  if (size_ b =? 0) || (Z.quot (total_ b) 2 <? off b) then
    let* m := (if 0 <? size_ b then
                 let* _ := guard (size_ b <=? off b) in
                 let* s := mread (mem b) (off b) (size_ b) in mwrite (mem b) 0 s
               else Done (mem b)) in
    Done (mk m 0 (size_ b) (total_ b))
  else Done b.

Definition shrink (b : t) (total : Z) : exec t :=
  let total := if total <=? 0 then 8 * 1024 else total in
  if total <? off b + size_ b then Done b
  else match realloc (mem b) total with
       | Some m => Done (mk m (off b) (size_ b) total)
       | None => UB
       end.

Definition grow (b : t) : exec (Z * t) :=
  let* n := (if total_ b <? 8 * 1024 then Done (8 * 1024)
             else if total_ b <? 512 * 1024 then ck_int (8 * total_ b)
             else ck_int (2 * total_ b)) in
  match realloc (mem b) n with
  | None => Done (-1, b)
  | Some m => Done (n, mk m (off b) (size_ b) n)
  end.

(** [while(size > this->space()) if(this->grow() == -1) return -1;] *)
Fixpoint ensure_loop (fuel : nat) (size : Z) (b : t) : exec (bool * t) :=
  if size <=? space b then Done (true, b) else
  match fuel with
  | O => NoFuel
  | S f => let* (r, b') := grow b in
           if r =? -1 then Done (false, b') else ensure_loop f size b'
  end.
Definition ensure (size : Z) (b : t) : exec (bool * t) := ensure_loop 20 size b.

Definition append_char (c : char) (b : t) : exec (Z * t) :=
  let* (ok, b) := ensure 1 b in
  if ok : bool then
    let* m := mwrite (mem b) (slot b) [c] in
    Done (1, incr (mk m (off b) (size_ b) (total_ b)) 1)
  else Done (-1, b).

Definition append (p : bytes) (b : t) : exec (Z * t) :=
  let* (ok, b) := ensure (zlen p) b in
  if ok : bool then
    let* m := mwrite (mem b) (slot b) p in
    Done (zlen p, incr (mk m (off b) (size_ b) (total_ b)) (zlen p))
  else Done (-1, b).

Definition append_record (s : bytes) (b : t) : exec (Z * t) :=
  let* size := ck_int (16 + zlen s + 1) in
  let* (ok, b) := ensure size b in
  if ok : bool then
    let len := snprintf 16 (print_int (zlen s) ++ [LF]) in
    let num := zlen len in
    let p := slot b in
    let* m := mwrite (mem b) p len in
    let* m := mwrite m (p + num) s in
    let* m := mwrite m (p + num + zlen s) [LF] in
    let n := num + zlen s + 1 in
    Done (n, incr (mk m (off b) (size_ b) (total_ b)) n)
  else Done (-1, b).

(** The result of [read_record]: its return value, the buffer, and [*s] when
    it is assigned. *)
Definition read_record (b : t) : exec (Z * t * option bytes) :=
  let* data := mread (mem b) (off b) (size_ b) in
  match memchr data LF with
  | None => Done (0, b, None)
  | Some i =>
      let head_len := i + 1 in
      let* c := mget data 0 in
      if (schar c <? 48) || (57 <? schar c) then Done (-1, b, None)
      else if 20 <? head_len + 1 then Done (-1, b, None)
      else
        let* body_len := atoi (ztake (head_len - 1) data ++ [NUL]) in
        if body_len <? 0 then Done (-1, b, None)
        else
          let* n := ck_int (head_len + body_len) in
          let* n1 := ck_int (n + 1) in
          if n1 <=? size_ b then
            let* p0 := mget (mem b) (off b + n) in
            if decide (p0 = LF) then
              let* s := mread (mem b) (off b + head_len) body_len in
              Done (1, decr b n1, Some s)
            else if decide (p0 = CR) then
              let* n2 := ck_int (n + 2) in
              if n2 <=? size_ b then
                let* p1 := mget (mem b) (off b + n + 1) in
                if decide (p1 = LF) then
                  let* s := mread (mem b) (off b + head_len) body_len in
                  Done (1, decr b n2, Some s)
                else Done (-1, b, None)
              else Done (0, b, None)
            else Done (-1, b, None)
          else Done (0, b, None)
  end.

Definition stats (b : t) : bytes :=
  lit "total: " ++ print_int (total_ b) ++ lit ", data: " ++ print_int (off b) ++
  lit ", size: " ++ print_int (size_ b) ++ lit ", slot: " ++ print_int (slot b).
End Ops.
End Buffer.

(** * Decoder *)

Module Decoder.
(** The bytes left to decode: [p] and [size]. A method returns its value, what
    is left and the output string. *)
Definition t := bytes.

Definition skip (n : Z) (d : t) : Z * t :=
  if zlen d <? n then (-1, d) else (n, zdrop n d).
Definition read_int64 (d : t) : Z * t * option Z :=
  if zlen d <? 8 then (-1, d, None) else (8, zdrop 8 d, Some (rd_i64 (ztake 8 d))).
Definition read_uint64 (d : t) : Z * t * option Z :=
  if zlen d <? 8 then (-1, d, None) else (8, zdrop 8 d, Some (rd_u64 (ztake 8 d))).
Definition read_data (d : t) : Z * t * bytes := (zlen d, [], d).
Definition read_8_data (d : t) : Z * t * option bytes :=
  match d with
  | [] => (-1, d, None)
  | c :: d' =>
      let len := uchar c in
      if zlen d' <? len then (-1, d', None)
      else (1 + len, zdrop len d', Some (ztake len d'))
  end.
End Decoder.

(** * Buffer: invariant and contents *)

Module BufferSpec.
Import Buffer.

(** The data lies inside the block, whose size is an [int]. *)
Record wf (b : t) : Prop := {
  wf_off : 0 <= off b;
  wf_size : 0 <= size_ b;
  wf_data : off b + size_ b <= total_ b;
  wf_mem : zlen (mem b) = total_ b;
  wf_total : total_ b <= int_max
}.

(** The bytes between [data()] and [slot()]. *)
Definition contents (b : t) : bytes := ztake (size_ b) (zdrop (off b) (mem b)).

Lemma zlen_contents b : wf b -> zlen (contents b) = size_ b.
Proof. intros []. unfold contents. apply zlen_ztake. rewrite zlen_zdrop; lia. Qed.

(** The block of a well-formed buffer, cut at [data()] and [slot()]. *)
Lemma wf_split b : wf b ->
  exists p q, mem b = p ++ contents b ++ q /\ zlen p = off b /\
              zlen q = total_ b - off b - size_ b.
Proof.
  intros []. exists (ztake (off b) (mem b)), (zdrop (off b + size_ b) (mem b)).
  rewrite zlen_ztake, zlen_zdrop by lia. repeat split; [| lia].
  unfold contents. rewrite <- zdrop_zdrop by done. by rewrite !ztake_zdrop.
Qed.

Lemma contents_mk p c q o n k :
  o = zlen p -> n = zlen c -> contents (mk (p ++ c ++ q) o n k) = c.
Proof.
  intros -> ->. unfold contents. cbn. rewrite zdrop_app. apply ztake_app.
Qed.

Lemma wf_mk p c q o n k :
  o = zlen p -> n = zlen c -> k = zlen p + zlen c + zlen q -> k <= int_max ->
  wf (mk (p ++ c ++ q) o n k).
Proof. intros -> -> -> ?. split; cbn; zl. Qed.

Lemma mread_contents b : wf b -> mread (mem b) (off b) (size_ b) = Done (contents b).
Proof. intros []. rewrite mread_ok by lia. done. Qed.

Section Lemmas.
Context `{Heap}.

Lemma zlen_fresh i n : 0 <= n -> zlen (fresh i n) = n.
Proof. intros. unfold fresh, zlen. rewrite length_fmap, length_seq. lia. Qed.

Lemma create_wf n : 0 <= n <= int_max -> wf (create n) /\ contents (create n) = [].
Proof. intros. split; [| done]. split; cbn; rewrite ?zlen_fresh; lia. Qed.

Lemma decr_wf b n : wf b -> 0 <= n <= size_ b ->
  wf (decr b n) /\ contents (decr b n) = zdrop n (contents b).
Proof.
  intros [] ?. split; [split; cbn; lia |]. unfold contents. cbn.
  rewrite zdrop_ztake, zdrop_zdrop by lia. done.
Qed.

(** A successful [realloc] keeps the data. *)
Lemma realloc_wf b n m : wf b -> off b + size_ b <= n <= int_max ->
  realloc (mem b) n = Some m ->
  let b' := mk m (off b) (size_ b) n in wf b' /\ contents b' = contents b.
Proof.
  intros Hwf Hn E. destruct (wf_split b Hwf) as (p & q & Em & Hp & Hq).
  pose proof (zlen_contents b Hwf) as Hc. destruct Hwf.
  unfold realloc in E. destruct (realloc_ok n); [| done]. injection E as <-.
  rewrite Em. set (c := contents b) in *.
  assert (exists q', ztake n (p ++ c ++ q) = p ++ c ++ q' /\ zlen q' = Z.min n (total_ b) - off b - size_ b)
    as (q' & -> & Hq').
  { exists (ztake (n - zlen p - zlen c) q). split.
    - unfold ztake, zlen in *. rewrite !firstn_app.
      rewrite !(take_ge p), !(take_ge c) by lia. do 3 f_equal. lia.
    - unfold ztake, zlen in *. rewrite length_take. lia. }
  rewrite <- !app_assoc. split; [apply wf_mk | apply contents_mk]; try lia.
  rewrite zlen_app. destruct (decide (n <= total_ b)).
  - unfold fresh. replace (Z.to_nat (n - _)) with O by zl. cbn. zl.
  - rewrite zlen_fresh by zl. zl.
Qed.

Lemma nice_spec b : wf b ->
  exists b', nice b = Done b' /\ wf b' /\ contents b' = contents b /\
    total_ b' = total_ b /\ (off b' = 0 \/ (b' = b /\ off b <= total_ b / 2)).
Proof.
  intros Hwf. destruct (wf_split b Hwf) as (p & q & Em & Hp & Hq).
  pose proof (zlen_contents b Hwf) as Hc. pose proof (mread_contents b Hwf) as Hr.
  destruct Hwf. unfold nice.
  rewrite Z.quot_div_nonneg by lia.
  destruct (Z.eqb_spec (size_ b) 0) as [E0 | E0]; cbn [orb].
  - rewrite E0. cbn. eexists. split; [done |].
    split; [split; cbn; lia |]. split; [| by auto]. unfold contents. cbn. by rewrite E0.
  - destruct (Z.ltb_spec (total_ b / 2) (off b)) as [Hoff | Hoff].
    + rewrite (proj2 (Z.ltb_lt 0 (size_ b))) by lia.
      rewrite (proj2 (Z.leb_le (size_ b) (off b)))
        by (Z.to_euclidean_division_equations; lia).
      cbn [guard ebind]. rewrite Hr. cbn [ebind].
      rewrite mwrite_ok by zl. cbn [ebind]. rewrite ztake_0, app_nil_l.
      eexists. split; [done |].
      pose proof (wf_mk [] (contents b) (zdrop (0 + zlen (contents b)) (mem b))).
      pose proof (contents_mk [] (contents b) (zdrop (0 + zlen (contents b)) (mem b))) as Hk.
      cbn [app] in *. rewrite Hk by done. split; [| by auto].
      split; cbn; try lia. zl_simp. rewrite zlen_zdrop; lia.
    + exists b. repeat split; try done. by right.
Qed.

(** [nice] keeps the data; the areas of its [memcpy] never overlap, so the
    call is defined on every well-formed buffer; afterwards the data starts
    at the block or nothing has moved. *)
Theorem nice_correct b : wf b ->
  exists b', nice b = Done b' /\ wf b' /\ contents b' = contents b /\
    total_ b' = total_ b /\ (off b' = 0 \/ (b' = b /\ off b <= total_ b / 2)).
Proof. apply nice_spec. Qed.

(** The data and its place are unchanged. *)
Definition same (b b' : t) : Prop :=
  wf b' /\ off b' = off b /\ size_ b' = size_ b /\ contents b' = contents b.

(** Below half a gigabyte [grow] does not overflow. *)
Lemma grow_spec b : wf b -> total_ b < 2 ^ 29 ->
  exists r b', grow b = Done (r, b') /\ same b b' /\
    ((r = -1 /\ exists n, realloc_ok n = false) \/
     (r = total_ b' /\ 8192 <= total_ b' /\ (8192 <= total_ b -> 2 * total_ b <= total_ b'))).
Proof.
  intros Hwf Ht. pose proof (wf_total b Hwf) as Hi. unfold grow.
  assert (exists n, (if total_ b <? 8 * 1024 then Done (8 * 1024)
             else if total_ b <? 512 * 1024 then ck_int (8 * total_ b)
             else ck_int (2 * total_ b)) = Done n /\ total_ b <= n <= int_max /\
             8192 <= n /\ (8192 <= total_ b -> 2 * total_ b <= n)) as (n & -> & Hn).
  { pose proof (wf_off b Hwf). pose proof (wf_size b Hwf). pose proof (wf_data b Hwf).
    repeat case_match; rewrite ?ck_int_ok by zlia; eexists; (split; [done | zlia]). }
  cbn [ebind]. destruct (realloc (mem b) n) as [m |] eqn:E.
  - destruct (realloc_wf b n m Hwf) as [Hw Hc]; [destruct Hwf; lia | done |].
    eexists _, _. split; [done |]. split; [done |]. right. cbn. lia.
  - eexists _, _. split; [done |]. split; [done |]. left. split; [done |].
    unfold realloc in E. exists n. by destruct (realloc_ok n).
Qed.

Lemma ensure_loop_spec n k : 0 <= n -> k + n <= 2 ^ 29 -> forall f b,
  wf b -> off b + size_ b = k ->
  (18 <= Z.of_nat f \/ (8192 <= total_ b /\ 2 ^ 29 <= total_ b * 2 ^ Z.of_nat f)) ->
  exists ok b', ensure_loop f n b = Done (ok, b') /\ same b b' /\
    (if ok : bool then n <= space b' else exists m, realloc_ok m = false).
Proof.
  intros Hn Hk. induction f as [| f IH]; intros b Hwf Hkb Hf; cbn [ensure_loop].
  - destruct (Z.leb_spec n (space b)) as [Hs | Hs]; [eexists _, _; by split |].
    unfold space in Hs. cbn in Hf. lia.
  - destruct (Z.leb_spec n (space b)) as [Hs | Hs]; [eexists _, _; by split |].
    destruct (grow_spec b Hwf) as (r & b' & Hg & (Hw' & Ho & Hz & Hc) & Hr);
      [unfold space in Hs; lia |].
    rewrite Hg. cbn [ebind]. destruct Hr as [[-> Hno] | (-> & H8 & H2)].
    { cbn. eexists _, _. split; [done |]. by split. }
    destruct (Z.eqb_spec (total_ b') (-1)); [lia |].
    destruct (IH b') as (ok & b2 & Hl & (Hw2 & Ho2 & Hz2 & Hc2) & Hok); [done | lia | |].
    + rewrite Nat2Z.inj_succ, Z.pow_succ_r in Hf by lia.
      assert (0 < 2 ^ Z.of_nat f) by (apply Z.pow_pos_nonneg; lia).
      right. split; [lia |]. destruct Hf as [Hf | [Hf1 Hf2]].
      * assert (2 ^ 16 <= 2 ^ Z.of_nat f) by (apply Z.pow_le_mono_r; lia). nia.
      * specialize (H2 Hf1). nia.
    + rewrite Hl. eexists _, _. split; [done |]. split; [| done].
      split_and!; congruence.
Qed.

(** The loop that makes room ends, with enough room unless the allocator
    refused. *)
Lemma ensure_spec n b : wf b -> 0 <= n -> off b + size_ b + n <= 2 ^ 29 ->
  exists ok b', ensure n b = Done (ok, b') /\ same b b' /\
    (if ok : bool then n <= space b' else exists m, realloc_ok m = false).
Proof. intros. eapply ensure_loop_spec; eauto. left. cbn. lia. Qed.

(** What any call of [grow] does to the size of the block. *)
Lemma grow_total b r b' : grow b = Done (r, b') -> total_ b <= int_max ->
  off b' = off b /\ size_ b' = size_ b /\ total_ b' <= int_max /\
  total_ b' <= Z.max 8192 (8 * total_ b) /\
  (r = -1 \/ (8192 <= total_ b' /\ (8192 <= total_ b -> 2 * total_ b <= total_ b'))).
Proof.
  unfold grow. intros (n & Hn & E)%bind_Done Ht.
  assert (total_ b <= n <= int_max /\ 8192 <= n <= Z.max 8192 (8 * total_ b) /\
          (8192 <= total_ b -> 2 * total_ b <= n)).
  { destruct (Z.ltb_spec (total_ b) (8 * 1024)); [simplify_eq; zlia |].
    destruct (Z.ltb_spec (total_ b) (512 * 1024)); apply ck_int_Done in Hn as [? ->]; zlia. }
  destruct (realloc (mem b) n); simplify_eq/=; split_and!; try done; try lia; right; lia.
Qed.

Lemma grow_wf b r b' : wf b -> grow b = Done (r, b') -> same b b'.
Proof.
  intros Hwf Hg. unfold grow in Hg. apply bind_Done in Hg as (n & Hn & E).
  assert (off b + size_ b <= n <= int_max).
  { pose proof Hwf as []. destruct (Z.ltb_spec (total_ b) (8 * 1024)); [simplify_eq; zlia |].
    destruct (Z.ltb_spec (total_ b) (512 * 1024)); apply ck_int_Done in Hn as [? ->]; zlia. }
  destruct (realloc (mem b) n) as [m |] eqn:Em; simplify_eq/=; [| done].
  by destruct (realloc_wf b r m Hwf).
Qed.

Lemma ensure_loop_total n : forall f b ok b', ensure_loop f n b = Done (ok, b') ->
  total_ b <= int_max ->
  off b' = off b /\ size_ b' = size_ b /\ total_ b' <= int_max /\
  total_ b' <= Z.max (Z.max 8192 (total_ b)) (8 * (off b + size_ b + n)).
Proof.
  induction f as [| f IH]; intros b ok b'; cbn [ensure_loop];
    (case_match eqn:Hs; [intros [= <- <-] Ht; split_and!; done || lia |]); [done |].
  intros ([r b1] & Hg & E)%bind_Done Ht. destruct (grow_total b r b1 Hg Ht) as (Ho & Hz & Hi & Hm & _).
  unfold space in Hs. case_match; [simplify_eq; split_and!; done || lia |].
  destruct (IH _ _ _ E Hi) as (Ho' & Hz' & Hi' & Hm'). split_and!; try done; lia.
Qed.

Lemma append_total s b r b' : append s b = Done (r, b') -> total_ b <= int_max ->
  total_ b' <= int_max /\
  total_ b' <= Z.max (Z.max 8192 (total_ b)) (8 * (off b + size_ b + zlen s)).
Proof.
  unfold append. intros ([ok b1] & E1 & E2)%bind_Done Ht.
  destruct (ensure_loop_total _ _ _ _ _ E1 Ht) as (_ & _ & Hi & Hm).
  destruct ok; [apply bind_Done in E2 as (m & _ & [= <- <-]) | injection E2 as <- <-]; done.
Qed.

(** The loop that makes room ends on every block, whatever the size asked for:
    the size of the block at least doubles until it overflows. *)
Lemma ends_ensure_loop n : forall f b, total_ b <= int_max ->
  (19 <= Z.of_nat f \/ (8192 <= total_ b /\ 2 ^ 31 <= total_ b * 2 ^ Z.of_nat f)) ->
  ends (ensure_loop f n b).
Proof.
  induction f as [| f IH]; intros b Ht Hf; cbn [ensure_loop].
  - cbn in Hf. zlia.
  - case_match; [done |]. apply ends_bind.
    { unfold grow. ends_tac. }
    intros [r b'] Hg. destruct (grow_total b r b' Hg Ht) as (_ & _ & Hi & _ & Hr).
    case_match eqn:Hr1; [done |]. apply IH; [done |].
    destruct Hr as [-> | [H8 H2]]; [done |]. right. split; [lia |].
    rewrite Nat2Z.inj_succ, Z.pow_succ_r in Hf by lia.
    assert (0 < 2 ^ Z.of_nat f) by (apply Z.pow_pos_nonneg; lia).
    destruct Hf as [Hf | [Hf1 Hf2]].
    + assert (2 ^ 18 <= 2 ^ Z.of_nat f) by (apply Z.pow_le_mono_r; lia). nia.
    + specialize (H2 Hf1). nia.
Qed.

Lemma ends_append s b : total_ b <= int_max -> ends (append s b).
Proof.
  intros Ht. unfold append. apply ends_bind; [| intros [ok b']; ends_tac].
  apply ends_ensure_loop; [done |]. left. cbn. lia.
Qed.

Lemma mwrite_mwrite m i x y : 0 <= i -> i + zlen x + zlen y <= zlen m ->
  ebind (mwrite m i x) (fun m' => mwrite m' (i + zlen x) y) = mwrite m i (x ++ y).
Proof.
  intros Hi Hl. pose proof (zlen_nonneg x). pose proof (zlen_nonneg y).
  rewrite (mwrite_ok m i x), (mwrite_ok m i (x ++ y)) by zl. cbn [ebind].
  set (p := ztake i m). set (q := zdrop (i + zlen x) m).
  assert (zlen p = i) by (apply zlen_ztake; lia).
  assert (zlen q = zlen m - i - zlen x) by (subst q; rewrite zlen_zdrop; lia).
  rewrite app_assoc. replace (i + zlen x) with (zlen (p ++ x)) by zl.
  rewrite mwrite_ok by zl. rewrite ztake_app, zdrop_app_ge by done.
  f_equal. rewrite <- !app_assoc. do 3 f_equal. subst q.
  rewrite zdrop_zdrop by lia. f_equal. zl.
Qed.

(** Writing at [slot()] and advancing the size appends to the data. *)
Lemma write_slot b s : wf b -> zlen s <= space b ->
  exists m, mwrite (mem b) (slot b) s = Done m /\
    let b' := incr (mk m (off b) (size_ b) (total_ b)) (zlen s) in
    wf b' /\ contents b' = contents b ++ s /\ off b' = off b /\ total_ b' = total_ b.
Proof.
  intros Hwf Hs. destruct (wf_split b Hwf) as (p & q & Em & Hp & Hq).
  pose proof (zlen_contents b Hwf) as Hc. destruct Hwf. unfold space, slot in *.
  rewrite mwrite_ok by zl. eexists. split; [done |]. cbn.
  rewrite Em. set (c := contents b) in *.
  replace (off b + size_ b) with (zlen (p ++ c)) by zl.
  rewrite (app_assoc p c q), ztake_app, zdrop_app_ge by done.
  rewrite <- app_assoc, (app_assoc c).
  unfold incr. cbn. split_and!; try done.
  - apply wf_mk; try zl. zl_simp. rewrite zlen_zdrop; zl.
  - apply contents_mk; zl.
Qed.

Local Abbreviation appended b s r b' :=
  ((r = -1 /\ same b b' /\ exists m, realloc_ok m = false) \/
   (r = zlen s /\ wf b' /\ contents b' = contents b ++ s /\ off b' = off b)).

Lemma append_spec b s : wf b -> off b + size_ b + zlen s <= 2 ^ 29 ->
  exists r b', append s b = Done (r, b') /\ appended b s r b'.
Proof.
  intros Hwf Hb. unfold append.
  destruct (ensure_spec (zlen s) b Hwf ltac:(zl) ltac:(zl))
    as ([] & b1 & -> & Hs & Hok); cbn [ebind].
  - destruct Hs as (Hw & Ho & Hz & Hc).
    destruct (write_slot b1 s Hw Hok) as (m & -> & Hw' & Hc' & Ho' & _). cbn [ebind].
    eexists _, _. split; [done |]. right. split_and!; congruence.
  - eexists _, _. split; [done |]. left. done.
Qed.

(** [append] adds the bytes at the end of the data, growing the block as
    often as needed; the loop ends, nothing is written outside the block, and
    -1 (data unchanged) is returned only when the allocator refuses. *)
Theorem append_correct b s : wf b -> off b + size_ b + zlen s <= 2 ^ 29 ->
  exists r b', append s b = Done (r, b') /\ appended b s r b'.
Proof. apply append_spec. Qed.

Lemma append_char_spec b c : wf b -> off b + size_ b + 1 <= 2 ^ 29 ->
  exists r b', append_char c b = Done (r, b') /\ appended b [c] r b'.
Proof.
  intros Hwf Hb. unfold append_char.
  destruct (ensure_spec 1 b Hwf ltac:(zl) ltac:(zl))
    as ([] & b1 & -> & Hs & Hok); cbn [ebind].
  - destruct Hs as (Hw & Ho & Hz & Hc).
    destruct (write_slot b1 [c] Hw Hok) as (m & -> & Hw' & Hc' & Ho' & _). cbn [ebind].
    change (zlen [c]) with 1 in *. eexists _, _. split; [done |]. right. split_and!; congruence.
  - eexists _, _. split; [done |]. left. done.
Qed.

(** Whatever its outcome, [append] leaves a well-formed buffer. *)
Lemma ensure_loop_any n : forall f b ok b', wf b -> ensure_loop f n b = Done (ok, b') ->
  same b b' /\ (ok = true -> n <= space b').
Proof.
  induction f as [| f IH]; intros b ok b' Hwf; cbn [ensure_loop];
    (case_match eqn:Hs; [intros [= <- <-]; split; [done | lia] |]); [done |].
  intros ([r b1] & Hg & E)%bind_Done. pose proof (grow_wf b r b1 Hwf Hg) as (Hw & Ho & Hz & Hc).
  case_match; [by simplify_eq |]. destruct (IH _ _ _ Hw E) as [(Hw' & Ho' & Hz' & Hc') Hok].
  split; [split_and!; congruence | done].
Qed.

Lemma append_any s b r b' : wf b -> append s b = Done (r, b') -> wf b'.
Proof.
  unfold append. intros Hwf ([ok b1] & E1 & E2)%bind_Done.
  destruct (ensure_loop_any _ _ _ _ _ Hwf E1) as [(Hw & _) Hok].
  destruct ok; [| by injection E2 as _ <-].
  destruct (write_slot b1 s Hw (Hok eq_refl)) as (m & Hm & Hw' & _). rewrite Hm in E2.
  cbn [ebind] in E2. by injection E2 as _ <-.
Qed.

(** The record format of the replication link: length, line feed, bytes, line
    feed. *)
Definition record (s : bytes) : bytes := print_int (zlen s) ++ [LF] ++ s ++ [LF].

Lemma zlen_print_nat n : 0 <= n <= int_max -> 1 <= zlen (print_int n) <= 10.
Proof.
  intros Hn. unfold print_int. destruct (Z.ltb_spec n 0); [lia |].
  assert (zlen (digits n) <= 10) by (apply zlen_digits; zlia).
  assert (digits n <> []) by by apply digits_nonempty.
  destruct (digits n); [done |]. zl.
Qed.

Lemma append_record_spec b s : wf b -> off b + size_ b + zlen s + 17 <= 2 ^ 29 ->
  exists r b', append_record s b = Done (r, b') /\ appended b (record s) r b'.
Proof.
  intros Hwf Hb. destruct (zlen_print_nat (zlen s)) as [_ Hlen].
  { destruct Hwf. zl. }
  unfold append_record. rewrite ck_int_ok by (destruct Hwf; zl). cbn [ebind].
  destruct (ensure_spec (16 + zlen s + 1) b Hwf ltac:(zl) ltac:(zl))
    as ([] & b1 & -> & Hs & Hok); cbn [ebind].
  - destruct Hs as (Hw & Ho & Hz & Hc). rewrite snprintf_id by zl.
    set (l := print_int (zlen s) ++ [LF]).
    assert (zlen l <= 11) by (subst l; zl).
    destruct (write_slot b1 (l ++ s ++ [LF]) Hw) as (m & Hm & Hw' & Hc' & Ho' & _); [zl |].
    assert (slot b1 + zlen (l ++ s ++ [LF]) <= zlen (mem b1)).
    { unfold slot, space in *. rewrite (wf_mem b1 Hw). zl. }
    assert (0 <= slot b1) by (unfold slot; destruct Hw; lia).
    destruct (mwrite (mem b1) (slot b1) l) as [m1 | |] eqn:E1;
      [| rewrite mwrite_ok in E1 by zl; done..]. cbn [ebind].
    pose proof (mwrite_mwrite (mem b1) (slot b1) l s ltac:(lia) ltac:(zl)) as E2.
    rewrite E1 in E2. cbn [ebind] in E2. rewrite E2.
    pose proof (mwrite_mwrite (mem b1) (slot b1) (l ++ s) [LF] ltac:(lia) ltac:(zl)) as E3.
    destruct (mwrite (mem b1) (slot b1) (l ++ s)) as [m2 | |] eqn:E4; cbn [ebind] in *;
      [| rewrite mwrite_ok in E4 by zl; done..].
    replace (slot b1 + zlen l + zlen s) with (slot b1 + zlen (l ++ s)) by zl.
    rewrite E3, <- app_assoc, Hm. cbn [ebind].
    assert (l ++ s ++ [LF] = record s) as Er by (unfold record; subst l; by rewrite <- app_assoc).
    replace (zlen l + zlen s + 1) with (zlen (record s)) by (rewrite <- Er; zl).
    rewrite Er in *. eexists _, _. split; [done |]. right. split_and!; congruence.
  - eexists _, _. split; [done |]. left. done.
Qed.

(** [append_record] adds exactly the record of its argument: the 16 bytes
    reserved for the length are always enough, and the three copies stay inside
    the room made for them. *)
Theorem append_record_correct b s : wf b -> off b + size_ b + zlen s + 17 <= 2 ^ 29 ->
  exists r b', append_record s b = Done (r, b') /\ appended b (record s) r b'.
Proof. apply append_record_spec. Qed.

Lemma mget_contents b (x : bytes) c y : wf b -> contents b = x ++ c :: y ->
  mget (mem b) (off b + zlen x) = Done c.
Proof.
  intros Hwf E. destruct (wf_split b Hwf) as (p & q & -> & <- & _).
  rewrite E, <- app_assoc, app_assoc, <- zlen_app. cbn. apply mget_app.
Qed.

Lemma mread_sub b (x y z : bytes) : wf b -> contents b = x ++ y ++ z ->
  mread (mem b) (off b + zlen x) (zlen y) = Done y.
Proof.
  intros Hwf E. pose proof (zlen_contents b Hwf). pose proof (wf_off b Hwf).
  destruct (wf_split b Hwf) as (p & q & -> & <- & _).
  rewrite E. rewrite mread_ok by zl. rewrite <- !app_assoc, (app_assoc p x).
  rewrite zdrop_app' by zl. by rewrite ztake_app.
Qed.

Lemma LF_notin_len (s : bytes) : LF ∉ print_int (zlen s).
Proof. by apply print_int_notin. Qed.

(** The header of a record is read back: the tests that precede the length
    check all pass. *)
Lemma read_record_head b n r : wf b -> 0 <= n <= int_max ->
  contents b = print_int n ++ LF :: r ->
  read_record b =
    (let head_len := zlen (print_int n) + 1 in
     let* n0 := ck_int (head_len + n) in
     let* n1 := ck_int (n0 + 1) in
     if n1 <=? size_ b then
       let* p0 := mget (mem b) (off b + n0) in
       if decide (p0 = LF) then
         let* s := mread (mem b) (off b + head_len) n in
         Done (1, decr b n1, Some s)
       else if decide (p0 = CR) then
         let* n2 := ck_int (n0 + 2) in
         if n2 <=? size_ b then
           let* p1 := mget (mem b) (off b + n0 + 1) in
           if decide (p1 = LF) then
             let* s := mread (mem b) (off b + head_len) n in
             Done (1, decr b n2, Some s)
           else Done (-1, b, None)
         else Done (0, b, None)
       else Done (-1, b, None)
     else Done (0, b, None)).
Proof.
  intros Hwf Hn E. unfold read_record. rewrite mread_contents by done. cbn [ebind].
  rewrite E, memchr_app by by apply print_int_notin.
  destruct (zlen_print_nat n Hn) as [H1 H10].
  destruct (print_int_head n) as (c & t & Ec & Hc); [lia |].
  assert (mget (print_int n ++ LF :: r) 0 = Done c) as -> by (rewrite Ec; apply (mget_app [])).
  cbn [ebind].
  assert ((schar c <? 48) || (57 <? schar c) = false) as ->.
  { unfold isdigit in Hc. unfold schar. case_match; lia. }
  rewrite (proj2 (Z.ltb_ge 20 _)) by lia.
  replace (zlen (print_int n) + 1 - 1) with (zlen (print_int n)) by lia.
  rewrite ztake_app, atoi_print_int by (zlia || done). cbn [ebind].
  by rewrite (proj2 (Z.ltb_ge n 0)) by lia.
Qed.

(** A record at the front of the data is read back and consumed, whatever
    follows it. *)
Theorem read_record_roundtrip b s rest : wf b -> contents b = record s ++ rest ->
  exists b', read_record b = Done (1, b', Some s) /\ wf b' /\ contents b' = rest.
Proof.
  intros Hwf E. pose proof (zlen_contents b Hwf) as Hz. pose proof Hwf as [].
  unfold record in E. rewrite <- !app_assoc in E.
  rewrite E in Hz. rewrite (read_record_head b (zlen s) (s ++ [LF] ++ rest)) by (done || zl).
  cbn zeta. rewrite !ck_int_ok by zl. cbn [ebind].
  rewrite !ck_int_ok by zl. cbn [ebind]. rewrite (proj2 (Z.leb_le _ _)) by zl.
  set (h := print_int (zlen s)) in *.
  replace (off b + (zlen h + 1 + zlen s)) with (off b + zlen (h ++ [LF] ++ s)) by zl.
  rewrite (mget_contents b _ LF rest) by (done || (rewrite E; by rewrite <- !app_assoc)).
  cbn [ebind]. rewrite decide_True by done.
  replace (off b + (zlen h + 1)) with (off b + zlen (h ++ [LF])) by zl.
  rewrite (mread_sub b _ s (LF :: rest)) by (done || (rewrite E; by rewrite <- !app_assoc)).
  cbn [ebind]. eexists. split; [done |].
  destruct (decr_wf b (zlen h + 1 + zlen s + 1) Hwf) as [Hw' ->]; [zl |].
  split; [done |]. rewrite E, !app_assoc. apply zdrop_app'. zl.
Qed.

(** As long as a record is incomplete, [read_record] asks for more data and
    consumes nothing. *)
Theorem read_record_incomplete b s missing : wf b -> zlen s + 20 <= int_max ->
  contents b ++ missing = record s -> missing <> [] ->
  read_record b = Done (0, b, None).
Proof.
  intros Hwf Hs E Hm. destruct (memchr (contents b) LF) as [i |] eqn:Ei.
  - apply memchr_Some in Ei as (p & q & Ep & _ & Hp).
    rewrite Ep, <- app_assoc in E. cbn in E.
    destruct (app_first_inj p (q ++ missing) (print_int (zlen s)) (s ++ [LF]) LF)
      as [-> Eq]; [done | apply LF_notin_len | done |].
    destruct (zlen_print_nat (zlen s)); [zl |].
    rewrite (read_record_head b (zlen s) q) by (done || zl). cbn zeta.
    rewrite !ck_int_ok by zl. cbn [ebind]. rewrite !ck_int_ok by zl. cbn [ebind].
    rewrite <- (zlen_contents b Hwf), Ep.
    assert (zlen q + zlen missing = zlen s + 1) by (apply (f_equal zlen) in Eq; zl).
    assert (zlen missing <> 0) by (intros ?%zlen_0; done).
    by rewrite (proj2 (Z.leb_gt _ _)) by zl.
  - unfold read_record. rewrite mread_contents by done. cbn [ebind]. by rewrite Ei.
Qed.

(** A header that announces the largest [int] as its length makes
    [read_record] overflow an [int], so its behaviour is undefined. *)
Theorem read_record_overflow b r : wf b ->
  contents b = print_int int_max ++ LF :: r -> read_record b = UB.
Proof. intros Hwf E. by rewrite (read_record_head b int_max r) by done. Qed.
End Lemmas.

(** Sample buffers, for the witnesses: an allocator that never refuses, and a
    block that holds the data between two bytes of other contents. *)
Definition sample_heap : Heap := {| junk := fun _ => NUL; realloc_ok := fun _ => true |}.
Definition sample (data : bytes) : t :=
  mk (chr 1 :: data ++ [chr 2]) 1 (zlen data) (zlen data + 2).

Lemma nice_correct_witness : exists b',
  nice (mk (lit "xxab") 2 2 4) = Done b' /\ wf b' /\
  contents b' = contents (mk (lit "xxab") 2 2 4) /\ total_ b' = 4 /\
  (off b' = 0 \/ (b' = mk (lit "xxab") 2 2 4 /\ 2 <= 4 / 2)).
Proof. apply (nice_correct (mk (lit "xxab") 2 2 4)). split; vm_compute; congruence. Defined.

Lemma append_correct_witness : exists r b',
  append (H := sample_heap) (lit "hello") (sample (lit "ab")) = Done (r, b') /\
  ((r = -1 /\ same (sample (lit "ab")) b' /\ exists m, realloc_ok (Heap := sample_heap) m = false) \/
   (r = zlen (lit "hello") /\ wf b' /\
    contents b' = contents (sample (lit "ab")) ++ lit "hello" /\ off b' = 1)).
Proof.
  apply (append_correct (H := sample_heap) (sample (lit "ab")) (lit "hello"));
    [split; vm_compute; congruence | vm_compute; congruence].
Defined.

Lemma append_record_correct_witness : exists r b',
  append_record (H := sample_heap) (lit "hello") (sample (lit "ab")) = Done (r, b') /\
  ((r = -1 /\ same (sample (lit "ab")) b' /\ exists m, realloc_ok (Heap := sample_heap) m = false) \/
   (r = zlen (record (lit "hello")) /\ wf b' /\
    contents b' = contents (sample (lit "ab")) ++ record (lit "hello") /\ off b' = 1)).
Proof.
  apply (append_record_correct (H := sample_heap) (sample (lit "ab")) (lit "hello"));
    [split; vm_compute; congruence | vm_compute; congruence].
Defined.

Lemma read_record_roundtrip_witness : exists b',
  read_record (sample (record (lit "get") ++ lit "1")) = Done (1, b', Some (lit "get")) /\
  wf b' /\ contents b' = lit "1".
Proof.
  apply (read_record_roundtrip (sample (record (lit "get") ++ lit "1")) (lit "get") (lit "1"));
    [split; vm_compute; congruence | vm_compute; reflexivity].
Defined.

Lemma read_record_incomplete_witness :
  read_record (sample (take 3 (record (lit "get")))) =
    Done (0, sample (take 3 (record (lit "get"))), None).
Proof.
  apply (read_record_incomplete (sample (take 3 (record (lit "get")))) (lit "get")
           (drop 3 (record (lit "get"))));
    [split; vm_compute; congruence | vm_compute; congruence | vm_compute; reflexivity
    | vm_compute; congruence].
Defined.

Lemma read_record_overflow_witness :
  read_record (sample (lit "2147483647" ++ [LF])) = UB.
Proof.
  apply (read_record_overflow (sample (lit "2147483647" ++ [LF])) []);
    [split; vm_compute; congruence | vm_compute; reflexivity].
Defined.
End BufferSpec.
