(* ===== verification/BufferTyping.v ===== *)
(** What a client of [Buffer] ([util/bytes.h]) may do, and what it may rely on.

    [permitted] are the obligations of the caller of each member function; a buffer that
    only sees permitted calls is a queue of bytes, the abstract steps of which are
    [acts]: [buffer_safety] is progress and preservation for sequences of calls. *)
From S2P Require Import Prelude CLib Bytes.
Import Buffer BufferSpec.

(** The calls of member functions that change a buffer.  [Received s] is what [recv]
    does: [s] is written at [slot()], then comes [incr]. *)
Inductive call :=
  | AppendChar (c : char) | Append (s : bytes) | AppendRecord (s : bytes) | Received (s : bytes)
  | Decr (n : Z) | ReadRecord | Nice | Shrink (total : Z) | Grow.

Section Calls.
Context `{Heap}.

(** The return value (0 without one), the string that is read, and the buffer. *)
Definition run_call (c : call) (b : t) : exec (Z * option bytes * t) :=
  match c with
  | AppendChar c => let* (r, b) := append_char c b in Done (r, None, b)
  | Append s => let* (r, b) := append s b in Done (r, None, b)
  | AppendRecord s => let* (r, b) := append_record s b in Done (r, None, b)
  | Received s =>
      let* m := mwrite (mem b) (slot b) s in
      Done (0, None, incr (mk m (off b) (size_ b) (total_ b)) (zlen s))
  | Decr n => Done (0, None, decr b n)
  | ReadRecord => let* (r, b, s) := read_record b in Done (r, s, b)
  | Nice => let* b := nice b in Done (0, None, b)
  | Shrink n => let* b := shrink b n in Done (0, None, b)
  | Grow => let* (r, b) := grow b in Done (r, None, b)
  end.

Fixpoint run_calls (cs : list call) (b : t) : exec (list (Z * option bytes) * t) :=
  match cs with
  | [] => Done ([], b)
  | c :: cs =>
      let* (r, s, b) := run_call c b in
      let* (rs, b) := run_calls cs b in Done ((r, s) :: rs, b)
  end.

(** No record at the front announces a length near the largest [int]. *)
Definition modest (c : bytes) : Prop := forall head rest n,
  c = head ++ LF :: rest -> LF ∉ head -> atoi (head ++ [NUL]) = Done n -> n <= int_max - 21.

Definition permitted (c : call) (b : t) : Prop :=
  match c with
  | AppendChar _ => off b + size_ b + 1 <= 2 ^ 29
  | Append s => off b + size_ b + zlen s <= 2 ^ 29
  | AppendRecord s => off b + size_ b + zlen s + 17 <= 2 ^ 29
  | Received s => zlen s <= space b
  | Decr n => 0 <= n <= size_ b
  | ReadRecord => modest (contents b)
  | Nice => True
  | Shrink n => n <= int_max /\ realloc_ok (if n <=? 0 then 8192 else n) = true
  | Grow => total_ b < 2 ^ 29
  end.

Fixpoint all_permitted (cs : list call) (b : t) : Prop :=
  match cs with
  | [] => True
  | c :: cs => permitted c b /\
      match run_call c b with Done (_, _, b') => all_permitted cs b' | _ => True end
  end.

(** What a call does to the queue of bytes: it adds at the end, unless memory runs out,
    removes at the front, or leaves the bytes as they are. *)
Definition refused : Prop := exists n, realloc_ok n = false.
Inductive adds (s : bytes) : Z -> bytes -> bytes -> Prop :=
  | adds_all q : adds s (zlen s) q (q ++ s)
  | adds_none q : refused -> adds s (-1) q q.
Inductive reads : Z -> option bytes -> bytes -> bytes -> Prop :=
  | reads_none r q : r <> 1 -> reads r None q q
  | reads_record head s eol q : LF ∉ head -> atoi (head ++ [NUL]) = Done (zlen s) ->
      eol ∈ [[LF]; [CR; LF]] -> reads 1 (Some s) (head ++ LF :: s ++ eol ++ q) q.
Definition acts (c : call) (r : Z) (s : option bytes) (q q' : bytes) : Prop :=
  match c with
  | AppendChar c => adds [c] r q q'
  | Append s => adds s r q q'
  | AppendRecord s => adds (record s) r q q'
  | Received s => q' = q ++ s
  | Decr n => q' = zdrop n q
  | ReadRecord => reads r s q q'
  | Nice | Shrink _ | Grow => q' = q
  end.
Inductive all_acts : list call -> list (Z * option bytes) -> bytes -> bytes -> Prop :=
  | acts_nil q : all_acts [] [] q q
  | acts_cons c cs r s rs q q1 q' : acts c r s q q1 -> all_acts cs rs q1 q' ->
      all_acts (c :: cs) ((r, s) :: rs) q q'.

Lemma shrink_spec b n : wf b -> permitted (Shrink n) b ->
  exists b', shrink b n = Done b' /\ wf b' /\ contents b' = contents b.
Proof.
  intros Hwf [Hn Hok]. unfold shrink. set (k := if n <=? 0 then _ else n).
  assert (k <= int_max) by (unfold k; case_match; zlia).
  destruct (Z.ltb_spec k (off b + size_ b)); [by exists b |].
  destruct (realloc (mem b) k) eqn:E.
  - eexists. split; [done |]. by apply realloc_wf.
  - unfold realloc in E. change (if n <=? 0 then 8192 else n) with k in Hok. by rewrite Hok in E.
Qed.

Lemma split_nth {A} (l : list A) n : 0 <= n < zlen l -> exists x c y, l = x ++ c :: y /\ zlen x = n.
Proof.
  intros Hn. assert (zlen (ztake n l) = n) as Hx by (rewrite zlen_ztake; lia).
  pose proof (ztake_zdrop n l) as E. destruct (zdrop n l) as [| c y]; [| by exists (ztake n l), c, y].
  rewrite app_nil_r in E. rewrite E in Hx. lia.
Qed.

Lemma atoi_ended m : is_done (atoi (m ++ [NUL])).
Proof.
  destruct (scan_int_stop m NUL []) as [[[neg ds] r] E]; try done.
  unfold atoi, strtol. rewrite E. by eexists.
Qed.

(** A record at the front of the data: its length, its text, and how its line ends. *)
Section Record.
Context (b : t) (Hwf : wf b) (head str eol q : bytes).
Context (E : contents b = head ++ LF :: str ++ eol ++ q).
#[local] Set Default Proof Using "Hwf E".

Let n0 := zlen head + 1 + zlen str.

Lemma record_size : zlen head + 1 + zlen str + zlen eol + zlen q = size_ b.
Proof. rewrite <- (zlen_contents b Hwf), E. zl. Qed.

Lemma record_text : mread (mem b) (off b + (zlen head + 1)) (zlen str) = Done str.
Proof.
  replace (off b + (zlen head + 1)) with (off b + zlen (head ++ [LF])) by zl.
  apply (mread_sub b _ str (eol ++ q)); [done | by rewrite E, <- app_assoc].
Qed.

Lemma record_byte x c y : eol ++ q = x ++ c :: y -> mget (mem b) (off b + n0 + zlen x) = Done c.
Proof.
  intros Ex. replace (off b + n0 + zlen x) with (off b + zlen (head ++ [LF] ++ str ++ x)) by (unfold n0; zl).
  apply (mget_contents b _ c y); [done |]. rewrite E, Ex. by rewrite <- !app_assoc.
Qed.

Lemma record_consumed : LF ∉ head -> atoi (head ++ [NUL]) = Done (zlen str) ->
  eol ∈ [[LF]; [CR; LF]] -> let b' := decr b (n0 + zlen eol) in
  wf b' /\ reads 1 (Some str) (contents b) (contents b').
Proof.
  intros Hh Ha He b'. pose proof record_size. pose proof (zlen_nonneg q).
  pose proof (zlen_nonneg head). pose proof (zlen_nonneg str). pose proof (zlen_nonneg eol).
  destruct (decr_wf b (n0 + zlen eol) Hwf) as [Hw' Hc]; [unfold n0; lia |]. split; [done |].
  assert (contents b' = q) as -> by (unfold b'; rewrite Hc, E;
    change (LF :: ?l) with ([LF] ++ l); rewrite !app_assoc; apply zdrop_app'; unfold n0; zl).
  rewrite E. by constructor.
Qed.
End Record.

(** [read_record] on arbitrary data. *)
Lemma read_record_any b : wf b -> modest (contents b) ->
  exists r b' s, read_record b = Done (r, b', s) /\ wf b' /\ reads r s (contents b) (contents b').
Proof.
  intros Hwf Hm. pose proof (zlen_contents b Hwf) as Hl.
  assert (Hno : forall r, r <> 1 -> exists r0 b' s, Done (r, b, None) = Done (r0, b', s) /\
    wf b' /\ reads r0 s (contents b) (contents b')).
  { intros r Hr. exists r, b, None. split; [done |]. split; [done | by constructor]. }
  unfold read_record. rewrite mread_contents by done. cbn [ebind].
  destruct (memchr (contents b) LF) as [i |] eqn:Ei; [| by apply Hno].
  apply memchr_Some in Ei as (head & rest & E & <- & Hh).
  assert (exists c, mget (contents b) 0 = Done c) as [c0 ->] by (rewrite E; destruct head; by eexists).
  cbn [ebind]. case_match; [by apply Hno |]. case_match eqn:Hhl; [by apply Hno |].
  assert (ztake (zlen head + 1 - 1) (contents b) = head) as -> by (rewrite E; apply ztake_app'; lia).
  destruct (atoi_ended head) as [n Ha]. rewrite Ha. cbn [ebind].
  case_match eqn:Hn; [by apply Hno |]. specialize (Hm _ _ _ E Hh Ha). pose proof (zlen_nonneg head).
  rewrite ck_int_ok by zlia. cbn [ebind]. rewrite ck_int_ok by zlia. cbn [ebind].
  case_match eqn:Hsz; [| by apply Hno]. 
  assert (zlen head + 1 + zlen rest = size_ b) by (rewrite <- Hl, E; zl).
  destruct (split_nth rest n) as (str & c & y & -> & <-); [lia |].
  set (n0 := zlen head + 1 + zlen str).
  assert (Hlen : n0 + 1 + zlen y = size_ b) by (rewrite zlen_app, zlen_cons in *; unfold n0; lia).
  assert (Hp0 : mget (mem b) (off b + n0) = Done c).
  { rewrite <- (Z.add_0_r (off b + n0)). apply (record_byte b Hwf head str [c] y E [] c y eq_refl). }
  rewrite Hp0. cbn [ebind]. case_decide as Hc.
  { subst c. rewrite (record_text b Hwf head str [LF] y E). cbn [ebind].
    eexists _, _, _. split; [done |]. apply (record_consumed b Hwf head str [LF] y E Hh Ha). by left. }
  case_decide as Hc'; [subst c | by apply Hno].
  rewrite ck_int_ok by (unfold n0; zlia). cbn [ebind]. case_match eqn:Hsz2; [| by apply Hno].
  destruct y as [| d y]; [rewrite zlen_nil in Hlen; lia |].
  assert (Hp1 : mget (mem b) (off b + n0 + 1) = Done d)
    by apply (record_byte b Hwf head str [CR; d] y E [CR] d y eq_refl).
  rewrite Hp1. cbn [ebind]. case_decide; [subst d | by apply Hno].
  rewrite (record_text b Hwf head str [CR; LF] y E). cbn [ebind].
  eexists _, _, _. split; [done |]. apply (record_consumed b Hwf head str [CR; LF] y E Hh Ha).
  by right; left.
Qed.

Lemma appended_adds s r b b' :
  (r = -1 /\ same b b' /\ refused) \/ (r = zlen s /\ wf b' /\ contents b' = contents b ++ s /\ off b' = off b) ->
  wf b' /\ adds s r (contents b) (contents b').
Proof.
  intros [(-> & (Hw & _ & _ & ->) & Hr) | (-> & Hw & -> & _)]; (split; [done |]); by constructor.
Qed.

(** Progress and preservation for one call. *)
Lemma call_safe c b : wf b -> permitted c b ->
  exists r s b', run_call c b = Done (r, s, b') /\ wf b' /\ acts c r s (contents b) (contents b').
Proof.
  intros Hwf Hp. destruct c; cbn [run_call acts].
  - destruct (append_char_spec b c Hwf Hp) as (r & b' & -> & ?%appended_adds). by eexists _, _, _.
  - destruct (append_spec b s Hwf Hp) as (r & b' & -> & ?%appended_adds). by eexists _, _, _.
  - destruct (append_record_spec b s Hwf Hp) as (r & b' & -> & ?%appended_adds). by eexists _, _, _.
  - destruct (write_slot b s Hwf Hp) as (m & -> & ? & ? & _). by eexists _, _, _.
  - eexists _, _, _. split; [done |]. by apply decr_wf.
  - destruct (read_record_any b Hwf Hp) as (r & b' & s & -> & ?). by eexists _, _, _.
  - destruct (nice_spec b Hwf) as (b' & -> & ? & ? & _). by eexists _, _, _.
  - destruct (shrink_spec b total Hwf Hp) as (b' & -> & ?). by eexists _, _, _.
  - destruct (grow_spec b Hwf Hp) as (r & b' & -> & (? & _ & _ & ?) & _). by eexists _, _, _.
Qed.

(** The obligations are decidable. *)
Definition modestb (c : bytes) : bool :=
  match memchr c LF with
  | None => true
  | Some i => match atoi (ztake i c ++ [NUL]) with Done n => n <=? int_max - 21 | _ => true end
  end.
Definition permittedb (c : call) (b : t) : bool :=
  match c with
  | AppendChar _ => off b + size_ b + 1 <=? 2 ^ 29
  | Append s => off b + size_ b + zlen s <=? 2 ^ 29
  | AppendRecord s => off b + size_ b + zlen s + 17 <=? 2 ^ 29
  | Received s => zlen s <=? space b
  | Decr n => (0 <=? n) && (n <=? size_ b)
  | ReadRecord => modestb (contents b)
  | Nice => true
  | Shrink n => (n <=? int_max) && realloc_ok (if n <=? 0 then 8192 else n)
  | Grow => total_ b <? 2 ^ 29
  end.
Fixpoint all_permittedb (cs : list call) (b : t) : bool :=
  match cs with
  | [] => true
  | c :: cs => permittedb c b &&
      match run_call c b with Done (_, _, b') => all_permittedb cs b' | _ => true end
  end.

Lemma modestb_spec c : modestb c = true -> modest c.
Proof.
  intros Hb head rest n -> Hh Ha. unfold modestb in Hb.
  rewrite memchr_app, ztake_app, Ha in Hb by done. lia.
Qed.

Lemma all_permittedb_spec cs b : all_permittedb cs b = true -> all_permitted cs b.
Proof.
  revert b. induction cs as [| c cs IH]; intros b; [done |]. intros [Hc Hcs]%andb_prop. split.
  - destruct c; cbn in Hc |- *; try lia; [by apply modestb_spec |].
    apply andb_prop in Hc as [? ?]. split; [lia | done].
  - destruct (run_call c b) as [[[r s] b'] | |]; [by apply IH | done | done].
Qed.

(** C14: a buffer is safe to use: any sequence of calls that its callers are permitted to
    make runs without undefined behaviour, keeps the buffer well formed (its data inside
    its block, and its sizes [int]s), and acts on its data as on a queue of bytes: what is
    appended, received or recorded comes at the end, what is consumed or read as a record
    leaves at the front, and moving or reallocating the block changes nothing. *)
Theorem buffer_safety cs b : wf b -> all_permitted cs b ->
  exists rs b', run_calls cs b = Done (rs, b') /\ wf b' /\ all_acts cs rs (contents b) (contents b').
Proof.
  revert b. induction cs as [| c cs IH]; intros b Hwf Hp.
  { exists [], b. split; [done |]. split; [done | constructor]. }
  destruct Hp as [Hc Hp]. destruct (call_safe c b Hwf Hc) as (r & s & b1 & E & Hwf1 & Ha).
  rewrite E in Hp. destruct (IH b1 Hwf1 Hp) as (rs & b' & E' & Hwf' & Ha').
  cbn [run_calls]. rewrite E. cbn [ebind]. rewrite E'. eexists _, _. split; [done |].
  split; [done |]. by econstructor.
Qed.
End Calls.

(** * Samples *)

Module TypingSamples.
#[local] Existing Instance sample_heap.
Definition sample_calls : list call :=
  [Append (lit "xx"); AppendRecord (lit "get"); Decr 2; ReadRecord; Nice; Grow; Received (lit "ab");
   Shrink 4; AppendChar LF; ReadRecord].

Example sample_run :
  (let* (rs, b) := run_calls sample_calls (create 4) in Done (rs, contents b)) =
  Done ([(2, None); (6, None); (0, None); (1, Some (lit "get")); (0, None); (65536, None); (0, None);
         (0, None); (1, None); (-1, None)], lit "ab" ++ [LF]).
Proof. by vm_compute. Qed.

Lemma buffer_safety_witness : exists rs b', run_calls sample_calls (create 4) = Done (rs, b') /\
  wf b' /\ all_acts sample_calls rs [] (contents b').
Proof.
  apply (buffer_safety sample_calls (create 4)).
  - by apply create_wf.
  - apply all_permittedb_spec. by vm_compute.
Defined.
End TypingSamples.
