(* ===== verification/Sds.v ===== *)
(** The growing strings of [redis-2.8.0/doc/sds.c]: a header with the length and the
    space left, and behind it the bytes, to which the pointer that clients hold points.

    A string is the block of its header; [malloc] and [realloc] are the [Heap] of
    [Bytes], which may fail.  [holds] relates a block to the string in it,
    [sdscatlen_spec] is the behaviour of an append on every branch,
    [appends_spec] that of any sequence of them. *)
From S2P Require Import Prelude CLib Bytes.

Definition SDS_MAX_PERALLOC : Z := 1024 * 1024.

(** [struct sdshdr]; [sh_buf] is the rest of the block. *)
Record sdshdr := mkSds { sh_len : Z; sh_free : Z; sh_buf : bytes }.
Definition sizeof_sdshdr : Z := 8.

(** What a call does outside: lines printed, and calls of [realloc] with their size. *)
Inductive event := Printed (line : bytes) | Reallocated (size : Z).

(** [%ld] of a [size_t]. *)
Definition print_long (z : Z) : bytes := print_int (to_int64 z).

Section Ops.
Context `{Heap}.

(** The [int]s are converted to [size_t]. *)
Definition sdslen (s : sdshdr) : Z := to_uint64 (sh_len s).
Definition sdsavail (s : sdshdr) : Z := to_uint64 (sh_free s).

(** A block whose size leaves no place for the header cannot be written. *)
Definition sdsnewlen (initlen : Z) : exec (option sdshdr) :=
  let size := to_uint64 (sizeof_sdshdr + initlen + 1) in
  if realloc_ok size then
    let* _ := guard (sizeof_sdshdr <=? size) in
    let* b := mwrite (Buffer.fresh sizeof_sdshdr (size - sizeof_sdshdr)) initlen [NUL] in
    Done (Some (mkSds (to_int initlen) 0 b))
  else Done None.

Definition sdsMakeRoomFor (s : sdshdr) (addlen : Z) : exec (list event * option sdshdr) :=
  let free := sdsavail s in
  if addlen <=? free then Done ([], Some s) else
  let len := sdslen s in
  let newlen := to_uint64 (len + addlen) in
  let line1 := lit "old_len = " ++ print_long len ++ lit ", newlen = " ++ print_long newlen ++ [LF] in
  let newlen := if newlen <? SDS_MAX_PERALLOC then to_uint64 (newlen * 2) else SDS_MAX_PERALLOC in
  let line2 := lit "newlen = " ++ print_long newlen ++ [LF] in
  let size := to_uint64 (sizeof_sdshdr + newlen + 1) in
  let out := [Printed line1; Printed line2; Reallocated size] in
  if realloc_ok size then
    let n := size - sizeof_sdshdr in
    let b := ztake n (sh_buf s) ++ Buffer.fresh (zlen (sh_buf s)) (n - zlen (sh_buf s)) in
    Done (out, Some (mkSds (sh_len s) (to_int (to_uint64 (newlen - len))) b))
  else Done (out, None).

(** [t] is the memory that the argument points to; [%s] prints it up to its terminator. *)
Definition sdscatlen (s : sdshdr) (t : bytes) (len : Z) : exec (list event * option sdshdr) :=
  let curlen := sdslen s in
  let* (out, r) := sdsMakeRoomFor s len in
  match r with
  | None => Done (out, None)
  | Some s =>
      let* str := cstring t in
      let out := out ++ [Printed (lit "sdscatlen " ++ print_long curlen ++ lit " " ++ str ++ [LF])] in
      let* src := mread t 0 len in
      let* b := mwrite (sh_buf s) curlen src in
      let len' := to_int (to_uint64 (curlen + len)) in
      let free' := to_int (to_uint64 (sdsavail s - len)) in
      let* b := mwrite b (to_uint64 (curlen + len)) [NUL] in
      Done (out, Some (mkSds len' free' b))
  end.

(** [s = sdscatlen(s, t, n)] for one text after the other, until it returns [NULL]. *)
Fixpoint appends (s : sdshdr) (ts : list (bytes * Z)) : exec (list event * option sdshdr) :=
  match ts with
  | [] => Done ([], Some s)
  | (t, n) :: ts =>
      let* (out, r) := sdscatlen s t n in
      match r with
      | None => Done (out, None)
      | Some s => let* (out', r) := appends s ts in Done (out ++ out', r)
      end
  end.
End Ops.

(** * Specification *)

Module SdsSpec.
Section Spec.
Context `{Heap}.

(** The block holds the string [c], its terminator and the free bytes [q]. *)
Definition holds (s : sdshdr) (c : bytes) : Prop :=
  exists q, sh_buf s = c ++ NUL :: q /\ sh_len s = zlen c /\ sh_free s = zlen q /\
            zlen c + zlen q <= int_max.

(** The number of bytes for which there is room after an append of [n] to [l]. *)
Definition room (l n : Z) : Z :=
  if l + n <? SDS_MAX_PERALLOC then 2 * (l + n) else SDS_MAX_PERALLOC.
Fixpoint reallocs (out : list event) : Z :=
  match out with
  | [] => 0
  | Printed _ :: out => reallocs out
  | Reallocated _ :: out => 1 + reallocs out
  end.
Definition text (tn : bytes * Z) : bytes := ztake tn.2 tn.1.
(** An argument whose [n] bytes are there, with a terminator in the memory. *)
Definition legal (tn : bytes * Z) : Prop := NUL ∈ tn.1 /\ 0 <= tn.2 <= zlen tn.1.
Fixpoint total (ts : list (bytes * Z)) : Z :=
  match ts with [] => 0 | tn :: ts => tn.2 + total ts end.
Definition capacity (s : sdshdr) : Z := sh_len s + sh_free s.

Lemma cstring_in t : NUL ∈ t -> exists s, cstring t = Done s.
Proof. intros (w & v & ->)%list_elem_of_split. apply cstring_ended. Qed.

Lemma holds_avail s c : holds s c -> sdslen s = zlen c /\ sdsavail s = sh_free s /\ 0 <= sh_free s.
Proof.
  intros (q & _ & E1 & E2 & Hb). unfold sdslen, sdsavail. rewrite E1, E2.
  pose proof (zlen_nonneg c). pose proof (zlen_nonneg q). rewrite !to_uint64_id by zlia. done.
Qed.

(** [sdsnewlen] makes a string of the length asked for, of whatever bytes. *)
Theorem sdsnewlen_spec n : 0 <= n <= int_max ->
  if realloc_ok (n + 9) then
    exists s c, sdsnewlen n = Done (Some s) /\ holds s c /\ zlen c = n /\ sh_free s = 0
  else sdsnewlen n = Done None.
Proof.
  intros Hn. unfold sdsnewlen, sizeof_sdshdr. rewrite to_uint64_id by zlia.
  replace (8 + n + 1) with (n + 9) by lia. case_match; [| done].
  replace (8 <=? n + 9) with true by lia. cbn [guard ebind].
  rewrite mwrite_ok by (rewrite ?BufferSpec.zlen_fresh; zl). cbn [ebind].
  set (f := Buffer.fresh 8 (n + 9 - 8)).
  assert (Hf : zlen f = n + 1) by (unfold f; rewrite BufferSpec.zlen_fresh; lia).
  eexists _, (ztake n f). split; [done |]. rewrite zlen_ztake by lia. split; [| done].
  exists []. cbn. rewrite zlen_ztake, to_int_id, zdrop_all by zl.
  repeat split. rewrite zlen_nil. zlia.
Qed.

Lemma room_bounds s c n : holds s c -> sh_free s < n ->
  0 <= room (zlen c) n <= 2 * SDS_MAX_PERALLOC /\
  (zlen c + n <= SDS_MAX_PERALLOC -> zlen c + n <= room (zlen c) n).
Proof.
  intros Hs Hn. destruct (holds_avail _ _ Hs) as (_ & _ & Hf). pose proof (zlen_nonneg c).
  unfold room, SDS_MAX_PERALLOC. case_match; lia.
Qed.

(** Without room the block is reallocated. *)
Lemma makeroom_grow s c n : holds s c -> sh_free s < n -> zlen c + n <= int_max ->
  exists l1 l2, let k := room (zlen c) n in
  sdsMakeRoomFor s n = Done ([Printed l1; Printed l2; Reallocated (k + 9)],
    if realloc_ok (k + 9) then
      Some (mkSds (zlen c) (to_int (to_uint64 (k - zlen c)))
        (ztake (k + 1) (sh_buf s) ++ Buffer.fresh (zlen (sh_buf s)) (k + 1 - zlen (sh_buf s))))
    else None).
Proof.
  intros Hs Hn Hb. destruct (holds_avail _ _ Hs) as (El & Ea & Hf).
  destruct (room_bounds _ _ _ Hs Hn) as [Hk _]. pose proof (zlen_nonneg c).
  unfold sdsMakeRoomFor, sizeof_sdshdr. rewrite El, Ea.
  replace (n <=? sh_free s) with false by lia. rewrite (to_uint64_id (zlen c + n)) by zlia.
  assert ((if zlen c + n <? SDS_MAX_PERALLOC then to_uint64 ((zlen c + n) * 2) else SDS_MAX_PERALLOC)
          = room (zlen c) n) as ->.
  { unfold room. case_match; [| done]. rewrite to_uint64_id; zlia. }
  unfold SDS_MAX_PERALLOC in Hk. rewrite (to_uint64_id (8 + _ + 1)) by zlia.
  replace (8 + room (zlen c) n + 1) with (room (zlen c) n + 9) by lia.
  do 2 eexists. cbv zeta. case_match; [| reflexivity].
  replace (room (zlen c) n + 9 - 8) with (room (zlen c) n + 1) by lia.
  destruct Hs as (q & _ & -> & _). reflexivity.
Qed.

(** The string stays where it is, up to [SDS_MAX_PERALLOC] bytes. *)
Lemma grown_holds s c n : holds s c -> sh_free s < n -> zlen c + n <= SDS_MAX_PERALLOC ->
  let k := room (zlen c) n in
  holds (mkSds (zlen c) (to_int (to_uint64 (k - zlen c)))
        (ztake (k + 1) (sh_buf s) ++ Buffer.fresh (zlen (sh_buf s)) (k + 1 - zlen (sh_buf s)))) c.
Proof.
  intros Hs Hn Hb k. destruct (room_bounds _ _ _ Hs Hn) as [Hk Hr]. specialize (Hr Hb).
  destruct Hs as (q & -> & El & Ef & _). fold k in Hk, Hr. unfold SDS_MAX_PERALLOC in *.
  pose proof (zlen_nonneg c). pose proof (zlen_nonneg q). rewrite ztake_all by zl.
  set (f := Buffer.fresh _ _). assert (Hf : zlen f = k - zlen c - zlen q).
  { unfold f. rewrite BufferSpec.zlen_fresh; zl. }
  exists (q ++ f). cbn. rewrite <- app_assoc, to_uint64_id, to_int_id, zlen_app by zlia.
  repeat split; zlia.
Qed.

(** Copying into the room there is. *)
Lemma copy_fits s c d : holds s c -> zlen d <= sh_free s ->
  exists b1 b2, mwrite (sh_buf s) (zlen c) d = Done b1 /\
    mwrite b1 (to_uint64 (zlen c + zlen d)) [NUL] = Done b2 /\
    let s' := mkSds (to_int (to_uint64 (zlen c + zlen d)))
                    (to_int (to_uint64 (sh_free s - zlen d))) b2 in
    holds s' (c ++ d) /\ capacity s' = capacity s.
Proof.
  intros (q & E & El & Ef & Hb) Hd. rewrite Ef in Hd. pose proof (zlen_nonneg c).
  pose proof (zlen_nonneg d).
  assert (exists x y q', NUL :: q = x ++ y :: q' /\ zlen x = zlen d) as (x & y & q' & Eq & Hx).
  { exists (ztake (zlen d) (NUL :: q)). destruct (zdrop (zlen d) (NUL :: q)) as [| y q'] eqn:Ed.
    - apply (f_equal zlen) in Ed. rewrite zlen_zdrop, zlen_cons in Ed by (rewrite zlen_cons; lia).
      rewrite zlen_nil in Ed. lia.
    - exists y, q'. by rewrite <- Ed, ztake_zdrop, zlen_ztake by (rewrite zlen_cons; lia). }
  exists (c ++ d ++ y :: q'), ((c ++ d) ++ [NUL] ++ q').
  rewrite to_uint64_id by zlia. split; [| split].
  - rewrite E, Eq. by apply mwrite_app.
  - rewrite <- zlen_app, (app_assoc c d). by apply (mwrite_app _ [y]).
  - apply (f_equal zlen) in Eq. rewrite zlen_app, !zlen_cons in Eq.
    unfold capacity. cbn. rewrite Ef, to_uint64_id, !to_int_id by zlia. rewrite El.
    split; [exists q' | lia]. cbn. rewrite zlen_app. repeat split; zlia.
Qed.

Lemma cat_room s c n t out s1 : holds s c -> NUL ∈ t -> 0 <= n <= zlen t ->
  sdsMakeRoomFor s n = Done (out, Some s1) -> holds s1 c -> n <= sh_free s1 ->
  exists line s', sdscatlen s t n = Done (out ++ [Printed line], Some s') /\
    holds s' (c ++ ztake n t) /\ capacity s' = capacity s1.
Proof.
  intros Hs Ht Hn E Hs1 Hf. destruct (holds_avail _ _ Hs) as (El & _).
  destruct (holds_avail _ _ Hs1) as (_ & Ea & _). destruct (cstring_in _ Ht) as [str Estr].
  destruct (copy_fits s1 c (ztake n t) Hs1) as (b1 & b2 & E1 & E2 & H'); [rewrite zlen_ztake; lia |].
  rewrite zlen_ztake in E2, H' by lia.
  unfold sdscatlen. rewrite El, E. cbn [ebind]. rewrite Estr. cbn [ebind].
  rewrite mread_ok, zdrop_0 by lia. cbn [ebind]. rewrite E1. cbn [ebind]. rewrite E2.
  cbn [ebind]. rewrite Ea. by do 2 eexists.
Qed.

Lemma zlen_resized m k : 0 <= k -> zlen (ztake k m ++ Buffer.fresh (zlen m) (k - zlen m)) = k.
Proof.
  intros Hk. rewrite zlen_app. destruct (Z.le_gt_cases k (zlen m)).
  - rewrite zlen_ztake by lia. unfold Buffer.fresh. replace (Z.to_nat (k - zlen m)) with O by lia. change (k + 0 = k). lia.
  - rewrite ztake_all, BufferSpec.zlen_fresh by lia. lia.
Qed.

(** A copy whose terminator lies past the block. *)
Lemma past_block {A} m i d j (f : bytes -> exec A) : 0 <= i -> zlen m <= j ->
  (let* b := mwrite m i d in let* b := mwrite b j [NUL] in f b) = UB.
Proof.
  intros Hi Hj. unfold mwrite at 1. case_match; [| done]. cbn [ebind]. unfold mwrite.
  pose proof (zlen_nonneg d). case_match; [| done].
  rewrite !zlen_app, zlen_ztake, zlen_zdrop in * by lia. change (zlen [NUL]) with 1 in *. lia.
Qed.

(** An append, on every branch: in place where there is room, else after [realloc],
    which may fail; beyond [SDS_MAX_PERALLOC] bytes the new block is too small. *)
Theorem sdscatlen_spec s c t n : holds s c -> legal (t, n) -> zlen c + n <= int_max ->
  (n <= sh_free s -> exists line s', sdscatlen s t n = Done ([Printed line], Some s') /\
     holds s' (c ++ ztake n t) /\ capacity s' = capacity s) /\
  (sh_free s < n -> let k := room (zlen c) n in exists l1 l2,
     let out := [Printed l1; Printed l2; Reallocated (k + 9)] in
     if realloc_ok (k + 9) then
       if zlen c + n <=? SDS_MAX_PERALLOC
       then exists line s', sdscatlen s t n = Done (out ++ [Printed line], Some s') /\
              holds s' (c ++ ztake n t) /\ capacity s' = k
       else sdscatlen s t n = UB
     else sdscatlen s t n = Done (out, None)).
Proof.
  intros Hs [Ht Hn] Hb. cbn in Ht, Hn. destruct (holds_avail _ _ Hs) as (El & Ea & Hf0). split; intros Hf.
  - apply (cat_room s c n t [] s); try done. unfold sdsMakeRoomFor. rewrite Ea.
    by replace (n <=? sh_free s) with true by lia.
  - destruct (makeroom_grow _ _ _ Hs Hf Hb) as (l1 & l2 & E). exists l1, l2. cbv zeta in E.
    destruct (room_bounds _ _ _ Hs Hf) as [Hk Hr].
    destruct (realloc_ok _) eqn:Er; cbv zeta.
    2: { unfold sdscatlen. by rewrite E. }
    destruct (Z.leb_spec (zlen c + n) SDS_MAX_PERALLOC) as [Hle | Hgt].
    + pose proof (grown_holds _ _ _ Hs Hf Hle) as Hg. cbv zeta in Hg.
      specialize (Hr Hle). pose proof (zlen_nonneg c).
      assert (capacity (mkSds (zlen c) (to_int (to_uint64 (room (zlen c) n - zlen c))) []) = room (zlen c) n) as Hc.
      { unfold capacity, SDS_MAX_PERALLOC in *. cbn. rewrite to_uint64_id, to_int_id; zlia. }
      destruct (cat_room s c n t _ _ Hs Ht Hn E Hg) as (line & s' & ? & ? & Ec).
      { unfold capacity in Hc. cbn in *. lia. }
      exists line, s'. by rewrite Ec.
    + unfold sdscatlen. rewrite El, E. cbn [ebind]. destruct (cstring_in _ Ht) as [str ->]. cbn [ebind].
      rewrite mread_ok, zdrop_0 by lia. cbn [ebind sh_buf]. apply past_block; [zl |].
      rewrite zlen_resized by lia. rewrite to_uint64_id by zlia. unfold room. case_match; lia.
Qed.

Lemma reallocs_app x y : reallocs (x ++ y) = reallocs x + reallocs y.
Proof. induction x as [| [] x IH]; cbn; lia. Qed.

Lemma reallocs_nonneg x : 0 <= reallocs x.
Proof. induction x as [| [] x IH]; cbn; lia. Qed.

Lemma total_nonneg ts : Forall legal ts -> 0 <= total ts.
Proof. induction 1 as [| tn ts [_ ?] _ IH]; cbn in *; lia. Qed.

(** The room at least doubles, and one more, with a reallocation. *)
Lemma doubling (k l n cap total : Z) : 0 <= k -> cap = room l n -> 0 <= l -> 0 <= n ->
  (0 < k -> 2 ^ (k - 1) * (cap + 1) <= l + n + total) -> l + n + total <= SDS_MAX_PERALLOC ->
  0 <= total -> forall cap0, 0 <= cap0 < l + n -> 2 ^ k * (cap0 + 1) <= l + n + total.
Proof.
  intros Hk -> Hl Hn Hb Hmax Ht cap0 Hc. destruct (decide (k = 0)) as [-> | Hk0].
  { change (2 ^ 0) with 1. lia. }
  specialize (Hb ltac:(lia)). replace k with (Z.succ (k - 1)) by lia. rewrite Z.pow_succ_r by lia.
  assert (0 < 2 ^ (k - 1)) by (apply Z.pow_pos_nonneg; lia).
  revert Hb. unfold room. case_match; nia.
Qed.

(** C39: after any sequence of appends, where the initial content and the texts appended
    are at most [SDS_MAX_PERALLOC] bytes together and every argument has the bytes the
    call announces and a terminator somewhere in its memory, the string holds the texts one after the other, and its
    terminator; if a call returns [NULL], it is because its last [realloc] failed; and
    there are logarithmically many calls of [realloc]: with [r] of them, [2 ^ (r - 1)]
    times the first room is at most the final length, as each but the last at least
    doubles the room. *)
Theorem appends_spec ts : forall s c, holds s c -> Forall legal ts ->
  zlen c + total ts <= SDS_MAX_PERALLOC ->
  exists out r, appends s ts = Done (out, r) /\
    match r with
    | Some s' => holds s' (c ++ concat (map text ts))
    | None => exists size, last out = Some (Reallocated size) /\ realloc_ok size = false
    end /\
    (0 < reallocs out -> 2 ^ (reallocs out - 1) * (capacity s + 1) <= zlen c + total ts).
Proof.
  induction ts as [| [t n] ts IH]; intros s c Hs Hts Hb.
  { exists [], (Some s). split; [done |]. split; [| done]. cbn. by rewrite app_nil_r. }
  apply Forall_cons in Hts as [Ht Hts]. cbn [total fst snd] in *.
  pose proof (total_nonneg _ Hts).
  pose proof (zlen_nonneg c). pose proof Ht as [_ Hn]. cbn in Hn. 
  destruct (holds_avail _ _ Hs) as (_ & _ & Hf0).
  assert (Hcap : capacity s = zlen c + sh_free s) by (destruct Hs as (? & _ & E & _); unfold capacity; lia).
  assert (Hmax : SDS_MAX_PERALLOC < int_max) by done.
  destruct (sdscatlen_spec s c t n Hs Ht) as [Hin Hgrow]; [lia |].
  assert (zlen (c ++ ztake n t) = zlen c + n) as Hlen by (rewrite zlen_app, zlen_ztake; lia).
  destruct (Z.le_gt_cases n (sh_free s)) as [Hle | Hgt].
  - destruct (Hin Hle) as (line & s1 & E & Hs1 & Ec).
    destruct (IH s1 _ Hs1 Hts) as (out & r & E' & Hr & Hb'); [lia |].
    exists (Printed line :: out), r. cbn [appends]. rewrite E. cbn [ebind]. rewrite E'.
    split; [done |]. split; [| cbn; rewrite <- Ec; lia].
    destruct r; cbn [map concat text fst snd] in *; [by rewrite (assoc_L app) |].
    destruct Hr as (size & El & ?). exists size. split; [| done]. by rewrite last_cons, El.
  - destruct (Hgrow ltac:(lia)) as (l1 & l2 & Hcase). cbv zeta in Hcase.
    destruct (realloc_ok _) eqn:Er.
    + replace (zlen c + n <=? SDS_MAX_PERALLOC) with true in Hcase by lia.
      destruct Hcase as (line & s1 & E & Hs1 & Ec).
      destruct (IH s1 _ Hs1 Hts) as (out & r & E' & Hr & Hb'); [lia |].
      eexists (_ ++ out), r. cbn [appends]. rewrite E. cbn [ebind]. rewrite E'.
      split; [reflexivity |]. split.
      * destruct r; cbn [map concat text fst snd] in *; [by rewrite (assoc_L app) |].
        destruct Hr as (size & El & ?). exists size. split; [| done]. by rewrite last_app, El.
      * intros _. cbn [app reallocs]. replace (1 + reallocs out - 1) with (reallocs out) by lia.
        rewrite Z.add_assoc. rewrite Hlen in Hb'.
        eapply (doubling _ (zlen c) n); eauto using reallocs_nonneg with lia; lia.
    + eexists _, None. cbn [appends]. rewrite Hcase. split; [reflexivity |].
      split; [by eexists |]. intros _. cbn [reallocs]. change (2 ^ (1 + 0 - 1)) with 1. lia.
Qed.
(** Past [SDS_MAX_PERALLOC] bytes, an append to a full string writes behind its block. *)
Theorem sdscatlen_overflow s c t n : holds s c -> legal (t, n) -> sh_free s < n ->
  SDS_MAX_PERALLOC < zlen c + n <= int_max -> realloc_ok (SDS_MAX_PERALLOC + 9) = true ->
  sdscatlen s t n = UB.
Proof.
  intros Hs Ht Hf Hb Hok. destruct (sdscatlen_spec s c t n Hs Ht) as [_ Hgrow]; [lia |].
  destruct (Hgrow Hf) as (l1 & l2 & H'). cbv zeta in H'. unfold room in H'.
  replace (zlen c + n <? SDS_MAX_PERALLOC) with false in H' by lia. rewrite Hok in H'.
  by replace (zlen c + n <=? SDS_MAX_PERALLOC) with false in H' by lia.
Qed.

(** The bytes to append are also printed with [%s], so that they need a terminator. *)
Theorem sdscatlen_unterminated s t : NUL ∉ t -> zlen t <= sdsavail s ->
  sdscatlen s t (zlen t) = UB.
Proof.
  intros Ht Hn. unfold sdscatlen, sdsMakeRoomFor.
  replace (zlen t <=? sdsavail s) with true by lia. cbn [ebind].
  by rewrite cstring_unended.
Qed.
End Spec.
End SdsSpec.

(** * Samples *)

Module SdsSamples.
Import SdsSpec.
#[local] Existing Instance BufferSpec.sample_heap.
Definition hell : bytes * Z := (lit "hell" ++ [NUL], 4).
Definition abc : bytes * Z := (lit "abcdefgabc" ++ [NUL], 10).

(** The calls of [main]; 14 bytes are left for the next append. *)
Example main_run : exists s,
  (let* r := sdsnewlen 0 in
   match r with None => Done ([], None) | Some s => appends s [hell; abc] end) =
  Done ([Printed (lit "old_len = 0, newlen = 4" ++ [LF]); Printed (lit "newlen = 8" ++ [LF]);
         Reallocated 17; Printed (lit "sdscatlen 0 hell" ++ [LF]);
         Printed (lit "old_len = 4, newlen = 14" ++ [LF]); Printed (lit "newlen = 28" ++ [LF]);
         Reallocated 37; Printed (lit "sdscatlen 4 abcdefgabc" ++ [LF])], Some s) /\
  sh_len s = 14 /\ sh_free s = 14 /\ cstring (sh_buf s) = Done (lit "hellabcdefgabc").
Proof. eexists. vm_compute. repeat split. Qed.

Definition fresh_sds : sdshdr := mkSds 0 0 [NUL].

Lemma sds_sample_legal : Forall legal [hell; abc].
Proof.
  repeat constructor; try (vm_compute; discriminate); apply (bool_decide_unpack _); vm_compute; done.
Qed.

Lemma sdsnewlen_spec_witness : exists s c,
  sdsnewlen 3 = Done (Some s) /\ holds s c /\ zlen c = 3 /\ sh_free s = 0.
Proof. exact (sdsnewlen_spec 3 ltac:(zlia)). Defined.

Lemma appends_spec_witness : exists out r, appends fresh_sds [hell; abc] = Done (out, r) /\
    match r with
    | Some s' => holds s' (lit "hellabcdefgabc")
    | None => exists size, last out = Some (Reallocated size) /\ realloc_ok size = false
    end /\
    (0 < reallocs out -> 2 ^ (reallocs out - 1) * (0 + 1) <= 14).
Proof.
  apply (appends_spec [hell; abc] fresh_sds []).
  - exists []. by repeat split.
  - apply sds_sample_legal.
  - vm_compute. discriminate.
Defined.

Lemma zeros_legal n : 0 < n -> legal (replicate (Z.to_nat n) NUL, n).
Proof.
  intros Hn. split; cbn [fst snd].
  - apply elem_of_replicate. split; [done | lia].
  - unfold zlen. rewrite length_replicate. lia.
Qed.

(** A megabyte and a byte, appended to an empty string. *)
Lemma sdscatlen_overflow_witness : let n := SDS_MAX_PERALLOC + 1 in
  sdscatlen fresh_sds (replicate (Z.to_nat n) NUL) n = UB.
Proof.
  intros n. apply (sdscatlen_overflow fresh_sds []).
  - exists []. by repeat split.
  - by apply zeros_legal.
  - done.
  - done.
  - done.
Defined.

Lemma sdscatlen_unterminated_witness :
  sdscatlen (mkSds 0 4 (replicate 5 NUL)) (lit "hell") 4 = UB.
Proof.
  apply (sdscatlen_unterminated (mkSds 0 4 (replicate 5 NUL)) (lit "hell")); [| done].
  apply (bool_decide_unpack _). by vm_compute.
Defined.
End SdsSamples.
