(* ===== verification/Resp.v ===== *)
(** [Response] of [ssdb/src/net/resp.h] and [resp.cpp]: the vector of strings a
    command handler builds.  [add] prints integers into fixed buffers with
    [sprintf]: writing past them is undefined behaviour. *)
From S2P Require Import Prelude CLib Strings.

Module Response.
(** The field [resp]. *)
Definition t := list bytes.

Definition size (r : t) : Z := to_int (zlen r).
Definition push_back (s : bytes) (r : t) : t := r ++ [s].

(** [sprintf(buf, ...)] with [char buf[n]], then [push_back(buf)]. *)
Definition sprintf (n : Z) (s : bytes) : exec bytes :=
  let* _ := guard (zlen s + 1 <=? n) in Done s.

Definition add_int64 (s : Z) (r : t) : exec t :=
  let* buf := sprintf 20 (print_int s) in Done (push_back buf r).
Definition add_uint64 (s : Z) (r : t) : exec t :=
  let* buf := sprintf 20 (print_int s) in Done (push_back buf r).
Definition add_int (s : Z) (r : t) : exec t := add_int64 s r.
(** [snprintf(buf, sizeof(buf), "%f", s)] with [char buf[30]]. *)
Definition add_double (s : double) (r : t) : t := push_back (snprintf 30 (print_fixed 6 s)) r.
Definition add (s : bytes) (r : t) : t := push_back s r.

Definition push_opt (e : option bytes) (r : t) : t :=
  match e with Some m => push_back m r | None => r end.

Definition reply_status (status : Z) (errmsg : option bytes) (r : t) : t :=
  if status =? -1 then push_opt errmsg (push_back (lit "error") r)
  else push_back (lit "ok") r.

Definition reply_bool (status : Z) (errmsg : option bytes) (r : t) : t :=
  if status =? -1 then push_opt errmsg (push_back (lit "error") r)
  else if status =? 0 then push_back (lit "0") (push_back (lit "ok") r)
  else push_back (lit "1") (push_back (lit "ok") r).

Definition reply_int (status val : Z) (r : t) : exec t :=
  if status =? -1 then Done (push_back (lit "error") r)
  else add_int64 val (push_back (lit "ok") r).

Definition reply_get (status : Z) (val errmsg : option bytes) (r : t) : t :=
  if status =? -1 then push_opt errmsg (push_back (lit "error") r)
  else if status =? 0 then push_opt errmsg (push_back (lit "not_found") r)
  else push_opt val (push_back (lit "ok") r).

Definition reply_list (status : Z) (list : list bytes) (r : t) : t :=
  if status =? -1 then push_back (lit "error") r
  else foldl (fun r s => push_back s r) (push_back (lit "ok") r) list.

Lemma zlen_print_int_iff k z : 2 <= k -> zlen (print_int z) <= k <-> - 10 ^ (k - 1) < z < 10 ^ k.
Proof.
  intros Hk. assert (0 < 10 ^ (k - 1)) by (apply Z.pow_pos_nonneg; lia).
  assert (0 < 10 ^ k) by (apply Z.pow_pos_nonneg; lia).
  unfold print_int. destruct (Z.ltb_spec z 0).
  - rewrite zlen_cons. pose proof (zlen_digits (- z) ltac:(lia) (k - 1) ltac:(lia)). lia.
  - pose proof (zlen_digits z ltac:(lia) k ltac:(lia)). lia.
Qed.

(** A [double] is cut to 29 characters where an integer would overrun its buffer. *)
Lemma add_double_cut v r : exists s, add_double v r = r ++ [s] /\ zlen s <= 29 /\
  (zlen (print_fixed 6 v) <= 29 -> s = print_fixed 6 v).
Proof.
  eexists. split; [done |]. unfold snprintf. change (30 - 1) with 29. split.
  - unfold zlen, ztake. rewrite length_take. lia.
  - intros Hz. by rewrite ztake_all.
Qed.

Lemma add_int64_ok v r : - 10 ^ 18 < v < 10 ^ 19 ->
  add_int64 v r = Done (r ++ [print_int v]).
Proof.
  intros Hv. unfold add_int64, sprintf.
  assert (zlen (print_int v) <= 19) by (by apply zlen_print_int_iff).
  by rewrite (proj2 (Z.leb_le _ _)) by lia.
Qed.

(** [add] of a signed or unsigned 64-bit integer overruns its 20-byte
    buffer exactly on the values of 20 characters: those at most [-10^18],
    respectively at least [10^19]; on all others the decimal string pushed reads
    back as the value. *)
Theorem add_int64_buffer r e v :
  (is_int64 v -> (add_int64 v r = UB <-> v <= - 10 ^ 18)) /\
  (is_uint64 v -> (add_uint64 v r = UB <-> 10 ^ 19 <= v)) /\
  (is_int64 v -> - 10 ^ 18 < v ->
    exists s, add_int64 v r = Done (r ++ [s]) /\ str_to_int64 e s = Done (v, 0)) /\
  (is_uint64 v -> v < 10 ^ 19 ->
    exists s, add_uint64 v r = Done (r ++ [s]) /\ str_to_uint64 e s = Done (v, 0)).
Proof.
  assert (Hiff : add_int64 v r = UB <-> ~ (- 10 ^ 18 < v < 10 ^ 19)).
  { unfold add_int64, sprintf.
    pose proof (zlen_print_int_iff 19 v ltac:(done)) as H.
    change (10 ^ (19 - 1)) with (10 ^ 18) in H. rewrite <- H.
    destruct (Z.leb_spec (zlen (print_int v) + 1) 20); cbn; (split; [done || lia | done || lia]). }
  split_and!.
  - intros Hv. rewrite Hiff. zlia.
  - intros Hv. change (add_uint64 v r) with (add_int64 v r). rewrite Hiff. zlia.
  - intros Hv Hl. exists (print_int v). split; [apply add_int64_ok; zlia |].
    rewrite <- str_int64_print by done. apply str_to_int64_roundtrip; done.
  - intros Hv Hl. exists (print_int v). split; [apply add_int64_ok; zlia |].
    by apply str_to_uint64_print.
Qed.
End Response.
