(* ===== verification/Proc.v ===== *)
(** The command table of [ssdb/src/net/proc.h] and [proc.cpp].  The map is keyed
    by the contents of [Bytes] ([BytesEqual] compares contents), and the type of
    handlers is a parameter: the table never calls them. *)
From S2P Require Import Prelude CLib Bytes.

Definition PROC_OK : Z := 0.
Definition PROC_ERROR : Z := -1.
Definition PROC_THREAD : Z := 1.
Definition PROC_BACKEND : Z := 100.

Definition FLAG_READ : Z := Z.shiftl 1 0.
Definition FLAG_WRITE : Z := Z.shiftl 1 1.
Definition FLAG_BACKEND : Z := Z.shiftl 1 2.
Definition FLAG_THREAD : Z := Z.shiftl 1 3.

Definition BytesEqual (s1 s2 : bytes) : bool := Bytes.compare s1 s2 =? 0.
Definition BytesHash (s : bytes) : Z :=
  foldl (fun h c => to_uint64 (5 * h + schar c)) 0 s.

Section ProcMap.
Context {proc_t : Type}.

Record Command := mkCommand { name : bytes; flags : Z; proc : proc_t; calls : Z }.

Definition flag_of (c : char) : Z :=
  if decide (c = chr 114) then FLAG_READ
  else if decide (c = chr 119) then Z.lor FLAG_WRITE FLAG_THREAD
  else if decide (c = chr 98) then FLAG_BACKEND
  else if decide (c = chr 116) then FLAG_THREAD
  else 0.
Definition parse_flags (sflags : bytes) : Z :=
  foldl (fun f c => Z.lor f (flag_of c)) 0 sflags.

Abbreviation proc_map_t := (gmap bytes Command).

Definition get_proc (str : bytes) (m : proc_map_t) : option Command := m !! str.

(** The existing command is updated in place, a new one is inserted. *)
Definition set_proc (c sflags : bytes) (p : proc_t) (m : proc_map_t) : proc_map_t :=
  match get_proc c m with
  | Some cmd => <[c := mkCommand (name cmd) (parse_flags sflags) p (calls cmd)]> m
  | None => <[c := mkCommand c (parse_flags sflags) p 0]> m
  end.
Definition set_proc_default (c : bytes) (p : proc_t) (m : proc_map_t) : proc_map_t :=
  set_proc c (lit "t") p m.

Definition has (f mask : Z) : bool := negb (Z.land f mask =? 0).

Lemma has_lor f g k : 0 <= k ->
  has (Z.lor f g) (Z.shiftl 1 k) = has f (Z.shiftl 1 k) || has g (Z.shiftl 1 k).
Proof.
  intros Hk. assert (forall x, has x (Z.shiftl 1 k) = Z.testbit x k) as E.
  { intros x. unfold has. rewrite Z.shiftl_1_l. destruct (Z.testbit x k) eqn:Hx.
    - apply negb_true_iff, Z.eqb_neq. intros H0.
      assert (Z.testbit (Z.land x (2 ^ k)) k = false) by (rewrite H0; apply Z.bits_0).
      rewrite Z.land_spec, Hx, Z.pow2_bits_true in H by done. done.
    - apply negb_false_iff, Z.eqb_eq, Z.bits_inj'. intros i Hi.
      rewrite Z.land_spec, Z.bits_0. destruct (decide (i = k)) as [-> |].
      + by rewrite Hx.
      + rewrite Z.pow2_bits_false by done. apply andb_false_r. }
  rewrite !E. apply Z.lor_spec.
Qed.

Lemma has_fold k sflags acc : 0 <= k ->
  has (foldl (fun f c => Z.lor f (flag_of c)) acc sflags) (Z.shiftl 1 k) =
  has acc (Z.shiftl 1 k) || existsb (fun c => has (flag_of c) (Z.shiftl 1 k)) sflags.
Proof.
  intros Hk. revert acc. induction sflags as [| c s IH]; intros acc; cbn.
  - by rewrite orb_false_r.
  - rewrite IH, has_lor by done. by rewrite orb_assoc.
Qed.

Lemma has_parse_flags k (P : char -> Prop) sflags : 0 <= k ->
  (forall c, has (flag_of c) (Z.shiftl 1 k) = true <-> P c) ->
  has (parse_flags sflags) (Z.shiftl 1 k) = true <-> exists c, c ∈ sflags /\ P c.
Proof.
  intros Hk HP. unfold parse_flags. rewrite has_fold by done.
  change (has 0 (Z.shiftl 1 k)) with false. cbn [orb]. rewrite existsb_exists. setoid_rewrite HP.
  by setoid_rewrite list_elem_of_In.
Qed.

Local Ltac flag_cases := let x := fresh in intros x; unfold flag_of; repeat case_decide; subst; vm_compute; naive_solver.

(** After [set_proc] the command is found with the new handler and the flags
    its letters name, other commands are untouched, and a command that writes
    always carries the thread flag, as writes rely on a single writer. *)
Theorem set_proc_correct c sflags p m :
  (exists cmd, get_proc c (set_proc c sflags p m) = Some cmd /\ proc cmd = p /\
    (has (flags cmd) FLAG_READ = true <-> chr 114 ∈ sflags) /\
    (has (flags cmd) FLAG_WRITE = true <-> chr 119 ∈ sflags) /\
    (has (flags cmd) FLAG_BACKEND = true <-> chr 98 ∈ sflags) /\
    (has (flags cmd) FLAG_THREAD = true <-> chr 116 ∈ sflags \/ chr 119 ∈ sflags) /\
    (has (flags cmd) FLAG_WRITE = true -> has (flags cmd) FLAG_THREAD = true)) /\
  (forall c', c' <> c -> get_proc c' (set_proc c sflags p m) = get_proc c' m).
Proof.
  assert (exists cmd, set_proc c sflags p m = <[c := cmd]> m /\ proc cmd = p /\
                      flags cmd = parse_flags sflags) as (cmd & -> & Hp & Hf).
  { unfold set_proc. destruct (get_proc c m); eauto. }
  unfold get_proc. split.
  - exists cmd. rewrite lookup_insert_eq, Hf.
    assert (Hr : has (parse_flags sflags) FLAG_READ = true <-> _)
      by (apply (has_parse_flags 0 (fun x => x = chr 114)); [done | flag_cases]).
    assert (Hw : has (parse_flags sflags) FLAG_WRITE = true <-> _)
      by (apply (has_parse_flags 1 (fun x => x = chr 119)); [done | flag_cases]).
    assert (Hb : has (parse_flags sflags) FLAG_BACKEND = true <-> _)
      by (apply (has_parse_flags 2 (fun x => x = chr 98)); [done | flag_cases]).
    assert (Ht : has (parse_flags sflags) FLAG_THREAD = true <-> _)
      by (apply (has_parse_flags 3 (fun x => x = chr 116 \/ x = chr 119)); [done | flag_cases]).
    rewrite Hr, Hw, Hb, Ht. clear Hr Hw Hb Ht. split_and!; naive_solver.
  - intros c' Hne. by rewrite lookup_insert_ne.
Qed.
End ProcMap.
Arguments Command : clear implicits.
