(* ===== verification/Redis.v ===== *)
(** [RedisLink] of [ssdb/src/net/link_redis.h] and [link_redis.cpp]: parsing of
    Redis requests from the input buffer, their translation to SSDB commands, and
    the encoding of responses. *)
From S2P Require Import Prelude CLib CFloat Strings Bytes.

(** * The command table *)

Inductive REPLY := REPLY_BULK | REPLY_MULTI_BULK | REPLY_INT | REPLY_STATUS.
Inductive STRATEGY :=
  | STRATEGY_AUTO | STRATEGY_PING | STRATEGY_MGET | STRATEGY_HMGET | STRATEGY_HGETALL
  | STRATEGY_HKEYS | STRATEGY_HVALS | STRATEGY_SETEX | STRATEGY_ZRANGE | STRATEGY_ZREVRANGE
  | STRATEGY_ZRANGEBYSCORE | STRATEGY_ZREVRANGEBYSCORE | STRATEGY_ZADD | STRATEGY_ZINCRBY
  | STRATEGY_REMRANGEBYRANK | STRATEGY_REMRANGEBYSCORE | STRATEGY_NULL.

#[global] Instance REPLY_eq_dec : EqDecision REPLY.
Proof. solve_decision. Defined.
#[global] Instance STRATEGY_eq_dec : EqDecision STRATEGY.
Proof. solve_decision. Defined.

Record RedisRequestDesc := mkDesc {
  strategy : STRATEGY; redis_cmd : bytes; ssdb_cmd : bytes; reply_type : REPLY }.

Definition raw (s : STRATEGY) (r c : string) (t : REPLY) : RedisRequestDesc :=
  mkDesc s (lit r) (lit c) t.

(** The array [cmds_raw] up to its [NULL] entry. *)
Definition cmds_raw : list RedisRequestDesc := [
  raw STRATEGY_PING "ping" "ping" REPLY_STATUS;
  raw STRATEGY_AUTO "get" "get" REPLY_BULK;
  raw STRATEGY_AUTO "getset" "getset" REPLY_BULK;
  raw STRATEGY_AUTO "set" "set" REPLY_STATUS;
  raw STRATEGY_AUTO "setnx" "setnx" REPLY_INT;
  raw STRATEGY_AUTO "exists" "exists" REPLY_INT;
  raw STRATEGY_AUTO "incr" "incr" REPLY_INT;
  raw STRATEGY_AUTO "decr" "decr" REPLY_INT;
  raw STRATEGY_AUTO "ttl" "ttl" REPLY_INT;
  raw STRATEGY_AUTO "expire" "expire" REPLY_INT;
  raw STRATEGY_AUTO "getbit" "getbit" REPLY_INT;
  raw STRATEGY_AUTO "setbit" "setbit" REPLY_INT;
  raw STRATEGY_AUTO "strlen" "strlen" REPLY_INT;
  raw STRATEGY_AUTO "bitcount" "bitcount" REPLY_INT;
  raw STRATEGY_AUTO "substr" "getrange" REPLY_BULK;
  raw STRATEGY_AUTO "getrange" "getrange" REPLY_BULK;
  raw STRATEGY_AUTO "keys" "keys" REPLY_MULTI_BULK;
  raw STRATEGY_AUTO "hset" "hset" REPLY_INT;
  raw STRATEGY_AUTO "hget" "hget" REPLY_BULK;
  raw STRATEGY_AUTO "hexists" "hexists" REPLY_INT;
  raw STRATEGY_AUTO "del" "del" REPLY_INT;
  raw STRATEGY_AUTO "mset" "multi_set" REPLY_STATUS;
  raw STRATEGY_AUTO "incrby" "incr" REPLY_INT;
  raw STRATEGY_AUTO "decrby" "decr" REPLY_INT;
  raw STRATEGY_AUTO "hmset" "multi_hset" REPLY_STATUS;
  raw STRATEGY_AUTO "hdel" "multi_hdel" REPLY_INT;
  raw STRATEGY_AUTO "hmdel" "multi_hdel" REPLY_INT;
  raw STRATEGY_AUTO "hlen" "hsize" REPLY_INT;
  raw STRATEGY_AUTO "hincrby" "hincr" REPLY_INT;
  raw STRATEGY_AUTO "zcard" "zsize" REPLY_INT;
  raw STRATEGY_AUTO "zscore" "zget" REPLY_BULK;
  raw STRATEGY_AUTO "zrem" "multi_zdel" REPLY_INT;
  raw STRATEGY_AUTO "zrank" "zrank" REPLY_INT;
  raw STRATEGY_AUTO "zrevrank" "zrrank" REPLY_INT;
  raw STRATEGY_AUTO "zcount" "zcount" REPLY_INT;
  raw STRATEGY_REMRANGEBYRANK "zremrangebyrank" "zremrangebyrank" REPLY_INT;
  raw STRATEGY_REMRANGEBYSCORE "zremrangebyscore" "zremrangebyscore" REPLY_INT;
  raw STRATEGY_MGET "mget" "multi_get" REPLY_MULTI_BULK;
  raw STRATEGY_HMGET "hmget" "multi_hget" REPLY_MULTI_BULK;
  raw STRATEGY_HGETALL "hgetall" "hgetall" REPLY_MULTI_BULK;
  raw STRATEGY_HKEYS "hkeys" "hkeys" REPLY_MULTI_BULK;
  raw STRATEGY_HVALS "hvals" "hvals" REPLY_MULTI_BULK;
  raw STRATEGY_SETEX "setex" "setx" REPLY_STATUS;
  raw STRATEGY_ZRANGE "zrange" "zrange" REPLY_MULTI_BULK;
  raw STRATEGY_ZREVRANGE "zrevrange" "zrrange" REPLY_MULTI_BULK;
  raw STRATEGY_ZADD "zadd" "multi_zset" REPLY_INT;
  raw STRATEGY_ZINCRBY "zincrby" "zincr" REPLY_BULK;
  raw STRATEGY_ZRANGEBYSCORE "zrangebyscore" "zscan" REPLY_MULTI_BULK;
  raw STRATEGY_ZREVRANGEBYSCORE "zrevrangebyscore" "zrscan" REPLY_MULTI_BULK;
  raw STRATEGY_AUTO "lpush" "qpush_front" REPLY_INT;
  raw STRATEGY_AUTO "rpush" "qpush_back" REPLY_INT;
  raw STRATEGY_AUTO "lpop" "qpop_front" REPLY_BULK;
  raw STRATEGY_AUTO "rpop" "qpop_back" REPLY_BULK;
  raw STRATEGY_AUTO "llen" "qsize" REPLY_INT;
  raw STRATEGY_AUTO "lsize" "qsize" REPLY_INT;
  raw STRATEGY_AUTO "lindex" "qget" REPLY_BULK;
  raw STRATEGY_AUTO "lset" "qset" REPLY_STATUS;
  raw STRATEGY_AUTO "lrange" "qslice" REPLY_MULTI_BULK ].

(** The map filled on the first call. *)
Definition cmd_table : gmap bytes RedisRequestDesc :=
  foldl (fun m d => <[redis_cmd d := d]> m) ∅ cmds_raw.

(** * Parsing *)

(** The number of leading line ends of the data. *)
Fixpoint leading_newlines (s : bytes) : Z :=
  match s with
  | c :: s' => if decide (c = LF \/ c = CR) then 1 + leading_newlines s' else 0
  | [] => 0
  end.

Section Parse.
Context `{Heap}.

(** One round of the loop of [parse_req] reads a line and, except for the
    first one, the argument it announces. [m] is the memory from [ptr] on, of
    which [size] bytes are data; the result is the return value, [parsed] and
    [recv_bytes].  The number conversion may read past the data. *)
Fixpoint parse_loop (fuel : nat) (m : bytes) (size parsed num_args : Z) (recv_bytes : list bytes)
    : exec (Z * Z * list bytes) :=
  if size <=? 0 then Done (0, parsed, []) else
  match fuel with
  | O => NoFuel
  | S f =>
      match memchr (ztake size m) LF with
      | None => Done (0, parsed, [])
      | Some i =>
          let n := i + 1 in
          let size := size - n in
          let parsed := parsed + n in
          let* (v, _, _) := strtol (zdrop 1 m) in
          let len := to_int v in
          let m := zdrop n m in
          if len <? 0 then Done (-1, parsed, recv_bytes)
          else if num_args =? 0 then
            if len <=? 0 then Done (-1, parsed, recv_bytes)
            else parse_loop f m size parsed len recv_bytes
          else if size - 1 <? len then Done (0, parsed, [])
          else
            let recv_bytes := recv_bytes ++ [ztake len m] in
            let m := zdrop (len + 1) m in
            let size := size - (len + 1) in
            let parsed := parsed + (len + 1) in
            let nl := (0 <? size) && bool_decide (head m = Some LF) in
            let m := if nl then zdrop 1 m else m in
            let size := if nl then size - 1 else size in
            let parsed := if nl then parsed + 1 else parsed in
            if num_args - 1 =? 0 then Done (1, parsed, recv_bytes)
            else parse_loop f m size parsed (num_args - 1) recv_bytes
      end
  end.

(** Return value, input buffer and [recv_bytes]. *)
Definition parse_req (input : Buffer.t) : exec (Z * Buffer.t * list bytes) :=
  let* data := mread (Buffer.mem input) (Buffer.off input) (Buffer.size_ input) in
  let k := leading_newlines data in
  let ptr := Buffer.off input + k in
  let* c := mget (Buffer.mem input) ptr in
  if decide (c <> chr 42) then Done (-1, input, [])
  else
    let size := Buffer.size_ input - k in
    let* (r, parsed, args) :=
      parse_loop (S (Z.to_nat size)) (zdrop ptr (Buffer.mem input)) size k 0 [] in
    if r =? 1 then Done (1, Buffer.decr input parsed, args) else Done (r, input, args).
End Parse.

(** * Translation *)

(** The score pairs of ZADD: key first, score printed as an integer. *)
Fixpoint zadd_args (l : list bytes) : exec (list bytes) :=
  match l with
  | s :: k :: l' =>
      let* score := atof_int64 s in
      let* r := zadd_args l' in
      Done (k :: str_int64 score :: r)
  | _ => Done []
  end.

(** The options of ZRANGEBYSCORE: [withscores], [offset], [count]. *)
Fixpoint byscore_options (l : list bytes) (after_limit : bool) (withscores offset count : bytes)
    : bytes * bytes * bytes :=
  match l with
  | [] => (withscores, offset, count)
  | s :: l' =>
      let '(offset, count, after_limit) :=
        if after_limit then
          if decide (offset = []) then (s, count, true) else (offset, s, false)
        else (offset, count, after_limit) in
      let s := strtolower s in
      if decide (s = lit "withscores") then byscore_options l' after_limit s offset count
      else if decide (s = lit "limit") then byscore_options l' true withscores offset count
      else byscore_options l' after_limit withscores offset count
  end.

(** A score bound: unbounded, exclusive (shifted by [d]) or inclusive. *)
Definition byscore_bound (s : bytes) (d : Z) : exec bytes :=
  if decide (s = lit "-inf" \/ s = lit "+inf") then Done []
  else match s with
       | c :: tmp =>
           if decide (c = chr 40) then
             let* (v, _) := str_to_int 0 tmp in
             let* v := ck_int (v + d) in
             Done (snprintf 32 (print_int v))
           else Done s
       | [] => Done s
       end.

Definition convert_zrange (desc : RedisRequestDesc) (rb : list bytes) : exec (list bytes) :=
  let* body :=
    match rb with
    | _ :: name :: a2 :: a3 :: _ =>
        let* (start, _) := str_to_int64 0 a2 in
        let* (stop, _) := str_to_int64 0 a3 in
        if ((0 <=? start) && (0 <=? stop)) || (stop =? -1) then
          let* size := (if stop =? -1 then Done (-1)
                        else if decide (strategy desc = STRATEGY_REMRANGEBYSCORE) then Done stop
                        else let* d := ck_int64 (stop - start) in ck_int64 (d + 1)) in
          Done [name; a2; str_int64 size]
        else Done []
    | _ => Done []
    end in
  let tail := match rb with _ :: _ :: _ :: _ :: a4 :: _ => [strtolower a4] | _ => [] end in
  Done (ssdb_cmd desc :: body ++ tail).

Definition convert_byscore (desc : RedisRequestDesc) (rb : list bytes) : exec (list bytes) :=
  let '(name, smin, smax, (withscores, offset, count)) :=
    match rb with
    | _ :: name :: smin :: smax :: l => (name, smin, smax, byscore_options l false [] [] [])
    | _ => ([], [], [], ([], [], []))
    end in
  if decide (smin = [] \/ smax = []) then Done [ssdb_cmd desc]
  else
    let d := if decide (strategy desc = STRATEGY_ZRANGEBYSCORE) then 1 else -1 in
    let* bmin := byscore_bound smin d in
    let* bmax := byscore_bound smax (- d) in
    Done [ssdb_cmd desc; name; []; bmin; bmax;
          if decide (offset = []) then lit "0" else offset;
          if decide (count = []) then lit "2000000000" else count;
          withscores].

(** [convert_req] fills [recv_string] (empty on entry) from [cmd] and
    [recv_bytes]; the result also holds [req_desc]. *)
Definition convert_req (cmd : bytes) (rb : list bytes)
    : exec (option RedisRequestDesc * list bytes) :=
  match cmd_table !! cmd with
  | None => Done (None, cmd :: drop 1 rb)
  | Some desc =>
      let c := ssdb_cmd desc in
      let* rs :=
        match strategy desc with
        | STRATEGY_HKEYS | STRATEGY_HVALS =>
            Done (c :: match rb with [_; a1] => [a1; []; []; lit "2000000000"] | _ => [] end)
        | STRATEGY_SETEX | STRATEGY_ZINCRBY =>
            Done (c :: match rb with [_; a1; a2; a3] => [a1; a3; a2] | _ => [] end)
        | STRATEGY_ZADD =>
            match rb with
            | _ :: a1 :: l => let* r := zadd_args l in Done (c :: a1 :: r)
            | _ => Done [c]
            end
        | STRATEGY_REMRANGEBYRANK | STRATEGY_REMRANGEBYSCORE =>
            Done (c :: match rb with _ :: a1 :: a2 :: a3 :: _ => [a1; a2; a3] | _ => [] end)
        | STRATEGY_ZRANGE | STRATEGY_ZREVRANGE => convert_zrange desc rb
        | STRATEGY_ZRANGEBYSCORE | STRATEGY_ZREVRANGEBYSCORE => convert_byscore desc rb
        | _ => Done (c :: drop 1 rb)
        end in
      Done (Some desc, rs)
  end.

(** * RedisLink *)

Record RedisLink := mkRedis {
  cmd : bytes; req_desc : option RedisRequestDesc;
  recv_bytes : list bytes; recv_string : list bytes }.

Definition RedisLink_init : RedisLink := mkRedis [] None [] [].

Section Link.
Context `{Heap}.

(** When no request is complete and the buffer is full, make room: [None] is
    the failure of [grow]. *)
Definition make_room (input : Buffer.t) : exec (option Buffer.t) :=
  if Buffer.space input =? 0 then
    let* input := Buffer.nice input in
    if Buffer.space input =? 0 then
      let* (r, input) := Buffer.grow input in
      if r =? -1 then Done None else Done (Some input)
    else Done (Some input)
  else Done (Some input).

(** [None] is the [NULL] result: the request is malformed. *)
Definition recv_req (r : RedisLink) (input : Buffer.t)
    : exec (option (list bytes) * RedisLink * Buffer.t) :=
  let* (ret, input, rb) := parse_req input in
  if ret =? -1 then Done (None, mkRedis (cmd r) (req_desc r) rb (recv_string r), input)
  else match rb with
  | [] =>
      let* o := make_room input in
      let r := mkRedis (cmd r) (req_desc r) [] (recv_string r) in
      match o with
      | None => Done (None, r, input)
      | Some input => Done (Some [], r, input)
      end
  | a0 :: _ =>
      let c := strtolower a0 in
      let* (desc, rs) := convert_req c rb in
      Done (Some rs, mkRedis c desc rs rs, input)
  end.

(** * Responses *)

Definition CRLF : bytes := [CR; LF].

(** [snprintf(buf, 32, "$%d\r\n", (int)val.size())], the value, and CRLF. *)
Definition head_line (c : char) (n : Z) : bytes := snprintf 32 (c :: print_int n ++ CRLF).
Definition bulk (val : bytes) : list bytes :=
  [head_line (chr 36) (to_int (zlen val)); val; CRLF].
Definition array_line (n : Z) : bytes := head_line (chr 42) n.

(** The replies of MGET and HMGET: the requested keys are matched in order
    against the pairs of the response. *)
Fixpoint mget_reply (keys resp : list bytes) : exec (list bytes) :=
  match keys with
  | [] => Done []
  | k :: keys' =>
      match resp with
      | [] => let* r := mget_reply keys' [] in Done ((lit "$-1" ++ CRLF) :: r)
      | rk :: rest =>
          if decide (k <> rk) then
            let* r := mget_reply keys' resp in Done ((lit "$-1" ++ CRLF) :: r)
          else match rest with
               | val :: resp' => let* r := mget_reply keys' resp' in Done (bulk val ++ r)
               | [] => UB
               end
      end
  end.

(** The values of a list reply; every second one without the scores. *)
Fixpoint list_reply (withscores : bool) (l : list bytes) : list bytes :=
  match l with
  | [] => []
  | v :: l' => bulk v ++ (if withscores then list_reply withscores l'
                          else match l' with [] => [] | _ :: l'' => list_reply withscores l'' end)
  end.

(** Whether a list reply shows the scores (every second value). *)
Definition with_scores (r : RedisLink) (d : RedisRequestDesc) : exec bool :=
  if decide (strategy d = STRATEGY_ZRANGE \/ strategy d = STRATEGY_ZREVRANGE) then
    Done (bool_decide (recv_string r !! 4%nat = Some (lit "withscores")))
  else if decide (strategy d = STRATEGY_ZRANGEBYSCORE \/
                  strategy d = STRATEGY_ZREVRANGEBYSCORE) then
    match last (recv_string r) with
    | Some s => Done (bool_decide (s = lit "withscores"))
    | None => UB
    end
  else Done true.

(** The strings [send_resp] appends to the output, one per call of
    [Buffer::append], in order. *)
Definition resp_chunks (r : RedisLink) (resp : list bytes) : exec (list bytes) :=
  match resp with
  | [] => Done []
  | r0 :: args =>
      if decide (r0 <> lit "ok") then
        if decide (r0 = lit "error" \/ r0 = lit "fail" \/ r0 = lit "client_error") then
          Done (lit "-ERR " :: take 1 args ++ [CRLF])
        else if decide (r0 = lit "not_found") then Done [lit "$-1" ++ CRLF]
        else if decide (r0 = lit "noauth") then Done (lit "-NOAUTH " :: take 1 args ++ [CRLF])
        else Done [lit "-ERR server error" ++ CRLF]
      else match req_desc r with
      | None => Done (array_line (to_int (zlen resp) - 1) :: mjoin (bulk <$> args))
      | Some d =>
          if decide (strategy d = STRATEGY_PING) then Done [lit "+PONG" ++ CRLF]
          else match reply_type d with
          | REPLY_STATUS => Done [lit "+OK" ++ CRLF]
          | REPLY_BULK => Done match args with v :: _ => bulk v | [] => [lit "$0" ++ CRLF] end
          | REPLY_INT => Done match args with v :: _ => [lit ":"; v; CRLF] | [] => [lit "$0" ++ CRLF] end
          | REPLY_MULTI_BULK =>
              if decide (strategy d = STRATEGY_MGET \/ strategy d = STRATEGY_HMGET) then
                if negb (zlen resp mod 2 =? 1) then Done [lit "*0"]
                else
                  let skip := if decide (strategy d = STRATEGY_MGET) then 1 else 2 in
                  if zlen (recv_string r) <? skip then UB
                  else
                    let* l := mget_reply (zdrop skip (recv_string r)) args in
                    Done (array_line (to_int (zlen (recv_string r)) - skip) :: l)
              else
                let* withscores := with_scores r d in
                let n := to_int (zlen resp) - 1 in
                Done (array_line (if withscores : bool then n else Z.quot n 2)
                      :: list_reply withscores args)
          end
      end
  end.

(** The results of [append] are ignored. *)
Fixpoint append_all (chunks : list bytes) (output : Buffer.t) : exec Buffer.t :=
  match chunks with
  | [] => Done output
  | s :: l => let* (_, output) := Buffer.append s output in append_all l output
  end.

Definition send_resp (r : RedisLink) (output : Buffer.t) (resp : list bytes) : exec Buffer.t :=
  let* chunks := resp_chunks r resp in append_all chunks output.
End Link.

(** * Requests as clients write them *)

Definition enc_arg (a : bytes) : bytes :=
  chr 36 :: print_int (zlen a) ++ CRLF ++ a ++ CRLF.
Definition enc_args (args : list bytes) : bytes := mjoin (enc_arg <$> args).
Definition enc_req (args : list bytes) : bytes :=
  chr 42 :: print_int (zlen args) ++ CRLF ++ enc_args args.

(** The lengths of a request fit an [int]. *)
Definition req_fits (args : list bytes) : Prop :=
  zlen args <= int_max /\ Forall (fun a => zlen a <= int_max) args.

(** The line ends a client may send before a request. *)
Abbreviation newlines s := (Forall (fun c => c = LF \/ c = CR) s).

Module ParseSpec.
Section Lemmas.
Context `{Heap}.

(** The line "c<n>\r\n" at the front of the memory. *)
Definition line (c : char) (n : Z) : bytes := c :: print_int n ++ CRLF.

Lemma line_split c n : line c n = (c :: print_int n ++ [CR]) ++ [LF].
Proof. unfold line, CRLF. cbn. by rewrite <- app_assoc. Qed.

Lemma line_prefix_notin c n : c <> LF -> LF ∉ c :: print_int n ++ [CR].
Proof.
  intros Hc. rewrite not_elem_of_cons, not_elem_of_app, list_elem_of_singleton.
  split_and!; [done | by apply print_int_notin | done].
Qed.

Lemma zlen_line c n : zlen (line c n) = zlen (print_int n) + 3.
Proof. unfold line, CRLF. zl. Qed.

Lemma memchr_line c n q k : c <> LF -> zlen (line c n) <= k ->
  memchr (ztake k (line c n ++ q)) LF = Some (zlen (line c n) - 1).
Proof.
  intros Hc Hk. rewrite line_split in *. set (p := c :: print_int n ++ [CR]) in *.
  assert (LF ∉ p) by by apply line_prefix_notin.
  clearbody p. replace (ztake k ((p ++ [LF]) ++ q)) with (p ++ LF :: ztake (k - zlen p - 1) q).
  - rewrite memchr_app by done. f_equal. zl.
  - zl_simp. unfold ztake, zlen in *. rewrite firstn_app, length_app.
    rewrite (take_ge (p ++ [LF])) by (rewrite length_app; cbn [length] in *; lia).
    rewrite <- app_assoc. cbn [app length]. do 3 f_equal. lia.
Qed.

(** One round of the loop on such a line. *)
Lemma parse_loop_line f c n q size parsed num acc :
  c <> LF -> 0 <= n <= int_max -> zlen (line c n) <= size ->
  parse_loop (S f) (line c n ++ q) size parsed num acc =
    (let size := size - zlen (line c n) in
     let parsed := parsed + zlen (line c n) in
     if num =? 0 then
       if n <=? 0 then Done (-1, parsed, acc) else parse_loop f q size parsed n acc
     else if size - 1 <? n then Done (0, parsed, [])
     else
       let m := zdrop (n + 1) q in
       let nl := (0 <? size - (n + 1)) && bool_decide (head m = Some LF) in
       let m := if nl then zdrop 1 m else m in
       let size := if nl then size - (n + 1) - 1 else size - (n + 1) in
       let parsed := if nl then parsed + (n + 1) + 1 else parsed + (n + 1) in
       if num - 1 =? 0 then Done (1, parsed, acc ++ [ztake n q])
       else parse_loop f m size parsed (num - 1) (acc ++ [ztake n q])).
Proof.
  intros Hc Hn Hs. pose proof (zlen_line c n). cbn [parse_loop].
  rewrite (proj2 (Z.leb_gt size 0)) by zl. rewrite memchr_line by done.
  replace (zlen (line c n) - 1 + 1) with (zlen (line c n)) by lia.
  assert (strtol (zdrop 1 (line c n ++ q)) = Done (n, CR :: LF :: q, false)) as ->.
  { change (zdrop 1 (line c n ++ q)) with ((print_int n ++ CRLF) ++ q).
    rewrite <- app_assoc. cbn. by apply strtol_print_int; [zlia |]. }
  cbn [ebind]. rewrite to_int_id by zlia. rewrite zdrop_app.
  by rewrite (proj2 (Z.ltb_ge n 0)) by lia.
Qed.

Lemma enc_args_cons a args : enc_args (a :: args) = line (chr 36) (zlen a) ++ a ++ CRLF ++ enc_args args.
Proof. unfold enc_args, enc_arg, line, CRLF. cbn. rewrite <- !app_assoc. cbn. by rewrite <- !app_assoc. Qed.

Lemma enc_req_line args : enc_req args = line (chr 42) (zlen args) ++ enc_args args.
Proof. unfold enc_req, line, CRLF. cbn. by rewrite <- app_assoc. Qed.

(** All the arguments are read, whatever follows them in the memory. *)
Lemma parse_loop_args args : forall f rest size parsed acc,
  args <> [] -> Forall (fun a => zlen a <= int_max) args -> (length args <= f)%nat ->
  zlen (enc_args args) <= size ->
  parse_loop f (enc_args args ++ rest) size parsed (zlen args) acc =
    Done (1, parsed + zlen (enc_args args), acc ++ args).
Proof.
  induction args as [| a args IH]; intros f rest size parsed acc Hne Hfit Hf Hs; [done |].
  inversion Hfit as [| ? ? Ha Hfit']; subst.
  destruct f as [| f]; [cbn in Hf; lia |].
  rewrite enc_args_cons in *. set (l := line (chr 36) (zlen a)) in *.
  pose proof (zlen_line (chr 36) (zlen a)) as Hl. fold l in Hl.
  change CRLF with [CR; LF] in *.
  rewrite <- app_assoc. unfold l at 1.
  rewrite parse_loop_line; [| done | zl | fold l; zl].
  cbn zeta. fold l. rewrite <- !app_assoc. cbn [app] in *.
  assert (Hnum : (zlen (a :: args) =? 0) = false) by zl. rewrite Hnum.
  rewrite (proj2 (Z.ltb_ge _ _)) by zl.
  replace (zdrop (zlen a + 1) (a ++ CR :: LF :: enc_args args ++ rest))
    with (LF :: enc_args args ++ rest)
    by by rewrite zdrop_app_ge.
  rewrite ztake_app. rewrite (proj2 (Z.ltb_lt 0 _)) by zl. cbn [andb head].
  rewrite bool_decide_true by done.
  change (zdrop 1 (LF :: enc_args args ++ rest)) with (enc_args args ++ rest).
  destruct args as [| a' args'].
  - change (enc_args []) with (@nil char) in *.
    rewrite (proj2 (Z.eqb_eq _ _)) by zl. do 3 f_equal. zl.
  - rewrite (proj2 (Z.eqb_neq _ _)) by zl.
    replace (zlen (a :: a' :: args') - 1) with (zlen (a' :: args')) by zl.
    rewrite IH; [| done | done | cbn in *; lia | zl].
    rewrite <- app_assoc. do 3 f_equal. zl.
Qed.

(** The part of a stream that goes past an argument. *)
Lemma past_arg (a q missing rest : bytes) : q ++ missing = a ++ CR :: rest -> zlen a < zlen q ->
  exists q', q = a ++ CR :: q'.
Proof.
  intros Eq Hq. exists (zdrop (zlen a + 1) q).
  assert (ztake (zlen a + 1) q = a ++ [CR]) as Et.
  { rewrite <- (ztake_app_le _ q missing) by lia. rewrite Eq. change (CR :: rest) with ([CR] ++ rest).
    rewrite app_assoc. apply ztake_app'. zl. }
  rewrite <- (ztake_zdrop (zlen a + 1) q) at 1. rewrite Et, <- app_assoc. done.
Qed.

(** A proper prefix of the arguments is not ready, unless only the final line
    feed is missing. *)
Lemma parse_loop_prefix args : forall f w t missing parsed acc,
  args <> [] -> Forall (fun a => zlen a <= int_max) args -> (length w < f)%nat ->
  w ++ missing = enc_args args -> 2 <= zlen missing ->
  exists p, parse_loop f (w ++ t) (zlen w) parsed (zlen args) acc = Done (0, p, []).
Proof.
  induction args as [| a args IH]; intros f w t missing parsed acc Hne Hfit Hf Hw Hm; [done |].
  inversion Hfit as [| ? ? Ha Hfit']; subst. destruct f as [| f]; [lia |].
  destruct (decide (w = [])) as [-> | Hw0]; [by eexists |].
  assert (0 < zlen w) by (destruct w; [done | zl]).
  rewrite enc_args_cons in Hw. rewrite line_split in Hw.
  destruct (memchr w LF) as [i |] eqn:Ei; cycle 1.
  { cbn [parse_loop]. rewrite (proj2 (Z.leb_gt _ _)) by done.
    rewrite ztake_app, Ei. eauto. }
  apply memchr_Some in Ei as (p & q & -> & _ & Hp).
  rewrite <- !(app_assoc _ _ missing), <- (app_assoc _ [LF]) in Hw. cbn [app] in Hw.
  rewrite (app_comm_cons _ _ (chr 36)) in Hw.
  apply app_first_inj in Hw as [Ep Eq]; [| done | by apply (line_prefix_notin (chr 36))].
  replace ((p ++ LF :: q) ++ t) with (line (chr 36) (zlen a) ++ q ++ t)
    by (rewrite line_split; subst p; by rewrite <- !app_assoc).
  assert (Hlw : zlen (p ++ LF :: q) = zlen (line (chr 36) (zlen a)) + zlen q)
    by (rewrite line_split; subst p; zl).
  rewrite Hlw, parse_loop_line by (done || zl). cbn zeta.
  assert (Hnum : (zlen (a :: args) =? 0) = false) by zl. rewrite Hnum.
  replace (zlen (line (chr 36) (zlen a)) + zlen q - zlen (line (chr 36) (zlen a))) with (zlen q) by lia.
  destruct (Z.ltb_spec (zlen q - 1) (zlen a)) as [Hq | Hq]; [eauto |].
  destruct (past_arg a q missing (LF :: enc_args args)) as [q' ->]; [by rewrite Eq | lia |].
  rewrite <- app_assoc in Eq. apply app_inv_head in Eq. cbn in Eq. injection Eq as Eq.
  replace (zdrop (zlen a + 1) ((a ++ CR :: q') ++ t)) with (q' ++ t)
    by by rewrite <- app_assoc, zdrop_app_ge.
  destruct q' as [| c q']; cbn [app] in Eq.
  - assert (zlen args <> 0).
    { intros ->%zlen_0. change (enc_args []) with (@nil char) in Eq. rewrite Eq in Hm. zl. }
    rewrite (proj2 (Z.ltb_ge 0 _)) by zl. cbn [andb].
    rewrite (proj2 (Z.eqb_neq _ _)) by zl.
    replace (zlen (a ++ [CR]) - (zlen a + 1)) with 0 by zl.
    destruct f; [rewrite !length_app in Hf; cbn in Hf; lia |]. cbn. eauto.
  - injection Eq as -> Eq.
    destruct (decide (args = [])) as [-> | Hargs].
    { apply app_eq_nil in Eq as [_ ->]. zl. }
    rewrite (proj2 (Z.ltb_lt 0 _)) by zl. cbn [andb head app]. rewrite bool_decide_true by done.
    change (zdrop 1 (LF :: q' ++ t)) with (q' ++ t).
    assert (zlen args <> 0) by (by intros ?%zlen_0).
    rewrite (proj2 (Z.eqb_neq _ _)) by zl.
    replace (zlen (a :: args) - 1) with (zlen args) by zl.
    replace (zlen (a ++ CR :: LF :: q') - (zlen a + 1) - 1) with (zlen q') by zl.
    eapply IH; eauto. rewrite !length_app in Hf. cbn in Hf. rewrite length_app in Hf. cbn in Hf. lia.
Qed.

Lemma leading_newlines_app nl c r : newlines nl -> c <> LF -> c <> CR ->
  leading_newlines (nl ++ c :: r) = zlen nl.
Proof.
  intros Hnl H1 H2. induction Hnl as [| d nl Hd _ IH]; cbn.
  - rewrite decide_False; [done | naive_solver].
  - rewrite decide_True, IH by done. zl.
Qed.

Lemma leading_newlines_range s : 0 <= leading_newlines s <= zlen s.
Proof.
  induction s as [| c s IH]; cbn; [done |]. case_decide; zl.
Qed.

(** What [parse_req] sees of a buffer whose data starts with line ends and a
    star. *)
Lemma parse_req_star b nl w : BufferSpec.wf b -> newlines nl ->
  BufferSpec.contents b = nl ++ chr 42 :: w ->
  exists t, parse_req b =
    (let* (r, parsed, args) :=
       parse_loop (S (length (chr 42 :: w))) ((chr 42 :: w) ++ t) (zlen (chr 42 :: w))
                  (zlen nl) 0 [] in
     if r =? 1 then Done (1, Buffer.decr b parsed, args) else Done (r, b, args)).
Proof.
  intros Hwf Hnl E. unfold parse_req. rewrite BufferSpec.mread_contents by done.
  cbn [ebind]. rewrite E, leading_newlines_app by done.
  rewrite (BufferSpec.mget_contents b nl (chr 42) w) by done. cbn [ebind].
  rewrite decide_False by auto.
  pose proof (BufferSpec.zlen_contents b Hwf) as Hz. rewrite E in Hz.
  destruct (BufferSpec.wf_split b Hwf) as (p & q & Em & Hp & _). exists q.
  rewrite Em, E, <- Hp.
  replace (zdrop (zlen p + zlen nl) (p ++ (nl ++ chr 42 :: w) ++ q)) with ((chr 42 :: w) ++ q)
    by (rewrite <- app_assoc, (app_assoc p), zdrop_app' by zl; done).
  replace (Buffer.size_ b - zlen nl) with (zlen (chr 42 :: w)) by zl.
  unfold zlen at 1. by rewrite Nat2Z.id.
Qed.

(** A request as clients write it is parsed to exactly its arguments, whatever
    follows. *)
Lemma parse_req_complete b nl args rest : BufferSpec.wf b -> newlines nl ->
  args <> [] -> req_fits args ->
  BufferSpec.contents b = nl ++ enc_req args ++ rest ->
  exists b', parse_req b = Done (1, b', args) /\ BufferSpec.wf b' /\
             BufferSpec.contents b' = rest.
Proof.
  intros Hwf Hnl Hne Hfit E.
  destruct (parse_req_star b nl (print_int (zlen args) ++ CRLF ++ enc_args args ++ rest))
    as [t ->]; [done | done | |].
  { rewrite E. unfold enc_req. cbn. by rewrite <- !app_assoc. }
  replace (chr 42 :: print_int (zlen args) ++ CRLF ++ enc_args args ++ rest)
    with (enc_req args ++ rest) by (unfold enc_req; cbn; by rewrite <- !app_assoc).
  assert (Hlen : (length args < S (length (enc_req args ++ rest)))%nat).
  { rewrite enc_req_line, !length_app. enough (length args <= length (enc_args args))%nat by lia.
    clear. induction args as [| a args IH]; [done |].
    rewrite enc_args_cons, !length_app. cbn. lia. }
  set (f := S _) in *. clearbody f.
  destruct f as [| f]; [lia |]. rewrite enc_req_line, <- !app_assoc.
  destruct Hfit as [Hn Hf]. rewrite parse_loop_line by (done || zl). cbn zeta.
  assert (0 < zlen args) by (destruct args; [done | zl]).
  rewrite (proj2 (Z.leb_gt _ _)) by done. rewrite Z.eqb_refl.
  rewrite parse_loop_args by (done || lia || zl). cbn [ebind Z.eqb app].
  set (n := zlen nl + zlen (line (chr 42) (zlen args)) + zlen (enc_args args)).
  pose proof (BufferSpec.zlen_contents b Hwf) as Hz. rewrite E, enc_req_line in Hz.
  destruct (BufferSpec.decr_wf b n Hwf) as [Hw' Hc']; [subst n; zl |].
  eexists. split; [done |]. split; [done |]. rewrite Hc', E, enc_req_line.
  rewrite app_assoc. apply zdrop_app'. subst n. zl.
Qed.

(** A prefix of a request that misses more than the last line feed. *)
Lemma parse_req_prefix b args missing : BufferSpec.wf b -> req_fits args ->
  args <> [] -> BufferSpec.contents b <> [] ->
  BufferSpec.contents b ++ missing = enc_req args -> 2 <= zlen missing ->
  parse_req b = Done (0, b, []).
Proof.
  intros Hwf [Hn Hfit] Hne Hb E Hm.
  assert (0 < zlen args) by (destruct args; [done | zl]).
  destruct (BufferSpec.contents b) as [| c w] eqn:Ec; [done |].
  assert (c = chr 42) as -> by by injection E.
  destruct (parse_req_star b [] w) as [t ->]; [done | constructor | by rewrite Ec |].
  rewrite zlen_nil.
  set (f := S (length _)). assert (Hf : (length (chr 42 :: w) < f)%nat) by (subst f; lia).
  clearbody f. destruct f as [| f]; [lia |].
  destruct (memchr (chr 42 :: w) LF) as [i |] eqn:Ei; cycle 1.
  { cbn [parse_loop]. rewrite (proj2 (Z.leb_gt _ _)) by zl.
    rewrite ztake_app, Ei. done. }
  apply memchr_Some in Ei as (p & q & Ep & _ & Hp).
  rewrite Ep in *. rewrite enc_req_line, line_split in E.
  rewrite <- (app_assoc p), <- (app_assoc _ [LF]) in E. cbn [app] in E.
  rewrite (app_comm_cons _ _ (chr 42)) in E.
  apply app_first_inj in E as [-> Eq]; [| done | by apply line_prefix_notin].
  replace (((chr 42 :: print_int (zlen args) ++ [CR]) ++ LF :: q) ++ t)
    with (line (chr 42) (zlen args) ++ q ++ t)
    by (rewrite line_split; by rewrite <- !app_assoc).
  replace ((chr 42 :: print_int (zlen args) ++ [CR]) ++ LF :: q)
    with (line (chr 42) (zlen args) ++ q) in *
    by (rewrite line_split; by rewrite <- !app_assoc).
  rewrite parse_loop_line by (done || zl). cbn zeta.
  rewrite (proj2 (Z.leb_gt _ _)) by done. rewrite Z.eqb_refl.
  replace (zlen (line (chr 42) (zlen args) ++ q) - zlen (line (chr 42) (zlen args)))
    with (zlen q) by zl.
  edestruct (parse_loop_prefix args f q t missing) as [p' ->]; eauto.
  rewrite length_app in Hf. cbn in Hf. lia.
Qed.

(** C33: a request as clients write it is parsed to exactly its arguments, and
    exactly its bytes (with the line ends before it) are consumed, whatever
    follows: pipelined requests are taken one at a time. *)
Theorem parse_req_roundtrip b nl args rest : BufferSpec.wf b -> newlines nl ->
  args <> [] -> req_fits args ->
  BufferSpec.contents b = nl ++ enc_req args ++ rest ->
  exists b', parse_req b = Done (1, b', args) /\ BufferSpec.wf b' /\
             BufferSpec.contents b' = rest.
Proof. apply parse_req_complete. Qed.

(** While a request is incomplete [parse_req] answers 0 and leaves the
    buffer alone; only the very last line feed may be missing, in which case the
    request is accepted at once. *)
Theorem parse_req_incomplete b args missing : BufferSpec.wf b -> req_fits args ->
  args <> [] -> BufferSpec.contents b <> [] ->
  BufferSpec.contents b ++ missing = enc_req args -> 2 <= zlen missing ->
  parse_req b = Done (0, b, []).
Proof. apply parse_req_prefix. Qed.

(** Any run of the loop: it ends within its fuel, and what it reports parsed
    lies within the data. *)
Lemma parse_loop_bounds f : forall m size parsed num acc,
  size < Z.of_nat f -> 0 <= num ->
  parse_loop f m size parsed num acc = UB \/
  exists r p args, parse_loop f m size parsed num acc = Done (r, p, args) /\
    ((r = 0 /\ args = []) \/ r = -1 \/ (r = 1 /\ parsed < p <= parsed + size /\ args <> [])).
Proof.
  induction f as [| f IH]; intros m size parsed num acc Hf Hnum; cbn [parse_loop].
  - rewrite (proj2 (Z.leb_le _ _)) by lia. right. eauto 7.
  - destruct (Z.leb_spec size 0); [right; eauto 7 |].
    destruct (memchr (ztake size m) LF) as [i |] eqn:Ei; [| right; eauto 7].
    assert (0 <= i < size) as Hi.
    { apply memchr_Some in Ei as (p & q & Ep & <- & _).
      assert (zlen (ztake size m) <= size) by (unfold zlen, ztake; rewrite length_take; lia).
      rewrite Ep in *. zl. }
    destruct (strtol _) as [[[v r] rng] | |] eqn:Ev; [| by left |].
    + cbn [ebind]. set (len := to_int v). clearbody len.
      assert (Hweak : forall m size' parsed' num' acc', size' <= size - (i + 1) -> 0 <= num' ->
                parsed < parsed' -> parsed' + size' <= parsed + size ->
        parse_loop f m size' parsed' num' acc' = UB \/
        exists r p args, parse_loop f m size' parsed' num' acc' = Done (r, p, args) /\
        ((r = 0 /\ args = []) \/ r = -1 \/ (r = 1 /\ parsed < p <= parsed + size /\ args <> []))).
      { intros m1 s1 p1 n1 a1 ? ? ? ?.
        destruct (IH m1 s1 p1 n1 a1) as [| (r' & p' & a' & E & Hr)]; [lia | done | by left |].
        right. exists r', p', a'. split; [done |]. intuition lia. }
      case_match; [right; eauto 7 |]. case_match.
      { case_match; [right; eauto 7 |]. apply Hweak; lia. }
      case_match; [right; eauto 7 |].
      match goal with |- context [if ?nl then zdrop 1 _ else _] => destruct nl eqn:Hnl end;
        (case_match; [right; eexists _, _, _; split; [done |]; right; right;
           split; [done |]; split; [lia |]; by intros [_ ?]%app_eq_nil | apply Hweak; lia]).
    + exfalso. unfold strtol in Ev. unfold scan_int in Ev.
      destruct (read_sign _) as [? ?]. by destruct (span_digits _) as [? []]; cbn in Ev.
Qed.

(** Every outcome of [parse_req]. *)
Lemma parse_req_cases b : BufferSpec.wf b ->
  parse_req b = UB \/
  (exists r args, ((r = 0 /\ args = []) \/ r = -1) /\ parse_req b = Done (r, b, args)) \/
  (exists n args, 0 < n <= Buffer.size_ b /\ args <> [] /\
     parse_req b = Done (1, Buffer.decr b n, args) /\ BufferSpec.wf (Buffer.decr b n)).
Proof.
  intros Hwf. unfold parse_req. rewrite BufferSpec.mread_contents by done. cbn [ebind].
  pose proof (leading_newlines_range (BufferSpec.contents b)) as Hk.
  rewrite BufferSpec.zlen_contents in Hk by done.
  set (k := leading_newlines _) in *.
  unfold mget. case_match; [| by left]. case_match; [by left |]. cbn [ebind].
  case_decide; [right; left; exists (-1), []; split; [by right | done] |].
  match goal with |- context [parse_loop ?f ?m ?s ?p ?n ?a] =>
    destruct (parse_loop_bounds f m s p n a)
      as [-> | (r & p' & args & -> & Hr)]; [lia | lia | by left |] end.
  cbn [ebind]. destruct Hr as [[-> ->] | [-> | (-> & Hp & Ha)]].
  - right; left. exists 0, []. split; [by left | done].
  - right; left. exists (-1), args. split; [by right | done].
  - right; right. exists p', args. split; [lia |]. split; [done |]. split; [done |].
    apply BufferSpec.decr_wf; [done | lia].
Qed.

End Lemmas.
End ParseSpec.

(** * Reads past the data *)

Module Overread.
Section Lemmas.
Context `{Heap}.
Import ParseSpec.

(** A byte at which every number conversion stops. *)
Definition stops (c : char) : Prop :=
  isspace c = false /\ isdigit c = false /\ c <> chr 45 /\ c <> chr 43.

Lemma strtol_stop m c t : stops c -> exists v r g, strtol (m ++ c :: t) = Done (v, r, g).
Proof.
  intros (H1 & H2 & H3 & H4). unfold strtol.
  destruct (scan_int_stop m c t H1 H2 H3 H4) as [[[? ?] ?] ->]. cbn. eauto.
Qed.

Lemma parse_loop_defined c t1 t2 f : stops c -> forall w parsed num acc,
  (length w < f)%nat ->
  exists r, parse_loop f (w ++ t1 ++ c :: t2) (zlen w) parsed num acc = Done r.
Proof.
  intros Hc. induction f as [| f IH]; intros w parsed num acc Hf; [lia |].
  destruct w as [| c0 w]; [by eexists |]. cbn [parse_loop].
  rewrite (proj2 (Z.leb_gt _ _)) by zl. rewrite ztake_app.
  destruct (memchr (c0 :: w) LF) as [i |] eqn:Ei; [| by eexists].
  apply memchr_Some in Ei as (p & q & Ep & Hi & _).
  change (zdrop 1 ((c0 :: w) ++ t1 ++ c :: t2)) with (w ++ t1 ++ c :: t2).
  destruct (strtol_stop (w ++ t1) c t2 Hc) as (v & r & g & Ev).
  rewrite <- app_assoc in Ev. rewrite Ev. cbn [ebind].
  set (len := to_int v). clearbody len. rewrite Ep in *.
  replace (zdrop (i + 1) ((p ++ LF :: q) ++ t1 ++ c :: t2)) with (q ++ t1 ++ c :: t2).
  2: { rewrite <- app_assoc. rewrite <- Hi, zdrop_app_ge by done. done. }
  replace (zlen (p ++ LF :: q) - (i + 1)) with (zlen q) by zl.
  assert (Hq : (length q < f)%nat) by (rewrite length_app in Hf; cbn in Hf; lia).
  case_match; [by eexists |]. case_match.
  { case_match; [by eexists | by apply IH]. }
  destruct (Z.ltb_spec (zlen q - 1) len); [by eexists |].
  rewrite zdrop_app_le by lia.
  replace (zlen q - (len + 1)) with (zlen (zdrop (len + 1) q)) by (rewrite zlen_zdrop; lia).
  assert (Hd : (length (zdrop (len + 1) q) < f)%nat).
  { unfold zdrop. rewrite length_drop. lia. }
  set (q2 := zdrop (len + 1) q) in *. clearbody q2.
  destruct ((0 <? zlen q2) && _) eqn:Hnl.
  - case_match; [by eexists |]. destruct q2 as [| c2 q2]; [done |].
    change (zdrop 1 ((c2 :: q2) ++ t1 ++ c :: t2)) with (q2 ++ t1 ++ c :: t2).
    replace (zlen (c2 :: q2) - 1) with (zlen q2) by zl. apply IH. cbn in Hd. lia.
  - case_match; [by eexists | by apply IH].
Qed.

(** [parse_req] is defined on every buffer whose block holds, after the
    data, at least one byte at which a number conversion stops (a [NUL], say). *)
Theorem parse_req_defined b p t1 c t2 : BufferSpec.wf b ->
  Buffer.mem b = p ++ BufferSpec.contents b ++ t1 ++ c :: t2 -> zlen p = Buffer.off b ->
  stops c -> exists r b' args, parse_req b = Done (r, b', args).
Proof.
  intros Hwf Em Hp Hc. unfold parse_req. rewrite BufferSpec.mread_contents by done.
  cbn [ebind]. pose proof (leading_newlines_range (BufferSpec.contents b)) as Hk.
  pose proof (BufferSpec.zlen_contents b Hwf) as Hz.
  set (d := BufferSpec.contents b) in *. set (k := leading_newlines d) in *. clearbody k d.
  assert (zdrop (Buffer.off b + k) (Buffer.mem b) = zdrop k d ++ t1 ++ c :: t2) as E.
  { rewrite Em, <- Hp, zdrop_app_ge, zdrop_app_le by lia. done. }
  unfold mget. rewrite E. case_match eqn:Hoff; [| destruct Hwf; lia].
  assert (exists c0 l, zdrop k d ++ t1 ++ c :: t2 = c0 :: l) as (c0 & l & El).
  { destruct (zdrop k d); [destruct t1 |]; cbn; eauto. }
  assert (match zdrop k d ++ t1 ++ c :: t2 with [] => UB | c1 :: _ => Done c1 end = Done c0)
    as -> by by rewrite El.
  cbn [ebind]. case_decide; [by eexists _, _, _ |].
  replace (Buffer.size_ b - k) with (zlen (zdrop k d)) by (rewrite zlen_zdrop; lia).
  destruct (parse_loop_defined c t1 t2 (S (Z.to_nat (zlen (zdrop k d)))) Hc (zdrop k d) k 0 [])
    as [[[r p'] args] ->]; [unfold zlen; lia |].
  cbn [ebind]. case_match; by eexists _, _, _.
Qed.

#[export] Instance stops_dec c : Decision (stops c).
Proof. unfold stops. apply _. Defined.


(** When the data ends with a blank length line at the very end of the
    block, the number conversion runs past the block: the request parser reads
    out of bounds. *)
Theorem parse_req_overread b sp : BufferSpec.wf b ->
  BufferSpec.contents b = line (chr 42) 1 ++ chr 36 :: sp ++ [LF] ->
  spaces sp -> LF ∉ sp -> Buffer.slot b = Buffer.total_ b -> parse_req b = UB.
Proof.
  intros Hwf E Hsp Hn Hs.
  destruct (BufferSpec.wf_split b Hwf) as (p & q & Em & Hp & Hq).
  unfold Buffer.slot in Hs. assert (q = []) as -> by (apply zlen_0; lia).
  unfold parse_req. rewrite BufferSpec.mread_contents by done. cbn [ebind].
  pose proof (BufferSpec.zlen_contents b Hwf) as Hz. rewrite E in *.
  rewrite Em, app_nil_r, <- Hp.
  change (leading_newlines _) with 0. rewrite Z.add_0_r.
  assert (forall s, mget (p ++ line (chr 42) 1 ++ s) (zlen p) = Done (chr 42)) as ->
    by (intros; apply mget_app). cbn [ebind]. rewrite decide_False by auto.
  rewrite zdrop_app. rewrite Z.sub_0_r, <- Hz.
  set (f := Z.to_nat _). assert (3 < f)%nat by (subst f; rewrite zlen_app, zlen_line; zl).
  clearbody f. destruct f as [| f]; [lia |].
  rewrite parse_loop_line by (done || (rewrite zlen_app; zl)). cbn zeta.
  cbn [Z.eqb Z.leb Z.compare]. destruct f as [| f]; [lia |]. cbn [parse_loop].
  replace (zlen (line (chr 42) 1 ++ chr 36 :: sp ++ [LF]) - zlen (line (chr 42) 1))
    with (zlen (chr 36 :: sp ++ [LF])) by (rewrite zlen_app; lia).
  rewrite (proj2 (Z.leb_gt _ _)) by zl. rewrite ztake_all by done.
  rewrite (app_comm_cons sp [LF] (chr 36)).
  rewrite memchr_app by (rewrite not_elem_of_cons; auto).
  change (zdrop 1 ((chr 36 :: sp) ++ [LF])) with (sp ++ [LF]).
  assert (skip_spaces (sp ++ [LF]) = []) as Hss.
  { clear - Hsp. induction Hsp as [| c sp Hc _ IH]; [done |]. cbn. by rewrite Hc. }
  unfold strtol, scan_int. by rewrite Hss.
Qed.
End Lemmas.
End Overread.

(** * Termination of the translation *)

Section Ends.
Lemma ends_zadd_args l : ends (zadd_args l).
Proof.
  induction l as [l IH] using (induction_ltof1 _ length). unfold ltof in IH.
  destruct l as [| s [| k l]]; [done.. |]. cbn [zadd_args]. apply ends_bind; [auto with ends |].
  intros. apply ends_bind; [apply IH; cbn; lia | done].
Qed.
Lemma ends_byscore_bound s d : ends (byscore_bound s d).
Proof. unfold byscore_bound. ends_tac. Qed.
#[local] Hint Resolve ends_zadd_args ends_byscore_bound : ends.
Lemma ends_convert_zrange d l : ends (convert_zrange d l).
Proof. unfold convert_zrange. ends_tac. Qed.
Lemma ends_convert_byscore d l : ends (convert_byscore d l).
Proof. unfold convert_byscore. ends_tac. Qed.
#[local] Hint Resolve ends_convert_zrange ends_convert_byscore : ends.
Lemma ends_convert_req c l : ends (convert_req c l).
Proof. unfold convert_req. destruct (cmd_table !! c); [| done]. ends_tac. Qed.
End Ends.
#[export] Hint Resolve ends_convert_req : ends.

Section EndsSend.
Context `{Heap}.

Lemma ends_mget_reply keys : forall l, ends (mget_reply keys l).
Proof.
  induction keys as [| k keys IH]; intros l; cbn [mget_reply]; [done |].
  destruct l as [| rk [| v l]]; repeat case_decide; try done; (apply ends_bind; [apply IH | done]).
Qed.
Lemma ends_with_scores r d : ends (with_scores r d).
Proof. unfold with_scores. ends_tac. Qed.
#[local] Hint Resolve ends_mget_reply ends_with_scores : ends.
Lemma ends_resp_chunks r l : ends (resp_chunks r l).
Proof. unfold resp_chunks. ends_tac. Qed.

Lemma ends_append_all l : forall b, Buffer.total_ b <= int_max -> ends (append_all l b).
Proof.
  induction l as [| s l IH]; intros b Hb; cbn [append_all]; [done |].
  apply ends_bind; [by apply BufferSpec.ends_append |]. intros [r b'] E.
  apply IH. by apply (BufferSpec.append_total _ _ _ _ E).
Qed.

Lemma ends_send_resp r b l : Buffer.total_ b <= int_max -> ends (send_resp r b l).
Proof.
  intros Hb. unfold send_resp. apply ends_bind; [apply ends_resp_chunks |].
  intros. by apply ends_append_all.
Qed.
End EndsSend.

(** * Requests received *)

Module RecvSpec.
Section Lemmas.
Context `{Heap}.
Import ParseSpec.

Lemma make_room_spec b : BufferSpec.wf b -> Buffer.total_ b < 2 ^ 29 ->
  exists o, make_room b = Done o /\
    match o with
    | Some b' => BufferSpec.wf b' /\ BufferSpec.contents b' = BufferSpec.contents b /\
                 0 < Buffer.space b' /\ Buffer.total_ b <= Buffer.total_ b'
    | None => exists n, realloc_ok n = false
    end.
Proof.
  intros Hwf Ht. unfold make_room.
  assert (Hnn : forall b, BufferSpec.wf b -> 0 <= Buffer.space b).
  { intros x []. unfold Buffer.space. lia. }
  pose proof (Hnn b Hwf) as Hb.
  destruct (Z.eqb_spec (Buffer.space b) 0) as [H0 | H0]; cycle 1.
  { eexists. split; [done |]. split_and!; (done || lia). }
  destruct (BufferSpec.nice_spec b Hwf) as (b1 & -> & Hw1 & Hc1 & Ht1 & Ho1).
  cbn [ebind]. pose proof (Hnn b1 Hw1) as Hb1.
  destruct (Z.eqb_spec (Buffer.space b1) 0) as [H1 | H1]; cycle 1.
  { eexists. split; [done |]. split_and!; (done || lia). }
  destruct (BufferSpec.grow_spec b1 Hw1) as (r & b2 & -> & (Hw2 & Ho2 & Hs2 & Hc2) & Hr); [lia |].
  cbn [ebind]. destruct Hr as [[-> Hn] | (-> & H8 & H2)].
  - cbn. eexists. by split.
  - destruct (Z.eqb_spec (Buffer.total_ b2) (-1)); [lia |].
    eexists. split; [done |]. split_and!; [done | congruence | |];
      unfold Buffer.space in *; destruct (decide (8192 <= Buffer.total_ b1));
      destruct Hw1, Hw2; lia.
Qed.

(** Any run of [make_room]. *)
Lemma make_room_any b : BufferSpec.wf b ->
  make_room b = UB \/ make_room b = Done None \/
  exists b', make_room b = Done (Some b') /\ BufferSpec.wf b' /\
    BufferSpec.contents b' = BufferSpec.contents b.
Proof.
  intros Hwf. unfold make_room. case_match; [| eauto 6].
  destruct (BufferSpec.nice_spec b Hwf) as (b1 & -> & Hw1 & Hc1 & _). cbn [ebind].
  case_match; [| eauto 6]. destruct (Buffer.grow b1) as [[r b2] | |] eqn:Eg; [| by left |].
  - destruct (BufferSpec.grow_wf _ _ _ Hw1 Eg) as (Hw2 & _ & _ & Hc2). cbn [ebind].
    case_match; [by right; left |]. right; right. eexists. split; [done |].
    split; [done | congruence].
  - exfalso. revert Eg. change (ends (Buffer.grow b1)). unfold Buffer.grow. ends_tac.
Qed.

(** Where the data ends does not move up, and the block grows at most eightfold. *)
Lemma make_room_total b b' : BufferSpec.wf b -> make_room b = Done (Some b') ->
  Buffer.off b' <= Buffer.off b /\ Buffer.size_ b' = Buffer.size_ b /\
  Buffer.total_ b' <= Z.max (Z.max 8192 (Buffer.total_ b)) (8 * (Buffer.off b + Buffer.size_ b)).
Proof.
  intros Hwf. unfold make_room. case_match eqn:H0; [| intros [= <-]; lia].
  destruct (BufferSpec.nice_spec b Hwf) as (b1 & -> & Hw1 & Hc1 & Ht1 & Ho1). cbn [ebind].
  assert (Buffer.size_ b1 = Buffer.size_ b) as Hz1
    by by rewrite <- (BufferSpec.zlen_contents b1), Hc1, BufferSpec.zlen_contents.
  assert (Buffer.off b1 <= Buffer.off b).
  { destruct Ho1 as [-> | [-> _]]; [apply (BufferSpec.wf_off _ Hwf) | done]. }
  unfold Buffer.space in *. case_match eqn:H1'; [| intros [= <-]; lia].
  intros ([r b2] & Hg & E)%bind_Done.
  destruct (BufferSpec.grow_total b1 r b2 Hg) as (Ho & Hz & _ & Hm & _);
    [apply (BufferSpec.wf_total _ Hw1) |].
  case_match; simplify_eq/=. lia.
Qed.

(** Any run of [recv_req]: a request is returned only if input was consumed. *)
Lemma recv_req_any r b : BufferSpec.wf b ->
  recv_req r b = UB \/
  exists ret r' b', recv_req r b = Done (ret, r', b') /\ BufferSpec.wf b' /\
    Buffer.size_ b' <= Buffer.size_ b /\
    (forall v, ret = Some v -> v <> [] -> Buffer.size_ b' < Buffer.size_ b).
Proof.
  intros Hwf. unfold recv_req.
  destruct (parse_req_cases b Hwf)
    as [-> | [(ret & args & Hret & ->) | (n & args & Hn & Ha & -> & Hw')]]; [by left | | ]; cbn [ebind].
  - destruct Hret as [[-> ->] | ->]; cbn [Z.eqb].
    2: { right. eexists _, _, _. split; [done |]. split_and!; done || lia. }
    destruct (make_room_any b Hwf) as [-> | [-> | (b' & -> & Hw' & Hc)]]; cbn [ebind]; [by left | |].
    + right. eexists _, _, _. split; [done |]. split_and!; done || lia.
    + right. eexists _, _, _. split; [done |].
      rewrite <- (BufferSpec.zlen_contents b), <- Hc, (BufferSpec.zlen_contents b') by done.
      split_and!; try done. by intros v [= <-].
  - destruct args as [| a0 args]; [done |]. cbn [Z.eqb].
    pose proof (ends_convert_req (strtolower a0) (a0 :: args)) as He.
    destruct (convert_req _ _) as [[desc rs] | |]; [right | by left | by destruct He]. cbn [ebind].
    eexists _, _, _. split; [done |]. cbn. split_and!; [done | lia | lia].
Qed.

(** The commands translated name for name. *)
Definition by_name (c : bytes) : Prop :=
  match cmd_table !! c with
  | None => True
  | Some d => strategy d = STRATEGY_AUTO \/ strategy d = STRATEGY_PING
  end.
Definition translated (c : bytes) : bytes :=
  match cmd_table !! c with None => c | Some d => ssdb_cmd d end.

Lemma recv_req_whole r b nl a0 args rest : BufferSpec.wf b -> newlines nl ->
  req_fits (a0 :: args) -> BufferSpec.contents b = nl ++ enc_req (a0 :: args) ++ rest ->
  exists b', BufferSpec.wf b' /\ BufferSpec.contents b' = rest /\
    recv_req r b = let c := strtolower a0 in
      let* (desc, rs) := convert_req c (a0 :: args) in Done (Some rs, mkRedis c desc rs rs, b').
Proof.
  intros Hwf Hnl Hfit E.
  destruct (parse_req_complete b nl (a0 :: args) rest Hwf Hnl ltac:(discriminate) Hfit E)
    as (b' & Hp & Hw & Hc). exists b'. split; [exact Hw |]. split; [exact Hc |].
  unfold recv_req. rewrite Hp. reflexivity.
Qed.

Lemma convert_by_name c a0 args : by_name c ->
  convert_req c (a0 :: args) = Done (cmd_table !! c, translated c :: args).
Proof.
  unfold translated, by_name, convert_req. destruct (cmd_table !! c) as [d |]; [| reflexivity].
  intros [-> | ->]; reflexivity.
Qed.

Lemma recv_req_spec r b nl a0 args rest : BufferSpec.wf b -> newlines nl ->
  req_fits (a0 :: args) -> BufferSpec.contents b = nl ++ enc_req (a0 :: args) ++ rest ->
  let c := strtolower a0 in
  by_name c ->
  let rs := translated c :: args in
  exists b', recv_req r b = Done (Some rs, mkRedis c (cmd_table !! c) rs rs, b') /\
    BufferSpec.wf b' /\ BufferSpec.contents b' = rest.
Proof.
  intros Hwf Hnl Hfit E c Hs. cbn zeta.
  destruct (recv_req_whole r b nl a0 args rest Hwf Hnl Hfit E) as (b' & Hw & Hc & Er). exists b'.
  split; [| by split]. rewrite Er. cbn zeta. fold c. by rewrite convert_by_name.
Qed.

(** Taking a request moves the start of the data. *)
Lemma recv_req_take r b rs r' b' : BufferSpec.wf b -> recv_req r b = Done (Some rs, r', b') -> rs <> [] ->
  exists n, 0 < n <= Buffer.size_ b /\ b' = Buffer.decr b n.
Proof.
  intros Hwf E Hrs. unfold recv_req in E.
  destruct (parse_req_cases b Hwf) as [Ep | [(ret & args & Hret & Ep) | (n & args & Hn & Ha & Ep & _)]]; rewrite Ep in E; [done | |]; cbn [ebind] in E.
  - destruct Hret as [[-> ->] | ->]; cbn [Z.eqb] in E; [| done].
    apply bind_Done in E as ([b1 |] & _ & E); [| done]. by injection E as <- _ _.
  - destruct args as [| a0 args]; [done |]. cbn [Z.eqb] in E. apply bind_Done in E as ([desc rs'] & _ & E).
    exists n. split; [done |]. by injection E.
Qed.

(** C15: [recv_req] on a complete request, after any line ends and whatever comes
    after it: exactly the request is consumed, and the result is the translation of
    its strings by [convert_req] for the command in lower case (undefined only where
    that is, as for a score out of range).  A command the table translates name for
    name (AUTO and PING) keeps all its arguments under its new name, and a command
    the table does not know is passed on in lower case without a description.  The
    number of strings and their lengths must fit an [int]. *)
Theorem recv_req_complete r b nl a0 args rest : BufferSpec.wf b -> newlines nl ->
  req_fits (a0 :: args) -> BufferSpec.contents b = nl ++ enc_req (a0 :: args) ++ rest ->
  let c := strtolower a0 in
  exists b', BufferSpec.wf b' /\ BufferSpec.contents b' = rest /\
    recv_req r b = (let* (desc, rs) := convert_req c (a0 :: args) in
                    Done (Some rs, mkRedis c desc rs rs, b')) /\
    (forall d, cmd_table !! c = Some d -> strategy d = STRATEGY_AUTO \/ strategy d = STRATEGY_PING ->
       let rs := ssdb_cmd d :: args in recv_req r b = Done (Some rs, mkRedis c (Some d) rs rs, b')) /\
    (cmd_table !! c = None ->
       let rs := c :: args in recv_req r b = Done (Some rs, mkRedis c None rs rs, b')).
Proof.
  intros Hwf Hnl Hfit E c.
  destruct (recv_req_whole r b nl a0 args rest Hwf Hnl Hfit E) as (b' & Hw & Hc & Er). exists b'.
  cbn zeta in Er. fold c in Er. rewrite Er.
  pose proof (convert_by_name c a0 args) as Hn. unfold by_name, translated in Hn.
  split; [exact Hw |]. split; [exact Hc |]. split; [reflexivity |].
  split; [intros d Ed Hd | intros Ed]; rewrite Ed in Hn; by rewrite Hn.
Qed.

Lemma recv_req_part r b args missing : BufferSpec.wf b ->
  Buffer.total_ b < 2 ^ 29 -> req_fits args -> args <> [] -> BufferSpec.contents b <> [] ->
  BufferSpec.contents b ++ missing = enc_req args -> 2 <= zlen missing ->
  (exists r' b', recv_req r b = Done (Some [], r', b') /\ BufferSpec.wf b' /\
     BufferSpec.contents b' = BufferSpec.contents b /\ 0 < Buffer.space b' /\ make_room b = Done (Some b')) \/
  (exists n, realloc_ok n = false).
Proof.
  intros Hwf Ht Hfit Hne Hb E Hm. unfold recv_req.
  rewrite (parse_req_prefix b args missing) by done. cbn [ebind Z.eqb].
  destruct (make_room_spec b Hwf Ht) as ([b' |] & Er & Ho); rewrite Er; cbn [ebind]; [| by right].
  left. eexists _, _. split; [done |]. naive_solver.
Qed.

(** [recv_req] on an incomplete request answers the empty vector, keeps the
    data and leaves room for more input, so that reading can go on. *)
Theorem recv_req_incomplete r b args missing : BufferSpec.wf b ->
  Buffer.total_ b < 2 ^ 29 -> req_fits args -> args <> [] -> BufferSpec.contents b <> [] ->
  BufferSpec.contents b ++ missing = enc_req args -> 2 <= zlen missing ->
  (exists r' b', recv_req r b = Done (Some [], r', b') /\ BufferSpec.wf b' /\
     BufferSpec.contents b' = BufferSpec.contents b /\ 0 < Buffer.space b') \/
  (exists n, realloc_ok n = false).
Proof.
  intros Hwf Ht Hfit Hne Hb E Hm.
  destruct (recv_req_part r b args missing Hwf Ht Hfit Hne Hb E Hm) as [(r' & b' & H1 & H2 & H3 & H4 & _) | ?]; [left | by right].
  by exists r', b'.
Qed.
End Lemmas.
End RecvSpec.

(** * Responses *)

(** The replies of the Redis protocol and their encoding. *)
Inductive Reply :=
  | RStatus (s : bytes)
  | RError (s : bytes)
  | RInteger (s : bytes)
  | RBulk (v : option bytes)
  | RArray (l : list (option bytes)).

Definition enc_bulk (v : option bytes) : bytes :=
  match v with
  | Some s => chr 36 :: print_int (zlen s) ++ CRLF ++ s ++ CRLF
  | None => lit "$-1" ++ CRLF
  end.
Definition enc_reply (r : Reply) : bytes :=
  match r with
  | RStatus s => chr 43 :: s ++ CRLF
  | RError s => chr 45 :: s ++ CRLF
  | RInteger s => chr 58 :: s ++ CRLF
  | RBulk v => enc_bulk v
  | RArray l => chr 42 :: print_int (zlen l) ++ CRLF ++ mjoin (enc_bulk <$> l)
  end.

(** The values of MGET in the order of the requested keys. *)
Fixpoint mget_values (keys : list bytes) (pairs : list (bytes * bytes)) : list (option bytes) :=
  match keys with
  | [] => []
  | k :: keys' =>
      match pairs with
      | (k', v) :: pairs' => if decide (k = k') then Some v :: mget_values keys' pairs'
                             else None :: mget_values keys' pairs
      | [] => None :: mget_values keys' []
      end
  end.
Fixpoint pairs_of (l : list bytes) : option (list (bytes * bytes)) :=
  match l with
  | [] => Some []
  | [_] => None
  | k :: v :: l' => ps ← pairs_of l'; Some ((k, v) :: ps)
  end.
Fixpoint flatten_pairs (l : list (bytes * bytes)) : list bytes :=
  match l with [] => [] | (k, v) :: l' => k :: v :: flatten_pairs l' end.

Section Responses.
Context `{Heap}.

Lemma append_all_spec chunks : forall b, BufferSpec.wf b ->
  Buffer.off b + Buffer.size_ b + zlen (mjoin chunks) <= 2 ^ 29 ->
  (exists b', append_all chunks b = Done b' /\ BufferSpec.wf b' /\
     BufferSpec.contents b' = BufferSpec.contents b ++ mjoin chunks) \/
  (exists n, realloc_ok n = false).
Proof.
  induction chunks as [| s l IH]; intros b Hwf Hb; cbn [append_all].
  - left. exists b. change (mjoin []) with (@nil char). by rewrite app_nil_r.
  - change (mjoin (s :: l)) with (s ++ mjoin l) in *.
    destruct (BufferSpec.append_spec b s Hwf ltac:(zl)) as (r & b1 & -> & Hr).
    cbn [ebind]. destruct Hr as [(_ & _ & ?) | (_ & Hw & Hc & Ho)]; [by right |].
    destruct (IH b1 Hw) as [(b2 & -> & Hw2 & Hc2) | ?]; [| | by right].
    + rewrite Ho. rewrite <- (BufferSpec.zlen_contents b1), Hc by done.
      rewrite zlen_app, BufferSpec.zlen_contents by done. zl.
    + left. exists b2. split_and!; [done | done |]. by rewrite Hc2, Hc, <- app_assoc.
Qed.

Lemma head_line_id c n : is_int n -> head_line c n = c :: print_int n ++ CRLF.
Proof.
  intros Hn. apply snprintf_id.
  assert (zlen (print_int n) <= 19) by (apply zlen_print_int; zlia).
  change CRLF with [CR; LF]. zl.
Qed.

Lemma bulk_enc v : zlen v <= int_max -> mjoin (bulk v) = enc_bulk (Some v).
Proof.
  intros Hv. unfold bulk. rewrite to_int_id, head_line_id by zl. cbn.
  by rewrite <- !app_assoc.
Qed.

Lemma bulks_enc l : Forall (fun v => zlen v <= int_max) l ->
  mjoin (mjoin (bulk <$> l)) = mjoin (enc_bulk <$> (Some <$> l)).
Proof.
  induction 1 as [| v l Hv _ IH]; [done |].
  change (mjoin (mjoin (bulk <$> v :: l))) with (mjoin (bulk v ++ mjoin (bulk <$> l))).
  rewrite join_app, bulk_enc, IH by done. done.
Qed.

Lemma join_miss l v : mjoin l = mjoin (enc_bulk <$> v) ->
  mjoin ((lit "$-1" ++ CRLF) :: l) = mjoin (enc_bulk <$> None :: v).
Proof.
  intros E. change (mjoin (enc_bulk <$> None :: v))
    with (enc_bulk None ++ mjoin (enc_bulk <$> v)). by rewrite <- E.
Qed.

Lemma join_hit x l v : zlen x <= int_max -> mjoin l = mjoin (enc_bulk <$> v) ->
  mjoin (bulk x ++ l) = mjoin (enc_bulk <$> Some x :: v).
Proof. intros Hx E. by rewrite join_app, bulk_enc, E. Qed.

Lemma mget_reply_spec keys : forall pairs,
  Forall (fun p => zlen p.2 <= int_max) pairs ->
  exists l, mget_reply keys (flatten_pairs pairs) = Done l /\
    mjoin l = mjoin (enc_bulk <$> mget_values keys pairs).
Proof.
  induction keys as [| k keys IH]; intros pairs Hp; [by eexists |].
  destruct pairs as [| [k' v] pairs]; cbn [mget_reply flatten_pairs mget_values].
  - destruct (IH [] Hp) as (l & E & El). cbn [flatten_pairs] in E. rewrite E. cbn [ebind].
    eexists. split; [done | by apply join_miss].
  - destruct (decide (k = k')) as [-> | Hne].
    + rewrite decide_False by auto. inversion Hp; subst.
      destruct (IH pairs) as (l & -> & El); [done |]. cbn [ebind].
      eexists. split; [done | by apply join_hit].
    + rewrite decide_True by done. destruct (IH ((k', v) :: pairs) Hp) as (l & E & El).
      cbn [flatten_pairs] in E. rewrite E. cbn [ebind].
      eexists. split; [done | by apply join_miss].
Qed.

Lemma length_mget_values keys : forall pairs, length (mget_values keys pairs) = length keys.
Proof.
  induction keys as [| k keys IH]; intros [| [k' v] pairs]; cbn; [done.. | by rewrite IH |].
  case_decide; cbn; by rewrite IH.
Qed.

Lemma flatten_pairs_of l : forall ps, pairs_of l = Some ps -> l = flatten_pairs ps.
Proof.
  induction l as [l IH] using (induction_ltof1 _ length). unfold ltof in IH.
  destruct l as [| k [| v l]]; intros ps Hp; cbn in Hp; simplify_eq; [done |].
  destruct (pairs_of l) as [ps' |] eqn:E; simplify_eq/=.
  rewrite (IH l) with (ps := ps') by (done || cbn; lia). done.
Qed.

Lemma list_reply_all l : list_reply true l = mjoin (bulk <$> l).
Proof. induction l as [| v l IH]; [done |]. cbn [list_reply]. by rewrite IH. Qed.

Lemma list_reply_half ps : list_reply false (flatten_pairs ps) = mjoin (bulk <$> ps.*1).
Proof. induction ps as [| [k v] ps IH]; [done |]. cbn [list_reply flatten_pairs]. by rewrite IH. Qed.

Lemma length_flatten_pairs ps : length (flatten_pairs ps) = (2 * length ps)%nat.
Proof. induction ps as [| [k v] ps IH]; [done |]. cbn [flatten_pairs length]. lia. Qed.

Lemma Forall_flatten_pairs (P : bytes -> Prop) ps :
  Forall P (flatten_pairs ps) -> Forall (fun p => P p.1 /\ P p.2) ps.
Proof.
  induction ps as [| [k v] ps IH]; cbn; [done |].
  rewrite !Forall_cons. cbn. naive_solver.
Qed.
End Responses.

(** The reply a response stands for, where it has one. *)
Section ReplyOf.
Context `{Heap}.

Definition reply_of (r : RedisLink) (resp : list bytes) : option Reply :=
  match resp with
  | [] => None
  | r0 :: args =>
      if decide (r0 <> lit "ok") then
        Some (if decide (r0 = lit "error" \/ r0 = lit "fail" \/ r0 = lit "client_error") then
                RError (lit "ERR " ++ default [] (head args))
              else if decide (r0 = lit "not_found") then RBulk None
              else if decide (r0 = lit "noauth") then
                RError (lit "NOAUTH " ++ default [] (head args))
              else RError (lit "ERR server error"))
      else match req_desc r with
      | None => Some (RArray (Some <$> args))
      | Some d =>
          if decide (strategy d = STRATEGY_PING) then Some (RStatus (lit "PONG"))
          else match reply_type d with
          | REPLY_STATUS => Some (RStatus (lit "OK"))
          | REPLY_BULK => v ← head args; Some (RBulk (Some v))
          | REPLY_INT => v ← head args; Some (RInteger v)
          | REPLY_MULTI_BULK =>
              if decide (strategy d = STRATEGY_MGET \/ strategy d = STRATEGY_HMGET) then
                let skip := if decide (strategy d = STRATEGY_MGET) then 1 else 2 in
                if zlen (recv_string r) <? skip then None
                else ps ← pairs_of args;
                     Some (RArray (mget_values (zdrop skip (recv_string r)) ps))
              else match with_scores r d with
                   | Done true => Some (RArray (Some <$> args))
                   | Done false => ps ← pairs_of args; Some (RArray (Some <$> ps.*1))
                   | _ => None
                   end
          end
      end
  end.

Lemma array_line_id n : is_int n -> array_line n = chr 42 :: print_int n ++ CRLF.
Proof. apply head_line_id. Qed.

(** An array of values, written as its length and the values. *)
Lemma array_enc vs : Forall (fun v => zlen v <= int_max) vs -> is_int (zlen vs) ->
  mjoin (array_line (zlen vs) :: mjoin (bulk <$> vs)) = enc_reply (RArray (Some <$> vs)).
Proof.
  intros Hf Hn. rewrite array_line_id by done. change (mjoin (?a :: ?b)) with (a ++ mjoin b).
  rewrite bulks_enc by done. cbn [enc_reply]. unfold zlen at 2. rewrite length_fmap. fold (zlen vs).
  cbn. by rewrite <- !app_assoc.
Qed.

Lemma ok_length_even ps : negb (zlen (lit "ok" :: flatten_pairs ps) mod 2 =? 1) = false.
Proof.
  rewrite zlen_cons. unfold zlen. rewrite length_flatten_pairs.
  replace (1 + Z.of_nat (2 * length ps)) with (1 + Z.of_nat (length ps) * 2) by lia.
  by rewrite Z_mod_plus_full.
Qed.

Lemma resp_chunks_spec r resp rep :
  zlen resp <= int_max -> zlen (recv_string r) <= int_max ->
  Forall (fun v => zlen v <= int_max) resp ->
  reply_of r resp = Some rep ->
  exists chunks, resp_chunks r resp = Done chunks /\ mjoin chunks = enc_reply rep.
Proof.
  intros Hn Hm Hf Hrep. destruct resp as [| r0 args]; [done |].
  apply Forall_cons in Hf as [_ Hf]. cbn [reply_of resp_chunks] in *.
  pose proof (zlen_nonneg args) as Hz. pose proof (zlen_nonneg (recv_string r)) as Hz'.
  assert (Hl : to_int (zlen (r0 :: args)) - 1 = zlen args)
    by (clear - Hn; rewrite to_int_id by zl; zl).
  destruct (decide (r0 <> lit "ok")) as [H0 | H0].
  { injection Hrep as <-. repeat case_decide; eexists; (split; [reflexivity |]); try reflexivity;
      destruct args; cbn; by rewrite ?app_nil_r. }
  destruct (decide (r0 = lit "ok")) as [-> |]; [clear H0 | done].
  destruct (req_desc r) as [d |].
  2: { injection Hrep as <-. eexists. split; [done |]. rewrite Hl. apply array_enc; [done | zl]. }
  case_decide; [by injection Hrep as <-; eexists |].
  destruct (reply_type d).
  - destruct args as [| v args]; [done |]. injection Hrep as <-. apply Forall_cons in Hf as [Hv _].
    eexists. split; [done | by apply bulk_enc].
  - case_decide as Hs.
    + set (skip := if decide _ then 1 else 2) in *.
      assert (0 <= skip <= 2) by (subst skip; clear; case_decide; lia).
      destruct (Z.ltb_spec (zlen (recv_string r)) skip); [done |].
      destruct (pairs_of args) as [ps |] eqn:Ep; [| done]. injection Hrep as <-.
      apply flatten_pairs_of in Ep as ->. rewrite ok_length_even.
      apply Forall_flatten_pairs in Hf.
      destruct (mget_reply_spec (zdrop skip (recv_string r)) ps) as (l & -> & El).
      { eapply Forall_impl; [exact Hf | by intros ? [_ ?]]. }
      cbn [ebind]. eexists. split; [done |].
      change (mjoin (?a :: ?b)) with (a ++ mjoin b). rewrite El.
      rewrite array_line_id by (rewrite to_int_id by zlia; zlia). cbn [enc_reply].
      rewrite to_int_id by zlia. unfold zlen at 2. rewrite length_mget_values.
      fold (zlen (zdrop skip (recv_string r))). rewrite zlen_zdrop by lia.
      cbn. by rewrite <- !app_assoc.
    + destruct (with_scores r d) as [[] | |] eqn:Ew; [| | done..]; cbn [ebind].
      * injection Hrep as <-. eexists. split; [done |].
        rewrite Hl, list_reply_all. apply array_enc; [done | zl].
      * destruct (pairs_of args) as [ps |] eqn:Ep; [| done]. injection Hrep as <-.
        apply flatten_pairs_of in Ep as ->. eexists. split; [done |]. rewrite Hl.
        apply Forall_flatten_pairs in Hf. rewrite list_reply_half.
        assert (Z.quot (zlen (flatten_pairs ps)) 2 = zlen ps) as ->.
        { unfold zlen. rewrite length_flatten_pairs, Nat2Z.inj_mul, Z.mul_comm.
          by apply Z.quot_mul. }
        assert (zlen ps.*1 = zlen ps) as <- by (unfold zlen; by rewrite length_fmap).
        apply array_enc.
        -- apply Forall_fmap. eapply Forall_impl; [exact Hf | by intros ? [? _]].
        -- split; [zl |]. cut (zlen ps.*1 <= zlen (flatten_pairs ps)); [zl |].
           unfold zlen. rewrite length_fmap, length_flatten_pairs. lia.
  - destruct args as [| v args]; [done |]. injection Hrep as <-.
    eexists. split; [done |]. cbn. by rewrite ?app_nil_r, <- ?app_assoc.
  - injection Hrep as <-. by eexists.
Qed.

(** ** The reply to a request *)

(** A range of ranks the translation understands: from a position to another, or to the end. *)
Definition range_ok (start stop : bytes) : bool :=
  match str_to_int64 0 start, str_to_int64 0 stop with
  | Done (a, _), Done (b, _) => (0 <=? a) && (0 <=? b) || (b =? -1)
  | _, _ => false
  end.
Definition says_withscores (o : bytes) : bool := bool_decide (strtolower o = lit "withscores").

(** Whether the client asked for the scores, from the arguments as it wrote them: the
    option WITHSCORES, in any case, right after the range of ZRANGE, or anywhere after
    the bounds of ZRANGEBYSCORE. *)
Definition asks_scores (st : STRATEGY) (args : list bytes) : bool :=
  match st with
  | STRATEGY_ZRANGE | STRATEGY_ZREVRANGE =>
      match args with
      | _ :: start :: stop :: o :: _ => range_ok start stop && says_withscores o
      | _ => false
      end
  | STRATEGY_ZRANGEBYSCORE | STRATEGY_ZREVRANGEBYSCORE =>
      match args with
      | _ :: smin :: smax :: opts =>
          bool_decide (smin <> [] /\ smax <> []) && existsb says_withscores opts
      | _ => false
      end
  | _ => true
  end.

(** The reply a client of the Redis protocol expects to its request, of a given
    command, when the server answers [resp]: the names and scores of a sorted set come
    as pairs, and the keys of MGET and HMGET in the order of the request. *)
Definition reply_to (req resp : list bytes) : option Reply :=
  match req, resp with
  | c :: args, status :: vs =>
      if decide (status = lit "ok") then
        match cmd_table !! strtolower c with
        | None => Some (RArray (Some <$> vs))
        | Some (mkDesc STRATEGY_PING _ _ _) => Some (RStatus (lit "PONG"))
        | Some (mkDesc _ _ _ REPLY_STATUS) => Some (RStatus (lit "OK"))
        | Some (mkDesc _ _ _ REPLY_BULK) => v ← head vs; Some (RBulk (Some v))
        | Some (mkDesc _ _ _ REPLY_INT) => v ← head vs; Some (RInteger v)
        | Some (mkDesc STRATEGY_MGET _ _ REPLY_MULTI_BULK) =>
            ps ← pairs_of vs; Some (RArray (mget_values args ps))
        | Some (mkDesc STRATEGY_HMGET _ _ REPLY_MULTI_BULK) =>
            match args with
            | [] => None
            | _ :: keys => ps ← pairs_of vs; Some (RArray (mget_values keys ps))
            end
        | Some (mkDesc st _ _ REPLY_MULTI_BULK) =>
            if asks_scores st args then Some (RArray (Some <$> vs))
            else ps ← pairs_of vs; Some (RArray (Some <$> ps.*1))
        end
      else if decide (status = lit "not_found") then Some (RBulk None)
      else if decide (status = lit "noauth") then Some (RError (lit "NOAUTH " ++ default [] (head vs)))
      else if decide (status ∈ [lit "error"; lit "fail"; lit "client_error"]) then
        Some (RError (lit "ERR " ++ default [] (head vs)))
      else Some (RError (lit "ERR server error"))
  | _, _ => None
  end.

Lemma byscore_options_scores l : forall al w o c,
  (byscore_options l al w o c).1.1 = if existsb says_withscores l then lit "withscores" else w.
Proof.
  induction l as [| s l IH]; intros al w o c; [done |]. cbn [byscore_options existsb].
  destruct (if al then _ else _) as [[o' c'] al']. unfold says_withscores at 1.
  destruct (decide (strtolower s = lit "withscores")) as [E | E].
  - rewrite IH, E, bool_decide_true by done. cbn [orb]. by destruct (existsb _ l).
  - rewrite bool_decide_false by done. cbn [orb]. by case_decide; rewrite IH.
Qed.

(** The commands the table gives these strategies are not called "withscores". *)
Lemma cmd_not_withscores c d : cmd_table !! c = Some d -> ssdb_cmd d <> lit "withscores".
Proof.
  intros E. assert (map_Forall (fun _ d => ssdb_cmd d <> lit "withscores") cmd_table) as Hall.
  { apply (bool_decide_unpack _). vm_compute. exact I. }
  exact (map_Forall_lookup_1 _ _ c d Hall E).
Qed.

Lemma zrange_scores c d r a0 args rs : cmd_table !! c = Some d -> recv_string r = rs ->
  strategy d = STRATEGY_ZRANGE \/ strategy d = STRATEGY_ZREVRANGE ->
  convert_zrange d (a0 :: args) = Done rs -> with_scores r d = Done (asks_scores (strategy d) args).
Proof.
  intros _ Er Hs E. unfold with_scores. rewrite decide_True, Er by done. f_equal.
  assert (asks_scores (strategy d) args = asks_scores STRATEGY_ZRANGE args) as -> by by destruct Hs as [-> | ->].
  unfold convert_zrange in E. cbn [asks_scores].
  destruct args as [| name [| start [| stop opts]]]; try (injection E as <-; by rewrite bool_decide_false).
  assert (strategy d <> STRATEGY_REMRANGEBYSCORE) as Hn by (intros E'; rewrite E' in Hs; by destruct Hs).
  unfold range_ok. destruct (str_to_int64 0 start) as [[x ?] | |]; [| done..].
  cbn [ebind] in E. destruct (str_to_int64 0 stop) as [[y ?] | |]; [| done..]. cbn [ebind] in E.
  destruct ((0 <=? x) && (0 <=? y) || (y =? -1)).
  - destruct (if y =? -1 then _ else _) as [size | |]; [| done..]. cbn [ebind] in E. injection E as <-.
    destruct opts as [| o opts]; [by rewrite bool_decide_false |]. unfold says_withscores. cbn.
    by apply bool_decide_ext; split; [intros [=] | intros ->].
  - cbn [ebind] in E. injection E as <-. by destruct opts; rewrite bool_decide_false.
Qed.

Lemma byscore_scores c d r a0 args rs : cmd_table !! c = Some d -> recv_string r = rs ->
  strategy d = STRATEGY_ZRANGEBYSCORE \/ strategy d = STRATEGY_ZREVRANGEBYSCORE ->
  convert_byscore d (a0 :: args) = Done rs -> with_scores r d = Done (asks_scores (strategy d) args).
Proof.
  intros Hd Er Hs E. unfold with_scores.
  rewrite decide_False, decide_True by (try done; destruct Hs as [-> | ->]; by intros []).
  assert (asks_scores (strategy d) args = asks_scores STRATEGY_ZRANGEBYSCORE args) as ->
    by by destruct Hs as [-> | ->].
  apply cmd_not_withscores in Hd. rewrite Er. unfold convert_byscore in E. cbn [asks_scores].
  destruct args as [| name [| smin [| smax opts]]];
    try (cbn match in E; rewrite decide_True in E by (by left); injection E as <-; cbn [last]; by rewrite bool_decide_false).
  pose proof (byscore_options_scores opts false [] [] []) as Ho.
  destruct (byscore_options opts false [] [] []) as [[w o] n]. cbn [fst] in Ho.
  destruct (decide (smin = [] \/ smax = [])) as [He | He].
  - injection E as <-. rewrite (bool_decide_false (smin <> [] /\ _)) by naive_solver. cbn [last andb].
    by rewrite bool_decide_false.
  - rewrite (bool_decide_true (smin <> [] /\ _)) by naive_solver. cbn [andb].
    apply bind_Done in E as (bmin & _ & E). apply bind_Done in E as (bmax & _ & E). injection E as <-.
    cbn [last]. rewrite Ho. by destruct (existsb _ opts).
Qed.

Lemma convert_scores c d r a0 args rs : cmd_table !! c = Some d -> recv_string r = rs ->
  convert_req c (a0 :: args) = Done (Some d, rs) -> with_scores r d = Done (asks_scores (strategy d) args).
Proof.
  intros Hd Er E. unfold convert_req in E. rewrite Hd in E. apply bind_Done in E as (rs' & E & E').
  injection E' as <-.
  destruct (strategy d) eqn:Es; try (unfold with_scores; by rewrite Es); rewrite <- Es;
    first [eapply zrange_scores; eauto; fail | eapply byscore_scores; eauto; fail].
Qed.

Lemma convert_desc c rb o rs : convert_req c rb = Done (o, rs) -> o = cmd_table !! c.
Proof.
  unfold convert_req. destruct (cmd_table !! c); [| by intros [= <- _]].
  intros E. apply bind_Done in E as (rs' & _ & E). by injection E.
Qed.

(** The link keeps enough of the request to answer it. *)
Lemma reply_to_of a0 args desc rs resp rep : let c := strtolower a0 in
  convert_req c (a0 :: args) = Done (desc, rs) -> reply_to (a0 :: args) resp = Some rep ->
  reply_of (mkRedis c desc rs rs) resp = Some rep.
Proof.
  intros c Ec Hrep. pose proof (convert_desc _ _ _ _ Ec) as Ed. subst desc.
  unfold reply_to in Hrep. fold c in Hrep. destruct resp as [| status vs]; [done |].
  cbn [reply_of req_desc recv_string].
  destruct (decide (status = lit "ok")) as [Hok | Hok].
  2: { rewrite decide_True by done.
    destruct (decide (status = lit "not_found")) as [-> |]; [exact Hrep |].
    destruct (decide (status = lit "noauth")) as [-> |]; [exact Hrep |].
    assert (status ∈ [lit "error"; lit "fail"; lit "client_error"] <->
      status = lit "error" \/ status = lit "fail" \/ status = lit "client_error") as Hin
      by (rewrite !elem_of_cons, elem_of_nil; tauto).
    rewrite <- Hrep. destruct (decide (status ∈ _)) as [Hi | Hi]; rewrite Hin in Hi;
      [by rewrite decide_True | by rewrite decide_False]. }
  rewrite decide_False by (intros Hn; by apply Hn).
  destruct (cmd_table !! c) as [d |] eqn:Hd; [| done].
  pose proof (convert_scores c d (mkRedis c (Some d) rs rs) a0 args rs Hd eq_refl Ec) as Hw.
  unfold convert_req in Ec. rewrite Hd in Ec. apply bind_Done in Ec as (rs' & E & Ec). injection Ec as ->.
  clear Hd Hok. destruct d as [st rc sc rt]. cbn [strategy reply_type ssdb_cmd] in *.
  destruct rt; [by destruct st | | by destruct st..].
  destruct (decide (st = STRATEGY_PING)) as [-> |]; [exact Hrep |].
  destruct (decide (st = STRATEGY_MGET)) as [-> |].
  { injection E as <-. rewrite decide_True by (by left). rewrite zlen_cons.
    rewrite (proj2 (Z.ltb_ge _ _)) by zl. exact Hrep. }
  destruct (decide (st = STRATEGY_HMGET)) as [-> |].
  { injection E as <-. rewrite decide_True by (by right). destruct args as [| name args]; [done |].
    rewrite (proj2 (Z.ltb_ge _ _)) by (cbn [drop]; zl). exact Hrep. }
  rewrite decide_False by (by intros []). rewrite Hw.
  destruct st; try done; cbn [option_fmap] in *; by destruct (asks_scores _ _).
Qed.

(** C16: replies: for a request the link has received and translated, when the
    server's response [resp] stands for the reply [rep] to it, [send_resp] appends
    to the output exactly the bytes of that reply in the Redis protocol, so that
    every length it announces is the length of what follows.  The reply is read off
    the request as the client wrote it: the type from the command, the scores of a
    sorted set only if it asked for them, the values of MGET and HMGET in the order
    of its keys.  Numbers of strings and their lengths must fit an [int], the output
    must stay below 2^29 bytes, and no reallocation be refused.  (Some responses stand
    for no reply: see [resp_chunks_malformed].) *)
Theorem send_resp_reply (no_refusal : forall n, realloc_ok n = true) a0 args desc rs resp rep output :
  let c := strtolower a0 in
  convert_req c (a0 :: args) = Done (desc, rs) -> reply_to (a0 :: args) resp = Some rep ->
  zlen resp <= int_max -> zlen rs <= int_max -> Forall (fun v => zlen v <= int_max) resp ->
  BufferSpec.wf output -> Buffer.off output + Buffer.size_ output + zlen (enc_reply rep) <= 2 ^ 29 ->
  exists output', send_resp (mkRedis c desc rs rs) output resp = Done output' /\
    BufferSpec.wf output' /\ BufferSpec.contents output' = BufferSpec.contents output ++ enc_reply rep.
Proof.
  intros c Ec Hrep Hn Hm Hf Hwf Hlen.
  destruct (resp_chunks_spec (mkRedis c desc rs rs) resp rep Hn Hm Hf (reply_to_of _ _ _ _ _ _ Ec Hrep))
    as (ch & E & Ech). unfold send_resp. rewrite E. cbn [ebind]. rewrite <- Ech in *.
  destruct (append_all_spec ch output Hwf Hlen) as [Ho | (n & Hn')]; [exact Ho |].
  by rewrite no_refusal in Hn'.
Qed.

Lemma bulk_line_not_reply rep : lit "$0" ++ CRLF <> enc_reply rep.
Proof.
  destruct rep as [s | s | s | [s |] | l]; try discriminate. intros Heq.
  injection Heq as Heq.
  assert ([chr 48] ++ CR :: [LF] = print_int (zlen s) ++ CR :: LF :: s ++ CRLF) as E
    by (cbn in Heq |- *; exact Heq).
  apply app_first_inj in E as [_ E]; [by destruct s | | by apply print_int_notin].
  rewrite list_elem_of_singleton. done.
Qed.

(** An "ok" response without a value, to a request that expects a bulk or an
    integer, is answered by "$0\r\n" alone, and an "ok" response to MGET with an
    odd number of values by "*0" alone: neither is the encoding of a reply (the
    line end of the empty bulk, or of the array header, is missing). *)
Theorem resp_chunks_malformed r d :
  req_desc r = Some d -> strategy d <> STRATEGY_PING ->
  (reply_type d = REPLY_BULK \/ reply_type d = REPLY_INT ->
     exists c, resp_chunks r [lit "ok"] = Done c /\ forall rep, mjoin c <> enc_reply rep) /\
  (reply_type d = REPLY_MULTI_BULK -> strategy d = STRATEGY_MGET -> forall v,
     exists c, resp_chunks r [lit "ok"; v] = Done c /\ forall rep, mjoin c <> enc_reply rep).
Proof.
  intros Hd Hp. unfold resp_chunks. rewrite Hd. cbn [decide].
  destruct (decide (lit "ok" <> lit "ok")); [done |].
  destruct (decide (strategy d = STRATEGY_PING)); [done |]. split.
  - intros [-> | ->]; (eexists; split; [done |]); intros rep Heq;
      by apply (bulk_line_not_reply rep).
  - intros -> Hs v. rewrite decide_True by by left. eexists; split; [done |].
    intros [s | s | s | [s |] | l] Heq; try discriminate Heq.
    injection Heq as Heq. assert (CR ∈ lit "0") as Hin by (cbn; rewrite Heq; set_solver).
    apply list_elem_of_singleton in Hin. done.
Qed.
End ReplyOf.

(** * Instances *)

Module RedisSamples.
Import BufferSpec.
#[local] Existing Instance sample_heap.

Definition set_req : list bytes := [lit "SET"; lit "k"; lit "v1"].
Definition get_req : list bytes := [lit "GET"; lit "k"].

Lemma parse_req_roundtrip_witness : exists b',
  parse_req (sample (CRLF ++ enc_req set_req ++ enc_req get_req)) = Done (1, b', set_req) /\
  wf b' /\ contents b' = enc_req get_req.
Proof.
  apply (ParseSpec.parse_req_roundtrip (sample (CRLF ++ enc_req set_req ++ enc_req get_req))
           CRLF set_req (enc_req get_req)).
  - split; vm_compute; congruence.
  - constructor; [by right | constructor; [by left | constructor]].
  - discriminate.
  - split; [vm_compute; congruence | repeat constructor; vm_compute; congruence].
  - vm_compute; reflexivity.
Defined.

Lemma parse_req_incomplete_witness :
  parse_req (sample (take 17 (enc_req set_req))) = Done (0, sample (take 17 (enc_req set_req)), []).
Proof.
  apply (ParseSpec.parse_req_incomplete (sample (take 17 (enc_req set_req))) set_req
           (drop 17 (enc_req set_req))).
  - split; vm_compute; congruence.
  - split; [vm_compute; congruence | repeat constructor; vm_compute; congruence].
  - discriminate.
  - vm_compute; discriminate.
  - vm_compute; reflexivity.
  - vm_compute; congruence.
Defined.


Lemma parse_req_defined_witness :
  exists r b' args, parse_req (sample (lit "*1" ++ [LF; chr 36; LF])) = Done (r, b', args).
Proof.
  apply (Overread.parse_req_defined (sample (lit "*1" ++ [LF; chr 36; LF])) [chr 1] [] (chr 2) []).
  - split; vm_compute; congruence.
  - reflexivity.
  - reflexivity.
  - split_and!; reflexivity || discriminate.
Defined.

(** The same request at the very end of its block. *)
Definition full (data : bytes) : Buffer.t := Buffer.mk data 0 (zlen data) (zlen data).

Lemma parse_req_overread_witness :
  parse_req (full (lit "*1" ++ [CR; LF; chr 36; LF])) = UB.
Proof.
  apply (Overread.parse_req_overread (full (lit "*1" ++ [CR; LF; chr 36; LF])) []).
  - split; vm_compute; congruence.
  - vm_compute; reflexivity.
  - constructor.
  - set_solver.
  - reflexivity.
Defined.

Lemma recv_req_complete_witness :
  let c := strtolower (lit "SET") in
  exists b', wf b' /\ contents b' = [] /\
    recv_req RedisLink_init (sample (enc_req set_req)) =
      (let* (desc, rs) := convert_req c set_req in Done (Some rs, mkRedis c desc rs rs, b')) /\
    (forall d, cmd_table !! c = Some d -> strategy d = STRATEGY_AUTO \/ strategy d = STRATEGY_PING ->
       let rs := ssdb_cmd d :: [lit "k"; lit "v1"] in
       recv_req RedisLink_init (sample (enc_req set_req)) = Done (Some rs, mkRedis c (Some d) rs rs, b')) /\
    (cmd_table !! c = None ->
       let rs := c :: [lit "k"; lit "v1"] in
       recv_req RedisLink_init (sample (enc_req set_req)) = Done (Some rs, mkRedis c None rs rs, b')).
Proof.
  apply (RecvSpec.recv_req_complete RedisLink_init (sample (enc_req set_req)) []
           (lit "SET") [lit "k"; lit "v1"] []).
  - split; vm_compute; congruence.
  - constructor.
  - split; [vm_compute; congruence | repeat constructor; vm_compute; congruence].
  - vm_compute; reflexivity.
Defined.

Lemma recv_req_incomplete_witness :
  (exists r' b', recv_req RedisLink_init (full (take 17 (enc_req set_req))) = Done (Some [], r', b') /\
     wf b' /\ contents b' = contents (full (take 17 (enc_req set_req))) /\ 0 < Buffer.space b') \/
  (exists n, realloc_ok n = false).
Proof.
  apply (RecvSpec.recv_req_incomplete RedisLink_init (full (take 17 (enc_req set_req))) set_req
           (drop 17 (enc_req set_req))).
  - split; vm_compute; congruence.
  - vm_compute; congruence.
  - split; [vm_compute; congruence | repeat constructor; vm_compute; congruence].
  - discriminate.
  - vm_compute; discriminate.
  - vm_compute; reflexivity.
  - vm_compute; congruence.
Defined.

Definition mget_sample : list bytes := [lit "MGET"; lit "a"; lit "b"; lit "c"].

Lemma send_resp_reply_witness : exists output',
  send_resp (mkRedis (lit "mget") (cmd_table !! lit "mget") (lit "multi_get" :: drop 1 mget_sample)
               (lit "multi_get" :: drop 1 mget_sample)) (sample []) [lit "ok"; lit "b"; lit "xy"] = Done output' /\
  wf output' /\ contents output' = contents (sample []) ++ enc_reply (RArray [None; Some (lit "xy"); None]).
Proof.
  apply (send_resp_reply (H := sample_heap) (fun _ => eq_refl) (lit "MGET") (drop 1 mget_sample)).
  - vm_compute; reflexivity.
  - vm_compute; reflexivity.
  - vm_compute; congruence.
  - vm_compute; congruence.
  - repeat constructor; vm_compute; congruence.
  - split; vm_compute; congruence.
  - vm_compute; congruence.
Defined.

(** ZRANGE with and without the scores. *)
Example zrange_replies :
  reply_to [lit "ZRANGE"; lit "z"; lit "0"; lit "-1"; lit "WithScores"] [lit "ok"; lit "m"; lit "5"] =
    Some (RArray [Some (lit "m"); Some (lit "5")]) /\
  reply_to [lit "zrange"; lit "z"; lit "0"; lit "-1"] [lit "ok"; lit "m"; lit "5"] =
    Some (RArray [Some (lit "m")]).
Proof. by vm_compute. Qed.

Definition get_desc : RedisRequestDesc := raw STRATEGY_AUTO "get" "get" REPLY_BULK.

Lemma resp_chunks_malformed_witness :
  let r := mkRedis (lit "get") (Some get_desc) [] [] in
  (reply_type get_desc = REPLY_BULK \/ reply_type get_desc = REPLY_INT ->
     exists c, resp_chunks r [lit "ok"] = Done c /\ forall rep, mjoin c <> enc_reply rep) /\
  (reply_type get_desc = REPLY_MULTI_BULK -> strategy get_desc = STRATEGY_MGET -> forall v,
     exists c, resp_chunks r [lit "ok"; v] = Done c /\ forall rep, mjoin c <> enc_reply rep).
Proof. apply (resp_chunks_malformed _ get_desc); [reflexivity | discriminate]. Defined.
End RedisSamples.
