(* ===== verification/LevelDB.v ===== *)
(** The storage engine.  LevelDB is not part of the repository: what the code
    uses of [leveldb::DB], [Iterator], [Status], [WriteBatch] and [Slice] is an
    interface, [LevelDB], and what it relies on is [LevelDBSpec]: reads return
    what was last written, a batch is applied atomically or not at all, and an
    iterator walks an immutable snapshot in key order.  Reads and writes may
    fail.  [Mem] is an instance, used by the witnesses. *)
From S2P Require Import Prelude CLib.

Inductive Status := OK | NotFound | IOError.
Definition status_ok (s : Status) : bool := match s with OK => true | _ => false end.
Definition IsNotFound (s : Status) : bool := match s with NotFound => true | _ => false end.

Inductive WriteOp := Put (k v : bytes) | Delete (k : bytes).
Abbreviation WriteBatch := (list WriteOp).

Class LevelDB := {
  DB : Type;
  Get : DB -> bytes -> Status * bytes;
  Write : DB -> WriteBatch -> Status * DB;
  DB_Put : DB -> bytes -> bytes -> Status * DB;
  DB_Delete : DB -> bytes -> Status * DB;
  LIter : Type;
  NewIterator : DB -> LIter;
  Seek : bytes -> LIter -> LIter;
  SeekToLast : LIter -> LIter;
  Next : LIter -> LIter;
  Prev : LIter -> LIter;
  Valid : LIter -> bool;
  it_key : LIter -> bytes;
  it_value : LIter -> bytes;
  Slice_compare : bytes -> bytes -> Z
}.

(** * What is relied on *)

Definition apply_op (m : gmap bytes bytes) (o : WriteOp) : gmap bytes bytes :=
  match o with Put k v => <[k := v]> m | Delete k => delete k m end.
Definition apply_batch (b : WriteBatch) (m : gmap bytes bytes) : gmap bytes bytes :=
  foldl apply_op m b.

Abbreviation entry := (bytes * bytes)%type.
Definition entry_le (x y : entry) : Prop := bytes_le x.1 y.1.
Definition entry_lt (x y : entry) : Prop := bytes_lt x.1 y.1.
#[global] Instance entry_le_dec : RelDecision entry_le := fun x y => bytes_le_dec x.1 y.1.
#[global] Instance entry_lt_dec : RelDecision entry_lt := fun x y => bytes_lt_dec x.1 y.1.
#[global] Instance entry_le_total : Total entry_le.
Proof. intros x y. apply (total bytes_le). Qed.
#[global] Instance entry_le_trans : Transitive entry_le.
Proof. intros x y z. apply (transitivity (R := bytes_le)). Qed.
#[global] Instance entry_lt_trans : Transitive entry_lt.
Proof. intros x y z. apply (transitivity (R := bytes_lt)). Qed.

(** The entries of a store in key order. *)
Definition sorted_entries (m : gmap bytes bytes) : list entry :=
  merge_sort entry_le (map_to_list m).

Class LevelDBSpec (L : LevelDB) := {
  contents : DB -> gmap bytes bytes;
  Get_OK d k v : Get d k = (OK, v) -> contents d !! k = Some v;
  Get_NotFound d k v : Get d k = (NotFound, v) -> contents d !! k = None;
  Write_spec d b s d' : Write d b = (s, d') ->
    contents d' = if status_ok s then apply_batch b (contents d) else contents d;
  Put_spec d k v s d' : DB_Put d k v = (s, d') ->
    contents d' = if status_ok s then <[k := v]> (contents d) else contents d;
  Delete_spec d k s d' : DB_Delete d k = (s, d') ->
    contents d' = if status_ok s then delete k (contents d) else contents d;
  (** The snapshot of an iterator and its position in it. *)
  it_all : LIter -> list entry;
  it_pos : LIter -> option nat;
  New_all d : it_all (NewIterator d) = sorted_entries (contents d);
  Valid_spec i : Valid i = bool_decide (is_Some (it_pos i));
  it_entry i p : it_pos i = Some p -> it_all i !! p = Some (it_key i, it_value i);
  Seek_spec k i : it_all (Seek k i) = it_all i /\
    it_pos (Seek k i) = fst <$> list_find (fun e => bytes_le k e.1) (it_all i);
  SeekToLast_spec i : it_all (SeekToLast i) = it_all i /\
    it_pos (SeekToLast i) = match it_all i with [] => None | _ => Some (pred (length (it_all i))) end;
  Next_spec i p : it_pos i = Some p -> it_all (Next i) = it_all i /\
    it_pos (Next i) = if decide (S p < length (it_all i))%nat then Some (S p) else None;
  Prev_spec i p : it_pos i = Some p -> it_all (Prev i) = it_all i /\
    it_pos (Prev i) = match p with O => None | S p' => Some p' end;
  Slice_compare_spec a b :
    (Slice_compare a b < 0 <-> bytes_lt a b) /\ (0 < Slice_compare a b <-> bytes_lt b a)
}.

(** * Sorted entries *)

Section Entries.
Implicit Types m : gmap bytes bytes.

Lemma elem_of_sorted_entries m k v : (k, v) ∈ sorted_entries m <-> m !! k = Some v.
Proof. unfold sorted_entries. by rewrite merge_sort_Permutation, elem_of_map_to_list. Qed.

Lemma NoDup_sorted_keys m : NoDup (sorted_entries m).*1.
Proof.
  unfold sorted_entries. rewrite merge_sort_Permutation. apply NoDup_fst_map_to_list.
Qed.

Lemma StronglySorted_lt l : NoDup l.*1 -> StronglySorted entry_le l -> StronglySorted entry_lt l.
Proof.
  induction l as [| e l IH]; intros Hnd Hs; [constructor |].
  inversion Hs as [| ? ? Hs' He]; inversion Hnd as [| ? ? Hn Hnd']; subst.
  constructor; [by apply IH |]. rewrite Forall_forall in *. intros x Hx.
  specialize (He x Hx). apply bytes_le_lteq in He as [? | Heq]; [done |].
  exfalso. apply Hn. rewrite Heq. by apply list_elem_of_fmap_2.
Qed.

Lemma sorted_entries_sorted m : StronglySorted entry_lt (sorted_entries m).
Proof.
  apply StronglySorted_lt; [apply NoDup_sorted_keys |].
  apply StronglySorted_merge_sort; apply _.
Qed.

Lemma filter_none {A} (P : A -> Prop) `{forall x, Decision (P x)} l :
  filter P l = [] <-> Forall (fun x => ~ P x) l.
Proof.
  induction l as [| x l IH]; [done |]. rewrite filter_cons, Forall_cons.
  case_decide; naive_solver.
Qed.

Lemma filter_all {A} (P : A -> Prop) `{forall x, Decision (P x)} l :
  Forall P l -> filter P l = l.
Proof. induction 1 as [| x l Hx _ IH]; [done |]. by rewrite filter_cons_True, IH. Qed.

(** Strictly sorted lists are determined by their elements. *)
Lemma sorted_app_inv (l k : list entry) e :
  StronglySorted entry_lt (l ++ e :: k) ->
  Forall (fun x => entry_lt x e) l /\ Forall (entry_lt e) k.
Proof.
  induction l as [| x l IH]; cbn; intros Hs; inversion Hs as [| ? ? Hs' Hx]; subst.
  - by split.
  - destruct (IH Hs') as [H1 H2]. split; [| done]. constructor; [| done].
    rewrite Forall_forall in Hx. apply Hx. set_solver.
Qed.
End Entries.

(** * Iterators in terms of the store *)

Section Iterators.
Context `{LevelDBSpec}.

(** What is left to visit, the current entry first. *)
Definition rest (i : LIter) : list entry :=
  match it_pos i with Some p => drop p (it_all i) | None => [] end.

Lemma Valid_rest i : Valid i = bool_decide (rest i <> []).
Proof.
  rewrite Valid_spec. apply bool_decide_ext. unfold rest. destruct (it_pos i) as [p |] eqn:E.
  - pose proof (it_entry i p E) as He. rewrite (drop_S _ _ _ He). naive_solver.
  - by rewrite is_Some_alt.
Qed.

Lemma Valid_cons i : Valid i = true -> rest i = (it_key i, it_value i) :: tail (rest i).
Proof.
  rewrite Valid_spec, bool_decide_eq_true. intros [p E]. unfold rest. rewrite E.
  by rewrite (drop_S _ _ _ (it_entry i p E)).
Qed.

Lemma Valid_true i : rest i <> [] -> Valid i = true.
Proof. intros. rewrite Valid_rest. by apply bool_decide_eq_true_2. Qed.

Lemma Valid_false i : Valid i = false <-> rest i = [].
Proof. rewrite Valid_rest, bool_decide_eq_false. destruct (rest i); naive_solver. Qed.

Lemma Next_rest i : Valid i = true -> rest (Next i) = tail (rest i).
Proof.
  rewrite Valid_spec, bool_decide_eq_true. intros [p E].
  destruct (Next_spec i p E) as [Ha Hp]. unfold rest. rewrite Ha, Hp, E.
  pose proof (it_entry i p E) as He. rewrite (drop_S _ _ _ He). cbn.
  case_decide; [done |]. symmetry. apply drop_ge. lia.
Qed.

Lemma Next_all i : Valid i = true -> it_all (Next i) = it_all i.
Proof.
  rewrite Valid_spec, bool_decide_eq_true. intros [p E]. apply (Next_spec i p E).
Qed.

Lemma Seek_rest k i : StronglySorted entry_lt (it_all i) ->
  rest (Seek k i) = filter (fun e => bytes_le k e.1) (it_all i).
Proof.
  intros Hs. destruct (Seek_spec k i) as [Ha Hp]. unfold rest. rewrite Ha, Hp.
  destruct (list_find _ (it_all i)) as [[n x] |] eqn:E; cbn.
  - apply list_find_Some in E as (Hn & Hx & Hlt).
    pose proof (take_drop_middle _ _ _ Hn) as Es. rewrite <- Es at 2.
    rewrite filter_app, filter_cons_True by done. rewrite <- Es in Hs.
    destruct (sorted_app_inv _ _ _ Hs) as [_ Hr].
    rewrite (drop_S _ _ _ Hn).
    assert (filter (fun e => bytes_le k e.1) (take n (it_all i)) = []) as ->.
    { apply filter_none, Forall_forall. intros y Hy.
      apply list_elem_of_lookup_1 in Hy as [j Hj]. apply lookup_take_Some in Hj as [Hj ?]. eauto. }
    cbn. f_equal. symmetry. apply filter_all.
    eapply Forall_impl; [exact Hr |]. intros y Hy. apply bytes_le_lteq. left.
    by eapply bytes_le_lt_trans.
  - symmetry. apply filter_none. by apply list_find_None in E.
Qed.

(** Seeking in a fresh iterator: the entries from [k] on. *)
Lemma Seek_New_rest k d :
  rest (Seek k (NewIterator d)) =
    filter (fun e => bytes_le k e.1) (sorted_entries (contents d)).
Proof. rewrite Seek_rest, New_all; [done |]. rewrite New_all. apply sorted_entries_sorted. Qed.

Lemma filter_sorted (P : entry -> Prop) `{forall e, Decision (P e)} l :
  StronglySorted entry_lt l -> StronglySorted entry_lt (filter P l).
Proof.
  induction 1 as [| e l Hs IH He]; [constructor |]. rewrite filter_cons.
  case_decide; [| done]. constructor; [done |]. rewrite Forall_forall in *.
  intros x Hx%list_elem_of_filter. apply He, Hx.
Qed.

(** The least entry at or above [k]. *)
Lemma Seek_New_least k d :
  let i := Seek k (NewIterator d) in
  if Valid i then
    contents d !! it_key i = Some (it_value i) /\ bytes_le k (it_key i) /\
    (forall k', is_Some (contents d !! k') -> bytes_le k k' -> bytes_le (it_key i) k')
  else forall k', is_Some (contents d !! k') -> bytes_lt k' k.
Proof.
  intros i. pose proof (Seek_New_rest k d) as Hr. fold i in Hr.
  destruct (Valid i) eqn:Ev.
  - rewrite (Valid_cons i Ev) in Hr.
    assert (Hin : forall e, e ∈ (it_key i, it_value i) :: tail (rest i) <->
              bytes_le k e.1 /\ contents d !! e.1 = Some e.2).
    { intros [k0 v0]. rewrite Hr, list_elem_of_filter, elem_of_sorted_entries. done. }
    destruct (proj1 (Hin (it_key i, it_value i)) ltac:(set_solver)) as [Hk Hv].
    split_and!; [done | done |]. intros k' [v' Hv'] Hk'.
    pose proof (proj2 (Hin (k', v')) (conj Hk' Hv')) as [He | He]%elem_of_cons;
      [by simplify_eq |].
    pose proof (filter_sorted (fun e => bytes_le k e.1) _ (sorted_entries_sorted (contents d))) as Hs.
    rewrite <- Hr in Hs. inversion Hs as [| ? ? _ Hf]; subst. rewrite Forall_forall in Hf.
    apply bytes_le_lteq. left. apply (Hf _ He).
  - apply Valid_false in Ev. rewrite Ev in Hr. symmetry in Hr.
    rewrite filter_none, Forall_forall in Hr. intros k' [v Hv].
    apply dec_stable. intros Hn. rewrite bytes_not_lt in Hn.
    apply (Hr (k', v)); [by apply elem_of_sorted_entries | done].
Qed.

(** An iterator whose current entry splits a sorted snapshot. *)
Lemma pos_split i p : StronglySorted entry_lt (it_all i) -> it_pos i = Some p ->
  exists l k, it_all i = l ++ (it_key i, it_value i) :: k /\ length l = p /\
    Forall (fun e => bytes_lt e.1 (it_key i)) l /\ Forall (fun e => bytes_lt (it_key i) e.1) k.
Proof.
  intros Hs Hp. pose proof (it_entry i p Hp) as He.
  pose proof (take_drop_middle _ _ _ He) as Es. rewrite <- Es in Hs.
  destruct (sorted_app_inv _ _ _ Hs) as [H1 H2].
  exists (take p (it_all i)), (drop (S p) (it_all i)). split_and!; try done.
  apply length_take_le. apply lookup_lt_Some in He. lia.
Qed.

(** The iterator stands at the greatest entry below [k], if there is one. *)
Definition at_greatest_below (k : bytes) (d : DB) (j : LIter) : Prop :=
  if Valid j then
    contents d !! it_key j = Some (it_value j) /\ bytes_lt (it_key j) k /\
    (forall k', is_Some (contents d !! k') -> bytes_lt k' k -> bytes_le k' (it_key j))
  else forall k', is_Some (contents d !! k') -> ~ bytes_lt k' k.

Lemma elem_of_snapshot i d : it_all i = sorted_entries (contents d) ->
  forall k v, (k, v) ∈ it_all i <-> contents d !! k = Some v.
Proof. intros -> k v. apply elem_of_sorted_entries. Qed.

(** From the least entry at or above [k], one step back. *)
Lemma Prev_below k d i p : it_all i = sorted_entries (contents d) -> it_pos i = Some p ->
  bytes_le k (it_key i) ->
  (forall k', is_Some (contents d !! k') -> bytes_le k k' -> bytes_le (it_key i) k') ->
  at_greatest_below k d (Prev i).
Proof.
  intros Ha Hp Hk Hleast. pose proof (elem_of_snapshot i d Ha) as Hin.
  pose proof (sorted_entries_sorted (contents d)) as Hs. rewrite <- Ha in Hs.
  destruct (pos_split i p Hs Hp) as (l & r & Es & Hlen & Hl & Hr).
  assert (Hbelow : forall k', is_Some (contents d !! k') -> bytes_lt k' k ->
            exists v', (k', v') ∈ l).
  { intros k' [v' Hv'] Hlt. exists v'.
    assert ((k', v') ∈ it_all i) as He by by apply Hin.
    rewrite Es in He. apply elem_of_app in He as [? | He]; [done |]. exfalso.
    assert (bytes_le (it_key i) k') as Hge.
    { apply elem_of_cons in He as [He | He]; [by simplify_eq |].
      rewrite Forall_forall in Hr. apply bytes_le_lteq. left. apply (Hr _ He). }
    apply (bytes_not_lt k' k); [| done]. by trans (it_key i). }
  unfold at_greatest_below. destruct (Prev_spec i p Hp) as [Hpa Hpp]. rewrite Valid_spec, Hpp.
  destruct p as [| p]; cbn.
  { destruct l; [| done]. intros k' Hk' Hlt. destruct (Hbelow k' Hk' Hlt) as [? Hn].
    by apply not_elem_of_nil in Hn. }
  destruct (pos_split (Prev i) p) as (l' & r' & Es' & Hlen' & Hl' & Hr'); [by rewrite Hpa | done |].
  assert (l' ++ [(it_key (Prev i), it_value (Prev i))] = l /\ r' = (it_key i, it_value i) :: r)
    as [El Er].
  { apply app_inj_1; [rewrite length_app; cbn; lia |].
    rewrite <- Es, <- Hpa, Es', <- app_assoc. done. }
  assert (Hj : (it_key (Prev i), it_value (Prev i)) ∈ it_all i)
    by (rewrite Es, <- El; set_solver).
  apply Hin in Hj. split_and!; [done | |].
  - apply dec_stable. rewrite bytes_not_lt. intros Hge.
    assert (bytes_le (it_key i) (it_key (Prev i))) as Hle by (apply Hleast; eauto).
    subst r'. apply Forall_cons in Hr' as [Hlt _]. cbn in Hlt.
    by apply (bytes_not_lt (it_key (Prev i)) (it_key i)) in Hle.
  - intros k' Hk' Hlt. destruct (Hbelow k' Hk' Hlt) as [v' Hv'].
    rewrite <- El in Hv'. apply elem_of_app in Hv' as [Hv' | Hv'].
    + rewrite Forall_forall in Hl'. apply bytes_le_lteq. left. apply (Hl' _ Hv').
    + apply list_elem_of_singleton in Hv'. by simplify_eq.
Qed.

Lemma SeekToLast_below k d i : it_all i = sorted_entries (contents d) ->
  (forall k', is_Some (contents d !! k') -> bytes_lt k' k) ->
  at_greatest_below k d (SeekToLast i).
Proof.
  intros Ha Hi. pose proof (elem_of_snapshot i d Ha) as Hin.
  pose proof (sorted_entries_sorted (contents d)) as Hs. rewrite <- Ha in Hs.
  unfold at_greatest_below.
  destruct (SeekToLast_spec i) as [Hsa Hsp]. rewrite Valid_spec, Hsp.
  destruct (it_all i) as [| e0 l0] eqn:Ei.
  { rewrite bool_decide_false by (by intros []). intros k' [v' Hv'].
    assert ((k', v') ∈ []) as []%not_elem_of_nil by by apply Hin. }
  rewrite bool_decide_true by done. rewrite <- Ei in *.
  destruct (pos_split (SeekToLast i) (pred (length (it_all i))))
    as (l & r & Es & Hlen & Hl & Hr); [by rewrite Hsa | by rewrite Hsp, Ei |].
  rewrite Hsa in Es. assert (r = []) as ->.
  { apply nil_length_inv. apply (f_equal length) in Es. rewrite length_app in Es. cbn in Es. lia. }
  assert (Hj : (it_key (SeekToLast i), it_value (SeekToLast i)) ∈ it_all i)
    by (rewrite Es; set_solver).
  apply Hin in Hj. split_and!; [done | apply Hi; eauto |].
  intros k' [v' Hv'] _. assert ((k', v') ∈ it_all i) as He by by apply Hin.
  rewrite Es in He. apply elem_of_app in He as [He | He].
  - rewrite Forall_forall in Hl. apply bytes_le_lteq. left. apply (Hl _ He).
  - apply list_elem_of_singleton in He. by simplify_eq.
Qed.

Lemma Seek_New_below k d :
  let i := Seek k (NewIterator d) in
  at_greatest_below k d (if Valid i then Prev i else SeekToLast i).
Proof.
  intros i. pose proof (Seek_New_least k d) as Hi. fold i in Hi. cbn zeta in Hi.
  assert (Ha : it_all i = sorted_entries (contents d)).
  { subst i. by rewrite (proj1 (Seek_spec _ _)), New_all. }
  destruct (Valid i) eqn:Ev; [| by apply SeekToLast_below].
  rewrite Valid_spec, bool_decide_eq_true in Ev. destruct Ev as [p Hp].
  destruct Hi as (_ & Hk & Hl). by apply (Prev_below k d i p).
Qed.
End Iterators.

(** * An instance in memory *)

(** The store, the outcomes of the next writes (all succeed once the list is
    used up), and the keys that cannot be read. *)
Module Mem.
Record db := mkdb { store : gmap bytes bytes; writes : list bool; unreadable : list bytes }.
Record iter := mkiter { snapshot : list entry; pos : option nat }.

Definition get (d : db) (k : bytes) : Status * bytes :=
  if decide (k ∈ unreadable d) then (IOError, [])
  else match store d !! k with Some v => (OK, v) | None => (NotFound, []) end.
Definition write (d : db) (b : WriteBatch) : Status * db :=
  match writes d with
  | false :: w => (IOError, mkdb (store d) w (unreadable d))
  | w => (OK, mkdb (apply_batch b (store d)) (tail w) (unreadable d))
  end.
Definition clamp_pos (l : list entry) (p : option nat) : option nat :=
  match p with Some n => if decide (n < length l)%nat then Some n else None | None => None end.
Definition slice_compare (a b : bytes) : Z :=
  match lex a b with Lt => -1 | Eq => 0 | Gt => 1 end.
Definition where_ (i : iter) : option nat := clamp_pos (snapshot i) (pos i).
Definition current (i : iter) : entry :=
  match where_ i with Some p => default ([], []) (snapshot i !! p) | None => ([], []) end.
Definition move (f : option nat -> option nat) (i : iter) : iter :=
  mkiter (snapshot i) (f (where_ i)).

#[global] Instance leveldb : LevelDB := {|
  DB := db; LIter := iter;
  Get := get; Write := write;
  DB_Put := fun d k v => write d [Put k v];
  DB_Delete := fun d k => write d [Delete k];
  NewIterator := fun d => mkiter (sorted_entries (store d)) None;
  Seek := fun k i =>
    move (fun _ => fst <$> list_find (fun e => bytes_le k e.1) (snapshot i)) i;
  SeekToLast := fun i =>
    move (fun _ => match snapshot i with [] => None | _ => Some (pred (length (snapshot i))) end) i;
  Next := move (fmap S);
  Prev := move (fun p => match p with Some (S p') => Some p' | _ => None end);
  Valid := fun i => bool_decide (is_Some (where_ i));
  it_key := fun i => (current i).1;
  it_value := fun i => (current i).2;
  Slice_compare := slice_compare
|}.

Lemma where_lt i p : where_ i = Some p -> (p < length (snapshot i))%nat.
Proof.
  unfold where_, clamp_pos. destruct (pos i); [| done]. case_decide; naive_solver.
Qed.

Lemma where_move f i : where_ (move f i) = clamp_pos (snapshot i) (f (where_ i)).
Proof. done. Qed.

Lemma clamp_lt l p : (p < length l)%nat -> clamp_pos l (Some p) = Some p.
Proof. intros. cbn. by rewrite decide_True. Qed.

Lemma write_spec d b s d' : write d b = (s, d') ->
  store d' = if status_ok s then apply_batch b (store d) else store d.
Proof. unfold write. intros. repeat case_match; by simplify_eq/=. Qed.

Lemma seek_pos k i : where_ (Seek k i) = fst <$> list_find (fun e => bytes_le k e.1) (snapshot i).
Proof.
  cbn [Seek leveldb]. rewrite where_move. destruct (list_find _ _) as [[n x] |] eqn:E; [| done].
  apply list_find_Some in E as (Hn & _). apply clamp_lt. by eapply lookup_lt_Some.
Qed.

Lemma last_pos i : where_ (SeekToLast i) =
  match snapshot i with [] => None | _ => Some (pred (length (snapshot i))) end.
Proof.
  cbn [SeekToLast leveldb]. rewrite where_move. destruct (snapshot i) eqn:E; [done |].
  apply clamp_lt. cbn. lia.
Qed.

Lemma compare_spec a b :
  (slice_compare a b < 0 <-> bytes_lt a b) /\ (0 < slice_compare a b <-> bytes_lt b a).
Proof.
  unfold slice_compare, bytes_lt. rewrite (lex_antisym a b). destruct (lex a b); cbn; naive_solver lia.
Qed.

#[global] Instance leveldb_spec : LevelDBSpec leveldb.
Proof.
  unshelve econstructor.
  - exact store.
  - exact snapshot.
  - exact where_.
  - cbn. unfold get. intros. repeat case_match; by simplify_eq.
  - cbn. unfold get. intros. repeat case_match; by simplify_eq.
  - apply write_spec.
  - intros d k v s d'. apply write_spec.
  - intros d k s d'. apply write_spec.
  - done.
  - done.
  - intros i p Hp. cbn. unfold current. rewrite Hp.
    destruct (lookup_lt_is_Some_2 _ _ (where_lt i p Hp)) as [[k v] ->]. done.
  - split; [done | apply seek_pos].
  - split; [done | apply last_pos].
  - intros i p Hp. split; [done |]. cbn [Next leveldb]. by rewrite where_move, Hp.
  - intros i p Hp. split; [done |]. cbn [Prev leveldb]. rewrite where_move, Hp.
    destruct p as [| p]; [done |]. apply clamp_lt. apply where_lt in Hp. lia.
  - apply compare_spec.
Defined.

(** Stores that read and write without failing, and with given failures. *)
Definition healthy (m : gmap bytes bytes) : @DB leveldb := mkdb m [] [].
Definition flaky (m : gmap bytes bytes) (w : list bool) (u : list bytes) : @DB leveldb :=
  mkdb m w u.
End Mem.
