(* ===== verification/Binlog.v ===== *)
(** [Binlog], [BinlogQueue] and [Transaction] of [ssdb/src/ssdb/binlog.h] and
    [binlog.cpp], with the constants of [const.h]: the log of updates that is
    kept in the same store as the data and written in the same batch. *)
From S2P Require Import Prelude CLib Strings Bytes LevelDB.

(** * Constants *)

Module DataType.
Definition SYNCLOG : char := chr 1.
Definition KV : char := chr 107.
Definition HASH : char := chr 104.
Definition HSIZE : char := chr 72.
Definition ZSET : char := chr 115.
Definition ZSCORE : char := chr 122.
Definition ZSIZE : char := chr 90.
Definition QUEUE : char := chr 113.
Definition QSIZE : char := chr 81.
Definition MIN_PREFIX : char := HASH.
Definition MAX_PREFIX : char := ZSET.
End DataType.

Module BinlogType.
Definition NOOP : char := chr 0.
Definition SYNC : char := chr 1.
Definition MIRROR : char := chr 2.
Definition COPY : char := chr 3.
Definition CTRL : char := chr 4.
End BinlogType.

Module BinlogCommand.
Definition NONE : char := chr 0.
Definition KSET : char := chr 1.
Definition KDEL : char := chr 2.
Definition HSET : char := chr 3.
Definition HDEL : char := chr 4.
Definition ZSET : char := chr 5.
Definition ZDEL : char := chr 6.
Definition QPUSH_BACK : char := chr 10.
Definition QPUSH_FRONT : char := chr 11.
Definition QPOP_BACK : char := chr 12.
Definition QPOP_FRONT : char := chr 13.
Definition QSET : char := chr 14.
Definition BEGIN : char := chr 7.
Definition END : char := chr 8.
End BinlogCommand.

Definition SSDB_SCORE_WIDTH : Z := 9.
Definition SSDB_KEY_LEN_MAX : Z := 255.

(** * Keys of the log *)

Definition encode_seq_key (seq : Z) : bytes := DataType.SYNCLOG :: mem_u64 (big_endian64 seq).

Definition decode_seq_key (key : bytes) : Z :=
  if (zlen key =? 8 + 1) && bool_decide (head key = Some DataType.SYNCLOG) then
    big_endian64 (rd_u64 (zdrop 1 key))
  else 0.

(** * Binlog *)

Module Binlog.
(** The member [buf]. *)
Definition t := bytes.
Definition HEADER_LEN : Z := 8 + 2.

(** The two constructors. *)
Definition empty : t := [].
Definition make (seq : Z) (type cmd : char) (key : bytes) : t :=
  mem_u64 seq ++ [type; cmd] ++ key.

(** The accessors read [buf] without looking at its length. *)
Definition seq (l : t) : exec Z := let* s := mread l 0 8 in Done (rd_u64 s).
Definition type (l : t) : exec char := mget l 8.
Definition cmd (l : t) : exec char := mget l (8 + 1).
Definition key (l : t) : exec bytes := mread l HEADER_LEN (zlen l - HEADER_LEN).
Definition repr (l : t) : bytes := l.
Definition size (l : t) : Z := to_int (zlen l).

(** The three overloads of [load]: the result and the new value. *)
Definition load (s : bytes) (l : t) : Z * t :=
  if zlen s <? HEADER_LEN then (-1, l) else (0, s).

Lemma make_split seq type cmd key : exists s, zlen s = 8 /\ s = mem_u64 seq /\
  make seq type cmd key = s ++ type :: cmd :: key.
Proof. exists (mem_u64 seq). split_and!; [apply zlen_mem_u64 | done | done]. Qed.

Lemma seq_make seq' type cmd key : is_uint64 seq' -> seq (make seq' type cmd key) = Done seq'.
Proof.
  intros Hs. unfold seq, make. rewrite mread_ok by (zl_simp; rewrite ?zlen_mem_u64; zl).
  cbn [ebind]. rewrite zdrop_0, ztake_app' by by rewrite zlen_mem_u64. by rewrite rd_mem_u64.
Qed.
Lemma type_make seq type' cmd key : type (make seq type' cmd key) = Done type'.
Proof. unfold type, make. rewrite <- (zlen_mem_u64 seq). apply mget_app. Qed.
Lemma cmd_make seq type cmd' key : cmd (make seq type cmd' key) = Done cmd'.
Proof.
  unfold cmd, make. change ([type; cmd'] ++ key) with ([type] ++ cmd' :: key).
  rewrite app_assoc. replace (8 + 1) with (zlen (mem_u64 seq ++ [type])); [apply mget_app |].
  rewrite zlen_app, zlen_mem_u64. done.
Qed.
Lemma zlen_make seq type cmd key : zlen (make seq type cmd key) = HEADER_LEN + zlen key.
Proof. unfold make, HEADER_LEN. zl_simp. rewrite zlen_mem_u64. lia. Qed.
Lemma key_make seq type cmd key' : key (make seq type cmd key') = Done key'.
Proof.
  unfold key. rewrite zlen_make. unfold make, HEADER_LEN. pose proof (zlen_nonneg key').
  rewrite mread_ok; [| lia | lia | zl_simp; rewrite zlen_mem_u64; lia].
  rewrite app_assoc, zdrop_app' by (zl_simp; rewrite zlen_mem_u64; done).
  rewrite ztake_all by lia. done.
Qed.
Lemma load_make seq type cmd key l :
  load (make seq type cmd key) l = (0, make seq type cmd key).
Proof.
  unfold load. rewrite zlen_make. pose proof (zlen_nonneg key).
  by rewrite (proj2 (Z.ltb_ge _ _)) by lia.
Qed.

(** What [load] accepts is the representation of exactly one record. *)
Lemma load_ok s l l' : load s l = (0, l') ->
  l' = s /\ exists seq type cmd key, is_uint64 seq /\ s = make seq type cmd key.
Proof.
  unfold load. case_match eqn:Hs; [done |]. intros [= <-]. split; [done |].
  unfold HEADER_LEN in Hs.
  assert (Hp : zlen (ztake 8 s) = 8) by (apply zlen_ztake; lia).
  rewrite <- (ztake_zdrop 8 s). assert (Hd : zlen (zdrop 8 s) = zlen s - 8) by (apply zlen_zdrop; lia).
  destruct (zdrop 8 s) as [| ty [| cm k]]; [zl | zl |].
  exists (le_value (ztake 8 s)), ty, cm, k. split.
  - pose proof (le_value_range (ztake 8 s)) as Hr. rewrite Hp in Hr.
    change (256 ^ 8) with (2 ^ 64) in Hr. zlia.
  - unfold make, mem_u64. replace 8%nat with (length (ztake 8 s)) by (unfold zlen in Hp; lia).
    by rewrite le_bytes_value.
Qed.

(** A log record is read back field by field, through [load] as well, and
    every string [load] accepts is the representation of a record; shorter
    strings are refused and leave the object as it was. *)
Theorem record_roundtrip :
  (forall n ty cm k l, is_uint64 n ->
     seq (make n ty cm k) = Done n /\ type (make n ty cm k) = Done ty /\
     cmd (make n ty cm k) = Done cm /\ key (make n ty cm k) = Done k /\
     load (repr (make n ty cm k)) l = (0, make n ty cm k)) /\
  (forall s l, (zlen s < HEADER_LEN /\ load s l = (-1, l)) \/
     (exists n ty cm k, is_uint64 n /\ s = make n ty cm k /\ load s l = (0, s))).
Proof.
  split.
  - intros n ty cm k l Hn.
    split_and!; [by apply seq_make | apply type_make | apply cmd_make | apply key_make | apply load_make].
  - intros s l. destruct (load s l) as [r l'] eqn:E. pose proof E as E'. unfold load in E.
    case_match eqn:Hs; simplify_eq; [left; split; [lia | done] | right].
    apply load_ok in E' as [_ (n & ty & cm & k & Hn & Hk)]. by exists n, ty, cm, k.
Qed.
End Binlog.

(** * BinlogQueue *)

Section Queue.
Context `{LevelDB}.

(** [db] is the store that [SSDBImpl::ldb] points to as well. *)
Record BinlogQueue := mkQueue {
  db : DB; capacity : Z; last_seq : Z; tran_seq : Z; batch : WriteBatch }.

(** [leveldb::WriteBatch]: later operations override earlier ones. *)
Definition queue_Put (k v : bytes) (q : BinlogQueue) : BinlogQueue :=
  mkQueue (db q) (capacity q) (last_seq q) (tran_seq q) (batch q ++ [Put k v]).
Definition queue_Delete (k : bytes) (q : BinlogQueue) : BinlogQueue :=
  mkQueue (db q) (capacity q) (last_seq q) (tran_seq q) (batch q ++ [Delete k]).

Definition begin (q : BinlogQueue) : BinlogQueue :=
  mkQueue (db q) (capacity q) (last_seq q) (last_seq q) [].

Definition commit (q : BinlogQueue) : Status * BinlogQueue :=
  let '(s, d) := Write (db q) (batch q) in
  if status_ok s then (s, mkQueue d (capacity q) (tran_seq q) 0 (batch q))
  else (s, mkQueue d (capacity q) (last_seq q) (tran_seq q) (batch q)).

Definition rollback (q : BinlogQueue) : BinlogQueue :=
  mkQueue (db q) (capacity q) (last_seq q) 0 (batch q).

Definition add_log (type cmd : char) (key : bytes) (q : BinlogQueue) : BinlogQueue :=
  let tran_seq := to_uint64 (tran_seq q + 1) in
  let log := Binlog.make tran_seq type cmd key in
  queue_Put (encode_seq_key tran_seq) (Binlog.repr log)
    (mkQueue (db q) (capacity q) (last_seq q) tran_seq (batch q)).

(** The result and the record [*log]. *)
Definition find_last (q : BinlogQueue) (log : Binlog.t) : Z * Binlog.t :=
  let it := Seek (encode_seq_key uint64_max) (NewIterator (db q)) in
  let it := if Valid it then Prev it else SeekToLast it in
  if Valid it then
    if negb (decode_seq_key (it_key it) =? 0) then
      let '(r, log) := Binlog.load (it_value it) log in
      if r =? -1 then (-1, log) else (1, log)
    else (0, log)
  else (0, log).

Definition queue_get (q : BinlogQueue) (seq : Z) (log : Binlog.t) : Z * Binlog.t :=
  let '(s, val) := Get (db q) (encode_seq_key seq) in
  if status_ok s then
    let '(r, log) := Binlog.load val log in
    if negb (r =? -1) then (1, log) else (0, log)
  else (0, log).

Definition find_next (q : BinlogQueue) (next_seq : Z) (log : Binlog.t) : Z * Binlog.t :=
  let '(r, log) := queue_get q next_seq log in
  if r =? 1 then (1, log)
  else
    let it := Seek (encode_seq_key next_seq) (NewIterator (db q)) in
    if Valid it then
      if negb (decode_seq_key (it_key it) =? 0) then
        let '(r, log) := Binlog.load (it_value it) log in
        if r =? -1 then (-1, log) else (1, log)
      else (0, log)
    else (0, log).

(** The constructor resumes at the last record. *)
Definition new_queue (d : DB) (capacity : Z) : exec BinlogQueue :=
  let q := mkQueue d capacity 0 0 [] in
  let '(r, log) := find_last q Binlog.empty in
  if r =? 1 then let* n := Binlog.seq log in Done (mkQueue d capacity n 0 []) else Done q.

(** [Transaction]: the mutex is held from the constructor to the destructor, so
    the steps of a transaction are never interleaved with another one. *)
Definition transaction {A} (body : BinlogQueue -> A * BinlogQueue) (q : BinlogQueue)
    : A * BinlogQueue :=
  let '(a, q) := body (begin q) in (a, rollback q).
End Queue.

(** * Order and round trip of log keys *)

Section Keys.
Lemma length_mem_u64 n : length (mem_u64 n) = 8%nat.
Proof. pose proof (zlen_mem_u64 n). unfold zlen in *. lia. Qed.

Lemma encode_seq_key_be n : is_uint64 n ->
  encode_seq_key n = DataType.SYNCLOG :: reverse (mem_u64 n).
Proof. intros Hn. unfold encode_seq_key. by rewrite (proj1 (big_endian64_spec n Hn)). Qed.

Lemma encode_seq_key_lex a b : is_uint64 a -> is_uint64 b ->
  lex (encode_seq_key a) (encode_seq_key b) = (a ?= b).
Proof.
  intros Ha Hb. rewrite !encode_seq_key_be by done. cbn [lex]. rewrite Z.compare_refl.
  apply lex_be_bytes; change (256 ^ Z.of_nat 8) with (2 ^ 64); zlia.
Qed.

Lemma decode_encode_seq_key n : is_uint64 n -> decode_seq_key (encode_seq_key n) = n.
Proof.
  intros Hn. destruct (big_endian64_spec n Hn) as (_ & Hbb & Hb).
  unfold decode_seq_key, encode_seq_key. rewrite zlen_cons, zlen_mem_u64.
  change (zdrop 1 (DataType.SYNCLOG :: mem_u64 (big_endian64 n))) with (mem_u64 (big_endian64 n)).
  rewrite rd_mem_u64 by done. by rewrite bool_decide_true.
Qed.

Lemma encode_seq_key_inj a b : is_uint64 a -> is_uint64 b ->
  encode_seq_key a = encode_seq_key b -> a = b.
Proof.
  intros Ha Hb E. rewrite <- (decode_encode_seq_key a), <- (decode_encode_seq_key b) by done.
  by rewrite E.
Qed.

(** The store orders log keys by sequence number, the key determines the
    number, and no key of another kind decodes to a number. *)
Theorem seq_key_order a b : is_uint64 a -> is_uint64 b ->
  (bytes_lt (encode_seq_key a) (encode_seq_key b) <-> a < b) /\
  (encode_seq_key a = encode_seq_key b <-> a = b) /\
  decode_seq_key (encode_seq_key a) = a /\
  (forall k, head k <> Some DataType.SYNCLOG -> decode_seq_key k = 0).
Proof.
  intros Ha Hb. split_and!.
  - unfold bytes_lt. rewrite encode_seq_key_lex by done. apply Z.compare_lt_iff.
  - split; [by apply encode_seq_key_inj | by intros ->].
  - by apply decode_encode_seq_key.
  - intros k Hk. unfold decode_seq_key. rewrite bool_decide_false by done. by rewrite andb_false_r.
Qed.

Lemma seq_key_order_witness :
  (bytes_lt (encode_seq_key 255) (encode_seq_key 256) <-> 255 < 256) /\
  (encode_seq_key 255 = encode_seq_key 256 <-> 255 = 256) /\
  decode_seq_key (encode_seq_key 255) = 255 /\
  (forall k, head k <> Some DataType.SYNCLOG -> decode_seq_key k = 0).
Proof. apply (seq_key_order 255 256); split; vm_compute; congruence. Defined.
End Keys.

(** * Invariant of the log *)

(** The type, command and key of a log record. *)
Record LogEntry := mkLog { le_type : char; le_cmd : char; le_key : bytes }.
Definition log_value (n : nat) (e : LogEntry) : bytes :=
  Binlog.make (Z.of_nat n) (le_type e) (le_cmd e) (le_key e).
Definition log_key (n : nat) : bytes := encode_seq_key (Z.of_nat n).

(** A key of data: its first byte is above the one of the log. *)
Definition data_key (k : bytes) : Prop := exists c k', k = c :: k' /\ 1 < uchar c.

(** The store holds the records of the history [h], numbered from 1 without a
    gap, and besides them only keys of data. *)
Record log_inv (m : gmap bytes bytes) (h : list LogEntry) : Prop := {
  inv_logs n e : h !! n = Some e -> m !! log_key (S n) = Some (log_value (S n) e);
  inv_keys k v : m !! k = Some v ->
    data_key k \/ exists n e, h !! n = Some e /\ k = log_key (S n);
  inv_fits : Z.of_nat (length h) < uint64_max
}.

Section Inv.
Lemma log_key_uint64 m h n : log_inv m h -> (n <= length h)%nat -> is_uint64 (Z.of_nat n).
Proof. intros [_ _ ?] ?. zlia. Qed.

Lemma log_key_below k n : data_key k -> bytes_lt (encode_seq_key n) k.
Proof.
  intros (c & k' & -> & Hc). unfold bytes_lt, encode_seq_key. cbn [lex].
  change (uchar DataType.SYNCLOG) with 1. by rewrite (proj2 (Z.compare_lt_iff _ _)).
Qed.

Lemma decode_data_key k : data_key k -> decode_seq_key k = 0.
Proof.
  intros (c & k' & -> & Hc). unfold decode_seq_key. rewrite bool_decide_false.
  - by rewrite andb_false_r.
  - cbn. intros [= ->]. change (uchar DataType.SYNCLOG) with 1 in Hc. lia.
Qed.

Lemma data_not_log k n : data_key k -> k <> encode_seq_key n.
Proof. intros H ->. apply (irreflexivity bytes_lt (encode_seq_key n)). by apply log_key_below. Qed.

Lemma log_inv_put m h k v : log_inv m h -> data_key k -> log_inv (<[k := v]> m) h.
Proof.
  intros [H1 H2 H3] Hk. split; [| | done].
  - intros n e He. rewrite lookup_insert_ne; [by apply H1 | by apply data_not_log].
  - intros k' v'. rewrite lookup_insert_Some. intros [[<- _] | [_ ?]]; [by left | by eapply H2].
Qed.

Lemma log_inv_delete m h k : log_inv m h -> data_key k -> log_inv (delete k m) h.
Proof.
  intros [H1 H2 H3] Hk. split; [| | done].
  - intros n e He. rewrite lookup_delete_ne; [by apply H1 | by apply data_not_log].
  - intros k' v'. rewrite lookup_delete_Some. intros [_ ?]. by eapply H2.
Qed.

Lemma log_inv_add m h e : log_inv m h -> Z.of_nat (length h) + 1 < uint64_max ->
  log_inv (<[log_key (S (length h)) := log_value (S (length h)) e]> m) (h ++ [e]).
Proof.
  intros [H1 H2 H3] Hf. split.
  - intros n e'. rewrite lookup_app_Some. intros [Hn | [Hn He]].
    + rewrite lookup_insert_ne; [by apply H1 |]. apply lookup_lt_Some in Hn as Hl.
      intros E. apply encode_seq_key_inj in E; [lia | zlia | zlia].
    + apply list_lookup_singleton_Some in He as [Hn0 ->].
      replace n with (length h) by lia. by rewrite lookup_insert_eq.
  - intros k v. rewrite lookup_insert_Some. intros [[<- _] | [_ Hv]].
    + right. exists (length h), e. by rewrite lookup_app_r, Nat.sub_diag by lia.
    + destruct (H2 k v Hv) as [? | (n & e' & He & ->)]; [by left | right].
      exists n, e'. rewrite lookup_app_l; [done |]. by eapply lookup_lt_Some.
  - rewrite length_app. cbn [length]. zlia.
Qed.

Lemma log_inv_empty : log_inv ∅ [].
Proof. split; [done | by intros k v; rewrite lookup_empty | by vm_compute]. Qed.
End Inv.

(** * The queue *)

Module BinlogSpec.
Section Lemmas.
Context `{LevelDBSpec}.
Implicit Types (q : BinlogQueue) (h : list LogEntry) (m : gmap bytes bytes).

(** The queue agrees with the log in its store. *)
Record queue_inv q h : Prop := {
  q_log : log_inv (contents (db q)) h;
  q_last : last_seq q = Z.of_nat (length h)
}.

(** In the course of a transaction: what is in the store, and what will be
    there after [commit]. *)
Record in_tran q h m' h' : Prop := {
  t_queue : queue_inv q h;
  t_batch : apply_batch (batch q) (contents (db q)) = m';
  t_log : log_inv m' h';
  t_seq : tran_seq q = Z.of_nat (length h')
}.

Lemma apply_batch_snoc b o m : apply_batch (b ++ [o]) m = apply_op (apply_batch b m) o.
Proof. unfold apply_batch. by rewrite foldl_app. Qed.

Lemma begin_spec q h : queue_inv q h -> in_tran (begin q) h (contents (db q)) h.
Proof. intros [Hl Hs]. by split; [split | | |]. Qed.

Lemma queue_Put_spec q h m' h' k v : in_tran q h m' h' -> data_key k ->
  in_tran (queue_Put k v q) h (<[k := v]> m') h'.
Proof.
  intros [[Hl Hs] Hb Hl' Hs'] Hk. split; [by split | | by apply log_inv_put | done].
  cbn [queue_Put queue_Delete batch db]. by rewrite apply_batch_snoc, Hb.
Qed.

Lemma queue_Delete_spec q h m' h' k : in_tran q h m' h' -> data_key k ->
  in_tran (queue_Delete k q) h (delete k m') h'.
Proof.
  intros [[Hl Hs] Hb Hl' Hs'] Hk. split; [by split | | by apply log_inv_delete | done].
  cbn [queue_Put queue_Delete batch db]. by rewrite apply_batch_snoc, Hb.
Qed.

Lemma add_log_spec q h m' h' ty cm k : in_tran q h m' h' ->
  Z.of_nat (length h') + 1 < uint64_max ->
  let e := mkLog ty cm k in
  in_tran (add_log ty cm k q) h
    (<[log_key (S (length h')) := log_value (S (length h')) e]> m') (h' ++ [e]).
Proof.
  intros [[Hl Hs] Hb Hl' Hs'] Hf e.
  assert (to_uint64 (tran_seq q + 1) = Z.of_nat (S (length h'))) as E.
  { rewrite Hs', to_uint64_id by zlia. lia. }
  split; [by split | | by apply log_inv_add |].
  - unfold add_log. rewrite E. cbn [queue_Put batch db]. by rewrite apply_batch_snoc, Hb.
  - unfold add_log. rewrite E. cbn [queue_Put tran_seq]. rewrite length_app. cbn. lia.
Qed.

(** The end of a transaction. *)
Lemma commit_spec q h m' h' : in_tran q h m' h' ->
  exists s q', commit q = (s, q') /\
    if status_ok s then contents (db (rollback q')) = m' /\ queue_inv (rollback q') h'
    else contents (db (rollback q')) = contents (db q) /\ queue_inv (rollback q') h.
Proof.
  intros [[Hl Hs] Hb Hl' Hs']. unfold commit. destruct (Write _ _) as [s d'] eqn:E.
  apply Write_spec in E as Hd. destruct (status_ok s) eqn:Es; eexists s, _; split; try done.
  - cbn. rewrite Es. cbn. rewrite Hd, Hb. split; [done |]. split; cbn; [by rewrite Hd, Hb | done].
  - cbn. rewrite Es. cbn. rewrite Hd. split; [done |]. split; cbn; [by rewrite Hd | done].
Qed.

Lemma rollback_spec q h : queue_inv q h ->
  contents (db (rollback q)) = contents (db q) /\ queue_inv (rollback q) h.
Proof. intros [Hl Hs]. split; [done |]. by split. Qed.

(** Any sequence of puts and deletes of data keys, then of log records. *)
Definition op_key (o : WriteOp) : bytes := match o with Put k _ => k | Delete k => k end.
Definition queue_op q (o : WriteOp) : BinlogQueue :=
  match o with Put k v => queue_Put k v q | Delete k => queue_Delete k q end.
Definition queue_log q (e : LogEntry) : BinlogQueue := add_log (le_type e) (le_cmd e) (le_key e) q.

Lemma queue_ops_spec ops : Forall (fun o => data_key (op_key o)) ops -> forall q h m h',
  in_tran q h m h' -> in_tran (foldl queue_op q ops) h (apply_batch ops m) h'.
Proof.
  induction 1 as [| o ops Ho _ IH]; intros q h m h' Ht; [done |]. cbn [foldl].
  apply (IH _ _ (apply_op m o)). destruct o; [by apply queue_Put_spec | by apply queue_Delete_spec].
Qed.

Lemma queue_logs_spec es : forall q h m h', in_tran q h m h' ->
  Z.of_nat (length h' + length es) < uint64_max ->
  exists m', in_tran (foldl queue_log q es) h m' (h' ++ es) /\
    forall k, data_key k -> m' !! k = m !! k.
Proof.
  induction es as [| [ty cm k0] es IH]; intros q h m h' Ht Hf; cbn [foldl length] in *.
  { exists m. by rewrite app_nil_r. }
  pose proof (add_log_spec q h m h' ty cm k0 Ht ltac:(lia)) as Ht1. cbn zeta in Ht1.
  destruct (IH _ _ _ _ Ht1) as (m' & Ht' & Hm'); [rewrite length_app; cbn; lia |].
  exists m'. rewrite <- app_assoc in Ht'. split; [done |]. intros k Hk. rewrite Hm' by done.
  rewrite lookup_insert_ne; [done |]. by apply not_eq_sym, data_not_log.
Qed.

(** C11: a transaction is atomic: whatever puts and deletes of data keys it does
    and whatever records it logs, after it either the store holds all of them
    and the counter has advanced by the number of records, or the write failed
    and store, log and counter are as before; records are numbered without a
    gap in both cases. *)
Theorem transaction_atomic q h ops es :
  queue_inv q h -> Forall (fun o => data_key (op_key o)) ops ->
  Z.of_nat (length h + length es) < uint64_max ->
  let body := fun q => commit (foldl queue_log (foldl queue_op q ops) es) in
  let '(s, q') := transaction body q in
  if status_ok s then
    queue_inv q' (h ++ es) /\
    forall k, data_key k -> contents (db q') !! k = apply_batch ops (contents (db q)) !! k
  else queue_inv q' h /\ contents (db q') = contents (db q).
Proof.
  intros Hq Hops Hf body. unfold transaction.
  pose proof (queue_ops_spec ops Hops _ _ _ _ (begin_spec q h Hq)) as Ht.
  assert (Hdb : forall es q1, db (foldl queue_log q1 es) = db q1).
  { clear. induction es as [| e es IH]; intros q1; [done |]. cbn [foldl]. by rewrite IH. }
  assert (Hdb' : forall ops q1, db (foldl queue_op q1 ops) = db q1).
  { clear. induction ops as [| o ops IH]; intros q1; [done |]. cbn [foldl]. rewrite IH. by destruct o. }
  destruct (queue_logs_spec es _ _ _ _ Ht Hf) as (m' & Ht' & Hm').
  subst body. cbn beta. destruct (commit_spec _ _ _ _ Ht') as (s & q' & -> & Hc).
  destruct (status_ok s).
  - destruct Hc as [Hc Hq']. split; [done |]. intros k Hk. by rewrite Hc, Hm'.
  - destruct Hc as [Hc Hq']. split; [done |]. by rewrite Hc, Hdb, Hdb'.
Qed.

(** * Searching the log *)

Lemma is_uint64_max : is_uint64 uint64_max.
Proof. zlia. Qed.

Lemma load_log_value n e l : Binlog.load (log_value n e) l = (0, log_value n e).
Proof. apply Binlog.load_make. Qed.

Lemma decode_log_key m h n : log_inv m h -> (n < length h)%nat ->
  (decode_seq_key (log_key (S n)) =? 0) = false.
Proof.
  intros Hi Hn. unfold log_key.
  rewrite decode_encode_seq_key by (eapply log_key_uint64; [done | lia]).
  apply Z.eqb_neq. lia.
Qed.

Lemma log_key_le m h a b : log_inv m h -> (a <= length h)%nat -> (b <= length h)%nat ->
  bytes_le (log_key a) (log_key b) -> (a <= b)%nat.
Proof.
  intros Hi Ha Hb. unfold bytes_le, log_key.
  rewrite encode_seq_key_lex by (eapply log_key_uint64; eauto). rewrite Z.compare_gt_iff. lia.
Qed.

Lemma find_last_spec q h l : log_inv (contents (db q)) h ->
  find_last q l = match last h with
                  | Some e => (1, log_value (length h) e)
                  | None => (0, l)
                  end.
Proof.
  intros Hi. pose proof (Seek_New_below (encode_seq_key uint64_max) (db q)) as Hb.
  unfold find_last. cbn zeta in *. set (it := if Valid _ then _ else _) in *. clearbody it.
  assert (Hlt : forall n, (n <= length h)%nat -> bytes_lt (log_key n) (encode_seq_key uint64_max)).
  { intros n Hn. pose proof (inv_fits _ _ Hi). unfold bytes_lt, log_key.
    rewrite encode_seq_key_lex; [apply Z.compare_lt_iff; lia | | apply is_uint64_max].
    by eapply log_key_uint64. }
  assert (Hlast : forall e, last h = Some e ->
            contents (db q) !! log_key (length h) = Some (log_value (length h) e)).
  { intros e He. rewrite last_lookup in He. destruct h as [| e0 h0]; [done |].
    cbn [length pred] in *. by apply (inv_logs _ _ Hi). }
  unfold at_greatest_below in Hb. destruct (Valid it).
  - destruct Hb as (Hv & Hk & Hg). destruct (inv_keys _ _ Hi _ _ Hv) as [Hd | (n & e & He & Ek)].
    { exfalso. apply (irreflexivity bytes_lt (it_key it)). etrans; [done | by apply log_key_below]. }
    pose proof (lookup_lt_Some _ _ _ He) as Hn.
    rewrite Ek in *. rewrite (decode_log_key _ _ _ Hi Hn). cbn [negb].
    rewrite (inv_logs _ _ Hi _ _ He) in Hv. injection Hv as <-. rewrite load_log_value. cbn [Z.eqb].
    destruct (last h) as [e' |] eqn:El; [| by apply last_None in El as ->].
    assert (S n = length h) as En.
    { apply Nat.le_antisymm; [lia |]. eapply log_key_le; [done | lia | lia |].
      apply Hg; [| by apply Hlt]. rewrite (Hlast e' eq_refl). by eexists. }
    rewrite last_lookup, <- En in El. cbn in El. rewrite <- En. by simplify_eq.
  - destruct (last h) as [e |] eqn:El; [exfalso | done].
    apply (Hb (log_key (length h))); [| by apply Hlt]. rewrite (Hlast e eq_refl). by eexists.
Qed.

(** [find_last] finds the record with the highest number, if there is one,
    although data keys follow the log in the store. *)
Theorem find_last_correct q h l : log_inv (contents (db q)) h ->
  find_last q l = match last h with
                  | Some e => (1, log_value (length h) e)
                  | None => (0, l)
                  end.
Proof. apply find_last_spec. Qed.

(** A record is found under its key, or the read failed; nothing else is. *)
Lemma queue_get_spec q h s l : log_inv (contents (db q)) h -> is_uint64 s ->
  queue_get q s l = (0, l) \/
  exists n e, s = Z.of_nat (S n) /\ h !! n = Some e /\ queue_get q s l = (1, log_value (S n) e).
Proof.
  intros Hi Hs. unfold queue_get. destruct (Get _ _) as [st v] eqn:Eg.
  destruct st; cbn [status_ok]; [right | by left | by left].
  apply Get_OK in Eg. destruct (inv_keys _ _ Hi _ _ Eg) as [Hd | (n & e & He & Ek)].
  { by destruct (data_not_log _ s Hd). }
  pose proof (lookup_lt_Some _ _ _ He) as Hn. exists n, e.
  pose proof (inv_logs _ _ Hi _ _ He) as Hv. rewrite <- Ek in Hv.
  assert (v = log_value (S n) e) as -> by congruence. rewrite load_log_value.
  split_and!; [| done | done]. apply encode_seq_key_inj; [done | | done].
  eapply log_key_uint64; [done | lia].
Qed.

Lemma find_next_spec q h s l : log_inv (contents (db q)) h -> is_uint64 s ->
  find_next q s l = match h !! Z.to_nat (s - 1) with
                    | Some e => (1, log_value (S (Z.to_nat (s - 1))) e)
                    | None => (0, l)
                    end.
Proof.
  intros Hi Hs. unfold find_next.
  destruct (queue_get_spec q h s l Hi Hs) as [-> | (n & e & -> & He & ->)]; cbn [Z.eqb].
  2: { replace (Z.to_nat (Z.of_nat (S n) - 1)) with n by lia. by rewrite He. }
  pose proof (Seek_New_least (encode_seq_key s) (db q)) as Hl. cbn zeta in *.
  set (it := Seek _ _) in *. clearbody it.
  assert (Hat : forall n e, h !! n = Some e -> s <= Z.of_nat (S n) ->
            is_Some (contents (db q) !! log_key (S n)) /\ bytes_le (encode_seq_key s) (log_key (S n))).
  { intros n e He Hn. split; [by rewrite (inv_logs _ _ Hi _ _ He) |].
    unfold bytes_le, log_key. rewrite encode_seq_key_lex; [| done |].
    - rewrite Z.compare_gt_iff. lia.
    - apply lookup_lt_Some in He. eapply log_key_uint64; [done | lia]. }
  destruct (h !! Z.to_nat (s - 1)) as [e |] eqn:Eh.
  - destruct (Hat _ _ Eh ltac:(lia)) as [Hin Hge]. destruct (Valid it).
    2: { exfalso. apply (bytes_not_lt (log_key (S (Z.to_nat (s - 1)))) (encode_seq_key s)); auto. }
    destruct Hl as (Hv & Hk & Hleast). specialize (Hleast _ Hin Hge).
    destruct (inv_keys _ _ Hi _ _ Hv) as [Hd | (n & e' & He & Ek)].
    { exfalso. apply (bytes_not_lt (log_key (S (Z.to_nat (s - 1)))) (it_key it)); [done |].
      by apply log_key_below. }
    pose proof (lookup_lt_Some _ _ _ He) as Hn. apply lookup_lt_Some in Eh as Hs'.
    rewrite Ek in *. rewrite (decode_log_key _ _ _ Hi Hn). cbn [negb].
    rewrite (inv_logs _ _ Hi _ _ He) in Hv. injection Hv as <-. rewrite load_log_value. cbn [Z.eqb].
    assert (n = Z.to_nat (s - 1)) as ->; [| by simplify_eq].
    eapply log_key_le in Hleast; [| done | lia | lia].
    unfold bytes_le, log_key in Hk. rewrite encode_seq_key_lex, Z.compare_gt_iff in Hk;
      [lia | done | eapply log_key_uint64; [done | lia]].
  - apply lookup_ge_None in Eh. destruct (Valid it); [| done]. destruct Hl as (Hv & Hk & Hleast).
    destruct (inv_keys _ _ Hi _ _ Hv) as [Hd | (n & e' & He & Ek)].
    { by rewrite (decode_data_key _ Hd). }
    exfalso. apply lookup_lt_Some in He. rewrite Ek in Hk.
    unfold bytes_le, log_key in Hk. rewrite encode_seq_key_lex, Z.compare_gt_iff in Hk;
      [lia | done | eapply log_key_uint64; [done | lia]].
Qed.

(** [find_next s] returns the record numbered [s] (the first one for 0), and
    0 exactly when there is none, even if the point read of the fast path
    fails: a reader that asks for consecutive numbers sees the whole log. *)
Theorem find_next_correct q h s l : log_inv (contents (db q)) h -> is_uint64 s ->
  find_next q s l = match h !! Z.to_nat (s - 1) with
                    | Some e => (1, log_value (S (Z.to_nat (s - 1))) e)
                    | None => (0, l)
                    end.
Proof. apply find_next_spec. Qed.

Lemma new_queue_spec d h c : log_inv (contents d) h ->
  exists q, new_queue d c = Done q /\ queue_inv q h /\ db q = d.
Proof.
  intros Hi. unfold new_queue. rewrite (find_last_spec _ h) by done. cbn [db].
  destruct (last h) as [e |] eqn:El.
  - cbn [Z.eqb Pos.eqb]. unfold log_value. rewrite Binlog.seq_make.
    + eexists. split; [done |]. split; [by split | done].
    + by eapply log_key_uint64.
  - apply last_None in El as ->. eexists. split; [done |]. split; [by split | done].
Qed.

(** C10: recovery: on a store with the log [h] the constructor resumes exactly
    where the log ends, so that the next record gets the next number. *)
Theorem recovery d h c ty cm k : log_inv (contents d) h ->
  Z.of_nat (length h) + 1 < uint64_max ->
  exists q, new_queue d c = Done q /\ queue_inv q h /\
    let '(s, q') := transaction (fun q => commit (add_log ty cm k q)) q in
    if status_ok s then queue_inv q' (h ++ [mkLog ty cm k]) else queue_inv q' h.
Proof.
  intros Hi Hf. destruct (new_queue_spec d h c Hi) as (q & -> & Hq & _). exists q.
  split; [done |]. split; [done |]. unfold transaction.
  pose proof (add_log_spec _ _ _ _ ty cm k (begin_spec q h Hq) Hf) as Ht.
  destruct (commit_spec _ _ _ _ Ht) as (s & q' & -> & Hc).
  destruct (status_ok s); apply Hc.
Qed.
End Lemmas.
End BinlogSpec.

(** * Instances *)

Module BinlogSamples.
Import BinlogSpec.
Definition e1 : LogEntry := mkLog BinlogType.SYNC BinlogCommand.KSET (lit "ka").
Definition e2 : LogEntry := mkLog BinlogType.SYNC BinlogCommand.KDEL (lit "kb").

(** Two records and a data key. *)
Definition store : gmap bytes bytes :=
  <[log_key 2 := log_value 2 e2]> (<[log_key 1 := log_value 1 e1]> (<[lit "ka" := lit "v"]> ∅)).
Definition queue : BinlogQueue := mkQueue (Mem.healthy store) 10 2 0 [].

Lemma data_ka : data_key (lit "ka").
Proof. by exists (chr 107), [chr 97]. Qed.

Lemma store_inv : log_inv store [e1; e2].
Proof.
  apply (log_inv_add _ [e1] e2); [| by vm_compute].
  apply (log_inv_add _ [] e1); [| by vm_compute].
  apply log_inv_put; [apply log_inv_empty | apply data_ka].
Qed.

Lemma queue_inv_sample : queue_inv queue [e1; e2].
Proof. split; [apply store_inv | done]. Qed.

Lemma transaction_atomic_witness :
  let body := fun q => commit (foldl queue_log (foldl queue_op q [Put (lit "ka") (lit "w")]) [e1]) in
  let '(s, q') := transaction body queue in
  if status_ok s then
    queue_inv q' ([e1; e2] ++ [e1]) /\
    forall k, data_key k -> contents (db q') !! k =
      apply_batch [Put (lit "ka") (lit "w")] (contents (db queue)) !! k
  else queue_inv q' [e1; e2] /\ contents (db q') = contents (db queue).
Proof.
  apply (transaction_atomic queue [e1; e2] [Put (lit "ka") (lit "w")] [e1]);
    [apply queue_inv_sample | repeat constructor; apply data_ka | by vm_compute].
Defined.

Lemma find_last_correct_witness : find_last queue Binlog.empty = (1, log_value 2 e2).
Proof. apply (find_last_correct queue [e1; e2] Binlog.empty). apply store_inv. Defined.

Lemma find_next_correct_witness :
  find_next queue 2 Binlog.empty = (1, log_value 2 e2).
Proof.
  apply (find_next_correct queue [e1; e2] 2 Binlog.empty); [apply store_inv | zlia].
Defined.

Lemma recovery_witness : exists q,
  new_queue (Mem.healthy store) 10 = Done q /\ queue_inv q [e1; e2] /\
  let '(s, q') := transaction (fun q => commit (add_log (chr 1) (chr 1) (lit "kc") q)) q in
  if status_ok s then queue_inv q' [e1; e2; mkLog (chr 1) (chr 1) (lit "kc")]
  else queue_inv q' [e1; e2].
Proof.
  apply (recovery (Mem.healthy store) [e1; e2] 10 (chr 1) (chr 1) (lit "kc"));
    [apply store_inv | by vm_compute].
Defined.
End BinlogSamples.
