(* ===== verification/Iterator.v ===== *)
(** [Iterator] and [KIterator] of [ssdb/src/ssdb/iterator.h] and [iterator.cpp]:
    enumeration of the keys of the store up to a bound and a limit. *)
From S2P Require Import Prelude CLib Bytes LevelDB Binlog.

Inductive Direction := FORWARD | BACKWARD.

(** The key codec of key-value pairs, which [iterator.cpp], [ssdb_impl.cpp] and
    [slave.cpp] each define for themselves. *)
Definition encode_kv_key (key : bytes) : bytes := DataType.KV :: key.
Definition decode_kv_key (slice : bytes) : option bytes :=
  let '(r, d) := Decoder.skip 1 slice in
  if r =? -1 then None
  else let '(r, _, key) := Decoder.read_data d in if r =? -1 then None else Some key.

Section Ops.
Context `{LevelDB}.

Record Iterator := mkIterator {
  it : LIter; end_ : bytes; limit : Z; is_first : bool; direction : Direction }.

Definition new_Iterator (i : LIter) (e : bytes) (l : Z) (d : Direction) : Iterator :=
  mkIterator i e l true d.

Definition iter_key (i : Iterator) : bytes := it_key (it i).
Definition iter_val (i : Iterator) : bytes := it_value (it i).

(** LevelDB allows [Next] and [Prev] on a valid iterator only. *)
Definition iter_next (i : Iterator) : exec (bool * Iterator) :=
  if limit i =? 0 then Done (false, i)
  else
    let* l := (if is_first i then Done (it i)
               else let* _ := guard (Valid (it i)) in
                    Done match direction i with FORWARD => Next (it i) | BACKWARD => Prev (it i) end) in
    let stop := Done (false, mkIterator l (end_ i) 0 false (direction i)) in
    if negb (Valid l) then stop
    else if match direction i with
            | FORWARD => negb (zlen (end_ i) =? 0) && (0 <? Slice_compare (it_key l) (end_ i))
            | BACKWARD => negb (zlen (end_ i) =? 0) && (Slice_compare (it_key l) (end_ i) <? 0)
            end then stop
    else Done (true, mkIterator l (end_ i) (limit i - 1) false (direction i)).

(** [while(offset-- > 0) if(this->next() == false) return false;] *)
Fixpoint iter_skip (offset : nat) (i : Iterator) : exec (bool * Iterator) :=
  match offset with
  | O => Done (true, i)
  | S n => let* (b, i) := iter_next i in if b : bool then iter_skip n i else Done (false, i)
  end.

Record KIterator := mkKIterator { k_it : Iterator; key : bytes; val : bytes; return_val_ : bool }.

Definition new_KIterator (i : Iterator) : KIterator := mkKIterator i [] [] true.
Definition return_val (onoff : bool) (k : KIterator) : KIterator :=
  mkKIterator (k_it k) (key k) (val k) onoff.

Fixpoint knext_loop (fuel : nat) (k : KIterator) : exec (bool * KIterator) :=
  let* (b, i) := iter_next (k_it k) in
  let k := mkKIterator i (key k) (val k) (return_val_ k) in
  if b : bool then
    let ks := iter_key i in
    let vs := iter_val i in
    let* c := mget ks 0 in
    if decide (c <> DataType.KV) then Done (false, k)
    else match decode_kv_key ks with
         | None => match fuel with O => NoFuel | S f => knext_loop f k end
         | Some ky =>
             Done (true, mkKIterator i ky (if return_val_ k then vs else val k) (return_val_ k))
         end
  else Done (false, k).

(** A key whose first byte is [KV] decodes, so the loop never goes round. *)
Definition knext (k : KIterator) : exec (bool * KIterator) := knext_loop 0 k.
End Ops.

Lemma decode_encode_kv_key k : decode_kv_key (encode_kv_key k) = Some k.
Proof.
  unfold decode_kv_key, encode_kv_key, Decoder.skip, Decoder.read_data. pose proof (zlen_nonneg k).
  rewrite zlen_cons, (proj2 (Z.ltb_ge _ _)) by lia. cbn [Z.eqb].
  change (zdrop 1 (?c :: ?s)) with s. change (zdrop 1 (DataType.KV :: k)) with k.
  by rewrite (proj2 (Z.eqb_neq _ _)) by lia.
Qed.

Lemma encode_kv_key_inj k k' : encode_kv_key k = encode_kv_key k' -> k = k'.
Proof. by intros [= ->]. Qed.

Module IteratorSpec.
Section Lemmas.
Context `{LevelDBSpec}.

(** The entries that are left, the bound of the enumeration and its limit
    taken into account. *)
Definition within (e : bytes) (x : entry) : Prop := e = [] \/ bytes_le x.1 e.
#[global] Instance within_dec e x : Decision (within e x) := _.

Definition todo (i : Iterator) : list entry :=
  if is_first i then rest (it i) else tail (rest (it i)).
Definition yield (i : Iterator) : list entry :=
  ztake (limit i) (filter (within (end_ i)) (todo i)).

Record iter_wf (i : Iterator) : Prop := {
  wf_sorted : StronglySorted entry_lt (it_all (it i));
  wf_limit : 0 <= limit i;
  wf_valid : is_first i = false -> limit i <> 0 -> Valid (it i) = true;
  wf_forward : direction i = FORWARD
}.

Lemma drop_sorted l n : StronglySorted entry_lt l -> StronglySorted entry_lt (drop n l).
Proof.
  revert l. induction n as [| n IH]; intros [| e l] Hs; try done. inversion Hs; subst. by apply IH.
Qed.

Lemma rest_sorted i : StronglySorted entry_lt (it_all i) -> StronglySorted entry_lt (rest i).
Proof. unfold rest. intros Hs. destruct (it_pos i); [by apply drop_sorted | constructor]. Qed.

(** Past the bound nothing is left. *)
Lemma filter_within_past e x l : StronglySorted entry_lt (x :: l) -> ~ within e x ->
  filter (within e) (x :: l) = [].
Proof.
  intros Hs Hn. apply filter_none. apply Forall_cons. split; [done |].
  inversion Hs as [| ? ? _ Hf]; subst. eapply Forall_impl; [exact Hf |]. intros y Hy [He | Hle].
  - apply Hn. by left.
  - apply Hn. right. apply bytes_le_lteq. left. by eapply bytes_lt_le_trans.
Qed.

Lemma past_bound i k : 
  (negb (zlen (end_ i) =? 0) && (0 <? Slice_compare k (end_ i))) = false <->
    end_ i = [] \/ bytes_le k (end_ i).
Proof.
  destruct (Slice_compare_spec k (end_ i)) as [_ Hg].
  rewrite andb_false_iff, negb_false_iff, Z.eqb_eq, Z.ltb_ge, <- bytes_not_lt, <- Hg.
  split; (intros [Hx | ?]; [left | right; lia]); [by apply zlen_0 | by rewrite Hx].
Qed.

(** One call: the next entry to yield, if there is one. *)
Lemma iter_next_spec i : iter_wf i -> exists b i', iter_next i = Done (b, i') /\ iter_wf i' /\
  end_ i' = end_ i /\
  match yield i with
  | [] => b = false /\ yield i' = []
  | e :: r => b = true /\ (iter_key i', iter_val i') = e /\ yield i' = r /\ limit i' = limit i - 1
  end.
Proof.
  intros [Hs Hl Hv Hd]. unfold iter_next, yield, todo.
  destruct (Z.eqb_spec (limit i) 0) as [H0 | H0].
  { rewrite H0. cbn. eexists _, _. split; [done |]. split; [by split |]. rewrite H0. done. }
  assert (exists l, (if is_first i then Done (it i)
               else let* _ := guard (Valid (it i)) in
                    Done match direction i with FORWARD => Next (it i) | BACKWARD => Prev (it i) end)
            = Done l /\ it_all l = it_all (it i) /\
            (if is_first i then rest (it i) else tail (rest (it i))) = rest l) as (l & -> & Ha & Hr).
  { destruct (is_first i); [by exists (it i) |]. rewrite Hv, Hd by done.
    exists (Next (it i)). by rewrite Next_all, Next_rest by auto. }
  cbn [ebind]. rewrite Hr. rewrite <- Ha in Hs. pose proof (rest_sorted l Hs) as Hrs.
  destruct (Valid l) eqn:Ev; cbn [negb].
  2: { apply Valid_false in Ev. rewrite Ev. unfold ztake. cbn [filter list_filter]. rewrite take_nil.
       eexists _, _. split; [done |]. split_and!; done || by split. }
  rewrite (Valid_cons l Ev) in Hrs |- *. rewrite Hd.
  destruct (negb (zlen (end_ i) =? 0) && _) eqn:Hb.
  - rewrite filter_within_past; [| done |].
    2: { cbn. intros Hw. apply not_false_iff_true in Hb. apply Hb, past_bound, Hw. }
    unfold ztake at 1. rewrite take_nil. eexists _, _. split; [done |]. split_and!; done || by split.
  - apply past_bound in Hb. rewrite filter_cons_True by done.
    assert (exists n, Z.to_nat (limit i) = S n /\ Z.to_nat (limit i - 1) = n) as (n & En & En')
      by (exists (Z.to_nat (limit i - 1)); lia).
    unfold ztake at 1. rewrite En. cbn [firstn]. eexists _, _. split; [done |]. split_and!; try done.
    + split; cbn; [done | lia | done | done].
    + cbn [limit end_ is_first it]. unfold ztake. rewrite En'. done.
Qed.

(** The entries seen by [n] rounds of [while(it->next())]. *)
Fixpoint drain (n : nat) (i : Iterator) : exec (list entry) :=
  match n with
  | O => Done []
  | S n => let* (b, i) := iter_next i in
           if b : bool then let* l := drain n i in Done ((iter_key i, iter_val i) :: l) else Done []
  end.

Lemma drain_spec n : forall i, iter_wf i -> drain n i = Done (take n (yield i)).
Proof.
  induction n as [| n IH]; intros i Hi; [done |]. cbn [drain].
  destruct (iter_next_spec i Hi) as (b & i' & -> & Hi' & _ & Hy). cbn [ebind].
  destruct (yield i) as [| e r]; [by destruct Hy as [-> _] |].
  destruct Hy as (-> & He & Hr & _). rewrite (IH i' Hi'), He, Hr. done.
Qed.

Lemma new_Iterator_wf k d e l : 0 <= l -> iter_wf (new_Iterator (Seek k (NewIterator d)) e l FORWARD).
Proof.
  intros Hl. split; try done. cbn. rewrite (proj1 (Seek_spec _ _)), New_all. apply sorted_entries_sorted.
Qed.

(** [skip(n)] passes over [n] entries, or all of them. *)
Lemma iter_skip_spec n : forall i, iter_wf i -> exists b i', iter_skip n i = Done (b, i') /\
  iter_wf i' /\ yield i' = drop n (yield i) /\ (b = true <-> (n <= length (yield i))%nat).
Proof.
  induction n as [| n IH]; intros i Hi; cbn [iter_skip].
  { eexists _, _. split_and!; try done. split; [lia | done]. }
  destruct (iter_next_spec i Hi) as (b & i1 & -> & Hi1 & _ & Hy). cbn [ebind].
  destruct (yield i) as [| e r].
  - destruct Hy as [-> Hy]. eexists _, _. split_and!; try done. split; [done | cbn; lia].
  - destruct Hy as (-> & _ & Hr & _). destruct (IH i1 Hi1) as (b & i2 & -> & Hi2 & Hd & Hb).
    eexists _, _. split_and!; try done; rewrite Hr in *; [done |]. rewrite Hb. cbn. lia.
Qed.

(** C17: an enumeration yields, in key order, exactly the entries of the store
    from the start key up to the bound (no bound when it is empty), at most
    [limit] of them; [skip] passes over as many as asked; [Next] is never called
    on an iterator that is not valid. *)
Theorem enumeration k d e l n m : 0 <= l ->
  let i := new_Iterator (Seek k (NewIterator d)) e l FORWARD in
  exists b i', iter_skip n i = Done (b, i') /\
    drain m i' = Done (take m (drop n (ztake l
      (filter (within e) (filter (fun x => bytes_le k x.1) (sorted_entries (contents d))))))).
Proof.
  intros Hl i. destruct (iter_skip_spec n i) as (b & i' & -> & Hi' & Hy & _); [by apply new_Iterator_wf |].
  exists b, i'. split; [done |]. rewrite drain_spec, Hy by done.
  unfold yield, todo. cbn [limit end_ is_first it i new_Iterator]. by rewrite Seek_New_rest.
Qed.

(** What [KIterator::next] does with the next entry. *)
Lemma knext_spec k : iter_wf (k_it k) -> Forall (fun x => x.1 <> []) (yield (k_it k)) ->
  exists b k', knext k = Done (b, k') /\ iter_wf (k_it k') /\ return_val_ k' = return_val_ k /\
    match yield (k_it k) with
    | (c :: ky, v) :: r =>
        yield (k_it k') = r /\
        (if decide (c = DataType.KV) then b = true /\ key k' = ky /\
               (return_val_ k = true -> val k' = v)
         else b = false)
    | _ => b = false /\ yield (k_it k') = []
    end.
Proof.
  intros Hi Hne. unfold knext. cbn [knext_loop].
  destruct (iter_next_spec _ Hi) as (b & i' & -> & Hi' & _ & Hy). cbn [ebind].
  destruct (yield (k_it k)) as [| [ks vs] r].
  { destruct Hy as [-> Hy]. eexists _, _. split; [done |]. done. }
  destruct Hy as (-> & He & Hr & _). injection He as -> ->.
  apply Forall_cons in Hne as [Hk _]. destruct ks as [| c ky]; [done |].
  cbn [mget ebind]. change (mget (c :: ky) 0) with (Done c). cbn [ebind].
  destruct (decide (c = DataType.KV)) as [-> | Hc].
  - rewrite decide_False by auto.
    change (DataType.KV :: ky) with (encode_kv_key ky). rewrite decode_encode_kv_key.
    eexists _, _. split; [done |]. split_and!; try done. by intros ->.
  - rewrite decide_True by done. eexists _, _. by split_and!.
Qed.

(** The pairs of [n] rounds of [while(kit->next())]. *)
Fixpoint kdrain (n : nat) (k : KIterator) : exec (list entry) :=
  match n with
  | O => Done []
  | S n => let* (b, k) := knext k in
           if b : bool then let* l := kdrain n k in Done ((key k, val k) :: l) else Done []
  end.

(** The pairs of the leading entries that are key-value entries. *)
Fixpoint kv_prefix (l : list entry) : list entry :=
  match l with
  | (c :: ky, v) :: r => if decide (c = DataType.KV) then (ky, v) :: kv_prefix r else []
  | _ => []
  end.

Lemma kdrain_spec n : forall k, iter_wf (k_it k) -> return_val_ k = true ->
  Forall (fun x => x.1 <> []) (yield (k_it k)) ->
  kdrain n k = Done (take n (kv_prefix (yield (k_it k)))).
Proof.
  induction n as [| n IH]; intros k Hi Hv Hne; [done |]. cbn [kdrain].
  destruct (knext_spec k Hi Hne) as (b & k' & -> & Hi' & Hv' & Hy). cbn [ebind].
  destruct (yield (k_it k)) as [| [[| c ky] v] r]; try by destruct Hy as [-> _].
  destruct Hy as [Hr Hy]. cbn [kv_prefix]. case_decide as Hc; [| by subst b].
  destruct Hy as (-> & -> & Hval). rewrite Hval by done.
  apply Forall_cons in Hne as [_ Hne]. rewrite IH, Hr; [done | done | congruence | by rewrite Hr].
Qed.

(** Over a store without the empty key, [KIterator] returns the pairs of
    the leading key-value entries with their decoded keys, and stops at the
    first entry of another kind; its loop never goes round a second time. *)
Theorem kv_enumeration k d e l n : 0 <= l -> contents d !! ([] : bytes) = None ->
  let i := new_Iterator (Seek k (NewIterator d)) e l FORWARD in
  kdrain n (new_KIterator i) = Done (take n (kv_prefix (ztake l
    (filter (within e) (filter (fun x => bytes_le k x.1) (sorted_entries (contents d))))))).
Proof.
  intros Hl Hne i. pose proof (new_Iterator_wf k d e l Hl) as Hi. fold i in Hi.
  assert (yield i = ztake l (filter (within e)
    (filter (fun x => bytes_le k x.1) (sorted_entries (contents d))))) as Ey.
  { unfold yield, todo. cbn [limit end_ is_first it i new_Iterator]. by rewrite Seek_New_rest. }
  rewrite kdrain_spec; [by rewrite <- Ey | done | done |]. cbn [k_it new_KIterator].
  rewrite Ey. unfold ztake. apply Forall_take, Forall_forall. intros [x v] Hx Hn. cbn in Hn. subst x.
  apply list_elem_of_filter in Hx as [_ Hx]. apply list_elem_of_filter in Hx as [_ Hx].
  apply elem_of_sorted_entries in Hx. cbn in Hx. congruence.
Qed.
End Lemmas.
End IteratorSpec.

Module IteratorSamples.
Import IteratorSpec BinlogSamples.

Lemma enumeration_witness :
  let i := new_Iterator (Seek (lit "a") (NewIterator (Mem.healthy store))) [] 5 FORWARD in
  exists b i', iter_skip 0 i = Done (b, i') /\
    drain 5 i' = Done (take 5 (drop 0 (ztake 5 (filter (within [])
      (filter (fun x => bytes_le (lit "a") x.1)
        (sorted_entries (contents (Mem.healthy store)))))))).
Proof. apply (enumeration (lit "a") (Mem.healthy store) [] 5 0 5). lia. Defined.

Lemma kv_enumeration_witness :
  let i := new_Iterator (Seek (lit "a") (NewIterator (Mem.healthy store))) [] 5 FORWARD in
  kdrain 3 (new_KIterator i) = Done (take 3 (kv_prefix (ztake 5 (filter (within [])
      (filter (fun x => bytes_le (lit "a") x.1)
        (sorted_entries (contents (Mem.healthy store)))))))).
Proof.
  apply (kv_enumeration (lit "a") (Mem.healthy store) [] 5 3); [lia | by vm_compute].
Defined.
End IteratorSamples.
