(* ===== verification/SSDB.v ===== *)
(** [SSDBImpl] of [ssdb/src/ssdb/ssdb_impl.h] and [ssdb_impl.cpp]: key-value pairs
    and hashes over the store, every update in one transaction with its log
    record. *)
From S2P Require Import Prelude CLib Strings Bytes LevelDB Binlog Iterator.
Import BinlogSpec.

(** * Keys *)

Definition encode_hsize_key (name : bytes) : bytes := DataType.HSIZE :: name.

Definition decode_hsize_key (slice : bytes) : option bytes :=
  let '(r, d) := Decoder.skip 1 slice in
  if r =? -1 then None
  else let '(r, _, name) := Decoder.read_data d in if r =? -1 then None else Some name.

(** The length of the name is cast to [uint8_t]. *)
Definition encode_hash_key (name key : bytes) : bytes :=
  DataType.HASH :: chr (zlen name) :: name ++ chr 61 :: key.

Definition decode_hash_key (slice : bytes) : option (bytes * bytes) :=
  let '(r, d) := Decoder.skip 1 slice in
  if r =? -1 then None
  else match Decoder.read_8_data d with
       | (_, d, Some name) =>
           let '(r, d) := Decoder.skip 1 d in
           if r =? -1 then None
           else let '(r, _, key) := Decoder.read_data d in
                if r =? -1 then None else Some (name, key)
       | (_, _, None) => None
       end.

(** * Operations *)

Section Ops.
Context `{LevelDB}.

(** [ldb] and the [db] of [binlogs] are the same store. *)
Record SSDBImpl := mkSSDB { binlogs : BinlogQueue }.
Definition ldb (s : SSDBImpl) : DB := db (binlogs s).
Definition set_ldb (d : DB) (s : SSDBImpl) : SSDBImpl :=
  let q := binlogs s in mkSSDB (mkQueue d (capacity q) (last_seq q) (tran_seq q) (batch q)).
Definition on_binlogs (f : BinlogQueue -> BinlogQueue) (s : SSDBImpl) : SSDBImpl :=
  mkSSDB (f (binlogs s)).
Definition do_commit (s : SSDBImpl) : Status * SSDBImpl :=
  let '(st, q) := commit (binlogs s) in (st, mkSSDB q).

(** [SSDB::open] on the store that [DB::Open] returns ([None] when it fails). *)
Definition ssdb_open (opened : option DB) : exec (option SSDBImpl) :=
  match opened with
  | None => Done None
  | Some d => let* q := new_queue d 20000000 in Done (Some (mkSSDB q))
  end.

Definition ssdb_set (key val : bytes) (s : SSDBImpl) : Z * SSDBImpl :=
  if Bytes.empty key then (0, s)
  else
    let s := on_binlogs begin s in
    let buf := encode_kv_key key in
    let s := on_binlogs (queue_Put buf val) s in
    let s := on_binlogs (add_log BinlogType.SYNC BinlogCommand.KSET buf) s in
    let '(st, s) := do_commit s in
    let s := on_binlogs rollback s in
    (if status_ok st then 1 else -1, s).

Definition ssdb_del (key : bytes) (s : SSDBImpl) : Z * SSDBImpl :=
  let s := on_binlogs begin s in
  let buf := encode_kv_key key in
  let s := on_binlogs (queue_Delete buf) s in
  let s := on_binlogs (add_log BinlogType.SYNC BinlogCommand.KDEL buf) s in
  let '(st, s) := do_commit s in
  let s := on_binlogs rollback s in
  (if status_ok st then 1 else -1, s).

(** A read: the result and [*val], assigned on success only. *)
Definition read (s : SSDBImpl) (k val : bytes) : Z * bytes :=
  let '(st, v) := Get (ldb s) k in
  if IsNotFound st then (0, val)
  else if negb (status_ok st) then (-1, val)
  else (1, v).

Definition ssdb_get (s : SSDBImpl) (key val : bytes) : Z * bytes := read s (encode_kv_key key) val.

Definition ssdb_hget (s : SSDBImpl) (name key val : bytes) : Z * bytes :=
  read s (encode_hash_key name key) val.

Definition ssdb_hsize (s : SSDBImpl) (name : bytes) : Z :=
  let '(st, val) := Get (ldb s) (encode_hsize_key name) in
  if IsNotFound st then 0
  else if negb (status_ok st) then -1
  else if negb (zlen val =? 8) then 0
  else let ret := rd_i64 val in if ret <? 0 then 0 else ret.

Definition incr_hsize (s : SSDBImpl) (name : bytes) (incr : Z) : exec (Z * SSDBImpl) :=
  let* size := ck_int64 (ssdb_hsize s name + incr) in
  let size_key := encode_hsize_key name in
  Done (0, if size =? 0 then on_binlogs (queue_Delete size_key) s
           else on_binlogs (queue_Put size_key (mem_u64 size)) s).

(** The number of newly added fields. *)
Definition hset_one (s : SSDBImpl) (name key val : bytes) (log_type : char) : Z * SSDBImpl :=
  if Bytes.empty name || Bytes.empty key then (-1, s)
  else if SSDB_KEY_LEN_MAX <? zlen name then (-1, s)
  else if SSDB_KEY_LEN_MAX <? zlen key then (-1, s)
  else
    let '(r, dbval) := ssdb_hget s name key [] in
    let hkey := encode_hash_key name key in
    let write s := on_binlogs (add_log log_type BinlogCommand.HSET hkey)
                     (on_binlogs (queue_Put hkey val) s) in
    if r =? 0 then (1, write s)
    else (0, if Bytes.neb dbval val then write s else s).

Definition hdel_one (s : SSDBImpl) (name key : bytes) (log_type : char) : Z * SSDBImpl :=
  if SSDB_KEY_LEN_MAX <? zlen name then (-1, s)
  else if SSDB_KEY_LEN_MAX <? zlen key then (-1, s)
  else
    let '(r, _) := ssdb_hget s name key [] in
    if r =? 0 then (0, s)
    else
      let hkey := encode_hash_key name key in
      (1, on_binlogs (add_log log_type BinlogCommand.HDEL hkey) (on_binlogs (queue_Delete hkey) s)).

Definition ssdb_hset (name key val : bytes) (log_type : char) (s : SSDBImpl)
    : exec (Z * SSDBImpl) :=
  let s := on_binlogs begin s in
  let '(ret, s) := hset_one s name key val log_type in
  if 0 <=? ret then
    let* (r, s) := (if 0 <? ret then incr_hsize s name ret else Done (0, s)) in
    if r =? -1 then Done (-1, on_binlogs rollback s)
    else
      let '(st, s) := do_commit s in
      let s := on_binlogs rollback s in
      Done (if status_ok st then ret else -1, s)
  else Done (ret, on_binlogs rollback s).

(** Raw access. *)
Definition raw_set (key val : bytes) (s : SSDBImpl) : Z * SSDBImpl :=
  let '(st, d) := DB_Put (ldb s) key val in
  (if negb (status_ok st) then -1 else 1, set_ldb d s).
Definition raw_del (key : bytes) (s : SSDBImpl) : Z * SSDBImpl :=
  let '(st, d) := DB_Delete (ldb s) key in
  (if negb (status_ok st) then -1 else 1, set_ldb d s).
Definition raw_get (s : SSDBImpl) (key val : bytes) : Z * bytes := read s key val.

Definition ssdb_iterator (s : SSDBImpl) (start e : bytes) (limit : Z) : Iterator :=
  let i := Seek start (NewIterator (ldb s)) in
  let i := if Valid i && bool_decide (it_key i = start) then Next i else i in
  new_Iterator i e limit FORWARD.
End Ops.

(** * Specification *)

(** What the operations promise: a map of pairs, a map of the fields of the
    hashes, and the history of the log. *)
Record Spec := mkSpec {
  kv : gmap bytes bytes;
  hash : gmap (bytes * bytes) bytes;
  history : list LogEntry
}.

(** The number of fields of a hash. *)
Definition of_name (n : bytes) (x : (bytes * bytes) * bytes) : Prop := x.1.1 = n.
#[global] Instance of_name_dec n x : Decision (of_name n x) :=
  decide (x.1.1 = n).
Definition hash_size (h : gmap (bytes * bytes) bytes) (n : bytes) : Z :=
  Z.of_nat (size (filter (of_name n) h)).

Definition valid_part (s : bytes) : Prop := s <> [] /\ zlen s <= SSDB_KEY_LEN_MAX.
Definition valid_field (n k : bytes) : Prop := valid_part n /\ valid_part k.

Definition spec_set (key val : bytes) (a : Spec) : Spec :=
  mkSpec (<[key := val]> (kv a)) (hash a)
    (history a ++ [mkLog BinlogType.SYNC BinlogCommand.KSET (encode_kv_key key)]).
Definition spec_del (key : bytes) (a : Spec) : Spec :=
  mkSpec (delete key (kv a)) (hash a)
    (history a ++ [mkLog BinlogType.SYNC BinlogCommand.KDEL (encode_kv_key key)]).
(** A field that already has the value is not logged. *)
Definition spec_hset (n k v : bytes) (ty : char) (a : Spec) : Spec :=
  if decide (hash a !! (n, k) = Some v) then a
  else mkSpec (kv a) (<[(n, k) := v]> (hash a))
         (history a ++ [mkLog ty BinlogCommand.HSET (encode_hash_key n k)]).

(** The value stored under a size key. *)
Definition size_entry (z : Z) : option bytes := if z =? 0 then None else Some (mem_u64 z).

(** The store represents the specification: every key a reader can form has the
    value of the specification, whatever the length of names. *)
Record represents (m : gmap bytes bytes) (a : Spec) : Prop := {
  r_log : log_inv m (history a);
  r_kv k : m !! encode_kv_key k = kv a !! k;
  r_hash n k : m !! encode_hash_key n k = hash a !! (n, k);
  r_size n : m !! encode_hsize_key n = size_entry (hash_size (hash a) n);
  r_valid n k v : hash a !! (n, k) = Some v -> valid_field n k
}.

Module SSDBSpec.
(** ** Keys *)
Section Keys.
Lemma data_kv k : data_key (encode_kv_key k).
Proof. by exists DataType.KV, k. Qed.
Lemma data_hash n k : data_key (encode_hash_key n k).
Proof. by eexists DataType.HASH, _. Qed.
Lemma data_hsize n : data_key (encode_hsize_key n).
Proof. by exists DataType.HSIZE, n. Qed.

(** A key of a valid field is formed from no other name and key, even of any
    length. *)
Lemma encode_hash_key_inj n k n' k' : valid_field n k ->
  encode_hash_key n' k' = encode_hash_key n k -> n' = n /\ k' = k.
Proof.
  intros [[Hn0 Hn] [Hk0 Hk]] E. unfold encode_hash_key, SSDB_KEY_LEN_MAX in *.
  injection E as Ec E. apply (f_equal uchar) in Ec. rewrite !uchar_chr in Ec.
  rewrite (Z.mod_small (zlen n)) in Ec by zl.
  pose proof (f_equal zlen E) as El. rewrite !zlen_app, !zlen_cons in El.
  assert (zlen n' = zlen n) as Hl.
  { pose proof (Z.div_mod (zlen n') 256). pose proof (zlen_nonneg n'). pose proof (zlen_nonneg k').
    assert (0 <= zlen n' / 256) by (apply Z.div_pos; lia). nia. }
  apply app_inj_1 in E as [-> E]; [| unfold zlen in Hl; lia]. split; [done | congruence].
Qed.

Lemma decode_encode_hash_key n k : zlen n <= SSDB_KEY_LEN_MAX ->
  decode_hash_key (encode_hash_key n k) = Some (n, k).
Proof.
  unfold SSDB_KEY_LEN_MAX. intros Hn. unfold decode_hash_key, encode_hash_key, Decoder.skip.
  rewrite (proj2 (Z.ltb_ge _ _)) by zl. cbn [Z.eqb].
  change (zdrop 1 (DataType.HASH :: chr (zlen n) :: n ++ chr 61 :: k))
    with (chr (zlen n) :: n ++ chr 61 :: k).
  cbn [Decoder.read_8_data]. rewrite uchar_chr, Z.mod_small by zl.
  rewrite (proj2 (Z.ltb_ge _ _)) by zl. rewrite ztake_app, zdrop_app.
  rewrite (proj2 (Z.ltb_ge _ _)) by zl. cbn [Z.eqb].
  change (zdrop 1 (chr 61 :: k)) with k. unfold Decoder.read_data.
  by rewrite (proj2 (Z.eqb_neq _ _)) by zl.
Qed.

Lemma decode_encode_hsize_key n : decode_hsize_key (encode_hsize_key n) = Some n.
Proof.
  unfold decode_hsize_key, encode_hsize_key, Decoder.skip.
  rewrite (proj2 (Z.ltb_ge _ _)) by zl. cbn [Z.eqb].
  change (zdrop 1 (DataType.HSIZE :: n)) with n. unfold Decoder.read_data.
  by rewrite (proj2 (Z.eqb_neq _ _)) by zl.
Qed.

(** C35: the three families of keys never collide with each other or with a key of
    the log, and none of them reads as a log key: it decodes to the sequence number
    0.  Keys of pairs and of sizes decode to what they encode, for any name; keys of
    fields do for names of at most 255 bytes, since the length of the name is kept
    in one byte; and a stored field (a valid name and key) is reached from exactly
    one name and key: no longer name aliases it. *)
Theorem key_codecs n k :
  decode_kv_key (encode_kv_key k) = Some k /\ decode_hsize_key (encode_hsize_key n) = Some n /\
  (zlen n <= 255 -> decode_hash_key (encode_hash_key n k) = Some (n, k)) /\
  (forall n' k', encode_kv_key k' <> encode_hash_key n k /\
     encode_kv_key k' <> encode_hsize_key n /\ encode_hash_key n k <> encode_hsize_key n') /\
  (forall key, key = encode_kv_key k \/ key = encode_hash_key n k \/ key = encode_hsize_key n ->
     decode_seq_key key = 0 /\ forall s, key <> encode_seq_key s) /\
  (valid_field n k -> forall n' k', encode_hash_key n' k' = encode_hash_key n k <->
     n' = n /\ k' = k).
Proof.
  split_and!; [apply decode_encode_kv_key | apply decode_encode_hsize_key
    | apply decode_encode_hash_key | intros n' k'; by split_and! | |].
  - intros key Hkey. assert (data_key key) as Hd
      by (destruct Hkey as [-> | [-> | ->]]; [apply data_kv | apply data_hash | apply data_hsize]).
    split; [by apply decode_data_key |]. intros s. by apply data_not_log.
  - intros Hv n' k'. split; [by apply encode_hash_key_inj | by intros [-> ->]].
Qed.
End Keys.

(** ** Steps on the representation *)
Section Steps.
Implicit Types (m : gmap bytes bytes) (a : Spec).

(** A log record leaves the data as it is. *)
Lemma lookup_log m n v k : data_key k -> <[log_key n := v]> m !! k = m !! k.
Proof. intros Hk. apply lookup_insert_ne, not_eq_sym, data_not_log, Hk. Qed.

Lemma represents_log m a m' e : represents m a ->
  log_inv m' (history a ++ [e]) -> (forall k, data_key k -> m' !! k = m !! k) ->
  represents m' (mkSpec (kv a) (hash a) (history a ++ [e])).
Proof.
  intros [Hl Hk Hh Hs Hv] Hl' Hd. split; cbn; try done; intros;
    rewrite Hd by (apply data_kv || apply data_hash || apply data_hsize); auto.
Qed.

Lemma represents_set m a k v : represents m a ->
  represents (<[encode_kv_key k := v]> m) (mkSpec (<[k := v]> (kv a)) (hash a) (history a)).
Proof.
  intros [Hl Hk Hh Hs Hv]. split; cbn; [| | | | done].
  - apply log_inv_put; [done | apply data_kv].
  - intros k'. destruct (decide (k = k')) as [-> | Hne]; [by rewrite !lookup_insert_eq |].
    rewrite !lookup_insert_ne; [done.. |]. by intros ?%encode_kv_key_inj.
  - intros n k'. by rewrite lookup_insert_ne.
  - intros n. by rewrite lookup_insert_ne.
Qed.

Lemma represents_del m a k : represents m a ->
  represents (delete (encode_kv_key k) m) (mkSpec (delete k (kv a)) (hash a) (history a)).
Proof.
  intros [Hl Hk Hh Hs Hv]. split; cbn; [| | | | done].
  - apply log_inv_delete; [done | apply data_kv].
  - intros k'. destruct (decide (k = k')) as [-> | Hne]; [by rewrite !lookup_delete_eq |].
    rewrite !lookup_delete_ne; [done.. |]. by intros ?%encode_kv_key_inj.
  - intros n k'. by rewrite lookup_delete_ne.
  - intros n. by rewrite lookup_delete_ne.
Qed.

Lemma hash_size_insert h n k v n' :
  hash_size (<[(n, k) := v]> h) n' =
    hash_size h n' + (if decide (n' = n /\ h !! (n, k) = None) then 1 else 0).
Proof.
  unfold hash_size. destruct (decide (n' = n)) as [-> | Hne].
  - rewrite map_filter_insert_True by done. destruct (h !! (n, k)) as [v0 |] eqn:E.
    + rewrite decide_False by naive_solver. rewrite map_size_insert_Some with (x := v); [lia |].
      exists v0. by apply map_lookup_filter_Some_2.
    + rewrite decide_True by done. rewrite map_size_insert_None; [lia |].
      apply map_lookup_filter_None_2. by left.
  - rewrite decide_False by naive_solver. rewrite map_filter_insert_False by (intros E; by apply Hne).
    rewrite map_filter_delete, delete_id; [lia |].
    apply map_lookup_filter_None_2. right. intros x _ E. by apply Hne.
Qed.

Lemma lookup_hset m (h : gmap (bytes * bytes) bytes) n k v n' k' : (forall n k, m !! encode_hash_key n k = h !! (n, k)) ->
  valid_field n k ->
  <[encode_hash_key n k := v]> m !! encode_hash_key n' k' = <[(n, k) := v]> h !! (n', k').
Proof.
  intros Hh Hf. destruct (decide ((n, k) = (n', k'))) as [[= -> ->] | Hne].
  - by rewrite !lookup_insert_eq.
  - rewrite !lookup_insert_ne; [done.. |]. intros E. apply Hne.
    symmetry in E. apply encode_hash_key_inj in E as [-> ->]; done.
Qed.

(** The field written, and the size key with it when the field is new. *)
Lemma represents_hset m a n k v : represents m a -> valid_field n k ->
  let m1 := <[encode_hash_key n k := v]> m in
  let z := hash_size (hash a) n + 1 in
  represents (match hash a !! (n, k) with
              | None => <[encode_hsize_key n := mem_u64 z]> m1
              | Some _ => m1
              end) (mkSpec (kv a) (<[(n, k) := v]> (hash a)) (history a)).
Proof.
  intros [Hl Hk Hh Hs Hv] Hf m1 z.
  assert (Hh1 : forall n' k', m1 !! encode_hash_key n' k' = <[(n, k) := v]> (hash a) !! (n', k'))
    by (intros; by apply lookup_hset).
  assert (Hl1 : log_inv m1 (history a)) by (apply log_inv_put; [done | apply data_hash]).
  assert (Hv1 : forall n' k' v', <[(n, k) := v]> (hash a) !! (n', k') = Some v' -> valid_field n' k').
  { intros n' k' v'. rewrite lookup_insert_Some. intros [[[= <- <-] _] | [_ ?]]; [done | by eapply Hv]. }
  assert (0 <= hash_size (hash a) n) by (unfold hash_size; lia).
  destruct (hash a !! (n, k)) as [v0 |] eqn:E; split; cbn; try done.
  - intros k'. subst m1. by rewrite lookup_insert_ne.
  - intros n'. subst m1. rewrite lookup_insert_ne by done. rewrite Hs, hash_size_insert.
    rewrite decide_False by naive_solver. by rewrite Z.add_0_r.
  - apply log_inv_put; [done | apply data_hsize].
  - intros k'. subst m1. by rewrite !lookup_insert_ne.
  - intros n' k'. by rewrite lookup_insert_ne.
  - intros n'. rewrite hash_size_insert. destruct (decide (n = n')) as [<- | Hne].
    + rewrite lookup_insert_eq, decide_True by done. fold z. unfold size_entry.
      by rewrite (proj2 (Z.eqb_neq z 0)) by lia.
    + rewrite lookup_insert_ne by (intros [= ?]; by apply Hne). subst m1.
      rewrite lookup_insert_ne by done. rewrite decide_False by naive_solver.
      by rewrite Z.add_0_r.
Qed.
End Steps.

(** ** Refinement *)
Section Refinement.
Context `{LevelDBSpec}.
Implicit Types (s : SSDBImpl) (a : Spec).

Record rep s a : Prop := {
  rep_store : represents (contents (ldb s)) a;
  rep_queue : queue_inv (binlogs s) (history a)
}.

(** There is room for one more log record. *)
Definition room a : Prop := Z.of_nat (length (history a)) + 1 < uint64_max.

(** The end of every update. *)
Lemma commit_rep s a q m' a' : rep s a -> in_tran q (history a) m' (history a') ->
  represents m' a' -> contents (db q) = contents (ldb s) ->
  exists st s', do_commit (mkSSDB q) = (st, s') /\
    rep (on_binlogs rollback s') (if status_ok st then a' else a).
Proof.
  intros [Hrep Hq] Ht Hr' Hdb. destruct (commit_spec _ _ _ _ Ht) as (st & q' & Hc & Hs).
  unfold do_commit. cbn [binlogs]. rewrite Hc. eexists _, _. split; [done |].
  destruct (status_ok st); destruct Hs as [Hs Hq']; split; try done;
    unfold ldb in *; cbn [binlogs on_binlogs]; rewrite Hs; [done | by rewrite Hdb].
Qed.

Lemma set_spec key val s a : rep s a -> room a ->
  let '(r, s') := ssdb_set key val s in
  (key = [] /\ r = 0 /\ s' = s) \/
  (key <> [] /\ r = 1 /\ rep s' (spec_set key val a)) \/
  (key <> [] /\ r = -1 /\ rep s' a).
Proof.
  intros Hrep Hroom. unfold ssdb_set, Bytes.empty, Bytes.size.
  destruct (Z.eqb_spec (zlen key) 0) as [Hk | Hk]; [left; by apply zlen_0 in Hk |].
  assert (key <> []) as Hk' by by intros ->.
  pose proof (begin_spec _ _ (rep_queue _ _ Hrep)) as Ht.
  pose proof (queue_Put_spec _ _ _ _ (encode_kv_key key) val Ht (data_kv key)) as Ht1.
  pose proof (add_log_spec _ _ _ _ BinlogType.SYNC BinlogCommand.KSET (encode_kv_key key)
                Ht1 Hroom) as Ht2. cbn zeta in Ht2.
  destruct (commit_rep s a _ _ (spec_set key val a) Hrep Ht2) as (st & s' & Hc & Hr').
  { apply (represents_log _ _ _ _ (represents_set _ _ key val (rep_store _ _ Hrep)));
      [apply Ht2 |].
    intros. by apply lookup_log. }
  { done. }
  unfold on_binlogs in Hc |- *. cbn [binlogs] in Hc |- *. rewrite Hc. unfold on_binlogs in Hr'.
  right. destruct (status_ok st); [by left | by right].
Qed.

Lemma del_spec key s a : rep s a -> room a ->
  let '(r, s') := ssdb_del key s in
  (r = 1 /\ rep s' (spec_del key a)) \/ (r = -1 /\ rep s' a).
Proof.
  intros Hrep Hroom. unfold ssdb_del.
  pose proof (begin_spec _ _ (rep_queue _ _ Hrep)) as Ht.
  pose proof (queue_Delete_spec _ _ _ _ (encode_kv_key key) Ht (data_kv key)) as Ht1.
  pose proof (add_log_spec _ _ _ _ BinlogType.SYNC BinlogCommand.KDEL (encode_kv_key key)
                Ht1 Hroom) as Ht2. cbn zeta in Ht2.
  destruct (commit_rep s a _ _ (spec_del key a) Hrep Ht2) as (st & s' & Hc & Hr').
  { apply (represents_log _ _ _ _ (represents_del _ _ key (rep_store _ _ Hrep)));
      [apply Ht2 |].
    intros. by apply lookup_log. }
  { done. }
  unfold on_binlogs in Hc |- *. cbn [binlogs] in Hc |- *. rewrite Hc. unfold on_binlogs in Hr'.
  destruct (status_ok st); [by left | by right].
Qed.

(** A read of a key, unless the engine fails. *)
Definition read_as (r : Z * bytes) (o : option bytes) (val : bytes) : Prop :=
  match o with
  | Some v => r = (1, v)
  | None => r = (0, val)
  end \/ r = (-1, val).

Lemma read_spec s k val : read_as (read s k val) (contents (ldb s) !! k) val.
Proof.
  unfold read, read_as. destruct (Get (ldb s) k) as [st v] eqn:E.
  destruct st; cbn; [left; by rewrite (Get_OK _ _ _ E) | left; by rewrite (Get_NotFound _ _ _ E) |
                     by right].
Qed.

Lemma get_spec s a key val : rep s a -> read_as (ssdb_get s key val) (kv a !! key) val.
Proof. intros [Hr _]. unfold ssdb_get. rewrite <- (r_kv _ _ Hr). apply read_spec. Qed.

Lemma hget_spec s a n k val : rep s a -> read_as (ssdb_hget s n k val) (hash a !! (n, k)) val.
Proof. intros [Hr _]. unfold ssdb_hget. rewrite <- (r_hash _ _ Hr). apply read_spec. Qed.

(** The sizes fit the eight bytes they are stored in. *)
Definition sizes_fit a : Prop := forall n, hash_size (hash a) n < int64_max.

Lemma hash_size_nonneg hs n : 0 <= hash_size hs n.
Proof. unfold hash_size. lia. Qed.

Lemma hsize_spec s a n : rep s a -> sizes_fit a ->
  ssdb_hsize s n = hash_size (hash a) n \/ ((Get (ldb s) (encode_hsize_key n)).1 = IOError /\
                                             ssdb_hsize s n = -1).
Proof.
  intros [Hr _] Hfit. unfold ssdb_hsize. pose proof (r_size _ _ Hr n) as Hs.
  specialize (Hfit n). pose proof (hash_size_nonneg (hash a) n).
  destruct (Get _ _) as [st v] eqn:E. destruct st; cbn; [| | by right]; left.
  - rewrite (Get_OK _ _ _ E) in Hs. unfold size_entry in Hs.
    destruct (Z.eqb_spec (hash_size (hash a) n) 0); [done |]. injection Hs as ->.
    rewrite zlen_mem_u64. cbn [Z.eqb Pos.eqb negb].
    rewrite rd_mem_i64 by zlia. by rewrite (proj2 (Z.ltb_ge _ _)).
  - rewrite (Get_NotFound _ _ _ E) in Hs. unfold size_entry in Hs.
    by destruct (Z.eqb_spec (hash_size (hash a) n) 0).
Qed.

Definition readable s k : Prop := (Get (ldb s) k).1 <> IOError.

Lemma read_readable s k val : readable s k ->
  read s k val = match contents (ldb s) !! k with Some v => (1, v) | None => (0, val) end.
Proof.
  unfold readable, read. destruct (Get (ldb s) k) as [st v] eqn:E. cbn. intros Hn.
  destruct st; cbn; [by rewrite (Get_OK _ _ _ E) | by rewrite (Get_NotFound _ _ _ E) | done].
Qed.

Lemma lookup_insert_log (m : gmap bytes bytes) k0 x n v k : data_key k ->
  <[k0 := x]> (<[log_key n := v]> m) !! k = <[k0 := x]> m !! k.
Proof.
  intros Hk. destruct (decide (k0 = k)) as [-> | Hne]; [by rewrite !lookup_insert_eq |].
  rewrite !(lookup_insert_ne _ k0) by done. by apply lookup_log.
Qed.

(** The argument checks of [hset_one]. *)
Lemma hset_one_valid s n k v ty : valid_field n k ->
  hset_one s n k v ty =
    (let '(r, dbval) := ssdb_hget s n k [] in
     let hkey := encode_hash_key n k in
     let write s := on_binlogs (add_log ty BinlogCommand.HSET hkey)
                      (on_binlogs (queue_Put hkey v) s) in
     if r =? 0 then (1, write s) else (0, if Bytes.neb dbval v then write s else s)).
Proof.
  intros [[Hn Hn'] [Hk Hk']]. unfold hset_one, Bytes.empty, Bytes.size.
  assert (zlen n <> 0) by by intros ?%zlen_0. assert (zlen k <> 0) by by intros ?%zlen_0.
  rewrite (proj2 (Z.eqb_neq (zlen n) 0)), (proj2 (Z.eqb_neq (zlen k) 0)) by done.
  by rewrite !(proj2 (Z.ltb_ge _ _)).
Qed.

Lemma hset_one_invalid s n k v ty : ~ valid_field n k -> hset_one s n k v ty = (-1, s).
Proof.
  intros Hi. unfold hset_one, Bytes.empty, Bytes.size.
  destruct (Z.eqb_spec (zlen n) 0) as [| Hn]; [done |].
  destruct (Z.eqb_spec (zlen k) 0) as [| Hk]; [done |]. cbn [orb].
  destruct (Z.ltb_spec SSDB_KEY_LEN_MAX (zlen n)); [done |].
  destruct (Z.ltb_spec SSDB_KEY_LEN_MAX (zlen k)); [done |].
  exfalso. apply Hi. split; split; try done; by intros ->.
Qed.

Lemma rep_begin_rollback s a : rep s a -> rep (on_binlogs rollback (on_binlogs begin s)) a.
Proof. intros [Hr [Hl Hs]]. by split. Qed.

Lemma neb_spec x y : Bytes.neb x y = negb (bool_decide (x = y)).
Proof.
  unfold Bytes.neb. f_equal. destruct (Bytes.eqb x y) eqn:E; symmetry.
  - by apply bool_decide_eq_true, Bytes.eqb_eq.
  - apply bool_decide_eq_false. intros ?%Bytes.eqb_eq. congruence.
Qed.

(** Put the field and log it, inside the transaction. *)
Lemma hset_write s a n k v ty : rep s a -> room a ->
  in_tran (binlogs (on_binlogs (add_log ty BinlogCommand.HSET (encode_hash_key n k))
             (on_binlogs (queue_Put (encode_hash_key n k) v) (on_binlogs begin s))))
    (history a)
    (<[log_key (S (length (history a))) :=
        log_value (S (length (history a))) (mkLog ty BinlogCommand.HSET (encode_hash_key n k))]>
      (<[encode_hash_key n k := v]> (contents (ldb s))))
    (history a ++ [mkLog ty BinlogCommand.HSET (encode_hash_key n k)]).
Proof.
  intros Hrep Hroom. apply add_log_spec; [| done].
  apply queue_Put_spec; [| apply data_hash]. apply begin_spec, (rep_queue _ _ Hrep).
Qed.

(** 1 for a new field, 0 for one that was there. *)
Definition hset_result a n k : Z := match hash a !! (n, k) with Some _ => 0 | None => 1 end.

Lemma hset_spec n k v ty s a : rep s a -> room a -> sizes_fit a ->
  readable s (encode_hash_key n k) -> readable s (encode_hsize_key n) ->
  exists r s', ssdb_hset n k v ty s = Done (r, s') /\
    ((r = -1 /\ rep s' a) \/
     (valid_field n k /\ r = hset_result a n k /\ rep s' (spec_hset n k v ty a))).
Proof.
  intros Hrep Hroom Hfit Hr1 Hr2. unfold ssdb_hset.
  destruct (decide (valid_field n k)) as [Hv | Hv].
  2: { rewrite hset_one_invalid by done. cbn. eexists _, _. split; [done |].
       left. split; [done | by apply rep_begin_rollback]. }
  rewrite hset_one_valid by done. unfold ssdb_hget.
  change (read (on_binlogs begin s)) with (read s). rewrite read_readable by done.
  pose proof (rep_store _ _ Hrep) as Hst. rewrite (r_hash _ _ Hst).
  pose proof (hset_write s a n k v ty Hrep Hroom) as Ht.
  pose proof (represents_hset _ _ n k v Hst Hv) as Hh. cbn zeta in Hh.
  unfold spec_hset, hset_result.
  destruct (hash a !! (n, k)) as [v0 |] eqn:Eh; cbn [Z.eqb Z.leb Z.ltb Z.compare].
  - rewrite neb_spec. destruct (decide (v0 = v)) as [-> | Hne].
    + rewrite bool_decide_true, decide_True by done. cbn [negb ebind Z.eqb].
      destruct (commit_rep s a _ _ a Hrep (begin_spec _ _ (rep_queue _ _ Hrep)) Hst eq_refl)
        as (st & s' & Hc & Hrep'). unfold on_binlogs at 1. rewrite Hc.
      eexists _, _. split; [done |]. destruct (status_ok st); [by right | by left].
    + rewrite bool_decide_false, decide_False by congruence. cbn [negb ebind Z.eqb].
      match type of Ht with in_tran _ _ _ ?h => set (h' := h) in * end.
      edestruct (commit_rep s a _ _ (mkSpec (kv a) (<[(n, k) := v]> (hash a)) h') Hrep Ht)
        as (st & s' & Hc & Hrep').
      { apply (represents_log _ _ _ _ Hh); [apply Ht | intros; by apply lookup_log]. }
      { done. }
      match goal with |- context [do_commit ?x] =>
        change x with (mkSSDB (binlogs x)) end. rewrite Hc.
      eexists _, _. split; [done |]. destruct (status_ok st); [by right | by left].
  - rewrite decide_False by done. unfold incr_hsize.
    match goal with |- context [ssdb_hsize ?x n] =>
      change (ssdb_hsize x n) with (ssdb_hsize s n) end.
    destruct (hsize_spec s a n Hrep Hfit) as [-> | [Hio _]]; [| done].
    pose proof (hash_size_nonneg (hash a) n). specialize (Hfit n).
    rewrite ck_int64_ok by zlia. cbn [ebind].
    rewrite (proj2 (Z.eqb_neq (hash_size (hash a) n + 1) 0)) by lia. cbn [Z.eqb].
    pose proof (queue_Put_spec _ _ _ _ (encode_hsize_key n)
      (mem_u64 (hash_size (hash a) n + 1)) Ht (data_hsize n)) as Ht2.
    match type of Ht2 with in_tran _ _ _ ?h => set (h' := h) in * end.
    edestruct (commit_rep s a _ _ (mkSpec (kv a) (<[(n, k) := v]> (hash a)) h') Hrep Ht2)
      as (st & s' & Hc & Hrep').
    { apply (represents_log _ _ _ _ Hh); [apply Ht2 | intros; by apply lookup_insert_log]. }
    { done. }
    match goal with |- context [do_commit ?x] =>
      change x with (mkSSDB (binlogs x)) end. cbn [binlogs on_binlogs] in Hc |- *. rewrite Hc.
    eexists _, _. split; [done |]. destruct (status_ok st); [by right | by left].
Qed.

(** A store that refuses some batch, as it is. *)
Definition refusing (d : DB) : Prop := exists b, status_ok (Write d b).1 = false.

Lemma commit_refusing s s0 st s' : do_commit s = (st, s') -> ldb s = ldb s0 ->
  status_ok st = false -> refusing (ldb s0).
Proof.
  unfold do_commit, commit, ldb. intros E Es Hst. rewrite <- Es. exists (batch (binlogs s)).
  destruct (Write _ _) as [w d]. cbn [fst]. destruct (status_ok w) eqn:Ew; [| done].
  injection E as <- _. congruence.
Qed.

(** An update that is refused although its arguments are valid was refused by the engine. *)
Lemma set_refusing k v s s' : ssdb_set k v s = (-1, s') -> refusing (ldb s).
Proof.
  unfold ssdb_set. intros E. case_match; [done |]. destruct (do_commit _) as [st s1] eqn:Ec.
  eapply commit_refusing; [exact Ec | done |]. by destruct (status_ok st).
Qed.

Lemma del_refusing k s s' : ssdb_del k s = (-1, s') -> refusing (ldb s).
Proof.
  unfold ssdb_del. intros E. destruct (do_commit _) as [st s1] eqn:Ec.
  eapply commit_refusing; [exact Ec | done |]. by destruct (status_ok st).
Qed.

Lemma hset_one_ldb s n k v ty : ldb (hset_one s n k v ty).2 = ldb s.
Proof. unfold hset_one. repeat case_match; done. Qed.

Lemma hset_refusing n k v ty s s' : valid_field n k -> ssdb_hset n k v ty s = Done (-1, s') ->
  refusing (ldb s).
Proof.
  intros Hv E. unfold ssdb_hset in E. pose proof (hset_one_ldb (on_binlogs begin s) n k v ty) as Hl.
  rewrite hset_one_valid in Hl, E by done. destruct (ssdb_hget _ _ _ _) as [r1 dbval].
  destruct (r1 =? 0); cbn [Z.leb Z.ltb Z.compare] in E.
  - unfold incr_hsize in E. destruct (ck_int64 _) as [z | |]; [| done..]. cbn [ebind Z.eqb] in E.
    destruct (do_commit _) as [st s2] eqn:Ec. eapply commit_refusing; [exact Ec | by destruct (z =? 0) |].
    by destruct (status_ok st); simplify_eq/=.
  - cbn [ebind Z.eqb] in E. destruct (do_commit _) as [st s2] eqn:Ec.
    eapply commit_refusing; [exact Ec | by destruct (Bytes.neb dbval v) |].
    by destruct (status_ok st); simplify_eq/=.
Qed.

(** Opening a store that represents [a]. *)
Lemma open_spec d a : represents (contents d) a ->
  exists s, ssdb_open (Some d) = Done (Some s) /\ rep s a /\ ldb s = d.
Proof.
  intros Hr. destruct (new_queue_spec d (history a) 20000000 (r_log _ _ Hr)) as (q & E & Hq & Hd).
  unfold ssdb_open. rewrite E. eexists. split; [done |]. split; [| done].
  split; [| done]. unfold ldb. cbn. by rewrite Hd.
Qed.

(** Closing the store and opening it again, in a new process, loses
    nothing: the opened object represents the same pairs, hashes, sizes and log,
    and goes on numbering where the log ends. *)
Theorem reopen s a : rep s a ->
  exists s', ssdb_open (Some (ldb s)) = Done (Some s') /\ rep s' a.
Proof. intros [Hr _]. destruct (open_spec _ _ Hr) as (s' & -> & Hs' & _). eauto. Qed.
End Refinement.

(** ** Runs *)

Inductive Op :=
  | OpSet (k v : bytes) | OpDel (k : bytes) | OpGet (k : bytes)
  | OpHset (n k v : bytes) (ty : char) | OpHget (n k : bytes) | OpHsize (n : bytes).
Inductive Res := RInt (z : Z) | RVal (r : Z * bytes).

Section Runs.
Context `{LevelDBSpec}.
Implicit Types (s : SSDBImpl) (a : Spec).

Definition step (o : Op) s : exec (Res * SSDBImpl) :=
  match o with
  | OpSet k v => let '(r, s) := ssdb_set k v s in Done (RInt r, s)
  | OpDel k => let '(r, s) := ssdb_del k s in Done (RInt r, s)
  | OpGet k => Done (RVal (ssdb_get s k []), s)
  | OpHset n k v ty => let* (r, s) := ssdb_hset n k v ty s in Done (RInt r, s)
  | OpHget n k => Done (RVal (ssdb_hget s n k []), s)
  | OpHsize n => Done (RInt (ssdb_hsize s n), s)
  end.

Fixpoint run (os : list Op) s : exec (list Res * SSDBImpl) :=
  match os with
  | [] => Done ([], s)
  | o :: os => let* (r, s) := step o s in let* (rs, s) := run os s in Done (r :: rs, s)
  end.

(** The outcomes the specification allows: reads return the current value; an update
    with invalid arguments is refused; any other happens entirely, or, if the engine
    may refuse a write ([R]), fails and changes nothing. *)
Definition found (o : option bytes) : Res :=
  RVal match o with Some v => (1, v) | None => (0, []) end.
Definition refused (R : Prop) (r : Res) a a' : Prop := R /\ r = RInt (-1) /\ a' = a.
Definition spec_step (R : Prop) (o : Op) (r : Res) a a' : Prop :=
  match o with
  | OpSet k v => if decide (k = []) then r = RInt 0 /\ a' = a
                 else (r = RInt 1 /\ a' = spec_set k v a) \/ refused R r a a'
  | OpDel k => (r = RInt 1 /\ a' = spec_del k a) \/ refused R r a a'
  | OpHset n k v ty =>
      if decide (valid_field n k) then
        (r = RInt (hset_result a n k) /\ a' = spec_hset n k v ty a) \/ refused R r a a'
      else r = RInt (-1) /\ a' = a
  | OpGet k => r = found (kv a !! k) /\ a' = a
  | OpHget n k => r = found (hash a !! (n, k)) /\ a' = a
  | OpHsize n => r = RInt (hash_size (hash a) n) /\ a' = a
  end.
Inductive spec_run (R : Prop) : Spec -> list Op -> list Res -> Spec -> Prop :=
  | run_nil a : spec_run R a [] [] a
  | run_cons a o r a1 os rs a2 :
      spec_step R o r a a1 -> spec_run R a1 os rs a2 -> spec_run R a (o :: os) (r :: rs) a2.

(** What an operation may leave. *)
Lemma spec_step_cases R o r a a' : spec_step R o r a a' ->
  a' = a \/
  match o with
  | OpSet k v => k <> [] /\ a' = spec_set k v a
  | OpDel k => a' = spec_del k a
  | OpHset n k v ty => valid_field n k /\ a' = spec_hset n k v ty a
  | _ => False
  end.
Proof.
  unfold refused. destruct o as [k v | | | n k v ty | |]; cbn [spec_step].
  - destruct (decide (k = [])); [intros [_ ->] | intros [[_ ->] | (_ & _ & ->)]]; auto.
  - intros [[_ ->] | (_ & _ & ->)]; auto.
  - intros [_ ->]; auto.
  - destruct (decide (valid_field n k)); [intros [[_ ->] | (_ & _ & ->)] | intros [_ ->]]; auto.
  - intros [_ ->]; auto.
  - intros [_ ->]; auto.
Qed.

(** A set of stores on which reads do not fail, closed under writing. *)
Variable good : DB -> Prop.
Hypothesis good_read : forall d k, good d -> (Get d k).1 <> IOError.
Hypothesis good_write : forall d b st d', good d -> Write d b = (st, d') -> good d'.

(** One of these stores refuses a write. *)
Definition may_refuse : Prop := exists d, good d /\ refusing d.

(** Every field is in the log, so a bound on the log bounds the sizes. *)
Definition bounded (n : Z) a : Prop :=
  Z.of_nat (length (history a)) <= n /\ forall nm, hash_size (hash a) nm <= n.

Lemma bounded_room n a : bounded n a -> n < 2 ^ 62 -> room a /\ sizes_fit a.
Proof.
  intros [Hl Hs] Hn. split; [unfold room; zlia |]. intros nm. specialize (Hs nm). zlia.
Qed.

Lemma spec_step_bounded R n o r a a' : bounded n a -> spec_step R o r a a' -> bounded (n + 1) a'.
Proof.
  intros [Hl Hs] Hst. assert (bounded (n + 1) a) as Hb.
  { split; [lia | intros nm; specialize (Hs nm); lia]. }
  assert (forall b e, hash b = hash a -> history b = history a ++ [e] -> bounded (n + 1) b) as Hlog.
  { intros b e Eh El. split; [rewrite El, length_app; cbn; lia |].
    intros nm. rewrite Eh. specialize (Hs nm). lia. }
  apply spec_step_cases in Hst as [-> | Hst]; [done |]. destruct o; try done.
  - destruct Hst as [_ ->]. by eapply Hlog.
  - subst a'. by eapply Hlog.
  - destruct Hst as [_ ->]. unfold spec_hset. case_decide; [done |].
    split; [cbn; rewrite length_app; cbn; lia |]. intros nm. cbn.
    rewrite hash_size_insert. specialize (Hs nm). case_decide; lia.
Qed.

Lemma commit_good s st s' : good (ldb s) -> do_commit s = (st, s') -> good (ldb s').
Proof.
  unfold do_commit, commit, ldb. intros Hg. destruct (Write _ _) as [w d] eqn:E.
  apply good_write in E; [| done]. destruct (status_ok w); intros [= <- <-]; done.
Qed.

Lemma set_good k v s : good (ldb s) -> good (ldb (ssdb_set k v s).2).
Proof.
  unfold ssdb_set. intros Hg. case_match; [done |].
  destruct (do_commit _) as [st s1] eqn:E. by apply commit_good in E.
Qed.

Lemma del_good k s : good (ldb s) -> good (ldb (ssdb_del k s).2).
Proof.
  unfold ssdb_del. intros Hg.
  destruct (do_commit _) as [st s1] eqn:E. by apply commit_good in E.
Qed.

Lemma hset_good n k v ty s r s' : good (ldb s) ->
  ssdb_hset n k v ty s = Done (r, s') -> good (ldb s').
Proof.
  unfold ssdb_hset. intros Hg. pose proof (hset_one_ldb (on_binlogs begin s) n k v ty) as Hl.
  destruct (hset_one _ _ _ _ _) as [ret s1]. cbn in Hl.
  assert (good (ldb s1)) as Hg1 by by rewrite Hl.
  case_match; [| by intros [= <- <-]].
  set (m := if 0 <? ret then _ else _).
  assert (forall r2 s2, m = Done (r2, s2) -> ldb s2 = ldb s1) as Hm.
  { subst m. intros r2 s2. case_match; [| by intros [= <- <-]].
    unfold incr_hsize. destruct (ck_int64 _); [| done..]. cbn. intros [= <- <-]. by case_match. }
  destruct m as [[r2 s2] | |]; [| done..]. cbn [ebind]. specialize (Hm r2 s2 eq_refl).
  case_match; [intros [= <- <-]; cbn; unfold ldb in *; cbn; by rewrite Hm |].
  destruct (do_commit _) as [st s3] eqn:E. intros [= <- <-].
  apply commit_good in E; [done |]. by rewrite Hm.
Qed.

Lemma step_spec o s a : rep s a -> room a -> sizes_fit a -> good (ldb s) ->
  exists r s' a', step o s = Done (r, s') /\ spec_step may_refuse o r a a' /\ rep s' a' /\ good (ldb s').
Proof.
  intros Hrep Hroom Hfit Hg.
  assert (forall k, readable s k) as Hread by (intros k; by apply good_read).
  assert (refusing (ldb s) -> may_refuse) as HR by by exists (ldb s).
  destruct o as [k v | k | k | n k v ty | n k | n]; cbn [step spec_step].
  - pose proof (set_spec k v s a Hrep Hroom) as Hs. pose proof (set_good k v s Hg) as Hg'.
    destruct (ssdb_set k v s) as [r s'] eqn:E. cbn in Hg'.
    destruct Hs as [(-> & -> & ->) | [(Hk & -> & Hr) | (Hk & -> & Hr)]]; eexists _, _, _;
      (split; [done |]); (split; [| done]); [done | rewrite decide_False by done..]; [by left |].
    right. split; [| done]. by eapply HR, set_refusing.
  - pose proof (del_spec k s a Hrep Hroom) as Hs. pose proof (del_good k s Hg) as Hg'.
    destruct (ssdb_del k s) as [r s'] eqn:E. cbn in Hg'.
    destruct Hs as [[-> ?] | [-> ?]]; eexists _, _, _; (split; [done |]); (split; [| done]); [by left |].
    right. split; [| done]. by eapply HR, del_refusing.
  - eexists _, _, a. split; [done |]. split; [| done]. split; [| done]. unfold found, ssdb_get.
    rewrite read_readable by done. by rewrite (r_kv _ _ (rep_store _ _ Hrep)).
  - destruct (hset_spec n k v ty s a Hrep Hroom Hfit (Hread _) (Hread _)) as (r & s' & E & Hs).
    pose proof (hset_good _ _ _ _ _ _ _ Hg E) as Hg'. rewrite E.
    destruct (decide (valid_field n k)) as [Hv | Hv].
    + destruct Hs as [[-> ?] | (_ & -> & ?)]; eexists _, _, _; (split; [done |]); (split; [| done]); [| by left].
      right. split; [| done]. by eapply HR, hset_refusing.
    + destruct Hs as [[-> ?] | (? & _)]; [| done]. by eexists _, _, _.
  - eexists _, _, a. split; [done |]. split; [| done]. split; [| done]. unfold found, ssdb_hget.
    rewrite read_readable by done. by rewrite (r_hash _ _ (rep_store _ _ Hrep)).
  - eexists _, _, a. split; [done |]. split; [| done]. split; [| done].
    destruct (hsize_spec s a n Hrep Hfit) as [-> | [Hio _]]; [done | by apply Hread in Hio].
Qed.

Lemma run_spec os : forall s a n, rep s a -> bounded n a -> n + zlen os < 2 ^ 62 -> good (ldb s) ->
  exists rs s' a', run os s = Done (rs, s') /\ spec_run may_refuse a os rs a' /\ rep s' a'.
Proof.
  induction os as [| o os IH]; intros s a n Hrep Hb Hn Hg; cbn [run].
  { eexists _, _, _. split; [done |]. split; [constructor | done]. }
  destruct (bounded_room n a Hb ltac:(zl)) as [Hroom Hfit].
  destruct (step_spec o s a Hrep Hroom Hfit Hg) as (r & s1 & a1 & -> & Hst & Hrep1 & Hg1).
  cbn [ebind]. destruct (IH s1 a1 (n + 1) Hrep1) as (rs & s2 & a2 & -> & Hrun & Hrep2);
    [by eapply spec_step_bounded | zl | done |].
  cbn [ebind]. eexists _, _, _. split; [done |]. split; [by econstructor | done].
Qed.

End Runs.

(** ** Growth of the store *)
Section Growth.
Context `{LevelDBSpec}.
Implicit Types (s : SSDBImpl) (m : gmap bytes bytes).

Definition entries s : nat := size (contents (ldb s)).
Definition ops s : nat := length (batch (binlogs s)).

Lemma size_apply_op o m : (size (apply_op m o) <= S (size m))%nat.
Proof.
  destruct o as [k v | k]; cbn [apply_op].
  - destruct (m !! k) eqn:E; [rewrite map_size_insert_Some; [lia | by eexists] |].
    rewrite map_size_insert_None; [lia | done].
  - rewrite map_size_delete. unfold id. case_match; lia.
Qed.

Lemma size_apply_batch b : forall m, (size (apply_batch b m) <= length b + size m)%nat.
Proof.
  induction b as [| o b IH]; intros m; [done |]. unfold apply_batch in *. cbn [foldl length].
  specialize (IH (apply_op m o)). pose proof (size_apply_op o m). lia.
Qed.

Lemma do_commit_entries s st s' : do_commit s = (st, s') -> (entries s' <= ops s + entries s)%nat.
Proof.
  unfold do_commit, commit, entries, ops, ldb. destruct (Write _ _) as [w d] eqn:E.
  apply Write_spec in E. pose proof (size_apply_batch (batch (binlogs s)) (contents (db (binlogs s)))).
  destruct (status_ok w); intros [= _ <-]; cbn [binlogs db]; rewrite E; lia.
Qed.

Lemma ops_add_log ty cm k s : ops (on_binlogs (add_log ty cm k) s) = S (ops s).
Proof. unfold ops. cbn. rewrite length_app. cbn. lia. Qed.
Lemma ops_Put k v s : ops (on_binlogs (queue_Put k v) s) = S (ops s).
Proof. unfold ops. cbn. rewrite length_app. cbn. lia. Qed.
Lemma ops_Delete k s : ops (on_binlogs (queue_Delete k) s) = S (ops s).
Proof. unfold ops. cbn. rewrite length_app. cbn. lia. Qed.

Lemma set_entries k v s : (entries (ssdb_set k v s).2 <= 3 + entries s)%nat.
Proof.
  unfold ssdb_set. case_match; [cbn; lia |].
  destruct (do_commit _) as [st s1] eqn:E. apply do_commit_entries in E.
  rewrite ops_add_log, ops_Put in E. unfold entries, ldb, ops in *. cbn in *. lia.
Qed.

Lemma del_entries k s : (entries (ssdb_del k s).2 <= 3 + entries s)%nat.
Proof.
  unfold ssdb_del. destruct (do_commit _) as [st s1] eqn:E. apply do_commit_entries in E.
  rewrite ops_add_log, ops_Delete in E. unfold entries, ldb, ops in *. cbn in *. lia.
Qed.

Lemma hset_one_entries s n k v ty : let s' := (hset_one s n k v ty).2 in
  entries s' = entries s /\ (ops s' <= 2 + ops s)%nat.
Proof.
  cbn zeta. unfold hset_one, entries. case_match; [(split; [reflexivity | cbn [snd]; lia]) |]. case_match; [(split; [reflexivity | cbn [snd]; lia]) |].
  case_match; [(split; [reflexivity | cbn [snd]; lia]) |]. destruct (ssdb_hget _ _ _ _) as [r dbval].
  case_match; [| case_match]; cbn [snd]; rewrite ?ops_add_log, ?ops_Put; (split; [reflexivity | cbn [snd]; lia]).
Qed.

Lemma hset_entries n k v ty s r s' : ssdb_hset n k v ty s = Done (r, s') ->
  (entries s' <= 3 + entries s)%nat.
Proof.
  unfold ssdb_hset. pose proof (hset_one_entries (on_binlogs begin s) n k v ty) as [He Ho].
  change (entries (on_binlogs begin s)) with (entries s) in He.
  change (ops (on_binlogs begin s)) with 0%nat in Ho.
  destruct (hset_one _ _ _ _ _) as [ret s1]. cbn [snd] in *.
  case_match; [| intros [= _ <-]; change (entries s1 <= 3 + entries s)%nat; lia].
  set (m := if 0 <? ret then _ else _).
  assert (forall r2 s2, m = Done (r2, s2) -> entries s2 = entries s1 /\ (ops s2 <= 1 + ops s1)%nat) as Hm.
  { subst m. intros r2 s2. case_match; [| intros [= _ <-]; (split; [reflexivity | cbn [snd]; lia])].
    unfold incr_hsize. destruct (ck_int64 _); [| done..]. cbn [ebind]. intros [= _ <-].
    case_match; rewrite ?ops_Put, ?ops_Delete; (split; [reflexivity | cbn [snd]; lia]). }
  destruct m as [[r2 s2] | |]; [| done..]. cbn [ebind]. destruct (Hm r2 s2 eq_refl) as [He2 Ho2].
  case_match; [intros [= _ <-]; change (entries s2 <= 3 + entries s)%nat; lia |].
  destruct (do_commit s2) as [st s3] eqn:E. apply do_commit_entries in E.
  intros [= _ <-]. change (entries s3 <= 3 + entries s)%nat. lia.
Qed.

(** An operation adds at most a field, a size and a log record. *)
Lemma step_entries o s r s' : step o s = Done (r, s') -> (entries s' <= 3 + entries s)%nat.
Proof.
  destruct o as [k v | k | k | n k v ty | n k | n]; cbn [step].
  - pose proof (set_entries k v s). destruct (ssdb_set k v s). by intros [= _ <-].
  - pose proof (del_entries k s). destruct (ssdb_del k s). by intros [= _ <-].
  - intros [= _ <-]. lia.
  - destruct (ssdb_hset n k v ty s) as [[z s1] | |] eqn:E; [| done..]. cbn. intros [= _ <-].
    by eapply hset_entries.
  - intros [= _ <-]. lia.
  - intros [= _ <-]. lia.
Qed.
End Growth.

(** ** Iterators *)
Section Iterators.
Context `{LevelDBSpec}.
Import IteratorSpec.

Lemma filter_filter_le_lt k (l : list entry) :
  StronglySorted entry_lt l ->
  match filter (fun x => bytes_le k x.1) l with
  | (k', _) :: r => if decide (k' = k) then filter (fun x => bytes_lt k x.1) l = r
                    else filter (fun x => bytes_lt k x.1) l = filter (fun x => bytes_le k x.1) l
  | [] => filter (fun x => bytes_lt k x.1) l = []
  end.
Proof.
  induction 1 as [| [k' v] l Hs IH Hf]; [done |]. rewrite !filter_cons. cbn [fst].
  destruct (decide (bytes_le k k')) as [Hle | Hle].
  - assert (filter (fun x => bytes_lt k x.1) l = l /\ filter (fun x => bytes_le k x.1) l = l) as [-> ->].
    { split; apply filter_all; (eapply Forall_impl; [exact Hf |]); intros [k2 v2] Hlt;
        [| apply bytes_le_lteq; left]; by eapply bytes_le_lt_trans. }
    case_decide as Hk; [subst k'; rewrite decide_False; [done | apply irreflexivity, _] |].
    rewrite decide_True; [done |]. apply bytes_le_lteq in Hle as [? | ->]; done.
  - rewrite decide_False; [exact IH |]. intros ?. apply Hle, bytes_le_lteq. by left.
Qed.

(** [SSDBImpl::iterator] starts after [start], which is left out itself. *)
Lemma ssdb_iterator_spec (s : SSDBImpl) start e l : 0 <= l ->
  iter_wf (ssdb_iterator s start e l) /\
  yield (ssdb_iterator s start e l) =
    ztake l (filter (within e) (filter (fun x => bytes_lt start x.1) (sorted_entries (contents (ldb s))))).
Proof.
  intros Hl. unfold ssdb_iterator. set (i := Seek start (NewIterator (ldb s))).
  assert (it_all i = sorted_entries (contents (ldb s))) as Ha
    by (subst i; by rewrite (proj1 (Seek_spec _ _)), New_all).
  pose proof (Seek_New_rest start (ldb s)) as Hr. fold i in Hr.
  pose proof (filter_filter_le_lt start _ (sorted_entries_sorted (contents (ldb s)))) as Hf.
  rewrite <- Hr in Hf. destruct (Valid i) eqn:Ev.
  - rewrite (Valid_cons i Ev) in Hf. cbn [andb]. case_bool_decide as Hk.
    + rewrite decide_True in Hf by done. split.
      * split; cbn; try done. rewrite Next_all, Ha by done. apply sorted_entries_sorted.
      * unfold yield, todo. cbn. by rewrite Next_rest, Hf by done.
    + rewrite decide_False in Hf by done. rewrite <- (Valid_cons i Ev) in Hf. split.
      * split; cbn; try done. rewrite Ha. apply sorted_entries_sorted.
      * unfold yield, todo. cbn. by rewrite Hf.
  - apply Valid_false in Ev as Er. rewrite Er in Hf. cbn [andb]. split.
    + split; cbn; try done. rewrite Ha. apply sorted_entries_sorted.
    + unfold yield, todo. cbn. by rewrite Hf, Er.
Qed.
End Iterators.

(** ** Failing reads *)
Section ReadErrors.
Context `{LevelDBSpec}.
Implicit Types (s : SSDBImpl) (a : Spec).

Definition writable (d : DB) : Prop := forall b, (Write d b).1 = OK.

Lemma commit_writable q : writable (db q) ->
  exists q', commit q = (OK, q') /\
    contents (db (rollback q')) = apply_batch (batch q) (contents (db q)).
Proof.
  intros Hw. unfold commit. specialize (Hw (batch q)). destruct (Write _ _) as [st d] eqn:E.
  cbn in Hw. subst st. eexists. split; [done |]. by apply (Write_spec _ _ _ _) in E.
Qed.

(** The store after the field has been written and logged, without the size. *)
Lemma size_lost m m' a n k v : represents m a -> sizes_fit a -> valid_field n k ->
  hash a !! (n, k) = None ->
  (forall k', data_key k' -> k' <> encode_hsize_key n -> m' !! k' = <[encode_hash_key n k := v]> m !! k') ->
  m' !! encode_hsize_key n <> size_entry (hash_size (hash a) n + 1) ->
  ~ exists a', represents m' a'.
Proof.
  intros Hst Hfit Hv Hnone Hm' Hz (a' & Hr').
  assert (hash a' = <[(n, k) := v]> (hash a)) as Eh.
  { apply map_eq. intros [n' k']. rewrite <- (r_hash _ _ Hr').
    rewrite Hm' by (done || apply data_hash). apply lookup_hset; [apply (r_hash _ _ Hst) | done]. }
  apply Hz. by rewrite (r_size _ _ Hr'), Eh, hash_size_insert, decide_True.
Qed.

Lemma size_entry_inj x y : is_uint64 x -> is_uint64 y -> size_entry x = size_entry y -> x = y.
Proof.
  unfold size_entry. intros Hx Hy. destruct (Z.eqb_spec x 0), (Z.eqb_spec y 0); try done; [congruence |].
  intros E. by apply mem_u64_inj; [| | congruence].
Qed.

(** An I/O error while [hset] looks for a field is taken for a field that is
    there: a new field is stored, but 0 is returned and the size of the hash is
    not incremented; the store represents no specification any more. *)
Theorem hset_read_error s a n k v ty : rep s a -> room a -> sizes_fit a -> valid_field n k ->
  v <> [] -> hash a !! (n, k) = None -> ~ readable s (encode_hash_key n k) -> writable (ldb s) ->
  exists s', ssdb_hset n k v ty s = Done (0, s') /\
    contents (ldb s') !! encode_hash_key n k = Some v /\
    contents (ldb s') !! encode_hsize_key n = contents (ldb s) !! encode_hsize_key n /\
    ~ exists a', represents (contents (ldb s')) a'.
Proof.
  intros Hrep Hroom Hfit Hv Hne Hnone Hr Hw. unfold ssdb_hset. rewrite hset_one_valid by done.
  assert (ssdb_hget (on_binlogs begin s) n k [] = (-1, [])) as ->.
  { unfold ssdb_hget, read. change (ldb (on_binlogs begin s)) with (ldb s).
    unfold readable in Hr. destruct (Get (ldb s) _) as [st x]. cbn in Hr.
    destruct st; [by destruct Hr.. | done]. }
  cbn [Z.eqb Z.leb Z.ltb Z.compare]. rewrite neb_spec, bool_decide_false by done.
  cbn [negb ebind Z.eqb]. pose proof (hset_write s a n k v ty Hrep Hroom) as Ht.
  match goal with |- context [do_commit ?x] => set (s1 := x) in * end.
  destruct (commit_writable (binlogs s1) Hw) as (q' & Hc & Hq'). unfold do_commit. rewrite Hc.
  rewrite (t_batch _ _ _ _ Ht) in Hq'. cbn zeta. cbn [status_ok].
  eexists. split; [done |].
  change (ldb (on_binlogs rollback (mkSSDB q'))) with (db (rollback q')). rewrite Hq'.
  rewrite !lookup_log by (apply data_hash || apply data_hsize).
  assert (<[encode_hash_key n k := v]> (contents (ldb s)) !! encode_hsize_key n
          = contents (ldb s) !! encode_hsize_key n) as Es by by rewrite lookup_insert_ne.
  split_and!; [apply lookup_insert_eq | done |]. pose proof (rep_store _ _ Hrep) as Hst.
  apply (size_lost _ _ a n k v Hst Hfit Hv Hnone); [intros; by apply lookup_log |].
  rewrite lookup_log, Es, (r_size _ _ Hst) by apply data_hsize. specialize (Hfit n).
  pose proof (hash_size_nonneg (hash a) n). intros E%size_entry_inj; [lia | zlia | zlia].
Qed.

(** An I/O error while [hset] reads the size of a hash counts as the size
    -1: adding a field then computes 0 and deletes the size key, so a hash that
    has fields reports none. *)
Theorem incr_hsize_read_error s a n k v ty : rep s a -> room a -> sizes_fit a ->
  valid_field n k -> hash a !! (n, k) = None -> readable s (encode_hash_key n k) ->
  ~ readable s (encode_hsize_key n) -> writable (ldb s) ->
  exists s', ssdb_hset n k v ty s = Done (1, s') /\
    contents (ldb s') !! encode_hash_key n k = Some v /\
    contents (ldb s') !! encode_hsize_key n = None /\
    ~ exists a', represents (contents (ldb s')) a'.
Proof.
  intros Hrep Hroom Hfit Hv Hnone Hr Hrs Hw. unfold ssdb_hset. rewrite hset_one_valid by done.
  pose proof (rep_store _ _ Hrep) as Hst. unfold ssdb_hget.
  change (read (on_binlogs begin s)) with (read s).
  rewrite read_readable by done. rewrite (r_hash _ _ Hst), Hnone.
  cbn [Z.eqb Z.leb Z.ltb Z.compare]. unfold incr_hsize.
  match goal with |- context [ssdb_hsize ?x n] => change (ssdb_hsize x n) with (ssdb_hsize s n) end.
  assert (ssdb_hsize s n = -1) as ->.
  { unfold ssdb_hsize, readable in *. destruct (Get (ldb s) (encode_hsize_key n)) as [st x].
    cbn in Hrs. destruct st; [by destruct Hrs.. | done]. }
  rewrite ck_int64_ok by zlia. cbn [ebind Z.add Z.eqb Z.pos_sub].
  pose proof (hset_write s a n k v ty Hrep Hroom) as Ht.
  pose proof (queue_Delete_spec _ _ _ _ (encode_hsize_key n) Ht (data_hsize n)) as Ht2.
  match goal with |- context [do_commit ?x] => set (s1 := x) in * end.
  destruct (commit_writable (binlogs s1) Hw) as (q' & Hc & Hq'). unfold do_commit. rewrite Hc.
  change (binlogs s1) with (queue_Delete (encode_hsize_key n)
    (binlogs (on_binlogs (add_log ty BinlogCommand.HSET (encode_hash_key n k))
      (on_binlogs (queue_Put (encode_hash_key n k) v) (on_binlogs begin s))))) in Hq'.
  rewrite (t_batch _ _ _ _ Ht2) in Hq'. cbn zeta. cbn [status_ok].
  eexists. split; [done |].
  change (ldb (on_binlogs rollback (mkSSDB q'))) with (db (rollback q')). rewrite Hq'.
  rewrite lookup_delete_eq, lookup_delete_ne by done. rewrite lookup_log by apply data_hash.
  split_and!; [apply lookup_insert_eq | done |].
  apply (size_lost _ _ a n k v Hst Hfit Hv Hnone).
  - intros k' Hk' Hne. rewrite lookup_delete_ne by done. by apply lookup_log.
  - rewrite lookup_delete_eq. pose proof (hash_size_nonneg (hash a) n). unfold size_entry.
    by rewrite (proj2 (Z.eqb_neq _ _)) by lia.
Qed.
End ReadErrors.

(** ** Stores that do not fail *)

Class Healthy `{LevelDB} (good : DB -> Prop) := {
  healthy_read d k : good d -> (Get d k).1 <> IOError;
  healthy_write d b : good d -> exists d', Write d b = (OK, d') /\ good d';
  healthy_delete d k : good d -> exists d', DB_Delete d k = (OK, d') /\ good d'
}.

Section Healthy.
Context `{LevelDBSpec} `{!Healthy good}.
Implicit Types (s : SSDBImpl) (a : Spec).

Lemma good_write d b st d' : good d -> Write d b = (st, d') -> good d'.
Proof. intros Hg E. destruct (healthy_write d b Hg) as (d2 & E2 & Hg'). rewrite E in E2. by injection E2 as _ <-. Qed.

Lemma healthy_not_refusing d : good d -> ~ refusing d.
Proof. intros Hg [b Hb]. destruct (healthy_write d b Hg) as (d' & E & _). by rewrite E in Hb. Qed.

Lemma set_healthy k v s a : rep s a -> room a -> good (ldb s) -> k <> [] ->
  exists s', ssdb_set k v s = (1, s') /\ rep s' (spec_set k v a) /\ good (ldb s').
Proof.
  intros Hrep Hroom Hg Hk. pose proof (set_spec k v s a Hrep Hroom) as Hs.
  pose proof (set_good good good_write k v s Hg) as Hg'.
  destruct (ssdb_set k v s) as [r s'] eqn:E. cbn in Hg'. exists s'.
  assert (r <> -1) by (intros ->; by apply (healthy_not_refusing (ldb s) Hg), (set_refusing k v s s')).
  destruct Hs as [(? & _) | [(_ & -> & ?) | (_ & ? & _)]]; done.
Qed.

Lemma del_healthy k s a : rep s a -> room a -> good (ldb s) ->
  exists s', ssdb_del k s = (1, s') /\ rep s' (spec_del k a) /\ good (ldb s').
Proof.
  intros Hrep Hroom Hg. pose proof (del_spec k s a Hrep Hroom) as Hs.
  pose proof (del_good good good_write k s Hg) as Hg'.
  destruct (ssdb_del k s) as [r s'] eqn:E. cbn in Hg'. exists s'.
  assert (r <> -1) by (intros ->; by apply (healthy_not_refusing (ldb s) Hg), (del_refusing k s s')).
  destruct Hs as [[-> ?] | [? _]]; done.
Qed.

Lemma hset_healthy n k v ty s a : rep s a -> room a -> sizes_fit a -> good (ldb s) -> valid_field n k ->
  exists s', ssdb_hset n k v ty s = Done (hset_result a n k, s') /\
    rep s' (spec_hset n k v ty a) /\ good (ldb s').
Proof.
  intros Hrep Hroom Hfit Hg Hv.
  destruct (hset_spec n k v ty s a Hrep Hroom Hfit) as (r & s' & E & Hs); [by apply healthy_read.. |].
  pose proof (hset_good good good_write n k v ty s r s' Hg E) as Hg'. exists s'.
  assert (r <> -1) by (intros ->; by apply (healthy_not_refusing (ldb s) Hg), (hset_refusing n k v ty s s')).
  by destruct Hs as [[? _] | (_ & -> & ?)].
Qed.

(** Deleting a key that is none of the specification's. *)
Definition foreign_key (k : bytes) : Prop := data_key k /\
  (forall k', k <> encode_kv_key k') /\ (forall n k', k <> encode_hash_key n k') /\
  (forall n, k <> encode_hsize_key n).

Lemma raw_del_foreign k s a : rep s a -> good (ldb s) -> foreign_key k ->
  exists s', raw_del k s = (1, s') /\ rep s' a /\ good (ldb s') /\ contents (ldb s') !! k = None.
Proof.
  intros [Hr [Hl Hs]] Hg (Hd & Hk & Hh & Hz). unfold raw_del.
  destruct (healthy_delete (ldb s) k Hg) as (d & E & Hg'). rewrite E.
  pose proof (Delete_spec _ _ _ _ E) as Hc. cbn [status_ok negb] in *. eexists. split; [done |].
  unfold set_ldb, ldb in *. cbn [binlogs db].
  assert (log_inv (contents d) (history a)) as Hl' by (rewrite Hc; by apply log_inv_delete).
  split; [split; [| by split] |].
  - destruct Hr as [H1 H2 H3 H4 H5]. unfold ldb. cbn [binlogs db]. rewrite Hc in *.
    split; [done | ..]; intros; rewrite ?lookup_delete_ne by auto; eauto.
  - split; [done |]. rewrite Hc. apply lookup_delete_eq.
Qed.
End Healthy.

#[export] Instance mem_healthy : Healthy (H := Mem.leveldb) (fun d : Mem.db => Mem.writes d = [] /\ Mem.unreadable d = []).
Proof.
  split.
  - intros d k [_ Hu]. cbn. unfold Mem.get. rewrite Hu, decide_False by apply not_elem_of_nil.
    by case_match.
  - intros d b [Hw Hu]. cbn. unfold Mem.write. rewrite Hw. eexists. split; [done |]. by split.
  - intros d k [Hw Hu]. cbn. unfold Mem.write. rewrite Hw. eexists. split; [done |]. by split.
Qed.
End SSDBSpec.

Module SSDBSamples.
Import SSDBSpec.

Definition no_spec : Spec := mkSpec ∅ ∅ [].

Lemma represents_empty : represents ∅ no_spec.
Proof. split; cbn; [apply log_inv_empty | done..]. Qed.

(** A freshly opened object on an empty store, some keys of which cannot be read. *)
Definition fresh_ssdb (bad : list bytes) : SSDBImpl :=
  mkSSDB (mkQueue (Mem.flaky ∅ [] bad) 20000000 0 0 []).

Lemma rep_fresh bad : rep (fresh_ssdb bad) no_spec.
Proof. split; [apply represents_empty |]. split; [apply log_inv_empty | done]. Qed.

Lemma sizes_fit_empty : sizes_fit no_spec.
Proof. intros n. by vm_compute. Qed.

Lemma valid_sample : valid_field (lit "h") (lit "f").
Proof. split; (split; [done | by vm_compute]). Qed.

Lemma writable_fresh bad : writable (ldb (fresh_ssdb bad)).
Proof. by intros b. Qed.

Lemma reopen_witness : exists s',
  ssdb_open (Some (ldb (fresh_ssdb []))) = Done (Some s') /\ rep s' no_spec.
Proof. apply (reopen (fresh_ssdb [])). apply rep_fresh. Defined.

Definition sample_ops : list Op :=
  [OpSet (lit "k") (lit "v"); OpGet (lit "k"); OpHset (lit "h") (lit "f") (lit "1") BinlogType.SYNC;
   OpHsize (lit "h"); OpDel (lit "k"); OpGet (lit "k")].


Lemma hset_read_error_witness : let s := fresh_ssdb [encode_hash_key (lit "h") (lit "f")] in
  exists s', ssdb_hset (lit "h") (lit "f") (lit "1") BinlogType.SYNC s = Done (0, s') /\
    contents (ldb s') !! encode_hash_key (lit "h") (lit "f") = Some (lit "1") /\
    contents (ldb s') !! encode_hsize_key (lit "h") = contents (ldb s) !! encode_hsize_key (lit "h") /\
    ~ exists a', represents (contents (ldb s')) a'.
Proof.
  apply (hset_read_error (fresh_ssdb [encode_hash_key (lit "h") (lit "f")]) no_spec).
  - apply rep_fresh.
  - by vm_compute.
  - apply sizes_fit_empty.
  - apply valid_sample.
  - discriminate.
  - reflexivity.
  - intros Hr. apply Hr. by vm_compute.
  - apply writable_fresh.
Defined.

Lemma incr_hsize_read_error_witness : let s := fresh_ssdb [encode_hsize_key (lit "h")] in
  exists s', ssdb_hset (lit "h") (lit "f") (lit "1") BinlogType.SYNC s = Done (1, s') /\
    contents (ldb s') !! encode_hash_key (lit "h") (lit "f") = Some (lit "1") /\
    contents (ldb s') !! encode_hsize_key (lit "h") = None /\
    ~ exists a', represents (contents (ldb s')) a'.
Proof.
  apply (incr_hsize_read_error (fresh_ssdb [encode_hsize_key (lit "h")]) no_spec).
  - apply rep_fresh.
  - by vm_compute.
  - apply sizes_fit_empty.
  - apply valid_sample.
  - reflexivity.
  - intros Hr. vm_compute in Hr. discriminate.
  - intros Hr. apply Hr. by vm_compute.
  - apply writable_fresh.
Defined.

Lemma key_codecs_witness :
  decode_hash_key (encode_hash_key (lit "h") (lit "f")) = Some (lit "h", lit "f").
Proof. apply (key_codecs (lit "h") (lit "f")). vm_compute. congruence. Defined.
End SSDBSamples.
