(* ===== verification/Link.v ===== *)
(** [Link] of [ssdb/src/net/link.h] and [link.cpp]: one connection.  Requests come
    in the Redis protocol or as a packet of length-prefixed records, the protocol
    of the replication link; handlers are looked up in the command table.  Times
    and the libuv calls are not modelled: what is written is the result. *)
From S2P Require Import Prelude CLib Strings Bytes Resp Proc Redis.

Definition INIT_BUFFER_SIZE : Z := 1024.
Definition MAX_PACKET_SIZE : Z := 128 * 1024 * 1024.

Section Ops.
Context `{Heap}.

Record Link := mkLink { recv_data : list bytes; redis : RedisLink; input : Buffer.t }.

Definition new_Link : Link := mkLink [] RedisLink_init (Buffer.create INIT_BUFFER_SIZE).

Definition copy2Buffer (data : bytes) (l : Link) : exec Link :=
  let* (_, b) := Buffer.append data (input l) in Done (mkLink (recv_data l) (redis l) b).

(** The outcome of the record loop: a packet of so many bytes, a malformed one,
    or more data needed. *)
Inductive Packet := Packet_end (parsed : Z) (recv_data : list bytes) | Packet_bad | Packet_more.

(** [m] is the memory from [head] on, [size] bytes of which are data. *)
Fixpoint packet_loop (fuel : nat) (m : bytes) (size parsed : Z) (recv_data : list bytes)
    : exec Packet :=
  if size <=? 0 then Done Packet_more else
  match fuel with
  | O => NoFuel
  | S f =>
      match memchr (ztake size m) LF with
      | None => Done Packet_more
      | Some i =>
          let head_len := i + 1 in
          let* h0 := mget m 0 in
          if (head_len =? 1) || ((head_len =? 2) && bool_decide (h0 = CR)) then
            Done (Packet_end (parsed + head_len) recv_data)
          else if (schar h0 <? 48) || (57 <? schar h0) then Done Packet_bad
          else if 20 - 1 <? head_len then Done Packet_bad
          else
            let* body_len := atoi (ztake (head_len - 1) m ++ [NUL]) in
            if body_len <? 0 then Done Packet_bad
            else
              let* n := ck_int (head_len + body_len) in
              let size := size - n in
              if size <? 0 then Done Packet_more
              else
                let recv_data := recv_data ++ [ztake body_len (zdrop head_len m)] in
                let m := zdrop n m in
                let parsed := parsed + n in
                let next k :=
                  if MAX_PACKET_SIZE <? parsed + k then Done Packet_bad
                  else packet_loop f (zdrop k m) (size - k) (parsed + k) recv_data in
                if (1 <=? size) && bool_decide (head m = Some LF) then next 1
                else if (2 <=? size) && bool_decide (head m = Some CR)
                        && bool_decide (m !! 1%nat = Some LF) then next 2
                else if 2 <=? size then Done Packet_bad
                else Done Packet_more
      end
  end.

(** The result is [NULL] ([None]) or the vector, and the link. *)
Definition link_recv_req (l : Link) : exec (option (list bytes) * Link) :=
  let give v b r := Done (Some v, mkLink v r b) in
  if Buffer.empty (input l) then give [] (input l) (redis l)
  else
    let b := input l in
    let* data := mread (Buffer.mem b) (Buffer.off b) (Buffer.size_ b) in
    let k := leading_newlines data in
    let ptr := Buffer.off b + k in
    let* h0 := mget (Buffer.mem b) ptr in
    if decide (h0 = chr 42) then
      let* (ret, r, b) := recv_req (redis l) b in
      match ret with
      | Some v => give v b r
      | None => Done (None, mkLink [] r b)
      end
    else
      let size := Buffer.size_ b - k in
      let* p := packet_loop (S (Z.to_nat size)) (zdrop ptr (Buffer.mem b)) size k [] in
      match p with
      | Packet_end parsed v => give v (Buffer.decr b parsed) (redis l)
      | Packet_bad => Done (None, mkLink [] (redis l) b)
      | Packet_more =>
          let* o := make_room b in
          match o with
          | None => Done (None, mkLink [] (redis l) b)
          | Some b => give [] b (redis l)
          end
      end.

(** The bytes handed to [uv_write]. *)
Definition written (b : Buffer.t) : exec bytes :=
  mread (Buffer.mem b) (Buffer.off b) (Buffer.size_ b).

Fixpoint append_records (l : list bytes) (b : Buffer.t) : exec Buffer.t :=
  match l with
  | [] => Done b
  | s :: l => let* (_, b) := Buffer.append_record s b in append_records l b
  end.

(** [send] of one, two or four records. *)
Definition send_buffer (total : Z) (l : list bytes) : exec bytes :=
  let* total := ck_int total in
  let* b := append_records l (Buffer.create total) in
  let* (_, b) := Buffer.append_char LF b in
  written b.
Definition send1 (s1 : bytes) : exec bytes := send_buffer (zlen s1 + 1) [s1].
Definition send2 (s1 s2 : bytes) : exec bytes := send_buffer (zlen s1 + zlen s2 + 1) [s1; s2].
Definition send4 (s1 s2 s3 s4 : bytes) : exec bytes :=
  send_buffer (zlen s1 + zlen s2 + zlen s3 + zlen s4 + 1) [s1; s2; s3; s4].

(** [send] of a response. *)
Definition link_send (l : Link) (res : list bytes) : exec bytes :=
  let* b := send_resp (redis l) (Buffer.create 10) res in written b.

(** A handler gets the request and the state of the server; it returns the new
    state and the response.  [link_count] is the counter of the server. *)
Context {S : Type}.
Definition proc_t : Type := list bytes -> S -> exec (S * list bytes).

Record NetworkServer := mkNet { proc_map : gmap bytes (Command proc_t); data : S; link_count : Z }.

Definition link_proc (l : Link) (req : list bytes) (net : NetworkServer)
    : exec (bytes * NetworkServer) :=
  match req with
  | [] => UB
  | c :: _ =>
      let* (d, resp) :=
        match get_proc c (proc_map net) with
        | None => Done (data net, [lit "client_error"; lit "Unknown Command: " ++ c])
        | Some cmd => proc cmd req (data net)
        end in
      let* out := link_send l resp in
      Done (out, mkNet (proc_map net) d (link_count net))
  end.

(** The loop of [onRead]: the link ([None] once it is deleted), the server and
    the replies in order. *)
Fixpoint onRead_loop (fuel : nat) (l : Link) (net : NetworkServer) (out : list bytes)
    : exec (option Link * NetworkServer * list bytes) :=
  match fuel with
  | O => NoFuel
  | Datatypes.S f =>
      let* (req, l) := link_recv_req l in
      match req with
      | None => Done (None, mkNet (proc_map net) (data net) (link_count net - 1), out)
      | Some [] => Done (Some l, net, out)
      | Some req => let* (o, net) := link_proc l req net in onRead_loop f l net (out ++ [o])
      end
  end.

Definition onRead (nread : bytes) (l : Link) (net : NetworkServer)
    : exec (option Link * NetworkServer * list bytes) :=
  match nread with
  | [] => Done (Some l, net, [])
  | _ =>
      let* l := copy2Buffer nread l in
      onRead_loop (Datatypes.S (Z.to_nat (Buffer.size_ (input l)))) l net []
  end.
End Ops.

(** * Packets *)

Definition enc_records (rs : list bytes) : bytes := mjoin (BufferSpec.record <$> rs).
Definition enc_packet (rs : list bytes) : bytes := enc_records rs ++ [LF].

(** Lengths that fit, and a packet within the size limit. *)
Definition packet_ok (rs : list bytes) : Prop := rs <> [] /\ zlen (enc_packet rs) <= MAX_PACKET_SIZE.

Module LinkSpec.
Section Packets.
Implicit Types (s h x q w t missing : bytes) (rs : list bytes).

Lemma memchr_prefix h x n : LF ∉ h -> zlen h < n -> memchr (ztake n (h ++ LF :: x)) LF = Some (zlen h).
Proof.
  intros Hh Hn. replace (ztake n (h ++ LF :: x)) with (h ++ LF :: ztake (n - zlen h - 1) x).
  - by apply memchr_app.
  - unfold ztake, zlen in *. rewrite firstn_app, (take_ge h) by lia.
    replace (Z.to_nat n - length h)%nat with (S (Z.to_nat (n - Z.of_nat (length h) - 1))) by lia.
    done.
Qed.

Lemma record_split s q : BufferSpec.record s ++ q = print_int (zlen s) ++ LF :: s ++ LF :: q.
Proof. unfold BufferSpec.record. by rewrite <- !app_assoc. Qed.

Lemma zlen_record s : zlen (BufferSpec.record s) = zlen (print_int (zlen s)) + 2 + zlen s.
Proof. unfold BufferSpec.record. zl. Qed.

(** The header of a record passes the tests of the loop. *)
Lemma packet_loop_head f s x size parsed acc : zlen s + 12 <= int_max ->
  zlen (print_int (zlen s)) < size ->
  packet_loop (S f) (print_int (zlen s) ++ LF :: x) size parsed acc =
    (let n := zlen (print_int (zlen s)) + 1 + zlen s in
     let m := zdrop (zlen s) x in
     let acc := acc ++ [ztake (zlen s) x] in
     let next k :=
       if MAX_PACKET_SIZE <? parsed + n + k then Done Packet_bad
       else packet_loop f (zdrop k m) (size - n - k) (parsed + n + k) acc in
     if size - n <? 0 then Done Packet_more
     else if (1 <=? size - n) && bool_decide (head m = Some LF) then next 1
     else if (2 <=? size - n) && bool_decide (head m = Some CR) && bool_decide (m !! 1%nat = Some LF)
          then next 2
     else if 2 <=? size - n then Done Packet_bad
     else Done Packet_more).
Proof.
  intros Hs Hsize. set (h := print_int (zlen s)) in *.
  destruct (BufferSpec.zlen_print_nat (zlen s)) as [Hh1 Hh2]; [zl |]. fold h in Hh1, Hh2.
  cbn [packet_loop]. rewrite (proj2 (Z.leb_gt _ _)) by zl.
  rewrite memchr_prefix by (done || apply BufferSpec.LF_notin_len).
  destruct (print_int_head (zlen s)) as (c & t & Ec & Hc); [done |]. fold h in Ec.
  assert (mget (h ++ LF :: x) 0 = Done c) as -> by (rewrite Ec; apply (mget_app [])). cbn [ebind].
  assert (c <> CR) as Hcr by (intros ->; done).
  rewrite (proj2 (Z.eqb_neq (zlen h + 1) 1)) by lia.
  rewrite bool_decide_false by done. rewrite andb_false_r. cbn [orb].
  assert ((schar c <? 48) || (57 <? schar c) = false) as ->.
  { unfold isdigit in Hc. unfold schar. case_match; lia. }
  rewrite (proj2 (Z.ltb_ge (20 - 1) _)) by lia.
  replace (zlen h + 1 - 1) with (zlen h) by lia. rewrite ztake_app.
  subst h. rewrite atoi_print_int by (zl || done). cbn [ebind]. set (h := print_int (zlen s)) in *.
  rewrite (proj2 (Z.ltb_ge (zlen s) 0)) by zl. rewrite ck_int_ok by zl. cbn [ebind].
  change (h ++ LF :: x) with (h ++ [LF] ++ x). rewrite app_assoc.
  rewrite (zdrop_app' (zlen h + 1)) by zl.
  replace (zlen h + 1 + zlen s) with (zlen (h ++ [LF]) + zlen s) by zl.
  by rewrite zdrop_app_ge by done.
Qed.

(** A whole record. *)
Lemma packet_loop_record f s q size parsed acc : zlen s + 12 <= int_max ->
  zlen (BufferSpec.record s) <= size ->
  packet_loop (S f) (BufferSpec.record s ++ q) size parsed acc =
    if MAX_PACKET_SIZE <? parsed + zlen (BufferSpec.record s) then Done Packet_bad
    else packet_loop f q (size - zlen (BufferSpec.record s)) (parsed + zlen (BufferSpec.record s))
           (acc ++ [s]).
Proof.
  intros Hs Hsize. rewrite zlen_record in *. rewrite record_split, packet_loop_head by zl. cbn zeta.
  rewrite (proj2 (Z.ltb_ge _ 0)) by zl. rewrite zdrop_app, ztake_app. cbn [head].
  rewrite (proj2 (Z.leb_le 1 _)) by zl. rewrite bool_decide_true by done. cbn [andb].
  change (zdrop 1 (LF :: q)) with q.
  replace (parsed + (zlen (print_int (zlen s)) + 1 + zlen s) + 1)
    with (parsed + (zlen (print_int (zlen s)) + 2 + zlen s)) by lia.
  by replace (size - (zlen (print_int (zlen s)) + 1 + zlen s) - 1)
    with (size - (zlen (print_int (zlen s)) + 2 + zlen s)) by lia.
Qed.

(** A proper prefix of a record: more data needed. *)
Lemma packet_loop_prefix f s w t missing parsed acc : zlen s + 12 <= int_max ->
  w ++ missing = BufferSpec.record s -> missing <> [] ->
  packet_loop (S f) (w ++ t) (zlen w) parsed acc = Done Packet_more.
Proof.
  intros Hs E Hm. destruct (memchr w LF) as [i |] eqn:Ei.
  - apply memchr_Some in Ei as (p & q & -> & _ & Hp).
    unfold BufferSpec.record in E. rewrite <- app_assoc in E. cbn in E.
    destruct (app_first_inj p (q ++ missing) (print_int (zlen s)) (s ++ [LF]) LF)
      as [-> Eq]; [done | apply BufferSpec.LF_notin_len | done |].
    rewrite <- app_assoc. cbn [app]. rewrite packet_loop_head by zl. cbn zeta.
    assert (zlen missing <> 0) by by intros ?%zlen_0.
    assert (zlen q + zlen missing = zlen s + 1) by (apply (f_equal zlen) in Eq; zl).
    case_match; [done |]. rewrite (proj2 (Z.leb_gt 1 _)), (proj2 (Z.leb_gt 2 _)) by zl. done.
  - cbn [packet_loop]. destruct (Z.leb_spec (zlen w) 0); [done |]. by rewrite ztake_app, Ei.
Qed.

Lemma enc_records_cons s rs : enc_records (s :: rs) = BufferSpec.record s ++ enc_records rs.
Proof. done. Qed.

Lemma zlen_record_pos s : 2 + zlen s <= zlen (BufferSpec.record s).
Proof. rewrite zlen_record. zl. Qed.

Lemma length_enc_records rs : (length rs <= length (enc_records rs))%nat.
Proof.
  induction rs as [| s rs IH]; [cbn; lia |]. rewrite enc_records_cons, length_app.
  pose proof (zlen_record_pos s). pose proof (zlen_nonneg s). unfold zlen in *. cbn [length]. lia.
Qed.

(** A whole packet. *)
Lemma packet_loop_packet rs : forall f t size parsed acc, (length rs < f)%nat ->
  zlen (enc_packet rs) <= size -> parsed + zlen (enc_packet rs) <= MAX_PACKET_SIZE -> 0 <= parsed ->
  packet_loop f (enc_packet rs ++ t) size parsed acc =
    Done (Packet_end (parsed + zlen (enc_packet rs)) (acc ++ rs)).
Proof.
  unfold enc_packet, MAX_PACKET_SIZE.
  induction rs as [| s rs IH]; intros f t size parsed acc Hf Hs Hp Hp0;
    (destruct f as [| f]; [cbn in Hf; lia |]).
  - cbn [packet_loop enc_records fmap list_fmap mjoin list_join app] in *.
    rewrite (proj2 (Z.leb_gt _ _)) by zl.
    change (LF :: t) with ([] ++ LF :: t). rewrite memchr_prefix; [| apply not_elem_of_nil | zl].
    cbn. rewrite app_nil_r. done.
  - rewrite enc_records_cons, <- app_assoc, <- app_assoc in *. pose proof (zlen_record_pos s).
    rewrite packet_loop_record by zl. unfold MAX_PACKET_SIZE.
    rewrite (proj2 (Z.ltb_ge _ _)) by zl. rewrite (app_assoc (enc_records rs)).
    rewrite IH; [| cbn in Hf; lia | zl | zl | zl]. rewrite <- app_assoc.
    do 2 f_equal. zl.
Qed.

(** A proper prefix of a packet. *)
Lemma packet_loop_part rs : forall f w t missing parsed acc, (length w < f)%nat ->
  w ++ missing = enc_packet rs -> missing <> [] ->
  parsed + zlen (enc_packet rs) <= MAX_PACKET_SIZE -> 0 <= parsed ->
  packet_loop f (w ++ t) (zlen w) parsed acc = Done Packet_more.
Proof.
  unfold enc_packet, MAX_PACKET_SIZE.
  induction rs as [| s rs IH]; intros f w t missing parsed acc Hf E Hm Hp Hp0;
    (destruct f as [| f]; [lia |]).
  - destruct w as [| c w]; [done |]. exfalso. cbn in E. destruct missing; [done |].
    by destruct w.
  - rewrite enc_records_cons, <- app_assoc in *. pose proof (zlen_record_pos s).
    apply app_eq_inv in E as [(k & -> & Ek) | (k & Ek & E')].
    + rewrite <- app_assoc, packet_loop_record by (zl_simp; zl). unfold MAX_PACKET_SIZE.
      rewrite (proj2 (Z.ltb_ge _ _)) by zl.
      replace (zlen (BufferSpec.record s ++ k) - zlen (BufferSpec.record s)) with (zlen k) by zl.
      eapply IH; [| by symmetry | done | zl | zl].
      rewrite length_app in Hf. unfold zlen in *. pose proof (zlen_nonneg s). unfold zlen in *. lia.
    + destruct (decide (k = [])) as [-> | Hk].
      * rewrite app_nil_r in Ek. subst w. rewrite packet_loop_record by zl. unfold MAX_PACKET_SIZE.
        rewrite (proj2 (Z.ltb_ge _ _)) by zl. rewrite Z.sub_diag.
        destruct f; [cbn in Hf; unfold zlen in *; lia | done].
      * eapply (packet_loop_prefix _ s); [zl | by symmetry | done].
Qed.

(** Every run of the loop ends; a packet end lies within the data. *)
Lemma packet_loop_any f : forall m size parsed acc, size < Z.of_nat f ->
  packet_loop f m size parsed acc = UB \/
  exists p, packet_loop f m size parsed acc = Done p /\
    match p with Packet_end n v => parsed < n <= parsed + size | _ => True end.
Proof.
  induction f as [| f IH]; intros m size parsed acc Hf; cbn [packet_loop].
  - rewrite (proj2 (Z.leb_le _ _)) by lia. right; by eexists.
  - destruct (Z.leb_spec size 0); [right; by eexists |].
    destruct (memchr (ztake size m) LF) as [i |] eqn:Ei; [| right; by eexists].
    assert (0 <= i < size) as Hi.
    { apply memchr_Some in Ei as (p & q & Ep & <- & _).
      assert (zlen (ztake size m) <= size) by (unfold zlen, ztake; rewrite length_take; lia).
      rewrite Ep in *. zl. }
    destruct (mget m 0) as [h0 | |] eqn:Em; [| by left | by destruct (ends_mget m 0)]. cbn [ebind].
    case_match; [right; eexists; split; [done | cbn beta iota; lia] |].
    case_match; [right; by eexists |]. case_match; [right; by eexists |].
    destruct (atoi _) as [len | |] eqn:Ea; [| by left | by destruct (ends_atoi _ Ea)]. cbn [ebind].
    destruct (Z.ltb_spec len 0); [right; by eexists |].
    destruct (ck_int _) as [n | |] eqn:En; [| by left | by destruct (ends_ck_int _ En)]. cbn [ebind].
    apply ck_int_Done in En as [_ ->]. case_match; [right; by eexists |]. cbn zeta.
    set (acc' := acc ++ _).
    assert (forall k m', 1 <= k -> k <= size - (i + 1 + len) ->
      packet_loop f m' (size - (i + 1 + len) - k) (parsed + (i + 1 + len) + k) acc' = UB \/
      exists p, packet_loop f m' (size - (i + 1 + len) - k) (parsed + (i + 1 + len) + k) acc' = Done p /\
        match p with Packet_end n v => parsed < n <= parsed + size | _ => True end) as Hnext.
    { intros k m' Hk1 Hk2. destruct (IH m' (size - (i + 1 + len) - k) (parsed + (i + 1 + len) + k) acc')
        as [-> | (p & -> & Hp)]; [lia | by left | right]. eexists. split; [done |].
      destruct p; [lia | done..]. }
    case_match eqn:Hc1; [case_match; [right; by eexists |]; apply Hnext; lia |].
    case_match eqn:Hc2; [case_match; [right; by eexists |]; apply Hnext; lia |].
    case_match; right; by eexists.
Qed.
End Packets.

Section Receive.
Context `{Heap}.
Implicit Types (l : Link) (rs : list bytes) (ms : list (list bytes)).
Import BufferSpec.

Definition data_of l : bytes := contents (input l).

(** What [recv_req] sees of data that starts with a digit. *)
Lemma link_recv_digit l c w : wf (input l) -> data_of l = c :: w -> isdigit c = true ->
  exists t, link_recv_req l =
    (let* p := packet_loop (S (Z.to_nat (zlen (c :: w)))) ((c :: w) ++ t) (zlen (c :: w)) 0 [] in
     match p with
     | Packet_end parsed v => Done (Some v, mkLink v (redis l) (Buffer.decr (input l) parsed))
     | Packet_bad => Done (None, mkLink [] (redis l) (input l))
     | Packet_more =>
         let* o := make_room (input l) in
         match o with
         | None => Done (None, mkLink [] (redis l) (input l))
         | Some b => Done (Some [], mkLink [] (redis l) b)
         end
     end).
Proof.
  unfold data_of. intros Hwf E Hc. set (b := input l) in *. pose proof (zlen_contents b Hwf) as Hz.
  unfold link_recv_req, Buffer.empty. fold b. rewrite E in Hz.
  rewrite (proj2 (Z.eqb_neq _ _)) by zl. rewrite mread_contents by done. cbn [ebind]. rewrite E.
  assert (c <> LF /\ c <> CR /\ c <> chr 42) as (H1 & H2 & H3) by (split_and!; by intros ->).
  cbn [leading_newlines]. rewrite decide_False by naive_solver. rewrite Z.add_0_r.
  pose proof (mget_contents b [] c w Hwf E) as Hm. rewrite zlen_nil, Z.add_0_r in Hm.
  rewrite Hm. cbn [ebind]. rewrite decide_False by done. rewrite Z.sub_0_r, <- Hz.
  destruct (wf_split b Hwf) as (p & q & Em & Hp & _). exists q.
  rewrite Em, E, <- Hp. by rewrite zdrop_app.
Qed.

Lemma enc_packet_head rs : rs <> [] -> exists c w, enc_packet rs = c :: w /\ isdigit c = true.
Proof.
  destruct rs as [| s rs]; [done |]. intros _. unfold enc_packet. rewrite enc_records_cons.
  unfold record. destruct (print_int_head (zlen s)) as (c & t & -> & Hc); [done |].
  cbn. by eexists _, _.
Qed.

(** A complete packet is returned and consumed, whatever follows it. *)
Lemma recv_packet l rs rest : wf (input l) -> packet_ok rs ->
  data_of l = enc_packet rs ++ rest ->
  let b' := Buffer.decr (input l) (zlen (enc_packet rs)) in
  link_recv_req l = Done (Some rs, mkLink rs (redis l) b') /\ wf b' /\ contents b' = rest.
Proof.
  intros Hwf [Hne Hlen] E. destruct (enc_packet_head rs Hne) as (c & w & Ew & Hc).
  destruct (link_recv_digit l c (w ++ rest) Hwf) as [t ->]; [by rewrite E, Ew | done |].
  rewrite app_comm_cons, <- Ew. pose proof (zlen_contents _ Hwf) as Hz. fold (data_of l) in Hz.
  rewrite E in Hz. rewrite <- app_assoc, packet_loop_packet.
  - cbn [ebind app]. rewrite Z.add_0_l. split; [done |].
    destruct (decr_wf (input l) (zlen (enc_packet rs)) Hwf) as [Hw' Hc']; [zl |].
    split; [done |]. rewrite Hc'. fold (data_of l). rewrite E. by apply zdrop_app'.
  - unfold zlen. rewrite Nat2Z.id, length_app. pose proof (length_enc_records rs).
    unfold enc_packet. rewrite length_app. lia.
  - zl.
  - zl.
  - lia.
Qed.

(** A proper prefix of a packet: more data needed, nothing consumed. *)
Lemma recv_part l rs missing : wf (input l) -> Buffer.total_ (input l) < 2 ^ 29 -> packet_ok rs ->
  data_of l ++ missing = enc_packet rs -> missing <> [] ->
  (exists b', link_recv_req l = Done (Some [], mkLink [] (redis l) b') /\ wf b' /\
     contents b' = data_of l /\ (data_of l <> [] -> 0 < Buffer.space b') /\
     Buffer.off b' <= Buffer.off (input l) /\ Buffer.size_ b' = Buffer.size_ (input l) /\
     Buffer.total_ b' <= Z.max (Z.max 8192 (Buffer.total_ (input l)))
                           (8 * (Buffer.off (input l) + Buffer.size_ (input l))) /\
     (data_of l = [] -> b' = input l)) \/
  (exists n, realloc_ok n = false).
Proof.
  intros Hwf Ht [Hne Hlen] E Hm. destruct (data_of l) as [| c w] eqn:Ed.
  - left. exists (input l). unfold link_recv_req, Buffer.empty.
    pose proof (zlen_contents _ Hwf) as Hz. fold (data_of l) in Hz. rewrite Ed in Hz.
    rewrite (proj2 (Z.eqb_eq _ _)) by zl. split_and!; done || lia.
  - destruct (enc_packet_head rs Hne) as (c' & w' & Ew & Hc).
    assert (c' = c) as -> by (rewrite Ew in E; by injection E).
    destruct (link_recv_digit l c w Hwf Ed Hc) as [t ->].
    rewrite (packet_loop_part rs _ (c :: w) t missing); [| | done | done | lia | lia].
    2: { unfold zlen. rewrite Nat2Z.id. lia. }
    cbn [ebind].
    destruct (RecvSpec.make_room_spec (input l) Hwf Ht) as ([b' |] & Er & Ho); [| by right].
    rewrite Er. cbn [ebind]. left. exists b'. destruct Ho as (Hw' & Hc' & Hs & _).
    destruct (RecvSpec.make_room_total _ _ Hwf Er) as (Ho & Hz & Hm').
    split_and!; try done. rewrite Hc'. exact Ed.
Qed.

(** A peer that announces a string of the largest [int] makes [recv_req]
    overflow an [int]: its behaviour is undefined. *)
Theorem recv_overflow l r : wf (input l) -> data_of l = print_int int_max ++ LF :: r ->
  link_recv_req l = UB.
Proof.
  intros Hwf E. destruct (print_int_head int_max) as (c & t0 & Ec & Hc); [done |].
  destruct (link_recv_digit l c (t0 ++ LF :: r) Hwf) as [t ->]; [by rewrite E, Ec | done |].
  rewrite app_comm_cons, <- Ec. set (w := print_int int_max ++ LF :: r).
  cbn [packet_loop]. assert (0 < zlen w) by (subst w; zl). rewrite (proj2 (Z.leb_gt _ _)) by done.
  rewrite ztake_app. subst w. rewrite memchr_app by by apply print_int_notin.
  rewrite <- app_assoc. change (print_int int_max) with (lit "2147483647"). cbn [ebind].
  change (mget (lit "2147483647" ++ (LF :: r) ++ t) 0) with (Done (chr 50)). cbn [ebind].
  change (zlen (lit "2147483647")) with 10. cbn [Z.eqb Z.add Pos.add Pos.eqb orb andb].
  change ((schar (chr 50) <? 48) || (57 <? schar (chr 50))) with false. cbn [andb].
  change (20 - 1 <? 11) with false. change (ztake (11 - 1) (lit "2147483647" ++ (LF :: r) ++ t))
    with (lit "2147483647"). by vm_compute (atoi _).
Qed.

(** * Sending *)

Hypothesis no_refusal : forall n, realloc_ok n = true.

Lemma append_records_spec rs : forall b, wf b ->
  Buffer.off b + Buffer.size_ b + zlen (enc_records rs) + 17 <= 2 ^ 29 ->
  exists b', append_records rs b = Done b' /\ wf b' /\ contents b' = contents b ++ enc_records rs /\
    Buffer.off b' = Buffer.off b.
Proof.
  induction rs as [| s rs IH]; intros b Hwf Hb; cbn [append_records].
  - exists b. change (enc_records []) with (@nil char). by rewrite app_nil_r.
  - rewrite enc_records_cons in *. pose proof (zlen_record_pos s).
    destruct (append_record_spec b s Hwf) as (r & b1 & -> & [(_ & _ & n & Hn) | (_ & Hw & Hc & Ho)]);
      [zl | by rewrite no_refusal in Hn |]. cbn [ebind].
    destruct (IH b1 Hw) as (b2 & -> & Hw2 & Hc2 & Ho2).
    + rewrite <- (zlen_contents b1), Hc, Ho by done. rewrite zlen_app, zlen_contents by done. zl.
    + exists b2. split_and!; [done | done | | congruence]. by rewrite Hc2, Hc, <- app_assoc.
Qed.

Lemma send_buffer_spec total rs : 0 <= total <= int_max -> zlen (enc_packet rs) + 17 <= 2 ^ 29 ->
  send_buffer total rs = Done (enc_packet rs).
Proof.
  unfold enc_packet. intros Ht Hl. unfold send_buffer. rewrite ck_int_ok by zlia. cbn [ebind].
  destruct (create_wf total Ht) as [Hw Hc].
  destruct (append_records_spec rs (Buffer.create total) Hw) as (b1 & -> & Hw1 & Hc1 & Ho1); [cbn; zl |].
  cbn [ebind]. rewrite Hc in Hc1. cbn [app] in Hc1.
  destruct (append_char_spec b1 LF Hw1) as (r & b2 & -> & [(_ & _ & n & Hn) | (_ & Hw2 & Hc2 & _)]).
  - rewrite Ho1, <- (zlen_contents b1), Hc1 by done. cbn. zl.
  - by rewrite no_refusal in Hn.
  - cbn [ebind]. unfold written. rewrite mread_contents, Hc2, Hc1 by done. done.
Qed.

Lemma zlen_enc_records_le rs : zlen (mjoin rs) <= zlen (enc_records rs).
Proof.
  induction rs as [| s rs IH]; [done |]. rewrite enc_records_cons.
  change (mjoin (s :: rs)) with (s ++ mjoin rs). pose proof (zlen_record_pos s). zl.
Qed.

Lemma send2_spec s1 s2 : zlen (enc_packet [s1; s2]) + 17 <= 2 ^ 29 ->
  send2 s1 s2 = Done (enc_packet [s1; s2]).
Proof.
  intros Hl. apply send_buffer_spec; [| done]. pose proof (zlen_enc_records_le [s1; s2]) as Hle.
  unfold enc_packet in Hl. change (mjoin [s1; s2]) with (s1 ++ s2 ++ []) in Hle. zl.
Qed.

Lemma send1_spec s1 : zlen (enc_packet [s1]) + 17 <= 2 ^ 29 -> send1 s1 = Done (enc_packet [s1]).
Proof.
  intros Hl. apply send_buffer_spec; [| done]. pose proof (zlen_enc_records_le [s1]) as Hle.
  unfold enc_packet in Hl. change (mjoin [s1]) with (s1 ++ []) in Hle. zl.
Qed.

Lemma send4_spec s1 s2 s3 s4 : zlen (enc_packet [s1; s2; s3; s4]) + 17 <= 2 ^ 29 ->
  send4 s1 s2 s3 s4 = Done (enc_packet [s1; s2; s3; s4]).
Proof.
  intros Hl. apply send_buffer_spec; [| done].
  pose proof (zlen_enc_records_le [s1; s2; s3; s4]) as Hle.
  unfold enc_packet in Hl. change (mjoin [s1; s2; s3; s4]) with (s1 ++ s2 ++ s3 ++ s4 ++ []) in Hle. zl.
Qed.

(** C36: what [send] writes (for one, two or four strings, of any bytes, at most
    2^26 of them in all) is returned by [recv_req] at the other end, string for
    string, and exactly its bytes are consumed, so that what follows is received
    next.  No reallocation of the output may be refused: [send] ignores a failed
    append and would send a truncated packet. *)
Theorem send_recv s1 s2 s3 s4 l rest :
  zlen s1 + zlen s2 + zlen s3 + zlen s4 <= 2 ^ 26 -> wf (input l) ->
  exists o1 o2 o4, send1 s1 = Done o1 /\ send2 s1 s2 = Done o2 /\ send4 s1 s2 s3 s4 = Done o4 /\
    forall rs o, (rs, o) ∈ [([s1], o1); ([s1; s2], o2); ([s1; s2; s3; s4], o4)] ->
      data_of l = o ++ rest ->
      exists b, link_recv_req l = Done (Some rs, mkLink rs (redis l) b) /\ wf b /\ contents b = rest.
Proof.
  intros Hl Hwf.
  assert (Hr : forall s, zlen s <= 2 ^ 26 -> zlen (record s) <= zlen s + 12).
  { intros s Hs. rewrite zlen_record. destruct (zlen_print_nat (zlen s)); zl. }
  pose proof (Hr s1 ltac:(zl)). pose proof (Hr s2 ltac:(zl)).
  pose proof (Hr s3 ltac:(zl)). pose proof (Hr s4 ltac:(zl)). clear Hr.
  assert (Hlen : forall rs, rs ∈ [[s1]; [s1; s2]; [s1; s2; s3; s4]] ->
            rs <> [] /\ zlen (enc_packet rs) <= 2 ^ 26 + 49).
  { intros rs Hrs. unfold enc_packet.
    repeat (apply elem_of_cons in Hrs as [-> | Hrs]; [split; [done |];
      rewrite ?enc_records_cons; change (enc_records []) with (@nil char); zl |]).
    by apply not_elem_of_nil in Hrs. }
  exists (enc_packet [s1]), (enc_packet [s1; s2]), (enc_packet [s1; s2; s3; s4]).
  rewrite send1_spec, send2_spec, send4_spec by
    (match goal with |- zlen (enc_packet ?rs) + _ <= _ => destruct (Hlen rs); [set_solver | lia] end).
  split_and!; try done. intros rs o Hro E.
  assert (o = enc_packet rs /\ rs ∈ [[s1]; [s1; s2]; [s1; s2; s3; s4]]) as [-> Hrs] by set_solver.
  destruct (Hlen rs Hrs) as [Hne Hle].
  destruct (recv_packet l rs rest Hwf) as (-> & ? & ?);
    [split; [done | unfold MAX_PACKET_SIZE; lia] | done | eauto].
Qed.

(** * Streams *)

(** The requests a loop of [recv_req] calls takes from the buffer, in order. *)
Fixpoint recv_all (fuel : nat) (l : Link) : exec (option Link * list (list bytes)) :=
  match fuel with
  | O => NoFuel
  | S f =>
      let* (req, l) := link_recv_req l in
      match req with
      | None => Done (None, [])
      | Some [] => Done (Some l, [])
      | Some req => let* (o, reqs) := recv_all f l in Done (o, req :: reqs)
      end
  end.
Definition read_chunk (x : bytes) (l : Link) : exec (option Link * list (list bytes)) :=
  match x with
  | [] => Done (Some l, [])
  | _ => let* l := copy2Buffer x l in recv_all (S (Z.to_nat (Buffer.size_ (input l)))) l
  end.
(** What arrives comes in chunks cut anywhere. *)
Fixpoint feed (cs : list bytes) (l : Link) : exec (option Link * list (list bytes)) :=
  match cs with
  | [] => Done (Some l, [])
  | x :: cs =>
      let* (o, reqs) := read_chunk x l in
      match o with
      | None => Done (None, reqs)
      | Some l => let* (o, reqs') := feed cs l in Done (o, reqs ++ reqs')
      end
  end.

Definition enc_stream ms : bytes := mjoin (enc_packet <$> ms).

(** The state of the input buffer after [r] bytes have been received. *)
Record received (r : Z) (l : Link) : Prop := {
  rc_wf : wf (input l);
  rc_end : Buffer.off (input l) + Buffer.size_ (input l) <= r;
  rc_total : Buffer.total_ (input l) <= Z.max 8192 (8 * r)
}.

Lemma recv_all_stream ms1 : forall part fuel l r, received r l -> r <= 2 ^ 25 ->
  Forall packet_ok ms1 -> data_of l = enc_stream ms1 ++ part ->
  (part = [] \/ exists m missing, packet_ok m /\ part ++ missing = enc_packet m /\ missing <> []) ->
  (length ms1 < fuel)%nat ->
  exists l', recv_all fuel l = Done (Some l', ms1) /\ received r l' /\ data_of l' = part /\
    redis l' = redis l /\
    (part = [] -> Buffer.off (input l') = Buffer.off (input l) + Buffer.size_ (input l)).
Proof.
  induction ms1 as [| m ms1 IH]; intros part fuel l r Hl Hr Hok E Hpart Hf;
    (destruct fuel as [| fuel]; [lia |]); cbn [recv_all].
  - change (enc_stream [] ++ part) with part in E. pose proof Hl as [Hw He Ht].
    assert (exists m missing, packet_ok m /\ part ++ missing = enc_packet m /\ missing <> [])
      as (m & missing & Hm & Em & Hne).
    { destruct Hpart as [-> | ?]; [| done]. exists [[]], (enc_packet [[]]). split_and!; done. }
    rewrite <- E in Em.
    destruct (recv_part l m missing Hw ltac:(lia) Hm Em Hne)
      as [(b' & -> & Hw' & Hc' & _ & Ho & Hz & Ht' & Hb) | (n & Hn)]; [| by rewrite no_refusal in Hn].
    cbn [ebind]. eexists. split; [done |]. split; [split; cbn; [done | lia | lia] |].
    split_and!; [unfold data_of; cbn; by rewrite Hc' | done |]. intros ->. rewrite E in *.
    rewrite (Hb eq_refl). cbn. rewrite <- (zlen_contents _ Hw). fold (data_of l). rewrite E. zl.
  - change (enc_stream (m :: ms1)) with (enc_packet m ++ enc_stream ms1) in E.
    apply Forall_cons in Hok as [Hm Hok]. pose proof Hl as [Hw He Ht].
    rewrite <- app_assoc in E. destruct (recv_packet l m _ Hw Hm E) as (-> & Hw' & Hc').
    cbn [ebind]. destruct m as [| s m]; [by destruct Hm |].
    edestruct (IH part fuel (mkLink (s :: m) (redis l) (Buffer.decr (input l) (zlen (enc_packet (s :: m))))) r)
      as (l' & -> & Hl' & Hd' & Hr' & Ho').
    + split; cbn; [done | lia | lia].
    + done.
    + done.
    + done.
    + done.
    + cbn in Hf. lia.
    + cbn [ebind]. eexists. split; [done |]. split_and!; try done.
      intros Hp. rewrite (Ho' Hp). cbn. lia.
Qed.

Lemma length_enc_stream ms : (length ms <= length (enc_stream ms))%nat.
Proof.
  induction ms as [| m ms IH]; [cbn; lia |].
  change (enc_stream (m :: ms)) with (enc_packet m ++ enc_stream ms).
  unfold enc_packet. rewrite !length_app. cbn [length]. lia.
Qed.

(** Bytes arrive. *)
Lemma copy_received x l r : received r l -> r + zlen x <= 2 ^ 25 -> exists l1,
  copy2Buffer x l = Done l1 /\ received (r + zlen x) l1 /\ data_of l1 = data_of l ++ x /\ redis l1 = redis l /\
  Buffer.off (input l1) + Buffer.size_ (input l1) = Buffer.off (input l) + Buffer.size_ (input l) + zlen x.
Proof.
  intros Hl Hr. pose proof Hl as [Hw He Ht]. unfold copy2Buffer.
  destruct (append_spec (input l) x Hw) as (ret & b & Ea & [(_ & _ & n & Hn) | (_ & Hw' & Hc' & Ho')]);
    [zl | by rewrite no_refusal in Hn |].
  rewrite Ea. cbn [ebind]. destruct (append_total _ _ _ _ Ea (wf_total _ Hw)) as [_ Ht'].
  pose proof (zlen_contents b Hw') as Hz. rewrite Hc' in Hz. fold (data_of l) in Hz.
  pose proof (zlen_contents _ Hw) as Hz0. fold (data_of l) in Hz0. rewrite zlen_app in Hz.
  eexists. split; [done |]. cbn [input redis]. split_and!; [| done | done | lia].
  split; cbn [input]; [done | lia | pose proof (zlen_nonneg x); lia].
Qed.

Lemma read_chunk_stream x l r ms1 part : received r l -> r + zlen x <= 2 ^ 25 ->
  Forall packet_ok ms1 -> data_of l ++ x = enc_stream ms1 ++ part ->
  (part = [] \/ exists m missing, packet_ok m /\ part ++ missing = enc_packet m /\ missing <> []) ->
  (x = [] -> ms1 = []) ->
  exists l', read_chunk x l = Done (Some l', ms1) /\ received (r + zlen x) l' /\ data_of l' = part /\
    redis l' = redis l /\
    (x <> [] -> part = [] ->
       Buffer.off (input l') = Buffer.off (input l) + Buffer.size_ (input l) + zlen x).
Proof.
  intros Hl Hr Hok E Hpart Hx. unfold read_chunk. destruct x as [| c x].
  - rewrite (Hx eq_refl) in *. rewrite app_nil_r in E. eexists. split; [done |].
    rewrite zlen_nil, Z.add_0_r. split_and!; try done.
  - destruct (copy_received (c :: x) l r Hl Hr) as (l1 & Ec & Hl1 & Hd1 & Hr1 & Ho1). rewrite Ec. cbn [ebind].
    pose proof (zlen_contents _ (rc_wf _ _ Hl1)) as Hz. fold (data_of l1) in Hz.
    destruct (recv_all_stream ms1 part (S (Z.to_nat (Buffer.size_ (input l1)))) l1 (r + zlen (c :: x)))
      as (l' & -> & Hl' & Hd' & Hr' & Hoff); try done.
    + by rewrite Hd1.
    + pose proof (length_enc_stream ms1). rewrite Hd1, E in Hz. unfold zlen in Hz. rewrite length_app in Hz. lia.
    + exists l'. split_and!; try done; [congruence |]. intros _ Hp. rewrite (Hoff Hp). lia.
Qed.

Lemma enc_packet_nonempty rs : enc_packet rs <> [].
Proof. unfold enc_packet. by intros [_ ?]%app_nil. Qed.

Lemma feed_stream cs : forall l r ms, received r l -> r + zlen (mjoin cs) <= 2 ^ 25 ->
  Forall packet_ok ms -> data_of l ++ mjoin cs = enc_stream ms -> pending enc_packet (data_of l) ms ->
  exists l', feed cs l = Done (Some l', ms) /\ received (r + zlen (mjoin cs)) l' /\ data_of l' = [] /\
    redis l' = redis l.
Proof.
  induction cs as [| x cs IH]; intros l r ms Hl Hr Hok E Hd; cbn [feed].
  - change (mjoin []) with (@nil char) in *. rewrite app_nil_r in E. rewrite zlen_nil, Z.add_0_r in *.
    assert (ms = []) as ->.
    { apply (pending_no_whole enc_packet (data_of l) ms [] []); [by intros ? ?%enc_packet_nonempty | by rewrite app_nil_r |].
      by rewrite app_nil_r. }
    eexists. split; [done |]. split_and!; done.
  - change (mjoin (x :: cs)) with (x ++ mjoin cs) in *. rewrite app_assoc in E. rewrite zlen_app in *.
    destruct (split_stream enc_packet ms _ _ E) as (ms1 & ms2 & part & -> & Ew & Ep & Hp).
    apply Forall_app in Hok as [Hok1 Hok2].
    destruct (read_chunk_stream x l r ms1 part Hl) as (l1 & -> & Hl1 & Hd1 & Hr1 & _).
    + zl.
    + done.
    + done.
    + destruct Hp as [-> | (m & ms' & missing & -> & Em & Hne)]; [by left | right].
      exists m, missing. apply Forall_cons in Hok2 as [? _]. done.
    + intros ->. rewrite app_nil_r in Ew.
      by apply (pending_no_whole enc_packet (data_of l) ms1 ms2 part); [by intros ? ?%enc_packet_nonempty | ..].
    + cbn [ebind]. destruct (IH l1 (r + zlen x) ms2) as (l2 & -> & Hl2 & Hd2 & Hr2); try done.
      * zl.
      * by rewrite Hd1.
      * by rewrite Hd1.
      * cbn [ebind]. eexists. split; [done |]. rewrite Z.add_assoc. split_and!; congruence || done.
Qed.

Lemma feed_new cs ms : Forall packet_ok ms -> mjoin cs = enc_stream ms ->
  zlen (mjoin cs) <= 2 ^ 25 ->
  exists l, feed cs new_Link = Done (Some l, ms) /\ data_of l = [].
Proof.
  intros Hok E Hlen. destruct (create_wf INIT_BUFFER_SIZE) as [Hw Hc]; [by vm_compute |].
  destruct (feed_stream cs new_Link 0 ms) as (l & -> & _ & Hd & _); eauto.
  - split; [done | by vm_compute | by vm_compute].
  - by left.
Qed.

(** C13: a stream of packets is received packet by packet, in order, whatever the
    chunks it arrives in (cut inside a length, inside a string, several packets
    at once); no byte is lost, repeated or left over.  The bound is on the bytes
    received on the connection; the allocator does not refuse. *)
Theorem stream_chunks cs ms : Forall packet_ok ms -> mjoin cs = enc_stream ms ->
  zlen (mjoin cs) <= 2 ^ 25 ->
  exists l, feed cs new_Link = Done (Some l, ms) /\ data_of l = [].
Proof. apply feed_new. Qed.

Lemma feed_complete mss : forall l r, received r l -> data_of l = [] ->
  r + zlen (mjoin (enc_stream <$> mss)) <= 2 ^ 25 ->
  Forall (fun ms => ms <> [] /\ Forall packet_ok ms) mss ->
  exists l', feed (enc_stream <$> mss) l = Done (Some l', mjoin mss) /\
    received (r + zlen (mjoin (enc_stream <$> mss))) l' /\ data_of l' = [] /\
    Buffer.off (input l') = Buffer.off (input l) + zlen (mjoin (enc_stream <$> mss)).
Proof.
  induction mss as [| ms mss IH]; intros l r Hl Hd Hr Hok.
  - change (mjoin (enc_stream <$> [])) with (@nil char) in *. rewrite zlen_nil, !Z.add_0_r.
    eexists. split; [done |]. done.
  - cbn [feed fmap list_fmap]. change (mjoin (enc_stream <$> ms :: mss))
      with (enc_stream ms ++ mjoin (enc_stream <$> mss)) in *. rewrite zlen_app in *.
    apply Forall_cons in Hok as [[Hne Hms] Hok].
    assert (enc_stream ms <> []) as Hx.
    { intros Ex. destruct ms as [| m ms]; [done |]. pose proof (length_enc_stream (m :: ms)) as Hlen.
      rewrite Ex in Hlen. cbn in Hlen. lia. }
    destruct (read_chunk_stream (enc_stream ms) l r ms [] Hl) as (l1 & -> & Hl1 & Hd1 & _ & Ho1);
      [zl | done | by rewrite Hd, app_nil_r | by left | done |].
    cbn [ebind]. destruct (IH l1 (r + zlen (enc_stream ms)) Hl1 Hd1) as (l2 & E & Hl2 & Hd2 & Ho2);
      [zl | done |].
    change (list_fmap _ _ enc_stream mss) with (enc_stream <$> mss). rewrite E. cbn [ebind].
    eexists. split; [done |]. split.
    { change (mjoin (enc_stream ms :: (enc_stream <$> mss)))
        with (enc_stream ms ++ mjoin (enc_stream <$> mss)). by rewrite zlen_app, Z.add_assoc. }
    split; [done |].
    change (mjoin (enc_stream ms :: (enc_stream <$> mss)))
        with (enc_stream ms ++ mjoin (enc_stream <$> mss)). rewrite zlen_app.
    rewrite Ho2, Ho1 by done. rewrite <- (zlen_contents _ (rc_wf _ _ Hl)).
    fold (data_of l). rewrite Hd, zlen_nil. lia.
Qed.

(** A connection never gives memory back: when every chunk holds whole
    packets, all of them are served and no data is left, yet the data pointer has
    moved past every byte ever received and the block is at least that large
    ([nice] is only called when the block is full and data is left). *)
Theorem input_never_compacted mss : Forall (fun ms => ms <> [] /\ Forall packet_ok ms) mss ->
  zlen (mjoin (enc_stream <$> mss)) <= 2 ^ 25 ->
  exists l, feed (enc_stream <$> mss) new_Link = Done (Some l, mjoin mss) /\ data_of l = [] /\
    Buffer.off (input l) = zlen (mjoin (enc_stream <$> mss)) /\
    zlen (mjoin (enc_stream <$> mss)) <= Buffer.total_ (input l).
Proof.
  intros Hok Hlen. destruct (create_wf INIT_BUFFER_SIZE) as [Hw Hc]; [by vm_compute |].
  destruct (feed_complete mss new_Link 0) as (l & -> & Hl & Hd & Ho); eauto.
  { split; [done | by vm_compute | by vm_compute]. }
  exists l. split_and!; try done. destruct (rc_wf _ _ Hl). cbn in Ho. lia.
Qed.
End Receive.

(** * Termination and progress *)

Section Progress.
Context `{Heap} {S : Type}.
Implicit Types (l : Link) (net : NetworkServer (S := S)).
Import BufferSpec.

(** Any run of [recv_req]: a request is returned only if input was consumed. *)
Lemma link_recv_any l : wf (input l) ->
  link_recv_req l = UB \/
  exists ret l', link_recv_req l = Done (ret, l') /\ wf (input l') /\
    (forall v, ret = Some v -> v <> [] -> Buffer.size_ (input l') < Buffer.size_ (input l)).
Proof.
  intros Hwf. unfold link_recv_req. case_match; [right; eexists _, _; split; [done |]; split;
    [done | by intros v [= <-]] |].
  rewrite mread_contents by done. cbn [ebind].
  pose proof (ParseSpec.leading_newlines_range (contents (input l))) as Hk.
  rewrite zlen_contents in Hk by done. cbn zeta. generalize dependent (leading_newlines (contents (input l))). intros nl Hk.
  destruct (mget _ _) as [h0 | |] eqn:Em; [| by left | by destruct (ends_mget _ _ Em)]. cbn [ebind].
  case_decide.
  - destruct (RecvSpec.recv_req_any (redis l) (input l) Hwf) as [-> | (ret & r & b & -> & Hw & _ & Hp)];
      [by left |]. cbn [ebind]. right. destruct ret as [v |]; (eexists _, _; split; [done |]); cbn.
    + split; [done |]. intros v' [= <-]. by apply Hp.
    + by split.
  - match goal with |- context [packet_loop ?f ?m ?sz ?pd ?a] =>
      destruct (LinkSpec.packet_loop_any f m sz pd a) as [-> | (p & -> & Hp)]; [lia | by left |] end.
    cbn [ebind]. destruct p as [n v | |].
    + right. eexists _, _. split; [done |]. cbn.
      destruct (decr_wf (input l) n Hwf) as [Hw _]; [lia |]. split; [done |]. intros; lia.
    + right. eexists _, _. split; [done |]. by split.
    + destruct (RecvSpec.make_room_any (input l) Hwf) as [-> | [-> | (b & -> & Hw & _)]]; cbn [ebind];
        [by left | |]; right; (eexists _, _; split; [done |]); (split; [done |]); by intros v [= <-].
Qed.

(** Handlers that end. *)
Definition handlers_end net : Prop :=
  forall c cmd req d, proc_map net !! c = Some cmd -> ends (proc cmd req d).

Lemma ends_link_send l res : ends (link_send l res).
Proof.
  unfold link_send. apply ends_bind; [| intros; apply ends_mread].
  apply ends_send_resp. by vm_compute.
Qed.

Lemma ends_link_proc l req net : handlers_end net -> ends (link_proc l req net).
Proof.
  intros Hh. unfold link_proc. destruct req as [| c req]; [done |].
  apply ends_bind; [| intros [d resp] _; apply ends_bind; [apply ends_link_send | done]].
  destruct (get_proc _ _) eqn:E; [by eapply Hh | done].
Qed.

Lemma link_proc_map l req net o net' : link_proc l req net = Done (o, net') ->
  proc_map net' = proc_map net.
Proof.
  unfold link_proc. destruct req; [done |]. intros ([d resp] & _ & (o1 & _ & [= _ <-])%bind_Done)%bind_Done.
  done.
Qed.

Lemma onRead_loop_ends f : forall l net out, wf (input l) -> handlers_end net ->
  Buffer.size_ (input l) < Z.of_nat f -> ends (onRead_loop f l net out).
Proof.
  induction f as [| f IH]; intros l net out Hwf Hh Hf.
  { pose proof (wf_size _ Hwf). lia. }
  cbn [onRead_loop]. destruct (link_recv_any l Hwf) as [-> | (ret & l' & -> & Hw & Hp)]; [done |].
  cbn [ebind]. destruct ret as [[| c req] |]; [done | | done].
  apply ends_bind; [by apply ends_link_proc |]. intros [o net'] E.
  apply IH; [done | | specialize (Hp _ eq_refl ltac:(discriminate)); lia].
  intros c' cmd req' d'. rewrite (link_proc_map _ _ _ _ _ E). apply Hh.
Qed.

(** Reading ends: whatever bytes arrive in whatever state of a connection,
    [onRead] goes round its loop at most once per byte received, provided the
    handlers end; every request it serves has consumed input. *)
Theorem onRead_ends nread l net : wf (input l) -> handlers_end net -> ends (onRead nread l net).
Proof.
  intros Hwf Hh. unfold onRead. destruct nread as [| c x]; [done |].
  apply ends_bind.
  - unfold copy2Buffer. apply ends_bind; [apply ends_append, (wf_total _ Hwf) | by intros [? ?] _].
  - intros l' El. unfold copy2Buffer in El. apply bind_Done in El as ([r b] & E & [= <-]). cbn [input].
    assert (wf b) as Hw by (by eapply append_any).
    apply onRead_loop_ends; [done | done |]. cbn [input]. pose proof (wf_size _ Hw). lia.
Qed.
End Progress.
End LinkSpec.

(** * Instances *)

Module LinkSamples.
Import LinkSpec BufferSpec.
#[local] Existing Instance sample_heap.

Definition link_with (d : bytes) : Link := mkLink [] RedisLink_init (sample d).
Definition sample_packets : list (list bytes) :=
  [[lit "set"; lit "k"; lit "v"]; [lit "get"; lit "k"]].

Lemma sample_packets_ok : Forall packet_ok sample_packets.
Proof. repeat constructor; try discriminate; vm_compute; congruence. Qed.

Lemma recv_overflow_witness : link_recv_req (link_with (lit "2147483647" ++ [LF])) = UB.
Proof.
  apply (recv_overflow (link_with (lit "2147483647" ++ [LF])) []);
    [split; vm_compute; congruence | vm_compute; reflexivity].
Defined.

Lemma send_recv_witness :
  let l := link_with (enc_packet [lit "ab"; lit "c"] ++ lit "3") in
  exists o1 o2 o4, send1 (lit "ab") = Done o1 /\ send2 (lit "ab") (lit "c") = Done o2 /\
    send4 (lit "ab") (lit "c") [] [] = Done o4 /\
    forall rs o, (rs, o) ∈ [([lit "ab"], o1); ([lit "ab"; lit "c"], o2);
                            ([lit "ab"; lit "c"; []; []], o4)] ->
      data_of l = o ++ lit "3" ->
      exists b, link_recv_req l = Done (Some rs, mkLink rs (redis l) b) /\ wf b /\
        contents b = lit "3".
Proof.
  apply (send_recv (H := sample_heap) (fun _ => eq_refl) (lit "ab") (lit "c") [] []
           (link_with (enc_packet [lit "ab"; lit "c"] ++ lit "3")) (lit "3"));
    [vm_compute; congruence | split; vm_compute; congruence].
Defined.

Definition cut : bytes := take 5 (enc_stream sample_packets).
Definition rest_of : bytes := drop 5 (enc_stream sample_packets).

Lemma stream_chunks_witness : exists l,
  feed [cut; rest_of] new_Link = Done (Some l, sample_packets) /\ data_of l = [].
Proof.
  apply (stream_chunks (H := sample_heap) (fun _ => eq_refl) [cut; rest_of] sample_packets);
    [apply sample_packets_ok | vm_compute; reflexivity | vm_compute; congruence].
Defined.

Lemma input_never_compacted_witness : exists l,
  feed (enc_stream <$> [sample_packets; sample_packets]) new_Link =
    Done (Some l, mjoin [sample_packets; sample_packets]) /\ data_of l = [] /\
  Buffer.off (input l) = zlen (mjoin (enc_stream <$> [sample_packets; sample_packets])) /\
  zlen (mjoin (enc_stream <$> [sample_packets; sample_packets])) <= Buffer.total_ (input l).
Proof.
  apply (input_never_compacted (H := sample_heap) (fun _ => eq_refl) [sample_packets; sample_packets]).
  - repeat constructor; try discriminate; vm_compute; congruence.
  - vm_compute; congruence.
Defined.

Definition echo : Command (proc_t (S := unit)) := mkCommand (lit "echo") 0 (fun req d => Done (d, req)) 0.
Definition sample_net : NetworkServer := mkNet {[lit "echo" := echo]} tt 1.

Lemma onRead_ends_witness : ends (onRead (enc_stream sample_packets) new_Link sample_net).
Proof.
  apply (onRead_ends (enc_stream sample_packets) new_Link sample_net).
  - split; vm_compute; congruence.
  - intros c cmd req d Hc. cbn in Hc. apply lookup_singleton_Some in Hc as [_ <-]. done.
Defined.
End LinkSamples.
