(* ===== verification/BackendSync.v ===== *)
(** [BackendSync] of [ssdb/src/backend_sync.h] and [backend_sync.cpp]: the thread
    of the master that serves one slave.  It copies the key space and follows the
    log; what it sends is a list of packets (the strings given to [Link::send]),
    whose bytes on the wire are [Link.enc_packet].  The thread and its sleep are
    not modelled: [round] is one turn of its loop. *)
From S2P Require Import Prelude CLib Strings Bytes LevelDB Binlog Iterator SSDB.
Import BinlogSpec IteratorSpec SSDBSpec.

(** The states of [Client]. *)
Module SyncStatus.
Definition INIT : Z := 0.
Definition OUT_OF_SYNC : Z := 1.
Definition COPY : Z := 2.
Definition SYNC : Z := 4.
End SyncStatus.

Section Ops.
Context `{LevelDB}.

(** The pointer [iter]: the constructor leaves it uninitialised, so it may be
    [NULL] by chance or point anywhere. *)
Inductive IterPtr := Null | Ptr (i : Iterator) | Wild.

Record Client := mkClient {
  c_status : Z; c_last_seq : Z; c_last_noop_seq : Z; c_last_key : bytes;
  c_is_mirror : bool; c_iter : IterPtr }.

Definition packet : Type := list bytes.

Definition new_Client (garbage : IterPtr) : Client :=
  mkClient SyncStatus.INIT 0 0 [] false garbage.

Definition set_status (z : Z) (c : Client) : Client :=
  mkClient z (c_last_seq c) (c_last_noop_seq c) (c_last_key c) (c_is_mirror c) (c_iter c).
Definition set_last_seq (z : Z) (c : Client) : Client :=
  mkClient (c_status c) z (c_last_noop_seq c) (c_last_key c) (c_is_mirror c) (c_iter c).
Definition set_last_key (k : bytes) (c : Client) : Client :=
  mkClient (c_status c) (c_last_seq c) (c_last_noop_seq c) k (c_is_mirror c) (c_iter c).
Definition set_iter (p : IterPtr) (c : Client) : Client :=
  mkClient (c_status c) (c_last_seq c) (c_last_noop_seq c) (c_last_key c) (c_is_mirror c) p.

(** Each operation also gives the packets it sends. *)
Definition client_reset (c : Client) : Client * list packet :=
  (mkClient SyncStatus.COPY 0 (c_last_noop_seq c) [] (c_is_mirror c) (c_iter c),
   [[Binlog.make 0 BinlogType.COPY BinlogCommand.BEGIN []; lit "copy_begin"]]).

Definition client_init (req : list bytes) (c : Client) : exec (Client * list packet) :=
  let* last_seq :=
    match req !! 1%nat with
    | Some s => let* (v, _) := str_to_uint64 0 s in Done v
    | None => Done 0
    end in
  let last_key := match req !! 2%nat with Some s => s | None => c_last_key c end in
  let mirror := bool_decide (req !! 3%nat = Some (lit "mirror")) || c_is_mirror c in
  let c := mkClient (c_status c) last_seq (c_last_noop_seq c) last_key mirror (c_iter c) in
  if (zlen last_key =? 0) && (last_seq =? 0) then Done (client_reset c) else Done (c, []).

Definition client_noop (c : Client) : Client * list packet :=
  let at_start := (c_status c =? SyncStatus.COPY) && (zlen (c_last_key c) =? 0) in
  let seq := if at_start then 0 else c_last_seq c in
  let c := if at_start then c
           else mkClient (c_status c) (c_last_seq c) (c_last_seq c) (c_last_key c)
                  (c_is_mirror c) (c_iter c) in
  (c, [[Binlog.make seq BinlogType.NOOP BinlogCommand.NONE []; lit "noop"]]).

Definition client_out_of_sync (c : Client) : Client * list packet :=
  (set_status SyncStatus.OUT_OF_SYNC c,
   [[Binlog.make (c_last_seq c) BinlogType.CTRL BinlogCommand.NONE (lit "OUT_OF_SYNC")]]).

(** The label [copy_end]. *)
Definition copy_end (c : Client) (out : list packet) : Z * Client * list packet :=
  (1, set_iter Null (set_status SyncStatus.SYNC c),
   out ++ [[Binlog.make (c_last_seq c) BinlogType.COPY BinlogCommand.END []; lit "copy_end"]]).

(** The loop of [copy], at most [n] more rounds. *)
Fixpoint copy_loop (n : nat) (i : Iterator) (c : Client) (ret : Z) (out : list packet)
    : exec (Z * Client * list packet) :=
  match n with
  | O => Done (ret, set_iter (Ptr i) c, out)
  | S n =>
      let* (b, i) := iter_next i in
      if negb b then Done (copy_end c out)
      else
        let key := iter_key i in
        match key with
        | [] => copy_loop n i c ret out
        | data_type :: _ =>
            if schar DataType.MAX_PREFIX <? schar data_type then Done (copy_end c out)
            else
              let c := set_last_key key c in
              if decide (data_type = DataType.KV) then
                let log := Binlog.make (c_last_seq c) BinlogType.COPY BinlogCommand.KSET key in
                copy_loop n i c (ret + 1) (out ++ [[Binlog.repr log; iter_val i]])
              else copy_loop n i c ret out
        end
  end.

Definition client_copy (ssdb : SSDBImpl) (c : Client) : exec (Z * Client * list packet) :=
  let* i :=
    match c_iter c with
    | Null =>
        let key := if zlen (c_last_key c) =? 0 then [DataType.MIN_PREFIX] else c_last_key c in
        Done (ssdb_iterator ssdb key [] uint64_max)
    | Ptr i => Done i
    | Wild => UB
    end in
  copy_loop 1000 i c 0 [].

(** [delete this->iter; this->iter = NULL;] when it is not [NULL]. *)
Definition drop_iter (c : Client) : exec Client :=
  match c_iter c with Wild => UB | _ => Done (set_iter Null c) end.

(** What [sync] sends for a record. *)
Definition sync_send (ssdb : SSDBImpl) (log : Binlog.t) : exec (list packet) :=
  let* cmd := Binlog.cmd log in
  if decide (cmd = BinlogCommand.KSET) then
    let* key := Binlog.key log in
    let '(ret, val) := raw_get ssdb key [] in
    if ret =? -1 then Done [] else if ret =? 0 then Done [] else Done [[Binlog.repr log; val]]
  else if decide (cmd = BinlogCommand.KDEL) then Done [[Binlog.repr log]]
  else Done [].

Fixpoint sync_loop (fuel : nat) (ssdb : SSDBImpl) (c : Client) (log : Binlog.t)
    : exec (Z * Client * list packet) :=
  match fuel with
  | O => NoFuel
  | S f =>
      let expect_seq := to_uint64 (c_last_seq c + 1) in
      let logs := binlogs ssdb in
      let '(ret, log) :=
        if (c_status c =? SyncStatus.COPY) && (c_last_seq c =? 0) then find_last logs log
        else find_next logs expect_seq log in
      if ret =? 0 then Done (0, c, [])
      else
        let* dropped :=
          (if c_status c =? SyncStatus.COPY then
             let* key := Binlog.key log in Done (Bytes.gtb key (c_last_key c))
           else Done false) in
        let* seq := Binlog.seq log in
        if dropped : bool then
          let* c := drop_iter (set_last_seq seq c) in sync_loop f ssdb c log
        else if negb (c_last_seq c =? 0) && negb (seq =? expect_seq) then
          let '(c, out) := client_out_of_sync c in Done (1, c, out)
        else
          let c := set_last_seq seq c in
          let* type := Binlog.type log in
          if bool_decide (type = BinlogType.MIRROR) && c_is_mirror c then
            if 1000 <=? to_uint64 (c_last_seq c - c_last_noop_seq c) then
              let '(c, out) := client_noop c in Done (1, c, out)
            else sync_loop f ssdb c log
          else let* out := sync_send ssdb log in Done (0, c, out)
  end.

(** Rounds of the loop of [sync]: each passes at least one record of the log. *)
Definition sync_fuel (ssdb : SSDBImpl) : nat := S (S (Z.to_nat (last_seq (binlogs ssdb)))).
Definition client_sync (ssdb : SSDBImpl) (c : Client) : exec (Z * Client * list packet) :=
  sync_loop (sync_fuel ssdb) ssdb c Binlog.empty.

(** One turn of [_run_thread]: whether it found nothing to do (and sleeps), the
    client, and what it sent. *)
Definition round (ssdb : SSDBImpl) (c : Client) : exec (bool * Client * list packet) :=
  if c_status c =? SyncStatus.OUT_OF_SYNC then Done (false, c, [])
  else
    let* (r1, c, out1) := client_sync ssdb c in
    if c_status c =? SyncStatus.COPY then
      let* (r2, c, out2) := client_copy ssdb c in
      Done ((r1 =? 0) && (r2 =? 0), c, out1 ++ out2)
    else Done (r1 =? 0, c, out1).

(** The thread from its start: [init], then so many turns, each on the store as
    it is at that time. *)
Fixpoint rounds (stores : list SSDBImpl) (c : Client) : exec (Client * list packet) :=
  match stores with
  | [] => Done (c, [])
  | s :: stores =>
      let* (_, c, out) := round s c in
      let* (c, out') := rounds stores c in
      Done (c, out ++ out')
  end.
Definition run_thread (req : list bytes) (garbage : IterPtr) (stores : list SSDBImpl)
    : exec (Client * list packet) :=
  let* (c, out) := client_init req (new_Client garbage) in
  let* (c, out') := rounds stores c in
  Done (c, out ++ out').
End Ops.

(** * Following the log *)

Module SyncSpec.
Section Follow.
Context `{LevelDBSpec}.
Implicit Types (s : SSDBImpl) (c : Client) (h : list LogEntry).

(** What is sent for the record numbered [n]: the value a pair has now. *)
Definition sends s (n : nat) (e : LogEntry) : list packet :=
  if decide (le_cmd e = BinlogCommand.KSET) then
    let '(ret, v) := raw_get s (le_key e) [] in
    if ret =? -1 then [] else if ret =? 0 then [] else [[log_value n e; v]]
  else if decide (le_cmd e = BinlogCommand.KDEL) then [[log_value n e]]
  else [].

Definition copying c : bool := c_status c =? SyncStatus.COPY.
Definition uncopied c (k : bytes) : bool :=
  copying c && bool_decide (bytes_lt (c_last_key c) k).
Definition mirrored c (e : LogEntry) : bool :=
  bool_decide (le_type e = BinlogType.MIRROR) && c_is_mirror c.

(** What [sync] does with the records it has not seen. *)
Fixpoint follow s (pending : list LogEntry) c : Z * Client * list packet :=
  match pending with
  | [] => (0, c, [])
  | e :: pending =>
      let n := c_last_seq c + 1 in
      let c' := set_last_seq n c in
      if uncopied c (le_key e) then follow s pending (set_iter Null c')
      else if mirrored c e then
        if 1000 <=? to_uint64 (n - c_last_noop_seq c) then
          let '(c', out) := client_noop c' in (1, c', out)
        else follow s pending c'
      else (0, c', sends s (Z.to_nat n) e)
  end.

Definition no_garbage c : Prop := c_iter c <> Wild.

Lemma drop_iter_ok c : no_garbage c -> drop_iter c = Done (set_iter Null c).
Proof. unfold no_garbage, drop_iter. by destruct (c_iter c). Qed.

Lemma sync_send_spec s n e : sync_send s (log_value n e) = Done (sends s n e).
Proof.
  unfold sync_send, sends, log_value. rewrite Binlog.cmd_make. cbn [ebind].
  case_decide; [rewrite Binlog.key_make; cbn [ebind] |]; repeat case_match; done.
Qed.

Lemma sync_loop_spec h : forall f s c n l, log_inv (contents (ldb s)) h ->
  c_last_seq c = Z.of_nat n -> (n <= length h)%nat -> (copying c = true -> no_garbage c) ->
  (copying c = true -> n <> 0%nat) -> (length h - n < f)%nat ->
  sync_loop f s c l = Done (follow s (drop n h) c).
Proof.
  induction f as [| f IH]; intros s c n l Hi Hn Hle Hg Hc Hf; [lia |]. cbn [sync_loop].
  pose proof (inv_fits _ _ Hi) as Hfit.
  assert (to_uint64 (c_last_seq c + 1) = Z.of_nat (S n)) as En by (rewrite Hn, to_uint64_id by zlia; lia).
  rewrite En. assert ((c_status c =? SyncStatus.COPY) && (c_last_seq c =? 0) = false) as ->.
  { apply andb_false_iff. destruct (c_status c =? _) eqn:E; [right | by left].
    specialize (Hc E). lia. }
  rewrite (find_next_spec _ h) by (done || zlia).
  replace (Z.to_nat (Z.of_nat (S n) - 1)) with n by lia.
  destruct (h !! n) as [e |] eqn:Eh.
  2: { apply lookup_ge_None in Eh. by rewrite drop_ge by lia. }
  pose proof (lookup_lt_Some _ _ _ Eh) as Hlt. rewrite (drop_S _ _ _ Eh). cbn [Z.eqb follow].
  assert (is_uint64 (Z.of_nat (S n))) as Hu by zlia.
  assert ((if c_status c =? SyncStatus.COPY
           then let* key := Binlog.key (log_value (S n) e) in Done (Bytes.gtb key (c_last_key c))
           else Done false) = Done (uncopied c (le_key e))) as ->.
  { unfold uncopied, copying, log_value. rewrite Binlog.key_make. cbn [ebind].
    rewrite Bytes.gtb_lt. by destruct (_ =? _). }
  cbn [ebind]. unfold log_value at 1. rewrite Binlog.seq_make by done. cbn [ebind].
  replace (c_last_seq c + 1) with (Z.of_nat (S n)) by lia.
  destruct (uncopied c (le_key e)) eqn:Eu.
  { assert (copying c = true) as Hcp by by apply andb_true_iff in Eu as [-> _].
    rewrite drop_iter_ok by by apply Hg. cbn [ebind]. apply (IH _ _ (S n)); try done; cbn; lia. }
  rewrite Z.eqb_refl, andb_false_r. unfold log_value at 1. rewrite Binlog.type_make.
  cbn [ebind]. fold (mirrored c e). change (c_is_mirror (set_last_seq _ c)) with (c_is_mirror c).
  fold (mirrored c e). cbn [set_last_seq c_last_seq c_last_noop_seq].
  destruct (mirrored c e) eqn:Em.
  - destruct (1000 <=? _).
    + by destruct (client_noop _).
    + apply (IH _ _ (S n)); try done; cbn; lia.
  - rewrite sync_send_spec. cbn [ebind]. by rewrite Nat2Z.id.
Qed.

Lemma client_sync_spec s h c n : queue_inv (binlogs s) h ->
  c_last_seq c = Z.of_nat n -> (n <= length h)%nat -> (copying c = true -> no_garbage c) ->
  (copying c = true -> n <> 0%nat) ->
  client_sync s c = Done (follow s (drop n h) c).
Proof.
  intros [Hl Hs] Hn Hle Hg Hc. unfold client_sync, sync_fuel. rewrite Hs.
  apply (sync_loop_spec h); try done. lia.
Qed.

Lemma client_sync_empty s c : queue_inv (binlogs s) [] -> copying c = true -> c_last_seq c = 0 ->
  client_sync s c = Done (0, c, []).
Proof.
  intros [Hl Hs] Hc H0. unfold client_sync, sync_fuel. set (f := S (Z.to_nat _)). cbn [sync_loop].
  unfold copying in Hc. rewrite Hc, H0. cbn [andb Z.eqb]. by rewrite (find_last_spec _ []).
Qed.

(** The first call of a copy: the log up to now is skipped. *)
Lemma client_sync_first s h c e : queue_inv (binlogs s) h -> no_garbage c ->
  copying c = true -> c_last_seq c = 0 -> c_last_key c = [] ->
  last h = Some e -> le_key e <> [] ->
  client_sync s c = Done (0, set_iter Null (set_last_seq (Z.of_nat (length h)) c), []).
Proof.
  intros [Hl Hs] Hg Hc H0 Hk He Hne. unfold client_sync, sync_fuel. rewrite Hs.
  rewrite Nat2Z.id. set (f := S (length h)). cbn [sync_loop]. unfold copying in Hc. rewrite Hc, H0. cbn [andb Z.eqb].
  rewrite (find_last_spec _ h), He by done. cbn [Z.eqb].
  assert (0 < length h)%nat as Hpos by (destruct h; [done | cbn; lia]).
  pose proof (inv_fits _ _ Hl) as Hfit.
  unfold log_value. rewrite Binlog.key_make. cbn [ebind]. rewrite Bytes.gtb_lt, Hk.
  rewrite bool_decide_true by by destruct (le_key e). cbn [ebind].
  rewrite Binlog.seq_make by zlia. cbn [ebind]. rewrite drop_iter_ok by done. cbn [ebind].
  rewrite (sync_loop_spec h _ _ _ (length h)); try done; cbn; try (subst f; lia).
  by rewrite drop_all.
Qed.
End Follow.

(** ** Copying *)
Section Copy.
Context `{LevelDBSpec}.
Implicit Types (s : SSDBImpl) (c : Client).

Definition ended c : Z * Client * list packet * option (list entry) :=
  (0, set_iter Null (set_status SyncStatus.SYNC c),
   [[Binlog.make (c_last_seq c) BinlogType.COPY BinlogCommand.END []; lit "copy_end"]], None).

(** [n] rounds of [copy] over the entries [l]: the number of pairs sent, the
    client, the packets, and the entries left ([None] when the copy ended). *)
Fixpoint copied (n : nat) (l : list entry) c : Z * Client * list packet * option (list entry) :=
  match n with
  | O => (0, c, [], Some l)
  | S n =>
      match l with
      | [] => ended c
      | (k, v) :: l =>
          match k with
          | [] => copied n l c
          | t :: _ =>
              if schar DataType.MAX_PREFIX <? schar t then ended c
              else
                let c := set_last_key k c in
                let '(r, c', out, l') := copied n l c in
                if decide (t = DataType.KV) then
                  (r + 1, c', [Binlog.make (c_last_seq c) BinlogType.COPY BinlogCommand.KSET k; v] :: out, l')
                else (r, c', out, l')
          end
      end
  end.

Lemma set_iter_key p k c : set_last_key k (set_iter p c) = set_iter p (set_last_key k c).
Proof. done. Qed.

Lemma copy_loop_spec n : forall i c ret out, iter_wf i ->
  let '(r, c', o, lft) := copied n (yield i) c in
  match lft with
  | None => copy_loop n i c ret out = Done (1, c', out ++ o)
  | Some l => exists i', copy_loop n i c ret out = Done (ret + r, set_iter (Ptr i') c', out ++ o) /\
                iter_wf i' /\ yield i' = l
  end.
Proof.
  induction n as [| n IH]; intros i c ret out Hi; cbn [copied copy_loop].
  { exists i. by rewrite Z.add_0_r, app_nil_r. }
  destruct (iter_next_spec i Hi) as (b & i' & -> & Hi' & _ & Hy). cbn [ebind].
  destruct (yield i) as [| [k v] r].
  { by destruct Hy as [-> _]. }
  destruct Hy as (-> & He & Hr & _). injection He as -> ->. cbn [negb]. subst r.
  destruct k as [| t k]; [apply IH, Hi' |].
  destruct (schar DataType.MAX_PREFIX <? schar t); [done |].
  destruct (decide (t = DataType.KV)) as [Ht | Ht].
  - specialize (IH i' (set_last_key (t :: k) c) (ret + 1)
      (out ++ [[Binlog.make (c_last_seq c) BinlogType.COPY BinlogCommand.KSET (t :: k); v]]) Hi').
    destruct (copied n (yield i') _) as [[[r c'] o] lft]. rewrite <- app_assoc in IH.
    replace (ret + (r + 1)) with (ret + 1 + r) by lia. exact IH.
  - specialize (IH i' (set_last_key (t :: k) c) ret out Hi').
    by destruct (copied n (yield i') _) as [[[r c'] o] lft].
Qed.

(** The entries [copy] starts with. *)
Definition to_copy s c : list entry :=
  match c_iter c with
  | Ptr i => yield i
  | _ => filter (fun x => bytes_lt (if zlen (c_last_key c) =? 0 then [DataType.MIN_PREFIX]
                                    else c_last_key c) x.1)
           (sorted_entries (contents (ldb s)))
  end.
Definition iter_ok c : Prop :=
  match c_iter c with Null => True | Ptr i => iter_wf i | Wild => False end.
(** The limit passed, 2^64 - 1, is never reached. *)
Definition fits s : Prop := Z.of_nat (size (contents (ldb s))) <= uint64_max.

Lemma length_sorted_entries m : length (sorted_entries m) = size m.
Proof. unfold sorted_entries. by rewrite merge_sort_Permutation, length_map_to_list. Qed.

Lemma filter_length_le (P : entry -> Prop) `{forall x, Decision (P x)} l :
  (length (filter P l) <= length l)%nat.
Proof. induction l as [| x l IH]; [done |]. rewrite filter_cons. case_decide; cbn; lia. Qed.

Lemma client_copy_spec s c : iter_ok c -> fits s ->
  let '(r, c', o, lft) := copied 1000 (to_copy s c) c in
  match lft with
  | None => client_copy s c = Done (1, c', o)
  | Some l => exists i', client_copy s c = Done (r, set_iter (Ptr i') c', o) /\
                iter_wf i' /\ yield i' = l
  end.
Proof.
  intros Hi Hf. unfold client_copy.
  assert (exists i, match c_iter c with
                    | Null => Done (ssdb_iterator s (if zlen (c_last_key c) =? 0
                                then [DataType.MIN_PREFIX] else c_last_key c) [] uint64_max)
                    | Ptr i => Done i
                    | Wild => UB
                    end = Done i /\ iter_wf i /\ yield i = to_copy s c) as (i & -> & Hw & <-).
  { unfold iter_ok, to_copy in *. destruct (c_iter c) as [| i |]; [| by exists i | done].
    set (k := if _ =? 0 then _ else _).
    destruct (ssdb_iterator_spec s k [] uint64_max) as [Hw Hy]; [by vm_compute |].
    eexists. split; [done |]. split; [done |]. rewrite Hy, (filter_all (within []));
      [| by apply Forall_forall; left].
    apply ztake_all. unfold zlen, fits in *. pose proof (filter_length_le (fun x => bytes_lt k x.1)
      (sorted_entries (contents (ldb s)))) as Hl. rewrite length_sorted_entries in Hl. lia. }
  cbn [ebind]. pose proof (copy_loop_spec 1000 i c 0 [] Hw) as Hc.
  by destruct (copied 1000 (yield i) c) as [[[r c'] o] [l |]].
Qed.
End Copy.

(** ** Properties *)
Section Properties.
Context `{LevelDBSpec}.
Implicit Types (s : SSDBImpl) (c : Client) (h : list LogEntry).

(** C8: following the log.  Whatever the position [n] of the slave in a
    well-formed log of the store, a call of [sync] returns; the pointer [iter]
    must be good while a copy is under way (it is not even read otherwise), and
    the store's reads may fail.  When no copy is under way, or its position is
    not 0, the call takes the records after [n] one by one in order, none left
    out: it passes over those of keys that are still to be copied and those of a
    mirror for a mirror (with a no-op after a thousand), sends for the first other one (a set whose pair cannot
    be read, or is gone, is passed with nothing sent), and never tells a slave
    whose position is in the log that it is out of sync.  The first call of a
    copy, at position 0 with no key copied, does none of this: it jumps over the
    whole log to its last record and sends nothing, and over an empty log it
    leaves the client as it is.  (Records have keys, as those of every operation
    have.) *)
Theorem sync_follows_log s h c n : (copying c = true -> no_garbage c) -> (n <= length h)%nat ->
  Forall (fun e => le_key e <> []) h ->
  (copying c = true -> n = 0%nat -> c_last_key c = []) ->
  queue_inv (binlogs s) h -> c_last_seq c = Z.of_nat n ->
  client_sync s c = Done
    (if copying c && bool_decide (n = 0%nat) then
       match h with
       | [] => (0, c, [])
       | _ => (0, set_iter Null (set_last_seq (Z.of_nat (length h)) c), [])
       end
     else follow s (drop n h) c).
Proof.
  intros Hg Hn Hk HK Hq Hs. destruct (copying c) eqn:Hc; cbn [andb]; [case_bool_decide as E |].
  - destruct (last h) as [e |] eqn:El.
    + rewrite (client_sync_first s h c e); try done; [| by apply Hg | by rewrite Hs, E | by apply HK |].
      * by destruct h.
      * rewrite Forall_forall in Hk. by apply Hk, last_Some_elem_of.
    + apply last_None in El. subst h. apply client_sync_empty; [done | done |]. by rewrite Hs, E.
  - apply client_sync_spec; auto.
  - apply client_sync_spec; by rewrite ?Hc.
Qed.

Lemma follow_plain s c pending : c_is_mirror c = false -> copying c = false ->
  follow s pending c = match pending with
                       | [] => (0, c, [])
                       | e :: _ => (0, set_last_seq (c_last_seq c + 1) c,
                                    sends s (Z.to_nat (c_last_seq c + 1)) e)
                       end.
Proof.
  intros Hm Hc. destruct pending as [| e p]; [done |]. cbn [follow].
  unfold uncopied, mirrored. by rewrite Hc, Hm, andb_false_r.
Qed.

(** Once the copy is over, a turn of the thread reports that it found
    nothing to do whether or not it has sent a record, because [sync] returns 0
    after sending: the thread sleeps 300 ms after every single record. *)
Theorem sleeps_after_every_record s h c n : c_is_mirror c = false -> no_garbage c ->
  c_status c = SyncStatus.SYNC -> (n <= length h)%nat ->
  queue_inv (binlogs s) h -> c_last_seq c = Z.of_nat n ->
  exists c', round s c =
    Done (true, c', match h !! n with Some e => sends s (S n) e | None => [] end).
Proof.
  intros Hm Hg Hst Hn Hq Hs. unfold round. rewrite Hst. cbn [Z.eqb Pos.eqb].
  assert (copying c = false) as Hc by (unfold copying; by rewrite Hst).
  rewrite (client_sync_spec s h c n) by (done || by rewrite Hc).
  rewrite follow_plain by done. destruct (h !! n) as [e |] eqn:Eh.
  - rewrite (drop_S _ _ _ Eh). cbn [ebind c_status set_last_seq]. rewrite Hst. cbn [Z.eqb Pos.eqb].
    rewrite Hs. replace (Z.to_nat (Z.of_nat n + 1)) with (S n) by lia. by eexists.
  - apply lookup_ge_None in Eh. rewrite drop_ge by lia. cbn [ebind]. rewrite Hst. by eexists.
Qed.

Lemma client_init_seq g seq K m : is_uint64 seq ->
  client_init [lit "sync140"; str_uint64 seq; K; m] (new_Client g) =
    let c := mkClient SyncStatus.INIT seq 0 K (bool_decide (Some m = Some (lit "mirror")) || false) g in
    if (zlen K =? 0) && (seq =? 0) then Done (client_reset c) else Done (c, []).
Proof.
  intros Hs. unfold client_init. cbn. rewrite str_uint64_print, str_to_uint64_print by done. done.
Qed.

(** The first call of a copy whose [iter] points anywhere deletes it. *)
Lemma first_sync_wild s h c : queue_inv (binlogs s) h -> Forall (fun e => le_key e <> []) h ->
  h <> [] -> copying c = true -> c_last_seq c = 0 -> c_last_key c = [] -> c_iter c = Wild ->
  client_sync s c = UB.
Proof.
  intros [Hl Hs] Hk Hne Hc H0 HK Hit. unfold client_sync, sync_fuel. set (f := S (Z.to_nat _)).
  cbn [sync_loop]. unfold copying in Hc. rewrite Hc, H0. cbn [andb Z.eqb].
  rewrite (find_last_spec _ h) by done.
  destruct (last h) as [e |] eqn:El; [| by apply last_None in El]. cbn [Z.eqb].
  unfold log_value. rewrite Binlog.key_make. cbn [ebind]. rewrite Bytes.gtb_lt, HK.
  apply last_Some_elem_of in El. rewrite Forall_forall in Hk. specialize (Hk e El).
  rewrite bool_decide_true by by destruct (le_key e). pose proof (inv_fits _ _ Hl).
  cbn [ebind]. rewrite Binlog.seq_make by zlia. cbn [ebind]. unfold drop_iter. cbn. by rewrite Hit.
Qed.

(** The constructor leaves [iter] uninitialised: when it is not [NULL] by
    chance, the first turn for a slave that asks for a full copy deletes a wild
    pointer, or follows it when the log is empty. *)
Theorem uninitialised_iter s ss h m : queue_inv (binlogs s) h -> Forall (fun e => le_key e <> []) h ->
  run_thread [lit "sync140"; str_uint64 0; []; m] Wild (s :: ss) = UB.
Proof.
  intros Hq Hk. unfold run_thread. rewrite client_init_seq by by vm_compute.
  cbn zeta. change (zlen (@nil ascii) =? 0) with true. change (0 =? 0) with true.
  cbn [andb ebind client_reset rounds c_last_noop_seq c_is_mirror c_iter].
  set (c := mkClient _ _ _ _ _ _).
  assert (round s c = UB) as ->; [| done]. unfold round. cbn [c c_status Z.eqb Pos.eqb].
  destruct (decide (h = [])) as [-> | Hne]; [| by rewrite (first_sync_wild s h)].
  by rewrite client_sync_empty.
Qed.

(** A copy that was interrupted is never resumed: a slave that reconnects
    with the last key it got ([last_key] not empty) and the end of the log is
    put in the state [INIT], and however often the thread turns it is sent
    nothing, so the pairs after that key never reach it. *)
Theorem interrupted_copy_not_resumed h K m ss : K <> [] -> Z.of_nat (length h) < uint64_max ->
  Forall (fun s => queue_inv (binlogs s) h) ss ->
  exists c, run_thread [lit "sync140"; str_uint64 (Z.of_nat (length h)); K; m] Null ss = Done (c, []) /\
    c_status c = SyncStatus.INIT /\ c_last_key c = K.
Proof.
  intros HK Hf Hss. unfold run_thread. rewrite client_init_seq by zlia. cbn zeta.
  assert ((zlen K =? 0) = false) as -> by (apply Z.eqb_neq; by intros ?%zlen_0). cbn [andb ebind].
  set (c := mkClient _ _ _ _ _ _). assert (rounds ss c = Done (c, [])) as ->; [| by exists c].
  induction Hss as [| s ss Hq _ IH]; [done |]. cbn [rounds]. unfold round.
  rewrite (client_sync_spec s h c (length h)) by done. rewrite drop_all. cbn. by rewrite IH.
Qed.
End Properties.
End SyncSpec.

Module BackendSamples.
Import SyncSpec BinlogSamples.

Definition ssdb : SSDBImpl := mkSSDB queue.
Definition client (status seq : Z) : Client := mkClient status seq 0 [] false Null.

Lemma sync_follows_log_witness :
  client_sync ssdb (client SyncStatus.SYNC 1) =
    Done (0, client SyncStatus.SYNC 2, [[log_value 2 e2]]).
Proof.
  apply (sync_follows_log ssdb [e1; e2] (client SyncStatus.SYNC 1) 1);
    [done | cbn; lia | by repeat constructor | done | apply queue_inv_sample | done].
Defined.

Lemma sleeps_after_every_record_witness : exists c',
  round ssdb (client SyncStatus.SYNC 0) = Done (true, c', [[log_value 1 e1; lit "v"]]).
Proof.
  apply (sleeps_after_every_record ssdb [e1; e2] (client SyncStatus.SYNC 0) 0);
    [done | done | done | cbn; lia | apply queue_inv_sample | done].
Defined.

Lemma uninitialised_iter_witness :
  run_thread [lit "sync140"; str_uint64 0; []; lit "sync"] Wild [ssdb] = UB.
Proof.
  apply (uninitialised_iter ssdb [] [e1; e2] (lit "sync"));
    [apply queue_inv_sample | by repeat constructor].
Defined.

(** The pair of the store comes after the key [h]. *)
Lemma interrupted_copy_not_resumed_witness : exists c,
  run_thread [lit "sync140"; str_uint64 2; lit "h"; lit "sync"] Null [ssdb; ssdb; ssdb] = Done (c, []) /\
  c_status c = SyncStatus.INIT /\ c_last_key c = lit "h".
Proof.
  apply (interrupted_copy_not_resumed [e1; e2] (lit "h") (lit "sync") [ssdb; ssdb; ssdb]);
    [done | by vm_compute |].
  repeat (apply Forall_cons_2; [apply queue_inv_sample |]). apply Forall_nil_2.
Defined.
End BackendSamples.
