(* ===== verification/Config.v ===== *)
(** [Config] of [ssdb/src/util/config.h] and [config.cpp], and the engine options
    that [SSDB::open] makes of it.  The JSON library is vendored: what the code uses
    of it is the type of values, [operator[]] on them and their conversion; parsing
    is not modelled, the parsed value is given. *)
From S2P Require Import Prelude CLib.

#[local] Set Warnings "-register-all".

(** A number is an integer, or a floating-point value given by its integral part. *)
Inductive json :=
  | JNull | JBool (b : bool) | JInt (z : Z) | JFloat (trunc : Z) | JStr (s : bytes)
  | JArr (l : list json) | JObj (m : list (bytes * json)).

Definition is_string (j : json) : bool := match j with JStr _ => true | _ => false end.
Definition is_number (j : json) : bool := match j with JInt _ | JFloat _ => true | _ => false end.
Definition is_object (j : json) : bool := match j with JObj _ => true | _ => false end.

Fixpoint lookup_key (k : bytes) (m : list (bytes * json)) : json :=
  match m with
  | [] => JNull
  | (k', v) :: m => if decide (k' = k) then v else lookup_key k m
  end.

Record Config := mkConfig {
  data_dir : bytes; meta_dir : bytes; ip : bytes; port : Z; cache_size : Z; block_size : Z;
  write_buffer_size : Z; compression : bytes; master_port : Z; master_ip : bytes }.

Definition new_Config : Config :=
  mkConfig (lit "ssdb/data") (lit "ssdb/meta") (lit "127.0.0.1") 8888 500 32 64 (lit "yes") (-1) [].

(** [js[k]]: [null] becomes an object, and a member that is missing becomes [null];
    other values throw ([None]). *)
Definition member (j : json) (k : bytes) : option json :=
  match j with
  | JNull => Some JNull
  | JObj m => Some (lookup_key k m)
  | _ => None
  end.

(** [if(v.is_string()) field = v] and [if(v.is_number()) field = v]: conversion to
    [int] is a cast; of a floating-point value it is undefined out of range. *)
Definition read_string (v : json) (field : bytes) : bytes :=
  match v with JStr s => s | _ => field end.
Definition read_int (v : json) (field : Z) : exec Z :=
  match v with
  | JInt z => Done (to_int z)
  | JFloat t => let* _ := guard ((int_min <=? t) && (t <=? int_max)) in Done t
  | _ => Done field
  end.

(** A member of an object that [is_object] has found. *)
Definition field_of (j : json) (k : string) : json :=
  match j with JObj m => lookup_key (lit k) m | _ => JNull end.

(** [None]: an exception, which nothing catches. *)
Definition config_load (js : json) : exec (option Config) :=
  match member js (lit "data_dir") with
  | None => Done None
  | Some _ =>
      let c := new_Config in
      let data := read_string (field_of js "data_dir") (data_dir c) in
      let meta := read_string (field_of js "meta_dir") (meta_dir c) in
      let server := field_of js "server" in
      let ip_ := if is_object server then read_string (field_of server "ip") (ip c) else ip c in
      let* port_ := if is_object server then read_int (field_of server "port") (port c) else Done (port c) in
      let db := field_of js "leveldb" in
      let* cache := if is_object db then read_int (field_of db "cache_size") (cache_size c)
                    else Done (cache_size c) in
      let* block := if is_object db then read_int (field_of db "block_size") (block_size c)
                    else Done (block_size c) in
      let* wbuf := if is_object db then read_int (field_of db "write_buffer_size") (write_buffer_size c)
                   else Done (write_buffer_size c) in
      let compr := if is_object db then read_string (field_of db "compression") (compression c)
                   else compression c in
      let repl := field_of js "replication" in
      let slaveof := if is_object repl then field_of repl "slaveof" else JNull in
      let* mport := if is_object slaveof then read_int (field_of slaveof "port") (master_port c)
                    else Done (master_port c) in
      let mip := if is_object slaveof then read_string (field_of slaveof "ip") (master_ip c)
                 else master_ip c in
      Done (Some (mkConfig data meta ip_ port_ cache block wbuf compr mport mip))
  end.

(** [SSDB::open]: block and buffer size in bytes, and whether compression is asked
    for; the products are [int]s. *)
Record Options := mkOptions {
  create_if_missing : bool; opt_block_size : Z; opt_write_buffer_size : Z; kSnappyCompression : bool }.

Definition open_options (default_compression : bool) (cf : Config) : exec Options :=
  let* k1 := ck_int (block_size cf * 1024) in
  let* block := ck_int (k1 * 1024) in
  let* k2 := ck_int (write_buffer_size cf * 1024) in
  let* wbuf := ck_int (k2 * 1024) in
  Done (mkOptions true block wbuf
          (if decide (compression cf = lit "yes") then true else default_compression)).

Module ConfigSpec.
Section Lemmas.
Implicit Types (j : json) (c : Config).

(** The value at a path, [JNull] where there is none. *)
Fixpoint at_path j (p : list string) : json :=
  match p with
  | [] => j
  | k :: p => match j with JObj m => at_path (lookup_key (lit k) m) p | _ => JNull end
  end.

Definition string_at j p (d : bytes) : bytes := read_string (at_path j p) d.
Definition int_at j p (d : Z) : Z :=
  match at_path j p with JInt z => to_int z | JFloat t => t | _ => d end.
Definition int_ok j p : Prop :=
  match at_path j p with JFloat t => is_int t | _ => True end.

Lemma read_int_at j p d : int_ok j p -> read_int (at_path j p) d = Done (int_at j p d).
Proof.
  unfold int_ok, int_at, read_int. destruct (at_path j p); try done. intros [H1 H2].
  rewrite (proj2 (Z.leb_le _ _) H1), (proj2 (Z.leb_le _ _) H2). done.
Qed.

Lemma at_not_object j k p : is_object j = false -> at_path j (k :: p) = JNull.
Proof. by destruct j. Qed.

Lemma field_at j k : is_object j = true -> field_of j k = at_path j [k].
Proof. by destruct j. Qed.

Lemma nested_int j k1 k2 d : int_ok j [k1; k2] ->
  (if is_object (field_of j k1) then read_int (field_of (field_of j k1) k2) d else Done d) =
    Done (int_at j [k1; k2] d).
Proof.
  intros Hok. destruct j as [| | | | | | m]; try done.
  change (field_of (JObj m) k1) with (lookup_key (lit k1) m).
  change (int_at (JObj m) [k1; k2] d) with (int_at (lookup_key (lit k1) m) [k2] d).
  destruct (is_object (lookup_key (lit k1) m)) eqn:E.
  - rewrite field_at by done. by apply read_int_at.
  - unfold int_at. by rewrite at_not_object.
Qed.

Lemma nested_string j k1 k2 d :
  (if is_object (field_of j k1) then read_string (field_of (field_of j k1) k2) d else d) =
    string_at j [k1; k2] d.
Proof.
  destruct j as [| | | | | | m]; try done.
  change (field_of (JObj m) k1) with (lookup_key (lit k1) m).
  change (string_at (JObj m) [k1; k2] d) with (string_at (lookup_key (lit k1) m) [k2] d).
  destruct (lookup_key (lit k1) m); done.
Qed.

Definition ints : list (list string) :=
  [["server"; "port"]; ["leveldb"; "cache_size"]; ["leveldb"; "block_size"];
   ["leveldb"; "write_buffer_size"]; ["replication"; "slaveof"; "port"]]%string.

(** Any JSON object (or [null]) is a configuration: each setting is the value
    at its path if it has the right type and its default otherwise, integers cut
    to 32 bits; any other JSON value ends the program with an exception. *)
Theorem config_load_spec j : Forall (int_ok j) ints ->
  (is_object j = true \/ j = JNull ->
   exists c, config_load j = Done (Some c) /\
    data_dir c = string_at j ["data_dir"]%string (lit "ssdb/data") /\
    meta_dir c = string_at j ["meta_dir"]%string (lit "ssdb/meta") /\
    ip c = string_at j ["server"; "ip"]%string (lit "127.0.0.1") /\
    port c = int_at j ["server"; "port"]%string 8888 /\
    cache_size c = int_at j ["leveldb"; "cache_size"]%string 500 /\
    block_size c = int_at j ["leveldb"; "block_size"]%string 32 /\
    write_buffer_size c = int_at j ["leveldb"; "write_buffer_size"]%string 64 /\
    compression c = string_at j ["leveldb"; "compression"]%string (lit "yes") /\
    master_port c = int_at j ["replication"; "slaveof"; "port"]%string (-1) /\
    master_ip c = string_at j ["replication"; "slaveof"; "ip"]%string []) /\
  (is_object j = false -> j <> JNull -> config_load j = Done None).
Proof.
  unfold ints. rewrite !Forall_cons. intros (H1 & H2 & H3 & H4 & H5 & _). split.
  2: { by destruct j. }
  intros Hj. unfold config_load.
  assert (exists v, member j (lit "data_dir") = Some v) as [v ->].
  { destruct Hj as [Hj | ->]; [destruct j; try done |]; by eexists. }
  cbn [port cache_size block_size write_buffer_size master_port new_Config ip compression master_ip].
  rewrite !nested_int, !nested_string by done. cbn [ebind].
  assert ((let slaveof := if is_object (field_of j "replication") then field_of (field_of j "replication") "slaveof"
           else JNull in if is_object slaveof then read_int (field_of slaveof "port") (-1) else Done (-1)) =
          Done (int_at j ["replication"; "slaveof"; "port"]%string (-1))) as Hp.
  { destruct j as [| | | | | | m]; try done. cbn zeta.
    change (field_of (JObj m) "replication") with (lookup_key (lit "replication") m).
    change (int_ok (JObj m) ["replication"; "slaveof"; "port"]%string) with
      (int_ok (lookup_key (lit "replication") m) ["slaveof"; "port"]%string) in H5.
    destruct (lookup_key (lit "replication") m) as [| | | | | | m'] eqn:E; try by unfold int_at; cbn [at_path]; rewrite E.
    cbn [is_object]. rewrite nested_int by done. unfold int_at. cbn [at_path]. by rewrite E. }
  cbn zeta in Hp. rewrite Hp. cbn [ebind]. eexists. split; [done |].
  cbn [data_dir meta_dir ip port cache_size block_size write_buffer_size compression master_port master_ip].
  split_and!; try done; try by destruct j.
  destruct j as [| | | | | | m]; try done.
  change (field_of (JObj m) "replication") with (lookup_key (lit "replication") m).
  unfold string_at. cbn [at_path].
  destruct (lookup_key (lit "replication") m) as [| | | | | | m'] eqn:E; try done.
  cbn [is_object]. rewrite nested_string. done.
Qed.

(** The options: sizes are multiplied by 2^20 in [int], which overflows from
    2048 on; a configuration cannot turn compression off when it is the engine's
    default. *)
Theorem open_options_spec cf :
  (0 <= block_size cf < 2048 -> 0 <= write_buffer_size cf < 2048 -> forall dc,
     exists o, open_options dc cf = Done o /\ opt_block_size o = block_size cf * 2 ^ 20 /\
       opt_write_buffer_size o = write_buffer_size cf * 2 ^ 20 /\
       kSnappyCompression o = bool_decide (compression cf = lit "yes") || dc) /\
  (is_int (block_size cf) -> 2048 <= block_size cf -> forall dc, open_options dc cf = UB).
Proof.
  unfold open_options. split.
  - intros Hb Hw dc. rewrite !ck_int_ok by zlia. cbn [ebind]. rewrite !ck_int_ok by zlia. cbn [ebind].
    eexists. split; [done |]. cbn. split_and!; [lia | lia |]. by case_decide; case_bool_decide.
  - intros Hb Hge dc. unfold ck_int at 1.
    case_match eqn:E1; [| done]. cbn [ebind]. unfold ck_int at 1. case_match eqn:E2; [| done].
    exfalso. zlia.
Qed.
End Lemmas.
End ConfigSpec.

Module ConfigSamples.
Import ConfigSpec.

(** The port is text, the block size does not fit an [int]. *)
Definition sample_json : json :=
  JObj [(lit "data_dir", JStr (lit "/var/data"));
        (lit "server", JObj [(lit "port", JStr (lit "80")); (lit "ip", JStr (lit "0.0.0.0"))]);
        (lit "leveldb", JObj [(lit "block_size", JInt (2 ^ 32 + 4))])].

Lemma config_load_spec_witness :
  (exists c, config_load sample_json = Done (Some c) /\ data_dir c = lit "/var/data" /\
    port c = 8888 /\ ip c = lit "0.0.0.0" /\ block_size c = 4).
Proof.
  destruct (proj1 (config_load_spec sample_json ltac:(by repeat constructor)) (or_introl eq_refl))
    as (c & E & Hd & _ & Hi & Hp & _ & Hb & _).
  exists c. split; [exact E |]. split; [exact Hd |]. split; [exact Hp |]. split; [exact Hi |].
  rewrite Hb. vm_compute. reflexivity.
Defined.
End ConfigSamples.
