(* ===== verification/Slave.v ===== *)
(** [Slave] of [ssdb/src/slave.h] and [slave.cpp]: the thread that connects to a
    master, applies what it sends, and keeps its position in the meta store.  The
    connection itself (libuv) is not modelled: [on_connect] is given the status of
    the connection, [slave_onRead] the bytes that arrive. *)
From S2P Require Import Prelude CLib Strings Bytes Redis LevelDB Binlog Iterator SSDB Link BackendSync.
Import BinlogSpec IteratorSpec SSDBSpec.

(** The states of [Slave]. *)
Module SlaveStatus.
Definition DISCONNECTED : Z := 0.
Definition INIT : Z := 1.
Definition COPY : Z := 2.
Definition SYNC : Z := 4.
Definition OUT_OF_SYNC : Z := 8.
End SlaveStatus.

Section Ops.
Context `{LevelDB}.

Record Slave := mkSlave {
  s_status : Z; s_is_mirror : bool; s_copy_count : Z; s_sync_count : Z;
  s_last_seq : Z; s_last_key : bytes; s_id : bytes; s_thread_quit : bool;
  s_ssdb : SSDBImpl; s_meta : SSDBImpl; master_ip : bytes; master_port : Z }.

(** What [%s] prints of a string. *)
Fixpoint c_string (s : bytes) : bytes :=
  match s with
  | [] => []
  | c :: s => if decide (c = NUL) then [] else c :: c_string s
  end.

(** [set_id] with ["%s|%d"] printed into 128 bytes: the address up to its first
    [NUL].  [status] and [is_mirror] are left uninitialised. *)
Definition slave_id (ip : bytes) (port : Z) : bytes :=
  snprintf 128 (c_string ip ++ chr 124 :: print_int port).
Definition new_Slave (status : Z) (is_mirror : bool) (ssdb meta : SSDBImpl) (ip : bytes) (port : Z)
    : Slave :=
  mkSlave status is_mirror 0 0 0 [] (slave_id ip port) false ssdb meta ip port.

Definition set_s_status (z : Z) (s : Slave) : Slave :=
  mkSlave z (s_is_mirror s) (s_copy_count s) (s_sync_count s) (s_last_seq s) (s_last_key s)
    (s_id s) (s_thread_quit s) (s_ssdb s) (s_meta s) (master_ip s) (master_port s).
Definition set_s_counts (copy sync : Z) (s : Slave) : Slave :=
  mkSlave (s_status s) (s_is_mirror s) copy sync (s_last_seq s) (s_last_key s)
    (s_id s) (s_thread_quit s) (s_ssdb s) (s_meta s) (master_ip s) (master_port s).
Definition set_s_pos (seq : Z) (key : bytes) (s : Slave) : Slave :=
  mkSlave (s_status s) (s_is_mirror s) (s_copy_count s) (s_sync_count s) seq key
    (s_id s) (s_thread_quit s) (s_ssdb s) (s_meta s) (master_ip s) (master_port s).
Definition set_s_dbs (ssdb meta : SSDBImpl) (s : Slave) : Slave :=
  mkSlave (s_status s) (s_is_mirror s) (s_copy_count s) (s_sync_count s) (s_last_seq s) (s_last_key s)
    (s_id s) (s_thread_quit s) ssdb meta (master_ip s) (master_port s).

Definition slave_stop (s : Slave) : Slave :=
  if (zlen (master_ip s) =? 0) || (master_port s <=? 0) then s
  else mkSlave (s_status s) (s_is_mirror s) (s_copy_count s) (s_sync_count s) (s_last_seq s)
         (s_last_key s) (s_id s) true (s_ssdb s) (s_meta s) (master_ip s) (master_port s).

Definition status_key (s : Slave) : bytes := lit "slave.status." ++ s_id s.

Definition load_status (s : Slave) : exec Slave :=
  let '(_, key) := ssdb_hget (s_meta s) (status_key s) (lit "last_key") [] in
  let '(_, seq) := ssdb_hget (s_meta s) (status_key s) (lit "last_seq") [] in
  let s := if negb (zlen key =? 0) then set_s_pos (s_last_seq s) key s else s in
  if negb (zlen seq =? 0) then
    let* (v, _) := str_to_uint64 0 seq in Done (set_s_pos v (s_last_key s) s)
  else Done s.

Definition save_status (s : Slave) : exec Slave :=
  let seq := str_uint64 (s_last_seq s) in
  let* (_, m) := ssdb_hset (status_key s) (lit "last_key") (s_last_key s) BinlogType.SYNC (s_meta s) in
  let* (_, m) := ssdb_hset (status_key s) (lit "last_seq") seq BinlogType.SYNC m in
  Done (set_s_dbs (s_ssdb s) m s).

(** [None]: the process exits. *)
Definition migrate_old_status (s : Slave) : exec (option Slave) :=
  let old_key := lit "new.slave.status|" ++ s_id s in
  let '(old_found, val) := raw_get (s_meta s) old_key [] in
  if old_found =? 0 then Done (Some s)
  else if zlen val <? 8 then Done (Some s)
  else
    let* s := save_status (set_s_pos (rd_u64 (ztake 8 val)) (zdrop 8 val) s) in
    let '(r, m) := raw_del old_key (s_meta s) in
    if r =? -1 then Done None else Done (Some (set_s_dbs (s_ssdb s) m s)).

Definition slave_start (s : Slave) : exec (option Slave) :=
  if zlen (master_ip s) =? 0 then Done (Some s)
  else if master_port s <=? 0 then Done (Some s)
  else
    let* o := migrate_old_status s in
    match o with
    | None => Done None
    | Some s => let* s := load_status s in Done (Some s)
    end.

(** What it writes when connected; only the status -1 counts as a failure. *)
Definition on_connect `{Heap} (status : Z) (s : Slave) : exec (option bytes) :=
  if status =? -1 then Done None
  else let* b := send4 (lit "sync140") (str_uint64 (s_last_seq s)) (s_last_key s) (lit "sync") in
       Done (Some b).

(** The [switch] of [proc_sync]: whether a write failed (an early return;
    [break] leads on), and the store. *)
Definition sync_switch (log : Binlog.t) (req : list bytes) (db : SSDBImpl) : exec (bool * SSDBImpl) :=
  let* cmd := Binlog.cmd log in
  if decide (cmd = BinlogCommand.KSET) then
    if negb (zlen req =? 2) then Done (false, db)
    else
      let* k := Binlog.key log in
      match decode_kv_key k, req with
      | Some key, [_; v] => let '(r, db) := ssdb_set key v db in Done (r =? -1, db)
      | _, _ => Done (false, db)
      end
  else if decide (cmd = BinlogCommand.KDEL) then
    let* k := Binlog.key log in
    match decode_kv_key k with
    | Some key => let '(r, db) := ssdb_del key db in Done (r =? -1, db)
    | None => Done (false, db)
    end
  else Done (false, db).

Definition proc_sync (log : Binlog.t) (req : list bytes) (s : Slave) : exec (Z * Slave) :=
  let* (failed, db) := sync_switch log req (s_ssdb s) in
  let s := set_s_dbs db (s_meta s) s in
  if failed : bool then Done (-1, s)
  else
    let* seq := Binlog.seq log in
    let* type := Binlog.type log in
    let* key := (if decide (type = BinlogType.COPY) then Binlog.key log else Done (s_last_key s)) in
    let* s := save_status (set_s_pos seq key s) in
    Done (0, s).

Definition proc_copy (log : Binlog.t) (req : list bytes) (s : Slave) : exec (Z * Slave) :=
  let* cmd := Binlog.cmd log in
  if decide (cmd = BinlogCommand.BEGIN) then Done (0, s)
  else if decide (cmd = BinlogCommand.END) then
    let* s := save_status (set_s_pos (s_last_seq s) [] (set_s_status SlaveStatus.SYNC s)) in
    Done (0, s)
  else
    proc_sync log req (set_s_counts (to_uint64 (s_copy_count s + 1)) (s_sync_count s) s).

Definition slave_proc (req : list bytes) (s : Slave) : exec (Z * Slave) :=
  match req with
  | [] => UB
  | r :: _ =>
      let '(ret, log) := Binlog.load r Binlog.empty in
      if ret =? -1 then Done (0, s)
      else
        let* type := Binlog.type log in
        let* s :=
          (if decide (type = BinlogType.NOOP) then Done s
           else if decide (type = BinlogType.CTRL) then
             let* k := Binlog.key log in
             Done (if decide (k = lit "OUT_OF_SYNC") then set_s_status SlaveStatus.OUT_OF_SYNC s else s)
           else if decide (type = BinlogType.COPY) then
             let* (_, s) := proc_copy log req (set_s_status SlaveStatus.COPY s) in Done s
           else if decide (type = BinlogType.SYNC \/ type = BinlogType.MIRROR) then
             let* (_, s) := proc_sync log req
               (set_s_counts (s_copy_count s) (to_uint64 (s_sync_count s + 1))
                  (set_s_status SlaveStatus.SYNC s)) in
             Done s
           else Done s) in
        Done (0, s)
  end.

Fixpoint procs (reqs : list (list bytes)) (s : Slave) : exec Slave :=
  match reqs with
  | [] => Done s
  | r :: reqs => let* (_, s) := slave_proc r s in procs reqs s
  end.

(** [onRead]: the link is deleted ([None]) when the data is malformed. *)
Fixpoint slave_onRead_loop `{Heap} (fuel : nat) (l : Link) (s : Slave)
    : exec (option Link * Slave) :=
  match fuel with
  | O => NoFuel
  | S f =>
      let* (req, l) := link_recv_req l in
      match req with
      | None => Done (None, s)
      | Some [] => Done (Some l, s)
      | Some req => let* (_, s) := slave_proc req s in slave_onRead_loop f l s
      end
  end.
Definition slave_onRead `{Heap} (nread : bytes) (l : Link) (s : Slave) : exec (option Link * Slave) :=
  match nread with
  | [] => Done (Some l, s)
  | _ =>
      let* l := copy2Buffer nread l in
      slave_onRead_loop (S (Z.to_nat (Buffer.size_ (input l)))) l s
  end.

(** What arrives on the connection, chunk by chunk. *)
Fixpoint slave_feed `{Heap} (cs : list bytes) (l : Link) (s : Slave) : exec (option Link * Slave) :=
  match cs with
  | [] => Done (Some l, s)
  | x :: cs =>
      let* (o, s) := slave_onRead x l s in
      match o with None => Done (None, s) | Some l => slave_feed cs l s end
  end.
End Ops.

(** * What the slave does with a stream of packets *)

(** A packet: a log record and its arguments. *)
Record Msg := mkMsg { m_seq : Z; m_type : char; m_cmd : char; m_key : bytes; m_args : list bytes }.
Definition enc_msg (m : Msg) : packet :=
  Binlog.make (m_seq m) (m_type m) (m_cmd m) (m_key m) :: m_args m.

(** What a slave is to its master: the pairs it holds and its position. *)
Record Replica := mkReplica { r_pairs : gmap bytes bytes; r_seq : Z; r_key : bytes }.

Definition msg_pairs (m : Msg) (p : gmap bytes bytes) : gmap bytes bytes :=
  if decide (m_cmd m = BinlogCommand.KSET) then
    match decode_kv_key (m_key m), m_args m with
    | Some k, [v] => if decide (k = []) then p else <[k := v]> p
    | _, _ => p
    end
  else if decide (m_cmd m = BinlogCommand.KDEL) then
    match decode_kv_key (m_key m) with Some k => delete k p | None => p end
  else p.

Definition applied (r : Replica) (m : Msg) : Replica :=
  if decide (m_type m = BinlogType.COPY) then
    if decide (m_cmd m = BinlogCommand.BEGIN) then r
    else if decide (m_cmd m = BinlogCommand.END) then mkReplica (r_pairs r) (r_seq r) []
    else mkReplica (msg_pairs m (r_pairs r)) (m_seq m) (m_key m)
  else if decide (m_type m = BinlogType.SYNC \/ m_type m = BinlogType.MIRROR) then
    mkReplica (msg_pairs m (r_pairs r)) (m_seq m) (r_key r)
  else r.

Module SlaveSpec.
Section Replica.
Implicit Types (m : Msg) (r : Replica) (p : gmap bytes bytes).

Lemma applied_SYNC r m : m_type m = BinlogType.SYNC ->
  applied r m = mkReplica (msg_pairs m (r_pairs r)) (m_seq m) (r_key r).
Proof. intros Ht. unfold applied. by rewrite Ht. Qed.

Lemma applied_COPY r m : m_type m = BinlogType.COPY -> m_cmd m = BinlogCommand.KSET ->
  applied r m = mkReplica (msg_pairs m (r_pairs r)) (m_seq m) (m_key m).
Proof. intros Ht Hc. unfold applied. by rewrite Ht, Hc. Qed.

Lemma msg_pairs_set m p k v : m_cmd m = BinlogCommand.KSET -> m_key m = encode_kv_key k ->
  m_args m = [v] -> msg_pairs m p = if decide (k = []) then p else <[k := v]> p.
Proof. intros Hc Hk Ha. unfold msg_pairs. by rewrite Hc, Hk, Ha, decode_encode_kv_key. Qed.

Lemma msg_pairs_del m p k : m_cmd m = BinlogCommand.KDEL -> m_key m = encode_kv_key k ->
  msg_pairs m p = delete k p.
Proof. intros Hc Hk. unfold msg_pairs. by rewrite Hc, Hk, decode_encode_kv_key. Qed.
End Replica.

Section Lemmas.
Context `{LevelDBSpec} `{!Healthy good}.
Implicit Types (s : Slave) (a am : Spec) (m : Msg) (r : Replica).

Record srep s a am : Prop := {
  sr_ssdb : rep (s_ssdb s) a;
  sr_meta : rep (s_meta s) am;
  sr_good : good (ldb (s_ssdb s));
  sr_good_meta : good (ldb (s_meta s));
  sr_id : zlen (s_id s) <= 127;
  sr_seq : is_uint64 (s_last_seq s)
}.

(** The position is in the meta store: a new process loads it. *)
Definition saved s am : Prop :=
  hash am !! (status_key s, lit "last_key") = Some (s_last_key s) /\
  hash am !! (status_key s, lit "last_seq") = Some (str_uint64 (s_last_seq s)).

Lemma valid_status_key s k : zlen (s_id s) <= 127 -> k = lit "last_key" \/ k = lit "last_seq" ->
  valid_field (status_key s) k.
Proof.
  intros Hid Hk. assert (zlen (lit "slave.status.") = 13) as Hl by done.
  unfold status_key, valid_field, valid_part, SSDB_KEY_LEN_MAX. split.
  - split; [done |]. rewrite zlen_app. lia.
  - by destruct Hk as [-> | ->].
Qed.

Lemma hash_spec_hset n k v ty a : hash (spec_hset n k v ty a) = <[(n, k) := v]> (hash a).
Proof. unfold spec_hset. case_decide; [by rewrite insert_id | done]. Qed.

Lemma hset_bounded n nm k v ty a : valid_field nm k -> bounded n a ->
  bounded (n + 1) (spec_hset nm k v ty a).
Proof.
  intros Hv Hb. apply (spec_step_bounded False n (OpHset nm k v ty) (RInt (hset_result a nm k)) a); [done |].
  cbn [spec_step]. rewrite decide_True by done. by left.
Qed.

Lemma save_status_spec s a am n : srep s a am -> bounded n am -> n + 2 < 2 ^ 62 ->
  exists mt am', save_status s = Done (set_s_dbs (s_ssdb s) mt s) /\
    srep (set_s_dbs (s_ssdb s) mt s) a am' /\ bounded (n + 2) am' /\
    saved (set_s_dbs (s_ssdb s) mt s) am'.
Proof.
  intros [Hs Hm Hg Hgm Hid Hq] Hb Hn. unfold save_status.
  assert (valid_field (status_key s) (lit "last_key")) as Hv1 by (apply valid_status_key; auto).
  assert (valid_field (status_key s) (lit "last_seq")) as Hv2 by (apply valid_status_key; auto).
  destruct (bounded_room n am Hb ltac:(lia)) as [Hr1 Hf1].
  destruct (hset_healthy _ _ (s_last_key s) BinlogType.SYNC _ _ Hm Hr1 Hf1 Hgm Hv1) as (m1 & -> & Hm1 & Hg1).
  cbn [ebind]. set (am1 := spec_hset _ _ _ _ am) in *.
  assert (bounded (n + 1) am1) as Hb1 by by apply hset_bounded.
  destruct (bounded_room _ _ Hb1 ltac:(lia)) as [Hr2 Hf2].
  destruct (hset_healthy _ _ (str_uint64 (s_last_seq s)) BinlogType.SYNC _ _ Hm1 Hr2 Hf2 Hg1 Hv2)
    as (m2 & -> & Hm2 & Hg2).
  cbn [ebind]. eexists m2, _. split; [done |]. split; [by split |]. split.
  - replace (n + 2) with (n + 1 + 1) by lia. by apply hset_bounded.
  - subst am1. split; cbn [s_last_key s_last_seq set_s_dbs]; rewrite !hash_spec_hset;
      change (status_key (set_s_dbs (s_ssdb s) m2 s)) with (status_key s).
    + rewrite lookup_insert_ne by (intros E; by simplify_eq). apply lookup_insert_eq.
    + apply lookup_insert_eq.
Qed.

Lemma hget_healthy d a n k : rep d a -> good (ldb d) ->
  ssdb_hget d n k [] = match hash a !! (n, k) with Some v => (1, v) | None => (0, []) end.
Proof.
  intros [Hr _] Hg. unfold ssdb_hget. rewrite read_readable by by apply healthy_read.
  by rewrite (r_hash _ _ Hr).
Qed.

Lemma str_uint64_ne z : is_uint64 z -> (zlen (str_uint64 z) =? 0) = false.
Proof.
  intros Hz. rewrite str_uint64_print by done.
  destruct (print_int_head z) as (c & t & -> & _); [zlia |]. apply Z.eqb_neq. zl.
Qed.

(** A fresh object loads the position. *)
Lemma load_status_spec s a am seq key s0 : srep s a am -> saved s am ->
  s0 = set_s_pos seq key s -> key = [] ->
  load_status s0 = Done (set_s_pos (s_last_seq s) (s_last_key s) s0).
Proof.
  intros [Hs Hm Hg Hgm Hid Hq] [Hk Hsq] -> ->. unfold load_status.
  change (status_key (set_s_pos seq [] s)) with (status_key s).
  change (s_meta (set_s_pos seq [] s)) with (s_meta s).
  rewrite !(hget_healthy _ am), Hk, Hsq by done.
  rewrite str_uint64_ne by done. rewrite str_uint64_print, str_to_uint64_print by done.
  cbn [negb ebind]. destruct (Z.eqb_spec (zlen (s_last_key s)) 0) as [E | E]; cbn [negb]; [| done].
  apply zlen_0 in E. by rewrite E.
Qed.

(** A bound on the logs and sizes of both stores. *)
Definition small (n : Z) a am : Prop := bounded n a /\ bounded n am.

Lemma bounded_le n n' a : bounded n a -> n <= n' -> bounded n' a.
Proof. intros [Hl Hs] Hn. split; [lia | intros nm; specialize (Hs nm); lia]. Qed.

Lemma bounded_log n a b e : bounded n a -> hash b = hash a -> history b = history a ++ [e] ->
  bounded (n + 1) b.
Proof.
  intros [Hl Hs] Eh El. split; [rewrite El, length_app; cbn; lia |].
  intros nm. rewrite Eh. specialize (Hs nm). lia.
Qed.

Lemma sync_switch_spec m db a n : rep db a -> good (ldb db) -> bounded n a -> n < 2 ^ 61 ->
  exists db' a', sync_switch (Binlog.make (m_seq m) (m_type m) (m_cmd m) (m_key m)) (enc_msg m) db =
      Done (false, db') /\
    rep db' a' /\ good (ldb db') /\ bounded (n + 1) a' /\ kv a' = msg_pairs m (kv a).
Proof.
  intros Hrep Hg Hb Hn. destruct (bounded_room n a Hb ltac:(lia)) as [Hroom _].
  assert (bounded (n + 1) a) as Hb' by (eapply bounded_le; [done | lia]).
  unfold sync_switch, msg_pairs. rewrite Binlog.cmd_make. cbn [ebind].
  case_decide as Hset; [| case_decide as Hdel; [| by exists db, a]].
  - unfold enc_msg. rewrite zlen_cons.
    destruct (m_args m) as [| v [| v' args]].
    + cbn. exists db, a. by destruct (decode_kv_key _).
    + cbn [negb Z.eqb]. change (1 + zlen [v] =? 2) with true. cbn [negb]. rewrite Binlog.key_make.
      cbn [ebind]. destruct (decode_kv_key (m_key m)) as [k |]; [| by exists db, a].
      case_decide as Hk.
      * subst k. exists db, a. done.
      * destruct (set_healthy k v db a Hrep Hroom Hg Hk) as (db' & -> & Hrep' & Hg').
        eexists db', _. split; [done |]. split; [exact Hrep' |]. split; [done |].
        split; [by eapply bounded_log | done].
    + assert (negb (1 + zlen (v :: v' :: args) =? 2) = true) as ->.
      { apply negb_true_iff, Z.eqb_neq. zl. }
      exists db, a. by destruct (decode_kv_key _).
  - rewrite Binlog.key_make. cbn [ebind].
    destruct (decode_kv_key (m_key m)) as [k |]; [| by exists db, a].
    destruct (del_healthy k db a Hrep Hroom Hg) as (db' & -> & Hrep' & Hg').
    eexists db', _. split; [done |]. split; [exact Hrep' |]. split; [done |].
    split; [by eapply bounded_log | done].
Qed.

Definition replica_of s a : Replica := mkReplica (kv a) (s_last_seq s) (s_last_key s).

(** One step: the object afterwards represents [a'], its position is in the meta
    store, and it is the replica [r']. *)
Definition stepped s s' n am r' : Prop :=
  exists a' am', srep s' a' am' /\ small (n + 2) a' am' /\ (saved s am -> saved s' am') /\
    replica_of s' a' = r' /\ s_id s' = s_id s.

Lemma proc_sync_spec m s a am n : srep s a am -> small n a am -> n < 2 ^ 61 -> is_uint64 (m_seq m) ->
  exists s', proc_sync (Binlog.make (m_seq m) (m_type m) (m_cmd m) (m_key m)) (enc_msg m) s = Done (0, s') /\
    stepped s s' n am (mkReplica (msg_pairs m (kv a)) (m_seq m)
                         (if decide (m_type m = BinlogType.COPY) then m_key m else s_last_key s)).
Proof.
  intros [Hs Hm Hg Hgm Hid Hq] [Hb Hbm] Hn Hu. unfold proc_sync.
  destruct (sync_switch_spec m _ a n Hs Hg Hb Hn) as (db & a' & -> & Hrep & Hg' & Hb' & Ekv).
  cbn [ebind]. rewrite Binlog.seq_make, Binlog.type_make by done. cbn [ebind].
  assert (forall d, (if decide (m_type m = BinlogType.COPY)
      then Binlog.key (Binlog.make (m_seq m) (m_type m) (m_cmd m) (m_key m)) else Done d) =
    Done (if decide (m_type m = BinlogType.COPY) then m_key m else d)) as Hkey
    by (intros; case_decide; [apply Binlog.key_make | done]).
  rewrite Hkey. cbn [ebind]. set (s1 := set_s_pos _ _ _).
  assert (srep s1 a' am) as Hs1 by by split.
  destruct (save_status_spec s1 a' am n Hs1 Hbm ltac:(lia)) as (mt & am' & -> & Hs2 & Hb2 & Hsv).
  cbn [ebind]. eexists. split; [done |]. exists a', am'.
  split; [done |]. split; [split; [eapply bounded_le; [done | lia] | done] |].
  split; [done |]. split; [| done]. unfold replica_of. by rewrite Ekv.
Qed.

Lemma stepped_refl s a am n : srep s a am -> small n a am -> stepped s s n am (replica_of s a).
Proof.
  intros Hs [Hb Hbm]. exists a, am. split; [done |].
  split; [split; (eapply bounded_le; [done | lia]) |]. done.
Qed.

(** Fields outside the replica do not matter. *)
Lemma srep_proj s s' a am : srep s a am -> s_ssdb s' = s_ssdb s -> s_meta s' = s_meta s ->
  s_id s' = s_id s -> s_last_seq s' = s_last_seq s -> srep s' a am.
Proof. intros [? ? ? ? ? ?] E1 E2 E3 E4. split; by rewrite ?E1, ?E2, ?E3, ?E4. Qed.

Lemma stepped_proj s0 s s' n am r : s_id s0 = s_id s -> s_last_seq s0 = s_last_seq s ->
  s_last_key s0 = s_last_key s -> stepped s0 s' n am r -> stepped s s' n am r.
Proof.
  intros E1 E2 E3 (a' & am' & ? & ? & Hsv & ? & ?). exists a', am'.
  split_and!; try done; [| congruence]. intros [Hk Hq]. apply Hsv.
  unfold saved, status_key. by rewrite E1, E2, E3.
Qed.

Lemma slave_proc_spec m s a am n : srep s a am -> small n a am -> n < 2 ^ 61 -> is_uint64 (m_seq m) ->
  exists s', slave_proc (enc_msg m) s = Done (0, s') /\ stepped s s' n am (applied (replica_of s a) m).
Proof.
  intros Hs Hb Hn Hu. unfold slave_proc, enc_msg at 1, applied. rewrite Binlog.load_make.
  cbn [Z.eqb]. rewrite Binlog.type_make. cbn [ebind].
  pose proof (stepped_refl s a am n Hs Hb) as Hrefl.
  destruct (decide (m_type m = BinlogType.NOOP)) as [Ht | Ht].
  { rewrite Ht. exists s. done. }
  destruct (decide (m_type m = BinlogType.CTRL)) as [Hc | Hc].
  { rewrite Hc, Binlog.key_make. cbn [ebind]. eexists. split; [done |].
    destruct (decide (m_key m = lit "OUT_OF_SYNC")); [| exact Hrefl].
    set (s1 := set_s_status _ _). apply (stepped_proj s1); [done.. |].
    apply (stepped_refl s1 a); [by eapply srep_proj | done]. }
  destruct (decide (m_type m = BinlogType.COPY)) as [Ho | Ho].
  - unfold proc_copy. rewrite Binlog.cmd_make. cbn [ebind].
    case_decide.
    { cbn. eexists. split; [done |]. set (s1 := set_s_status _ _).
      apply (stepped_proj s1); [done.. |]. apply (stepped_refl s1 a); [by eapply srep_proj | done]. }
    case_decide.
    + set (s1 := set_s_pos _ _ _).
      destruct (save_status_spec s1 a am n (srep_proj s s1 a am Hs eq_refl eq_refl eq_refl eq_refl)
                  (proj2 Hb) ltac:(lia)) as (mt & am' & -> & Hs2 & Hb2 & Hsv).
      cbn [ebind]. eexists. split; [done |]. exists a, am'. split; [done |].
      split; [split; [eapply bounded_le; [apply Hb | lia] | done] |]. done.
    + set (s1 := set_s_counts _ _ _).
      destruct (proc_sync_spec m s1 a am n (srep_proj s s1 a am Hs eq_refl eq_refl eq_refl eq_refl)
                  Hb Hn Hu) as (s' & E & Hst).
      fold (enc_msg m). rewrite E. cbn [ebind]. exists s'. split; [done |].
      rewrite decide_True in Hst by done. by eapply stepped_proj.
  - case_decide; [| cbn; by exists s].
    set (s1 := set_s_counts _ _ _).
    destruct (proc_sync_spec m s1 a am n (srep_proj s s1 a am Hs eq_refl eq_refl eq_refl eq_refl)
                Hb Hn Hu) as (s' & E & Hst).
    fold (enc_msg m). rewrite E. cbn [ebind]. exists s'. split; [done |].
    rewrite decide_False in Hst by done. by eapply stepped_proj.
Qed.

Lemma procs_spec ms : forall s a am n, srep s a am -> small n a am ->
  n + 2 * zlen ms < 2 ^ 61 -> Forall (fun m => is_uint64 (m_seq m)) ms ->
  exists s' a' am', procs (enc_msg <$> ms) s = Done s' /\ srep s' a' am' /\
    small (n + 2 * zlen ms) a' am' /\ (saved s am -> saved s' am') /\
    replica_of s' a' = foldl applied (replica_of s a) ms /\ s_id s' = s_id s.
Proof.
  induction ms as [| m ms IH]; intros s a am n Hs Hb Hn Hu; cbn [fmap list_fmap procs foldl].
  { replace (n + 2 * zlen (@nil Msg)) with n by zl. by exists s, a, am. }
  apply Forall_cons in Hu as [Hu Hus].
  destruct (slave_proc_spec m s a am n Hs Hb ltac:(zl) Hu)
    as (s1 & -> & a1 & am1 & Hs1 & Hb1 & Hsv1 & Er1 & Eid1).
  cbn [ebind]. destruct (IH s1 a1 am1 (n + 2) Hs1 Hb1) as (s' & a' & am' & E & Hs' & Hb' & Hsv' & Er & Eid);
    [zl | done |].
  change (list_fmap _ _ enc_msg ms) with (enc_msg <$> ms). rewrite E.
  exists s', a', am'. rewrite zlen_cons.
  replace (n + 2 * (1 + zlen ms)) with (n + 2 + 2 * zlen ms) by lia.
  split_and!; try done; [by auto | by rewrite Er, Er1 | congruence].
Qed.
End Lemmas.

(** ** Failing writes and termination *)
Section Failures.
Context `{LevelDBSpec} `{!Healthy good}.
Implicit Types (s : Slave) (a am : Spec) (m : Msg).

(** The next write to the store is refused. *)
Definition refuses (d : DB) : Prop := forall b, exists st d',
  Write d b = (st, d') /\ status_ok st = false /\ good d'.

Lemma commit_refused q : refuses (db q) -> exists st q', commit q = (st, q') /\
  status_ok st = false /\ good (db q').
Proof.
  intros Hr. unfold commit. destruct (Hr (batch q)) as (st & d' & -> & Hst & Hg).
  rewrite Hst. by eexists _, _.
Qed.

Lemma set_refused k v db a : rep db a -> room a -> refuses (ldb db) -> k <> [] ->
  exists db', ssdb_set k v db = (-1, db') /\ rep db' a /\ good (ldb db').
Proof.
  intros Hrep Hroom Hr Hk. pose proof (set_spec k v db a Hrep Hroom) as Hs.
  destruct (ssdb_set k v db) as [r db'] eqn:E. unfold ssdb_set in E.
  assert (Bytes.empty k = false) as Ek by (apply Z.eqb_neq; by intros ?%zlen_0). rewrite Ek in E.
  unfold do_commit in E. match type of E with context [commit ?q] =>
    destruct (commit_refused q Hr) as (st & q' & Hc & Hst & Hg) end.
  rewrite Hc, Hst in E. injection E as <- <-. eexists. split; [done |].
  destruct Hs as [(? & _) | [(_ & ? & _) | (_ & _ & ?)]]; done.
Qed.

Lemma slave_proc_SYNC m s : m_type m = BinlogType.SYNC ->
  slave_proc (enc_msg m) s =
    let* (_, s') := proc_sync (Binlog.make (m_seq m) (m_type m) (m_cmd m) (m_key m)) (enc_msg m)
      (set_s_counts (s_copy_count s) (to_uint64 (s_sync_count s + 1)) (set_s_status SlaveStatus.SYNC s)) in
    Done (0, s').
Proof.
  intros Ht. unfold slave_proc, enc_msg at 1. rewrite Binlog.load_make. cbn [Z.eqb].
  rewrite Binlog.type_make, Ht. cbn [ebind]. fold (enc_msg m).
  match goal with |- context [proc_sync ?l ?r ?s0] =>
    transitivity (let* s := (let* (_, s) := proc_sync l r s0 in Done s) in Done (0, s));
      [reflexivity | by destruct (proc_sync l r s0) as [[] | |]] end.
Qed.

(** An update whose write fails is lost: [proc] ignores the error, the next
    update is applied, and the position saved is after it, so that even a new
    process will not ask for the lost one again. *)
Theorem failed_update_is_skipped m m' s a am n k v :
  rep (s_ssdb s) a -> rep (s_meta s) am -> good (ldb (s_meta s)) -> zlen (s_id s) <= 127 ->
  is_uint64 (s_last_seq s) -> small n a am -> saved s am -> n < 2 ^ 60 ->
  m_type m = BinlogType.SYNC -> m_cmd m = BinlogCommand.KSET -> m_key m = encode_kv_key k ->
  k <> [] -> m_args m = [v] -> is_uint64 (m_seq m) ->
  m_type m' = BinlogType.SYNC -> is_uint64 (m_seq m') ->
  refuses (ldb (s_ssdb s)) ->
  exists s' a', procs [enc_msg m; enc_msg m'] s = Done s' /\ rep (s_ssdb s') a' /\
    kv a' = msg_pairs m' (kv a) /\ s_last_seq s' = m_seq m' /\
    load_status (set_s_pos 0 [] s') = Done s'.
Proof.
  intros Hs Hm Hgm Hid Hq Hb Hsv Hn Ht Hc Hk Hk0 Ha Hu Ht' Hu' Hr.
  destruct (bounded_room n a (proj1 Hb) ltac:(lia)) as [Hroom _].
  destruct (set_refused k v _ a Hs Hroom Hr Hk0) as (db & Eset & Hrep & Hg).
  set (s1 := set_s_dbs db (s_meta s)
               (set_s_counts (s_copy_count s) (to_uint64 (s_sync_count s + 1))
                  (set_s_status SlaveStatus.SYNC s))).
  assert (slave_proc (enc_msg m) s = Done (0, s1)) as E1.
  { rewrite slave_proc_SYNC, Ht by done. unfold proc_sync, sync_switch.
    rewrite Binlog.cmd_make, Hc. cbn [ebind]. rewrite (decide_True (P := BinlogCommand.KSET = _)) by done.
    rewrite Binlog.key_make, Hk. cbn [ebind]. rewrite decode_encode_kv_key. unfold enc_msg. rewrite Ha.
    change (zlen [_; _] =? 2) with true. cbn [negb].
    change (s_ssdb (set_s_counts _ _ _)) with (s_ssdb s). rewrite Eset. cbn [Z.eqb Pos.eqb ebind].
    done. }
  assert (srep (good := good) s1 a am) as Hs1 by by split.
  destruct (slave_proc_spec m' s1 a am n Hs1 Hb ltac:(lia) Hu')
    as (s' & E2 & a' & am' & Hs' & _ & Hsv' & Er & _).
  cbn [procs]. rewrite E1. cbn [ebind]. rewrite E2. cbn [ebind].
  exists s', a'. unfold applied in Er. rewrite Ht' in Er.
  unfold replica_of in Er. injection Er as Ekv Eseq Ekey.
  split; [done |]. split; [apply Hs' |]. split; [done |]. split; [done |].
  rewrite (load_status_spec s' a' am' 0 [] _ Hs' (Hsv' Hsv)) by done. by destruct s'.
Qed.
End Failures.

Section Termination.
Context `{LevelDB} `{Heap}.
Implicit Types (s : Slave) (l : Link).
Import BufferSpec LinkSpec.

Lemma ends_ssdb_hset n k v ty d : ends (ssdb_hset n k v ty d).
Proof.
  unfold ssdb_hset. destruct (hset_one _ _ _ _ _) as [ret d1]. case_match; [| done].
  apply ends_bind; [case_match; [| done]; unfold incr_hsize; ends_tac |].
  intros [r d2] _. case_match; [done |]. by destruct (do_commit _).
Qed.

Lemma ends_save_status s : ends (save_status s).
Proof.
  unfold save_status. apply ends_bind; [apply ends_ssdb_hset |]. intros [? m] _.
  apply ends_bind; [apply ends_ssdb_hset |]. by intros [? m'] _.
Qed.

Lemma ends_sync_switch log req db : ends (sync_switch log req db).
Proof.
  unfold sync_switch. apply ends_bind; [apply ends_mget |]. intros cmd _.
  case_decide; [case_match; [done |] | case_decide; [| done]];
    (apply ends_bind; [apply ends_mread |]); intros k _; repeat case_match; done.
Qed.

Lemma ends_proc_sync log req s : ends (proc_sync log req s).
Proof.
  unfold proc_sync. apply ends_bind; [apply ends_sync_switch |]. intros [failed db] _.
  destruct failed; [done |]. apply ends_bind.
  { apply ends_bind; [apply ends_mread | done]. }
  intros seq _. apply ends_bind; [apply ends_mget |]. intros ty _.
  apply ends_bind; [case_decide; [apply ends_mread | done] |]. intros key _.
  apply ends_bind; [apply ends_save_status | done].
Qed.

Lemma ends_slave_proc req s : ends (slave_proc req s).
Proof.
  unfold slave_proc. destruct req as [| r req]; [done |].
  destruct (Binlog.load _ _) as [ret log]. case_match; [done |].
  apply ends_bind; [apply ends_mget |]. intros ty _.
  apply ends_bind; [| done].
  case_decide; [done |]. case_decide; [apply ends_bind; [apply ends_mread | done] |].
  case_decide.
  - apply ends_bind; [| by intros [? ?] _]. unfold proc_copy.
    apply ends_bind; [apply ends_mget |]. intros cmd _. case_decide; [done |].
    case_decide; [apply ends_bind; [apply ends_save_status | done] | apply ends_proc_sync].
  - case_decide; [| done]. apply ends_bind; [apply ends_proc_sync | by intros [? ?] _].
Qed.

Lemma slave_onRead_loop_ends f : forall l s, wf (input l) ->
  Buffer.size_ (input l) < Z.of_nat f -> ends (slave_onRead_loop f l s).
Proof.
  induction f as [| f IH]; intros l s Hwf Hf.
  { pose proof (wf_size _ Hwf). lia. }
  cbn [slave_onRead_loop]. destruct (link_recv_any l Hwf) as [-> | (ret & l' & -> & Hw & Hp)]; [done |].
  cbn [ebind]. destruct ret as [[| c req] |]; [done | | done].
  apply ends_bind; [apply ends_slave_proc |]. intros [z s'] _.
  apply IH; [done | specialize (Hp _ eq_refl ltac:(discriminate)); lia].
Qed.

(** A slave's reading ends whatever a master sends: any bytes, well formed or
    not, in any state of the slave, are consumed in at most one round per byte. *)
Theorem slave_onRead_ends x l s : wf (input l) -> ends (slave_onRead x l s).
Proof.
  intros Hwf. unfold slave_onRead. destruct x as [| c x]; [done |].
  apply ends_bind.
  - unfold copy2Buffer. apply ends_bind; [apply ends_append, (wf_total _ Hwf) | by intros [? ?] _].
  - intros l' El. unfold copy2Buffer in El. apply bind_Done in El as ([r b] & E & [= <-]). cbn [input].
    assert (wf b) as Hw by (by eapply append_any).
    apply slave_onRead_loop_ends; [done |]. cbn [input]. pose proof (wf_size _ Hw). lia.
Qed.
End Termination.

(** ** Starting *)
Section Start.
Context `{LevelDBSpec} `{!Healthy good}.
Implicit Types (s : Slave) (a am : Spec).

Definition old_key s : bytes := lit "new.slave.status|" ++ s_id s.

Lemma foreign_old_key s : foreign_key (old_key s).
Proof. split_and!; try discriminate. by eexists (chr 110), _. Qed.

(** Starting with a position of the old format in the meta store migrates it:
    the position is taken over and kept in the new format, the old entry is gone,
    and loading the status afterwards leaves the migrated position in place. *)
Theorem migration s a am n q K : srep (good := good) s a am -> small n a am -> n < 2 ^ 61 ->
  is_uint64 q -> master_ip s <> [] -> 0 < master_port s ->
  contents (ldb (s_meta s)) !! old_key s = Some (mem_u64 q ++ K) ->
  exists s' am', slave_start s = Done (Some s') /\ s_last_seq s' = q /\ s_last_key s' = K /\
    srep (good := good) s' a am' /\ saved s' am' /\ contents (ldb (s_meta s')) !! old_key s = None.
Proof.
  intros Hs Hb Hn Hq Hip Hport Hold. unfold slave_start.
  rewrite (proj2 (Z.eqb_neq _ _)) by by intros ?%zlen_0. rewrite (proj2 (Z.leb_gt _ _)) by done.
  unfold migrate_old_status. fold (old_key s). unfold raw_get.
  rewrite read_readable by (apply healthy_read, Hs). rewrite Hold. cbn [Z.eqb].
  assert (zlen (mem_u64 q) = 8) as H8 by apply zlen_mem_u64.
  rewrite (proj2 (Z.ltb_ge _ _)) by zl.
  rewrite ztake_app', zdrop_app', rd_mem_u64 by (done || by rewrite H8).
  set (s1 := set_s_pos q K s). assert (srep (good := good) s1 a am) as Hs1 by (destruct Hs; by split).
  destruct (save_status_spec s1 a am n Hs1 (proj2 Hb) ltac:(lia)) as (mt & am' & -> & Hs2 & _ & Hsv).
  cbn [ebind]. set (s2 := set_s_dbs _ _ _) in *.
  destruct (raw_del_foreign (old_key s) (s_meta s2) am' (sr_meta _ _ _ Hs2) (sr_good_meta _ _ _ Hs2)
              (foreign_old_key s)) as (m' & -> & Hm' & Hg' & Hnone).
  cbn [Z.eqb Pos.eqb ebind]. set (s3 := set_s_dbs _ _ _).
  assert (srep (good := good) s3 a am') as Hs3 by (destruct Hs2; by split).
  assert (saved s3 am') as Hsv3 by exact Hsv.
  unfold load_status. change (s_meta s3) with m'. destruct Hsv3 as [Hk Hsq].
  rewrite !(hget_healthy m' am'), Hk, Hsq by done.
  change (s_last_seq s3) with q. change (s_last_key s3) with K.
  rewrite str_uint64_ne by done. rewrite str_uint64_print, str_to_uint64_print by done.
  cbn [negb ebind]. eexists _, am'. split; [done |].
  destruct (negb _); by split_and!.
Qed.
End Start.

(** ** The connection *)
Section Wire.
Context `{LevelDBSpec} `{!Healthy good} `{Heap}.
Implicit Types (s : Slave) (l : Link) (ms : list Msg).
Import LinkSpec.

Lemma onRead_loop_recv f : forall l s o reqs s', recv_all f l = Done (o, reqs) ->
  procs reqs s = Done s' -> slave_onRead_loop f l s = Done (o, s').
Proof.
  induction f as [| f IH]; intros l s o reqs s'; [done |]. cbn [recv_all slave_onRead_loop].
  destruct (link_recv_req l) as [[req l'] | |]; [| done..]. cbn [ebind].
  destruct req as [[| r0 req] |]; [by intros [= <- <-] [= <-] | | by intros [= <- <-] [= <-]].
  destruct (recv_all f l') as [[o' reqs'] | |] eqn:E; [| done..]. cbn [ebind].
  intros [= <- <-]. cbn [procs]. destruct (slave_proc _ _) as [[z s1] | |]; [| done..].
  cbn [ebind]. by apply IH.
Qed.

Lemma procs_app r1 r2 s : procs (r1 ++ r2) s = (let* s := procs r1 s in procs r2 s).
Proof.
  revert s. induction r1 as [| r r1 IH]; intros s; [done |]. cbn [app procs].
  destruct (slave_proc _ _) as [[z s1] | |]; [| done..]. apply IH.
Qed.

Lemma slave_feed_recv cs : forall l s l' reqs s', feed cs l = Done (Some l', reqs) ->
  procs reqs s = Done s' -> slave_feed cs l s = Done (Some l', s').
Proof.
  induction cs as [| x cs IH]; intros l s l' reqs s'; cbn [feed slave_feed].
  { by intros [= <- <-] [= <-]. }
  destruct (read_chunk x l) as [[o r1] | |] eqn:E1; [| done..]. cbn [ebind].
  destruct o as [l1 |]; [| done]. destruct (feed cs l1) as [[o r2] | |] eqn:E2; [| done..].
  cbn [ebind]. intros [= -> <-]. rewrite procs_app.
  destruct (procs r1 s) as [s1 | |] eqn:Ep; [| done..]. cbn [ebind]. intros Ep2.
  assert (slave_onRead x l s = Done (Some l1, s1)) as ->; [| by eapply IH].
  unfold read_chunk in E1. unfold slave_onRead.
  destruct x as [| c x]; [simplify_eq; cbn in Ep; by simplify_eq |].
  destruct (copy2Buffer _ _) as [l0 | |]; [| done..]. cbn [ebind] in *.
  by eapply onRead_loop_recv.
Qed.

Lemma slave_reads (no_refusal : forall n, realloc_ok n = true) cs ms s a am n :
  srep (good := good) s a am -> small n a am -> saved s am -> n + 2 * zlen ms < 2 ^ 61 ->
  Forall (fun m => is_uint64 (m_seq m)) ms ->
  Forall packet_ok (enc_msg <$> ms) -> mjoin cs = enc_stream (enc_msg <$> ms) ->
  zlen (mjoin cs) <= 2 ^ 25 ->
  exists l s' a', slave_feed cs new_Link s = Done (Some l, s') /\ rep (s_ssdb s') a' /\
    replica_of s' a' = foldl applied (replica_of s a) ms /\
    load_status (set_s_pos 0 [] s') = Done s'.
Proof.
  intros Hs Hb Hsv Hn Hu Hok E Hlen.
  destruct (feed_new no_refusal cs _ Hok E Hlen) as (l & Hf & _).
  destruct (procs_spec ms s a am n Hs Hb Hn Hu) as (s' & a' & am' & Hp & Hs' & _ & Hsv' & Er & _).
  exists l, s', a'. split; [by eapply slave_feed_recv |]. split; [apply Hs' |]. split; [done |].
  rewrite (load_status_spec s' a' am' 0 [] _ Hs' (Hsv' Hsv)) by done. by destruct s'.
Qed.

(** C7: the slave implements the replica: over one connection, in whatever chunks
    the bytes arrive, well-formed packets a link can send leave the slave's store
    representing the pairs that applying the packets one after the other to the
    replica gives, and its position is the replica's; the position is in the meta
    store, so a slave started again loads exactly it.  Assumed: neither the data
    nor the meta store ever fails (an update the store refuses is lost, see
    [failed_update_is_skipped]); no reallocation is refused; at most 2^25 bytes
    arrive on the connection; the slave starts at the position it saved; and
    records, hash sizes and packets are few enough to stay below 2^61. *)
Theorem slave_refines (no_refusal : forall n, realloc_ok n = true) cs ms s a am n :
  srep (good := good) s a am -> small n a am -> saved s am -> n + 2 * zlen ms < 2 ^ 61 ->
  Forall (fun m => is_uint64 (m_seq m)) ms ->
  Forall packet_ok (enc_msg <$> ms) -> mjoin cs = enc_stream (enc_msg <$> ms) ->
  zlen (mjoin cs) <= 2 ^ 25 ->
  exists l s' a', slave_feed cs new_Link s = Done (Some l, s') /\ rep (s_ssdb s') a' /\
    replica_of s' a' = foldl applied (replica_of s a) ms /\
    load_status (set_s_pos 0 [] s') = Done s'.
Proof. apply slave_reads, no_refusal. Qed.
End Wire.
End SlaveSpec.

(** * Instances *)

Module SlaveSamples.
Import SlaveSpec LinkSpec BufferSpec SSDBSamples.
#[local] Existing Instance sample_heap.

Abbreviation mem_good := (fun d : @DB Mem.leveldb => Mem.writes d = [] /\ Mem.unreadable d = []).

Definition over (m : @DB Mem.leveldb) : SSDBImpl (H := Mem.leveldb) :=
  mkSSDB (mkQueue (H := Mem.leveldb) m 20000000 0 0 []).
Definition fresh_slave (data meta : @DB Mem.leveldb) : Slave (H := Mem.leveldb) :=
  new_Slave 0 false (over data) (over meta) (lit "127.0.0.1") 8888.

Lemma small_empty : small 0 no_spec no_spec.
Proof. by split; (split; [cbn; lia | intros n; by vm_compute]). Qed.

Lemma fresh_srep (w : list bool) : rep (s_ssdb (fresh_slave (Mem.flaky ∅ w []) (Mem.healthy ∅))) no_spec.
Proof. split; [apply represents_empty |]. split; [apply log_inv_empty | done]. Qed.

(** A slave that has saved its position. *)
Definition saved_slave (data : @DB Mem.leveldb) : Slave :=
  match save_status (fresh_slave data (Mem.healthy ∅)) with Done s => s | _ => fresh_slave data data end.

Lemma saved_slave_spec : exists am, srep (good := mem_good) (saved_slave (Mem.healthy ∅)) no_spec am /\
  small 2 no_spec am /\ saved (saved_slave (Mem.healthy ∅)) am.
Proof.
  assert (srep (good := mem_good) (fresh_slave (Mem.healthy ∅) (Mem.healthy ∅)) no_spec no_spec) as Hs.
  { split; try done; apply (fresh_srep []). }
  destruct (save_status_spec _ _ _ 0 Hs (proj2 small_empty)) as (mt & am & E & Hs' & Hb & Hsv); [lia |].
  unfold saved_slave. rewrite E. exists am. split; [done |]. split; [split; [| done] | done].
  by eapply bounded_le; [apply small_empty | lia].
Qed.

Definition sample_msgs : list Msg :=
  [mkMsg 0 BinlogType.COPY BinlogCommand.BEGIN [] [lit "copy_begin"];
   mkMsg 3 BinlogType.COPY BinlogCommand.KSET (lit "kx") [lit "v"];
   mkMsg 3 BinlogType.COPY BinlogCommand.END [] [lit "copy_end"];
   mkMsg 4 BinlogType.SYNC BinlogCommand.KDEL (lit "kx") []].

Definition sample_wire : bytes := enc_stream (enc_msg <$> sample_msgs).

Lemma slave_refines_witness : exists l s' a',
  slave_feed [take 5 sample_wire; drop 5 sample_wire] new_Link (saved_slave (Mem.healthy ∅)) =
    Done (Some l, s') /\ rep (s_ssdb s') a' /\
  replica_of s' a' = foldl applied (replica_of (saved_slave (Mem.healthy ∅)) no_spec) sample_msgs /\
  load_status (set_s_pos 0 [] s') = Done s'.
Proof.
  destruct saved_slave_spec as (am & Hs & Hb & Hsv).
  apply (slave_refines (good := mem_good) (H0 := sample_heap) (fun _ => eq_refl) [take 5 sample_wire; drop 5 sample_wire]
           sample_msgs (saved_slave (Mem.healthy ∅)) no_spec am 2 Hs Hb Hsv).
  - vm_compute; reflexivity.
  - repeat constructor; vm_compute; congruence.
  - repeat constructor; try discriminate; vm_compute; congruence.
  - vm_compute; reflexivity.
  - vm_compute; congruence.
Defined.

Definition refusing_slave : Slave :=
  set_s_dbs (over (Mem.flaky ∅ [false] [])) (s_meta (saved_slave (Mem.healthy ∅)))
    (saved_slave (Mem.healthy ∅)).
Definition msg1 : Msg := mkMsg 1 BinlogType.SYNC BinlogCommand.KSET (encode_kv_key (lit "x")) [lit "v"].
Definition msg2 : Msg := mkMsg 2 BinlogType.SYNC BinlogCommand.KSET (encode_kv_key (lit "y")) [lit "w"].

Lemma failed_update_is_skipped_witness : exists s' a',
  procs [enc_msg msg1; enc_msg msg2] refusing_slave = Done s' /\ rep (s_ssdb s') a' /\
  kv a' = msg_pairs msg2 (kv no_spec) /\ s_last_seq s' = 2 /\
  load_status (set_s_pos 0 [] s') = Done s'.
Proof.
  destruct saved_slave_spec as (am & [_ Hm _ Hgm Hid Hq] & Hb & Hsv). unfold refusing_slave.
  revert Hm Hgm Hid Hq Hsv. generalize (saved_slave (Mem.healthy ∅)) as s. intros s Hm Hgm Hid Hq Hsv.
  apply (failed_update_is_skipped (good := mem_good) msg1 msg2
           (set_s_dbs (over (Mem.flaky ∅ [false] [])) (s_meta s) s) no_spec am 2 (lit "x") (lit "v")).
  - apply (fresh_srep [false]).
  - exact Hm.
  - exact Hgm.
  - exact Hid.
  - exact Hq.
  - exact Hb.
  - exact Hsv.
  - lia.
  - reflexivity.
  - reflexivity.
  - reflexivity.
  - discriminate.
  - reflexivity.
  - by vm_compute.
  - reflexivity.
  - by vm_compute.
  - intros b. by eexists _, _.
Defined.

Lemma slave_onRead_ends_witness : ends (slave_onRead (lit "garbage") new_Link (saved_slave (Mem.healthy ∅))).
Proof.
  apply (slave_onRead_ends (lit "garbage") new_Link (saved_slave (Mem.healthy ∅))).
  split; vm_compute; congruence.
Defined.

(** A meta store with a position of the old format. *)
Definition old_entry : bytes := lit "new.slave.status|127.0.0.1|8888".
Definition old_meta : @DB Mem.leveldb := Mem.healthy {[old_entry := mem_u64 5 ++ lit "kx"]}.

Lemma old_meta_rep : rep (over old_meta) no_spec.
Proof.
  assert (log_inv {[old_entry := mem_u64 5 ++ lit "kx"]} []) as Hl.
  { rewrite <- insert_empty. apply log_inv_put; [apply log_inv_empty |].
    by eexists (chr 110), _. }
  split; [split; [done | ..] | by split]; intros; try done;
    (transitivity (@None bytes); [by apply lookup_singleton_ne | done]).
Qed.

Lemma migration_witness : let s := fresh_slave (Mem.healthy ∅) old_meta in
  exists s' am', slave_start s = Done (Some s') /\ s_last_seq s' = 5 /\ s_last_key s' = lit "kx" /\
    srep (good := mem_good) s' no_spec am' /\ saved s' am' /\
    LevelDB.contents (ldb (s_meta s')) !! old_key s = None.
Proof.
  apply (migration (good := mem_good) (fresh_slave (Mem.healthy ∅) old_meta) no_spec no_spec 0 5 (lit "kx")).
  - split; [apply (fresh_srep []) | apply old_meta_rep | by split | by split | by vm_compute | by vm_compute].
  - apply small_empty.
  - lia.
  - by vm_compute.
  - discriminate.
  - done.
  - vm_compute. reflexivity.
Defined.
End SlaveSamples.
