(* ===== verification/Replication.v ===== *)
(** Replication as a whole: the master's store, the thread of [BackendSync] that
    serves one slave, and the packets sent so far.  Updates of the store happen at
    any time between two calls of the thread.  The slave is represented by the
    [Replica] that [SlaveSpec.slave_refines] shows it implements. *)
From S2P Require Import Prelude CLib Strings Bytes Redis LevelDB Binlog Iterator SSDB Link BackendSync Slave.
Import BinlogSpec IteratorSpec SSDBSpec SyncSpec SlaveSpec.

(** * The system *)

Inductive PC := AtSync | AtCopy.
Inductive Event := EvOp (o : Op) | EvThread.

Section System.
Context `{LevelDB}.

Record Sys := mkSys { y_db : SSDBImpl; y_client : Client; y_pc : PC; y_sent : list packet }.

(** An operation on the master, or the next call of the thread's loop. *)
Definition sys_step (ev : Event) (y : Sys) : exec Sys :=
  let c := y_client y in
  match ev with
  | EvOp o =>
      let* (_, s) := step o (y_db y) in Done (mkSys s c (y_pc y) (y_sent y))
  | EvThread =>
      match y_pc y with
      | AtSync =>
          if c_status c =? SyncStatus.OUT_OF_SYNC then Done y
          else
            let* (_, c, out) := client_sync (y_db y) c in
            Done (mkSys (y_db y) c (if c_status c =? SyncStatus.COPY then AtCopy else AtSync)
                    (y_sent y ++ out))
      | AtCopy =>
          let* (_, c, out) := client_copy (y_db y) c in
          Done (mkSys (y_db y) c AtSync (y_sent y ++ out))
      end
  end.

Fixpoint sys_run (evs : list Event) (y : Sys) : exec Sys :=
  match evs with
  | [] => Done y
  | ev :: evs => let* y := sys_step ev y in sys_run evs y
  end.

(** The thread started for a request; [it] is what the pointer [iter] happens to
    hold, which the constructor of [Client] does not set. *)
Definition sys_start (it : IterPtr) (s : SSDBImpl) (req : list bytes) : exec Sys :=
  let* (c, out) := client_init req (new_Client it) in Done (mkSys s c AtSync out).

Lemma sys_run_app e1 e2 y : sys_run (e1 ++ e2) y = (let* y := sys_run e1 y in sys_run e2 y).
Proof.
  revert y. induction e1 as [| ev e1 IH]; intros y; [done |]. cbn [app sys_run].
  destruct (sys_step ev y); [apply IH | done..].
Qed.

(** Without an update in between, the calls are the turns of [round]. *)
Lemma round_sys s c out b c' out' : round s c = Done (b, c', out') ->
  exists n, sys_run (replicate n EvThread) (mkSys s c AtSync out) =
              Done (mkSys s c' AtSync (out ++ out')).
Proof.
  unfold round. destruct (c_status c =? SyncStatus.OUT_OF_SYNC) eqn:Eo.
  { intros [= <- <- <-]. exists 0%nat. by rewrite app_nil_r. }
  destruct (client_sync s c) as [[[r1 c1] o1] | |] eqn:Es; [| done..]. cbn [ebind].
  destruct (c_status c1 =? SyncStatus.COPY) eqn:Ec.
  - destruct (client_copy s c1) as [[[r2 c2] o2] | |] eqn:E2; [| done..]. cbn [ebind].
    intros [= <- <- <-]. exists 2%nat.
    cbn [replicate sys_run sys_step y_pc y_client]. rewrite Eo. cbn [y_db]. rewrite Es. cbn [ebind].
    rewrite Ec. cbn [y_pc y_db y_client]. rewrite E2. cbn [ebind y_sent]. by rewrite app_assoc.
  - intros [= <- <- <-]. exists 1%nat.
    cbn [replicate sys_run sys_step y_pc y_client]. rewrite Eo. cbn [y_db]. rewrite Es. cbn [ebind].
    by rewrite Ec.
Qed.
End System.

(** * Coherence of the log *)

(** The last record of a pair tells whether it is there; records of pairs, and only
    they, have the commands of pairs. *)
Definition about (k : bytes) (e : LogEntry) : Prop := le_key e = encode_kv_key k.
#[global] Instance about_dec k e : Decision (about k e) := decide (le_key e = encode_kv_key k).

Record coherent (a : Spec) : Prop := {
  co_last k : match last (filter (about k) (history a)) with
              | None => kv a !! k = None
              | Some e => (le_cmd e = BinlogCommand.KSET /\ is_Some (kv a !! k)) \/
                          (le_cmd e = BinlogCommand.KDEL /\ kv a !! k = None)
              end;
  co_pair e k : e ∈ history a -> about k e ->
    le_type e = BinlogType.SYNC /\ (le_cmd e = BinlogCommand.KSET \/ le_cmd e = BinlogCommand.KDEL);
  co_other e : e ∈ history a -> le_cmd e = BinlogCommand.KSET \/ le_cmd e = BinlogCommand.KDEL ->
    exists k, about k e;
  co_key e : e ∈ history a -> le_key e <> [];
  co_empty : kv a !! ([] : bytes) = None
}.

Module ReplicationSpec.
Section Coherence.
Implicit Types (a : Spec) (e : LogEntry).

Lemma last_filter_snoc k h e :
  last (filter (about k) (h ++ [e])) = if decide (about k e) then Some e else last (filter (about k) h).
Proof.
  rewrite filter_app, filter_cons, filter_nil. case_decide; [by rewrite last_snoc |].
  by rewrite app_nil_r.
Qed.

Lemma coherent_empty : coherent (mkSpec ∅ ∅ []).
Proof. split; cbn; try done; intros e; try (by intros k ?%elem_of_nil); by intros ?%elem_of_nil. Qed.

(** A record of something else. *)
Lemma coherent_other a hs ty cm key : coherent a -> key <> [] -> (forall k, key <> encode_kv_key k) ->
  cm <> BinlogCommand.KSET -> cm <> BinlogCommand.KDEL ->
  coherent (mkSpec (kv a) hs (history a ++ [mkLog ty cm key])).
Proof.
  intros [H1 H2 H3 H4 H5] Hne Hk Hs Hd. split; cbn; [| | | | done].
  - intros k. rewrite last_filter_snoc, decide_False by apply Hk. apply H1.
  - intros e k [He | ->%list_elem_of_singleton]%elem_of_app Ha; [by eapply H2 | by destruct (Hk k)].
  - intros e [He | ->%list_elem_of_singleton]%elem_of_app Hc; [by apply H3 | by destruct Hc].
  - intros e [He | ->%list_elem_of_singleton]%elem_of_app; [by apply H4 | done].
Qed.

(** A record of the pair that changes. *)
Lemma coherent_pair a hs k cm m : coherent a ->
  (cm = BinlogCommand.KSET /\ k <> [] /\ is_Some (m !! k)) \/ (cm = BinlogCommand.KDEL /\ m !! k = None) ->
  (forall k', k' <> k -> m !! k' = kv a !! k') ->
  coherent (mkSpec m hs (history a ++ [mkLog BinlogType.SYNC cm (encode_kv_key k)])).
Proof.
  intros [H1 H2 H3 H4 H5] Hc Hm. split; cbn.
  - intros k'. rewrite last_filter_snoc. case_decide as Ha.
    + apply encode_kv_key_inj in Ha as <-. cbn. naive_solver.
    + rewrite Hm; [apply H1 |]. intros ->. by apply Ha.
  - intros e k' [He | ->%list_elem_of_singleton]%elem_of_app Ha; [by eapply H2 |]. cbn. naive_solver.
  - intros e [He | ->%list_elem_of_singleton]%elem_of_app _Hc; [by apply H3 | by exists k].
  - intros e [He | ->%list_elem_of_singleton]%elem_of_app; [by apply H4 | done].
  - destruct (decide (k = [])) as [-> | Hk]; [naive_solver |]. by rewrite Hm.
Qed.

(** The log only grows, and every pair that changes is in what is added. *)
Definition extends a a' : Prop := exists es, history a' = history a ++ es /\
  forall k, kv a' !! k = kv a !! k \/ exists e, e ∈ es /\ about k e.

Lemma extends_refl a : extends a a.
Proof. exists []. rewrite app_nil_r. split; [done |]. by left. Qed.

Lemma extends_pair a k cm ty hs m : (forall k', k' <> k -> m !! k' = kv a !! k') ->
  extends a (mkSpec m hs (history a ++ [mkLog ty cm (encode_kv_key k)])).
Proof.
  intros Hm. eexists. split; [done |]. intros k'. cbn.
  destruct (decide (k' = k)) as [-> | Hk]; [right | left; by apply Hm].
  eexists. split; [by apply list_elem_of_singleton | done].
Qed.

Lemma spec_step_coherent R o r a a' : coherent a -> spec_step R o r a a' -> coherent a' /\ extends a a'.
Proof.
  intros Hc Hst. pose proof (extends_refl a) as Hr. apply spec_step_cases in Hst as [-> | Hst]; [done |].
  destruct o as [k v | k | k | n k v ty | n k | n]; try done.
  - destruct Hst as [Hk ->].
    assert (forall k', k' <> k -> <[k := v]> (kv a) !! k' = kv a !! k') as Hm
      by (intros; by rewrite lookup_insert_ne).
    split; [| by apply extends_pair]. apply coherent_pair; [done | | done]. left.
    rewrite lookup_insert_eq. eauto.
  - subst a'. assert (forall k', k' <> k -> delete k (kv a) !! k' = kv a !! k') as Hm
      by (intros; by rewrite lookup_delete_ne).
    split; [| by apply extends_pair]. apply coherent_pair; [done | | done]. right.
    by rewrite lookup_delete_eq.
  - destruct Hst as [_ ->]. unfold spec_hset. case_decide; [done |].
    split; [by apply coherent_other |]. eexists. split; [done |]. by left.
Qed.
End Coherence.

(** ** Records and pairs *)
Section Records.
Implicit Types (a : Spec) (e : LogEntry) (P : bytes -> Prop) (p : gmap bytes bytes).

(** A pair with a record after position [n]. *)
Definition dirty a (n : nat) (k : bytes) : Prop := exists e, e ∈ drop n (history a) /\ about k e.

(** The replica has the pairs of [P] that are not waiting in the log. *)
Definition agree P a n p : Prop := forall k, P k -> ~ dirty a n k -> p !! k = kv a !! k.

Lemma dirty_S a n e k : history a !! n = Some e -> dirty a n k <-> about k e \/ dirty a (S n) k.
Proof.
  intros He. unfold dirty. rewrite (drop_S _ _ _ He). split.
  - intros (e' & [-> | ?]%elem_of_cons & ?); [by left | right; eauto].
  - intros [? | (e' & ? & ?)]; eexists; (split; [| done]); set_solver.
Qed.

Lemma dirty_extends a a' n k : extends a a' -> (n <= length (history a))%nat ->
  dirty a n k \/ kv a' !! k <> kv a !! k -> dirty a' n k.
Proof.
  intros (es & Eh & Hk) Hn. unfold dirty. rewrite Eh, drop_app_le by done.
  intros [(e & He & Ha) | Hne].
  - exists e. split; [| done]. apply elem_of_app. by left.
  - destruct (Hk k) as [? | (e & He & Ha)]; [done |]. exists e. split; [| done].
    apply elem_of_app. by right.
Qed.

Lemma agree_extends P a a' n p : extends a a' -> (n <= length (history a))%nat ->
  agree P a n p -> agree P a' n p.
Proof.
  intros He Hn Ha k HP Hd. rewrite Ha; [| done |].
  - destruct (decide (kv a' !! k = kv a !! k)) as [? | Hne]; [done |].
    destruct Hd. eapply dirty_extends; eauto.
  - intros ?. apply Hd. eapply dirty_extends; eauto.
Qed.

(** The last record of a pair. *)
Lemma last_record a n e k : history a !! n = Some e -> about k e -> ~ dirty a (S n) k ->
  last (filter (about k) (history a)) = Some e.
Proof.
  intros He Ha Hd. rewrite <- (take_drop_middle _ _ _ He), filter_app, filter_cons_True by done.
  assert (filter (about k) (drop (S n) (history a)) = []) as ->; [| by rewrite last_snoc].
  apply filter_none, Forall_forall. intros e' He' Ha'. apply Hd. by exists e'.
Qed.

(** A record that is passed over. *)
Lemma agree_skip P a n p e : history a !! n = Some e -> (forall k, about k e -> ~ P k) ->
  agree P a n p -> agree P a (S n) p.
Proof.
  intros He Hn Ha k HP Hd. apply Ha; [done |]. rewrite (dirty_S _ _ _ _ He).
  intros [Hk | ?]; [by eapply Hn | done].
Qed.
End Records.

(** ** What is sent for a record *)
Section Sends.
Context `{LevelDBSpec}.
Implicit Types (s : SSDBImpl) (a : Spec) (e : LogEntry) (P : bytes -> Prop).

Definition readable_all s : Prop := forall k, readable s k.

Definition record_msg (n : nat) e (args : list bytes) : Msg :=
  mkMsg (Z.of_nat n) (le_type e) (le_cmd e) (le_key e) args.

Lemma sends_spec s a n e : rep s a -> readable_all s -> coherent a -> e ∈ history a ->
  sends s n e =
    if decide (le_cmd e = BinlogCommand.KSET) then
      match contents (ldb s) !! le_key e with
      | Some v => [enc_msg (record_msg n e [v])]
      | None => []
      end
    else if decide (le_cmd e = BinlogCommand.KDEL) then [enc_msg (record_msg n e [])]
    else [].
Proof.
  intros Hrep Hr Hco He. unfold sends. case_decide; [| done].
  unfold raw_get. rewrite read_readable by apply Hr. by destruct (contents (ldb s) !! le_key e).
Qed.

(** The last record of a key says whether it is there. *)
Lemma last_about a n e k0 : coherent a -> history a !! n = Some e -> about k0 e -> ~ dirty a (S n) k0 ->
  (le_cmd e = BinlogCommand.KSET -> is_Some (kv a !! k0)) /\
  (le_cmd e = BinlogCommand.KDEL -> kv a !! k0 = None).
Proof.
  intros Hco He Hk0 Hd. pose proof (co_last _ Hco k0) as Hl. rewrite (last_record a n e k0) in Hl by done.
  destruct Hl as [[-> Hl] | [-> Hl]]; (split; intros Hc; [| by try discriminate Hc]); by try discriminate Hc.
Qed.

(** Sending a record brings its pair up to date, unless a later record will. *)
Lemma record_sent s a n e P p r : rep s a -> readable_all s -> coherent a ->
  history a !! n = Some e -> agree P a n p -> (forall k, about k e -> P k) -> r_pairs r = p ->
  exists ms, sends s (S n) e = enc_msg <$> ms /\ Forall (fun m => m_seq m = Z.of_nat (S n)) ms /\
    let r' := foldl applied r ms in
    agree P a (S n) (r_pairs r') /\
    (forall k, ~ about k e -> r_pairs r' !! k = p !! k).
Proof.
  intros Hrep Hr Hco He Hag HP Hp. assert (e ∈ history a) as Hin by by eapply list_elem_of_lookup_2.
  rewrite (sends_spec s a) by done.
  assert (Hskip : ~ (le_cmd e = BinlogCommand.KSET \/ le_cmd e = BinlogCommand.KDEL) ->
            agree P a (S n) p).
  { intros Hn. eapply agree_skip; [done | | done]. intros k Hk _. apply Hn.
    by apply (co_pair _ Hco e k). }
  assert (Hother : forall k k0 (q : gmap bytes bytes), about k0 e -> k <> k0 -> q !! k = p !! k -> P k ->
            ~ dirty a (S n) k -> q !! k = kv a !! k).
  { intros k k0 q Hk0 Hne Hq HPk Hd. rewrite Hq. apply Hag; [done |]. rewrite (dirty_S _ _ _ _ He).
    intros [Hk |]; [| done]. apply Hne. unfold about in *. rewrite Hk in Hk0.
    by apply encode_kv_key_inj. }
  destruct (decide (le_cmd e = BinlogCommand.KSET)) as [Hset | Hset];
    [| destruct (decide (le_cmd e = BinlogCommand.KDEL)) as [Hdel | Hdel]].
  - destruct (co_other _ Hco e Hin (or_introl Hset)) as [k0 Hk0].
    destruct (co_pair _ Hco e k0 Hin Hk0) as [Hty _]. unfold about in Hk0.
    rewrite Hk0, (r_kv _ _ (rep_store _ _ Hrep)). destruct (kv a !! k0) as [v |] eqn:Ek.
    + exists [record_msg (S n) e [v]]. split; [done |]. split; [by repeat constructor |]. cbn [foldl].
      assert (k0 <> []) as Hne by (intros ->; by rewrite (co_empty _ Hco) in Ek).
      assert (r_pairs (applied r (record_msg (S n) e [v])) = <[k0 := v]> p) as ->.
      { rewrite applied_SYNC by done. cbn [r_pairs]. rewrite (msg_pairs_set _ _ k0 v) by done.
        by rewrite Hp, decide_False. }
      split.
      * intros k HPk Hd. destruct (decide (k = k0)) as [-> | Hnk]; [by rewrite lookup_insert_eq |].
        apply (Hother k k0); [done | done | rewrite lookup_insert_ne; congruence | done | done].
      * intros k Hk. rewrite lookup_insert_ne; [done |]. intros ->. by apply Hk.
    + exists []. split; [done |]. split; [constructor |]. cbn. rewrite Hp. split; [| done].
      intros k HPk Hd. destruct (decide (k = k0)) as [-> | Hnk]; [| by apply (Hother k k0)].
      destruct (last_about a n e k0 Hco He Hk0 Hd) as [Hl _]. destruct (Hl Hset) as [? ?]. congruence.
  - destruct (co_other _ Hco e Hin (or_intror Hdel)) as [k0 Hk0].
    destruct (co_pair _ Hco e k0 Hin Hk0) as [Hty _]. unfold about in Hk0.
    exists [record_msg (S n) e []]. split; [done |]. split; [by repeat constructor |]. cbn [foldl].
    assert (r_pairs (applied r (record_msg (S n) e [])) = delete k0 p) as ->.
    { rewrite applied_SYNC by done. cbn [r_pairs]. by rewrite (msg_pairs_del _ _ k0), Hp. }
    split.
    + intros k HPk Hd. destruct (decide (k = k0)) as [-> | Hnk].
      * rewrite lookup_delete_eq. symmetry. by apply (last_about a n e k0 Hco He Hk0 Hd).
      * apply (Hother k k0); [done | done | rewrite lookup_delete_ne; congruence | done | done].
    + intros k Hk. rewrite lookup_delete_ne; [done |]. intros ->. by apply Hk.
  - exists []. split; [done |]. split; [constructor |]. cbn. rewrite Hp. split; [| done].
    apply Hskip. tauto.
Qed.
End Sends.

(** ** The invariant *)
Section Invariant.
Context `{LevelDBSpec}.
Implicit Types (s : SSDBImpl) (a : Spec) (c : Client) (r : Replica) (l : list entry).

(** The pairs a copy has passed, up to the last key. *)
Definition covered c (k : bytes) : Prop := copying c = true -> bytes_le (encode_kv_key k) (c_last_key c).

(** The entries a copy has yet to send: those above [K], right for every pair
    that is not waiting in the log. *)
Record list_ok a (n : nat) (K : bytes) l : Prop := {
  lo_sorted : StronglySorted entry_lt l;
  lo_above : Forall (fun x => bytes_lt K x.1) l;
  lo_pairs k v : bytes_lt K (encode_kv_key k) -> ~ dirty a n k ->
    (encode_kv_key k, v) ∈ l <-> kv a !! k = Some v
}.

Record copy_ok a (n : nat) c r : Prop := {
  cp_high k : bytes_lt (c_last_key c) (encode_kv_key k) -> r_pairs r !! k = None;
  cp_iter i : c_iter c = Ptr i -> iter_wf i /\ list_ok a n (c_last_key c) (yield i)
}.

(** The thread before a call, [n] records of the log behind it; [r] is the replica
    that has received everything sent.  A copy begins with a call of [sync]. *)
Record inv a c (pc : PC) (n : nat) r : Prop := {
  iv_seq : c_last_seq c = Z.of_nat n;
  iv_le : (n <= length (history a))%nat;
  iv_status : c_status c = SyncStatus.INIT \/ c_status c = SyncStatus.COPY \/ c_status c = SyncStatus.SYNC;
  iv_iter : copying c = true -> c_iter c <> Wild;
  iv_agree : agree (covered c) a n (r_pairs r);
  iv_copy : copying c = true -> copy_ok a n c r;
  iv_pc : pc = AtCopy -> copying c = true;
  iv_first : copying c = true -> n = 0%nat ->
    pc = AtSync /\ c_last_key c = [] /\ c_iter c = Null /\ history a <> []
}.

Lemma list_ok_extends a a' n K l : extends a a' -> (n <= length (history a))%nat ->
  list_ok a n K l -> list_ok a' n K l.
Proof.
  intros He Hn [H1 H2 H3]. split; [done | done |]. intros k v HK Hd.
  rewrite H3; [| done |].
  - destruct (decide (kv a' !! k = kv a !! k)) as [-> | Hne]; [done |].
    destruct Hd. eapply dirty_extends; eauto.
  - intros ?. apply Hd. eapply dirty_extends; eauto.
Qed.

(** An operation on the master. *)
Lemma inv_extends a a' c pc n r : extends a a' -> inv a c pc n r -> inv a' c pc n r.
Proof.
  intros He [H1 H2 H3 H4 H5 H6 H7 H8].
  assert (length (history a) <= length (history a'))%nat as Hl.
  { destruct He as (es & -> & _). rewrite length_app. lia. }
  split; try done.
  - lia.
  - by eapply agree_extends.
  - intros Hc. destruct (H6 Hc) as [Hh Hi]. split; [done |]. intros i Ei.
    destruct (Hi i Ei) as [? ?]. split; [done |]. by eapply list_ok_extends.
  - intros Hc Hn. destruct (H8 Hc Hn) as (? & ? & ? & Hne). split_and!; try done.
    intros E. apply Hne. destruct (history a); [done |]. rewrite E in Hl. cbn in Hl. lia.
Qed.

(** *** Following the log *)

Lemma covered_seq z c k : covered (set_last_seq z c) k <-> covered c k.
Proof. done. Qed.

Lemma list_ok_skip a n K l e : history a !! n = Some e ->
  (forall k, about k e -> ~ bytes_lt K (encode_kv_key k)) -> list_ok a n K l -> list_ok a (S n) K l.
Proof.
  intros He Hn [H1 H2 H3]. split; [done | done |]. intros k v HK Hd. apply H3; [done |].
  rewrite (dirty_S _ _ _ _ He). intros [Hk | ?]; [by eapply Hn | done].
Qed.

(** What [follow] leaves; [inv] without the part about the program counter. *)
Record followed a c (n : nat) r : Prop := {
  fo_seq : c_last_seq c = Z.of_nat n;
  fo_le : (n <= length (history a))%nat;
  fo_iter : copying c = true -> c_iter c <> Wild;
  fo_agree : agree (covered c) a n (r_pairs r);
  fo_copy : copying c = true -> copy_ok a n c r
}.

Lemma noop_msg c : exists m, (client_noop c).2 = [enc_msg m] /\
  (forall r, applied r m = r) /\ (is_uint64 (c_last_seq c) -> is_uint64 (m_seq m)).
Proof.
  unfold client_noop. set (b := _ && _).
  exists (mkMsg (if b then 0 else c_last_seq c) BinlogType.NOOP BinlogCommand.NONE [] [lit "noop"]).
  split; [by destruct b |]. split; [done |]. cbn [m_seq]. intros Hs. clearbody b.
  destruct b; [split; [lia | zlia] | exact Hs].
Qed.

Definition msgs_fit (ms : list Msg) : Prop := Forall (fun m => is_uint64 (m_seq m)) ms.

(** A record whose pair the copy has passed, or any record without a copy. *)
Lemma followed_record s a c n r e : rep s a -> readable_all s -> coherent a ->
  Z.of_nat (length (history a)) < uint64_max -> history a !! n = Some e ->
  followed a c n r -> uncopied c (le_key e) = false ->
  exists ms, sends s (S n) e = enc_msg <$> ms /\ msgs_fit ms /\
    followed a (set_last_seq (Z.of_nat (S n)) c) (S n) (foldl applied r ms).
Proof.
  intros Hrep Hr Hco Hfit He [H1 H2 H3 H4 H5] Hu.
  pose proof (lookup_lt_Some _ _ _ He) as Hlt.
  assert (forall k, about k e -> covered c k) as Hcov.
  { intros k Hk Hc. unfold uncopied in Hu. rewrite Hc, Hk in Hu. cbn in Hu.
    apply bytes_not_lt. by apply bool_decide_eq_false in Hu. }
  destruct (record_sent s a n e (covered c) _ r Hrep Hr Hco He H4 Hcov eq_refl)
    as (ms & -> & Hms & Hag & Hsame).
  exists ms. split; [done |]. split; [eapply Forall_impl; [exact Hms |]; intros m ->; zlia |].
  split; [done | lia | done | done |]. intros Hc. destruct (H5 Hc) as [Hh Hi].
  assert (forall k, about k e -> ~ bytes_lt (c_last_key c) (encode_kv_key k)) as Hnot
    by (intros k Hk; apply bytes_not_lt, Hcov; done).
  split.
  - intros k HK. rewrite Hsame; [by apply Hh |]. intros Hk. by eapply Hnot.
  - intros i Ei. destruct (Hi i Ei) as [? ?]. split; [done |]. by eapply list_ok_skip.
Qed.

(** A message that says nothing but how far the log was read. *)
Lemma followed_noop a c n r : followed a c n r -> is_uint64 (c_last_seq c) ->
  exists m, (client_noop c).2 = [enc_msg m] /\ is_uint64 (m_seq m) /\
    followed a (client_noop c).1 n (applied r m) /\
    c_status (client_noop c).1 = c_status c /\ c_last_key (client_noop c).1 = c_last_key c.
Proof.
  intros Hf Hs. destruct (noop_msg c) as (m & Em & Hm & Hfm). exists m. rewrite Hm. split; [done |].
  split; [by apply Hfm |]. unfold client_noop. destruct (_ && _); [done |]. split; [| done].
  destruct Hf as [F1 F2 F3 F4 F5]. split; [exact F1 | exact F2 | exact F3 | exact F4 |].
  intros Hc. destruct (F5 Hc) as [Hh Hi]. by split.
Qed.

Lemma follow_spec s a : rep s a -> readable_all s -> coherent a ->
  Z.of_nat (length (history a)) < uint64_max ->
  forall pend c n r, pend = drop n (history a) -> followed a c n r ->
  let '(_, c', out) := follow s pend c in
  exists n' ms, out = enc_msg <$> ms /\ msgs_fit ms /\ followed a c' n' (foldl applied r ms) /\
    c_status c' = c_status c /\ c_last_key c' = c_last_key c /\
    (n <= n')%nat /\ (n' = n -> n = length (history a) /\ c' = c /\ ms = []).
Proof.
  intros Hrep Hr Hco Hfit. induction pend as [| e pend IH]; intros c n r Hp Hf; cbn [follow].
  { exists n, []. split_and!; try done; [constructor |]. intros _. split_and!; try done.
    apply (f_equal length) in Hp. rewrite length_drop in Hp. cbn in Hp. pose proof (fo_le _ _ _ _ Hf). lia. }
  assert (history a !! n = Some e) as He.
  { pose proof (lookup_drop (history a) n 0) as El. rewrite <- Hp, Nat.add_0_r in El. by rewrite <- El. }
  assert (pend = drop (S n) (history a)) as Hp' by (rewrite (drop_S _ _ _ He) in Hp; by injection Hp).
  pose proof (lookup_lt_Some _ _ _ He) as Hlt.
  pose proof (fo_seq _ _ _ _ Hf) as Hs. rewrite Hs. replace (Z.of_nat n + 1) with (Z.of_nat (S n)) by lia.
  assert (Hgo : forall c1 ms, c_status c1 = c_status c -> c_last_key c1 = c_last_key c ->
            msgs_fit ms -> followed a c1 (S n) (foldl applied r ms) ->
            let '(_, c', out) := follow s pend c1 in
            exists n' ms', out = enc_msg <$> ms' /\ msgs_fit ms' /\
              followed a c' n' (foldl applied (foldl applied r ms) ms') /\
              c_status c' = c_status c /\ c_last_key c' = c_last_key c /\
              (n <= n')%nat /\ (n' = n -> n = length (history a) /\ c' = c /\ ms' = [])).
  { intros c1 ms E1 E2 Hms Hf1. specialize (IH c1 (S n) _ Hp' Hf1).
    destruct (follow s pend c1) as [[z c'] out]. destruct IH as (n' & ms' & ? & ? & ? & ? & ? & ? & ?).
    exists n', ms'. split_and!; try done; [congruence | congruence | lia | lia]. }
  destruct (uncopied c (le_key e)) eqn:Eu.
  - apply (Hgo _ []); [done | done | constructor |]. destruct Hf as [H1 H2 H3 H4 H5].
    apply andb_true_iff in Eu as [Hc Hk]. apply bool_decide_eq_true in Hk.
    split; [done | lia | done | |].
    + apply (agree_skip (covered c) a n _ e He); [| done]. intros k Ha Hcov. specialize (Hcov Hc).
      unfold about in Ha. rewrite <- Ha in Hcov. by apply bytes_not_lt in Hcov.
    + intros _. destruct (H5 Hc) as [Hh Hi]. split; [done |]. by intros i [=].
  - assert (Hmir : mirrored c e = true -> forall k, ~ about k e).
    { intros Hm k Ha. apply andb_true_iff in Hm as [Ht _]. apply bool_decide_eq_true in Ht.
      destruct (co_pair _ Hco e k ltac:(by eapply list_elem_of_lookup_2) Ha) as [Ht' _].
      rewrite Ht in Ht'. discriminate Ht'. }
    destruct (mirrored c e) eqn:Em.
    + assert (followed a (set_last_seq (Z.of_nat (S n)) c) (S n) r) as Hf1.
      { destruct Hf as [H1 H2 H3 H4 H5]. specialize (Hmir eq_refl). split; [done | lia | done | |].
        - eapply agree_skip; [done | | done]. intros k Ha. by destruct (Hmir k).
        - intros Hc. destruct (H5 Hc) as [Hh Hi]. split; [done |]. intros i Ei.
          destruct (Hi i Ei). split; [done |]. eapply list_ok_skip; [done | | done].
          intros k Ha. by destruct (Hmir k). }
      destruct (1000 <=? _).
      * destruct (followed_noop a _ (S n) r Hf1) as (m & Em' & Hfm & Hf' & Hc' & ?); [cbn; zlia |].
        destruct (client_noop _) as [c' out]. cbn [fst snd] in *. subst out.
        exists (S n), [m]. split_and!; try done; [by constructor | lia | lia].
      * apply (Hgo _ []); [done | done | constructor | done].
    + destruct (followed_record s a c n r e Hrep Hr Hco Hfit He Hf Eu) as (ms & E & Hms & Hf').
      rewrite Nat2Z.id, E. exists (S n), ms. split_and!; try done; lia.
Qed.
End Invariant.

(** ** Copying *)
Section Copying.
Context `{LevelDBSpec}.
Implicit Types (s : SSDBImpl) (a : Spec) (c : Client) (r : Replica) (l : list entry).

Lemma kv_head k : head (encode_kv_key k) = Some DataType.KV.
Proof. done. Qed.

(** Nothing of the pairs is left in the list. *)
Lemma list_ok_done a n c p l : list_ok a n (c_last_key c) l ->
  (forall k v, bytes_lt (c_last_key c) (encode_kv_key k) -> (encode_kv_key k, v) ∉ l) ->
  agree (fun k => bytes_le (encode_kv_key k) (c_last_key c)) a n p ->
  (forall k, bytes_lt (c_last_key c) (encode_kv_key k) -> p !! k = None) ->
  agree (fun _ => True) a n p.
Proof.
  intros [H1 H2 H3] Hl Ha Hh k _ Hd.
  destruct (decide (bytes_le (encode_kv_key k) (c_last_key c))) as [Hle | Hle]; [by apply Ha |].
  rewrite <- bytes_not_lt in Hle. apply dec_stable in Hle. rewrite Hh by done.
  destruct (kv a !! k) as [v |] eqn:E; [| done]. apply H3 in E; [| done | done]. by apply Hl in E.
Qed.

(** The tail of the list, once its head is the last key. *)
Lemma list_ok_tail a n K l k v : list_ok a n K ((k, v) :: l) -> list_ok a n k l.
Proof.
  intros [H1 H2 H3]. inversion H1 as [| ? ? Hs Hf]; subst. apply Forall_cons in H2 as [HK _]. cbn in HK.
  split; [done | done |]. intros k' v' Hk Hd. rewrite <- H3; [| by etrans | done].
  rewrite elem_of_cons. split; [by right |]. intros [E | ?]; [| done]. injection E as E _. subst k.
  by destruct (irreflexivity bytes_lt (encode_kv_key k')).
Qed.

(** Between the last key and the head of the list there is no pair. *)
Lemma list_ok_gap a n K l k v k' : list_ok a n K ((k, v) :: l) -> ~ dirty a n k' ->
  bytes_lt K (encode_kv_key k') -> bytes_lt (encode_kv_key k') k -> kv a !! k' = None.
Proof.
  intros [H1 H2 H3] Hd HK Hlt. destruct (kv a !! k') as [v' |] eqn:E; [| done].
  apply H3 in E; [| done | done]. exfalso. inversion H1 as [| ? ? Hs Hf]; subst.
  apply elem_of_cons in E as [E | E].
  - injection E as E _. rewrite <- E in Hlt. by apply (irreflexivity bytes_lt) in Hlt.
  - rewrite Forall_forall in Hf. specialize (Hf _ E). unfold entry_lt in Hf. cbn in Hf.
    apply (irreflexivity bytes_lt k). by etrans.
Qed.

Lemma encode_kv_ge_head (t : char) k k' : (schar DataType.MAX_PREFIX <? schar t) = true ->
  bytes_lt (encode_kv_key k') (t :: k).
Proof.
  intros Ht. unfold encode_kv_key. apply bytes_lt_cons. left.
  change (uchar DataType.KV) with 107. change (schar DataType.MAX_PREFIX) with 115 in Ht.
  unfold schar in Ht. case_match; lia.
Qed.

(** The copy of one key. *)
Definition copy_msg c (k v : bytes) : Msg :=
  mkMsg (c_last_seq c) BinlogType.COPY BinlogCommand.KSET k [v].

Record copying_ok a n c r l : Prop := {
  ck_list : list_ok a n (c_last_key c) l;
  ck_low : agree (fun k => bytes_le (encode_kv_key k) (c_last_key c)) a n (r_pairs r);
  ck_high k : bytes_lt (c_last_key c) (encode_kv_key k) -> r_pairs r !! k = None
}.

(** An entry that is not a pair. *)
Lemma copying_other a n c r t k v l : t <> DataType.KV ->
  copying_ok a n c r ((t :: k, v) :: l) -> copying_ok a n (set_last_key (t :: k) c) r l.
Proof.
  intros Ht [Hl Hlow Hh]. pose proof (lo_above _ _ _ _ Hl) as HK. apply Forall_cons in HK as [HK _].
  cbn in HK. split; cbn [c_last_key set_last_key].
  - by eapply list_ok_tail.
  - intros k' Hle Hd. destruct (decide (bytes_le (encode_kv_key k') (c_last_key c))) as [Hle' | Hle'];
      [by apply Hlow |].
    rewrite <- bytes_not_lt in Hle'. apply dec_stable in Hle'. rewrite Hh by done. symmetry.
    eapply list_ok_gap; [done.. |]. apply bytes_le_lteq in Hle as [? | E]; [done |].
    exfalso. apply Ht. by injection E.
  - intros k' Hlt. apply Hh. by etrans.
Qed.

(** A pair: it is sent. *)
Lemma copying_pair a n c r k v l : coherent a -> copying_ok a n c r ((DataType.KV :: k, v) :: l) ->
  copying_ok a n (set_last_key (DataType.KV :: k) c) (applied r (copy_msg c (DataType.KV :: k) v)) l.
Proof.
  intros Hco [Hl Hlow Hh]. pose proof (lo_above _ _ _ _ Hl) as HK. apply Forall_cons in HK as [HK _].
  cbn in HK. rewrite applied_COPY by done.
  assert (r_pairs (mkReplica (msg_pairs (copy_msg c (DataType.KV :: k) v) (r_pairs r))
      (m_seq (copy_msg c (DataType.KV :: k) v)) (m_key (copy_msg c (DataType.KV :: k) v))) =
    if decide (k = []) then r_pairs r else <[k := v]> (r_pairs r)) as Ep.
  { cbn [r_pairs]. by apply msg_pairs_set. }
  change (DataType.KV :: k) with (encode_kv_key k) in *.
  assert (forall k', k' <> k -> r_pairs (mkReplica (msg_pairs (copy_msg c (encode_kv_key k) v) (r_pairs r))
      (m_seq (copy_msg c (encode_kv_key k) v)) (m_key (copy_msg c (encode_kv_key k) v))) !! k' =
      r_pairs r !! k') as Hne.
  { intros k' Hk. rewrite Ep. case_decide; [done |]. by rewrite lookup_insert_ne. }
  split; cbn [c_last_key set_last_key].
  - by eapply list_ok_tail.
  - intros k' Hle Hd. destruct (decide (k' = k)) as [-> | Hk].
    + assert (kv a !! k = Some v) as E by (apply (lo_pairs _ _ _ _ Hl); [done | done | by left]).
      rewrite Ep, E, decide_False; [apply lookup_insert_eq |]. intros ->. by rewrite (co_empty _ Hco) in E.
    + rewrite Hne by done.
      destruct (decide (bytes_le (encode_kv_key k') (c_last_key c))) as [Hle' | Hle']; [by apply Hlow |].
      rewrite <- bytes_not_lt in Hle'. apply dec_stable in Hle'. rewrite Hh by done. symmetry.
      eapply list_ok_gap; [done.. |]. apply bytes_le_lteq in Hle as [? | E]; [done |].
      by apply encode_kv_key_inj in E.
  - intros k' Hlt. rewrite Hne; [apply Hh; by etrans |]. intros ->.
    by apply (irreflexivity bytes_lt) in Hlt.
Qed.

Lemma copied_spec a n : coherent a -> forall f l c r, is_uint64 (c_last_seq c) -> copying_ok a n c r l ->
  let '(_, c', out, lft) := copied f l c in
  exists ms, out = enc_msg <$> ms /\ msgs_fit ms /\ c_last_seq c' = c_last_seq c /\
    match lft with
    | Some l' => copying_ok a n c' (foldl applied r ms) l' /\ c_status c' = c_status c /\
                 (length l' = length l - f)%nat
    | None => agree (fun _ => True) a n (r_pairs (foldl applied r ms)) /\
              c_status c' = SyncStatus.SYNC /\ c_iter c' = Null
    end.
Proof.
  intros Hco. induction f as [| f IH]; intros l c r Hu Hok; cbn [copied].
  { exists []. split_and!; try done; [constructor | lia]. }
  assert (Hend : (forall k v, bytes_lt (c_last_key c) (encode_kv_key k) -> (encode_kv_key k, v) ∉ l) ->
            let '(_, c', out, lft) := ended c in
            exists ms, out = enc_msg <$> ms /\ msgs_fit ms /\ c_last_seq c' = c_last_seq c /\
              match lft with
              | Some l' => copying_ok a n c' (foldl applied r ms) l' /\ c_status c' = c_status c /\
                           (length l' = length l - S f)%nat
              | None => agree (fun _ => True) a n (r_pairs (foldl applied r ms)) /\
                        c_status c' = SyncStatus.SYNC /\ c_iter c' = Null
              end).
  { intros Hl. exists [mkMsg (c_last_seq c) BinlogType.COPY BinlogCommand.END [] [lit "copy_end"]].
    split; [done |]. split; [constructor; [exact Hu | constructor] |]. split; [done |]. split; [| done].
    destruct Hok as [H1 H2 H3]. by apply (list_ok_done a n c _ l H1 Hl). }
  destruct l as [| [[| t k] v] l].
  - apply Hend. intros k v _. apply not_elem_of_nil.
  - exfalso. pose proof (lo_above _ _ _ _ (ck_list _ _ _ _ _ Hok)) as HK.
    apply Forall_cons in HK as [HK _]. cbn in HK. unfold bytes_lt in HK. by destruct (c_last_key c).
  - destruct (schar DataType.MAX_PREFIX <? schar t) eqn:Et.
    + apply Hend. intros k' v' _ Hin. pose proof (encode_kv_ge_head t k k' Et) as Hlt.
      pose proof (lo_sorted _ _ _ _ (ck_list _ _ _ _ _ Hok)) as Hs. inversion Hs as [| ? ? _ Hf]; subst.
      apply elem_of_cons in Hin as [E | Hin].
      * apply (f_equal fst) in E. cbn [fst] in E. rewrite E in Hlt.
        by apply (irreflexivity bytes_lt) in Hlt.
      * rewrite Forall_forall in Hf. specialize (Hf _ Hin). unfold entry_lt in Hf. cbn in Hf.
        apply (irreflexivity bytes_lt (t :: k)). by etrans.
    + destruct (decide (t = DataType.KV)) as [-> | Ht].
      * specialize (IH l (set_last_key (DataType.KV :: k) c) _ Hu (copying_pair a n c r k v l Hco Hok)).
        destruct (copied f l _) as [[[z c'] out] lft].
        destruct IH as (ms & -> & Hms & Es & Hl). exists (copy_msg c (DataType.KV :: k) v :: ms).
        split; [done |]. split; [by constructor |]. split; [done |].
        destruct lft; [| done]. destruct Hl as (? & ? & ?). split_and!; done.
      * specialize (IH l (set_last_key (t :: k) c) r Hu (copying_other a n c r t k v l Ht Hok)).
        destruct (copied f l _) as [[[z c'] out] lft].
        destruct IH as (ms & -> & Hms & Es & Hl). exists ms.
        split; [done |]. split; [done |]. split; [done |].
        destruct lft; [| done]. destruct Hl as (? & ? & ?). split_and!; done.
Qed.
End Copying.

(** ** The calls of the thread *)
Section Calls.
Context `{LevelDBSpec}.
Implicit Types (s : SSDBImpl) (a : Spec) (c : Client) (r : Replica).

Definition next_pc c : PC := if copying c then AtCopy else AtSync.

Lemma sync_call s a c n r : rep s a -> readable_all s -> coherent a -> inv a c AtSync n r ->
  exists z c' out n' ms, client_sync s c = Done (z, c', out) /\ out = enc_msg <$> ms /\ msgs_fit ms /\
    inv a c' (next_pc c') n' (foldl applied r ms) /\ copying c' = copying c /\
    (n <= n')%nat /\ (n' = n -> n = length (history a) /\ c' = c /\ ms = []).
Proof.
  intros Hrep Hr Hco [H1 H2 H3 H4 H5 H6 H7 H8].
  pose proof (rep_queue _ _ Hrep) as Hq. pose proof (inv_fits _ _ (q_log _ _ Hq)) as Hfit.
  destruct (decide (copying c = true /\ n = 0%nat)) as [[Hc Hn] | Hn0].
  - destruct (H8 Hc Hn) as (_ & HK & Hit & Hne).
    destruct (last (history a)) as [e |] eqn:El; [| by apply last_None in El].
    assert (e ∈ history a) as He by by apply last_Some_elem_of.
    rewrite (client_sync_first s (history a) c e Hq (H4 Hc) Hc ltac:(by rewrite H1, Hn) HK El
               (co_key _ Hco e He)).
    assert (length (history a) <> 0)%nat as Hlen by by intros ?%nil_length_inv.
    eexists _, _, _, (length (history a)), []. split; [done |]. split; [done |]. split; [constructor |].
    assert (next_pc (set_iter Null (set_last_seq (Z.of_nat (length (history a))) c)) = AtCopy) as ->
      by (unfold next_pc; by change (copying (set_iter _ _)) with (copying c); rewrite Hc).
    split; [| split; [done |]; split; [lia | lia]].
    split; [done | lia | done | done | | | done |].
    + intros k Hcov. specialize (Hcov Hc). cbn in Hcov. rewrite HK in Hcov. by destruct Hcov.
    + intros _. destruct (H6 Hc) as [Hh _]. split; [done | by intros i [=]].
    + intros _ ?. lia.
  - rewrite (client_sync_spec s (history a) c n Hq H1 H2 H4)
      by (intros Hc ->; by apply Hn0).
    assert (followed a c n r) as Hf by by split.
    pose proof (follow_spec s a Hrep Hr Hco Hfit _ c n r eq_refl Hf) as Hsp.
    destruct (follow s (drop n (history a)) c) as [[z c'] out].
    destruct Hsp as (n' & ms & -> & Hms & [F1 F2 F3 F4 F5] & Est & EK & Hle & Hst).
    assert (copying c' = copying c) as Ec by (unfold copying; by rewrite Est).
    exists z, c', (enc_msg <$> ms), n', ms. split_and!; try done.
    split; [done | done | by rewrite Est | done | done | done | |].
    + unfold next_pc. by destruct (copying c').
    + rewrite Ec. intros Hc ->. destruct Hn0. split; [done | lia].
Qed.

(** A copy that starts (again) reads the store after the last key. *)
Lemma to_copy_ok s a c n : rep s a -> c_iter c = Null -> list_ok a n (c_last_key c) (to_copy s c).
Proof.
  intros Hrep Hi. unfold to_copy. rewrite Hi.
  set (K := if zlen (c_last_key c) =? 0 then _ else _).
  assert (bytes_le (c_last_key c) K /\ (forall k, bytes_lt (c_last_key c) (encode_kv_key k) ->
            bytes_lt K (encode_kv_key k))) as [HK HK'].
  { subst K. destruct (Z.eqb_spec (zlen (c_last_key c)) 0) as [E | E].
    - apply zlen_0 in E. rewrite E. split; [apply bytes_le_nil |]. intros k _.
      apply bytes_lt_cons. left. by vm_compute.
    - split; [apply bytes_le_lteq; by right | done]. }
  split.
  - apply filter_sorted, sorted_entries_sorted.
  - apply Forall_forall. intros x [Hx _]%list_elem_of_filter. by eapply bytes_le_lt_trans.
  - intros k v Hlt _. rewrite list_elem_of_filter, elem_of_sorted_entries. cbn.
    rewrite (r_kv _ _ (rep_store _ _ Hrep)). naive_solver.
Qed.

Lemma copy_call s a c n r : rep s a -> coherent a -> fits s -> is_uint64 (c_last_seq c) ->
  inv a c AtCopy n r ->
  exists z c' out ms, client_copy s c = Done (z, c', out) /\ out = enc_msg <$> ms /\ msgs_fit ms /\
    inv a c' AtSync n (foldl applied r ms) /\
    (copying c' = true -> (length (to_copy s c') < length (to_copy s c))%nat).
Proof.
  intros Hrep Hco Hfits Hu [H1 H2 H3 H4 H5 H6 H7 H8]. specialize (H7 eq_refl). specialize (H4 H7).
  destruct (H6 H7) as [Hh Hi].
  assert (n <> 0%nat) as Hn0 by (intros ->; by destruct (H8 H7 eq_refl)).
  assert (list_ok a n (c_last_key c) (to_copy s c) /\ iter_ok c) as [Hl Hio].
  { unfold iter_ok. destruct (c_iter c) as [| i |] eqn:Ei; [split; [by apply to_copy_ok | done] | | done].
    destruct (Hi i eq_refl) as [? ?]. unfold to_copy. by rewrite Ei. }
  assert (copying_ok a n c r (to_copy s c)) as Hok.
  { split; [done | | done]. intros k Hle. apply H5. by intros _. }
  pose proof (copied_spec a n Hco 1000 (to_copy s c) c r Hu Hok) as Hc.
  pose proof (client_copy_spec s c Hio Hfits) as Hcc.
  assert (to_copy s c = [] -> copied 1000 (to_copy s c) c = ended c) as Hnil by by intros ->.
  destruct (copied 1000 (to_copy s c) c) as [[[z c'] out] [l' |]].
  - destruct Hcc as (i' & -> & Hw & Hy). destruct Hc as (ms & -> & Hms & Es & [Hl' Hlow' Hh'] & Est & Hlen).
    eexists _, _, _, ms. split; [done |]. split; [done |]. split; [done |].
    assert (copying c' = true) as Hcp by (unfold copying in *; by rewrite Est).
    split.
    + split; try done.
      * cbn. congruence.
      * cbn. by rewrite Est.
      * intros k Hcov. apply Hlow'. by apply Hcov.
      * intros _. split; [done |]. cbn. intros i [= <-]. by rewrite Hy.
    + intros _. unfold to_copy at 1. cbn [c_iter set_iter]. rewrite Hy, Hlen.
      destruct (to_copy s c) as [| x l]; [by specialize (Hnil eq_refl) |]. cbn [length]. lia.
  - destruct Hc as (ms & -> & Hms & Es & Hag & Est & Eit). rewrite Hcc.
    eexists _, _, _, ms. split; [done |]. split; [done |]. split; [done |].
    assert (copying c' = false) as Hcp by (unfold copying; by rewrite Est).
    split; [| by rewrite Hcp]. split; try done.
    + congruence.
    + rewrite Est. auto.
    + by rewrite Eit.
    + intros k _. by apply Hag.
    + by rewrite Hcp.
Qed.
End Calls.

(** ** Runs of the system *)
Section NoCopy.
Context `{LevelDB}.
Implicit Types (c : Client) (y : Sys).

(** Outside of a copy [sync] leaves [iter] alone, and does not start a copy. *)
Lemma sync_loop_no_copy f : forall s c log z c' out, c_status c <> SyncStatus.COPY ->
  sync_loop f s c log = Done (z, c', out) ->
  c_status c' <> SyncStatus.COPY /\ c_iter c' = c_iter c.
Proof.
  induction f as [| f IH]; intros s c log z c' out Hc E; [done |]. cbn [sync_loop] in E.
  rewrite (proj2 (Z.eqb_neq _ _) Hc) in E. cbn [andb] in E.
  destruct (find_next _ _ _) as [ret log']. destruct (ret =? 0); [by simplify_eq |]. cbn [ebind] in E.
  apply bind_Done in E as (seq & _ & E). destruct (negb _ && _); [by simplify_eq/= |].
  apply bind_Done in E as (ty & _ & E). destruct (bool_decide _ && _).
  - destruct (1000 <=? _); [| by apply IH in E].
    unfold client_noop in E. by destruct (_ && _); simplify_eq/=.
  - apply bind_Done in E as (o & _ & E). by simplify_eq/=.
Qed.

Lemma never_copies evs : forall y y', y_pc y = AtSync /\ c_status (y_client y) <> SyncStatus.COPY ->
  sys_run evs y = Done y' ->
  (y_pc y' = AtSync /\ c_status (y_client y') <> SyncStatus.COPY) /\
  c_iter (y_client y') = c_iter (y_client y).
Proof.
  induction evs as [| ev evs IH]; intros y y' Hy E; cbn [sys_run] in E; [by injection E as <- |].
  apply bind_Done in E as (y1 & E1 & E).
  cut ((y_pc y1 = AtSync /\ c_status (y_client y1) <> SyncStatus.COPY) /\
       c_iter (y_client y1) = c_iter (y_client y)).
  { intros [Hy1 <-]. by apply IH. }
  destruct Hy as [Hpc Hc]. destruct ev as [o |]; cbn [sys_step] in E1.
  - apply bind_Done in E1 as ([r s] & _ & E1). by injection E1 as <-.
  - rewrite Hpc in E1. destruct (_ =? SyncStatus.OUT_OF_SYNC); [by injection E1 as <- |].
    apply bind_Done in E1 as ([[z c] out] & E2 & E1). apply sync_loop_no_copy in E2 as [Hc2 Hi]; [| done].
    injection E1 as <-. cbn. by rewrite (proj2 (Z.eqb_neq _ _) Hc2).
Qed.
End NoCopy.

Section Runs.
Context `{LevelDBSpec}.
Implicit Types (s : SSDBImpl) (a : Spec) (c : Client) (r : Replica) (y : Sys).
Variable good : DB -> Prop.
Hypothesis good_read : forall d k, good d -> (Get d k).1 <> IOError.
Hypothesis good_write : forall d b st d', good d -> Write d b = (st, d') -> good d'.

(** The replica before the first packet. *)
Variable r0 : Replica.

Definition replica_after (out : list packet) r : Prop :=
  exists ms, out = enc_msg <$> ms /\ msgs_fit ms /\ r = foldl applied r0 ms.

Record sys_ok (N : Z) y a : Prop := {
  so_rep : rep (y_db y) a;
  so_good : good (ldb (y_db y));
  so_bound : bounded N a;
  so_size : Z.of_nat (entries (y_db y)) <= N;
  so_coherent : coherent a;
  so_inv : exists n r, replica_after (y_sent y) r /\ inv a (y_client y) (y_pc y) n r
}.

Lemma replica_after_app out r ms : replica_after out r -> msgs_fit ms ->
  replica_after (out ++ (enc_msg <$> ms)) (foldl applied r ms).
Proof.
  intros (ms0 & -> & Hms & ->) Hms'. exists (ms0 ++ ms).
  rewrite fmap_app, foldl_app. split; [done |]. split; [by apply Forall_app | done].
Qed.

Lemma good_readable s : good (ldb s) -> readable_all s.
Proof. intros Hg k. by apply good_read. Qed.

Lemma sys_op N y a o : sys_ok N y a -> N + 3 < 2 ^ 62 ->
  exists y' a', sys_step (EvOp o) y = Done y' /\ sys_ok (N + 3) y' a' /\ y_sent y' = y_sent y.
Proof.
  intros [Hrep Hg Hb Hsz Hco (n & r & Hr & Hi)] HN. cbn [sys_step].
  destruct (bounded_room N a Hb ltac:(lia)) as [Hroom Hfit].
  destruct (step_spec good good_read good_write o (y_db y) a Hrep Hroom Hfit Hg)
    as (z & s' & a' & E & Hst & Hrep' & Hg').
  rewrite E. cbn [ebind]. eexists _, a'. split; [done |]. split; [| done].
  destruct (spec_step_coherent _ o z a a' Hco Hst) as [Hco' Hex].
  split; cbn [y_db y_client y_pc y_sent]; try done.
  - eapply bounded_le; [by eapply spec_step_bounded | lia].
  - apply step_entries in E. lia.
  - exists n, r. split; [done |]. by eapply inv_extends.
Qed.

(** A call of the thread; without progress on the log it makes progress copying. *)
Definition behind y a : nat := length (history a) - Z.to_nat (c_last_seq (y_client y)).
Definition work y : nat :=
  if copying (y_client y) then
    2 * length (to_copy (y_db y) (y_client y)) + match y_pc y with AtSync => 2 | AtCopy => 1 end
  else 0.

Lemma sys_thread N y a : sys_ok N y a -> N < 2 ^ 62 ->
  exists y', sys_step EvThread y = Done y' /\ sys_ok N y' a /\ y_db y' = y_db y /\
    ((behind y' a < behind y a)%nat \/ behind y' a = behind y a /\ (work y' < work y)%nat \/
     behind y a = 0%nat /\ copying (y_client y) = false /\ y' = y).
Proof.
  intros [Hrep Hg Hb Hsz Hco (n & r & Hr & Hi)] HN. cbn [sys_step]. unfold behind.
  pose proof (good_readable _ Hg) as Hread. pose proof (iv_seq _ _ _ _ _ Hi) as Hs.
  pose proof (iv_le _ _ _ _ _ Hi) as Hle. rewrite Hs, Nat2Z.id.
  destruct (y_pc y) eqn:Epc.
  - assert ((c_status (y_client y) =? SyncStatus.OUT_OF_SYNC) = false) as ->.
    { by destruct (iv_status _ _ _ _ _ Hi) as [-> | [-> | ->]]. }
    destruct (sync_call _ a _ n r Hrep Hread Hco Hi)
      as (z & c' & out & n' & ms & -> & -> & Hms & Hi' & Ec & Hn & Hst).
    cbn [ebind]. change (if c_status c' =? SyncStatus.COPY then AtCopy else AtSync) with (next_pc c').
    eexists. split; [done |]. split.
    { split; try done. eexists n', _. split; [by apply replica_after_app | done]. }
    split; [done |]. cbn [y_client]. rewrite (iv_seq _ _ _ _ _ Hi'), Nat2Z.id.
    pose proof (iv_le _ _ _ _ _ Hi'). destruct (decide (n' = n)) as [-> | Hne]; [right | left; lia].
    destruct (Hst eq_refl) as (Hn0 & -> & ->). destruct (copying (y_client y)) eqn:Ecp.
    + left. split; [done |]. unfold work. cbn [y_client y_pc y_db]. rewrite Ecp, Epc.
      unfold next_pc. rewrite Ecp. lia.
    + right. split; [lia |]. split; [done |].
      unfold next_pc. rewrite Ecp. cbn. rewrite app_nil_r. by destruct y; cbn in *; subst.
  - destruct (copy_call (y_db y) a (y_client y) n r Hrep Hco) as (z & c' & out & ms & -> & -> & Hms & Hi' & Hw).
    + unfold fits, entries in *. zlia.
    + rewrite Hs. destruct Hb. zlia.
    + done.
    + cbn [ebind]. eexists. split; [done |]. split.
      { split; try done. eexists n, _. split; [by apply replica_after_app | done]. }
      split; [done |]. right. left. cbn [y_client]. rewrite (iv_seq _ _ _ _ _ Hi'), Nat2Z.id.
      split; [done |]. unfold work. cbn [y_client y_pc y_db]. rewrite Epc.
      rewrite (iv_pc _ _ _ _ _ Hi eq_refl). destruct (copying c'); [specialize (Hw eq_refl); lia | lia].
Qed.

Lemma sys_ok_le N N' y a : sys_ok N y a -> N <= N' -> sys_ok N' y a.
Proof. intros [? ? ? ? ? ?] Hle. split; try done; [by eapply bounded_le | lia]. Qed.

Lemma sys_run_ok evs : forall N y a, sys_ok N y a -> N + 3 * zlen evs < 2 ^ 62 ->
  exists y' a', sys_run evs y = Done y' /\ sys_ok (N + 3 * zlen evs) y' a'.
Proof.
  induction evs as [| ev evs IH]; intros N y a Hy HN; cbn [sys_run].
  { exists y, a. replace (N + 3 * zlen (@nil Event)) with N by zl. done. }
  rewrite zlen_cons in *.
  assert (exists y1 a1, sys_step ev y = Done y1 /\ sys_ok (N + 3) y1 a1) as (y1 & a1 & -> & Hy1).
  { destruct ev as [o |].
    - destruct (sys_op N y a o Hy ltac:(zl)) as (y1 & a1 & ? & ? & _). eauto.
    - destruct (sys_thread N y a Hy ltac:(zl)) as (y1 & ? & Hy1 & _). exists y1, a. split; [done |].
      eapply sys_ok_le; [done | lia]. }
  cbn [ebind]. destruct (IH (N + 3) y1 a1 Hy1 ltac:(lia)) as (y' & a' & -> & Hy').
  exists y', a'. split; [done |]. by replace (N + 3 * (1 + zlen evs)) with (N + 3 + 3 * zlen evs) by lia.
Qed.

(** Left alone, the thread catches up. *)
Lemma sys_catch_up N a : N < 2 ^ 62 -> forall d w y, behind y a = d -> work y = w -> sys_ok N y a ->
  exists k y', sys_run (replicate k EvThread) y = Done y' /\ sys_ok N y' a /\ y_db y' = y_db y /\
    behind y' a = 0%nat /\ copying (y_client y') = false.
Proof.
  intros HN. induction d as [d IHd] using lt_wf_ind. induction w as [w IHw] using lt_wf_ind.
  intros y Hd Hw Hy. destruct (sys_thread N y a Hy HN) as (y1 & E & Hy1 & Edb & Hp).
  assert (forall k y', sys_run (replicate k EvThread) y1 = Done y' ->
            sys_run (replicate (S k) EvThread) y = Done y') as Hcons.
  { intros k y' Ek. cbn [replicate sys_run]. by rewrite E. }
  destruct Hp as [Hlt | [[Heq Hlt] | (H0 & Hc & ->)]].
  - destruct (IHd _ ltac:(rewrite <- Hd; exact Hlt) _ y1 eq_refl eq_refl Hy1) as (k & y' & Ek & ? & Edb' & ? & ?).
    exists (S k), y'. split; [by apply Hcons |]. split_and!; try done. congruence.
  - destruct (IHw _ ltac:(rewrite <- Hw; exact Hlt) y1 ltac:(congruence) eq_refl Hy1)
      as (k & y' & Ek & ? & Edb' & ? & ?).
    exists (S k), y'. split; [by apply Hcons |]. split_and!; try done. congruence.
  - exists 0%nat, y. split_and!; try done.
Qed.

(** A replica that has caught up has the pairs of the master. *)
Lemma caught_up N y a : sys_ok N y a -> behind y a = 0%nat -> copying (y_client y) = false ->
  exists r, replica_after (y_sent y) r /\ r_pairs r = kv a.
Proof.
  intros [_ _ _ _ _ (n & r & Hr & Hi)] Hb Hc. exists r. split; [done |].
  apply map_eq. intros k. apply (iv_agree _ _ _ _ _ Hi); [intros ?; congruence |].
  unfold behind in Hb. rewrite (iv_seq _ _ _ _ _ Hi), Nat2Z.id in Hb.
  intros (e & He & _). rewrite drop_ge in He by lia. by apply elem_of_nil in He.
Qed.

(** Before the first packet: [sys_start] for a full copy, or for a slave at the
    position [n]. *)
Lemma start_copy N s a m : rep s a -> good (ldb s) -> bounded N a -> Z.of_nat (entries s) <= N ->
  coherent a -> history a <> [] -> r_pairs r0 = ∅ ->
  exists y, sys_start Null s [lit "sync140"; str_uint64 0; []; m] = Done y /\ sys_ok N y a.
Proof.
  intros Hrep Hg Hb Hsz Hco Hne Hr0. unfold sys_start. rewrite client_init_seq by by vm_compute.
  cbn zeta. change (zlen (@nil ascii) =? 0) with true. change (0 =? 0) with true.
  cbn [andb ebind client_reset]. eexists. split; [done |].
  split; try done. exists 0%nat, r0. cbn [y_sent y_client y_pc]. split.
  { exists [mkMsg 0 BinlogType.COPY BinlogCommand.BEGIN [] [lit "copy_begin"]].
    split; [done |]. split; [| done]. constructor; [by vm_compute | constructor]. }
  split; try done.
  - cbn. lia.
  - by right; left.
  - intros k Hcov. specialize (Hcov eq_refl). cbn in Hcov. by destruct Hcov.
  - intros _. split; [| by intros i [=]]. intros k _. by rewrite Hr0.
Qed.

(** With a pointer that was not [NULL] by chance, the first call deletes it. *)
Lemma start_wild s a m : rep s a -> coherent a -> history a <> [] ->
  exists y, sys_start Wild s [lit "sync140"; str_uint64 0; []; m] = Done y /\ sys_step EvThread y = UB.
Proof.
  intros Hrep Hco Hne. unfold sys_start. rewrite client_init_seq by by vm_compute.
  cbn zeta. change (zlen (@nil ascii) =? 0) with true. change (0 =? 0) with true.
  cbn [andb ebind client_reset c_last_noop_seq c_is_mirror c_iter]. eexists. split; [done |].
  cbn [sys_step y_client y_pc y_db c_status]. change (_ =? SyncStatus.OUT_OF_SYNC) with false.
  cbv iota. rewrite (first_sync_wild s (history a)); try done; [by apply rep_queue |].
  rewrite Forall_forall. apply (co_key _ Hco).
Qed.

Lemma start_any it N s a m : rep s a -> good (ldb s) -> bounded N a -> Z.of_nat (entries s) <= N ->
  coherent a -> history a <> [] -> r_pairs r0 = ∅ ->
  exists y, sys_start it s [lit "sync140"; str_uint64 0; []; m] = Done y /\
    (it = Null -> sys_ok N y a) /\ (it = Wild -> sys_step EvThread y = UB).
Proof.
  intros. destruct (start_copy N s a m) as (y0 & E0 & Hy0); try done.
  destruct (start_wild s a m) as (y1 & E1 & Hy1); try done.
  destruct it as [| i |]; [by exists y0 | | by exists y1].
  unfold sys_start. rewrite client_init_seq by by vm_compute. by eexists.
Qed.

Lemma start_sync it N s a m n : rep s a -> good (ldb s) -> bounded N a -> Z.of_nat (entries s) <= N ->
  coherent a -> N < 2 ^ 62 -> n <> 0%nat -> (n <= length (history a))%nat ->
  agree (fun _ => True) a n (r_pairs r0) ->
  exists y, sys_start it s [lit "sync140"; str_uint64 (Z.of_nat n); []; m] = Done y /\ sys_ok N y a.
Proof.
  intros Hrep Hg Hb Hsz Hco HN Hn0 Hn Hag. unfold sys_start.
  rewrite client_init_seq by (destruct Hb; zlia).
  cbn zeta. change (zlen (@nil ascii) =? 0) with true. rewrite (proj2 (Z.eqb_neq _ _)) by lia.
  cbn [andb ebind]. eexists. split; [done |].
  split; try done. exists n, r0. cbn [y_sent y_client y_pc]. split.
  { exists []. split; [done |]. split; [constructor | done]. }
  split; try done.
  - by left.
  - intros k _. by apply Hag.
Qed.

(** From any state of a run. *)
Definition converges evs y0 : Prop :=
  exists y1 a1, sys_run evs y0 = Done y1 /\ rep (y_db y1) a1 /\
    exists k y2 ms, sys_run (replicate k EvThread) y1 = Done y2 /\ y_db y2 = y_db y1 /\
      y_sent y2 = enc_msg <$> ms /\ msgs_fit ms /\ r_pairs (foldl applied r0 ms) = kv a1.

Lemma sys_converges N y0 a evs : sys_ok N y0 a -> N + 3 * zlen evs < 2 ^ 62 -> converges evs y0.
Proof.
  intros Hy0 HN. destruct (sys_run_ok evs N y0 a Hy0 HN) as (y1 & a1 & E1 & Hy1).
  exists y1, a1. split; [done |]. split; [apply Hy1 |].
  destruct (sys_catch_up _ a1 HN _ _ y1 eq_refl eq_refl Hy1) as (k & y2 & E2 & Hy2 & Edb & Hb0 & Hc).
  destruct (caught_up _ y2 a1 Hy2 Hb0 Hc) as (r & (ms & Es & Hms & ->) & Hr). by exists k, y2, ms.
Qed.

(** C4: convergence: when a slave that starts empty asks for everything, the
    packets sent lead its replica to the pairs of the master.  Provided the pointer
    [iter], which the constructor leaves as it finds it, happens to be [NULL]:
    whatever operations the master executes before, between and after the calls
    of the copy and of the log reader, every call returns, and once the thread is
    left alone for a while the packets sent make the replica's pairs those of the
    master's store.  When [iter] points anywhere, the first call deletes that wild
    pointer, and is undefined.  Assumed of the master: its store never fails
    to read (it may refuse writes), its log is not empty when the slave connects
    (see [empty_log_race]), the last record of every pair tells whether it is
    there, and records, entries and operations together stay below 2^62. *)
Theorem convergence it N s a m evs :
  r_pairs r0 = ∅ -> rep s a -> good (ldb s) -> bounded N a -> Z.of_nat (entries s) <= N ->
  coherent a -> history a <> [] -> N + 3 * zlen evs < 2 ^ 62 ->
  exists y0, sys_start it s [lit "sync140"; str_uint64 0; []; m] = Done y0 /\
    (it = Null -> converges evs y0) /\ (it = Wild -> sys_step EvThread y0 = UB).
Proof.
  intros Hr0 Hrep Hg Hb Hsz Hco Hne HN.
  destruct (start_any it N s a m) as (y0 & E0 & Hy0 & Hw); try done.
  exists y0. split_and!; try done. intros Hit. by eapply sys_converges, HN; apply Hy0.
Qed.

(** C9: resumption: a slave whose replica is right for every pair without a record
    after its position [n] (not 0, and in the log) converges again when it
    reconnects with that position, from the log alone: the thread begins in the
    state [INIT], never gets into the state of a copy, and never touches the pointer
    [iter], whatever that holds.  Assumed of the master: its store never fails to
    read (a record whose pair cannot be read is passed over for ever; its writes may
    be refused), the last record of every pair tells whether it is there, and records,
    entries and operations together stay below 2^62. *)
Theorem resumption it N s a m n evs :
  agree (fun _ => True) a n (r_pairs r0) -> n <> 0%nat -> (n <= length (history a))%nat ->
  rep s a -> good (ldb s) -> bounded N a -> Z.of_nat (entries s) <= N ->
  coherent a -> N + 3 * zlen evs < 2 ^ 62 ->
  exists y0, sys_start it s [lit "sync140"; str_uint64 (Z.of_nat n); []; m] = Done y0 /\
    c_status (y_client y0) = SyncStatus.INIT /\ converges evs y0 /\
    forall evs' y, sys_run evs' y0 = Done y ->
      c_status (y_client y) <> SyncStatus.COPY /\ c_iter (y_client y) = it.
Proof.
  intros Hag Hn0 Hn Hrep Hg Hb Hsz Hco HN. pose proof (zlen_nonneg evs).
  destruct (start_sync it N s a m n) as (y0 & E & Hy0); try done; [lia |]. exists y0. split; [done |].
  unfold sys_start in E. rewrite client_init_seq in E by (destruct Hb; zlia). cbn zeta in E.
  rewrite (proj2 (Z.eqb_neq (Z.of_nat n) 0)), andb_false_r in E by lia. injection E as <-.
  split; [done |]. split; [by eapply sys_converges |]. intros evs' y Er.
  apply never_copies in Er as [[_ ?] ?]; done.
Qed.
End Runs.

(** ** From store to store *)
Section EndToEnd.
Context `{LevelDBSpec} `{Heap}.
Implicit Types (s : SSDBImpl) (a : Spec).

(** A store that was only changed by operations is coherent. *)
Lemma spec_run_coherent R a os rs a' : spec_run R a os rs a' -> coherent a -> coherent a'.
Proof. induction 1; [done |]. intros Hc. apply IHspec_run. by eapply spec_step_coherent. Qed.

(** A store built from an empty one by operations. *)
Lemma built (good : DB -> Prop) (good_read : forall d k, good d -> (Get d k).1 <> IOError)
    (good_write : forall d b st d', good d -> Write d b = (st, d') -> good d') os : forall s a n,
  rep s a -> good (ldb s) -> bounded n a -> Z.of_nat (entries s) <= 3 * n -> coherent a ->
  n + zlen os < 2 ^ 61 ->
  exists rs s' a', run os s = Done (rs, s') /\ rep s' a' /\ good (ldb s') /\
    bounded (n + zlen os) a' /\ Z.of_nat (entries s') <= 3 * (n + zlen os) /\ coherent a'.
Proof.
  induction os as [| o os IH]; intros s a n Hrep Hg Hb Hsz Hco Hn; cbn [run].
  { exists [], s, a. replace (n + zlen (@nil Op)) with n by zl. done. }
  rewrite zlen_cons in *. destruct (bounded_room n a Hb ltac:(zl)) as [Hroom Hfit].
  destruct (step_spec good good_read good_write o s a Hrep Hroom Hfit Hg)
    as (r & s1 & a1 & E & Hst & Hrep1 & Hg1).
  rewrite E. cbn [ebind]. apply step_entries in E.
  destruct (IH s1 a1 (n + 1)) as (rs & s2 & a2 & -> & Hrep2 & Hg2 & Hb2 & Hsz2 & Hco2); try done.
  - by eapply spec_step_bounded.
  - lia.
  - by eapply spec_step_coherent.
  - lia.
  - cbn [ebind]. replace (n + (1 + zlen os)) with (n + 1 + zlen os) by lia. by exists (r :: rs), s2, a2.
Qed.

(** C1: replication from store to store.  The master's store is built from an
    empty one by any operations, at least one of which left a log record; a slave
    with no pairs connects and asks for everything; more operations follow in any
    interleaving with the calls of the thread, which is then left alone.  If the
    pointer [iter] of the thread's client happened to be [NULL], every call
    returns, and the bytes of the packets sent, however they are cut on the way,
    leave a store on the slave that represents the same pairs as the master's; the
    constructor does not set [iter], and if it points anywhere the first call of
    the thread is undefined.  Assumed: the master's store never fails to read (it
    may refuse writes); neither store of the slave ever fails; no reallocation is
    refused; the strings of the packets are those a link can send, and their bytes
    are at most 2^25 on one connection; the slave's position is the one it saved;
    the operations before and after, and the packets, are few enough that no
    sequence number reaches 2^61. *)
Theorem end_to_end (it : IterPtr) (good good' : DB -> Prop) `{!Healthy good'}
    (good_read : forall d k, good d -> (Get d k).1 <> IOError)
    (good_write : forall d b st d', good d -> Write d b = (st, d') -> good d')
    (no_refusal : forall n, realloc_ok n = true)
    d os m evs sl b bm n :
  good d -> contents d = ∅ -> 3 * zlen os + 3 * zlen evs < 2 ^ 60 ->
  srep (good := good') sl b bm -> small n b bm -> saved sl bm -> kv b = ∅ ->
  exists s0 rs s, ssdb_open (Some d) = Done (Some s0) /\ run os s0 = Done (rs, s) /\
    (last_seq (binlogs s) <> 0 ->
     exists y0, sys_start it s [lit "sync140"; str_uint64 0; []; m] = Done y0 /\
       (it = Wild -> sys_step EvThread y0 = UB) /\
       (it = Null -> exists y1 a1 k y2,
         sys_run evs y0 = Done y1 /\ rep (y_db y1) a1 /\
         sys_run (replicate k EvThread) y1 = Done y2 /\ y_db y2 = y_db y1 /\
         forall cs, Forall packet_ok (y_sent y2) -> mjoin cs = LinkSpec.enc_stream (y_sent y2) ->
           zlen (mjoin cs) <= 2 ^ 25 -> n + 2 * zlen (y_sent y2) < 2 ^ 61 ->
           exists l sl' b', slave_feed cs new_Link sl = Done (Some l, sl') /\
             rep (s_ssdb sl') b' /\ kv b' = kv a1)).
Proof.
  intros Hg Hd HN Hs Hsm Hsv Hkv. pose proof (zlen_nonneg os). pose proof (zlen_nonneg evs).
  destruct (open_spec d (mkSpec ∅ ∅ [])) as (s0 & -> & Hrep0 & Hl).
  { rewrite Hd. split; cbn; [apply log_inv_empty | done..]. }
  destruct (built good good_read good_write os s0 (mkSpec ∅ ∅ []) 0) as
    (rs & s & a & Erun & Hrep & Hgs & Hb & Hsz & Hco);
    [exact Hrep0 | by rewrite Hl | | | apply coherent_empty | lia |].
  { split; cbn; [lia |]. intros nm. unfold hash_size. by rewrite map_filter_empty, map_size_empty. }
  { unfold entries. by rewrite Hl, Hd, map_size_empty. }
  exists s0, rs, s. split_and!; try done. intros Hseq.
  assert (history a <> []) as Hne.
  { intros E. apply Hseq. by rewrite (q_last _ _ (rep_queue _ _ Hrep)), E. }
  destruct (start_any good (replica_of sl b) it (3 * zlen os) s a m) as (y0 & E0 & Hy0 & Hw); try done.
  { eapply bounded_le; [done | lia]. }
  exists y0. split; [done |]. split; [done |]. intros Hnull.
  destruct (sys_converges good good_read good_write (replica_of sl b) _ y0 a evs (Hy0 Hnull) ltac:(lia))
    as (y1 & a1 & E1 & Hr1 & k & y2 & ms & E2 & Edb & Es & Hms & Hr).
  exists y1, a1, k, y2. split_and!; try done. intros cs Hok Hcs Hlen Hn.
  assert (zlen (y_sent y2) = zlen ms) as El by (rewrite Es; unfold zlen; by rewrite length_fmap).
  rewrite Es in *. rewrite El in Hn.
  destruct (slave_reads (good := good') no_refusal cs ms sl b bm n Hs Hsm Hsv Hn Hms Hok Hcs Hlen)
    as (l & sl' & b' & E & Hrep' & Er & _).
  exists l, sl', b'. split; [done |]. split; [done |]. rewrite <- Hr. by rewrite <- Er.
Qed.
End EndToEnd.
End ReplicationSpec.

(** * Instances *)

Module ReplicationSamples.
Import ReplicationSpec SSDBSamples SlaveSamples.
#[local] Existing Instance Bytes.BufferSpec.sample_heap.

Definition sample_db : SSDBImpl := (ssdb_set (lit "x") (lit "1") (fresh_ssdb [])).2.
Definition sample_spec : Spec := spec_set (lit "x") (lit "1") no_spec.

Lemma good_read (d : @DB Mem.leveldb) k : mem_good d -> (Get d k).1 <> IOError.
Proof. apply (healthy_read (good := mem_good)). Qed.
Lemma good_written (d : @DB Mem.leveldb) b st d' : mem_good d -> Write d b = (st, d') -> mem_good d'.
Proof. apply (good_write (good := mem_good)). Qed.

Lemma sample_rep : rep sample_db sample_spec.
Proof.
  destruct (set_healthy (good := mem_good) (lit "x") (lit "1") (fresh_ssdb []) no_spec (rep_fresh []))
    as (s & E & Hrep & _); [by vm_compute | done | done |].
  unfold sample_db. by rewrite E.
Qed.

Lemma sample_coherent : coherent sample_spec.
Proof.
  apply (spec_step_coherent False (OpSet (lit "x") (lit "1")) (RInt 1) no_spec); [apply coherent_empty |].
  by left.
Qed.

Lemma sample_bounded : bounded 3 sample_spec.
Proof. split; [by vm_compute | intros n; by vm_compute]. Qed.

Definition sample_events : list Event :=
  [EvOp (OpSet (lit "y") (lit "2")); EvThread; EvOp (OpDel (lit "x")); EvThread;
   EvOp (OpHset (lit "h") (lit "f") (lit "3") BinlogType.SYNC)].

Lemma convergence_witness : exists y0,
  sys_start Null sample_db [lit "sync140"; str_uint64 0; []; lit "sync"] = Done y0 /\
  (Null = @Null Mem.leveldb -> converges (mkReplica ∅ 0 []) sample_events y0) /\
  (Null = @Wild Mem.leveldb -> sys_step EvThread y0 = UB).
Proof.
  apply (convergence mem_good good_read good_written (mkReplica ∅ 0 []) Null 3 sample_db sample_spec
           (lit "sync") sample_events).
  - reflexivity.
  - apply sample_rep.
  - by vm_compute.
  - apply sample_bounded.
  - by vm_compute.
  - apply sample_coherent.
  - discriminate.
  - by vm_compute.
Defined.

Lemma resumption_witness : exists y0,
  sys_start Wild sample_db [lit "sync140"; str_uint64 1; []; lit "sync"] = Done y0 /\
  c_status (y_client y0) = SyncStatus.INIT /\
  converges (mkReplica {[lit "x" := lit "1"]} 1 []) sample_events y0 /\
  forall evs' y, sys_run evs' y0 = Done y ->
    c_status (y_client y) <> SyncStatus.COPY /\ c_iter (y_client y) = Wild.
Proof.
  apply (resumption mem_good good_read good_written (mkReplica {[lit "x" := lit "1"]} 1 []) Wild 3 sample_db
           sample_spec (lit "sync") 1 sample_events).
  - intros k _ _. reflexivity.
  - discriminate.
  - cbn. lia.
  - apply sample_rep.
  - by vm_compute.
  - apply sample_bounded.
  - by vm_compute.
  - apply sample_coherent.
  - by vm_compute.
Defined.

Lemma end_to_end_witness : exists s0 rs s,
  ssdb_open (Some (Mem.healthy ∅)) = Done (Some s0) /\ run sample_ops s0 = Done (rs, s) /\
  (last_seq (binlogs s) <> 0 ->
   exists y0, sys_start Null s [lit "sync140"; str_uint64 0; []; lit "sync"] = Done y0 /\
     (Null = @Wild Mem.leveldb -> sys_step EvThread y0 = UB) /\
     (Null = @Null Mem.leveldb -> exists y1 a1 k y2,
       sys_run sample_events y0 = Done y1 /\ rep (y_db y1) a1 /\
       sys_run (replicate k EvThread) y1 = Done y2 /\ y_db y2 = y_db y1 /\
       forall cs, Forall packet_ok (y_sent y2) -> mjoin cs = LinkSpec.enc_stream (y_sent y2) ->
         zlen (mjoin cs) <= 2 ^ 25 -> 2 + 2 * zlen (y_sent y2) < 2 ^ 61 ->
         exists l sl' b', slave_feed cs new_Link (saved_slave (Mem.healthy ∅)) = Done (Some l, sl') /\
           rep (s_ssdb sl') b' /\ kv b' = kv a1)).
Proof.
  destruct saved_slave_spec as (bm & Hs & Hsm & Hsv).
  apply (end_to_end (H0 := Bytes.BufferSpec.sample_heap) Null mem_good mem_good good_read good_written (fun _ => eq_refl)
           (Mem.healthy ∅) sample_ops (lit "sync") sample_events (saved_slave (Mem.healthy ∅)) no_spec bm 2).
  - by split.
  - reflexivity.
  - by vm_compute.
  - exact Hs.
  - exact Hsm.
  - exact Hsv.
  - reflexivity.
Defined.

(** ** A copy of a store whose log was empty at first *)

Definition key_no (n : nat) : bytes := print_int (Z.of_nat (1000 + n)).

(** A thousand and one pairs are written between the first [sync] and the first
    [copy], and two of those copied are written again before the next [sync]. *)
Definition race : list Event :=
  EvThread :: ((fun n => EvOp (OpSet (key_no n) (lit "old"))) <$> seq 0 1001) ++
  [EvThread; EvOp (OpSet (key_no 0) (lit "new")); EvOp (OpSet (key_no 1) (lit "new"))] ++
  replicate 3 EvThread.

Definition race_result : exec Sys :=
  let* y := sys_start Null (fresh_ssdb []) [lit "sync140"; str_uint64 0; []; lit "sync"] in sys_run race y.

(** The packets about a pair. *)
Definition packets_about (k : bytes) (out : list packet) : list packet :=
  filter (fun p => (match p with
                    | log :: _ => match Binlog.key log with
                                  | Done k' => bool_decide (k' = encode_kv_key k)
                                  | _ => false
                                  end
                    | [] => false
                    end) = true) out.

Definition race_lost (y : Sys) : Prop :=
  c_status (y_client y) = SyncStatus.SYNC /\ c_last_seq (y_client y) = last_seq (binlogs (y_db y)) /\
  ssdb_get (y_db y) (key_no 0) [] = (1, lit "new") /\
  packets_about (key_no 0) (y_sent y) =
    [[Binlog.make 0 BinlogType.COPY BinlogCommand.KSET (encode_kv_key (key_no 0)); lit "old"]].
#[local] Instance race_lost_dec y : Decision (race_lost y).
Proof. unfold race_lost. apply _. Defined.

(** An update can be lost when the log is empty at the start of a copy: the
    position stays 0 while the copy runs, so the next [sync] takes the last record
    of the log and passes over all before it.  Here the copy is over and the
    thread has reached the end of the log, but the only packet about a pair
    carries the value it no longer has. *)
Theorem empty_log_race : match race_result with Done y => race_lost y | _ => False end.
Proof.
  assert ((match race_result with Done y => bool_decide (race_lost y) | _ => false end) = true) as Hc
    by (vm_compute; reflexivity).
  destruct race_result; [| done..]. by apply bool_decide_eq_true in Hc.
Qed.
End ReplicationSamples.
