(* ===== verification/Server.v ===== *)
(** The server: [NetworkServer] of [ssdb/src/net/server.h] and [server.cpp],
    [SSDBServer] of [serv.h] and [serv.cpp], the handlers of [proc_kv.cpp], and
    [run] of [ssdb_server.cpp].  The calls of libuv are parameters: their results
    are arguments. *)
From S2P Require Import Prelude CLib Strings Bytes Resp Proc Redis LevelDB Binlog Iterator SSDB.
From S2P Require Import Link Config BackendSync Slave.
Import BinlogSpec IteratorSpec SSDBSpec.

Section Ops.
Context `{LevelDB}.

(** [SSDBServer]; [syncs] are the requests of the threads [BackendSync::proc] has
    started, and [serv_slave] the slave object. *)
Record SSDBServer := mkServer {
  ssdb : SSDBImpl; meta : option SSDBImpl; syncs : list (list bytes); serv_slave : option Slave }.

Definition set_ssdb (d : SSDBImpl) (s : SSDBServer) : SSDBServer :=
  mkServer d (meta s) (syncs s) (serv_slave s).

Abbreviation handler := (proc_t (S := SSDBServer)).

(** [CHECK_NUM_PARAMS(n)]. *)
Definition check_num_params (n : Z) (h : handler) : handler := fun req s =>
  if zlen req <? n then
    Done (s, Response.push_back (lit "wrong number of arguments") (Response.push_back (lit "client_error") []))
  else h req s.
Definition arg (req : list bytes) (i : nat) : exec bytes :=
  match req !! i with Some a => Done a | None => UB end.

Definition proc_get : handler := check_num_params 2 (fun req s =>
  let* key := arg req 1 in
  let '(ret, val) := ssdb_get (ssdb s) key [] in
  Done (s, Response.reply_get ret (Some val) None [])).

Definition ok_or_error (ret : Z) : list bytes :=
  if ret =? -1 then Response.push_back (lit "error") []
  else Response.push_back (lit "1") (Response.push_back (lit "ok") []).

Definition proc_set : handler := check_num_params 3 (fun req s =>
  let* key := arg req 1 in
  let* val := arg req 2 in
  let '(ret, d) := ssdb_set key val (ssdb s) in
  Done (set_ssdb d s, ok_or_error ret)).

Definition proc_del : handler := check_num_params 2 (fun req s =>
  let* key := arg req 1 in
  let '(ret, d) := ssdb_del key (ssdb s) in
  Done (set_ssdb d s, ok_or_error ret)).

Definition proc_hset : handler := check_num_params 4 (fun req s =>
  let* name := arg req 1 in
  let* key := arg req 2 in
  let* val := arg req 3 in
  let* (ret, d) := ssdb_hset name key val BinlogType.SYNC (ssdb s) in
  Done (set_ssdb d s, Response.reply_bool ret None [])).

Definition proc_hget : handler := check_num_params 3 (fun req s =>
  let* name := arg req 1 in
  let* key := arg req 2 in
  let '(ret, val) := ssdb_hget (ssdb s) name key [] in
  Done (s, Response.reply_get ret (Some val) None [])).

(** [BackendSync::proc]: a thread for the request, when it can be created. *)
Definition proc_sync140 (thread_created : bool) : handler := fun req s =>
  Done (if thread_created then mkServer (ssdb s) (meta s) (syncs s ++ [req]) (serv_slave s) else s, []).

Definition reg_procs (m : gmap bytes (Command handler)) : gmap bytes (Command handler) :=
  let m := set_proc (lit "get") (lit "rt") proc_get m in
  let m := set_proc (lit "set") (lit "wt") proc_set m in
  let m := set_proc (lit "del") (lit "wt") proc_del m in
  let m := set_proc (lit "hset") (lit "wt") proc_hset m in
  let m := set_proc (lit "hget") (lit "wt") proc_hget m in
  set_proc (lit "sync140") (lit "wt") (proc_sync140 true) m.

(** [NetworkServer::init], given the results of [uv_ip4_addr], [uv_tcp_init],
    [uv_tcp_bind] and [uv_listen]: the empty command table and no links. *)
Definition net_init (r_addr r_init r_bind r_listen : Z) : option (gmap bytes (Command handler) * Z) :=
  if negb (r_addr =? 0) then None
  else if negb (r_init =? 0) then None
  else if negb (r_bind =? 0) then None
  else if negb (r_listen =? 0) then None
  else Some (∅, 0).

(** [acceptLink]: the new link, if any. *)
Definition acceptLink `{Heap} (status r_accept : Z) (net : NetworkServer (S := SSDBServer))
    : exec (option Link * NetworkServer (S := SSDBServer)) :=
  if negb (status =? 0) then Done (None, net)
  else if r_accept =? 0 then
    let* n := ck_int (link_count net + 1) in
    Done (Some new_Link, mkNet (proc_map net) (data net) n)
  else Done (None, net).

(** The constructor of [SSDBServer].  [net] and [meta] are pointers that may be
    [NULL]; [slave->start] follows [meta] when a master is configured.  The
    process may exit ([None]). *)
Definition new_SSDBServer (garbage : Z * bool) (data : SSDBImpl) (meta : option SSDBImpl)
    (net : option (gmap bytes (Command handler) * Z)) (cf : Config)
    : exec (option (NetworkServer (S := SSDBServer))) :=
  match net with
  | None => UB
  | Some (m, count) =>
      let m := reg_procs m in
      let ip := Config.master_ip cf in
      let port := Config.master_port cf in
      match meta with
      | None =>
          if (zlen ip =? 0) || (port <=? 0) then
            Done (Some (mkNet m (mkServer data None [] None) count))
          else UB
      | Some md =>
          let* o := slave_start (new_Slave (fst garbage) (snd garbage) data md ip port) in
          match o with
          | None => Done None
          | Some sl => Done (Some (mkNet m (mkServer data (Some md) [] (Some sl)) count))
          end
      end
  end.

(** How [run] ends or starts to serve. *)
Inductive Outcome := Serving (net : NetworkServer (S := SSDBServer)) | Returned (code : Z) | Exited (code : Z)
  | Exception.

(** [run]: the JSON value of the file, what [DB::Open] returns for the two
    directories, and the results of [NetworkServer::init]. *)
Definition run_server (argc : Z) (js : option json) (data_db meta_db : option DB)
    (net : option (gmap bytes (Command handler) * Z)) (garbage : Z * bool) (snappy_default : bool) : exec Outcome :=
  if argc <=? 1 then Done (Returned 0)
  else match js with
  | None => Done Exception
  | Some js =>
      let* c := config_load js in
      match c with
      | None => Done Exception
      | Some cf =>
          let* _ := open_options snappy_default cf in
          let* d := ssdb_open data_db in
          match d with
          | None => Done (Exited 1)
          | Some d =>
              let* m := ssdb_open meta_db in
              let* o := new_SSDBServer garbage d m net cf in
              match o with
              | None => Done (Exited 1)
              | Some net => Done (Serving net)
              end
          end
      end
  end.
End Ops.

(** * Sessions *)

(** What a client of the Redis protocol is promised, request by request: the reply
    and the new state.  [rs] is the request after translation. *)
Definition wrong_number : Reply := RError (lit "ERR wrong number of arguments").

Definition spec_request (c : bytes) (args : list bytes) (a : Spec) : Reply * Spec :=
  if decide (c = lit "get") then
    match args with k :: _ => (RBulk (kv a !! k), a) | _ => (wrong_number, a) end
  else if decide (c = lit "set") then
    match args with
    | k :: v :: _ => (RStatus (lit "OK"), if decide (k = []) then a else spec_set k v a)
    | _ => (wrong_number, a)
    end
  else if decide (c = lit "del") then
    match args with k :: _ => (RInteger (lit "1"), spec_del k a) | _ => (wrong_number, a) end
  else if decide (c = lit "hset") then
    match args with
    | n :: k :: v :: _ =>
        if decide (valid_field n k) then
          (RInteger (match hash a !! (n, k) with Some _ => lit "0" | None => lit "1" end),
           spec_hset n k v BinlogType.SYNC a)
        else (RError (lit "ERR "), a)
    | _ => (wrong_number, a)
    end
  else if decide (c = lit "hget") then
    match args with n :: k :: _ => (RBulk (hash a !! (n, k)), a) | _ => (wrong_number, a) end
  else (RError (lit "ERR Unknown Command: " ++ RecvSpec.translated c), a).

(** A request as a client writes it: a command translated name for name, other than
    the one that starts a replication thread. *)
Record Req := mkReq { rq_cmd : bytes; rq_args : list bytes }.
Definition req_ok (r : Req) : Prop :=
  RecvSpec.by_name (strtolower (rq_cmd r)) /\ strtolower (rq_cmd r) <> lit "sync140".
Definition enc (r : Req) : bytes := enc_req (rq_cmd r :: rq_args r).

Fixpoint spec_session (rs : list Req) (a : Spec) : list Reply * Spec :=
  match rs with
  | [] => ([], a)
  | r :: rs =>
      let '(rep, a) := spec_request (strtolower (rq_cmd r)) (rq_args r) a in
      let '(reps, a) := spec_session rs a in (rep :: reps, a)
  end.

Module ServerSpec.
Section Lemmas.
Context `{LevelDBSpec} `{!Healthy good}.
Implicit Types (s : SSDBServer) (a : Spec) (req : list bytes).

Definition registered : list bytes :=
  [lit "get"; lit "set"; lit "del"; lit "hset"; lit "hget"; lit "sync140"].

(** No command of the table is translated to a registered one of another name. *)
Lemma translated_registered c : RecvSpec.translated c ∈ registered -> c = RecvSpec.translated c.
Proof.
  unfold RecvSpec.translated. destruct (cmd_table !! c) as [d |] eqn:E; [| done].
  assert (map_Forall (fun c d => ssdb_cmd d ∈ registered -> c = ssdb_cmd d) cmd_table) as Hall.
  { apply (bool_decide_unpack _). vm_compute. exact I. }
  by apply (map_Forall_lookup_1 _ _ _ _ Hall).
Qed.

Lemma set_proc_fresh c c' f (p : proc_t (S := SSDBServer)) m : get_proc c m = None ->
  get_proc c' (set_proc c f p m) =
    if decide (c' = c) then Some (mkCommand c (parse_flags f) p 0) else get_proc c' m.
Proof.
  intros Hn. unfold set_proc. rewrite Hn. unfold get_proc. case_decide as Hc.
  - subst. apply lookup_insert_eq.
  - by apply lookup_insert_ne.
Qed.

Lemma get_proc_empty c : get_proc (proc_t := proc_t (S := SSDBServer)) c ∅ = None.
Proof. apply lookup_empty. Qed.

(** The commands a client can call, written out: flags 9 are read and thread, 10
    write and thread. *)
Definition served (c : bytes) : option (Command (proc_t (S := SSDBServer))) :=
  match list_find (fun x => x.1 = c)
          [(lit "get", (9, proc_get)); (lit "set", (10, proc_set)); (lit "del", (10, proc_del));
           (lit "hset", (10, proc_hset)); (lit "hget", (10, proc_hget));
           (lit "sync140", (10, proc_sync140 true))] with
  | Some (_, (n, (f, p))) => Some (mkCommand n f p 0)
  | None => None
  end.
Definition serves_all (m : gmap bytes (Command (proc_t (S := SSDBServer)))) : Prop := forall c, get_proc c m = served c.

Lemma reg_procs_served : serves_all (reg_procs ∅).
Proof.
  intros c. unfold reg_procs. cbn zeta. rewrite !set_proc_fresh by reflexivity. rewrite get_proc_empty.
  unfold served. cbn [list_find fst].
  repeat (match goal with |- context [decide (?x = c)] =>
    destruct (decide (x = c)); [subst c; reflexivity | rewrite (decide_False (P := c = x)) by congruence] end).
  reflexivity.
Qed.

Lemma served_other c : c ∉ registered -> served c = None.
Proof.
  unfold registered. rewrite !elem_of_cons. intros Hc. unfold served. cbn [list_find fst].
  by rewrite !decide_False by naive_solver.
Qed.

(** What a handler answers: the response stands for the reply, and its strings are
    no longer than the encoded reply. *)
Definition answers (c : bytes) (rs resp : list bytes) (rp : Reply) : Prop :=
  reply_of (mkRedis c (cmd_table !! c) rs rs) resp = Some rp /\
  zlen resp <= 2 /\ Forall (fun v => zlen v <= 32 + zlen (enc_reply rp)) resp.

(** Outcome of a handler on the state of the server. *)
Definition handled (c : bytes) (rs : list bytes) s (o : exec (SSDBServer * list bytes)) (rp : Reply) a' : Prop :=
  exists s' resp, o = Done (s', resp) /\ answers c rs resp rp /\ rep (ssdb s') a' /\ good (ldb (ssdb s')) /\
    syncs s' = syncs s /\ meta s' = meta s.

Lemma zlen_enc_error e : zlen (enc_reply (RError e)) = 3 + zlen e.
Proof. cbn [enc_reply]. change CRLF with [CR; LF]. zl. Qed.
Lemma zlen_enc_bulk v : zlen v <= zlen (enc_reply (RBulk (Some v))).
Proof. cbn [enc_reply enc_bulk]. change CRLF with [CR; LF]. zl. Qed.

Ltac short := repeat constructor; match goal with |- zlen (lit ?x) <= _ =>
  change (zlen (lit x)) with (Z.of_nat (String.length x)); cbn [String.length] end;
  match goal with |- _ <= _ + zlen ?r => pose proof (zlen_nonneg r); lia end.

Lemma answers_wrong c rs : answers c rs [lit "client_error"; lit "wrong number of arguments"] wrong_number.
Proof. split; [done |]. split; [by vm_compute |]. short. Qed.

Lemma handled_wrong c rs s a : rep (ssdb s) a -> good (ldb (ssdb s)) ->
  handled c rs s (Done (s, [lit "client_error"; lit "wrong number of arguments"])) wrong_number a.
Proof. intros. eexists s, _. split; [done |]. split; [apply answers_wrong |]. done. Qed.

Lemma check_short n h req s : zlen req < n ->
  check_num_params n h req s = Done (s, [lit "client_error"; lit "wrong number of arguments"]).
Proof. intros Hn. unfold check_num_params. by rewrite (proj2 (Z.ltb_lt _ _)). Qed.
Lemma check_long n h req s : n <= zlen req -> check_num_params n h req s = h req s.
Proof. intros Hn. unfold check_num_params. by rewrite (proj2 (Z.ltb_ge _ _)). Qed.

(** The reply to a read. *)
Lemma answers_get c rs o : cmd_table !! c = Some (raw STRATEGY_AUTO (String.string_of_list_ascii c) (String.string_of_list_ascii c) REPLY_BULK) ->
  answers c rs (Response.reply_get (match o with Some _ => 1 | None => 0 end) (Some (default [] o)) None []) (RBulk o).
Proof.
  intros Hc. unfold answers. rewrite Hc. destruct o as [v |]; cbn [Response.reply_get Z.eqb Pos.eqb].
  - split; [done |]. split; [by vm_compute |].
    apply Forall_cons_2; [pose proof (zlen_nonneg (enc_reply (RBulk (Some v)))); cbn [default]; change (zlen (lit "ok")) with 2; lia |].
    apply Forall_cons_2; [| apply Forall_nil_2]. cbn [default]. pose proof (zlen_enc_bulk v). unfold id. lia.
  - split; [done |]. split; [by vm_compute |]. short.
Qed.

Lemma handled_get s a args c : rep (ssdb s) a -> good (ldb (ssdb s)) ->
  let '(rp, a') := spec_request (lit "get") args a in
  handled (lit "get") (lit "get" :: args) s (proc_get (c :: args) s) rp a'.
Proof.
  intros Hrep Hg. destruct args as [| k args].
  { cbn. unfold proc_get. rewrite check_short by by vm_compute. by apply handled_wrong. }
  change (spec_request (lit "get") (k :: args) a) with (RBulk (kv a !! k), a). cbv beta iota.
  unfold proc_get. rewrite check_long by zl. cbn [arg ebind]. unfold arg. cbn [lookup list_lookup ebind].
  unfold ssdb_get. rewrite read_readable by by apply healthy_read.
  rewrite (r_kv _ _ (rep_store _ _ Hrep)).
  exists s. eexists. split; [| split; [apply (answers_get _ _ (kv a !! k)); reflexivity | done]].
  by destruct (kv a !! k).
Qed.

Lemma handled_hget s a args c : rep (ssdb s) a -> good (ldb (ssdb s)) ->
  let '(rp, a') := spec_request (lit "hget") args a in
  handled (lit "hget") (lit "hget" :: args) s (proc_hget (c :: args) s) rp a'.
Proof.
  intros Hrep Hg. destruct args as [| n [| k args]].
  1,2: cbn; unfold proc_hget; rewrite check_short by (zl_simp; zl); by apply handled_wrong.
  change (spec_request (lit "hget") (n :: k :: args) a) with (RBulk (hash a !! (n, k)), a). cbv beta iota.
  unfold proc_hget. rewrite check_long by zl. unfold arg. cbn [lookup list_lookup ebind].
  unfold ssdb_hget. rewrite read_readable by by apply healthy_read.
  rewrite (r_hash _ _ (rep_store _ _ Hrep)).
  exists s. eexists. split; [| split; [apply (answers_get _ _ (hash a !! (n, k))); reflexivity | done]].
  by destruct (hash a !! (n, k)).
Qed.

Lemma handled_set s a args c : rep (ssdb s) a -> room a -> good (ldb (ssdb s)) ->
  let '(rp, a') := spec_request (lit "set") args a in
  handled (lit "set") (lit "set" :: args) s (proc_set (c :: args) s) rp a'.
Proof.
  intros Hrep Hroom Hg. destruct args as [| k [| v args]].
  1,2: cbn; unfold proc_set; rewrite check_short by (zl_simp; zl); by apply handled_wrong.
  change (spec_request (lit "set") (k :: v :: args) a) with
    (RStatus (lit "OK"), if decide (k = []) then a else spec_set k v a). cbv beta iota.
  unfold proc_set. rewrite check_long by zl. unfold arg. cbn [lookup list_lookup ebind].
  case_decide as Hk.
  - subst k. exists (set_ssdb (ssdb s) s). eexists. split; [done |]. split; [| done].
    split; [done |]. split; [by vm_compute |]. short.
  - destruct (set_healthy k v _ a Hrep Hroom Hg Hk) as (d & -> & Hrep' & Hg').
    exists (set_ssdb d s). eexists. split; [done |]. split; [| done].
    split; [done |]. split; [by vm_compute |]. short.
Qed.

Lemma handled_del s a args c : rep (ssdb s) a -> room a -> good (ldb (ssdb s)) ->
  let '(rp, a') := spec_request (lit "del") args a in
  handled (lit "del") (lit "del" :: args) s (proc_del (c :: args) s) rp a'.
Proof.
  intros Hrep Hroom Hg. destruct args as [| k args].
  { cbn. unfold proc_del. rewrite check_short by by vm_compute. by apply handled_wrong. }
  change (spec_request (lit "del") (k :: args) a) with (RInteger (lit "1"), spec_del k a). cbv beta iota.
  unfold proc_del. rewrite check_long by zl. unfold arg. cbn [lookup list_lookup ebind].
  destruct (del_healthy k _ a Hrep Hroom Hg) as (d & -> & Hrep' & Hg').
  exists (set_ssdb d s). eexists. split; [done |]. split; [| done].
  split; [done |]. split; [by vm_compute |]. short.
Qed.

Lemma handled_hset s a args c : rep (ssdb s) a -> room a -> sizes_fit a -> good (ldb (ssdb s)) ->
  let '(rp, a') := spec_request (lit "hset") args a in
  handled (lit "hset") (lit "hset" :: args) s (proc_hset (c :: args) s) rp a'.
Proof.
  intros Hrep Hroom Hfit Hg. destruct args as [| n [| k [| v args]]].
  1,2,3: cbn; unfold proc_hset; rewrite check_short by (zl_simp; zl); by apply handled_wrong.
  change (spec_request (lit "hset") (n :: k :: v :: args) a) with
    (if decide (valid_field n k) then
        (RInteger (match hash a !! (n, k) with Some _ => lit "0" | None => lit "1" end),
         spec_hset n k v BinlogType.SYNC a)
      else (RError (lit "ERR "), a)).
  unfold proc_hset. rewrite check_long by zl. unfold arg. cbn [lookup list_lookup ebind].
  case_decide as Hv.
  - destruct (hset_healthy n k v BinlogType.SYNC _ a Hrep Hroom Hfit Hg Hv) as (d & -> & Hrep' & Hg').
    cbn [ebind]. exists (set_ssdb d s). eexists. split; [done |]. split; [| done].
    unfold hset_result. destruct (hash a !! (n, k)); (split; [done |]); (split; [by vm_compute |]); short.
  - assert (exists d, ssdb_hset n k v BinlogType.SYNC (ssdb s) = Done (-1, d) /\ rep d a /\ good (ldb d))
      as (d & -> & Hrep' & Hg').
    { unfold ssdb_hset. rewrite hset_one_invalid by done. cbn. eexists. split; [done |].
      split; [by apply rep_begin_rollback | done]. }
    cbn [ebind]. exists (set_ssdb d s). eexists. split; [done |]. split; [| done].
    split; [done |]. split; [by vm_compute |]. short.
Qed.

(** The handler that the command table gives for a translated request, or the
    answer of [Link::proc] when there is none. *)
Definition dispatch (net : NetworkServer (S := SSDBServer)) (rs : list bytes) : exec (SSDBServer * list bytes) :=
  match rs with
  | [] => UB
  | c :: _ =>
      match get_proc c (proc_map net) with
      | None => Done (data net, [lit "client_error"; lit "Unknown Command: " ++ c])
      | Some cmd => proc cmd rs (data net)
      end
  end.

Lemma answers_unknown c rs x : answers c rs [lit "client_error"; lit "Unknown Command: " ++ x]
  (RError (lit "ERR Unknown Command: " ++ x)).
Proof.
  split; [done |]. split; [by vm_compute |].
  apply Forall_cons_2; [| apply Forall_cons_2; [| apply Forall_nil_2]]; rewrite zlen_enc_error, !zlen_app.
  - change (zlen (lit "client_error")) with 12. zl.
  - change (zlen (lit "Unknown Command: ")) with 17. change (zlen (lit "ERR Unknown Command: ")) with 21. zl.
Qed.

Lemma dispatch_spec net a c args : serves_all (proc_map net) -> rep (ssdb (data net)) a -> room a ->
  sizes_fit a -> good (ldb (ssdb (data net))) -> RecvSpec.by_name c -> c <> lit "sync140" ->
  let rs := RecvSpec.translated c :: args in
  let '(rp, a') := spec_request c args a in
  handled c rs (data net) (dispatch net rs) rp a'.
Proof.
  intros Hm Hrep Hroom Hfit Hg Hn Hs rs. unfold dispatch. subst rs. cbn match. rewrite Hm.
  destruct (decide (RecvSpec.translated c ∈ registered)) as [Hr | Hr].
  - pose proof (translated_registered c Hr) as Ht. rewrite <- Ht in *.
    clear Ht. unfold registered in Hr. rewrite !elem_of_cons, elem_of_nil in Hr.
    destruct Hr as [-> | [-> | [-> | [-> | [-> | [-> | []]]]]]]; [| | | | | exfalso; exact (Hs eq_refl)].
    + by apply handled_get.
    + by apply handled_set.
    + by apply handled_del.
    + by apply handled_hset.
    + by apply handled_hget.
  - unfold spec_request.
    assert (c <> lit "get" /\ c <> lit "set" /\ c <> lit "del" /\ c <> lit "hset" /\ c <> lit "hget")
      as (H1 & H2 & H3 & H4 & H5)
      by (split_and!; intros ->; apply Hr; apply (bool_decide_unpack _); vm_compute; exact I).
    rewrite (decide_False (P := c = lit "get")), (decide_False (P := c = lit "set")),
      (decide_False (P := c = lit "del")), (decide_False (P := c = lit "hset")),
      (decide_False (P := c = lit "hget")) by assumption.
    rewrite served_other by done.
    eexists (data net), _. split; [reflexivity |].
    split; [apply answers_unknown |]. split; [exact Hrep |]. split; [exact Hg |]. split; reflexivity.
Qed.
End Lemmas.

(** ** On the connection *)
Section Session.
Context `{LevelDBSpec} `{!Healthy good} `{Heap}.
Implicit Types (l : Link) (a : Spec) (net : NetworkServer (S := SSDBServer)).
Import BufferSpec LinkSpec.

(** Data that starts with an asterisk goes to [RedisLink]. *)
Lemma link_recv_redis l w : wf (input l) -> data_of l = chr 42 :: w ->
  link_recv_req l =
    (let* (ret, r, b) := recv_req (redis l) (input l) in
     match ret with
     | Some v => Done (Some v, mkLink v r b)
     | None => Done (None, mkLink [] r b)
     end).
Proof.
  unfold data_of. intros Hwf E. unfold link_recv_req, Buffer.empty.
  pose proof (zlen_contents _ Hwf) as Hz. rewrite E in Hz.
  rewrite (proj2 (Z.eqb_neq _ _)) by zl. rewrite mread_contents by done. cbn [ebind]. rewrite E.
  change (leading_newlines (chr 42 :: w)) with 0. rewrite Z.add_0_r.
  pose proof (mget_contents (input l) [] (chr 42) w Hwf E) as Hm. rewrite zlen_nil, Z.add_0_r in Hm.
  rewrite Hm. cbn [ebind]. by rewrite decide_True.
Qed.

Lemma link_send_spec (no_refusal : forall n, realloc_ok n = true) l resp rp :
  reply_of (redis l) resp = Some rp -> zlen resp <= int_max -> zlen (recv_string (redis l)) <= int_max ->
  Forall (fun v => zlen v <= int_max) resp -> zlen (enc_reply rp) <= 2 ^ 28 ->
  link_send l resp = Done (enc_reply rp).
Proof.
  intros Hrp Hn Hr Hf Hlen. unfold link_send, send_resp.
  destruct (resp_chunks_spec (redis l) resp rp Hn Hr Hf Hrp) as (ch & -> & Ech). cbn [ebind].
  destruct (create_wf 10) as [Hw Hc]; [by vm_compute |].
  destruct (append_all_spec ch (Buffer.create 10) Hw) as [(b & -> & Hwb & Hcb) | (n & Hno)].
  - cbn [Buffer.off Buffer.size_ Buffer.create]. rewrite Ech. lia.
  - cbn [ebind]. unfold written. rewrite mread_contents by done. by rewrite Hcb, Hc, Ech.
  - by rewrite no_refusal in Hno.
Qed.

(** [NetworkServer::proc] on the link runs [dispatch] and sends what it answers. *)
Lemma link_proc_dispatch l rs net : rs <> [] ->
  link_proc l rs net =
    (let* (d, resp) := dispatch net rs in
     let* out := link_send l resp in
     Done (out, mkNet (proc_map net) d (link_count net))).
Proof. by destruct rs. Qed.

Record net_ok net a : Prop := {
  no_procs : serves_all (proc_map net);
  no_rep : rep (ssdb (data net)) a;
  no_good : good (ldb (ssdb (data net)))
}.

(** One request. *)
Lemma serve (no_refusal : forall n, realloc_ok n = true) l net a q rest : wf (input l) ->
  data_of l = enc q ++ rest -> req_ok q -> req_fits (rq_cmd q :: rq_args q) -> zlen (rq_args q) < int_max ->
  net_ok net a -> room a -> sizes_fit a ->
  let '(rp, a') := spec_request (strtolower (rq_cmd q)) (rq_args q) a in
  zlen (enc_reply rp) <= 2 ^ 28 ->
  exists v l' net', link_recv_req l = Done (Some v, l') /\ v <> [] /\ wf (input l') /\ data_of l' = rest /\
    link_proc l' v net = Done (enc_reply rp, net') /\ net_ok net' a' /\ link_count net' = link_count net /\
    forall n, received n l -> received n l'.
Proof.
  intros Hwf E [Hbn Hs] Hfit Hargs [Hm Hrep Hg] Hroom Hsz. set (c := strtolower (rq_cmd q)) in *.
  pose proof (dispatch_spec net a c (rq_args q) Hm Hrep Hroom Hsz Hg Hbn Hs) as Hd. cbn zeta in Hd.
  destruct (spec_request c (rq_args q) a) as [rp a']. intros Hlen.
  rewrite (link_recv_redis l _ Hwf E).
  destruct (RecvSpec.recv_req_spec (redis l) (input l) [] (rq_cmd q) (rq_args q) rest Hwf)
    as (b' & Er & Hwb & Hcb); [by constructor | done | exact E | exact Hbn |].
  destruct (RecvSpec.recv_req_take _ _ _ _ _ Hwf Er ltac:(discriminate)) as (n & Hn0 & Hb').
  rewrite Er. fold c. cbn [ebind]. set (rs := RecvSpec.translated c :: rq_args q) in *.
  destruct Hd as (s' & resp & Ed & (Hrp & Hn & Hf) & Hrep' & Hg' & _ & _).
  eexists rs, _, (mkNet (proc_map net) s' (link_count net)). split; [reflexivity |]. split; [subst rs; discriminate |].
  split; [exact Hwb |]. split; [exact Hcb |]. split; [| split; [by split | split; [reflexivity |]]].
  2: { intros x [_ H1 H2]. subst b'. split; cbn [input]; [exact Hwb | cbn; lia | exact H2]. }
  rewrite link_proc_dispatch, Ed by (subst rs; discriminate). cbn [ebind].
  rewrite (link_send_spec no_refusal _ resp rp); [reflexivity | exact Hrp | zlia | | | exact Hlen].
  - cbn [redis recv_string]. subst rs. zl.
  - eapply Forall_impl; [exact Hf |]. cbn. intros v Hv. zlia.
Qed.

(** [k] more updates fit the log and the size counters, and every stored value fits
    a reply. *)
Record fits (k : Z) a : Prop := {
  f_room : Z.of_nat (length (history a)) + k < uint64_max;
  f_size : forall n, hash_size (hash a) n + k < int64_max;
  f_kv : forall n v, kv a !! n = Some v -> zlen v <= 2 ^ 27;
  f_hash : forall n v, hash a !! n = Some v -> zlen v <= 2 ^ 27
}.

Lemma fits_le k k' a : k' <= k -> fits k a -> fits k' a.
Proof.
  intros Hk []. split; [lia | | done..]. intros n. pose proof (f_size0 n). lia.
Qed.

Lemma enc_bulk_le v : zlen v <= 2 ^ 27 -> zlen (enc_reply (RBulk (Some v))) <= 2 ^ 28.
Proof.
  intros Hv. destruct (BufferSpec.zlen_print_nat (zlen v)); [zl |].
  cbn [enc_reply enc_bulk]. change CRLF with [CR; LF]. zl.
Qed.

Lemma enc_lookup_le (o : option bytes) : (forall v, o = Some v -> zlen v <= 2 ^ 27) -> zlen (enc_reply (RBulk o)) <= 2 ^ 28.
Proof. destruct o as [v |]; intros Ho; [by apply enc_bulk_le, Ho | by vm_compute]. Qed.

Lemma translated_short c : zlen (RecvSpec.translated c) <= Z.max 64 (zlen c).
Proof.
  unfold RecvSpec.translated. destruct (cmd_table !! c) as [d |] eqn:E; [| lia].
  assert (map_Forall (fun _ d => bool_decide (zlen (ssdb_cmd d) <= 64) = true) cmd_table) as Hall.
  { apply (bool_decide_unpack _). vm_compute. exact I. }
  apply (map_Forall_lookup_1 _ _ _ _ Hall) in E. apply bool_decide_eq_true in E. lia.
Qed.

(** One request uses up one update at most. *)
Lemma spec_request_fits k c args a : fits (k + 1) a -> 0 <= k -> zlen c <= 2 ^ 27 ->
  Forall (fun v => zlen v <= 2 ^ 27) args ->
  let '(rp, a') := spec_request c args a in fits k a' /\ zlen (enc_reply rp) <= 2 ^ 28.
Proof.
  intros Hf Hk Hc Hargs. assert (fits k a) as Hf0 by (eapply fits_le; [| exact Hf]; lia).
  assert (zlen (enc_reply wrong_number) <= 2 ^ 28) as Hw by by vm_compute.
  unfold spec_request. destruct Hf as [H1 H2 H3 H4].
  repeat case_decide.
  - destruct args as [| x args]; [by split |]. split; [done |]. apply enc_lookup_le, H3.
  - destruct args as [| x [| v args]]; [by split.. |]. apply Forall_cons in Hargs as [_ [Hv _]%Forall_cons].
    split; [| by vm_compute]. case_decide; [done |]. split; cbn; [rewrite length_app; cbn; lia | | | done].
    + intros n. pose proof (H2 n). lia.
    + intros n v'. rewrite lookup_insert_Some. naive_solver.
  - destruct args as [| x args]; [by split |]. split; [| by vm_compute].
    split; cbn; [rewrite length_app; cbn; lia | | | done].
    + intros n. pose proof (H2 n). lia.
    + intros n v'. rewrite lookup_delete_Some. naive_solver.
  - destruct args as [| n [| x [| v args]]]; [by split.. |].
    apply Forall_cons in Hargs as [_ [_ [Hv _]%Forall_cons]%Forall_cons].
    case_decide; [| split; [done | by vm_compute]].
    split; [| case_match; by vm_compute]. unfold spec_hset. case_decide; [done |].
    split; cbn; [rewrite length_app; cbn; lia | | done |].
    + intros n'. rewrite hash_size_insert. pose proof (H2 n'). case_decide; lia.
    + intros n' v'. rewrite lookup_insert_Some. naive_solver.
  - destruct args as [| n [| x args]]; [by split.. |]. split; [done |]. apply enc_lookup_le. intros v. apply H4.
  - split; [done |]. rewrite zlen_enc_error, zlen_app. change (zlen (lit "ERR Unknown Command: ")) with 21.
    pose proof (translated_short c). zl.
Qed.

(** A client writes requests in pieces the receiver can hold. *)
Definition req_small (q : Req) : Prop :=
  req_ok q /\ zlen (rq_args q) < int_max /\ Forall (fun v => zlen v <= 2 ^ 27) (rq_cmd q :: rq_args q).

Lemma req_small_fits q : req_small q -> req_fits (rq_cmd q :: rq_args q).
Proof.
  intros (_ & Hn & Hf). split; [zl |]. eapply Forall_impl; [exact Hf |]. intros v Hv. cbn in Hv. zlia.
Qed.

Lemma zlen_strtolower x : zlen (strtolower x) = zlen x.
Proof. unfold strtolower, zlen. by rewrite length_map. Qed.

(** A part of a request that misses more than the last line feed. *)
Definition short (part : bytes) : Prop :=
  part = [] \/ exists q missing, req_small q /\ part ++ missing = enc q /\ 2 <= zlen missing.

(** An incomplete request: nothing happens but that room is made. *)
Lemma link_recv_short (no_refusal : forall n, realloc_ok n = true) l n part : received n l -> n <= 2 ^ 25 \/ part = [] ->
  data_of l = part -> short part -> exists l', link_recv_req l = Done (Some [], l') /\ received n l' /\ data_of l' = part.
Proof.
  intros Hl Hn E Hpart. pose proof Hl as [Hwf Hend Htot]. pose proof (zlen_contents _ Hwf) as Hz. fold (data_of l) in Hz. rewrite E in Hz.
  destruct (decide (part = [])) as [-> | Hne].
  - exists (mkLink [] (redis l) (input l)). unfold link_recv_req, Buffer.empty. rewrite (proj2 (Z.eqb_eq _ _)) by (symmetry; exact Hz).
    split_and!; [done | by split | exact E].
  - destruct Hpart as [? | (q & missing & Hq & Em & Hm)]; [done |]. destruct Hn as [Hn | ?]; [| done].
    destruct part as [| c w]; [done |]. assert (c = chr 42) as -> by by injection Em.
    rewrite (link_recv_redis l w Hwf E).
    destruct (RecvSpec.recv_req_part (redis l) (input l) (rq_cmd q :: rq_args q) missing Hwf) as [(r' & b' & Er & Hw' & Hc' & _ & Hroom) | (k & Hk)].
    + lia.
    + by apply req_small_fits.
    + discriminate.
    + fold (data_of l). by rewrite E.
    + fold (data_of l). by rewrite E.
    + done.
    + rewrite Er. cbn [ebind]. exists (mkLink [] r' b'). destruct (RecvSpec.make_room_total _ _ Hwf Hroom) as (H1 & H2 & H3).
      split_and!; [done | | by rewrite <- E]. split; cbn [input]; [done | lia | lia].
    + by rewrite no_refusal in Hk.
Qed.

(** The requests that are whole are served in one go, and a part of the next one is
    left for later. *)
Lemma onRead_requests (no_refusal : forall n, realloc_ok n = true) qs part : forall fuel l net a out n,
  received n l -> n <= 2 ^ 25 \/ part = [] -> data_of l = mjoin (enc <$> qs) ++ part -> short part -> Forall req_small qs -> net_ok net a ->
  fits (zlen qs) a -> (length qs < fuel)%nat ->
  let '(reps, a') := spec_session qs a in
  exists l' net', onRead_loop fuel l net out = Done (Some l', net', out ++ (enc_reply <$> reps)) /\
    received n l' /\ data_of l' = part /\ net_ok net' a' /\ link_count net' = link_count net.
Proof.
  induction qs as [| q qs IH]; intros fuel l net a out n Hl Hn25 E Hpart Hq Hnet Hfit Hf;
    (destruct fuel as [| fuel]; [cbn in Hf; lia |]); pose proof Hl as [Hwf Hend Htot].
  - cbn [spec_session onRead_loop]. change (mjoin (enc <$> []) ++ part) with part in E. rewrite app_nil_r.
    destruct (link_recv_short no_refusal l n part Hl Hn25 E Hpart) as (l' & Er & Hl' & Hd).
    rewrite Er. cbn [ebind]. by exists l', net.
  - apply Forall_cons in Hq as [Hq Hqs]. pose proof Hq as (Hok & Hn & Hsm).
    rewrite fmap_cons, mjoin_cons, <- app_assoc in E. rewrite zlen_cons in Hfit.
    pose proof (spec_request_fits (zlen qs) (strtolower (rq_cmd q)) (rq_args q) a) as Hstep.
    pose proof (serve no_refusal l net a q _ Hwf E Hok (req_small_fits q Hq) Hn Hnet) as Hs.
    cbn [spec_session]. apply Forall_cons in Hsm as [Hc Hargs].
    destruct (spec_request _ _ a) as [rp a1].
    destruct Hstep as [Hfit1 Hlen]; [by rewrite Z.add_comm | zl | by rewrite zlen_strtolower | done |].
    destruct Hs as (v & l1 & net1 & Er & Hv & Hw1 & Hd1 & Hp & Hn1 & Hlc & Hrec); [| | exact Hlen |].
    + pose proof (f_room _ _ Hfit). unfold room. pose proof (zlen_nonneg qs). lia.
    + intros k. pose proof (f_size _ _ Hfit k). pose proof (zlen_nonneg qs). lia.
    + specialize (IH fuel l1 net1 a1 (out ++ [enc_reply rp]) n (Hrec n Hl) Hn25 Hd1 Hpart Hqs Hn1 Hfit1 ltac:(cbn in Hf; lia)).
      destruct (spec_session qs a1) as [reps a2].
      destruct IH as (l2 & net2 & E2 & Hw2 & Hd2 & Hn2 & Hl2). exists l2, net2.
      cbn [onRead_loop]. rewrite Er. cbn [ebind]. destruct v as [| v0 v]; [done |].
      rewrite Hp. cbn [ebind]. rewrite E2, <- app_assoc. split_and!; try done. congruence.
Qed.

Lemma enc_nonempty q : (0 < length (enc q))%nat.
Proof. unfold enc, enc_req. cbn. lia. Qed.

Lemma length_requests qs : (length qs <= length (mjoin (enc <$> qs)))%nat.
Proof.
  induction qs as [| q qs IH]; [done |]. cbn [fmap list_fmap mjoin list_join].
  change (length (q :: qs) <= length (enc q ++ mjoin (enc <$> qs)))%nat.
  rewrite length_app. pose proof (enc_nonempty q). cbn. lia.
Qed.

(** The reads of a connection, one after the other. *)
Fixpoint reads (cs : list bytes) (l : Link) (net : NetworkServer (S := SSDBServer)) :
    exec (option Link * NetworkServer (S := SSDBServer) * list bytes) :=
  match cs with
  | [] => Done (Some l, net, [])
  | x :: cs =>
      let* (o, net, out) := onRead x l net in
      match o with
      | None => Done (None, net, out)
      | Some l => let* (o, net, out') := reads cs l net in Done (o, net, out ++ out')
      end
  end.

(** One read that brings these requests to their end. *)
Lemma onRead_chunk (no_refusal : forall n, realloc_ok n = true) x qs part l net a r :
  received r l -> r + zlen x <= 2 ^ 25 -> data_of l ++ x = mjoin (enc <$> qs) ++ part -> short part ->
  (x = [] -> qs = []) -> Forall req_small qs -> net_ok net a -> fits (zlen qs) a ->
  let '(reps, a') := spec_session qs a in
  exists l' net', onRead x l net = Done (Some l', net', enc_reply <$> reps) /\
    received (r + zlen x) l' /\ data_of l' = part /\ net_ok net' a' /\ link_count net' = link_count net.
Proof.
  intros Hl Hr E Hpart Hx Hq Hnet Hfit. unfold onRead. destruct x as [| c x].
  - rewrite (Hx eq_refl) in *. cbn [spec_session]. rewrite app_nil_r in E. exists l, net. rewrite zlen_nil, Z.add_0_r. by split_and!.
  - destruct (copy_received no_refusal (c :: x) l r Hl Hr) as (l1 & Ec & Hl1 & Hd1 & _ & _). rewrite Ec. cbn [ebind].
    pose proof (zlen_contents _ (rc_wf _ _ Hl1)) as Hz. fold (data_of l1) in Hz.
    pose proof (length_requests qs) as Hlen.
    apply (onRead_requests no_refusal qs part (Datatypes.S (Z.to_nat (Buffer.size_ (input l1)))) l1 net a []) with (n := r + zlen (c :: x));
      try done; [by left | by rewrite Hd1 |].
    rewrite Hd1, E in Hz. unfold zlen in Hz. rewrite length_app in Hz. lia.
Qed.

(** No cut comes right before the last line feed of a request. *)
Definition whole_ends (before : bytes) (cs : list bytes) (qs : list Req) : Prop :=
  forall cs1 cs2 qs1 qs2, cs = cs1 ++ cs2 -> qs = qs1 ++ qs2 -> before ++ mjoin cs1 ++ [LF] <> mjoin (enc <$> qs1).

Lemma enc_ends q : exists w, enc q = w ++ [LF].
Proof.
  destruct (exists_last (l := rq_cmd q :: rq_args q)) as (args & v & E); [done |].
  exists (chr 42 :: print_int (zlen (rq_cmd q :: rq_args q)) ++ CRLF ++ enc_args args ++ (chr 36 :: print_int (zlen v) ++ CRLF ++ v ++ [CR])).
  unfold enc, enc_req. rewrite E. unfold enc_args. rewrite fmap_app, join_app, fmap_cons, mjoin_cons. cbn. unfold enc_arg, CRLF.
  by simplify_list_eq.
Qed.

(** Cut anywhere else, a stream leaves a part that misses more than a line feed. *)
Lemma pending_short part qs2 : Forall req_small qs2 -> pending enc part qs2 ->
  (forall q qs, qs2 = q :: qs -> part ++ [LF] <> enc q) -> short part.
Proof.
  intros Hq [-> | (q & qs & missing & -> & Em & Hm)] Hcut; [by left |]. right. apply Forall_cons in Hq as [Hq _].
  exists q, missing. split_and!; [done | done |]. destruct (enc_ends q) as [w Ew].
  destruct (exists_last Hm) as (missing' & c & ->). rewrite Ew, app_assoc in Em. apply app_inj_tail in Em as [Em ->].
  destruct missing' as [| d missing']; [| pose proof (zlen_nonneg missing'); zl].
  exfalso. apply (Hcut q qs eq_refl). rewrite Ew, <- Em. by rewrite app_nil_r.
Qed.

Lemma spec_session_app qs1 qs2 a : spec_session (qs1 ++ qs2) a =
  let (reps1, a1) := spec_session qs1 a in let (reps2, a2) := spec_session qs2 a1 in (reps1 ++ reps2, a2).
Proof.
  revert a. induction qs1 as [| q qs1 IH]; intros a; cbn [app spec_session].
  - by destruct (spec_session qs2 a).
  - destruct (spec_request _ _ a) as [rp a1]. rewrite IH. destruct (spec_session qs1 a1) as [reps1 a2].
    by destruct (spec_session qs2 a2).
Qed.

(** Served requests use up what fits. *)
Lemma spec_session_fits qs1 : forall k a, Forall req_small qs1 -> fits (zlen qs1 + k) a -> 0 <= k -> fits k (spec_session qs1 a).2.
Proof.
  induction qs1 as [| q qs1 IH]; intros k a Hq Hf Hk; cbn [spec_session]; [exact Hf |]. rewrite zlen_cons in Hf.
  apply Forall_cons in Hq as [(_ & _ & Hsm) Hqs]. apply Forall_cons in Hsm as [Hc Hargs]. pose proof (zlen_nonneg qs1).
  pose proof (spec_request_fits (zlen qs1 + k) (strtolower (rq_cmd q)) (rq_args q) a) as Hstep.
  destruct (spec_request _ _ a) as [rp a1]. destruct Hstep as [Hf1 _]; [| lia | by rewrite zlen_strtolower | done |].
  - by replace (zlen qs1 + k + 1) with (1 + zlen qs1 + k) by lia.
  - specialize (IH k a1 Hqs Hf1 Hk). by destruct (spec_session qs1 a1).
Qed.

(** A connection that has received [r] bytes, on which the pieces [cs] are still to come,
    which end the requests [qs]. *)
Record open_on (r : Z) (l : Link) (cs : list bytes) (qs : list Req) : Prop := {
  oo_received : received r l;
  oo_bound : r + zlen (mjoin cs) <= 2 ^ 25;
  oo_stream : data_of l ++ mjoin cs = mjoin (enc <$> qs);
  oo_pending : pending enc (data_of l) qs;
  oo_whole : whole_ends (data_of l) cs qs;
  oo_small : Forall req_small qs
}.

(** One read: the requests that it brings to their end are served. *)
Lemma read_step (no_refusal : forall n, realloc_ok n = true) x r l cs qs net a k :
  open_on r l (x :: cs) qs -> net_ok net a -> fits (zlen qs + k) a -> 0 <= k ->
  exists qs1 qs2, qs = qs1 ++ qs2 /\
  let '(reps, a') := spec_session qs1 a in
  exists l' net', onRead x l net = Done (Some l', net', enc_reply <$> reps) /\ open_on (r + zlen x) l' cs qs2 /\
    net_ok net' a' /\ link_count net' = link_count net /\ fits (zlen qs2 + k) a'.
Proof.
  intros [Hl Hr E Hp Hcut Hq] Hnet Hfit Hk.
  assert (Hne : forall q, enc q <> []) by (intros q Eq; pose proof (enc_nonempty q); rewrite Eq in *; cbn in *; lia).
  rewrite mjoin_cons, app_assoc in E. rewrite mjoin_cons, zlen_app in Hr.
  destruct (split_stream enc qs _ _ E) as (qs1 & qs2 & part & -> & Ew & Ep & Hp2).
  apply Forall_app in Hq as [Hq1 Hq2]. rewrite zlen_app in Hfit. pose proof (zlen_nonneg qs1). pose proof (zlen_nonneg qs2).
  pose proof (zlen_nonneg (mjoin cs)). exists qs1, qs2. split; [done |].
  assert (short part) as Hshort.
  { apply (pending_short part qs2 Hq2 Hp2). intros q qs -> Eq. apply (Hcut [x] cs (qs1 ++ [q]) qs); [done | by simplify_list_eq |].
    rewrite fmap_app, join_app, fmap_cons, !mjoin_cons. cbn [mjoin list_join fmap list_fmap]. rewrite !app_nil_r, <- Eq, !app_assoc. by rewrite Ew. }
  pose proof (onRead_chunk no_refusal x qs1 part l net a r Hl ltac:(lia) Ew Hshort) as Hstep.
  pose proof (spec_session_fits qs1 (zlen qs2 + k) a Hq1 ltac:(by rewrite Z.add_assoc) ltac:(lia)) as Hfit2.
  destruct (spec_session qs1 a) as [reps1 a1]. destruct Hstep as (l1 & net1 & E1 & Hl1 & Hd1 & Hn1 & Hlc1); try done.
  - intros ->. rewrite app_nil_r in Ew. by apply (pending_no_whole enc (data_of l) qs1 qs2 part).
  - eapply fits_le; [| exact Hfit]. lia.
  - exists l1, net1. split_and!; try done. split; rewrite ?Hd1; try done.
    + lia.
    + intros cs1 cs2 qs3 qs4 -> -> Ec. apply (Hcut (x :: cs1) cs2 (qs1 ++ qs3) qs4); [done | by rewrite app_assoc |].
      rewrite mjoin_cons, <- app_assoc, app_assoc, Ew, fmap_app, join_app, <- app_assoc. by rewrite Ec.
Qed.

(** With nothing to come, everything has been served. *)
Lemma open_on_end r l qs : open_on r l [] qs -> qs = [] /\ data_of l = [].
Proof.
  intros [_ _ E Hp _ _]. change (mjoin []) with (@nil char) in E. rewrite app_nil_r in E.
  assert (qs = []) as ->; [| done].
  apply (pending_no_whole enc (data_of l) qs [] []); rewrite ?app_nil_r; [| done..].
  intros q Eq. pose proof (enc_nonempty q). rewrite Eq in *. cbn in *. lia.
Qed.

(** The server refines its specification, on a connection whose bytes arrive in any
    pieces: when a client sends any number of requests of the Redis protocol (any
    commands translated name for name, known or not, with enough arguments or not), and
    the stream is cut into reads anywhere but between the last two bytes of a request, the
    replies written are, in order, exactly those of [spec_request], all of the input is
    consumed, and the store represents the final state of the specification. *)
Theorem session_chunks (no_refusal : forall n, realloc_ok n = true) cs : forall qs l net a r,
  received r l -> r + zlen (mjoin cs) <= 2 ^ 25 -> data_of l ++ mjoin cs = mjoin (enc <$> qs) -> pending enc (data_of l) qs ->
  whole_ends (data_of l) cs qs -> Forall req_small qs -> net_ok net a -> fits (zlen qs) a ->
  let '(reps, a') := spec_session qs a in
  exists l' net', reads cs l net = Done (Some l', net', enc_reply <$> reps) /\
    received (r + zlen (mjoin cs)) l' /\ data_of l' = [] /\ net_ok net' a' /\ link_count net' = link_count net.
Proof.
  intros qs l net a r Hl Hr E Hp Hcut Hq Hnet Hfit. assert (open_on r l cs qs) as Ho by by split.
  clear Hl Hr E Hp Hcut Hq. revert qs l net a r Ho Hnet Hfit.
  induction cs as [| x cs IH]; intros qs l net a r Ho Hnet Hfit; cbn [reads].
  - destruct (open_on_end _ _ _ Ho) as [-> Hd]. change (zlen (mjoin [])) with 0. rewrite Z.add_0_r. cbn [spec_session].
    exists l, net. by destruct Ho.
  - destruct (read_step no_refusal x r l cs qs net a 0 Ho Hnet) as (qs1 & qs2 & -> & Hstep);
      [by rewrite Z.add_0_r | done |].
    rewrite spec_session_app. destruct (spec_session qs1 a) as [reps1 a1].
    destruct Hstep as (l1 & net1 & -> & Ho1 & Hn1 & Hc1 & Hfit1). rewrite Z.add_0_r in Hfit1. cbn [ebind].
    specialize (IH qs2 l1 net1 a1 _ Ho1 Hn1 Hfit1). destruct (spec_session qs2 a1) as [reps2 a2].
    destruct IH as (l2 & net2 & -> & Hl2 & Hd2 & Hn2 & Hc2). exists l2, net2.
    rewrite mjoin_cons, zlen_app, fmap_app, Z.add_assoc. split_and!; try done. congruence.
Qed.

(** The server refines its specification: a connection whose input has been
    consumed receives any number of pipelined requests of the Redis protocol (any
    commands translated name for name, known or not, with enough arguments or not);
    [onRead] answers each of them, in order, with exactly the reply of
    [spec_request], consumes the input, and the store then represents the final
    state of the specification. *)
Theorem session_refines (no_refusal : forall n, realloc_ok n = true) qs l net a :
  wf (input l) -> data_of l = [] -> Buffer.off (input l) + zlen (mjoin (enc <$> qs)) <= 2 ^ 29 ->
  Forall req_small qs -> net_ok net a -> fits (zlen qs) a ->
  let '(reps, a') := spec_session qs a in
  exists l' net', onRead (mjoin (enc <$> qs)) l net = Done (Some l', net', enc_reply <$> reps) /\
    wf (input l') /\ data_of l' = [] /\ net_ok net' a' /\ link_count net' = link_count net.
Proof.
  intros Hwf Hd Hlen Hq Hnet Hfit. set (x := mjoin (enc <$> qs)) in *.
  pose proof (zlen_contents _ Hwf) as Hz. fold (data_of l) in Hz. rewrite Hd, zlen_nil in Hz.
  pose proof (length_requests qs) as Hl. fold x in Hl.
  unfold onRead. destruct x as [| c w] eqn:Ex.
  - destruct qs as [| q qs]; [| cbn in Hl; lia]. cbn [spec_session]. exists l, net. by split_and!.
  - unfold copy2Buffer.
    destruct (append_spec (input l) (c :: w) Hwf ltac:(lia)) as (ret & b & -> & [(_ & _ & n & Hno) | (_ & Hwb & Hcb & _)]);
      [by rewrite no_refusal in Hno |].
    fold (data_of l) in Hcb. rewrite Hd in Hcb. cbn [ebind input].
    pose proof (zlen_contents _ Hwb) as Hzb. rewrite Hcb in Hzb. cbn [app] in Hcb, Hzb. rewrite <- Ex in Hcb.
    set (l1 := mkLink (recv_data l) (redis l) b).
    assert (received (Z.max (Buffer.off b + Buffer.size_ b) (Buffer.total_ b)) l1) as Hl1.
    { pose proof (wf_total _ Hwb). split; cbn [input l1]; [done | lia | lia]. }
    pose proof (onRead_requests no_refusal qs [] (Datatypes.S (Z.to_nat (Buffer.size_ b))) l1 net a [] _ Hl1
      (or_intror eq_refl)) as H1. rewrite app_nil_r in H1. specialize (H1 Hcb (or_introl eq_refl) Hq Hnet Hfit).
    destruct (spec_session qs a) as [reps a']. destruct H1 as (l' & net' & E & [Hw' _ _] & H1); [rewrite <- Hzb; unfold zlen; lia |].
    by exists l', net'.
Qed.
End Session.

(** ** Starting up *)
Section Startup.
Context `{LevelDBSpec} `{!Healthy good}.
Implicit Types (m : DB) (a : Spec).

(** [run] up to the two stores. *)
Lemma run_server_config js cf o m a mdb net g sd : config_load js = Done (Some cf) ->
  open_options sd cf = Done o -> represents (contents m) a ->
  exists d, ldb d = m /\ rep d a /\
    run_server 2 (Some js) (Some m) mdb net g sd =
      (let* md := ssdb_open mdb in
       let* o := new_SSDBServer g d md net cf in
       match o with None => Done (Exited 1) | Some net => Done (Serving net) end).
Proof.
  intros Hc Ho Hr. destruct (open_spec _ _ Hr) as (d & Eo & Hd & Hl).
  exists d. split; [exact Hl |]. split; [exact Hd |].
  unfold run_server. cbn [Z.leb Z.compare Pos.compare Pos.compare_cont]. rewrite Hc. cbn [ebind]. rewrite Ho.
  cbn [ebind]. by rewrite Eo.
Qed.

(** C12: restarting: [run] on the two directories a server has left serves exactly
    the pairs, the hashes and the log that were stored, with no link, and with the
    commands get (flags read and thread), set, del, hset, hget and sync140 (write
    and thread), each bound to its handler, and no other command; the meta store keeps
    what it held.  Assumed: the
    file's configuration loads and its options are accepted, no master is
    configured, both directories open, and the network is up. *)
Theorem restart js cf o m a mm am g sd : config_load js = Done (Some cf) ->
  open_options sd cf = Done o -> Config.master_ip cf = [] ->
  represents (contents m) a -> good m -> represents (contents mm) am ->
  exists net, run_server 2 (Some js) (Some m) (Some mm) (Some (∅, 0)) g sd = Done (Serving net) /\
    net_ok (good := good) net a /\ link_count net = 0 /\ exists md, meta (data net) = Some md /\ rep md am.
Proof.
  intros Hc Ho Hip Hr Hg Hm.
  destruct (run_server_config js cf o m a (Some mm) (Some (∅, 0)) g sd Hc Ho Hr) as (d & Hd & Hrep & ->).
  destruct (open_spec _ _ Hm) as (md & Em & Hmd & _). rewrite Em. cbn [ebind].
  unfold new_SSDBServer, slave_start. cbn [Slave.master_ip new_Slave fst snd]. rewrite Hip.
  cbn [zlen length Z.of_nat Z.eqb ebind]. eexists. split; [reflexivity |].
  split; [split; [exact reg_procs_served | exact Hrep | cbn; by rewrite Hd] |]. split; [reflexivity |]. by exists md.
Qed.

(** [run] tests the wrong pointer after it opens the second store, and does not
    test the result of [NetworkServer::init]: if the metadata directory cannot be
    opened on a server that replicates, or if the port cannot be bound, the
    process does not stop with a message but goes on with a null pointer. *)
Theorem startup_failures_unchecked js cf o m a mdb net g sd : config_load js = Done (Some cf) ->
  open_options sd cf = Done o -> represents (contents m) a ->
  (mdb = None -> Config.master_ip cf <> [] -> 0 < Config.master_port cf ->
     run_server 2 (Some js) (Some m) mdb net g sd = UB) /\
  (net = None -> (forall mm, mdb = Some mm -> exists am, represents (contents mm) am) ->
     run_server 2 (Some js) (Some m) mdb net g sd = UB).
Proof.
  intros Hc Ho Hr.
  destruct (run_server_config js cf o m a mdb net g sd Hc Ho Hr) as (d & Hd & Hrep & ->). split.
  - intros -> Hip Hp. cbn [ssdb_open ebind]. destruct net as [[mp n] |]; [| done].
    unfold new_SSDBServer. rewrite (proj2 (Z.eqb_neq _ _)) by by intros ?%zlen_0.
    rewrite (proj2 (Z.leb_gt _ _)) by lia. done.
  - intros -> Hm. destruct mdb as [mm |]; [| done]. destruct (Hm mm eq_refl) as (am & Ham).
    destruct (open_spec _ _ Ham) as (md & -> & _). done.
Qed.
End Startup.
End ServerSpec.

(** * Instances *)
Module ServerSamples.
Import SSDBSamples BufferSpec LinkSpec ServerSpec.
#[local] Existing Instance sample_heap.

Abbreviation mem_good := (fun d : @DB Mem.leveldb => Mem.writes d = [] /\ Mem.unreadable d = []).

(** A fresh server on an empty store, and one of its connections. *)
Definition fresh_server : NetworkServer (S := SSDBServer (H := Mem.leveldb)) :=
  mkNet (reg_procs ∅) (mkServer (fresh_ssdb []) None [] None) 1.

Definition sample_reqs : list Req :=
  [mkReq (lit "SET") [lit "k"; lit "v"]; mkReq (lit "get") [lit "k"]; mkReq (lit "HSET") [lit "h"; lit "f"; lit "1"];
   mkReq (lit "hset") [[]; lit "f"; lit "1"]; mkReq (lit "Set") [[]; lit "w"]; mkReq (lit "GET") [];
   mkReq (lit "ping") []; mkReq (lit "hget") [lit "h"; lit "f"]; mkReq (lit "del") [lit "k"];
   mkReq (lit "get") [lit "k"]].

Lemma fresh_net_ok : net_ok (good := mem_good) fresh_server no_spec.
Proof. split; [apply reg_procs_served | apply rep_fresh | by split]. Qed.

#[export] Instance by_name_dec c : Decision (RecvSpec.by_name c).
Proof.
  unfold RecvSpec.by_name. destruct (cmd_table !! c) as [d |]; [| by left].
  destruct (strategy d); first [by left; left | by left; right | right; by intros [|]].
Defined.

Lemma req_small_dec q :
  bool_decide (RecvSpec.by_name (strtolower (rq_cmd q))) && bool_decide (strtolower (rq_cmd q) <> lit "sync140") &&
  bool_decide (Forall (fun v => zlen v <= 2 ^ 27) (rq_cmd q :: rq_args q)) && (zlen (rq_args q) <? int_max) = true ->
  req_small q.
Proof.
  intros [[[H1%bool_decide_eq_true H2%bool_decide_eq_true]%andb_prop H3%bool_decide_eq_true]%andb_prop
    H4%Z.ltb_lt]%andb_prop.
  exact (conj (conj H1 H2) (conj H4 H3)).
Qed.

Lemma whole_ends_dec before cs qs :
  forallb (fun i => forallb (fun j => bool_decide (before ++ mjoin (take i cs) ++ [LF] <> mjoin (enc <$> take j qs)))
    (seq 0 (Datatypes.S (length qs)))) (seq 0 (Datatypes.S (length cs))) = true -> whole_ends before cs qs.
Proof.
  intros Hall cs1 cs2 qs1 qs2 -> ->. rewrite forallb_forall in Hall.
  assert (forall (A : Type) (x y : list A), In (length x) (seq 0 (Datatypes.S (length (x ++ y))))) as Hin
    by (intros; apply in_seq; rewrite length_app; lia).
  pose proof (Hall _ (Hin _ cs1 cs2)) as Hj. cbn beta in Hj. rewrite forallb_forall in Hj.
  specialize (Hj _ (Hin _ qs1 qs2)). by rewrite !take_app_length, bool_decide_eq_true in Hj.
Qed.

(** The requests of [sample_reqs], in four reads that cut requests in two. *)
Definition sample_chunks : list bytes :=
  let w := mjoin (enc <$> sample_reqs) in [take 20 w; []; take 75 (drop 20 w); drop 95 w].

Lemma session_chunks_witness : exists l' net' a',
  reads sample_chunks new_Link fresh_server =
    Done (Some l', net', enc_reply <$>
      [RStatus (lit "OK"); RBulk (Some (lit "v")); RInteger (lit "1"); RError (lit "ERR "); RStatus (lit "OK");
       wrong_number; RError (lit "ERR Unknown Command: ping"); RBulk (Some (lit "1")); RInteger (lit "1");
       RBulk None]) /\ net_ok (good := mem_good) net' a'.
Proof.
  pose proof (session_chunks (good := mem_good) (H0 := sample_heap) (fun _ => eq_refl) sample_chunks sample_reqs new_Link
    fresh_server no_spec 0) as H.
  assert (E : fst (spec_session sample_reqs no_spec) =
     [RStatus (lit "OK"); RBulk (Some (lit "v")); RInteger (lit "1"); RError (lit "ERR "); RStatus (lit "OK");
       wrong_number; RError (lit "ERR Unknown Command: ping"); RBulk (Some (lit "1")); RInteger (lit "1");
       RBulk None]) by (vm_compute; reflexivity).
  destruct (spec_session sample_reqs no_spec) as [reps a']. cbn [fst] in E. subst reps.
  destruct H as (l' & net' & E & _ & _ & Hn & _); [| | | | | | | | exists l', net', a'; exact (conj E Hn)].
  - split; [split |..]; vm_compute; congruence.
  - vm_compute; congruence.
  - vm_compute; reflexivity.
  - by left.
  - apply whole_ends_dec. vm_compute; reflexivity.
  - repeat (apply Forall_cons_2; [apply req_small_dec; vm_compute; reflexivity |]). apply Forall_nil_2.
  - exact fresh_net_ok.
  - split; [by vm_compute | intros n; by vm_compute | intros n v [=] | intros n v [=]].
Defined.

Lemma session_refines_witness : exists l' net' a',
  onRead (mjoin (enc <$> sample_reqs)) new_Link fresh_server =
    Done (Some l', net', enc_reply <$>
      [RStatus (lit "OK"); RBulk (Some (lit "v")); RInteger (lit "1"); RError (lit "ERR "); RStatus (lit "OK");
       wrong_number; RError (lit "ERR Unknown Command: ping"); RBulk (Some (lit "1")); RInteger (lit "1");
       RBulk None]) /\
  net_ok (good := mem_good) net' a'.
Proof.
  pose proof (session_refines (good := mem_good) (H0 := sample_heap) (fun _ => eq_refl) sample_reqs new_Link fresh_server no_spec) as H.
  assert (E : fst (spec_session sample_reqs no_spec) =
     [RStatus (lit "OK"); RBulk (Some (lit "v")); RInteger (lit "1"); RError (lit "ERR "); RStatus (lit "OK");
       wrong_number; RError (lit "ERR Unknown Command: ping"); RBulk (Some (lit "1")); RInteger (lit "1");
       RBulk None]) by (vm_compute; reflexivity).
  destruct (spec_session sample_reqs no_spec) as [reps a']. cbn [fst] in E. subst reps.
  destruct H as (l' & net' & E & _ & _ & Hn & _); [| | | | | | exists l', net', a'; exact (conj E Hn)].
  - split; vm_compute; congruence.
  - vm_compute; reflexivity.
  - vm_compute; congruence.
  - repeat (apply Forall_cons_2; [apply req_small_dec; vm_compute; reflexivity |]). apply Forall_nil_2.
  - exact fresh_net_ok.
  - split; [by vm_compute | intros n; by vm_compute | intros n v [=] | intros n v [=]].
Defined.

Definition sample_config : json :=
  JObj [(lit "data_dir", JStr (lit "/var/data")); (lit "meta_dir", JStr (lit "/var/meta"))].
Definition slave_config : json :=
  JObj [(lit "data_dir", JStr (lit "/var/data")); (lit "meta_dir", JStr (lit "/var/meta"));
        (lit "replication", JObj [(lit "slaveof", JObj [(lit "ip", JStr (lit "10.0.0.1")); (lit "port", JInt 8888)])])].

Lemma restart_witness : exists cf o net, config_load sample_config = Done (Some cf) /\ open_options true cf = Done o /\
  run_server (H := Mem.leveldb) 2 (Some sample_config) (Some (Mem.healthy ∅)) (Some (Mem.healthy ∅)) (Some (∅, 0)) (0, false) true =
    Done (Serving net) /\ net_ok (good := mem_good) net no_spec.
Proof.
  eexists _, _.
  destruct (restart (good := mem_good) sample_config _ _ (Mem.healthy ∅) no_spec (Mem.healthy ∅) no_spec (0, false) true
    eq_refl eq_refl eq_refl) as (net & E & Hn & _).
  - exact represents_empty.
  - by split.
  - exact represents_empty.
  - exists net. split; [reflexivity |]. split; [reflexivity |]. exact (conj E Hn).
Defined.

Lemma startup_failures_unchecked_witness :
  run_server (H := Mem.leveldb) 2 (Some slave_config) (Some (Mem.healthy ∅)) None (Some (∅, 0)) (0, false) true = UB /\
  run_server (H := Mem.leveldb) 2 (Some slave_config) (Some (Mem.healthy ∅)) (Some (Mem.healthy ∅)) None (0, false) true = UB.
Proof.
  split.
  - refine (proj1 (startup_failures_unchecked slave_config _ _ (Mem.healthy ∅) no_spec None (Some (∅, 0)) (0, false) true
      eq_refl eq_refl represents_empty) eq_refl _ _); vm_compute; congruence.
  - refine (proj2 (startup_failures_unchecked slave_config _ _ (Mem.healthy ∅) no_spec (Some (Mem.healthy ∅)) None (0, false) true
      eq_refl eq_refl represents_empty) eq_refl _). intros mm [= <-]. exists no_spec. exact represents_empty.
Defined.
End ServerSamples.
