(* ===== verification/Sessions.v ===== *)
(** Several connections at once: [NetworkServer::acceptLink] and [Link::onRead] as
    the callbacks of the loop of libuv, which runs them one after the other, in any order.

    Requests of different connections arrive interleaved and cut in pieces;
    [server_serializable] shows that the whole is equivalent to a serial execution. *)
From S2P Require Import Prelude CLib Strings Bytes Resp Proc Redis LevelDB Binlog Iterator SSDB.
From S2P Require Import Link Config BackendSync Slave Server.
Import BinlogSpec IteratorSpec SSDBSpec.

(** What libuv reports: a connection, with the results of [uv_tcp_init] and
    [uv_accept], or bytes on a connection, which are numbered in order of acceptance. *)
Inductive event := Connection (status r_accept : Z) | Arrival (i : nat) (x : bytes).

(** The bytes that arrive on a connection, in pieces, and the connections made. *)
Definition arrived (i : nat) (es : list event) : list bytes :=
  omap (fun e => match e with Arrival j x => if decide (j = i) then Some x else None | _ => None end) es.
Definition accepted (e : event) : bool :=
  match e with Connection status r => (status =? 0) && (r =? 0) | _ => false end.
Definition connections (es : list event) : nat := length (filter accepted es).

(** Bytes arrive on connections that exist: [n] are there. *)
Fixpoint in_order (n : nat) (es : list event) : Prop :=
  match es with
  | [] => True
  | e :: es =>
      match e with Arrival i _ => (i < n)%nat | _ => True end /\
      in_order (if accepted e then S n else n) es
  end.

Section Turns.
Context `{LevelDBSpec} `{!Healthy good} `{Heap}.
Implicit Types (a : Spec) (net : NetworkServer (S := SSDBServer)).
Import BufferSpec LinkSpec ServerSpec.

(** The links, in order of acceptance; a link that was deleted is [None].  The replies
    come with the connection they are written to. *)
Fixpoint turns (es : list event) (ls : list (option Link)) net
    : exec (list (option Link) * NetworkServer (S := SSDBServer) * list (nat * bytes)) :=
  match es with
  | [] => Done (ls, net, [])
  | Connection status r_accept :: es =>
      let* (o, net) := acceptLink status r_accept net in
      turns es (if o is Some l then ls ++ [Some l] else ls) net
  | Arrival i x :: es =>
      match ls !! i with
      | Some (Some l) =>
          let* (o, net, out) := onRead x l net in
          let* (ls, net, out') := turns es (<[i := o]> ls) net in
          Done (ls, net, (pair i <$> out) ++ out')
      | _ => turns es ls net
      end
  end.

(** As [open_on], for some number of bytes. *)
Definition opened l cs qs : Prop := exists r, open_on r l cs qs.

Local Abbreviation serves net a := (net_ok (good := good) net a).

(** An order of the requests of all connections that keeps those of each in order. *)
Definition requests (i : nat) (h : list (nat * Req)) : list Req := (filter (fun p => p.1 = i) h).*2.
Definition interleaving (qss : list (list Req)) (h : list (nat * Req)) : Prop :=
  (forall i qs, qss !! i = Some qs -> requests i h = qs) /\ Forall (fun p => (p.1 < length qss)%nat) h.

Lemma requests_pair i j qs : requests j (pair i <$> qs) = if decide (j = i) then qs else [].
Proof.
  unfold requests. induction qs as [| q qs IH]; [by case_decide |].
  rewrite fmap_cons. case_decide as Hj.
  - rewrite filter_cons_True by done. rewrite fmap_cons, IH. done.
  - by rewrite filter_cons_False by (cbn; congruence).
Qed.

Lemma requests_app i h1 h2 : requests i (h1 ++ h2) = requests i h1 ++ requests i h2.
Proof. unfold requests. by rewrite filter_app, fmap_app. Qed.

Lemma interleaving_app i qs1 qs2 qss h : qss !! i = Some (qs1 ++ qs2) ->
  interleaving (<[i := qs2]> qss) h -> interleaving qss ((pair i <$> qs1) ++ h).
Proof.
  intros Hi [Hh Hb]. rewrite length_insert in Hb. assert (i < length qss)%nat by by eapply lookup_lt_Some. split.
  - intros j qs Hj. rewrite requests_app, requests_pair. case_decide as Hji.
    + subst j. rewrite Hi in Hj. injection Hj as <-. f_equal. apply Hh. by rewrite list_lookup_insert_eq.
    + apply Hh. by rewrite list_lookup_insert_ne.
  - apply Forall_app. split; [| done]. apply Forall_fmap, Forall_true. done.
Qed.

Lemma zlen_mjoin_insert {A} i (x y : list A) l : l !! i = Some (x ++ y) ->
  zlen (mjoin l) = zlen x + zlen (mjoin (<[i := y]> l)).
Proof.
  revert i. induction l as [| z l IH]; intros [| i] Hi; cbn in Hi; try done.
  - injection Hi as ->. cbn [insert list_insert]. rewrite !mjoin_cons. zl.
  - specialize (IH i Hi). cbn. change (zlen (z ++ mjoin l) = zlen x + zlen (z ++ mjoin (<[i := y]> l))). zl.
Qed.

Lemma length_spec_session qs a : length (spec_session qs a).1 = length qs.
Proof.
  revert a. induction qs as [| q qs IH]; intros a; [done |]. cbn. destruct (spec_request _ _ a) as [rp a1].
  specialize (IH a1). destruct (spec_session qs a1). cbn in *. lia.
Qed.

(** The links in use, and the one that a connection gets. *)
Definition link_at (ls : list (option Link)) (i : nat) : Link := default new_Link (mjoin (ls !! i)).
Definition in_use (ls : list (option Link)) : Prop := forall i o, ls !! i = Some o -> is_Some o.
Definition idle (o : option Link) : Prop := exists l, o = Some l /\ data_of l = [].

Lemma in_use_lookup ls i : in_use ls -> (i < length ls)%nat -> ls !! i = Some (Some (link_at ls i)).
Proof.
  intros Hu [o Ho]%lookup_lt_is_Some. destruct (Hu i o Ho) as [l ->]. unfold link_at. by rewrite Ho.
Qed.

Lemma link_at_snoc ls i : link_at (ls ++ [Some new_Link]) i = link_at ls i.
Proof.
  unfold link_at. destruct (decide (i < length ls)%nat); [by rewrite lookup_app_l |].
  rewrite lookup_app_r, (lookup_ge_None_2 ls) by lia. by destruct (i - length ls)%nat as [| [|]].
Qed.

Lemma link_at_insert ls i l j : (i < length ls)%nat ->
  link_at (<[i := Some l]> ls) j = if decide (j = i) then l else link_at ls j.
Proof.
  intros Hi. unfold link_at. case_decide as Hj; [subst j; by rewrite list_lookup_insert_eq |].
  by rewrite list_lookup_insert_ne.
Qed.

Lemma connections_cons e es : connections (e :: es) = ((if accepted e then 1 else 0) + connections es)%nat.
Proof. unfold connections. rewrite filter_cons. by destruct (accepted e). Qed.

Lemma acceptLink_spec net status r_accept :
  let n := Z.of_nat (if accepted (Connection status r_accept) then 1 else 0) in
  int_min <= link_count net -> link_count net + n <= int_max ->
  acceptLink status r_accept net =
    Done (if accepted (Connection status r_accept) then Some new_Link else None,
          mkNet (proc_map net) (data net) (link_count net + n)).
Proof.
  intros n Hlo Hhi. unfold n, acceptLink, accepted in *. destruct net as [m d c]. cbn in *.
  destruct (status =? 0), (r_accept =? 0); cbn in *; rewrite ?Z.add_0_r; try done.
  by rewrite ck_int_ok by zlia.
Qed.

Lemma arrived_here i x es : arrived i (Arrival i x :: es) = x :: arrived i es.
Proof. unfold arrived. cbn [omap list_omap]. by rewrite decide_True. Qed.
Lemma arrived_there i j x es : j <> i -> arrived j (Arrival i x :: es) = arrived j es.
Proof. intros Hne. unfold arrived. cbn [omap list_omap]. by rewrite decide_False. Qed.

Lemma zip_replies i (qs : list Req) (outs : list bytes) : length outs = length qs ->
  zip (pair i <$> qs : list (nat * Req)).*1 outs = (pair i <$> outs : list (nat * bytes)).
Proof.
  revert outs. induction qs as [| q qs IH]; intros [| o outs] Hl; cbn in *; try done.
  f_equal. apply IH. lia.
Qed.

(** What holds between two callbacks: [es] are to come, which end the requests [qss]. *)
Record serving (es : list event) (ls : list (option Link)) (qss : list (list Req)) net a : Prop := {
  sv_use : in_use ls;
  sv_order : in_order (length ls) es;
  sv_length : length qss = (length ls + connections es)%nat;
  sv_open : forall i qs, qss !! i = Some qs -> opened (link_at ls i) (arrived i es) qs;
  sv_serves : serves net a;
  sv_fits : fits (zlen (mjoin qss)) a;
  sv_count : int_min <= link_count net;
  sv_counts : link_count net + Z.of_nat (connections es) <= int_max
}.

Lemma serving_end ls qss net a : serving [] ls qss net a -> interleaving qss [] /\ Forall idle ls.
Proof.
  intros [Hu _ Hlen Hopen _ _ _ _]. unfold connections in Hlen. cbn in Hlen. split; [split; [| done] |].
  - intros i qs Hi. destruct (Hopen i qs Hi) as [r Ho]. by destruct (open_on_end _ _ _ Ho) as [-> _].
  - apply Forall_lookup. intros i o Hi. destruct (Hu i o Hi) as [l ->]. exists l. split; [done |].
    assert (i < length ls)%nat by by eapply lookup_lt_Some.
    destruct (lookup_lt_is_Some_2 qss i) as [qs Hq]; [lia |].
    destruct (Hopen i qs Hq) as [r Ho]. destruct (open_on_end _ _ _ Ho) as [_ Hd]. unfold link_at in Hd. by rewrite Hi in Hd.
Qed.

Lemma accept_step status r_accept es ls qss net a : serving (Connection status r_accept :: es) ls qss net a ->
  exists o net', acceptLink status r_accept net = Done (o, net') /\
    serving es (if o is Some l then ls ++ [Some l] else ls) qss net' a /\
    link_count net' + Z.of_nat (connections es) =
      link_count net + Z.of_nat (connections (Connection status r_accept :: es)).
Proof.
  intros [Hu [_ Hord] Hlen Hopen Hnet Hfit Hlo Hhi]. rewrite connections_cons in *.
  set (n := (if accepted _ then 1 else 0)%nat) in *.
  rewrite acceptLink_spec by (fold n; lia). fold n. eexists _, _. split; [done |]. cbn [link_count]. split; [| lia].
  assert (serves (mkNet (proc_map net) (data net) (link_count net + Z.of_nat n)) a) as Hnet' by by destruct Hnet.
  subst n. destruct (accepted _); split; cbn [link_count]; rewrite ?length_app, ?Nat.add_1_r; try done; try lia.
  - intros i o [Ho | [_ Ho]]%lookup_app_Some; [by eapply Hu |].
    apply list_lookup_singleton_Some in Ho as [_ <-]. by eexists.
  - intros i qs Hq. rewrite link_at_snoc. exact (Hopen i qs Hq).
Qed.

Lemma arrival_step (no_refusal : forall n, realloc_ok n = true) i x es ls qss net a :
  serving (Arrival i x :: es) ls qss net a ->
  exists l qs1 qs2, ls !! i = Some (Some l) /\ qss !! i = Some (qs1 ++ qs2) /\
  let '(reps, a') := spec_session qs1 a in
  exists l' net', onRead x l net = Done (Some l', net', enc_reply <$> reps) /\
    serving es (<[i := Some l']> ls) (<[i := qs2]> qss) net' a' /\ link_count net' = link_count net.
Proof.
  intros [Hu [Hi Hord] Hlen Hopen Hnet Hfit Hlo Hhi]. rewrite connections_cons in *. cbn [accepted Nat.add] in *.
  destruct (lookup_lt_is_Some_2 qss i) as [qs Hq]; [lia |].
  destruct (Hopen i qs Hq) as [r Ho]. rewrite arrived_here in Ho.
  pose proof (zlen_mjoin_insert i qs [] qss ltac:(by rewrite app_nil_r)) as Hk.
  destruct (read_step no_refusal x _ _ _ qs net a (zlen (mjoin (<[i := []]> qss))) Ho Hnet)
    as (qs1 & qs2 & -> & Hstep); [by rewrite <- Hk | apply zlen_nonneg |].
  exists (link_at ls i), qs1, qs2. split; [by apply in_use_lookup |]. split; [done |].
  pose proof (zlen_mjoin_insert i qs1 qs2 qss Hq) as Hk2. rewrite zlen_app in Hk.
  destruct (spec_session qs1 a) as [reps a1]. destruct Hstep as (l' & net1 & Er & Ho' & Hnet1 & Hc & Hfit1).
  exists l', net1. split; [done |]. split; [| done]. split; rewrite ?length_insert, ?Hc; try done.
  - intros j o Hj. destruct (decide (j = i)) as [-> | Hji].
    + rewrite list_lookup_insert_eq in Hj by done. injection Hj as <-. by eexists.
    + rewrite list_lookup_insert_ne in Hj by done. by eapply Hu.
  - intros j qs' Hj. rewrite link_at_insert by done. case_decide as Hji.
    + subst j. rewrite list_lookup_insert_eq in Hj by (by eapply lookup_lt_Some). injection Hj as <-. by eexists.
    + rewrite list_lookup_insert_ne in Hj by done. pose proof (Hopen j qs' Hj) as Hoj. by rewrite arrived_there in Hoj.
  - by replace (zlen (mjoin (<[i := qs2]> qss))) with (zlen qs2 + zlen (mjoin (<[i := []]> qss))) by lia.
Qed.

(** The whole of it: any callbacks, from any state. *)
Lemma turns_spec (no_refusal : forall n, realloc_ok n = true) es : forall ls qss net a,
  serving es ls qss net a -> exists h, interleaving qss h /\
  let '(reps, a') := spec_session h.*2 a in
  exists ls' net', turns es ls net = Done (ls', net', zip h.*1 (enc_reply <$> reps)) /\ Forall idle ls' /\
    serves net' a' /\ link_count net' = link_count net + Z.of_nat (connections es).
Proof.
  induction es as [| [status r_accept | i x] es IH]; intros ls qss net a Hs; cbn [turns].
  - destruct (serving_end _ _ _ _ Hs). exists []. split; [done |]. cbn. exists ls, net.
    split_and!; [done | done | apply Hs | unfold connections; cbn; lia].
  - destruct (accept_step _ _ _ _ _ _ _ Hs) as (o & net1 & -> & Hs1 & Hc1). cbn [ebind].
    destruct (IH _ _ _ _ Hs1) as (h & Hh & Hrun). exists h. split; [done |]. by rewrite <- Hc1.
  - destruct (arrival_step no_refusal _ _ _ _ _ _ _ Hs) as (l & qs1 & qs2 & -> & Hq & Hstep).
    pose proof (length_spec_session qs1 a) as Hlr. rewrite connections_cons. cbn [accepted Nat.add].
    destruct (spec_session qs1 a) as [reps1 a1] eqn:Es1. destruct Hstep as (l' & net1 & Er & Hs1 & Hc1).
    destruct (IH _ _ _ _ Hs1) as (h & Hh & Hrun). exists ((pair i <$> qs1) ++ h).
    split; [by apply (interleaving_app i qs1 qs2) |].
    rewrite fmap_app, <- list_fmap_compose. change (snd ∘ pair i) with (fun q : Req => q).
    rewrite list_fmap_id, spec_session_app, Es1. destruct (spec_session h.*2 a1) as [reps2 a2].
    destruct Hrun as (ls2 & net2 & E & Hidle & Hnet2 & Hc2). exists ls2, net2.
    rewrite Er. cbn [ebind]. rewrite E. cbn [ebind]. split; [| split_and!; [done | done | by rewrite Hc2, Hc1]].
    rewrite !fmap_app, zip_with_app by (rewrite !length_fmap; cbn in Hlr; lia).
    by rewrite zip_replies by (rewrite length_fmap; done).
Qed.

(** C2: the server is serializable: connections are accepted or refused, and the bytes of
    any number of them arrive in any pieces and in any order between them, cut anywhere but
    between the last two bytes of a request.  Then the requests can be put in one order, which
    keeps those of each connection in order, such that the replies are those of the
    specification for that order, each written to the connection of its request; all input
    is consumed, the store represents the final state of the specification, and the
    connections are counted.  The requests are those whose command the Redis table
    translates name for name or does not have, sync140 excepted, with strings of at most
    2^27 bytes.  Assumed: the store never fails; no reallocation is refused; at most 2^25
    bytes arrive on one connection in all; the values stored at the start are at most 2^27
    bytes; the log and the hash counters have room for as many updates as there are bytes;
    and the links fit an [int]. *)
Theorem server_serializable (no_refusal : forall n, realloc_ok n = true) es qss net a :
  in_order 0 es -> length qss = connections es ->
  (forall i qs, qss !! i = Some qs -> let w := arrived i es in
     mjoin w = mjoin (enc <$> qs) /\ zlen (mjoin w) <= 2 ^ 25 /\ whole_ends [] w qs /\ Forall req_small qs) ->
  net_ok (good := good) net a -> fits (zlen (mjoin qss)) a ->
  0 <= link_count net -> link_count net + Z.of_nat (connections es) <= int_max ->
  exists h, interleaving qss h /\
  let '(reps, a') := spec_session h.*2 a in
  exists ls net', turns es [] net = Done (ls, net', zip h.*1 (enc_reply <$> reps)) /\ Forall idle ls /\
    net_ok (good := good) net' a' /\ link_count net' = link_count net + Z.of_nat (connections es).
Proof.
  intros Hord Hlen Hq Hnet Hfit Hlo Hhi. apply (turns_spec no_refusal es [] qss net a).
  split; try done; [| zlia].
  intros i qs Hi. destruct (Hq i qs Hi) as (E & Hl & Hw & Hsm). exists 0.
  split; try done. by left.
Qed.
End Turns.

(** * Samples *)

Module SessionsSamples.
Import SSDBSamples BufferSpec LinkSpec ServerSpec ServerSamples.
#[local] Existing Instance sample_heap.

(** Two clients of one key, whose requests arrive in pieces, and a connection that fails. *)
Definition first_reqs : list Req :=
  [mkReq (lit "set") [lit "k"; lit "1"]; mkReq (lit "get") [lit "k"]].
Definition second_reqs : list Req :=
  [mkReq (lit "get") [lit "k"]; mkReq (lit "set") [lit "k"; lit "2"]; mkReq (lit "nop") []].
Definition w1 : bytes := mjoin (enc <$> first_reqs).
Definition w2 : bytes := mjoin (enc <$> second_reqs).
Definition sample_events : list event :=
  [Connection 0 0; Arrival 0 (take 10 w1); Connection 0 (-1); Connection 0 0; Arrival 1 (take 30 w2);
   Arrival 0 (take 30 (drop 10 w1)); Arrival 1 (drop 30 w2); Arrival 0 []; Arrival 0 (drop 40 w1)].

Example sample_turns :
  (let* (_, net, out) := turns sample_events [] fresh_server in Done (out, link_count net)) =
  Done ([(1%nat, enc_reply (RBulk None)); (0%nat, enc_reply (RStatus (lit "OK")));
         (1%nat, enc_reply (RStatus (lit "OK")));
         (1%nat, enc_reply (RError (lit "ERR Unknown Command: nop")));
         (0%nat, enc_reply (RBulk (Some (lit "2"))))], 3).
Proof. vm_compute. reflexivity. Qed.

Lemma sample_small : Forall req_small (first_reqs ++ second_reqs).
Proof. repeat (apply Forall_cons_2; [apply req_small_dec; vm_compute; reflexivity |]). apply Forall_nil_2. Qed.

Lemma server_serializable_witness : exists h, interleaving [first_reqs; second_reqs] h /\
  let '(reps, a') := spec_session h.*2 no_spec in
  exists ls net', turns sample_events [] fresh_server = Done (ls, net', zip h.*1 (enc_reply <$> reps)) /\
    Forall idle ls /\ net_ok (good := mem_good) net' a' /\ link_count net' = 1 + 2.
Proof.
  apply (server_serializable (good := mem_good) (H0 := sample_heap) (fun _ => eq_refl) sample_events [first_reqs; second_reqs]
    fresh_server no_spec).
  - vm_compute. repeat split; lia.
  - vm_compute. reflexivity.
  - destruct (proj1 (Forall_app _ _ _) sample_small) as [H1 H2].
    intros [| [| i]] qs Hi; [injection Hi as <- | injection Hi as <- | discriminate Hi];
      (split; [vm_compute; reflexivity |]; split; [vm_compute; congruence |];
       split; [apply whole_ends_dec; vm_compute; reflexivity |]).
    + exact H1.
    + exact H2.
  - exact fresh_net_ok.
  - split; [by vm_compute | intros n; by vm_compute | intros n v [=] | intros n v [=]].
  - vm_compute. congruence.
  - vm_compute. congruence.
Defined.
End SessionsSamples.
