(* ===== verification/Log.v ===== *)
(** [Logger] of [ssdb/src/util/log.h] and [log.cpp]: levels, the line a call
    writes, and rotation.  Streams and files are a [World]; what the C library
    answers at a call (the local time, how much [fwrite] stores, whether [rename]
    and [fopen] succeed) is its [Env]. *)
From stdpp Require Import gmap.
From S2P Require Import Prelude CLib Strings.

(** * Levels *)

Definition LEVEL_NONE : Z := -1.
Definition LEVEL_FATAL : Z := 0.
Definition LEVEL_ERROR : Z := 1.
Definition LEVEL_WARN : Z := 2.
Definition LEVEL_INFO : Z := 3.
Definition LEVEL_DEBUG : Z := 4.
Definition LEVEL_TRACE : Z := 5.

Definition get_level (levelname : bytes) : Z :=
  if decide (levelname = lit "trace") then LEVEL_TRACE
  else if decide (levelname = lit "debug") then LEVEL_DEBUG
  else if decide (levelname = lit "info") then LEVEL_INFO
  else if decide (levelname = lit "warn") then LEVEL_WARN
  else if decide (levelname = lit "error") then LEVEL_ERROR
  else if decide (levelname = lit "fatal") then LEVEL_FATAL
  else if decide (levelname = lit "none") then LEVEL_NONE
  else LEVEL_DEBUG.

(** [set_log_level] of a name: the level it sets. *)
Definition parse_log_level (s : bytes) : Z :=
  let ss := strtolower s in
  if decide (ss = lit "fatal") then LEVEL_FATAL
  else if decide (ss = lit "error") then LEVEL_ERROR
  else if decide (ss = lit "warn") then LEVEL_WARN
  else if decide (ss = lit "info") then LEVEL_INFO
  else if decide (ss = lit "debug") then LEVEL_DEBUG
  else if decide (ss = lit "trace") then LEVEL_TRACE
  else LEVEL_DEBUG.

(** [level_name] of a level. *)
Definition name_of_level (l : Z) : bytes :=
  if l =? LEVEL_FATAL then lit "fatal"
  else if l =? LEVEL_ERROR then lit "error"
  else if l =? LEVEL_WARN then lit "warn"
  else if l =? LEVEL_INFO then lit "info"
  else if l =? LEVEL_DEBUG then lit "debug"
  else if l =? LEVEL_TRACE then lit "trace"
  else [].

Definition get_level_name (l : Z) : bytes :=
  if l =? LEVEL_FATAL then lit "[FATAL] "
  else if l =? LEVEL_ERROR then lit "[ERROR] "
  else if l =? LEVEL_WARN then lit "[WARN ] "
  else if l =? LEVEL_INFO then lit "[INFO ] "
  else if l =? LEVEL_DEBUG then lit "[DEBUG] "
  else if l =? LEVEL_TRACE then lit "[TRACE] "
  else [].

(** * Streams *)

(** A [FILE *]: [NULL], a standard stream, a file opened for appending, or one
    that has been closed. *)
Inductive FILEp := FNull | FStdin | FStdout | FStderr | FOpened (path : bytes) | FClosed.

#[global] Instance FILEp_eq_dec : EqDecision FILEp.
Proof. solve_decision. Defined.

Record World := mkWorld {
  files : gmap bytes bytes;
  out : bytes; stdout_open : bool;
  err : bytes; stderr_open : bool }.

Definition set_files (f : gmap bytes bytes) (w : World) : World :=
  mkWorld f (out w) (stdout_open w) (err w) (stderr_open w).

(** [fwrite] and [fflush]: [n] bytes get stored.  [stdin] is not open for writing. *)
Definition fwrite (n : Z) (buf : bytes) (fp : FILEp) (w : World) : exec World :=
  let buf := ztake n buf in
  match fp with
  | FNull | FClosed => UB
  | FStdin => Done w
  | FStdout => let* _ := guard (stdout_open w) in
      Done (mkWorld (files w) (out w ++ buf) true (err w) (stderr_open w))
  | FStderr => let* _ := guard (stderr_open w) in
      Done (mkWorld (files w) (out w) (stdout_open w) (err w ++ buf) true)
  | FOpened p => Done (set_files (alter (fun c => c ++ buf) p (files w)) w)
  end.

Definition fclose (fp : FILEp) (w : World) : exec (FILEp * World) :=
  match fp with
  | FNull | FClosed => UB
  | FStdin => Done (FClosed, w)
  | FStdout => let* _ := guard (stdout_open w) in
      Done (FStdout, mkWorld (files w) (out w) false (err w) (stderr_open w))
  | FStderr => let* _ := guard (stderr_open w) in
      Done (FStderr, mkWorld (files w) (out w) (stdout_open w) (err w) false)
  | FOpened _ => Done (FClosed, w)
  end.

(** [rename]: an existing file of the new name is replaced. *)
Definition rename (ok : bool) (old new : bytes) (w : World) : option World :=
  match files w !! old with
  | Some c => if ok then Some (set_files (<[new := c]> (delete old (files w))) w) else None
  | None => None
  end.

(** [fopen] for appending: the file is created when it does not exist. *)
Definition fopen_a (ok : bool) (path : bytes) (w : World) : FILEp * World :=
  if ok then (FOpened path, set_files (<[path := default [] (files w !! path)]> (files w)) w)
  else (FNull, w).

(** * The logger *)

Definition PATH_MAX : Z := 4096.

Record Logger := mkLogger {
  fp : FILEp; filename : bytes; level_ : Z; mutex : bool;
  rotate_size_ : Z; w_curr : Z; w_total : Z }.

Definition new_Logger : Logger := mkLogger FStdout [] LEVEL_DEBUG false 0 0 0.

Definition level_name (l : Logger) : bytes := name_of_level (level_ l).
Definition output_name (l : Logger) : bytes := filename l.
Definition rotate_size (l : Logger) : Z := rotate_size_ l.

Definition set_level (level : Z) (l : Logger) : Logger :=
  mkLogger (fp l) (filename l) level (mutex l) (rotate_size_ l) (w_curr l) (w_total l).
Definition set_log_level (s : bytes) (l : Logger) : Logger := set_level (parse_log_level s) l.
Definition set_fp (f : FILEp) (l : Logger) : Logger :=
  mkLogger f (filename l) (level_ l) (mutex l) (rotate_size_ l) (w_curr l) (w_total l).
Definition set_w_curr (n : Z) (l : Logger) : Logger :=
  mkLogger (fp l) (filename l) (level_ l) (mutex l) (rotate_size_ l) n (w_total l).

(** [threadsafe]: [pthread_mutex_init] of a null pointer when [malloc] fails. *)
Definition threadsafe (malloc_ok : bool) (l : Logger) : exec Logger :=
  let* _ := guard malloc_ok in
  Done (mkLogger (fp l) (filename l) (level_ l) true (rotate_size_ l) (w_curr l) (w_total l)).

Definition open_fp (malloc_ok : bool) (f : FILEp) (level : Z) (is_threadsafe : bool) (l : Logger)
    : exec (Z * Logger) :=
  let l := set_level level (set_fp f l) in
  let* l := if is_threadsafe then threadsafe malloc_ok l else Done l in
  Done (0, l).

Definition open_file (malloc_ok fopen_ok fstat_ok : bool) (name : bytes) (level : Z) (is_threadsafe : bool)
    (rotate_size : Z) (l : Logger) (w : World) : exec (Z * Logger * World) :=
  if PATH_MAX - 20 <? zlen name then
    let* w := fwrite 22 (lit "log filename too long!") FStderr w in Done (-1, l, w)
  else
    let l := mkLogger (fp l) name level (mutex l) rotate_size (w_curr l) (w_total l) in
    if decide (name = lit "stdout") then
      let* (r, l) := open_fp malloc_ok FStdout level is_threadsafe l in Done (r, l, w)
    else if decide (name = lit "stderr") then
      let* (r, l) := open_fp malloc_ok FStderr level is_threadsafe l in Done (r, l, w)
    else
      let '(f, w) := fopen_a fopen_ok name w in
      if decide (f = FNull) then Done (-1, l, w)
      else if fstat_ok then
        let l := set_w_curr (zlen (default [] (files w !! name))) l in
        let* (r, l) := open_fp malloc_ok f level is_threadsafe l in Done (r, l, w)
      else
        let m := lit "fstat log file " ++ name ++ lit " error!" in
        let* w := fwrite (zlen m) m FStderr w in Done (-1, l, w).

Definition close (l : Logger) (w : World) : exec (Logger * World) :=
  if decide (fp l <> FStdin /\ fp l <> FStdout) then
    let* (f, w) := fclose (fp l) w in Done (set_fp f l, w)
  else Done (l, w).

(** The destructor: the mutex goes first. *)
Definition destroy (l : Logger) (w : World) : exec (Logger * World) :=
  close (mkLogger (fp l) (filename l) (level_ l) false (rotate_size_ l) (w_curr l) (w_total l)) w.

Record tm := mkTm { tm_year : Z; tm_mon : Z; tm_mday : Z; tm_hour : Z; tm_min : Z; tm_sec : Z }.
Record Env := mkEnv {
  e_tm : tm; e_usec : Z; e_fwrite : Z; e_rename : bool; e_fopen : bool }.

(** [%0nd]. *)
Definition pad (n : Z) (z : Z) : bytes :=
  let sign := if z <? 0 then [chr 45] else [] in
  let ds := digits (Z.abs z) in
  sign ++ replicate (Z.to_nat (n - zlen sign - zlen ds)) (chr 48) ++ ds.

Definition rotated_suffix (t : tm) : bytes :=
  lit "." ++ pad 4 (tm_year t + 1900) ++ pad 2 (tm_mon t + 1) ++ pad 2 (tm_mday t) ++ lit "-" ++
  pad 2 (tm_hour t) ++ pad 2 (tm_min t) ++ pad 2 (tm_sec t).

Definition rotate (e : Env) (l : Logger) (w : World) : exec (Logger * World) :=
  let* (f, w) := fclose (fp l) w in
  let l := set_fp f l in
  let newpath := filename l ++ rotated_suffix (e_tm e) in
  let* _ := guard (zlen newpath + 1 <=? PATH_MAX) in
  match rename (e_rename e) (filename l) newpath w with
  | None => Done (l, w)
  | Some w =>
      let '(f, w) := fopen_a (e_fopen e) (filename l) w in
      let l := set_fp f l in
      if decide (f = FNull) then Done (l, w) else Done (set_w_curr 0 l, w)
  end.

Definition LEVEL_NAME_LEN : Z := 8.
Definition LOG_BUF_LEN : Z := 4096.

Definition stamp (e : Env) : bytes :=
  let t := e_tm e in
  pad 4 (tm_year t + 1900) ++ lit "-" ++ pad 2 (tm_mon t + 1) ++ lit "-" ++ pad 2 (tm_mday t) ++ lit " " ++
  pad 2 (tm_hour t) ++ lit ":" ++ pad 2 (tm_min t) ++ lit ":" ++ pad 2 (tm_sec t) ++ lit "." ++
  pad 3 (e_usec e `quot` 1000) ++ lit " ".

(** The bytes at [ptr] that count after [vsnprintf(ptr, space, ...)] has printed
    [m]: the terminator is one of them when the text does not fit. *)
Definition message (space : Z) (m : bytes) : bytes :=
  if zlen m <? space then m else ztake (space - 1) m ++ [NUL].

(** [logv] on the object [l]; [threshold] is the level of the global [logger].
    [msg] is the text the format and its arguments stand for, or none when
    [vsnprintf] fails. *)
Definition logv (e : Env) (threshold : Z) (level : Z) (msg : option bytes) (l : Logger) (w : World)
    : exec (Z * Logger * World) :=
  if threshold <? level then Done (0, l, w)
  else
    let* _ := guard (zlen (stamp e) + 1 <=? LOG_BUF_LEN) in
    let* tag := mread (get_level_name level ++ [NUL]) 0 LEVEL_NAME_LEN in
    let head := stamp e ++ tag in
    let space := LOG_BUF_LEN - zlen head - 10 in
    let* _ := guard (0 <? space) in
    match msg with
    | None => Done (-1, l, w)
    | Some m =>
        if int_max <? zlen m then Done (-1, l, w)
        else
          let buf := head ++ message space m ++ [LF] in
          let len := zlen buf in
          let* _ := guard (len + 1 <=? LOG_BUF_LEN) in
          let* w := fwrite (e_fwrite e) buf (fp l) w in
          let l := mkLogger (fp l) (filename l) (level_ l) (mutex l) (rotate_size_ l)
                     (to_uint64 (w_curr l + len)) (to_uint64 (w_total l + len)) in
          let* (l, w) := if (0 <? rotate_size_ l) && (rotate_size_ l <? w_curr l) then rotate e l w
                         else Done (l, w) in
          Done (len, l, w)
    end.

(** [log_write]: on the global object. *)
Definition log_write (e : Env) (level : Z) (msg : option bytes) (logger : Logger) (w : World)
    : exec (Z * Logger * World) := logv e (level_ logger) level msg logger w.

(** The methods [trace] to [fatal] of any object write to the global one. *)
Definition method_write (e : Env) (level : Z) (msg : option bytes) (this logger : Logger) (w : World)
    : exec (Z * Logger * World) := log_write e level msg logger w.
Definition trace e := method_write e LEVEL_TRACE.
Definition debug e := method_write e LEVEL_DEBUG.
Definition info e := method_write e LEVEL_INFO.
Definition warn e := method_write e LEVEL_WARN.
Definition error e := method_write e LEVEL_ERROR.
Definition fatal e := method_write e LEVEL_FATAL.

(** The macros [log_trace] to [log_fatal] put the place of the call before the text;
    with [NDEBUG] the first does nothing. *)
Definition located (file : bytes) (line : Z) (msg : option bytes) : option bytes :=
  (fun m => file ++ lit "(" ++ print_int line ++ lit "): " ++ m) <$> msg.
Definition log_at (level : Z) (e : Env) (file : bytes) (line : Z) (msg : option bytes)
    (logger : Logger) (w : World) : exec (Logger * World) :=
  let* (_, l, w) := log_write e level (located file line msg) logger w in Done (l, w).
Definition log_trace (ndebug : bool) e file line msg logger w : exec (Logger * World) :=
  if ndebug then Done (logger, w) else log_at LEVEL_TRACE e file line msg logger w.
Definition log_debug := log_at LEVEL_DEBUG.
Definition log_info := log_at LEVEL_INFO.
Definition log_warn := log_at LEVEL_WARN.
Definition log_error := log_at LEVEL_ERROR.
Definition log_fatal := log_at LEVEL_FATAL.

(** * What a log file holds *)

Record Call := mkCall { c_env : Env; c_level : Z; c_msg : bytes }.

Definition tm_ok (e : Env) : Prop :=
  let t := e_tm e in
  0 <= tm_year t + 1900 < 10000 /\ 0 <= tm_mon t < 12 /\ 0 <= tm_mday t < 32 /\ 0 <= tm_hour t < 24 /\
  0 <= tm_min t < 60 /\ 0 <= tm_sec t < 61 /\ 0 <= e_usec e < 1000000.

(** The space for the text: the buffer, less the head of 32 bytes and 10. *)
Definition SPACE : Z := 4054.
Definition line (e : Env) (level : Z) (m : bytes) : bytes :=
  stamp e ++ get_level_name level ++ message SPACE m ++ [LF].
Definition line_of (c : Call) : bytes := line (c_env c) (c_level c) (c_msg c).

Definition call_ok (c : Call) : Prop :=
  tm_ok (c_env c) /\ LEVEL_FATAL <= c_level c <= LEVEL_TRACE /\ zlen (c_msg c) <= int_max /\
  zlen (line_of c) <= e_fwrite (c_env c) /\ e_rename (c_env c) = true /\ e_fopen (c_env c) = true.

Fixpoint log_run (cs : list Call) (l : Logger) (w : World) : exec (Logger * World) :=
  match cs with
  | [] => Done (l, w)
  | c :: cs => let* (_, l, w) := log_write (c_env c) (c_level c) (Some (c_msg c)) l w in log_run cs l w
  end.

Definition written_lines (threshold : Z) (cs : list Call) : list bytes :=
  line_of <$> filter (fun c => c_level c <= threshold) cs.

(** The files rotation leaves, with their names, and the current one. *)
Fixpoint log_spec (threshold rsize : Z) (name cur : bytes) (cs : list Call) : list (bytes * bytes) * bytes :=
  match cs with
  | [] => ([], cur)
  | c :: cs =>
      if threshold <? c_level c then log_spec threshold rsize name cur cs
      else
        let cur := cur ++ line_of c in
        if rsize <? zlen cur then
          let '(segs, last) := log_spec threshold rsize name [] cs in
          ((name ++ rotated_suffix (e_tm (c_env c)), cur) :: segs, last)
        else log_spec threshold rsize name cur cs
  end.

Module LogSpec.
Implicit Types (l : Logger) (w : World) (e : Env) (m name cur : bytes) (c : Call).

(** ** Lines *)

Lemma zlen_pad n z : 1 <= n -> 0 <= z < 10 ^ n -> zlen (pad n z) = n.
Proof.
  intros Hn Hz. unfold pad. rewrite (proj2 (Z.ltb_ge _ _)) by lia. rewrite Z.abs_eq by lia.
  pose proof (proj2 (zlen_digits z ltac:(lia) n Hn) ltac:(lia)). rewrite zlen_nil, Z.sub_0_r. cbn [app].
  rewrite zlen_app. unfold zlen in *. rewrite length_replicate. lia.
Qed.

Lemma zlen_stamp e : tm_ok e -> zlen (stamp e) = 24.
Proof.
  intros (?&?&?&?&?&?&?). unfold stamp.
  assert (0 <= e_usec e `quot` 1000 < 10 ^ 3) by (rewrite Z.quot_div_nonneg by lia; split; [apply Z.div_pos; lia | apply Z.div_lt_upper_bound; lia]).
  rewrite !zlen_app, !zlen_pad by (change (10 ^ 4) with 10000; change (10 ^ 2) with 100; lia). reflexivity.
Qed.

Lemma zlen_suffix e : tm_ok e -> zlen (rotated_suffix (e_tm e)) = 16.
Proof.
  intros (?&?&?&?&?&?&?). unfold rotated_suffix.
  rewrite !zlen_app, !zlen_pad by (change (10 ^ 4) with 10000; change (10 ^ 2) with 100; lia). reflexivity.
Qed.

Lemma level_cases n : LEVEL_FATAL <= n <= LEVEL_TRACE -> n = 0 \/ n = 1 \/ n = 2 \/ n = 3 \/ n = 4 \/ n = 5.
Proof. unfold LEVEL_FATAL, LEVEL_TRACE. lia. Qed.

Lemma read_tag n : LEVEL_FATAL <= n <= LEVEL_TRACE ->
  mread (get_level_name n ++ [NUL]) 0 LEVEL_NAME_LEN = Done (get_level_name n) /\ zlen (get_level_name n) = 8.
Proof. by intros [-> | [-> | [-> | [-> | [-> | ->]]]]]%level_cases. Qed.

Lemma zlen_message m : zlen (message SPACE m) <= SPACE.
Proof.
  unfold message. destruct (Z.ltb_spec (zlen m) SPACE); [lia |].
  rewrite zlen_app, zlen_ztake by (unfold SPACE in *; lia). change (zlen [NUL]) with 1. lia.
Qed.

Lemma zlen_log_line e n m : tm_ok e -> LEVEL_FATAL <= n <= LEVEL_TRACE -> 33 <= zlen (line e n m) <= 4087.
Proof.
  intros Ht Hl. unfold line. rewrite !zlen_app, zlen_stamp, (proj2 (read_tag n Hl)) by done.
  pose proof (zlen_message m). pose proof (zlen_nonneg (message SPACE m)).
  change (zlen [LF]) with 1. unfold SPACE in *. lia.
Qed.

(** An enabled call, up to [fwrite]. *)
Lemma logv_enabled e t n m l w : tm_ok e -> LEVEL_FATAL <= n <= t -> n <= LEVEL_TRACE -> zlen m <= int_max ->
  logv e t n (Some m) l w =
    (let* w := fwrite (e_fwrite e) (line e n m) (fp l) w in
     let l := mkLogger (fp l) (filename l) (level_ l) (mutex l) (rotate_size_ l)
                (to_uint64 (w_curr l + zlen (line e n m))) (to_uint64 (w_total l + zlen (line e n m))) in
     let* (l, w) := if (0 <? rotate_size_ l) && (rotate_size_ l <? w_curr l) then rotate e l w
                    else Done (l, w) in
     Done (zlen (line e n m), l, w)).
Proof.
  intros Ht Hn Hn' Hm. unfold logv. rewrite (proj2 (Z.ltb_ge t n)) by lia.
  destruct (read_tag n) as [-> Hz]; [lia |]. rewrite zlen_stamp by done. cbn [ebind guard Z.leb Z.add].
  change (24 + 1 <=? LOG_BUF_LEN) with true. cbn [guard ebind].
  replace (LOG_BUF_LEN - zlen (stamp e ++ get_level_name n) - 10) with SPACE
    by (rewrite zlen_app, Hz, zlen_stamp by done; reflexivity).
  change (0 <? SPACE) with true. cbn [guard ebind]. rewrite (proj2 (Z.ltb_ge int_max _)) by done.
  rewrite <- app_assoc. fold (line e n m). pose proof (zlen_log_line e n m Ht ltac:(lia)).
  rewrite (proj2 (Z.leb_le (zlen (line e n m) + 1) LOG_BUF_LEN)) by (unfold LOG_BUF_LEN; lia). reflexivity.
Qed.

(** A call below the threshold changes nothing; any other stays within its
    4096-byte buffer whatever the text is, appends exactly one line (time, level,
    text, line feed) of at most 4087 bytes to the open file, and returns its
    length. *)
Theorem logv_line e n m l w p : tm_ok e -> LEVEL_FATAL <= n <= LEVEL_TRACE -> zlen m <= int_max ->
  fp l = FOpened p -> rotate_size_ l = 0 -> 4087 <= e_fwrite e ->
  exists r l' w', log_write e n (Some m) l w = Done (r, l', w') /\ fp l' = fp l /\
    (level_ l < n -> r = 0 /\ l' = l /\ w' = w) /\
    (n <= level_ l -> r = zlen (line e n m) /\ 33 <= r <= 4087 /\
       w' = set_files (alter (fun x => x ++ line e n m) p (files w)) w /\
       w_total l' = to_uint64 (w_total l + r)).
Proof.
  intros Ht Hn Hm Hp Hr Hw. unfold log_write. destruct (Z.lt_ge_cases (level_ l) n) as [Hlt | Hge].
  - exists 0, l, w. unfold logv. rewrite (proj2 (Z.ltb_lt _ _)) by done. split_and!; done || lia.
  - pose proof (zlen_log_line e n m Ht Hn). rewrite logv_enabled by (done || lia).
    rewrite Hp. cbn [fwrite ebind]. rewrite ztake_all by lia. cbn [rotate_size_]. rewrite Hr.
    cbn [Z.ltb Z.compare andb ebind]. eexists _, _, _. split; [reflexivity |]. cbn. by split_and!; [| lia |].
Qed.

(** A text that does not fit is written with the terminator [vsnprintf] has put
    at its end: whatever the text, the line has a NUL byte before its line feed. *)
Theorem long_message_nul e n m : SPACE <= zlen m ->
  exists k, line e n m = k ++ ztake (SPACE - 1) m ++ [NUL; LF].
Proof.
  intros Hm. exists (stamp e ++ get_level_name n). unfold line, message.
  rewrite (proj2 (Z.ltb_ge _ _)) by done. by rewrite <- !app_assoc.
Qed.

(** ** Rotation *)

Definition appends (l : Logger) (name cur : bytes) w : Prop :=
  fp l = FOpened name /\ filename l = name /\ files w !! name = Some cur.

(** A call with nothing failing, on the log file. *)
Lemma log_write_file c l w name cur : call_ok c -> appends l name cur w -> 0 < rotate_size_ l < 2 ^ 63 ->
  w_curr l = zlen cur -> zlen cur <= rotate_size_ l -> zlen name <= PATH_MAX - 20 ->
  c_level c <= level_ l ->
  let cur' := cur ++ line_of c in
  let new := name ++ rotated_suffix (e_tm (c_env c)) in
  exists r l' w', log_write (c_env c) (c_level c) (Some (c_msg c)) l w = Done (r, l', w') /\
    level_ l' = level_ l /\ rotate_size_ l' = rotate_size_ l /\
    (if rotate_size_ l <? zlen cur' then
       appends l' name [] w' /\ w_curr l' = 0 /\
       files w' = <[name := []]> (<[new := cur']> (delete name (files w)))
     else appends l' name cur' w' /\ w_curr l' = zlen cur' /\ files w' = <[name := cur']> (files w)).
Proof.
  intros (Ht & Hl & Hm & Hw & Hrn & Hfo) (Hp & Hf & Hc) Hr Hcur Hle Hname Hen cur' new.
  pose proof (zlen_log_line (c_env c) (c_level c) (c_msg c) Ht Hl) as Hlen. fold (line_of c) in Hlen.
  unfold log_write. rewrite logv_enabled by (done || lia). fold (line_of c).
  rewrite Hp. cbn [fwrite ebind]. rewrite ztake_all by done. cbn [rotate_size_ w_curr].
  assert (Ha : alter (fun x => x ++ line_of c) name (files w) = <[name := cur']> (files w))
    by (apply map_eq; intros i; destruct (decide (i = name)) as [-> |];
        [by rewrite lookup_alter_eq, lookup_insert_eq, Hc | by rewrite lookup_alter_ne, lookup_insert_ne by done]).
  rewrite Ha. rewrite Hcur, to_uint64_id by (pose proof (zlen_nonneg cur); split; zlia).
  replace (zlen cur + zlen (line_of c)) with (zlen cur') by (subst cur'; apply zlen_app).
  rewrite (proj2 (Z.ltb_lt 0 _)) by lia. cbn [andb]. destruct (Z.ltb_spec (rotate_size_ l) (zlen cur')).
  - unfold rotate. cbn [fp fclose ebind filename set_fp]. rewrite Hf.
    rewrite (proj2 (Z.leb_le _ _)) by (rewrite zlen_app, zlen_suffix by done; unfold PATH_MAX in *; lia).
    cbn [guard ebind]. unfold rename. cbn [files set_files]. rewrite lookup_insert_eq, Hrn. fold new.
    unfold fopen_a. rewrite Hfo. cbn [files set_files]. rewrite delete_insert_eq.
    assert (new <> name) as Hne.
    { intros E. apply (f_equal zlen) in E. subst new. rewrite zlen_app, zlen_suffix in E by done. lia. }
    assert (<[new := cur']> (delete name (files w)) !! name = None) as Hno
      by (rewrite lookup_insert_ne by done; apply lookup_delete_eq).
    rewrite Hno. cbn [default decide]. rewrite decide_False by done. cbn [ebind]. eexists _, _, _.
    split; [reflexivity |]. cbn.
    split; [done |]. split; [done |]. split; [| done]. split; [done |]. split; [done |]. cbn [files set_files]. apply lookup_insert_eq.
  - cbn [ebind]. eexists _, _, _. split; [reflexivity |]. cbn. split_and!; try done.
    split_and!; [done.. |]. cbn. by rewrite lookup_insert_eq.
Qed.

Lemma written_cons t c cs : written_lines t (c :: cs) =
  (if t <? c_level c then [] else [line_of c]) ++ written_lines t cs.
Proof.
  unfold written_lines. rewrite filter_cons. destruct (Z.ltb_spec t (c_level c)).
  - by rewrite decide_False by lia.
  - by rewrite decide_True by done.
Qed.

(** What [log_spec] keeps of the lines, and the sizes of its files. *)
Lemma log_spec_keeps t rs name cs : forall cur, Forall call_ok cs -> 0 < rs -> zlen cur <= rs ->
  let '(segs, last) := log_spec t rs name cur cs in
  mjoin segs.*2 ++ last = cur ++ mjoin (written_lines t cs) /\ zlen last <= rs /\
  Forall (fun s => rs < zlen s <= rs + 4087) segs.*2.
Proof.
  induction cs as [| c cs IH]; intros cur Hok Hrs Hcur; cbn [log_spec].
  - cbn. by rewrite app_nil_r.
  - apply Forall_cons in Hok as [Hc Hok]. rewrite written_cons.
    destruct (Z.ltb_spec t (c_level c)); [by apply IH |].
    pose proof Hc as (Ht & Hl & _). pose proof (zlen_log_line (c_env c) (c_level c) (c_msg c) Ht Hl) as Hlen.
    fold (line_of c) in Hlen. destruct (Z.ltb_spec rs (zlen (cur ++ line_of c))) as [Hgt | Hle].
    + specialize (IH [] Hok Hrs ltac:(zl)). destruct (log_spec t rs name [] cs) as [segs last].
      destruct IH as (E & Hlast & Hs). split_and!; [| done |].
      * change (mjoin ((cur ++ line_of c) :: segs.*2) ++ last = cur ++ mjoin (line_of c :: written_lines t cs)).
        rewrite !mjoin_cons, <- !app_assoc. do 2 f_equal. exact E.
      * cbn. apply Forall_cons. split; [| done]. rewrite zlen_app in *. lia.
    + specialize (IH _ Hok Hrs Hle). destruct (log_spec t rs name _ cs) as [segs last].
      destruct IH as (E & Hlast & Hs). split_and!; [| done..].
      rewrite E, <- app_assoc. done.
Qed.

Lemma log_spec_names t rs name cs : forall cur p, p ∈ (log_spec t rs name cur cs).1.*1 ->
  exists c, c ∈ cs /\ p = name ++ rotated_suffix (e_tm (c_env c)).
Proof.
  induction cs as [| c cs IH]; intros cur p; cbn [log_spec]; [by intros ?%elem_of_nil |].
  case_match; [| case_match].
  - intros (c' & ? & ->)%IH. exists c'. split; [by right | done].
  - destruct (log_spec t rs name [] cs) as [segs last] eqn:E. cbn. intros [-> | Hp]%elem_of_cons.
    + exists c. split; [by left | done].
    + destruct (IH [] p) as (c' & ? & ->); [by rewrite E |]. exists c'. split; [by right | done].
  - intros (c' & ? & ->)%IH. exists c'. split; [by right | done].
Qed.

(** The run writes the files of [log_spec]. *)
Lemma log_run_files t rs name cs : forall cur l w, Forall call_ok cs -> appends l name cur w ->
  level_ l = t -> rotate_size_ l = rs -> 0 < rs < 2 ^ 63 -> w_curr l = zlen cur -> zlen cur <= rs ->
  zlen name <= PATH_MAX - 20 ->
  let '(segs, last) := log_spec t rs name cur cs in
  NoDup segs.*1 -> (forall p, p ∈ segs.*1 -> files w !! p = None) ->
  exists l' w', log_run cs l w = Done (l', w') /\ appends l' name last w' /\ w_curr l' = zlen last /\
    (forall p x, (p, x) ∈ segs -> files w' !! p = Some x) /\
    (forall p, p ∉ name :: segs.*1 -> files w' !! p = files w !! p).
Proof.
  induction cs as [| c cs IH]; intros cur l w Hok Ha Ht Hr Hrs Hcur Hle Hname; cbn [log_spec log_run].
  { intros _ _. exists l, w. split_and!; try done. by intros p x ?%elem_of_nil. }
  apply Forall_cons in Hok as [Hc Hok]. destruct (Z.ltb_spec t (c_level c)) as [Hlt | Hge].
  { specialize (IH cur l w Hok Ha Ht Hr Hrs Hcur Hle Hname).
    unfold log_write, logv. rewrite Ht, (proj2 (Z.ltb_lt _ _)) by done. cbn [ebind]. exact IH. }
  destruct (log_write_file c l w name cur Hc Ha ltac:(lia) Hcur ltac:(lia) Hname ltac:(lia))
    as (r & l1 & w1 & E & Hl1 & Hr1 & Hcase). rewrite E. cbn [ebind]. rewrite Hr in *.
  set (cur' := cur ++ line_of c) in *. set (new := name ++ rotated_suffix (e_tm (c_env c))) in *.
  assert (forall c, tm_ok (c_env c) -> name ++ rotated_suffix (e_tm (c_env c)) <> name) as Hfar.
  { intros c' Ht' E'. apply (f_equal zlen) in E'. rewrite zlen_app, zlen_suffix in E' by done. lia. }
  destruct (Z.ltb_spec rs (zlen cur')) as [Hgt | Hle'].
  - destruct Hcase as (Ha1 & Hc1 & Hf1).
    specialize (IH [] l1 w1 Hok Ha1 ltac:(congruence) ltac:(congruence) Hrs Hc1 ltac:(zl) Hname).
    pose proof (log_spec_names t rs name cs []) as Hn.
    destruct (log_spec t rs name [] cs) as [segs last]. cbn [fst fmap list_fmap] in *.
    intros [Hnew Hnd]%NoDup_cons Hfree.
    destruct IH as (l2 & w2 & E2 & Ha2 & Hc2 & Hs2 & Ho2); [done | |].
    { intros p Hp. destruct (Hn p Hp) as (c' & Hc' & Ep). rewrite Hf1, !lookup_insert_ne, lookup_delete_ne.
      - apply Hfree. by right.
      - rewrite Ep. symmetry. apply Hfar. rewrite Forall_forall in Hok. by apply Hok.
      - intros E'. apply Hnew. by rewrite E'.
      - rewrite Ep. symmetry. apply Hfar. rewrite Forall_forall in Hok. by apply Hok. }
    exists l2, w2. split_and!; try done.
    + intros p x [[= -> ->] | Hp]%elem_of_cons; [| by apply Hs2].
      rewrite Ho2, Hf1.
      * rewrite lookup_insert_ne by (symmetry; apply (Hfar c), Hc). apply lookup_insert_eq.
      * intros [E' | ?]%elem_of_cons; [by apply (Hfar c (proj1 Hc)) | done].
    + intros p Hp. rewrite Ho2 by set_solver. rewrite Hf1, !lookup_insert_ne, lookup_delete_ne by set_solver. done.
  - destruct Hcase as (Ha1 & Hc1 & Hf1).
    specialize (IH cur' l1 w1 Hok Ha1 ltac:(congruence) ltac:(congruence) Hrs Hc1 Hle' Hname).
    pose proof (log_spec_names t rs name cs cur') as Hn.
    destruct (log_spec t rs name cur' cs) as [segs last]. cbn [fst] in *. intros Hnd Hfree.
    destruct IH as (l2 & w2 & E2 & Ha2 & Hc2 & Hs2 & Ho2); [done | |].
    { intros p Hp. destruct (Hn p Hp) as (c' & Hc' & Ep). rewrite Hf1, lookup_insert_ne.
      - by apply Hfree.
      - rewrite Ep. symmetry. apply Hfar. rewrite Forall_forall in Hok. by apply Hok. }
    exists l2, w2. split_and!; try done.
    intros p Hp. rewrite Ho2 by done. rewrite Hf1. apply lookup_insert_ne. set_solver.
Qed.

(** C32: nothing is lost or reordered by rotation: over any calls for which the C
    library fails nowhere, the files that rotation leaves and the current one hold
    exactly what the current one held and the lines of the enabled calls, in order;
    every rotated file is larger than the limit by at most one line (4087 bytes), the
    current file is within the limit, and no other file is touched.  Assumed: the
    limit is between 0 and 2^63; the current file is within it at the start and its
    size is the one counted ([open] also accepts a larger file); the calls have one of
    the levels, a message of at most INT_MAX bytes and a time of four-digit year; no two rotations get the same name, and no
    rotated name is there already (see [rotation_overwrites]); and the name of the log
    is at most [PATH_MAX] - 20 bytes long. *)
Theorem log_history cs cur l w name : Forall call_ok cs -> appends l name cur w ->
  0 < rotate_size_ l < 2 ^ 63 -> w_curr l = zlen cur -> zlen cur <= rotate_size_ l ->
  zlen name <= PATH_MAX - 20 ->
  let '(segs, last) := log_spec (level_ l) (rotate_size_ l) name cur cs in
  NoDup segs.*1 -> (forall p, p ∈ segs.*1 -> files w !! p = None) ->
  mjoin segs.*2 ++ last = cur ++ mjoin (written_lines (level_ l) cs) /\
  zlen last <= rotate_size_ l /\ Forall (fun x => rotate_size_ l < zlen x <= rotate_size_ l + 4087) segs.*2 /\
  exists l' w', log_run cs l w = Done (l', w') /\ appends l' name last w' /\ w_curr l' = zlen last /\
    (forall p x, (p, x) ∈ segs -> files w' !! p = Some x) /\
    (forall p, p ∉ name :: segs.*1 -> files w' !! p = files w !! p).
Proof.
  intros Hok Ha Hr Hcur Hle Hname.
  pose proof (log_spec_keeps (level_ l) (rotate_size_ l) name cs cur Hok ltac:(lia) Hle) as Hk.
  pose proof (log_run_files _ _ name cs cur l w Hok Ha eq_refl eq_refl Hr Hcur Hle Hname) as Hrun.
  destruct (log_spec _ _ _ _ _) as [segs last]. destruct Hk as (? & ? & ?). intros Hnd Hfree.
  split_and!; [done.. |]. by apply Hrun.
Qed.

(** The name of a rotated file has a resolution of one second: a second rotation
    in the same second replaces the file the first one has left, whose lines are
    lost. *)
Theorem rotation_overwrites e l w name cur old : tm_ok e -> appends l name cur w ->
  zlen name <= PATH_MAX - 20 -> e_rename e = true -> e_fopen e = true ->
  files w !! (name ++ rotated_suffix (e_tm e)) = Some old ->
  exists l' w', rotate e l w = Done (l', w') /\
    files w' = <[name := []]> (<[name ++ rotated_suffix (e_tm e) := cur]> (delete name (files w))).
Proof.
  intros Ht (Hp & Hf & Hc) Hname Hrn Hfo _. unfold rotate. rewrite Hp. cbn [fclose ebind filename set_fp]. rewrite Hf.
  rewrite (proj2 (Z.leb_le _ _)) by (rewrite zlen_app, zlen_suffix by done; unfold PATH_MAX in *; lia).
  cbn [guard ebind]. unfold rename. rewrite Hc, Hrn. unfold fopen_a. rewrite Hfo. cbn [files set_files].
  rewrite lookup_insert_ne, lookup_delete_eq; [| intros E; apply (f_equal zlen) in E;
    rewrite zlen_app, zlen_suffix in E by done; lia].
  rewrite decide_False by done. by eexists _, _.
Qed.

(** A rotation closes the file before it renames it, and does not open it again
    when the renaming fails (or when the file cannot be created): the next call that
    writes uses a closed (or null) stream. *)
Theorem rotation_failure e e' n m l w name cur : tm_ok e -> tm_ok e' -> appends l name cur w ->
  zlen name <= PATH_MAX - 20 -> e_rename e = false \/ e_fopen e = false ->
  LEVEL_FATAL <= n <= LEVEL_TRACE -> n <= level_ l -> zlen m <= int_max ->
  exists l' w', rotate e l w = Done (l', w') /\ log_write e' n (Some m) l' w' = UB.
Proof.
  intros Ht Ht' (Hp & Hf & Hc) Hname Hfail Hn Hl Hm.
  assert (exists l' w', rotate e l w = Done (l', w') /\ (fp l' = FClosed \/ fp l' = FNull) /\ level_ l' = level_ l)
    as (l' & w' & E & Hfp & Hlev).
  { unfold rotate. rewrite Hp. cbn [fclose ebind filename set_fp]. rewrite Hf.
    rewrite (proj2 (Z.leb_le _ _)) by (rewrite zlen_app, zlen_suffix by done; unfold PATH_MAX in *; lia).
    cbn [guard ebind]. unfold rename. rewrite Hc. destruct (e_rename e).
    - destruct Hfail as [| ->]; [done |]. cbn. eexists _, _. split; [reflexivity |]. split; [by right | done].
    - eexists _, _. split; [reflexivity |]. split; [by left | done]. }
  exists l', w'. split; [done |]. unfold log_write. rewrite logv_enabled by (done || lia).
  by destruct Hfp as [-> | ->].
Qed.

(** The names of the levels: each of the six is read back to itself by both
    parsers, by [set_log_level] in any case; ["none"] means no logging to one of them
    and the debug level to the other. *)
Theorem log_levels :
  (forall n, LEVEL_FATAL <= n <= LEVEL_TRACE ->
     get_level (name_of_level n) = n /\ parse_log_level (name_of_level n) = n /\
     parse_log_level (strtoupper (name_of_level n)) = n /\ zlen (get_level_name n) = LEVEL_NAME_LEN) /\
  get_level (lit "none") = LEVEL_NONE /\ parse_log_level (lit "none") = LEVEL_DEBUG.
Proof.
  split; [| by vm_compute]. by intros n [-> | [-> | [-> | [-> | [-> | ->]]]]]%level_cases.
Qed.
End LogSpec.

(** * Instances *)
Module LogSamples.
Import LogSpec.

Definition env_at (sec : Z) : Env := mkEnv (mkTm 117 11 31 23 59 sec) 1234 5000 true true.
Definition log_name : bytes := lit "log.txt".
Definition file_logger (rsize : Z) (cur : bytes) : Logger :=
  mkLogger (FOpened log_name) log_name LEVEL_INFO false rsize (zlen cur) 0.
Definition file_world (cur : bytes) : World := mkWorld {[log_name := cur]} [] true [] true.

Lemma env_ok sec : 0 <= sec < 61 -> tm_ok (env_at sec).
Proof. intros H. unfold tm_ok, env_at. cbn. lia. Qed.
Lemma appends_file rsize cur : appends (file_logger rsize cur) log_name cur (file_world cur).
Proof. split; [done |]. split; [done |]. apply lookup_singleton_eq. Qed.

Lemma logv_line_witness : exists r l' w',
  log_write (env_at 1) LEVEL_INFO (Some (lit "hello")) (file_logger 0 []) (file_world []) = Done (r, l', w') /\
  files w' !! log_name = Some (lit "2017-12-31 23:59:01.001 [INFO ] hello" ++ [LF]) /\ r = 38.
Proof.
  destruct (logv_line (env_at 1) LEVEL_INFO (lit "hello") (file_logger 0 []) (file_world []) log_name)
    as (r & l' & w' & E & _ & _ & H).
  - by apply env_ok.
  - by vm_compute.
  - by vm_compute.
  - reflexivity.
  - reflexivity.
  - by vm_compute.
  - destruct (H ltac:(by vm_compute)) as (Hr & _ & Hw & _). exists r, l', w'. split; [exact E |].
    rewrite Hw, Hr. split; vm_compute; reflexivity.
Defined.

(** A macro, with the place of its call; the level is too high for the next one. *)
Example log_macros :
  (let* (l, w) := log_info (env_at 1) (lit "serv.cpp") 42 (Some (lit "hello")) (file_logger 0 []) (file_world []) in
   let* (_, w) := log_debug (env_at 1) (lit "serv.cpp") 43 (Some (lit "off")) l w in Done (files w !! log_name)) =
  Done (Some (lit "2017-12-31 23:59:01.001 [INFO ] serv.cpp(42): hello" ++ [LF])).
Proof. by vm_compute. Qed.

Definition long_text : bytes := replicate 4054 (chr 97).
Lemma long_message_nul_witness : exists k,
  line (env_at 1) LEVEL_INFO long_text = k ++ ztake (SPACE - 1) long_text ++ [NUL; LF].
Proof. apply (long_message_nul (env_at 1) LEVEL_INFO long_text). by vm_compute. Defined.

Definition sample_calls : list Call :=
  [mkCall (env_at 1) LEVEL_INFO (lit "one"); mkCall (env_at 1) LEVEL_DEBUG (lit "off");
   mkCall (env_at 2) LEVEL_WARN (lit "two"); mkCall (env_at 3) LEVEL_ERROR (lit "three");
   mkCall (env_at 3) LEVEL_FATAL (lit "four")].

Lemma log_history_witness : exists l' w',
  log_run sample_calls (file_logger 50 []) (file_world []) = Done (l', w') /\
  files w' !! (log_name ++ lit ".20171231-235902") =
    Some (lit "2017-12-31 23:59:01.001 [INFO ] one" ++ [LF] ++ lit "2017-12-31 23:59:02.001 [WARN ] two" ++ [LF]) /\
  files w' !! log_name = Some [].
Proof.
  pose proof (log_history sample_calls [] (file_logger 50 []) (file_world []) log_name) as H.
  assert (E : log_spec (level_ (file_logger 50 [])) (rotate_size_ (file_logger 50 [])) log_name [] sample_calls =
    ([(log_name ++ lit ".20171231-235902",
       lit "2017-12-31 23:59:01.001 [INFO ] one" ++ [LF] ++ lit "2017-12-31 23:59:02.001 [WARN ] two" ++ [LF]);
      (log_name ++ lit ".20171231-235903",
       lit "2017-12-31 23:59:03.001 [ERROR] three" ++ [LF] ++ lit "2017-12-31 23:59:03.001 [FATAL] four" ++ [LF])], []))
    by (vm_compute; reflexivity).
  rewrite E in H. destruct H as (_ & _ & _ & l' & w' & Er & (_ & _ & Hl) & _ & Hs & _).
  - repeat (apply Forall_cons_2; [split_and!; first [by apply env_ok | by vm_compute | reflexivity] |]). apply Forall_nil_2.
  - apply appends_file.
  - by vm_compute.
  - reflexivity.
  - by vm_compute.
  - by vm_compute.
  - apply (bool_decide_unpack _). vm_compute. exact I.
  - intros p Hp. cbn in Hp. apply lookup_singleton_ne. intros <-.
    rewrite !elem_of_cons, elem_of_nil in Hp. destruct Hp as [Hp | [Hp | []]]; discriminate Hp.
  - exists l', w'. split; [exact Er |]. split; [apply Hs; by left | exact Hl].
Defined.

(** A file of the name that the second rotation chooses. *)
Definition rotated_world : World :=
  mkWorld (<[log_name ++ lit ".20171231-235901" := lit "first"]> {[log_name := lit "second"]}) [] true [] true.

Lemma rotation_overwrites_witness : exists l' w',
  rotate (env_at 1) (file_logger 5 (lit "second")) rotated_world = Done (l', w') /\
  files w' = <[log_name := []]> (<[log_name ++ lit ".20171231-235901" := lit "second"]> (delete log_name (files rotated_world))).
Proof.
  apply (rotation_overwrites (env_at 1) (file_logger 5 (lit "second")) rotated_world log_name (lit "second") (lit "first")).
  - by apply env_ok.
  - split; [done |]. split; [done |]. by vm_compute.
  - by vm_compute.
  - reflexivity.
  - reflexivity.
  - by vm_compute.
Defined.

Definition env_fail (sec : Z) : Env := mkEnv (mkTm 117 11 31 23 59 sec) 1234 5000 false true.

Lemma rotation_failure_witness : exists l' w',
  rotate (env_fail 1) (file_logger 5 (lit "abc")) (file_world (lit "abc")) = Done (l', w') /\
  log_write (env_at 2) LEVEL_WARN (Some (lit "lost")) l' w' = UB.
Proof.
  apply (rotation_failure (env_fail 1) (env_at 2) LEVEL_WARN (lit "lost") (file_logger 5 (lit "abc"))
           (file_world (lit "abc")) log_name (lit "abc")).
  - exact (env_ok 1 ltac:(lia)).
  - by apply env_ok.
  - apply appends_file.
  - by vm_compute.
  - by left.
  - by vm_compute.
  - by vm_compute.
  - by vm_compute.
Defined.
End LogSamples.
