(* ===== verification/Thread.v ===== *)
(** The queues and the worker pool of [ssdb/src/util/thread.h].

    The operations of [Queue] and [SelectableQueue] are functions of what the
    calls of the operating system return; the pool is a system of threads
    (producers that call [push], workers that run [_run_worker], the one consumer
    that calls [pop]) whose steps are the calls of pthreads, [read] and [write]
    between which another thread can run. *)
From stdpp Require Import list relations.
From S2P Require Import Prelude.

(** * The queues *)
Section Queues.
Context {T : Type}.

(** [Queue]: the items, and whether the caller still holds the mutex. *)
Record Queue := mkQ { q_items : list T; q_held : bool }.

(** [-1] converted to [bool]. *)
Definition queue_empty (lock_ret : Z) (q : Queue) : bool :=
  if negb (lock_ret =? 0) then true else match q_items q with [] => true | _ => false end.

Definition queue_size (lock_ret : Z) (q : Queue) : Z :=
  if negb (lock_ret =? 0) then -1 else to_int (zlen (q_items q)).

Definition queue_push (lock_ret : Z) (item : T) (q : Queue) : Z * Queue :=
  if negb (lock_ret =? 0) then (-1, q) else (1, mkQ (q_items q ++ [item]) false).

(** How [pop] ends: still waiting, or with a status and the data it stored. *)
Inductive Popped := Waiting | Popped_ret (ret : Z) (data : option T) (q : Queue).

(** The loop of [pop]: what each [pthread_cond_wait] returns, and the items once it
    has the mutex again. *)
Fixpoint queue_pop_loop (waits : list (Z * list T)) (unlock_ret : Z) (items : list T) : Popped :=
  match items with
  | x :: items =>
      if negb (unlock_ret =? 0) then Popped_ret (-1) (Some x) (mkQ items true)
      else Popped_ret 1 (Some x) (mkQ items false)
  | [] =>
      match waits with
      | [] => Waiting
      | (r, items) :: waits =>
          if negb (r =? 0) then Popped_ret (-1) None (mkQ items true)
          else queue_pop_loop waits unlock_ret items
      end
  end.

Definition queue_pop (lock_ret : Z) (waits : list (Z * list T)) (unlock_ret : Z) (q : Queue) : Popped :=
  if negb (lock_ret =? 0) then Popped_ret (-1) None q
  else queue_pop_loop waits unlock_ret (q_items q).

(** [SelectableQueue]: the items and the number of bytes in the pipe. *)
Record SelectableQueue := mkSQ { sq_items : list T; sq_pipe : Z }.

(** A call returns, or the process exits. *)
Inductive Call := Call_ret (ret : Z) (data : option T) (q : SelectableQueue) | Call_exit (code : Z)
  | Call_blocked.

Definition new_SelectableQueue (pipe_ret : Z) : Call :=
  if pipe_ret =? -1 then Call_exit 0 else Call_ret 0 None (mkSQ [] 0).

Definition sq_push (lock_ret write_ret : Z) (item : T) (q : SelectableQueue) : Call :=
  if negb (lock_ret =? 0) then Call_ret (-1) None q
  else
    let items := sq_items q ++ [item] in
    if write_ret =? -1 then Call_exit 0 else Call_ret 1 None (mkSQ items (sq_pipe q + 1)).

Definition sq_size (q : SelectableQueue) : Z := to_int (zlen (sq_items q)).

(** What [read] returns: interrupted, another error, end of file, or a byte. *)
Inductive Read := Read_eintr | Read_error | Read_eof | Read_byte.

Fixpoint sq_pop (reads : list Read) (lock_ret : Z) (q : SelectableQueue) : Call :=
  match reads with
  | [] => Call_blocked
  | Read_eintr :: reads => sq_pop reads lock_ret q
  | Read_error :: _ => Call_ret (-1) None q
  | Read_eof :: _ => Call_ret (-1) None q
  | Read_byte :: _ =>
      let pipe := sq_pipe q - 1 in
      if negb (lock_ret =? 0) then Call_ret (-1) None (mkSQ (sq_items q) pipe)
      else match sq_items q with
           | [] => Call_ret (-1) None (mkSQ [] pipe)
           | x :: items => Call_ret 1 (Some x) (mkSQ items pipe)
           end
  end.
End Queues.
Arguments Queue : clear implicits.
Arguments Popped : clear implicits.
Arguments SelectableQueue : clear implicits.
Arguments Call : clear implicits.

(** * The threads of a pool *)
Section Pool.
Context {JOB : Type}.

(** Where a worker is in [_run_worker]: in [jobs.pop], in [proc], in
    [results.push]; or cancelled ([W_cancel]: in [pthread_cond_wait], which takes the
    mutex back first) and gone, with the mutex it held or the job it was at.  ([init]
    and [destroy] do nothing unless a subclass says so, and are left out.) *)
Inductive Worker :=
  | W_lock | W_test | W_wait | W_wake | W_unlock (j : JOB)
  | W_proc (j : JOB)
  | W_rlock (j : JOB) | W_write | W_runlock
  | W_cancel | W_gone | W_gone_write | W_gone_proc (j : JOB).
(** In [jobs.push]. *)
Inductive Producer := P_idle | P_lock (j : JOB) | P_unlock | P_signal.
(** In [results.pop]. *)
Inductive Consumer := C_idle | C_lock | C_test | C_unlock.

(** The two queues with their mutexes; the history of what was queued and what was
    delivered, and whether [pop] has found the queue empty after it read a byte. *)
Record Shared := mkShared {
  jobs : list JOB; jobs_mutex : bool;
  results : list JOB; results_mutex : bool; pipe : nat;
  pushed : list JOB; delivered : list JOB; failed : bool }.

Definition set_jobs (l : list JOB) (m : bool) (s : Shared) : Shared :=
  mkShared l m (results s) (results_mutex s) (pipe s) (pushed s) (delivered s) (failed s).
Definition set_results (l : list JOB) (m : bool) (s : Shared) : Shared :=
  mkShared (jobs s) (jobs_mutex s) l m (pipe s) (pushed s) (delivered s) (failed s).
Definition set_pipe (n : nat) (s : Shared) : Shared :=
  mkShared (jobs s) (jobs_mutex s) (results s) (results_mutex s) n (pushed s) (delivered s) (failed s).

(** The next step of a thread; none when it is blocked.  [cap] is the capacity of
    the pipe. *)
Definition worker_step (cap : nat) (pc : Worker) (s : Shared) : option (Worker * Shared) :=
  match pc with
  | W_lock | W_wake => if jobs_mutex s then None else Some (W_test, set_jobs (jobs s) true s)
  | W_test =>
      match jobs s with
      | [] => Some (W_wait, set_jobs [] false s)
      | j :: l => Some (W_unlock j, set_jobs l true s)
      end
  | W_wait => None
  | W_unlock j => Some (W_proc j, set_jobs (jobs s) false s)
  | W_proc j => Some (W_rlock j, s)
  | W_rlock j => if results_mutex s then None else Some (W_write, set_results (results s ++ [j]) true s)
  | W_write => if bool_decide (pipe s < cap)%nat then Some (W_runlock, set_pipe (S (pipe s)) s) else None
  | W_runlock => Some (W_lock, set_results (results s) false s)
  | W_cancel => if jobs_mutex s then None else Some (W_gone, set_jobs (jobs s) true s)
  | W_gone | W_gone_write | W_gone_proc _ => None
  end.

Definition producer_step (pc : Producer) (s : Shared) : option (Producer * Shared) :=
  match pc with
  | P_idle | P_signal => None
  | P_lock j =>
      if jobs_mutex s then None
      else Some (P_unlock, mkShared (jobs s ++ [j]) true (results s) (results_mutex s) (pipe s)
                             (pushed s ++ [j]) (delivered s) (failed s))
  | P_unlock => Some (P_signal, set_jobs (jobs s) false s)
  end.

Definition consumer_step (pc : Consumer) (s : Shared) : option (Consumer * Shared) :=
  match pc with
  | C_idle => match pipe s with O => None | S n => Some (C_lock, set_pipe n s) end
  | C_lock => if results_mutex s then None else Some (C_test, set_results (results s) true s)
  | C_test =>
      match results s with
      | [] => Some (C_unlock, mkShared (jobs s) (jobs_mutex s) [] true (pipe s) (pushed s) (delivered s) true)
      | j :: l => Some (C_unlock, mkShared (jobs s) (jobs_mutex s) l true (pipe s) (pushed s)
                                    (delivered s ++ [j]) (failed s))
      end
  | C_unlock => Some (C_idle, set_results (results s) false s)
  end.

(** A pool: its workers, each with the flag that [pthread_cancel] sets. *)
Record Pool := mkPool {
  workers : list (Worker * bool); producers : list Producer; consumer : Consumer; shared : Shared }.

(** [start] of [n] workers (those whose thread could be created), with [k] threads
    that push. *)
Definition pool_start (n k : nat) : Pool :=
  mkPool (replicate n (W_lock, false)) (replicate k P_idle) C_idle (mkShared [] false [] false 0 [] [] false).

(** [stop]: every worker is cancelled, none is waited for. *)
Definition pool_stop (p : Pool) : Pool :=
  mkPool ((fun w => (fst w, true)) <$> workers p) (producers p) (consumer p) (shared p).

(** The steps: [true] for those that need no call from outside and no spurious
    wakeup.  [pthread_cond_signal] wakes a thread when one waits.  A thread acts upon a
    cancellation in [pthread_cond_wait], in [write], or, if [proc] makes such a call, in
    [proc]. *)
Inductive step (cap : nat) : bool -> Pool -> Pool -> Prop :=
  | s_worker ws ps c s i pc b pc' s' :
      ws !! i = Some (pc, b) -> worker_step cap pc s = Some (pc', s') ->
      step cap true (mkPool ws ps c s) (mkPool (<[i := (pc', b)]> ws) ps c s')
  | s_producer ws ps c s i pc pc' s' :
      ps !! i = Some pc -> producer_step pc s = Some (pc', s') ->
      step cap true (mkPool ws ps c s) (mkPool ws (<[i := pc']> ps) c s')
  | s_signal ws ps c s k i b :
      ps !! k = Some P_signal -> ws !! i = Some (W_wait, b) ->
      step cap true (mkPool ws ps c s) (mkPool (<[i := (W_wake, b)]> ws) (<[k := P_idle]> ps) c s)
  | s_signal_none ws ps c s k :
      ps !! k = Some P_signal -> (forall i b, ws !! i <> Some (W_wait, b)) ->
      step cap true (mkPool ws ps c s) (mkPool ws (<[k := P_idle]> ps) c s)
  | s_consumer ws ps c s c' s' :
      consumer_step c s = Some (c', s') ->
      step cap true (mkPool ws ps c s) (mkPool ws ps c' s')
  | s_cancel_wait ws ps c s i :
      ws !! i = Some (W_wait, true) ->
      step cap true (mkPool ws ps c s) (mkPool (<[i := (W_cancel, true)]> ws) ps c s)
  | s_cancel_write ws ps c s i :
      ws !! i = Some (W_write, true) ->
      step cap true (mkPool ws ps c s) (mkPool (<[i := (W_gone_write, true)]> ws) ps c s)
  | s_cancel_proc ws ps c s i j :
      ws !! i = Some (W_proc j, true) ->
      step cap true (mkPool ws ps c s) (mkPool (<[i := (W_gone_proc j, true)]> ws) ps c s)
  | s_call ws ps c s k j :
      ps !! k = Some P_idle ->
      step cap false (mkPool ws ps c s) (mkPool ws (<[k := P_lock j]> ps) c s)
  | s_spurious ws ps c s i b :
      ws !! i = Some (W_wait, b) ->
      step cap false (mkPool ws ps c s) (mkPool (<[i := (W_wake, b)]> ws) ps c s)
  | s_stop p : step cap false p (pool_stop p).

Definition runs (cap : nat) : Pool -> Pool -> Prop := rtc (fun p q => exists k, step cap k p q).

(** [WorkerPool]: [start] and [stop] as the calls see them. *)
Record WorkerPool := mkWorkerPool { num_workers : Z; tids : list Z; started : bool }.

Definition new_WorkerPool : WorkerPool := mkWorkerPool 0 [] false.

(** [create] tells what [pthread_create] returns and which thread it makes. *)
Definition pool_start_call (n : Z) (create : list (Z * Z)) (p : WorkerPool) : Z * WorkerPool :=
  if started p then (0, mkWorkerPool n (tids p) true)
  else (0, mkWorkerPool n
             (tids p ++ (snd <$> filter (fun c => fst c = 0) (ztake n create))) true).

(** The threads that [stop] cancels, and the pool. *)
Definition pool_stop_call (p : WorkerPool) : list Z * Z * WorkerPool :=
  (tids p, 0, mkWorkerPool (num_workers p) (tids p) false).
End Pool.
Arguments Worker : clear implicits.
Arguments Producer : clear implicits.
Arguments Shared : clear implicits.
Arguments Pool : clear implicits.

Module PoolSpec.
Section Pool.
Context {JOB : Type} `{EqDecision JOB}.
Implicit Types (p q : Pool JOB) (s : Shared JOB) (w : Worker JOB * bool).

Definition cnt (x : JOB) (l : list JOB) : nat := count_occ (fun a b => decide (a = b)) l x.
Lemma cnt_app x l k : cnt x (l ++ k) = (cnt x l + cnt x k)%nat.
Proof. apply count_occ_app. Qed.
Lemma cnt_nil x : cnt x [] = 0%nat.
Proof. reflexivity. Qed.
Lemma cnt_cons x y l : cnt x (y :: l) = (cnt x [y] + cnt x l)%nat.
Proof. apply (cnt_app x [y]). Qed.

(** The job a worker carries, and the one that is lost with a worker. *)
Definition carries (w : Worker JOB * bool) : list JOB :=
  match fst w with W_unlock j | W_proc j | W_rlock j => [j] | _ => [] end.
Definition loses (w : Worker JOB * bool) : list JOB :=
  match fst w with W_gone_proc j => [j] | _ => [] end.
Definition carried (w : Worker JOB * bool) : list JOB := carries w ++ loses w.
Definition in_flight p : list JOB := mjoin (carried <$> workers p).
Definition at_work p : list JOB := mjoin (carries <$> workers p).
Definition lost p : list JOB := mjoin (loses <$> workers p).

(** Who holds a mutex, who has queued a result without its byte (or read a byte
    without its result), who is awake. *)
Definition holds_jobs (w : Worker JOB * bool) : nat :=
  match fst w with W_test | W_unlock _ | W_gone => 1 | _ => 0 end.
Definition pushes_jobs (pc : Producer JOB) : nat := match pc with P_unlock => 1 | _ => 0 end.
Definition holds_results (w : Worker JOB * bool) : nat :=
  match fst w with W_write | W_runlock | W_gone_write => 1 | _ => 0 end.
Definition pops_results (c : Consumer) : nat := match c with C_test | C_unlock => 1 | _ => 0 end.
Definition owes_byte (w : Worker JOB * bool) : nat :=
  match fst w with W_write | W_gone_write => 1 | _ => 0 end.
Definition owed_result (c : Consumer) : nat := match c with C_lock | C_test => 1 | _ => 0 end.
Definition awake (w : Worker JOB * bool) : nat := match fst w with W_wait => 0 | _ => 1 end.
Definition signals (pc : Producer JOB) : nat := match pc with P_unlock | P_signal => 1 | _ => 0 end.

Record inv (cap : nat) p : Prop := {
  i_jobs : (tally holds_jobs (workers p) + tally pushes_jobs (producers p) = b2n (jobs_mutex (shared p)))%nat;
  i_results : (tally holds_results (workers p) + pops_results (consumer p) = b2n (results_mutex (shared p)))%nat;
  i_pipe : (pipe (shared p) + owed_result (consumer p) + tally owes_byte (workers p) =
            length (results (shared p)))%nat;
  i_cap : (pipe (shared p) <= cap)%nat;
  i_count x : (cnt x (pushed (shared p)) = cnt x (delivered (shared p)) + cnt x (results (shared p)) +
    tally (fun w => cnt x (carried w)) (workers p) + cnt x (jobs (shared p)))%nat;
  i_failed : failed (shared p) = false;
  i_wake : jobs (shared p) = [] \/ (0 < tally awake (workers p) + tally signals (producers p))%nat \/
    workers p = []
}.

(** The books after a thread has moved. *)
Ltac books ws i w' H :=
  pose proof (tally_insert holds_jobs ws i _ w' H);
  pose proof (tally_insert holds_results ws i _ w' H);
  pose proof (tally_insert owes_byte ws i _ w' H);
  pose proof (fun x => tally_insert (fun w => cnt x (carried w)) ws i _ w' H);
  pose proof (tally_insert awake ws i _ w' H);
  pose proof (tally_ge holds_jobs ws i _ H);
  pose proof (tally_ge holds_results ws i _ H);
  pose proof (tally_ge owes_byte ws i _ H);
  pose proof (tally_ge awake ws i _ H).
Ltac pbooks ps i p' H :=
  pose proof (tally_insert pushes_jobs ps i _ p' H);
  pose proof (tally_insert signals ps i _ p' H);
  pose proof (tally_ge pushes_jobs ps i _ H);
  pose proof (tally_ge signals ps i _ H).
Ltac simpl_books :=
  cbn [workers producers consumer shared jobs jobs_mutex results results_mutex pipe pushed delivered
       failed set_jobs set_results set_pipe carried carries loses holds_jobs pushes_jobs holds_results pops_results
       owes_byte owed_result awake signals fst snd b2n length app] in *.

(** One field of the invariant after a step. *)
Ltac settle s :=
  simpl_books; rewrite ?length_app in *;
  try (let x := fresh "x" in intros x;
       repeat match goal with Hy : forall x : JOB, _ |- _ => specialize (Hy x) end);
  repeat match goal with
  | E : jobs s = _, H : context [jobs s] |- _ => lazymatch H with E => fail | _ => rewrite E in H end
  | E : jobs_mutex s = _, H : context [jobs_mutex s] |- _ => lazymatch H with E => fail | _ => rewrite E in H end
  | E : results s = _, H : context [results s] |- _ => lazymatch H with E => fail | _ => rewrite E in H end
  | E : results_mutex s = _, H : context [results_mutex s] |- _ => lazymatch H with E => fail | _ => rewrite E in H end
  | E : pipe s = _, H : context [pipe s] |- _ => lazymatch H with E => fail | _ => rewrite E in H end
  end;
  repeat match goal with
  | Hx : bool_decide _ = true |- _ => apply bool_decide_eq_true in Hx
  | Hx : context [cnt ?x (?y :: ?z :: ?l)] |- _ => rewrite (cnt_cons x y (z :: l)) in Hx
  | Hx : context [cnt ?x (?y :: ?l)] |- _ => lazymatch l with [] => fail | _ => rewrite (cnt_cons x y l) in Hx end
  end;
  pose proof (b2n_le (jobs_mutex s)); pose proof (b2n_le (results_mutex s));
  rewrite ?cnt_app, ?cnt_nil in *; simpl_books;
  first [assumption | lia | by left | right; left; lia | by right; right
        | match goal with Hor : jobs s = [] \/ _ \/ _ |- _ =>
            destruct Hor as [? | [? | ?]]; [by left | right; left; lia | by right; right] end
        | idtac].

Lemma inv_start cap n k : inv cap (pool_start n k).
Proof.
  unfold pool_start. split; simpl_books; intros; rewrite ?tally_replicate by done; try done; [lia | by left].
Qed.

Lemma inv_worker cap ws ps c s i pc b pc' s' : inv cap (mkPool ws ps c s) ->
  ws !! i = Some (pc, b) -> worker_step cap pc s = Some (pc', s') ->
  inv cap (mkPool (<[i := (pc', b)]> ws) ps c s').
Proof.
  intros [H1 H2 H3 H4 H5 H6 H7] Hi E. books ws i (pc', b) Hi.
  assert (forall k w, <[k := w]> ws = [] -> ws = []) as Hne by (by intros [|] w; destruct ws).
  assert (ws <> []) as Hws by (by intros ->).
  destruct pc; cbn [worker_step] in E; repeat case_match; try discriminate E; injection E as <- <-; split; settle s.
Qed.

Lemma inv_producer cap ws ps c s i pc pc' s' : inv cap (mkPool ws ps c s) ->
  ps !! i = Some pc -> producer_step pc s = Some (pc', s') ->
  inv cap (mkPool ws (<[i := pc']> ps) c s').
Proof.
  intros [H1 H2 H3 H4 H5 H6 H7] Hi E. pbooks ps i pc' Hi.
  destruct pc; cbn [producer_step] in E; repeat case_match; try discriminate E; injection E as <- <-; split; settle s.
Qed.

Lemma inv_consumer cap ws ps c s c' s' : inv cap (mkPool ws ps c s) ->
  consumer_step c s = Some (c', s') -> inv cap (mkPool ws ps c' s').
Proof.
  intros [H1 H2 H3 H4 H5 H6 H7] E.
  destruct c; cbn [consumer_step] in E; repeat case_match; try discriminate E; injection E as <- <-; split; settle s.
Qed.

Lemma inv_step cap k p q : step cap k p q -> inv cap p -> inv cap q.
Proof.
  intros Hs Hp. destruct Hs as [ws ps c s i pc b pc' s' Hi E | ws ps c s i pc pc' s' Hi E | ws ps c s k i b Hk Hi
    | ws ps c s k Hk Hn | ws ps c s c' s' E | ws ps c s i Hi | ws ps c s i Hi | ws ps c s i j Hi | ws ps c s k j Hk | ws ps c s i b Hi | p].
  - by eapply inv_worker.
  - by eapply inv_producer.
  - destruct Hp as [H1 H2 H3 H4 H5 H6 H7]. books ws i (W_wake (JOB := JOB), b) Hi.
    pbooks ps k (P_idle (JOB := JOB)) Hk. split; settle s.
  - destruct Hp as [H1 H2 H3 H4 H5 H6 H7]. pbooks ps k (P_idle (JOB := JOB)) Hk. split; settle s.
    destruct ws as [| [w b] ws]; [by right; right |]. right; left. rewrite tally_cons.
    assert (w <> W_wait) by (intros ->; by apply (Hn 0%nat b)). unfold awake. destruct w; cbn; first [done | lia].
  - by eapply inv_consumer.
  - destruct Hp as [H1 H2 H3 H4 H5 H6 H7]. books ws i (W_cancel (JOB := JOB), true) Hi. split; settle s.
  - destruct Hp as [H1 H2 H3 H4 H5 H6 H7]. books ws i (W_gone_write (JOB := JOB), true) Hi. split; settle s.
  - destruct Hp as [H1 H2 H3 H4 H5 H6 H7]. books ws i (W_gone_proc (JOB := JOB) j, true) Hi. split; settle s.
  - destruct Hp as [H1 H2 H3 H4 H5 H6 H7]. pbooks ps k (P_lock (JOB := JOB) j) Hk. split; settle s.
  - destruct Hp as [H1 H2 H3 H4 H5 H6 H7]. books ws i (W_wake (JOB := JOB), b) Hi. split; settle s.
  - destruct p as [ws ps c s]. destruct Hp as [H1 H2 H3 H4 H5 H6 H7]. unfold pool_stop.
    split; simpl_books; intros; rewrite ?tally_map; try done.
    destruct H7 as [? | [? | ->]]; [by left | by right; left | by right; right].
Qed.

Lemma inv_runs cap p q : runs cap p q -> inv cap p -> inv cap q.
Proof. induction 1 as [| p p' q [k Hs] _ IH]; [done |]. intros Hp. apply IH. by eapply inv_step. Qed.

(** ** Safety *)

Lemma cnt_mjoin x (l : list (list JOB)) : cnt x (mjoin l) = sum_list (cnt x <$> l).
Proof. induction l as [| y l IH]; [done |]. change (mjoin (y :: l)) with (y ++ mjoin l). rewrite cnt_app, IH. done. Qed.

Lemma cnt_in_flight x p : cnt x (in_flight p) = tally (fun w => cnt x (carried w)) (workers p).
Proof. unfold in_flight, tally. rewrite cnt_mjoin, <- list_fmap_compose. done. Qed.

Lemma cnt_Permutation (l k : list JOB) : (forall x, cnt x l = cnt x k) -> l ≡ₚ k.
Proof. intros H. apply (Permutation_count_occ (fun a b => decide (a = b))), H. Qed.

Lemma in_flight_split p : in_flight p ≡ₚ at_work p ++ lost p.
Proof.
  unfold in_flight, at_work, lost. induction (workers p) as [| w ws IH]; [done |].
  change (carried w ++ mjoin (carried <$> ws) ≡ₚ (carries w ++ mjoin (carries <$> ws)) ++ loses w ++ mjoin (loses <$> ws)).
  rewrite IH. unfold carried. rewrite <- !app_assoc. f_equiv. rewrite !(app_assoc (loses w)). 
  rewrite (Permutation_app_comm (mjoin (carries <$> ws)) _). solve_Permutation.
Qed.

(** Only a worker that was cancelled loses its job. *)
Definition lost_by_stop p : Prop := forall i j b, workers p !! i = Some (W_gone_proc j, b) -> b = true.

Lemma lost_by_stop_insert ws ps ps' c c' s s' i w : lost_by_stop (mkPool ws ps c s) ->
  (forall j b, w = (W_gone_proc j, b) -> b = true) -> lost_by_stop (mkPool (<[i := w]> ws) ps' c' s').
Proof.
  intros Hl Hw i' j b Hi. cbn in Hi. apply list_lookup_insert_Some in Hi as [(_ & -> & _) | [_ Hi]]; [by eapply Hw | by eapply Hl].
Qed.

Lemma lost_by_stop_step cap k p q : step cap k p q -> lost_by_stop p -> lost_by_stop q.
Proof.
  destruct 1; intros Hl; try exact Hl;
    try (eapply lost_by_stop_insert; [exact Hl |]; intros ? ? [=]; subst; done).
  - eapply lost_by_stop_insert; [exact Hl |]. intros j b' [= -> ->].
    destruct pc; cbn in *; repeat case_match; simplify_eq.
  - intros i j b Hi. cbn in Hi. apply list_lookup_fmap_Some in Hi as (w & Hw & _). by injection Hw.
Qed.

Lemma lost_by_stop_runs cap p q : runs cap p q -> lost_by_stop p -> lost_by_stop q.
Proof. induction 1 as [| p p' q [k Hs] _ IH]; [done |]. intros Hp. apply IH. by eapply lost_by_stop_step. Qed.

(** C6: whatever threads push, whatever order the scheduler runs them in, with
    spurious wakeups and calls of [stop] at any time: no job is duplicated or made up,
    and none is lost but for one at each worker that [stop] cancels inside [proc] (those
    pushed are those delivered, waiting, carried by a worker or lost so, and a worker
    that has lost its job was cancelled); of all threads, workers, producers and the
    consumer, exactly one holds a mutex that is locked and none one that is not; and the
    byte that [pop] reads always has its result in the queue, so that its error branch is
    never taken. *)
Theorem pool_safe cap n k p : runs cap (pool_start n k) p ->
  pushed (shared p) ≡ₚ
    delivered (shared p) ++ results (shared p) ++ at_work p ++ lost p ++ jobs (shared p) /\
  (forall i j b, workers p !! i = Some (W_gone_proc j, b) -> b = true) /\
  failed (shared p) = false /\ (pipe (shared p) <= length (results (shared p)))%nat /\
  (tally holds_jobs (workers p) + tally pushes_jobs (producers p) = b2n (jobs_mutex (shared p)))%nat /\
  (tally holds_results (workers p) + pops_results (consumer p) = b2n (results_mutex (shared p)))%nat.
Proof.
  intros Hr. split_and!; [| | apply inv_runs in Hr as []; try apply inv_start; try done; lia ..].
  - pose proof (in_flight_split p) as Hf. apply inv_runs in Hr as [_ _ _ _ H5 _ _]; [| apply inv_start].
    rewrite (app_assoc (at_work p)), <- Hf. apply cnt_Permutation. intros x. rewrite !cnt_app, cnt_in_flight, H5. lia.
  - apply (lost_by_stop_runs _ _ _ Hr). intros i j b [Hi _]%lookup_replicate_1. discriminate Hi.
Qed.

(** ** Progress *)

Definition running p : Prop := Forall (fun w => snd w = false /\ fst w <> W_cancel /\ fst w <> W_gone /\ fst w <> W_gone_write /\ loses w = []) (workers p).

(** A worker that is neither waiting for a job nor stuck behind a mutex can move. *)
Lemma worker_moves cap ws ps c s i pc b pc' s' : ws !! i = Some (pc, b) ->
  worker_step cap pc s = Some (pc', s') -> exists q, step cap true (mkPool ws ps c s) q.
Proof. intros. eexists. by eapply s_worker. Qed.

Lemma producer_moves cap ws ps c s i pc pc' s' : ps !! i = Some pc ->
  producer_step pc s = Some (pc', s') -> exists q, step cap true (mkPool ws ps c s) q.
Proof. intros. eexists. by eapply s_producer. Qed.

Definition waits (w : Worker JOB * bool) : nat := match fst w with W_wait => 1 | _ => 0 end.

Lemma signal_moves cap ws ps c s k : ps !! k = Some P_signal -> exists q, step cap true (mkPool ws ps c s) q.
Proof.
  intros Hk. destruct (tally waits ws) as [| n] eqn:E.
  - eexists. eapply s_signal_none; [exact Hk |]. intros i b Hi.
    pose proof (tally_ge waits ws i _ Hi) as Hw. cbn in Hw. lia.
  - destruct (tally_pos waits ws) as (i & [w b] & Hi & Hw); [lia |]. destruct w; cbn in Hw; try lia.
    eexists. by eapply s_signal.
Qed.

(** The holder of the mutex of the jobs can move. *)
Lemma jobs_holder_moves cap p : inv cap p -> running p -> jobs_mutex (shared p) = true ->
  exists q, step cap true p q.
Proof.
  intros [H1 _ _ _ _ _ _] Hrun Hm. destruct p as [ws ps c s]. simpl_books. rewrite Hm in H1. cbn in H1.
  destruct (tally holds_jobs ws) as [| n] eqn:Et.
  - destruct (tally_pos pushes_jobs ps) as (i & pc & Hi & Hpc); [lia |].
    destruct pc; cbn in Hpc; try lia. by eapply producer_moves.
  - destruct (tally_pos holds_jobs ws) as (i & [pc b] & Hi & Hpc); [lia |].
    pose proof (Forall_lookup_1 _ _ _ _ Hrun Hi) as (_ & Hc & Hg & _). cbn [fst] in *.
    destruct pc; unfold holds_jobs in Hpc; cbn [fst] in Hpc; try lia; try done.
    + destruct (jobs s) eqn:Ej; eapply worker_moves; [exact Hi | cbn; by rewrite Ej | exact Hi | cbn; by rewrite Ej].
    + by eapply worker_moves.
Qed.

(** The holder of the mutex of the results can move, or the consumer makes room for
    it, unless two results or more exceed the capacity. *)
Lemma results_holder_moves cap p : inv cap p -> running p -> (0 < cap)%nat ->
  (length (results (shared p)) <= S cap)%nat -> results_mutex (shared p) = true -> exists q, step cap true p q.
Proof.
  intros [_ H2 H3 H4 _ _ _] Hrun H0 Hcap Hm. destruct p as [ws ps c s]. simpl_books. rewrite Hm in H2. cbn in H2.
  destruct (tally holds_results ws) as [| n] eqn:Et.
  - destruct c; cbn in H2; try lia.
    + destruct (results s) eqn:Er; eexists; eapply s_consumer; cbn; by rewrite Er.
    + eexists. by eapply s_consumer.
  - destruct (tally_pos holds_results ws) as (i & [pc b] & Hi & Hpc); [lia |].
    pose proof (Forall_lookup_1 _ _ _ _ Hrun Hi) as (_ & Hc & Hg & Hg' & Hl).
    pose proof (tally_ge owes_byte ws i _ Hi) as Ho. cbn [fst] in *.
    destruct pc; unfold holds_results in Hpc; cbn [fst] in Hpc; try lia; try done; [| by eapply worker_moves].
    unfold owes_byte in Ho at 1. cbn [fst] in Ho. destruct (decide (pipe s < cap)%nat) as [Hlt | Hge].
    + eapply worker_moves; [exact Hi |]. cbn. by rewrite bool_decide_true.
    + destruct c; cbn in H2, H3; try lia.
      destruct (pipe s) eqn:Ep; [lia |]. eexists. eapply s_consumer. cbn. by rewrite Ep.
Qed.

Lemma step_workers cap k p q : step cap k p q -> length (workers q) = length (workers p).
Proof. destruct 1; cbn; rewrite ?length_insert, ?length_fmap; done. Qed.

Lemma runs_workers cap p q : runs cap p q -> length (workers q) = length (workers p).
Proof. induction 1 as [| p p' q [k Hs] _ IH]; [done |]. by rewrite IH, (step_workers _ _ _ _ Hs). Qed.

(** With both mutexes free, a worker that is not waiting for a job can move. *)
Lemma free_worker_moves cap p : inv cap p -> running p -> jobs_mutex (shared p) = false ->
  results_mutex (shared p) = false -> (0 < tally awake (workers p))%nat -> exists q, step cap true p q.
Proof.
  intros [_ H2 _ _ _ _ _] Hrun Hj Hr Ha. destruct p as [ws ps c s]. simpl_books. rewrite Hr in H2. cbn in H2.
  destruct (tally_pos awake ws Ha) as (i & [pc b] & Hi & Hpc).
  pose proof (Forall_lookup_1 _ _ _ _ Hrun Hi) as (_ & Hc & Hg & Hg' & Hl).
  pose proof (tally_ge holds_results ws i _ Hi) as Hh. cbn [fst] in *.
  destruct pc; cbn in Hpc, Hh; try lia; try done;
    try (eapply worker_moves; [exact Hi | cbn; rewrite ?Hj, ?Hr; reflexivity]).
  destruct (jobs s) eqn:Ej; eapply worker_moves; [exact Hi | cbn; by rewrite Ej | exact Hi | cbn; by rewrite Ej].
Qed.

(** With both mutexes free, so can a thread in [push]. *)
Lemma free_producer_moves cap ws ps c s i pc : jobs_mutex s = false -> ps !! i = Some pc -> pc <> P_idle ->
  exists q, step cap true (mkPool ws ps c s) q.
Proof.
  intros Hj Hi Hpc. destruct pc; [done | | |].
  - eapply producer_moves; [exact Hi |]. cbn. by rewrite Hj.
  - by eapply producer_moves.
  - by eapply signal_moves.
Qed.

(** With the mutex of the results free, so can the consumer when there is a result. *)
Lemma free_consumer_moves cap p : inv cap p -> results_mutex (shared p) = false ->
  tally owes_byte (workers p) = 0%nat -> results (shared p) <> [] -> exists q, step cap true p q.
Proof.
  intros [_ _ H3 _ _ _ _] Hr Ho Hne. destruct p as [ws ps c s]. simpl_books.
  destruct c; simpl_books.
  - destruct (pipe s) as [| n] eqn:Ep; [destruct (results s); [done | cbn in H3; lia] |].
    eexists. eapply s_consumer. cbn. by rewrite Ep.
  - eexists. eapply s_consumer. cbn. by rewrite Hr.
  - destruct (results s) eqn:Er; eexists; eapply s_consumer; cbn; by rewrite Er.
  - eexists. by eapply s_consumer.
Qed.

(** C5: no deadlock and no lost wakeup: as long as the pool has a worker and is not
    stopped, and at most one job more is outstanding than the pipe has room for, some
    thread can always go on by itself while a call of [push] is under way or a job has
    not been delivered. *)
Theorem pool_progress cap n k p : runs cap (pool_start n k) p -> running p -> (0 < n)%nat -> (0 < cap)%nat ->
  (length (pushed (shared p)) <= S cap + length (delivered (shared p)))%nat ->
  (exists i pc, producers p !! i = Some pc /\ pc <> P_idle) \/
    (length (delivered (shared p)) < length (pushed (shared p)))%nat ->
  exists q, step cap true p q.
Proof.
  intros Hr Hrun Hn H0 Hcap Hwork. pose proof (runs_workers _ _ _ Hr) as Hlen. cbn in Hlen.
  rewrite length_replicate in Hlen. pose proof (inv_runs _ _ _ Hr (inv_start cap n k)) as Hinv.
  assert (pushed (shared p) ≡ₚ delivered (shared p) ++ results (shared p) ++ in_flight p ++ jobs (shared p)) as Hp.
  { apply cnt_Permutation. intros x. rewrite !cnt_app, cnt_in_flight, (i_count _ _ Hinv). lia. }
  apply Permutation_length in Hp. rewrite !length_app in Hp.
  destruct (jobs_mutex (shared p)) eqn:Hj; [by apply jobs_holder_moves |].
  destruct (results_mutex (shared p)) eqn:Hm; [apply results_holder_moves; [done.. | lia | done] |].
  destruct (tally awake (workers p)) as [| a] eqn:Ha; [| apply free_worker_moves; [done.. | lia]].
  assert (Hall : forall i w, workers p !! i = Some w -> fst w = W_wait).
  { intros i w Hi. pose proof (tally_ge awake _ i w Hi) as Hw. rewrite Ha in Hw.
    destruct w as [[] ?]; cbn in Hw |- *; first [done | lia]. }
  destruct Hwork as [(i & pc & Hi & Hpc) | Hlt]; [destruct p; by eapply free_producer_moves |].
  assert (tally owes_byte (workers p) = 0)%nat as Ho.
  { destruct (tally owes_byte (workers p)) eqn:E; [done |].
    destruct (tally_pos owes_byte (workers p)) as (i & [w b] & Hi & Hw); [lia |].
    pose proof (Hall i _ Hi) as Hx. cbn in Hx. subst w. cbn in Hw. lia. }
  assert (in_flight p = []) as Hfl.
  { unfold in_flight. clear - Hall. induction (workers p) as [| w ws IH]; [done |].
    change (carried w ++ mjoin (carried <$> ws) = []). pose proof (Hall 0%nat w eq_refl) as Hw.
    destruct w as [? ?]. cbn in Hw. subst. cbn [carried fst app]. apply IH. intros i w. apply (Hall (S i)). }
  rewrite Hfl in Hp. cbn in Hp. destruct (results (shared p)) as [| x l] eqn:Er;
    [| by apply free_consumer_moves; rewrite ?Er].
  destruct (i_wake _ _ Hinv) as [Hjobs | [Hw | Hw]].
  - rewrite Hjobs in Hp. cbn in Hp. lia.
  - destruct (tally_pos signals (producers p)) as (i & pc & Hi & Hpc); [lia |].
    destruct p. eapply free_producer_moves; [done | exact Hi |]. intros ->. cbn in Hpc. lia.
  - rewrite Hw in Hlen. cbn in Hlen. lia.
Qed.

(** ** Deadlock *)

(** One worker and one thread that pushes, both at rest. *)
Definition at_rest (c : Consumer) (r : list JOB) (n : nat) (pu de : list JOB) : Pool JOB :=
  mkPool [(W_lock, false)] [P_idle] c (mkShared [] false r false n pu de false).

Lemma runs_step cap k p p' q : step cap k p p' -> runs cap p' q -> runs cap p q.
Proof. intros Hs Hr. eapply rtc_l; [by exists k | exact Hr]. Qed.

Lemma runs_trans cap (p q r : Pool JOB) : runs cap p q -> runs cap q r -> runs cap p r.
Proof. induction 1 as [| p p' q Hs _ IH]; [done |]. intros Hr. eapply rtc_l; [exact Hs | by apply IH]. Qed.

(** A job is pushed and the worker queues it as a result, up to the byte. *)
Lemma cycle_write cap c j r n pu de :
  runs cap (at_rest c r n pu de)
    (mkPool [(W_write, false)] [P_idle] c (mkShared [] false (r ++ [j]) true n (pu ++ [j]) de false)).
Proof.
  eapply runs_step; [by apply (s_call cap _ _ _ _ 0 j) |].
  do 2 (eapply runs_step; [eapply (s_producer cap _ _ _ _ 0); reflexivity |]).
  eapply runs_step; [apply (s_signal_none cap _ _ _ _ 0); [reflexivity | intros [| i] b; cbn; done] |].
  do 5 (eapply runs_step; [eapply (s_worker cap _ _ _ _ 0); reflexivity |]).
  apply rtc_refl.
Qed.

Lemma cycle cap c j r n pu de : (n < cap)%nat ->
  runs cap (at_rest c r n pu de) (at_rest c (r ++ [j]) (S n) (pu ++ [j]) de).
Proof.
  intros Hn. eapply runs_trans; [apply (cycle_write cap c j) |].
  eapply runs_step; [eapply (s_worker cap _ _ _ _ 0); [reflexivity |]; cbn; by rewrite bool_decide_true |].
  eapply runs_step; [eapply (s_worker cap _ _ _ _ 0); reflexivity |]. apply rtc_refl.
Qed.

Lemma cycles cap js : forall r n pu, (n + length js <= cap)%nat ->
  runs cap (at_rest C_idle r n pu []) (at_rest C_idle (r ++ js) (n + length js) (pu ++ js) []).
Proof.
  induction js as [| j js IH]; intros r n pu Hn; cbn in *.
  - rewrite !app_nil_r, Nat.add_0_r. apply rtc_refl.
  - eapply runs_trans; [apply (cycle cap C_idle j); lia |].
    replace (n + S (length js))%nat with (S n + length js)%nat by lia.
    rewrite (cons_middle j r js), (cons_middle j pu js), !app_assoc. apply IH. lia.
Qed.

(** The consumer reads its byte before it takes the mutex that a worker holds
    while it writes one: with two jobs more outstanding than the pipe has room for,
    the pool can reach a state, neither stopped nor idle, in which the worker waits for
    room in the pipe, the consumer for the mutex the worker holds, and no thread can
    ever go on. *)
Theorem pool_deadlock cap js a b : length js = S cap ->
  exists p, runs (S cap) (pool_start 1 1) p /\ running p /\
    pushed (shared p) = js ++ [a; b] /\ delivered (shared p) = [] /\
    (forall q, ~ step (S cap) true p q).
Proof.
  intros Hjs.
  exists (mkPool [(W_write, false)] [P_idle] C_lock
    (mkShared [] false (js ++ [a; b]) true (S cap) (js ++ [a; b]) [] false)).
  split_and!; try done.
  - eapply runs_trans; [apply (cycles (S cap) js [] 0 []); lia |]. cbn [app]. rewrite Hjs.
    eapply runs_step; [eapply s_consumer; reflexivity |].
    eapply runs_trans; [apply (cycle (S cap) C_lock a js cap js []); lia |].
    change [a; b] with ([a] ++ [b]). rewrite app_assoc. apply cycle_write.
  - by repeat constructor.
  - intros q Hs. inversion Hs as [? ? ? ? i ? ? ? ? Hi E | ? ? ? ? i ? ? ? Hi E | ? ? ? ? k i ? Hk Hi | ? ? ? ? k Hk Hn
      | ? ? ? ? ? ? E | ? ? ? ? i Hi | ? ? ? ? i Hi | ? ? ? ? i ? Hi | | |]; subst.
    + destruct i; [| done]. injection Hi as <- <-. cbn in E. by rewrite bool_decide_false in E by lia.
    + destruct i; [| done]. by injection Hi as <-.
    + by destruct k.
    + by destruct k.
    + done.
    + by destruct i.
    + by destruct i.
    + by destruct i.
Qed.

(** ** Stopping *)

(** A worker that is gone with the mutex of the jobs. *)
Definition gone_at (i : nat) p : Prop := exists b, workers p !! i = Some (W_gone, b).

Lemma gone_locked cap i p : inv cap p -> gone_at i p -> jobs_mutex (shared p) = true.
Proof.
  intros [H1 _ _ _ _ _ _] [b Hi]. pose proof (tally_ge holds_jobs _ i _ Hi) as Hh. cbn in Hh.
  destruct (jobs_mutex (shared p)); [done | cbn in H1; lia].
Qed.

Lemma gone_step cap k i p q : inv cap p -> gone_at i p -> step cap k p q ->
  gone_at i q /\ pushed (shared q) = pushed (shared p) /\
  (forall m j, producers p !! m = Some (P_lock j) -> producers q !! m = Some (P_lock j)).
Proof.
  intros Hinv Hg Hs. pose proof (gone_locked _ _ _ Hinv Hg) as Hm. clear Hinv. unfold gone_at in *.
  destruct Hs as [ws ps c s i' pc b pc' s' Hi E | ws ps c s i' pc pc' s' Hi E | ws ps c s m i' b Hk Hi
    | ws ps c s m Hk Hn | ws ps c s c' s' E | ws ps c s i' Hi | ws ps c s i' Hi | ws ps c s i' j Hi | ws ps c s m j Hk | ws ps c s i' b Hi | p];
    simpl_books; destruct Hg as [bg Hg].
  - split_and!; [| | done].
    + exists bg. rewrite list_lookup_insert_ne; [done |]. intros ->. rewrite Hi in Hg. injection Hg as -> ->. done.
    + destruct pc; cbn in E; repeat case_match; try discriminate E; by injection E as <- <-.
  - destruct pc; cbn in E; rewrite ?Hm in E; try discriminate E. injection E as <- <-.
    split_and!; [by exists bg | done |]. intros m j Hk. rewrite list_lookup_insert_ne; [done |]. intros ->. congruence.
  - split_and!; [exists bg; rewrite list_lookup_insert_ne; [done | intros ->; congruence] | done |].
    intros m' j Hk'. rewrite list_lookup_insert_ne; [done |]. intros ->. congruence.
  - split_and!; [by exists bg | done |].
    intros m' j Hk'. rewrite list_lookup_insert_ne; [done |]. intros ->. congruence.
  - split_and!; [by exists bg | | done].
    destruct c; cbn in E; repeat case_match; try discriminate E; by injection E as <- <-.
  - split_and!; [exists bg; rewrite list_lookup_insert_ne; [done | intros ->; congruence] | done..].
  - split_and!; [exists bg; rewrite list_lookup_insert_ne; [done | intros ->; congruence] | done..].
  - split_and!; [exists bg; rewrite list_lookup_insert_ne; [done | intros ->; congruence] | done..].
  - split_and!; [by exists bg | done |].
    intros m' j' Hk'. rewrite list_lookup_insert_ne; [done |]. intros ->. congruence.
  - split_and!; [exists bg; rewrite list_lookup_insert_ne; [done | intros ->; congruence] | done..].
  - split_and!; [exists true | done..]. unfold pool_stop. cbn. by rewrite list_lookup_fmap, Hg.
Qed.

Lemma gone_runs cap i p q : inv cap p -> gone_at i p -> runs cap p q ->
  pushed (shared q) = pushed (shared p) /\
  (forall m j, producers p !! m = Some (P_lock j) -> producers q !! m = Some (P_lock j)).
Proof.
  intros Hinv Hg Hr. induction Hr as [| p p' q [k Hs] _ IH]; [done |].
  destruct (gone_step cap k i p p' Hinv Hg Hs) as (Hg' & Hp & Hk).
  destruct IH as (IHp & IHk); [by eapply inv_step | done |]. split; [congruence | auto].
Qed.

(** [stop] cancels a worker that waits for a job inside [pthread_cond_wait], which
    takes the mutex back before the thread ends; nothing releases it.  From then on no
    [push] ever completes, even after another [start]: every call blocks for good. *)
Theorem stop_blocks_push cap n k p i b : runs cap (pool_start n k) p ->
  workers p !! i = Some (W_wait, b) -> jobs_mutex (shared p) = false ->
  exists q, runs cap (pool_stop p) q /\ shared q = set_jobs (jobs (shared p)) true (shared p) /\
    producers q = producers p /\
    forall q', runs cap q q' -> pushed (shared q') = pushed (shared q) /\
      (forall m j, producers q !! m = Some (P_lock j) -> producers q' !! m = Some (P_lock j)).
Proof.
  intros Hr Hi Hm. pose proof (inv_runs _ _ _ Hr (inv_start cap n k)) as Hinv.
  set (ws := (fun w => (fst w, true)) <$> workers p).
  assert (ws !! i = Some (W_wait, true)) as Hw by (subst ws; by rewrite list_lookup_fmap, Hi).
  assert (i < length ws)%nat as Hlt by by eapply lookup_lt_Some.
  set (q := mkPool (<[i := (W_gone, true)]> (<[i := (W_cancel, true)]> ws)) (producers p) (consumer p)
              (set_jobs (jobs (shared p)) true (shared p))).
  assert (runs cap (pool_stop p) q) as Hq.
  { eapply runs_step; [by eapply s_cancel_wait |].
    eapply runs_step; [| apply rtc_refl]. eapply (s_worker cap _ _ _ _ i); [by apply list_lookup_insert_eq |].
    cbn. by rewrite Hm. }
  exists q. split_and!; [done.. |]. intros q' Hq'. apply (gone_runs cap i q q'); [| | done].
  - apply (inv_runs _ _ _ Hq). eapply inv_step; [by apply s_stop | done].
  - exists true. subst q. cbn. apply list_lookup_insert_eq. by rewrite length_insert.
Qed.

(** A worker that [stop] cancels inside [proc] takes its job with it: nobody answers it. *)
Theorem stop_loses_job cap p i j b : workers p !! i = Some (W_proc j, b) ->
  exists q, runs cap p q /\ j ∈ lost q /\ shared q = shared p.
Proof.
  intros Hi. set (ws := (fun w => (fst w, true)) <$> workers p).
  assert (ws !! i = Some (W_proc j, true)) as Hw by (subst ws; by rewrite list_lookup_fmap, Hi).
  exists (mkPool (<[i := (W_gone_proc j, true)]> ws) (producers p) (consumer p) (shared p)). split; [| split; [| done]].
  - eapply runs_step; [apply s_stop |]. eapply runs_step; [by eapply s_cancel_proc | apply rtc_refl].
  - unfold lost. cbn [workers]. apply list_elem_of_join. exists [j]. split; [by left |].
    apply list_elem_of_fmap. exists (W_gone_proc j, true). split; [done |].
    apply list_elem_of_lookup_2 with i. apply list_lookup_insert_eq. by eapply lookup_lt_Some.
Qed.

(** ** Order *)

Lemma fifo_step cap k p q : step cap k p q -> length (workers p) = 1%nat ->
  pushed (shared p) = delivered (shared p) ++ results (shared p) ++ in_flight p ++ jobs (shared p) ->
  pushed (shared q) = delivered (shared q) ++ results (shared q) ++ in_flight q ++ jobs (shared q).
Proof.
  intros Hs Hlen. unfold in_flight.
  destruct Hs as [ws ps c s i pc b pc' s' Hi E | ws ps c s i pc pc' s' Hi E | ws ps c s m i b Hk Hi
    | ws ps c s m Hk Hn | ws ps c s c' s' E | ws ps c s i Hi | ws ps c s i Hi | ws ps c s i j Hi | ws ps c s m j Hk | ws ps c s i b Hi | p];
    simpl_books; try done.
  - destruct ws as [| w [|]]; try done. destruct i; [| done]. injection Hi as ->.
    destruct pc; cbn in E; repeat case_match; try discriminate E; injection E as <- <-; cbn;
      repeat match goal with Hx : jobs s = _ |- _ => rewrite Hx end; intros ->; rewrite <- ?app_assoc; done.
  - destruct pc; cbn in E; repeat case_match; try discriminate E; injection E as <- <-; cbn; intros ->;
      by rewrite <- ?app_assoc.
  - destruct ws as [| w [|]]; try done. destruct i; [| done]. by injection Hi as ->.
  - destruct c; cbn in E; repeat case_match; try discriminate E; injection E as <- <-; cbn;
      repeat match goal with Hx : results s = _ |- _ => rewrite Hx end; intros ->; by rewrite <- ?app_assoc.
  - destruct ws as [| w [|]]; try done. destruct i; [| done]. by injection Hi as ->.
  - destruct ws as [| w [|]]; try done. destruct i; [| done]. by injection Hi as ->.
  - destruct ws as [| w [|]]; try done. destruct i; [| done]. by injection Hi as ->.
  - destruct ws as [| w [|]]; try done. destruct i; [| done]. by injection Hi as ->.
  - destruct p as [ws ps c s]. cbn in *. destruct ws as [| [w b] [|]]; done.
Qed.

(** A pool of one worker is a queue: the results are delivered in the order in
    which the jobs were queued. *)
Theorem pool_fifo cap k p : runs cap (pool_start 1 k) p ->
  pushed (shared p) = delivered (shared p) ++ results (shared p) ++ in_flight p ++ jobs (shared p).
Proof.
  intros Hr. assert (length (workers (pool_start (JOB := JOB) 1 k)) = 1%nat) as Hlen by done.
  assert (forall p q, runs cap p q -> length (workers p) = 1%nat ->
    pushed (shared p) = delivered (shared p) ++ results (shared p) ++ in_flight p ++ jobs (shared p) ->
    pushed (shared q) = delivered (shared q) ++ results (shared q) ++ in_flight q ++ jobs (shared q)) as Hall.
  { induction 1 as [| p1 p2 q [k' Hs] _ IH]; [done |]. intros Hl E. apply IH.
    - by rewrite (step_workers _ _ _ _ Hs).
    - by eapply fifo_step. }
  by apply (Hall _ _ Hr).
Qed.
End Pool.
End PoolSpec.

(** * Instances *)
Module ThreadSamples.
Import PoolSpec.

(** A run of two workers: one job is queued, taken and turned into a result. *)
Definition mid : Pool Z :=
  mkPool [(W_rlock 7, false); (W_wait, false)] [P_idle] C_idle (mkShared [] false [] false 0 [7] [] false).

Lemma mid_reached : runs 4 (pool_start 2 1) mid.
Proof.
  do 2 (eapply runs_step; [eapply (s_worker 4 _ _ _ _ 1); reflexivity |]).
  eapply runs_step; [by apply (s_call 4 _ _ _ _ 0 7) |].
  do 2 (eapply runs_step; [eapply (s_producer 4 _ _ _ _ 0); reflexivity |]).
  do 4 (eapply runs_step; [eapply (s_worker 4 _ _ _ _ 0); reflexivity |]).
  eapply runs_step; [eapply (s_signal 4 _ _ _ _ 0 1); reflexivity |].
  do 2 (eapply runs_step; [eapply (s_worker 4 _ _ _ _ 1); reflexivity |]).
  apply rtc_refl.
Qed.

Lemma pool_safe_witness :
  pushed (shared mid) ≡ₚ
    delivered (shared mid) ++ results (shared mid) ++ at_work mid ++ lost mid ++ jobs (shared mid) /\
  failed (shared mid) = false.
Proof.
  destruct (pool_safe 4 2 1 mid) as (H1 & _ & H2 & _); [exact mid_reached | exact (conj H1 H2)].
Defined.

Lemma pool_progress_witness : exists q, step 4 true mid q.
Proof.
  apply (pool_progress 4 2 1 mid).
  - exact mid_reached.
  - by repeat constructor.
  - lia.
  - lia.
  - cbn. lia.
  - right. cbn. lia.
Defined.

Lemma pool_deadlock_witness : exists p : Pool Z, runs 2 (pool_start 1 1) p /\ running p /\
  pushed (shared p) = [1; 2] ++ [3; 4] /\ delivered (shared p) = [] /\ (forall q, ~ step 2 true p q).
Proof. apply (pool_deadlock 1 [1; 2] 3 4). reflexivity. Defined.

Lemma stop_blocks_push_witness : exists q : Pool Z, runs 4 (pool_stop mid) q /\
  forall q', runs 4 q q' -> pushed (shared q') = pushed (shared q).
Proof.
  destruct (stop_blocks_push 4 2 1 mid 1 false) as (q & Hq & _ & _ & H).
  - exact mid_reached.
  - reflexivity.
  - reflexivity.
  - exists q. split; [exact Hq | intros q' Hr; exact (proj1 (H q' Hr))].
Defined.

(** The worker that was about to queue its result, a step before. *)
Definition in_proc : Pool Z :=
  mkPool [(W_proc 7, false); (W_wait, false)] [P_idle] C_idle (mkShared [] false [] false 0 [7] [] false).
Lemma stop_loses_job_witness : exists q : Pool Z, runs 4 in_proc q /\ 7 ∈ lost q /\ shared q = shared in_proc.
Proof. apply (stop_loses_job 4 in_proc 0 7 false). reflexivity. Defined.

Definition one : Pool Z := at_rest C_idle [1; 2] 2 [1; 2] [].
Lemma pool_fifo_witness : pushed (shared one) = delivered (shared one) ++ results (shared one) ++ in_flight one ++ jobs (shared one).
Proof. apply (pool_fifo 4 1 one). apply (cycles 4 [1; 2] [] 0 []). cbn. lia. Defined.
End ThreadSamples.
