(* ===== verification/ThreadPool.v ===== *)
(** The thread pool of [cnm/util/threadpool.c]: workers that take the works which
    [ae_work_submit] puts into a queue of [queue.h], in the order in which they
    were submitted.

    The pool is a system of threads (workers that run [worker], callers of
    [ae_work_submit]) whose steps are the calls of pthreads and the accesses to
    shared memory between which another thread can run.  The queue is the pointer
    structure of [NgxQueue], on a heap that all threads share. *)
From stdpp Require Import list relations.
From S2P Require Import Prelude CHeap NgxQueue.

(** What the compiler and the platform decide: the address of the static [wq], the
    offset of the member [queue], and the sizes of two types of pthreads. *)
Class Layout := {
  wq : loc;
  queue_offset : positive;
  sizeof_pthread_t : Z;
  sizeof_pthread_mutex_t : Z
}.

(** [&w->queue], and [ngx_queue_data(q, ae_work_t, queue)]. *)
Definition queue_of `{Layout} (w : loc) : loc := (w + queue_offset)%positive.
Definition ngx_queue_data `{Layout} (q : loc) : loc := (q - queue_offset)%positive.

Section Pool.
Context `{Layout} {Fn : Type}.

(** [ae_work_t]; its member [queue] is a cell of the heap of the queues. *)
Record ae_work_t := mkWork { work : option Fn; done : option Fn }.

(** The variables that threads share: cells of queues, works by their address, the
    mutex and the counter; and what happened: the works queued (with the function
    they were to run), taken and started, in order. *)
Record Statics := mkStatics {
  cells : gmap loc ngx_queue_t; works : gmap loc ae_work_t; mutex : bool; idle_threads : Z;
  submitted : list (loc * Fn); taken : list loc; started : list (loc * Fn) }.

Definition set_mutex (b : bool) (s : Statics) : Statics :=
  mkStatics (cells s) (works s) b (idle_threads s) (submitted s) (taken s) (started s).
(** [unsigned int] *)
Definition to_uint (z : Z) : Z := z mod 2 ^ 32.
Definition set_idle (z : Z) (s : Statics) : Statics :=
  mkStatics (cells s) (works s) (mutex s) (to_uint z) (submitted s) (taken s) (started s).

(** Where a worker is: before [pthread_mutex_lock], at the test of the inner loop, in
    [pthread_cond_wait], woken and taking the mutex back, before [ngx_queue_head],
    before [pthread_mutex_unlock], before the call of [work], in it. *)
Inductive Worker :=
  | W_lock | W_test | W_wait | W_wake | W_take | W_unlock (w : loc) | W_call (w : loc) | W_work.

(** The next step of a worker; none when it is blocked. *)
Definition worker_step (pc : Worker) (s : Statics) : exec (option (Worker * Statics)) :=
  match pc with
  | W_lock => Done (if mutex s then None else Some (W_test, set_mutex true s))
  | W_test =>
      let* (empty, _) := ngx_queue_empty (Some wq) (cells s) in
      Done (Some (if empty : bool then (W_wait, set_mutex false (set_idle (idle_threads s + 1) s))
                  else (W_take, s)))
  | W_wait => Done None
  | W_wake => Done (if mutex s then None else Some (W_test, set_idle (idle_threads s - 1) (set_mutex true s)))
  | W_take =>
      let* (q, _) := ngx_queue_head (Some wq) (cells s) in
      match q with
      | None => UB
      | Some q =>
          let w := ngx_queue_data q in
          let* (_, c) := ngx_queue_remove (Some (queue_of w)) (cells s) in
          Done (Some (W_unlock w, mkStatics c (works s) (mutex s) (idle_threads s) (submitted s)
                                    (taken s ++ [w]) (started s)))
      end
  | W_unlock w => Done (Some (W_call w, set_mutex false s))
  | W_call w =>
      match works s !! w ≫= work with
      | Some f => Done (Some (W_work, mkStatics (cells s) (works s) (mutex s) (idle_threads s) (submitted s)
                                        (taken s) (started s ++ [(w, f)])))
      | None => UB
      end
  | W_work => Done (Some (W_lock, s))
  end.

(** A caller of [ae_work_submit]: at rest, before the two assignments, before
    [pthread_mutex_lock], before the insertion, before the test of [idle_threads],
    before [pthread_mutex_unlock]. *)
Inductive Caller :=
  | S_idle | S_call (w : loc) (f : Fn) (d : option Fn) | S_lock (w : loc) (f : Fn)
  | S_insert (w : loc) (f : Fn) | S_signal | S_unlock.

Definition ae_work_submit (pc : Caller) (s : Statics) : exec (option (Caller * Statics)) :=
  match pc with
  | S_idle => Done None
  | S_call w f d =>
      if decide (is_Some (works s !! w)) then
        Done (Some (S_lock w f, mkStatics (cells s) (<[w := mkWork (Some f) d]> (works s)) (mutex s)
                                  (idle_threads s) (submitted s) (taken s) (started s)))
      else UB
  | S_lock w f => Done (if mutex s then None else Some (S_insert w f, set_mutex true s))
  | S_insert w f =>
      let* (_, c) := ngx_queue_insert_tail (Some wq) (Some (queue_of w)) (cells s) in
      Done (Some (S_signal, mkStatics c (works s) (mutex s) (idle_threads s) (submitted s ++ [(w, f)])
                              (taken s) (started s)))
  | S_signal => Done (if 0 <? idle_threads s then None else Some (S_unlock, s))
  | S_unlock => Done (Some (S_idle, set_mutex false s))
  end.

Record Pool := mkPool { workers : list Worker; callers : list Caller; statics : Statics }.

(** The works between the call of [ae_work_submit] and the call of [work]. *)
Definition of_caller (pc : Caller) : list (loc * Fn) :=
  match pc with S_call w f _ | S_lock w f | S_insert w f => [(w, f)] | _ => [] end.
Definition carried (pc : Worker) : list loc :=
  match pc with W_unlock w | W_call w => [w] | _ => [] end.
Definition waiting (s : Statics) : list loc := drop (length (taken s)) (submitted s).*1.
Definition pending (p : Pool) : list loc :=
  (mjoin (of_caller <$> callers p)).*1 ++ waiting (statics p) ++ mjoin (carried <$> workers p).

(** What [ae_work_submit] requires of its callers: a work of its own that is not
    already on its way. *)
Definition submittable (w : loc) (p : Pool) : Prop :=
  is_Some (works (statics p) !! w) /\ is_Some (cells (statics p) !! queue_of w) /\
  queue_of w <> wq /\ w ∉ pending p.

(** The steps: [true] for those that need no new call and no spurious wakeup.
    [pthread_cond_signal] wakes a thread when one waits. *)
Inductive step : bool -> Pool -> Pool -> Prop :=
  | s_worker ws cs s i pc pc' s' :
      ws !! i = Some pc -> worker_step pc s = Done (Some (pc', s')) ->
      step true (mkPool ws cs s) (mkPool (<[i := pc']> ws) cs s')
  | s_caller ws cs s k pc pc' s' :
      cs !! k = Some pc -> ae_work_submit pc s = Done (Some (pc', s')) ->
      step true (mkPool ws cs s) (mkPool ws (<[k := pc']> cs) s')
  | s_signal ws cs s k i :
      cs !! k = Some S_signal -> 0 < idle_threads s -> ws !! i = Some W_wait ->
      step true (mkPool ws cs s) (mkPool (<[i := W_wake]> ws) (<[k := S_unlock]> cs) s)
  | s_signal_none ws cs s k :
      cs !! k = Some S_signal -> 0 < idle_threads s -> (forall i, ws !! i <> Some W_wait) ->
      step true (mkPool ws cs s) (mkPool ws (<[k := S_unlock]> cs) s)
  | s_call ws cs s k w f d :
      cs !! k = Some S_idle -> submittable w (mkPool ws cs s) ->
      step false (mkPool ws cs s) (mkPool ws (<[k := S_call w f d]> cs) s)
  | s_spurious ws cs s i :
      ws !! i = Some W_wait -> step false (mkPool ws cs s) (mkPool (<[i := W_wake]> ws) cs s).

Definition runs : Pool -> Pool -> Prop := rtc (fun p q => exists b, step b p q).

(** [ae_init_threads]: [ARRAY_SIZE(default_threads)], the stores that
    [pthread_create] makes through [threads + i], and what it returns. *)
Definition nthreads : Z := 4.

Fixpoint create_loop (creates : list Z) (i : Z) (n : nat) {struct n} : exec bool :=
  match n with
  | O => Done true
  | S n =>
      if i * sizeof_pthread_mutex_t + sizeof_pthread_t <=? nthreads * sizeof_pthread_t then
        match creates with
        | [] => Done false
        | err :: creates => if negb (err =? 0) then Done false else create_loop creates (i + 1) n
        end
      else UB
  end.

(** The pool, with [k] threads that will submit works, or [None] when the process has
    aborted. *)
Definition ae_init_threads (creates : list Z) (k : nat) (c : gmap loc ngx_queue_t)
    (ws : gmap loc ae_work_t) : exec (option Pool) :=
  let* (_, c) := ngx_queue_init (Some wq) c in
  let* ok := create_loop creates 0 (Z.to_nat nthreads) in
  Done (if ok : bool
        then Some (mkPool (replicate (Z.to_nat nthreads) W_lock) (replicate k S_idle)
                     (mkStatics c ws false 0 [] [] []))
        else None).
End Pool.
Arguments ae_work_t : clear implicits.
Arguments Statics : clear implicits.
Arguments Caller : clear implicits.
Arguments Pool : clear implicits.

(** * What the pool promises *)
Module WorkPoolSpec.
Section Pool.
Context `{Layout} {Fn : Type}.
Implicit Types (p r : Pool Fn) (s : Statics Fn) (t q c : list (loc * Fn)).

(** Who holds the mutex, who sleeps, who is about to look at the queue, who has
    queued a work without a signal. *)
Definition holds (w : Worker) : nat := match w with W_test | W_take | W_unlock _ => 1 | _ => 0 end.
Definition submits (c : Caller Fn) : nat := match c with S_insert _ _ | S_signal | S_unlock => 1 | _ => 0 end.
Definition sleeps (w : Worker) : nat := match w with W_wait => 1 | _ => 0 end.
Definition woken (w : Worker) : nat := match w with W_wake => 1 | _ => 0 end.
Definition takes (w : Worker) : nat := match w with W_take => 1 | _ => 0 end.
Definition looks (w : Worker) : nat := match w with W_lock | W_test | W_wake | W_take => 1 | _ => 0 end.
Definition signals (c : Caller Fn) : nat := match c with S_signal => 1 | _ => 0 end.

(** The works that have been passed to [ae_work_submit] and are not queued yet. *)
Definition coming p : list (loc * Fn) := mjoin (of_caller <$> callers p).
(** A work that will run [f]. *)
Definition will_run s (e : loc * Fn) : Prop := works s !! e.1 ≫= work = Some e.2.
(** The callers past the assignments. *)
Definition assigned (c : Caller Fn) : list (loc * Fn) :=
  match c with S_lock w f | S_insert w f => [(w, f)] | _ => [] end.

(** [t] are the works taken, [q] those in the queue, [c] those that workers carry. *)
Record inv_with (t q c : list (loc * Fn)) p : Prop := {
  v_mutex : (tally holds (workers p) + tally submits (callers p) = b2n (mutex (statics p)))%nat;
  v_idle : idle_threads (statics p) = Z.of_nat (tally sleeps (workers p) + tally woken (workers p));
  v_few : Z.of_nat (length (workers p)) < 2 ^ 32;
  v_submitted : submitted (statics p) = t ++ q;
  v_taken : taken (statics p) = t.*1;
  v_ring : QueueSpec.ring (cells (statics p)) wq (queue_of <$> q.*1);
  v_take : (0 < tally takes (workers p))%nat -> q <> [];
  v_pending : NoDup (pending p);
  v_works w : w ∈ pending p -> is_Some (works (statics p) !! w) /\
    QueueSpec.cell (cells (statics p)) (queue_of w) /\ queue_of w <> wq;
  v_run e : e ∈ mjoin (assigned <$> callers p) ++ q ++ c -> will_run (statics p) e;
  v_carried : c.*1 ≡ₚ mjoin (carried <$> workers p);
  v_started : t ≡ₚ started (statics p) ++ c;
  v_wake : (0 < tally sleeps (workers p))%nat ->
    (length q <= tally looks (workers p) + tally signals (callers p))%nat
}.
Definition inv p : Prop := exists t q c, inv_with t q c p.

(** The numbers after a thread has moved. *)
Ltac wbooks ws i w' H :=
  pose proof (tally_insert holds ws i _ w' H); pose proof (tally_insert sleeps ws i _ w' H);
  pose proof (tally_insert woken ws i _ w' H); pose proof (tally_insert takes ws i _ w' H);
  pose proof (tally_insert looks ws i _ w' H).
Ltac cbooks cs k c' H :=
  pose proof (tally_insert submits cs k _ c' H); pose proof (tally_insert signals cs k _ c' H).
Ltac simpl_books :=
  cbn [workers callers statics cells works mutex idle_threads submitted taken started set_mutex set_idle
       holds submits sleeps woken takes looks signals b2n carried of_caller assigned] in *.

Lemma carried_insert ws i pc pc' : ws !! i = Some pc -> carried pc' = carried pc ->
  mjoin (carried <$> <[i := pc']> ws) ≡ₚ mjoin (carried <$> ws).
Proof. intros Hi E. pose proof (mjoin_insert carried ws i pc pc' Hi) as P. rewrite E in P. by apply app_inv_tail in P || by eapply Permutation_app_inv_r. Qed.

(** Only the mutex and the counter differ. *)
Definition same s s' : Prop :=
  cells s' = cells s /\ works s' = works s /\ submitted s' = submitted s /\ taken s' = taken s /\ started s' = started s.

(** A worker moves and changes nothing else. *)
Lemma inv_control t q c ws cs s s' i pc pc' : inv_with t q c (mkPool ws cs s) ->
  ws !! i = Some pc -> carried pc' = carried pc -> same s s' ->
  (tally holds (<[i := pc']> ws) + tally submits cs = b2n (mutex s'))%nat ->
  idle_threads s' = Z.of_nat (tally sleeps (<[i := pc']> ws) + tally woken (<[i := pc']> ws)) ->
  ((0 < tally takes (<[i := pc']> ws))%nat -> q <> []) ->
  ((0 < tally sleeps (<[i := pc']> ws))%nat ->
    (length q <= tally looks (<[i := pc']> ws) + tally signals cs)%nat) ->
  inv_with t q c (mkPool (<[i := pc']> ws) cs s').
Proof.
  intros [H1 H2 H3 H4 H5 H6 H7 H8 H9 H10 H11 H12 H13] Hi Ec (E1 & E2 & E3 & E4 & E5) Hm Hn Ht Hw.
  pose proof (carried_insert ws i pc pc' Hi Ec) as Hp.
  assert (pending (mkPool (<[i := pc']> ws) cs s') ≡ₚ pending (mkPool ws cs s)) as Hpe
    by (unfold pending, waiting; cbn [callers workers statics]; by rewrite Hp, E3, E4).
  split; cbn [workers callers statics] in *; rewrite ?E1, ?E2, ?E3, ?E4, ?E5; try done.
  - by rewrite length_insert.
  - by rewrite Hpe.
  - intros w Hw'. apply H9. by rewrite <- Hpe.
  - intros e He. unfold will_run. rewrite E2. by apply H10.
  - by rewrite Hp.
Qed.

Lemma tally_sleepers ws : (tally sleeps ws + tally woken ws <= length ws)%nat.
Proof.
  induction ws as [| w ws IH]; [done |]. rewrite !tally_cons. cbn [length].
  destruct w; cbn [sleeps woken]; lia.
Qed.

Lemma to_uint_id z : 0 <= z < 2 ^ 32 -> to_uint z = z.
Proof. apply Z.mod_small. Qed.

Lemma waiting_eq s t q : submitted s = t ++ q -> taken s = t.*1 -> waiting s = q.*1.
Proof. unfold waiting. intros -> ->. by rewrite fmap_app, drop_app_length. Qed.

Lemma empty_queue t q c p : inv_with t q c p ->
  ngx_queue_empty (Some wq) (cells (statics p)) = Done (bool_decide (q = []), cells (statics p)).
Proof.
  intros Hv. rewrite (QueueSpec.empty_ring _ _ _ (v_ring _ _ _ _ Hv)). do 2 f_equal. apply bool_decide_ext.
  by destruct q.
Qed.

Lemma data_queue_of w : ngx_queue_data (queue_of w) = w.
Proof. apply Pos.add_sub. Qed.

Lemma take_head t q c w f p : inv_with t ((w, f) :: q) c p -> exists h,
  ngx_queue_head (Some wq) (cells (statics p)) = Done (Some (queue_of w), cells (statics p)) /\
  ngx_queue_remove (Some (queue_of w)) (cells (statics p)) = Done (tt, h) /\
  QueueSpec.ring h wq (queue_of <$> q.*1) /\
  forall y, QueueSpec.cell h y <-> QueueSpec.cell (cells (statics p)) y.
Proof.
  intros Hv. pose proof (v_ring _ _ _ _ Hv) as Hr. cbn in Hr.
  destruct (QueueSpec.remove_ring _ _ [] _ _ Hr) as (h & E & Hr' & _ & Hc).
  exists h. by rewrite (QueueSpec.head_ring _ _ _ Hr).
Qed.

Lemma inv_take t q c w f ws cs s i h : inv_with t ((w, f) :: q) c (mkPool ws cs s) ->
  ws !! i = Some W_take -> QueueSpec.ring h wq (queue_of <$> q.*1) ->
  (forall y, QueueSpec.cell h y <-> QueueSpec.cell (cells s) y) ->
  inv_with (t ++ [(w, f)]) q ((w, f) :: c) (mkPool (<[i := W_unlock w]> ws) cs
    (mkStatics h (works s) (mutex s) (idle_threads s) (submitted s) (taken s ++ [w]) (started s))).
Proof.
  intros [H1 H2 H3 H4 H5 H6 H7 H8 H9 H10 H11 H12 H13] Hi Hr Hc. simpl_books.
  pose proof (mjoin_insert carried ws i _ (W_unlock w) Hi) as Hj. cbn [carried] in Hj. rewrite app_nil_r in Hj.
  assert (pending (mkPool (<[i := W_unlock w]> ws) cs (mkStatics h (works s) (mutex s) (idle_threads s)
    (submitted s) (taken s ++ [w]) (started s))) ≡ₚ pending (mkPool ws cs s)) as Hpe.
  { unfold pending. cbn [callers workers statics]. rewrite Hj.
    rewrite (waiting_eq s t ((w, f) :: q)) by done.
    rewrite (waiting_eq _ (t ++ [(w, f)]) q); [cbn; solve_Permutation | | ]; simpl_books.
    - rewrite H4, <- app_assoc. done.
    - by rewrite H5, fmap_app. }
  wbooks ws i (W_unlock w) Hi. simpl_books.
  pose proof (b2n_le (mutex s)).
  split; simpl_books; try done.
  - lia.
  - lia.
  - by rewrite length_insert.
  - by rewrite H4, <- app_assoc.
  - by rewrite H5, fmap_app.
  - intros Ht. assert (tally takes ws <= tally holds ws)%nat.
    { clear. induction ws as [| x ws IH]; [done |]. rewrite !tally_cons. destruct x; cbn [takes holds]; lia. }
    lia.
  - by rewrite Hpe.
  - intros x Hx. rewrite Hc. apply H9. by rewrite <- Hpe.
  - intros e He. apply H10. revert He. rewrite !elem_of_app, !elem_of_cons. tauto.
  - cbn. rewrite H11, Hj. solve_Permutation.
  - rewrite H12. solve_Permutation.
  - intros Hs. specialize (H13 ltac:(lia)). cbn [length] in H13. lia.
Qed.

Lemma inv_started t q c w ws cs s i : inv_with t q c (mkPool ws cs s) -> ws !! i = Some (W_call w) ->
  exists f c', works s !! w ≫= work = Some f /\ inv_with t q c' (mkPool (<[i := W_work]> ws) cs
    (mkStatics (cells s) (works s) (mutex s) (idle_threads s) (submitted s) (taken s) (started s ++ [(w, f)]))).
Proof.
  intros [H1 H2 H3 H4 H5 H6 H7 H8 H9 H10 H11 H12 H13] Hi. simpl_books.
  pose proof (mjoin_insert carried ws i _ W_work Hi) as Hj. cbn [carried] in Hj. rewrite app_nil_r in Hj.
  assert (w ∈ c.*1) as Hw by (rewrite H11, <- Hj; apply elem_of_app; right; left).
  apply list_elem_of_fmap in Hw as ([w' f] & -> & Hw). apply list_elem_of_split in Hw as (c1 & c2 & ->).
  exists f, (c1 ++ c2). split.
  { apply (H10 (w', f)). apply elem_of_app. right. apply elem_of_app. right. apply elem_of_app. right. left. }
  cbn in Hj, Hi. pose proof (waiting_eq s t q H4 H5) as Hwait.
  set (s' := mkStatics (cells s) (works s) (mutex s) (idle_threads s) (submitted s) (taken s) (started s ++ [(w', f)])).
  assert (pending (mkPool ws cs s) ≡ₚ w' :: pending (mkPool (<[i := W_work]> ws) cs s')) as Hpe.
  { unfold pending. cbn [callers workers statics]. rewrite <- Hj. unfold waiting. subst s'. simpl_books. solve_Permutation. }
  assert (mjoin (carried <$> <[i := W_work]> ws) ++ [w'] ≡ₚ (c1 ++ c2).*1 ++ [w']) as Hc
    by (rewrite Hj, <- H11, !fmap_app; cbn; solve_Permutation).
  apply Permutation_app_inv_r in Hc.
  wbooks ws i W_work Hi. simpl_books. split; subst s'; simpl_books; try done.
  - lia.
  - lia.
  - by rewrite length_insert.
  - intros Ht. apply H7. lia.
  - rewrite Hpe in H8. by apply NoDup_cons in H8 as [_ H8].
  - intros x Hx. apply H9. rewrite Hpe. by right.
  - intros e He. apply H10. revert He. rewrite !elem_of_app, elem_of_cons. tauto.
  - rewrite H12. solve_Permutation.
  - intros Hs. specialize (H13 ltac:(lia)). lia.
Qed.

Lemma takes_holds ws : (tally takes ws <= tally holds ws)%nat.
Proof. induction ws as [| x ws IH]; [done |]. rewrite !tally_cons. destruct x; cbn [takes holds]; lia. Qed.

(** The conditions of [inv_control]. *)
Ltac numbers H7 H13 := simpl_books;
  first [done | lia | cbn [length]; lia | rewrite to_uint_id; lia | intros; apply H7; lia | intros; specialize (H13 ltac:(lia)); cbn in *; lia | idtac].
Ltac control t q c ws s i pc' Hi H7 H13 :=
  do 2 eexists; split; [reflexivity |]; exists t, q, c; wbooks ws i pc' Hi; simpl_books;
  eapply (inv_control t q c ws _ s _ i _ pc'); [eassumption | eassumption | reflexivity | done | | | |]; numbers H7 H13.

(** A step of a worker that can run; and none can fail. *)
Lemma tp_inv_worker ws cs s i pc : inv (mkPool ws cs s) -> ws !! i = Some pc ->
  worker_step pc s = Done None \/
  exists pc' s', worker_step pc s = Done (Some (pc', s')) /\ inv (mkPool (<[i := pc']> ws) cs s').
Proof.
  intros (t & q & c & Hv) Hi. pose proof Hv as [H1 H2 H3 H4 H5 H6 H7 H8 H9 H10 H11 H12 H13].
  pose proof (empty_queue _ _ _ _ Hv) as Ee. pose proof (tally_ge holds ws i pc Hi) as Hh.
  pose proof (tally_sleepers (<[i := W_wait]> ws)) as Hl. rewrite length_insert in Hl.
  pose proof (tally_sleepers ws) as Hl'.
  pose proof (takes_holds ws) as Hth. pose proof (b2n_le (mutex s)) as Hm.
  destruct pc; cbn [worker_step]; simpl_books.
  - destruct (mutex s) eqn:Em; [by left |]. right. control t q c ws s i W_test Hi H7 H13.
  - right. rewrite Ee. cbn [ebind]. destruct (decide (q = [])) as [-> | Hq].
    + rewrite bool_decide_true by done. control t (@nil (loc * Fn)) c ws s i W_wait Hi H7 H13.
    + rewrite bool_decide_false by done. control t q c ws s i W_take Hi H7 H13.
  - by left.
  - destruct (mutex s) eqn:Em; [by left |]. right. control t q c ws s i W_test Hi H7 H13.
  - right. destruct q as [| [w f] q].
    { destruct H7; [| done]. pose proof (tally_ge takes ws i _ Hi) as Ht. cbn [takes] in Ht. lia. }
    destruct (take_head _ _ _ _ _ _ Hv) as (h & E1 & E2 & Hr & Hc). cbn [statics cells] in *. rewrite E1.
    cbn [ebind]. rewrite data_queue_of, E2. cbn [ebind]. do 2 eexists. split; [done |].
    exists (t ++ [(w, f)]), q, ((w, f) :: c). by apply inv_take.
  - right. control t q c ws s i (W_call w) Hi H7 H13.
  - right. destruct (inv_started t q c w ws cs s i Hv Hi) as (f & c' & E & Hv'). rewrite E.
    do 2 eexists. split; [done |]. by exists t, q, c'.
  - right. control t q c ws s i W_lock Hi H7 H13.
Qed.

(** The same for a caller. *)
Lemma inv_caller_control t q c ws cs s k pc pc' m : inv_with t q c (mkPool ws cs s) ->
  cs !! k = Some pc -> of_caller pc' = of_caller pc -> assigned pc' = assigned pc ->
  (tally holds ws + tally submits (<[k := pc']> cs) = b2n m)%nat ->
  (tally signals cs <= tally signals (<[k := pc']> cs))%nat ->
  inv_with t q c (mkPool ws (<[k := pc']> cs) (set_mutex m s)).
Proof.
  intros [H1 H2 H3 H4 H5 H6 H7 H8 H9 H10 H11 H12 H13] Hi Ec Ea Hm Hs.
  pose proof (mjoin_insert of_caller cs k _ pc' Hi) as Hj. rewrite Ec in Hj. apply Permutation_app_inv_r in Hj.
  pose proof (mjoin_insert assigned cs k _ pc' Hi) as Hj'. rewrite Ea in Hj'. apply Permutation_app_inv_r in Hj'.
  assert (pending (mkPool ws (<[k := pc']> cs) (set_mutex m s)) ≡ₚ pending (mkPool ws cs s)) as Hpe
    by (unfold pending; cbn [callers workers statics]; rewrite Hj; reflexivity).
  split; simpl_books; try done.
  - by rewrite Hpe.
  - intros w Hw. apply H9. by rewrite <- Hpe.
  - intros e He. apply H10. by rewrite <- Hj'.
  - intros Hsl. specialize (H13 Hsl). lia.
Qed.

(** The caller and the worker it wakes. *)
Lemma inv_signalled t q c ws cs s k i : inv_with t q c (mkPool ws cs s) ->
  cs !! k = Some S_signal -> ws !! i = Some W_wait ->
  inv_with t q c (mkPool (<[i := W_wake]> ws) (<[k := S_unlock]> cs) s).
Proof.
  intros Hv Hk Hi. pose proof Hv as [H1 H2 H3 H4 H5 H6 H7 H8 H9 H10 H11 H12 H13]. simpl_books.
  pose proof (carried_insert ws i W_wait W_wake Hi eq_refl) as Hp.
  pose proof (mjoin_insert of_caller cs k _ S_unlock Hk) as Hj. cbn [of_caller] in Hj. apply Permutation_app_inv_r in Hj.
  pose proof (mjoin_insert assigned cs k _ S_unlock Hk) as Hj'. cbn [assigned] in Hj'. apply Permutation_app_inv_r in Hj'.
  assert (pending (mkPool (<[i := W_wake]> ws) (<[k := S_unlock]> cs) s) ≡ₚ pending (mkPool ws cs s)) as Hpe
    by (unfold pending; cbn [callers workers statics]; by rewrite Hp, Hj).
  wbooks ws i W_wake Hi. cbooks cs k (@S_unlock Fn) Hk. simpl_books.
  split; simpl_books; try done.
  - lia.
  - lia.
  - by rewrite length_insert.
  - intros Ht. apply H7. lia.
  - by rewrite Hpe.
  - intros w Hw. apply H9. by rewrite <- Hpe.
  - intros e He. apply H10. by rewrite <- Hj'.
  - by rewrite Hp.
  - intros Hs. specialize (H13 ltac:(lia)). lia.
Qed.

Lemma inv_signal_none t q c ws cs s k : inv_with t q c (mkPool ws cs s) ->
  cs !! k = Some S_signal -> tally sleeps ws = 0%nat -> inv_with t q c (mkPool ws (<[k := S_unlock]> cs) s).
Proof.
  intros [H1 H2 H3 H4 H5 H6 H7 H8 H9 H10 H11 H12 H13] Hk Hs. simpl_books.
  pose proof (mjoin_insert of_caller cs k _ S_unlock Hk) as Hj. cbn [of_caller] in Hj. apply Permutation_app_inv_r in Hj.
  pose proof (mjoin_insert assigned cs k _ S_unlock Hk) as Hj'. cbn [assigned] in Hj'. apply Permutation_app_inv_r in Hj'.
  assert (pending (mkPool ws (<[k := S_unlock]> cs) s) ≡ₚ pending (mkPool ws cs s)) as Hpe
    by (unfold pending; cbn [callers workers statics]; by rewrite Hj).
  cbooks cs k (@S_unlock Fn) Hk. simpl_books. split; simpl_books; try done.
  - lia.
  - by rewrite Hpe.
  - intros w Hw. apply H9. by rewrite <- Hpe.
  - intros e He. apply H10. by rewrite <- Hj'.
  - lia.
Qed.

Lemma assigned_coming (cs : list (Caller Fn)) e : e ∈ mjoin (assigned <$> cs) -> e ∈ mjoin (of_caller <$> cs).
Proof.
  induction cs as [| x cs IH]; [by intros ?%elem_of_nil |]. rewrite !fmap_cons, !mjoin_cons, !elem_of_app.
  intros [He | He]; [left | by right; apply IH].
  destruct x; first [exact He | by apply elem_of_nil in He].
Qed.

(** The work that a caller is about to assign to is nobody else's. *)
Lemma assigned_apart t q c ws cs s k w f d e : inv_with t q c (mkPool ws cs s) ->
  cs !! k = Some (S_call w f d) -> e ∈ mjoin (assigned <$> cs) ++ q ++ c -> e.1 <> w.
Proof.
  intros Hv Hi He <-. destruct Hv as [_ _ _ H4 H5 _ _ H8 _ _ H11 _ _]. simpl_books.
  pose proof (mjoin_insert of_caller cs k _ S_idle Hi) as Hr. cbn [of_caller] in Hr. rewrite app_nil_r in Hr.
  pose proof (mjoin_insert assigned cs k _ S_idle Hi) as Hr'. cbn [assigned] in Hr'.
  apply Permutation_app_inv_r in Hr'.
  assert (pending (mkPool ws cs s) ≡ₚ e.1 :: ((mjoin (of_caller <$> <[k := S_idle]> cs)) ++ q ++ c).*1) as El.
  { unfold pending. cbn [callers workers statics]. rewrite (waiting_eq s t q), <- H11, <- Hr by done.
    rewrite !fmap_app. cbn. solve_Permutation. }
  rewrite El in H8. apply NoDup_cons in H8 as [H8 _]. apply H8, list_elem_of_fmap_2.
  rewrite <- Hr' in He. rewrite !elem_of_app in He |- *.
  destruct He as [He | He]; [left; by apply assigned_coming | by right].
Qed.

(** The two assignments. *)
Lemma inv_assign t q c ws cs s k w f d : inv_with t q c (mkPool ws cs s) ->
  cs !! k = Some (S_call w f d) -> is_Some (works s !! w) ->
  inv_with t q c (mkPool ws (<[k := S_lock w f]> cs)
    (mkStatics (cells s) (<[w := mkWork (Some f) d]> (works s)) (mutex s) (idle_threads s) (submitted s)
       (taken s) (started s))).
Proof.
  intros Hv Hi Hw. pose proof (fun e => assigned_apart _ _ _ _ _ _ _ _ _ _ e Hv Hi) as Hne.
  destruct Hv as [H1 H2 H3 H4 H5 H6 H7 H8 H9 H10 H11 H12 H13]. simpl_books.
  pose proof (mjoin_insert of_caller cs k _ (S_lock w f) Hi) as Hj. cbn [of_caller] in Hj.
  apply Permutation_app_inv_r in Hj.
  pose proof (mjoin_insert assigned cs k _ (S_lock w f) Hi) as Hj'. cbn [assigned] in Hj'. rewrite app_nil_r in Hj'.
  set (s' := mkStatics _ _ _ _ _ _ _).
  assert (pending (mkPool ws (<[k := S_lock w f]> cs) s') ≡ₚ pending (mkPool ws cs s)) as Hpe
    by (unfold pending, waiting; cbn [callers workers statics]; by rewrite Hj).
  cbooks cs k (S_lock w f) Hi. subst s'. split; simpl_books; try done.
  - lia.
  - by rewrite Hpe.
  - intros x Hx. rewrite lookup_insert_is_Some'. split; [right |]; apply H9; by rewrite <- Hpe.
  - intros e He. unfold will_run. cbn [works]. rewrite Hj' in He.
    assert (e = (w, f) \/ e ∈ mjoin (assigned <$> cs) ++ q ++ c) as [-> | He'].
    { revert He. rewrite !elem_of_app, list_elem_of_singleton. tauto. }
    + by rewrite lookup_insert_eq.
    + rewrite lookup_insert_ne by (by apply not_eq_sym, Hne). by apply H10.
  - intros Hs. specialize (H13 Hs). lia.
Qed.

(** A work is queued. *)
Lemma inv_insert t q c ws cs s k w f : inv_with t q c (mkPool ws cs s) ->
  cs !! k = Some (S_insert w f) -> exists h,
  ngx_queue_insert_tail (Some wq) (Some (queue_of w)) (cells s) = Done (tt, h) /\
  inv_with t (q ++ [(w, f)]) c (mkPool ws (<[k := S_signal]> cs)
    (mkStatics h (works s) (mutex s) (idle_threads s) (submitted s ++ [(w, f)]) (taken s) (started s))).
Proof.
  intros [H1 H2 H3 H4 H5 H6 H7 H8 H9 H10 H11 H12 H13] Hi. simpl_books.
  pose proof (mjoin_insert of_caller cs k _ S_signal Hi) as Hj. cbn [of_caller] in Hj. rewrite app_nil_r in Hj.
  pose proof (mjoin_insert assigned cs k _ S_signal Hi) as Hj'. cbn [assigned] in Hj'. rewrite app_nil_r in Hj'.
  assert (pending (mkPool ws cs s) ≡ₚ
    w :: (mjoin (of_caller <$> <[k := S_signal]> cs)).*1 ++ q.*1 ++ mjoin (carried <$> ws)) as El.
  { unfold pending. cbn [callers workers statics]. rewrite (waiting_eq s t q), <- Hj by done.
    rewrite !fmap_app. cbn. solve_Permutation. }
  destruct (H9 w) as (_ & Hc & Hn); [rewrite El; left |].
  assert (queue_of w ∉ wq :: (queue_of <$> q.*1)) as Hnq.
  { rewrite elem_of_cons. intros [? | Hq]; [done |]. apply list_elem_of_fmap in Hq as (x & Ex & Hq).
    apply Pos.add_reg_r in Ex. subst x.
    rewrite El in H8. apply NoDup_cons in H8 as [H8 _]. apply H8. rewrite !elem_of_app. tauto. }
  destruct (QueueSpec.insert_tail_ring _ _ _ _ H6 Hc Hnq) as (h & E & Hr & _ & Hcells).
  exists h. split; [done |]. set (s' := mkStatics _ _ _ _ _ _ _).
  assert (pending (mkPool ws (<[k := S_signal]> cs) s') ≡ₚ pending (mkPool ws cs s)) as Hpe.
  { rewrite El. unfold pending. cbn [callers workers statics]. rewrite (waiting_eq s' t (q ++ [(w, f)])).
    - rewrite !fmap_app. cbn. solve_Permutation.
    - subst s'. cbn [submitted]. by rewrite H4, app_assoc.
    - done. }
  cbooks cs k (@S_signal Fn) Hi. subst s'. split; simpl_books; try done.
  - lia.
  - by rewrite H4, app_assoc.
  - by rewrite !fmap_app.
  - intros _. by destruct q.
  - by rewrite Hpe.
  - intros x Hx. rewrite Hcells. apply H9. by rewrite <- Hpe.
  - intros e He. apply H10. rewrite <- Hj'. revert He. rewrite !elem_of_app. tauto.
  - intros Hs. specialize (H13 Hs). rewrite length_app. cbn [length]. lia.
Qed.

(** A step of a caller that can run by itself; none can fail. *)
Lemma inv_caller ws cs s k pc : inv (mkPool ws cs s) -> cs !! k = Some pc ->
  ae_work_submit pc s = Done None \/
  exists pc' s', ae_work_submit pc s = Done (Some (pc', s')) /\ inv (mkPool ws (<[k := pc']> cs) s').
Proof.
  intros (t & q & c & Hv) Hi. pose proof Hv as [H1 H2 H3 H4 H5 H6 H7 H8 H9 H10 H11 H12 H13].
  pose proof (tally_ge submits cs k pc Hi) as Hh. pose proof (b2n_le (mutex s)) as Hm.
  destruct pc as [| w f d | w f | w f | |]; cbn [ae_work_submit]; simpl_books.
  - by left.
  - right. destruct (H9 w) as (Hw & _).
    { unfold pending. cbn [callers workers statics]. pose proof (mjoin_insert of_caller cs k _ S_idle Hi) as Hj.
      cbn [of_caller] in Hj. rewrite app_nil_r in Hj. rewrite <- Hj, fmap_app, !elem_of_app. left. right. left. }
    rewrite decide_True by done. do 2 eexists. split; [done |]. exists t, q, c. by apply inv_assign.
  - destruct (mutex s) eqn:Em; [by left |]. right. do 2 eexists. split; [done |]. exists t, q, c.
    cbooks cs k (S_insert w f) Hi. simpl_books. eapply (inv_caller_control t q c ws cs s k); try done; simpl_books; lia.
  - right. destruct (inv_insert t q c ws cs s k w f Hv Hi) as (h & E & Hv'). rewrite E. cbn [ebind].
    do 2 eexists. split; [done |]. by exists t, (q ++ [(w, f)]), c.
  - destruct (0 <? idle_threads s) eqn:E; [by left |]. right. do 2 eexists. split; [done |]. exists t, q, c.
    apply inv_signal_none; [done | done | lia].
  - right. do 2 eexists. split; [done |]. exists t, q, c. cbooks cs k (@S_idle Fn) Hi. simpl_books.
    eapply (inv_caller_control t q c ws cs s k); try done; simpl_books; lia.
Qed.

Lemma inv_call t q c ws cs s k w f d : inv_with t q c (mkPool ws cs s) -> cs !! k = Some S_idle ->
  submittable w (mkPool ws cs s) -> inv_with t q c (mkPool ws (<[k := S_call w f d]> cs) s).
Proof.
  intros [H1 H2 H3 H4 H5 H6 H7 H8 H9 H10 H11 H12 H13] Hi (Hw & Hc & Hn & Hp). simpl_books.
  pose proof (mjoin_insert of_caller cs k _ (S_call w f d) Hi) as Hj. cbn [of_caller] in Hj. rewrite app_nil_r in Hj.
  pose proof (mjoin_insert assigned cs k _ (S_call w f d) Hi) as Hj'. cbn [assigned] in Hj'.
  apply Permutation_app_inv_r in Hj'.
  assert (pending (mkPool ws (<[k := S_call w f d]> cs) s) ≡ₚ w :: pending (mkPool ws cs s)) as Hpe.
  { unfold pending. cbn [callers workers statics]. rewrite Hj, fmap_app. cbn. solve_Permutation. }
  cbooks cs k (S_call w f d) Hi. simpl_books. split; simpl_books; try done.
  - lia.
  - rewrite Hpe. by apply NoDup_cons.
  - intros x. rewrite Hpe. intros [-> | Hx]%elem_of_cons; [done | by apply H9].
  - intros e He. apply H10. by rewrite <- Hj'.
  - intros Hs. specialize (H13 Hs). lia.
Qed.

Lemma inv_spurious t q c ws cs s i : inv_with t q c (mkPool ws cs s) -> ws !! i = Some W_wait ->
  inv_with t q c (mkPool (<[i := W_wake]> ws) cs s).
Proof.
  intros Hv Hi. pose proof Hv as [H1 H2 H3 H4 H5 H6 H7 H8 H9 H10 H11 H12 H13].
  wbooks ws i W_wake Hi. simpl_books.
  eapply (inv_control t q c ws cs s s i W_wait); try done; numbers H7 H13.
Qed.

Lemma tp_inv_step b p r : step b p r -> inv p -> inv r.
Proof.
  intros Hs Hp. destruct Hs as [ws cs s i pc pc' s' Hi E | ws cs s k pc pc' s' Hi E | ws cs s k i Hk Hi0 Hi
    | ws cs s k Hk Hi0 Hn | ws cs s k w f d Hk Hw | ws cs s i Hi].
  - destruct (tp_inv_worker _ _ _ _ _ Hp Hi) as [E' | (? & ? & E' & Hr)]; rewrite E in E'; [done |]. by injection E' as <- <-.
  - destruct (inv_caller _ _ _ _ _ Hp Hi) as [E' | (? & ? & E' & Hr)]; rewrite E in E'; [done |]. by injection E' as <- <-.
  - destruct Hp as (t & q & c & Hv). exists t, q, c. by apply inv_signalled.
  - destruct Hp as (t & q & c & Hv). exists t, q, c. apply inv_signal_none; [done | done |].
    destruct (tally sleeps ws) as [| n] eqn:E; [done |].
    destruct (tally_pos sleeps ws) as (i & w & Hi & Hw); [lia |]. destruct w; cbn in Hw; try lia. by apply Hn in Hi.
  - destruct Hp as (t & q & c & Hv). exists t, q, c. by apply inv_call.
  - destruct Hp as (t & q & c & Hv). exists t, q, c. by apply inv_spurious.
Qed.

Lemma tp_inv_runs p r : runs p r -> inv p -> inv r.
Proof. induction 1 as [| p p' r [b Hs] _ IH]; [done |]. intros Hp. apply IH. by eapply tp_inv_step. Qed.

(** ** Start *)

Lemma create_loop_fits creates i n : sizeof_pthread_mutex_t <= sizeof_pthread_t ->
  0 <= i -> i + Z.of_nat n <= nthreads -> 0 <= sizeof_pthread_t -> (length creates = n)%nat -> Forall (eq 0) creates ->
  create_loop creates i n = Done true.
Proof.
  intros Hs. revert creates i. induction n as [| n IH]; intros creates i Hi Hn Ht Hl Hc; [done |].
  destruct Hc as [| x creates <- Hc]; cbn in Hl; [lia |]. cbn [create_loop].
  rewrite (proj2 (Z.leb_le _ _)); [cbn; apply IH; try done; lia |]. unfold nthreads in *. nia.
Qed.

Lemma inv_init creates k h ws p : ae_init_threads creates k h ws = Done (Some p) -> inv p.
Proof.
  unfold ae_init_threads. intros E.
  destruct (h !! wq) as [x |] eqn:Ex; [| by unfold ngx_queue_init, set_prev, modify, load, bind in E; cbn in E; rewrite Ex in E].
  destruct (QueueSpec.init_ring h wq) as (h' & E' & Hr & _); [by exists x |]. rewrite E' in E. cbn [ebind] in E.
  assert (Z.of_nat (Z.to_nat nthreads) < 2 ^ 32) as Hn by done. revert Hn E.
  generalize (Z.to_nat nthreads). intros n Hn E.
  destruct (create_loop _ _ _) as [[|] | |]; cbn in E; try done. injection E as <-.
  exists [], [], []. split; cbn [workers callers statics].
  - by rewrite !tally_replicate.
  - by rewrite !tally_replicate.
  - by rewrite length_replicate.
  - done.
  - done.
  - exact Hr.
  - rewrite tally_replicate by done. lia.
  - unfold pending. cbn [workers callers statics]. rewrite !mjoin_replicate by done. constructor.
  - unfold pending. cbn [workers callers statics]. rewrite !mjoin_replicate by done. intros w Hw. by apply elem_of_nil in Hw.
  - intros e He. rewrite mjoin_replicate in He by done. by apply elem_of_nil in He.
  - by rewrite mjoin_replicate.
  - done.
  - rewrite tally_replicate by done. lia.
Qed.

(** Starting the pool is defined exactly where a [pthread_mutex_t] is not larger
    than a [pthread_t]: the threads are created through a pointer to mutexes into an
    array of [pthread_t], so that elsewhere the second one is written past the place
    for it and the last one past the array.  (With glibc on x86-64 a mutex has 40
    bytes and a [pthread_t] 8.)  Where it is defined and every thread could be
    created, the pool has four workers and an empty queue. *)
Theorem init_threads_spec k h (ws : gmap loc (ae_work_t Fn)) : is_Some (h !! wq) ->
  0 <= sizeof_pthread_t -> 0 <= sizeof_pthread_mutex_t ->
  if sizeof_pthread_mutex_t <=? sizeof_pthread_t then
    exists p, ae_init_threads [0; 0; 0; 0] k h ws = Done (Some p) /\ inv p /\
      length (workers p) = 4%nat /\ submitted (statics p) = []
  else ae_init_threads [0; 0; 0; 0] k h ws = UB.
Proof.
  intros Hq Ht Hm. destruct (QueueSpec.init_ring h wq Hq) as (h' & E & _ & _).
  destruct (sizeof_pthread_mutex_t <=? sizeof_pthread_t) eqn:El.
  - apply Z.leb_le in El. assert (ae_init_threads [0; 0; 0; 0] k h ws = Done (Some (mkPool (replicate 4 W_lock)
      (replicate k S_idle) (mkStatics h' ws false 0 [] [] [])))) as Ei.
    { unfold ae_init_threads. rewrite E. cbn [ebind].
      rewrite create_loop_fits; [done | done | lia | unfold nthreads; lia | done | done | by repeat constructor]. }
    eexists. split; [exact Ei |]. split; [by eapply inv_init | done].
  - apply Z.leb_gt in El. unfold ae_init_threads. rewrite E. cbn [ebind].
    change (Z.to_nat nthreads) with 4%nat. cbn [create_loop]. unfold nthreads.
    repeat (match goal with |- context [?a <=? ?b] => destruct (a <=? b) eqn:? end; [| done]; cbn). lia.
Qed.

(** ** Safety *)


(** ** Every work is run *)

Definition worker_work (w : Worker) : nat :=
  match w with
  | W_wait => 0 | W_take => 1 | W_test => 2 | W_lock | W_wake => 3 | W_work => 4 | W_call _ => 5 | W_unlock _ => 6
  end.
Definition caller_work (c : Caller Fn) : nat :=
  match c with S_idle => 0 | S_unlock => 1 | S_signal => 5 | S_insert _ _ => 12 | S_lock _ _ => 13 | S_call _ _ _ => 14 end.
(** What is left to do. *)
Definition measure p : nat :=
  tally worker_work (workers p) + tally caller_work (callers p) +
  6 * (length (submitted (statics p)) - length (taken (statics p))).

Lemma step_decreases p r : inv p -> step true p r -> (measure r < measure p)%nat.
Proof.
  intros (t & q & c & Hv) Hs. unfold measure.
  inversion Hs as [ws cs s i pc pc' s' Hi E | ws cs s k pc pc' s' Hi E | ws cs s k i Hk Hi0 Hi | ws cs s k Hk Hi0 Hn | |];
    subst p r; cbn [workers callers statics] in *.
  - pose proof (tally_insert worker_work ws i _ pc' Hi) as Ht.
    assert (pc = W_take -> (length (taken s) < length (submitted s))%nat) as Hq.
    { intros ->. pose proof (tally_ge takes ws i _ Hi) as Hg. pose proof (v_take _ _ _ _ Hv) as Hne.
      cbn [takes workers] in Hg, Hne.
      specialize (Hne ltac:(lia)). pose proof (v_submitted _ _ _ _ Hv) as E1. pose proof (v_taken _ _ _ _ Hv) as E2.
      cbn in E1, E2. rewrite E1, E2, length_fmap, length_app. destruct q; [done | cbn; lia]. }
    pose proof (empty_queue _ _ _ _ Hv) as Ee. cbn [statics] in Ee.
    destruct pc; cbn [worker_step] in E; rewrite ?Ee in E; cbn [ebind] in E; repeat case_match; try discriminate E;
      unfold ebind in E; repeat case_match; try discriminate E;
      injection E as <- <-; simpl_books; cbn [worker_work] in Ht; rewrite ?length_app; cbn [length]; try lia.
    specialize (Hq eq_refl). lia.
  - pose proof (tally_insert caller_work cs k _ pc' Hi) as Ht.
    destruct pc; cbn [ae_work_submit] in E; unfold ebind in E; repeat case_match; try discriminate E;
      injection E as <- <-; simpl_books; cbn [caller_work] in Ht; rewrite ?length_app; cbn [length]; lia.
  - pose proof (tally_insert worker_work ws i _ W_wake Hi) as Ht.
    pose proof (tally_insert caller_work cs k _ S_unlock Hk) as Ht'. cbn [worker_work caller_work] in *. lia.
  - pose proof (tally_insert caller_work cs k _ S_unlock Hk) as Ht'. cbn [caller_work] in *. lia.
Qed.

Lemma own_steps_end p : inv p -> Acc (fun r p => step true p r) p.
Proof.
  remember (measure p) as n eqn:En. revert p En. induction (lt_wf n) as [n _ IH]. intros p -> Hp.
  constructor. intros r Hs. apply (IH (measure r)); [by apply step_decreases | done | by eapply tp_inv_step].
Qed.

(** The works that have been passed to [ae_work_submit]. *)
Definition passed p : list (loc * Fn) := submitted (statics p) ++ coming p.

Lemma step_passed p r : step true p r -> passed r ≡ₚ passed p.
Proof.
  intros Hs. unfold passed, coming.
  inversion Hs as [ws cs s i pc pc' s' Hi E | ws cs s k pc pc' s' Hi E | ws cs s k i Hk Hi0 Hi | ws cs s k Hk Hi0 Hn | |];
    subst p r; cbn [workers callers statics] in *.
  - assert (submitted s' = submitted s) as ->; [| done].
    destruct pc; cbn [worker_step] in E; unfold ebind in E; repeat case_match; try discriminate E; by injection E as <- <-.
  - pose proof (mjoin_insert of_caller cs k _ pc' Hi) as Hj.
    destruct pc; cbn [ae_work_submit] in E; unfold ebind in E; repeat case_match; try discriminate E;
      injection E as <- <-; simpl_books; rewrite ?app_nil_r in Hj; try apply Permutation_app_inv_r in Hj; try (by rewrite Hj).
    rewrite <- Hj. solve_Permutation.
  - pose proof (mjoin_insert of_caller cs k _ S_unlock Hk) as Hj. apply Permutation_app_inv_r in Hj. by rewrite Hj.
  - pose proof (mjoin_insert of_caller cs k _ S_unlock Hk) as Hj. apply Permutation_app_inv_r in Hj. by rewrite Hj.
Qed.

(** Where nobody can move, everybody is at rest. *)
Lemma stuck_idle t q c p : inv_with t q c p -> (forall r, ~ step true p r) ->
  Forall (eq W_wait) (workers p) /\ Forall (eq S_idle) (callers p).
Proof.
  intros Hv Hst. destruct p as [ws cs s].
  assert (forall i pc, ws !! i = Some pc -> worker_step pc s = Done None) as Hw.
  { intros i pc Hi. destruct (tp_inv_worker ws cs s i pc) as [E | (pc' & s' & E & _)]; [by exists t, q, c | done | done |].
    exfalso. eapply Hst, s_worker; done. }
  assert (forall k pc, cs !! k = Some pc -> ae_work_submit pc s = Done None) as Hc.
  { intros k pc Hk. destruct (inv_caller ws cs s k pc) as [E | (pc' & s' & E & _)]; [by exists t, q, c | done | done |].
    exfalso. eapply Hst, s_caller; done. }
  pose proof (v_mutex _ _ _ _ Hv) as Hm. cbn [workers callers statics] in Hm |- *.
  assert (forall k, cs !! k <> Some S_signal) as Hns.
  { intros k Hk. destruct (decide (0 < idle_threads s)) as [Hlt | Hge].
    - destruct (tally sleeps ws) as [| n] eqn:E.
      + eapply Hst, s_signal_none; [done | done |]. intros i Hi. pose proof (tally_ge sleeps ws i _ Hi) as Hx.
        cbn [sleeps] in Hx. lia.
      + destruct (tally_pos sleeps ws) as (i & w & Hi & Hx); [lia |]. destruct w; cbn [sleeps] in Hx; try lia.
        by eapply Hst, s_signal.
    - specialize (Hc k _ Hk). cbn [ae_work_submit] in Hc. by rewrite (proj2 (Z.ltb_ge _ _)) in Hc by lia. }
  destruct (mutex s) eqn:Em; cbn [b2n] in Hm.
  - exfalso. destruct (tally holds ws) as [| n] eqn:E.
    + destruct (tally_pos submits cs) as (k & pc & Hk & Hx); [lia |]. specialize (Hc k pc Hk).
      destruct pc; cbn [submits ae_work_submit] in *; try lia; try done; [| by apply (Hns k)].
      unfold ebind in Hc. by destruct (ngx_queue_insert_tail _ _ _) as [[]| |].
    + destruct (tally_pos holds ws) as (i & pc & Hi & Hx); [lia |]. specialize (Hw i pc Hi).
      pose proof (empty_queue _ _ _ _ Hv) as Ee. cbn [statics] in Ee.
      destruct pc; cbn [holds worker_step] in *; try lia; try done; [by rewrite Ee in Hw |].
      unfold ebind in Hw. repeat case_match; done.
  - split; apply Forall_lookup; intros i pc Hi; [specialize (Hw i pc Hi) | specialize (Hc i pc Hi)].
    + pose proof (tally_ge holds ws i pc Hi) as Hh. destruct pc; cbn [holds worker_step] in *; rewrite ?Em in *; try done; try lia.
      by repeat case_match.
    + pose proof (tally_ge submits cs i pc Hi) as Hh.
      destruct pc; cbn [submits ae_work_submit] in *; rewrite ?Em in *; try done; try lia. by repeat case_match.
Qed.

Lemma tp_step_workers b p r : step b p r -> length (workers r) = length (workers p).
Proof. by destruct 1; cbn [workers]; rewrite ?length_insert. Qed.

Lemma tp_runs_workers p r : runs p r -> length (workers r) = length (workers p).
Proof. induction 1 as [| p p' r [b Hs] _ IH]; [done |]. by rewrite IH, (tp_step_workers _ _ _ Hs). Qed.

Lemma own_steps p r : rtc (step true) p r -> runs p r /\ passed r ≡ₚ passed p.
Proof.
  induction 1 as [| p p' r Hs _ [IH1 IH2]]; [by split; [constructor |] |].
  split; [eapply rtc_l; [by exists true | exact IH1] |]. by rewrite IH2, (step_passed _ _ Hs).
Qed.

Lemma init_workers creates k h ws p : ae_init_threads creates k h ws = Done (Some p) -> length (workers p) = 4%nat.
Proof.
  unfold ae_init_threads, ebind. intros E. repeat case_match; try done. by injection E as <-.
Qed.

End Pool.
End WorkPoolSpec.

Module WorkPoolSamples.
Import WorkPoolSpec.

(** A platform where the two types have the same size, and x86-64 with glibc. *)
Definition even : Layout := {| wq := 1; queue_offset := 100; sizeof_pthread_t := 8; sizeof_pthread_mutex_t := 8 |}.
Definition glibc : Layout := {| wq := 1; queue_offset := 100; sizeof_pthread_t := 8; sizeof_pthread_mutex_t := 40 |}.

(** [wq] and three works at 10, 20 and 30. *)
Definition sample_cells : gmap loc ngx_queue_t :=
  list_to_map ((fun x => (x, mkQueue None None)) <$> [1; 110; 120; 130]%positive).
Definition sample_works : gmap loc (ae_work_t nat) :=
  list_to_map ((fun x => (x, mkWork None None)) <$> [10; 20; 30]%positive).

Lemma init_threads_spec_witness :
  @ae_init_threads glibc nat [0; 0; 0; 0] 2 sample_cells sample_works = UB.
Proof.
  refine (@init_threads_spec glibc nat 2 sample_cells sample_works _ _ _); vm_compute; [by eexists | done | done].
Defined.

(** The pool as it starts, with one caller. *)
Definition sample_pool : Pool nat :=
  mkPool (replicate 4 W_lock) [S_idle]
    (mkStatics (<[1%positive := mkQueue (Some 1%positive) (Some 1%positive)]> sample_cells) sample_works false 0 [] [] []).
Definition sample_called : Pool nat :=
  mkPool (replicate 4 W_lock) [S_call 10%positive 7%nat None] (statics sample_pool).

Lemma sample_init : @ae_init_threads even nat [0; 0; 0; 0] 1 sample_cells sample_works = Done (Some sample_pool).
Proof. vm_compute. reflexivity. Qed.

Lemma sample_runs : @runs even nat sample_pool sample_called.
Proof.
  eapply rtc_l; [| apply rtc_refl]. exists false. apply (@s_call even nat (replicate 4 W_lock) [S_idle] (statics sample_pool) 0 10%positive 7%nat None); [done |].
  split_and!; [by eexists | by eexists | done | vm_compute; by intros ?%elem_of_nil].
Qed.



(** Before [ae_init_threads] the queue is all zero: submitting a work is undefined. *)
Example submit_before_init :
  @ae_work_submit even nat (S_insert 10%positive 7%nat) (mkStatics sample_cells sample_works true 0 [] [] []) = UB.
Proof. vm_compute. reflexivity. Qed.
End WorkPoolSamples.
