(* ===== verification/Tree.v ===== *)
(** The binary search tree of [algorithm/tree.c]: nodes on the heap with pointers
    to their children and to their parent.  Printing a tree returns the keys that
    are printed. *)
From S2P Require Import Prelude CHeap.

Module Tree.
Record tree_node := mkNode { key : Z; left : ptr; right : ptr; parent : ptr }.

Definition set_left (p : ptr) (n : tree_node) : tree_node := mkNode (key n) p (right n) (parent n).
Definition set_right (p : ptr) (n : tree_node) : tree_node := mkNode (key n) (left n) p (parent n).
Definition set_parent (p : ptr) (n : tree_node) : tree_node := mkNode (key n) (left n) (right n) p.

Section Ops.
Context `{Malloc tree_node}.
#[local] Abbreviation M := (M tree_node).

Definition new_node (k : Z) : M ptr := alloc (mkNode k None None None).

Fixpoint search_loop (fuel : nat) (p : ptr) (k : Z) : M ptr :=
  match p, fuel with
  | None, _ => ret None
  | _, O => no_fuel
  | _, S f =>
    let! n := load p in
    if key n =? k then ret p
    else if k <? key n then search_loop f (left n) k
    else search_loop f (right n) k
  end.
Definition tree_search (p : ptr) (k : Z) : M ptr := with_fuel (fun f => search_loop f p k).

(** [while(p && p->left != NULL) p = p->left;] and the mirror image. *)
Fixpoint edge_loop (side : tree_node -> ptr) (fuel : nat) (p : ptr) : M ptr :=
  match p, fuel with
  | None, _ => ret None
  | _, O => no_fuel
  | _, S f =>
    let! n := load p in
    match side n with None => ret p | q => edge_loop side f q end
  end.
Definition tree_minimum (p : ptr) : M ptr := with_fuel (fun f => edge_loop left f p).
Definition tree_maximum (p : ptr) : M ptr := with_fuel (fun f => edge_loop right f p).

(** [while(y != NULL && p == y->right) { p = y; y = y->parent; } return y;] *)
Fixpoint climb_loop (side : tree_node -> ptr) (fuel : nat) (p y : ptr) : M ptr :=
  match y, fuel with
  | None, _ => ret None
  | _, O => no_fuel
  | _, S f =>
    let! n := load y in
    if decide (p = side n) then climb_loop side f y (parent n) else ret y
  end.

Definition tree_successor (p : ptr) : M ptr :=
  let! n := load p in
  match right n with
  | Some _ => tree_minimum (right n)
  | None => with_fuel (fun f => climb_loop right f p (parent n))
  end.

Definition tree_precursor (p : ptr) : M ptr :=
  let! n := load p in
  match left n with
  | Some _ => tree_maximum (left n)
  | None => with_fuel (fun f => climb_loop left f p (parent n))
  end.

(** [while(x != NULL) { y = x; ... }]: the last node on the way down. *)
Fixpoint descend_loop (fuel : nat) (k : Z) (y x : ptr) : M ptr :=
  match x, fuel with
  | None, _ => ret y
  | _, O => no_fuel
  | _, S f =>
    let! n := load x in
    descend_loop f k x (if k <? key n then left n else right n)
  end.

(** The functions that take [tree_node_t **root] return the new root. *)
Definition insert (root : ptr) (k : Z) : M (Z * ptr) :=
  let! node := new_node k in
  match node with
  | None => ret (-1, root)
  | Some _ =>
    let! y := with_fuel (fun f => descend_loop f k None root) in
    match y with
    | None => ret (0, node)
    | Some _ =>
      let! n := load y in
      (if k <? key n then modify y (set_left node) else modify y (set_right node)) ;!
      modify node (set_parent y) ;!
      ret (0, root)
    end
  end.

Definition transplant (root u v : ptr) : M ptr :=
  let! un := load u in
  let! root :=
    match parent un with
    | None => ret v
    | Some _ =>
      let! pn := load (parent un) in
      (if decide (u = left pn) then modify (parent un) (set_left v)
       else modify (parent un) (set_right v)) ;!
      ret root
    end in
  match v with
  | None => ret root
  | Some _ => let! un := load u in modify v (set_parent (parent un)) ;! ret root
  end.

(** The rest of [tree_delete], when the key has been found at [p]; its middle is for a
    node [y], the least one of the right subtree, that is not a child of [p]. *)
Definition detach (root p y : ptr) (yn : tree_node) : M ptr :=
  if decide (parent yn = p) then ret root
  else
    let! root := transplant root y (right yn) in
    let! n := load p in
    modify y (set_right (right n)) ;!
    let! yn := load y in
    modify (right yn) (set_parent y) ;!
    ret root.

Definition delete_node (root p : ptr) : M (Z * ptr) :=
  let! n := load p in
  match left n, right n with
  | None, r => let! root := transplant root p r in ret (0, root)
  | l, None => let! root := transplant root p l in ret (0, root)
  | _, _ =>
    let! y := tree_minimum (right n) in
    let! yn := load y in
    let! root := detach root p y yn in
    let! root := transplant root p y in
    let! n := load p in
    modify y (set_left (left n)) ;!
    let! yn := load y in
    modify (left yn) (set_parent y) ;!
    ret (0, root)
  end.

Definition tree_delete (root : ptr) (k : Z) : M (Z * ptr) :=
  let! p := tree_search root k in
  match p with
  | None => ret (-1, root)
  | Some _ => delete_node root p
  end.

Fixpoint walk_loop (fuel : nat) (p : ptr) : M (list Z) :=
  match p, fuel with
  | None, _ => ret []
  | _, O => no_fuel
  | _, S f =>
    let! n := load p in
    let! xs := walk_loop f (left n) in
    let! ys := walk_loop f (right n) in
    ret (xs ++ key n :: ys)
  end.
Definition tree_inorder_walk (p : ptr) : M (list Z) := with_fuel (fun f => walk_loop f p).

Fixpoint free_loop (fuel : nat) (p : ptr) : M unit :=
  match p, fuel with
  | None, _ => ret tt
  | _, O => no_fuel
  | _, S f =>
    let! n := load p in
    free_loop f (left n) ;!
    let! n := load p in
    free_loop f (right n) ;!
    dealloc p
  end.
Definition tree_free (p : ptr) : M unit := with_fuel (fun f => free_loop f p).
End Ops.
End Tree.
Import Tree.

(** * Trees *)

(** A tree with the addresses of its nodes. *)
Inductive tree := Leaf | Node (a : loc) (k : Z) (l r : tree).

Definition root_of (t : tree) : ptr := match t with Leaf => None | Node a _ _ _ => Some a end.

(** Its nodes in order, and its cells, below a parent. *)
Fixpoint nodes (t : tree) : list (loc * Z) :=
  match t with Leaf => [] | Node a k l r => nodes l ++ (a, k) :: nodes r end.
Fixpoint cells (par : ptr) (t : tree) : list (loc * tree_node) :=
  match t with
  | Leaf => []
  | Node a k l r =>
    (a, mkNode k (root_of l) (root_of r) par) :: cells (Some a) l ++ cells (Some a) r
  end.
Definition keys (t : tree) : list Z := (nodes t).*2.

(** A tree with a hole: the way from the hole to the root. *)
Inductive frame := InLeft (a : loc) (k : Z) (r : tree) | InRight (a : loc) (k : Z) (l : tree).
Definition fill1 (f : frame) (s : tree) : tree :=
  match f with InLeft a k r => Node a k s r | InRight a k l => Node a k l s end.
Definition fill (C : list frame) (s : tree) : tree := foldl (fun s f => fill1 f s) s C.
Definition frame_loc (f : frame) : loc := match f with InLeft a _ _ | InRight a _ _ => a end.
Definition top (C : list frame) : ptr := match C with [] => None | f :: _ => Some (frame_loc f) end.

Definition frame_cells (f : frame) (p par : ptr) : list (loc * tree_node) :=
  match f with
  | InLeft a k r => (a, mkNode k p (root_of r) par) :: cells (Some a) r
  | InRight a k l => (a, mkNode k (root_of l) p par) :: cells (Some a) l
  end.
Fixpoint ctx_cells (C : list frame) (p : ptr) : list (loc * tree_node) :=
  match C with
  | [] => []
  | f :: C => frame_cells f p (top C) ++ ctx_cells C (Some (frame_loc f))
  end.
Fixpoint before (C : list frame) : list (loc * Z) :=
  match C with
  | [] => []
  | InLeft _ _ _ :: C => before C
  | InRight a k l :: C => before C ++ nodes l ++ [(a, k)]
  end.
Fixpoint after (C : list frame) : list (loc * Z) :=
  match C with
  | [] => []
  | InLeft a k r :: C => (a, k) :: nodes r ++ after C
  | InRight _ _ _ :: C => after C
  end.

Module TreeSpec.
Implicit Types (t s l r : tree) (C : list frame).

(** The addresses of a tree, and those around a hole. *)
Definition locs (t : tree) : list loc := (nodes t).*1.
Definition ctx_locs (C : list frame) : list loc := (before C).*1 ++ (after C).*1.

Lemma nodes_fill C : forall s, nodes (fill C s) = before C ++ nodes s ++ after C.
Proof.
  induction C as [| [a k r | a k l] C IH]; intros s; csimpl; [by rewrite app_nil_r | |];
    setoid_rewrite IH; csimpl; by simplify_list_eq.
Qed.

Lemma fill_app C D s : fill (C ++ D) s = fill D (fill C s).
Proof. apply foldl_app. Qed.

Lemma before_app C D : before (C ++ D) = before D ++ before C.
Proof.
  induction C as [| [] C IH]; csimpl; rewrite ?IH; by simplify_list_eq.
Qed.

Lemma after_app C D : after (C ++ D) = after C ++ after D.
Proof. induction C as [| [] C IH]; csimpl; rewrite ?IH; by simplify_list_eq. Qed.

Lemma cells_fill C : forall s, cells None (fill C s) ≡ₚ ctx_cells C (root_of s) ++ cells (top C) s.
Proof.
  induction C as [| [a k r | a k l] C IH]; intros s; cbn [fill foldl]; [done | |];
    setoid_rewrite IH; csimpl; solve_Permutation.
Qed.

Lemma cells_locs t : forall par, (cells par t).*1 ≡ₚ locs t.
Proof.
  unfold locs. induction t as [| a k l IHl r IHr]; intros par; csimpl; [done |].
  rewrite !fmap_app, IHl, IHr. csimpl. solve_Permutation.
Qed.

Lemma ctx_cells_locs C : forall p, (ctx_cells C p).*1 ≡ₚ ctx_locs C.
Proof.
  unfold ctx_locs. induction C as [| [a k r | a k l] C IH]; intros p; csimpl; [done | |];
    rewrite !fmap_app, cells_locs, IH; unfold locs; csimpl; rewrite ?fmap_app; csimpl; solve_Permutation.
Qed.

Lemma locs_node a k l r : locs (Node a k l r) = locs l ++ a :: locs r.
Proof. unfold locs. csimpl. by rewrite fmap_app. Qed.

Lemma locs_fill C s : locs (fill C s) ≡ₚ ctx_locs C ++ locs s.
Proof. unfold locs, ctx_locs. rewrite nodes_fill, !fmap_app. solve_Permutation. Qed.

Lemma ctx_locs_left a k r C : ctx_locs (InLeft a k r :: C) ≡ₚ a :: locs r ++ ctx_locs C.
Proof. unfold ctx_locs, locs. csimpl. rewrite !fmap_app. csimpl. solve_Permutation. Qed.
Lemma ctx_locs_right a k l C : ctx_locs (InRight a k l :: C) ≡ₚ a :: locs l ++ ctx_locs C.
Proof. unfold ctx_locs, locs. csimpl. rewrite !fmap_app. csimpl. solve_Permutation. Qed.

Lemma root_in t a : root_of t = Some a -> a ∈ locs t.
Proof. destruct t; csimpl; intros; simplify_eq. rewrite locs_node. set_solver. Qed.

(** The heap holds the tree, and its nodes are different. *)
Definition holds (h : gmap loc tree_node) (t : tree) : Prop :=
  sees h (cells None t) /\ NoDup (locs t).

Lemma holds_fill h C s : holds h (fill C s) <->
  sees h (ctx_cells C (root_of s)) /\ sees h (cells (top C) s) /\ NoDup (ctx_locs C ++ locs s).
Proof.
  unfold holds, sees. rewrite cells_fill, locs_fill, Forall_app. tauto.
Qed.

Lemma holds_size h t : holds h t -> (length (nodes t) <= size h)%nat.
Proof.
  intros [Hs Hn]. rewrite <- (cells_locs t None) in Hn. pose proof (sees_size _ _ Hs Hn).
  assert (length (cells None t) = length (nodes t)); [| lia].
  rewrite <- (length_fmap fst), (cells_locs t None). unfold locs. by rewrite length_fmap.
Qed.

Fixpoint height (t : tree) : nat :=
  match t with Leaf => 0 | Node _ _ l r => S (height l `max` height r) end%nat.
Lemma height_nodes t : (height t <= length (nodes t))%nat.
Proof. induction t; csimpl; rewrite ?length_app; csimpl; lia. Qed.

(** ** Searching *)

Fixpoint find (k : Z) (t : tree) : ptr :=
  match t with
  | Leaf => None
  | Node a k' l r => if k' =? k then Some a else if k <? k' then find k l else find k r
  end.

Section Searches.
Context `{Malloc tree_node}.
Implicit Types h : gmap loc tree_node.

Lemma search_loop_spec k h t : forall par fuel, sees h (cells par t) -> (height t <= fuel)%nat ->
  search_loop fuel (root_of t) k h = Done (find k t, h).
Proof.
  induction t as [| a k' l IHl r IHr]; intros par fuel Hs Hf; [by destruct fuel |].
  destruct fuel as [| fuel]; cbn in Hf; [lia |].
  cbn in Hs. rewrite sees_cons, sees_app in Hs. destruct Hs as (Ha & Hl & Hr).
  cbn [search_loop root_of find]. rewrite (bind_load _ _ _ _ Ha). csimpl.
  case_match; [done |]. case_match; [eapply IHl | eapply IHr]; eauto; lia.
Qed.

Lemma tree_search_spec k h t : holds h t -> tree_search (root_of t) k h = Done (find k t, h).
Proof.
  intros Hh. eapply search_loop_spec; [apply Hh |].
  pose proof (height_nodes t). pose proof (holds_size _ _ Hh). lia.
Qed.

Lemma find_fill k t a : find k t = Some a -> exists C l r, t = fill C (Node a k l r).
Proof.
  induction t as [| a' k' l IHl r IHr]; csimpl; [done |].
  case_match; [intros [= ->]; exists [], l, r; by replace k with k' by lia |].
  case_match; intros Hf.
  - destruct (IHl Hf) as (C & l' & r' & ->). exists (C ++ [InLeft a' k' r]), l', r'.
    by rewrite fill_app.
  - destruct (IHr Hf) as (C & l' & r' & ->). exists (C ++ [InRight a' k' l]), l', r'.
    by rewrite fill_app.
Qed.

(** The leftmost node, and the rightmost one. *)
Lemma edge_left_spec h t : forall par fuel, sees h (cells par t) -> (height t <= fuel)%nat -> t <> Leaf ->
  exists C a k r, t = fill C (Node a k Leaf r) /\ before C = [] /\
    edge_loop left fuel (root_of t) h = Done (Some a, h).
Proof.
  induction t as [| a k l IHl r IHr]; intros par fuel Hs Hf Ht; [done |].
  destruct fuel as [| fuel]; cbn in Hf; [lia |].
  cbn in Hs. rewrite sees_cons, sees_app in Hs. destruct Hs as (Ha & Hl & Hr).
  cbn [edge_loop root_of]. rewrite (bind_load _ _ _ _ Ha). cbn.
  destruct l as [| b kb lb rb]; [by exists [], a, k, r |].
  destruct (IHl (Some a) fuel Hl ltac:(lia) ltac:(done)) as (C & a' & k' & r' & E & HC & He).
  exists (C ++ [InLeft a k r]), a', k', r'.
  by rewrite fill_app, before_app, <- E, HC.
Qed.

Lemma edge_right_spec h t : forall par fuel, sees h (cells par t) -> (height t <= fuel)%nat -> t <> Leaf ->
  exists C a k l, t = fill C (Node a k l Leaf) /\ after C = [] /\
    edge_loop right fuel (root_of t) h = Done (Some a, h).
Proof.
  induction t as [| a k l IHl r IHr]; intros par fuel Hs Hf Ht; [done |].
  destruct fuel as [| fuel]; cbn in Hf; [lia |].
  cbn in Hs. rewrite sees_cons, sees_app in Hs. destruct Hs as (Ha & Hl & Hr).
  cbn [edge_loop root_of]. rewrite (bind_load _ _ _ _ Ha). cbn.
  destruct r as [| b kb lb rb]; [by exists [], a, k, l |].
  destruct (IHr (Some a) fuel Hr ltac:(lia) ltac:(done)) as (C & a' & k' & r' & E & HC & He).
  exists (C ++ [InRight a k l]), a', k', r'.
  by rewrite fill_app, after_app, <- E, HC.
Qed.

(** A subtree of a tree on the heap, and the fuel that is enough for it. *)
Lemma holds_sub h C s : holds h (fill C s) -> sees h (cells (top C) s) /\ (height s <= S (size h))%nat.
Proof.
  intros Hh. pose proof (holds_size _ _ Hh) as Hsz. rewrite nodes_fill, !length_app in Hsz.
  apply holds_fill in Hh as (_ & Hs & _). pose proof (height_nodes s). split; [done | lia].
Qed.

Lemma minimum_spec h C s : holds h (fill C s) -> s <> Leaf ->
  exists D a k r, s = fill D (Node a k Leaf r) /\ before D = [] /\
    tree_minimum (root_of s) h = Done (Some a, h).
Proof. intros Hh Hs. destruct (holds_sub _ _ _ Hh). eapply edge_left_spec; eauto. Qed.

Lemma maximum_spec h C s : holds h (fill C s) -> s <> Leaf ->
  exists D a k l, s = fill D (Node a k l Leaf) /\ after D = [] /\
    tree_maximum (root_of s) h = Done (Some a, h).
Proof. intros Hh Hs. destruct (holds_sub _ _ _ Hh). eapply edge_right_spec; eauto. Qed.

(** Climbing from a hole that is filled with [p]. *)
Lemma climb_right_spec h C : forall p fuel, sees h (ctx_cells C p) ->
  (forall a, p = Some a -> a ∉ ctx_locs C) -> NoDup (ctx_locs C) -> p <> None ->
  (length C <= fuel)%nat ->
  climb_loop right fuel p (top C) h = Done (head (after C).*1, h).
Proof.
  induction C as [| [a k r | a k l] C IH]; intros p fuel Hs Hp Hn Hp0 Hf; [by destruct fuel | |];
    (destruct fuel as [| fuel]; cbn in Hf; [lia |]); cbn [ctx_cells frame_cells app] in Hs;
    rewrite sees_cons, sees_app in Hs; destruct Hs as (Ha & Hr & HC);
    cbn [climb_loop top frame_loc]; rewrite (bind_load _ _ _ _ Ha); cbn [right parent].
  - rewrite decide_False; [done |]. intros E. destruct p as [x |]; [| done].
    apply (Hp x); [done |]. rewrite ctx_locs_left. symmetry in E. apply root_in in E. set_solver.
  - rewrite ctx_locs_right in Hn. rewrite decide_True by done. cbn [after frame_loc].
    apply IH; [done | | by apply NoDup_cons in Hn as [_ (_ & _ & ?)%NoDup_app] | done | lia].
    intros b [= <-]. apply NoDup_cons in Hn as [Hn _]. set_solver.
Qed.

Lemma climb_left_spec h C : forall p fuel, sees h (ctx_cells C p) ->
  (forall a, p = Some a -> a ∉ ctx_locs C) -> NoDup (ctx_locs C) -> p <> None ->
  (length C <= fuel)%nat ->
  climb_loop left fuel p (top C) h = Done (last (before C).*1, h).
Proof.
  induction C as [| [a k r | a k l] C IH]; intros p fuel Hs Hp Hn Hp0 Hf; [by destruct fuel | |];
    (destruct fuel as [| fuel]; cbn in Hf; [lia |]); cbn [ctx_cells frame_cells app] in Hs;
    rewrite sees_cons, sees_app in Hs; destruct Hs as (Ha & Hr & HC);
    cbn [climb_loop top frame_loc]; rewrite (bind_load _ _ _ _ Ha); cbn [left parent].
  - rewrite ctx_locs_left in Hn. rewrite decide_True by done. cbn [before frame_loc].
    apply IH; [done | | by apply NoDup_cons in Hn as [_ (_ & _ & ?)%NoDup_app] | done | lia].
    intros b [= <-]. apply NoDup_cons in Hn as [Hn _]. set_solver.
  - rewrite decide_False.
    + cbn [before]. rewrite app_assoc, fmap_app. csimpl. by rewrite last_snoc.
    + intros E. destruct p as [x |]; [| done].
      apply (Hp x); [done |]. rewrite ctx_locs_right. symmetry in E. apply root_in in E. set_solver.
Qed.

Lemma length_ctx C : (length C <= length (before C ++ after C))%nat.
Proof. induction C as [| [] C IH]; cbn; rewrite ?length_app in *; cbn; rewrite ?length_app; cbn; lia. Qed.

Lemma holds_climb h C a k l r : holds h (fill C (Node a k l r)) ->
  h !! a = Some (mkNode k (root_of l) (root_of r) (top C)) /\
  sees h (ctx_cells C (Some a)) /\ (forall b, Some a = Some b -> b ∉ ctx_locs C) /\
  NoDup (ctx_locs C) /\ (length C <= S (size h))%nat.
Proof.
  intros Hh. pose proof (holds_size _ _ Hh) as Hsz. pose proof (length_ctx C).
  rewrite nodes_fill, !length_app in Hsz. rewrite length_app in *.
  apply holds_fill in Hh as (HC & Hs & (Hn & Hd & _)%NoDup_app).
  cbn in Hs. apply sees_cons in Hs as [Ha _]. split_and!; try done; [| lia].
  intros b [= <-] Hin. apply (Hd a Hin). rewrite locs_node. set_solver.
Qed.

Lemma successor_fill h C a k l r : holds h (fill C (Node a k l r)) ->
  tree_successor (Some a) h = Done (head (nodes r ++ after C).*1, h).
Proof.
  intros Hh. destruct (holds_climb _ _ _ _ _ _ Hh) as (Ha & HC & Hp & Hn & Hf).
  unfold tree_successor. rewrite (bind_load _ _ _ _ Ha). cbn [right parent].
  destruct r as [| b kb lb rb]; [by apply climb_right_spec |].
  change (Node a k l (Node b kb lb rb)) with (fill [InRight a k l] (Node b kb lb rb)) in Hh.
  rewrite <- fill_app in Hh.
  destruct (minimum_spec _ _ _ Hh ltac:(done)) as (D & x & kx & rx & E & HD & He).
  assert (head (nodes (Node b kb lb rb) ++ after C).*1 = Some x) as -> by by rewrite E, nodes_fill, HD.
  exact He.
Qed.

Lemma precursor_fill h C a k l r : holds h (fill C (Node a k l r)) ->
  tree_precursor (Some a) h = Done (last (before C ++ nodes l).*1, h).
Proof.
  intros Hh. destruct (holds_climb _ _ _ _ _ _ Hh) as (Ha & HC & Hp & Hn & Hf).
  unfold tree_precursor. rewrite (bind_load _ _ _ _ Ha). cbn [left parent].
  destruct l as [| b kb lb rb]; [cbn [root_of nodes]; rewrite app_nil_r; by apply climb_left_spec |].
  change (Node a k (Node b kb lb rb) r) with (fill [InLeft a k r] (Node b kb lb rb)) in Hh.
  rewrite <- fill_app in Hh.
  destruct (maximum_spec _ _ _ Hh ltac:(done)) as (D & x & kx & lx & E & HD & He).
  assert (last (before C ++ nodes (Node b kb lb rb)).*1 = Some x) as ->; [| exact He].
  rewrite E, nodes_fill, HD, app_nil_r. cbn. rewrite !fmap_app. csimpl. by rewrite !app_assoc, last_snoc.
Qed.

(** Any node of a tree is the top of a subtree. *)
Lemma fill_node t a k : (a, k) ∈ nodes t -> exists C l r, t = fill C (Node a k l r).
Proof.
  induction t as [| a' k' l IHl r IHr]; cbn; [set_solver |].
  rewrite elem_of_app, elem_of_cons. intros [Hin | [[= -> ->] | Hin]].
  - destruct (IHl Hin) as (C & l' & r' & ->). exists (C ++ [InLeft a' k' r]), l', r'.
    by rewrite fill_app.
  - by exists [], l, r.
  - destruct (IHr Hin) as (C & l' & r' & ->). exists (C ++ [InRight a' k' l]), l', r'.
    by rewrite fill_app.
Qed.

Lemma split_unique (xs ys xs' ys' : list (loc * Z)) a k :
  xs ++ (a, k) :: ys = xs' ++ (a, k) :: ys' -> NoDup (xs ++ (a, k) :: ys).*1 -> xs = xs' /\ ys = ys'.
Proof.
  revert xs'. induction xs as [| x xs IH]; intros [| x' xs']; cbn; intros E Hn; simplify_eq.
  - done.
  - apply NoDup_cons in Hn as [Hn _]. rewrite fmap_app in Hn. set_solver.
  - apply NoDup_cons in Hn as [Hn _]. rewrite fmap_app in Hn. set_solver.
  - apply NoDup_cons in Hn as [_ Hn]. edestruct IH; eauto. by subst.
Qed.

(** C37: The neighbours of a node: [tree_successor] and [tree_precursor] go over the
    parent pointers to exactly the next and the previous node in order, and return
    [NULL] at the two ends. *)
Theorem neighbours h t xs a k ys : holds h t -> nodes t = xs ++ (a, k) :: ys ->
  tree_successor (Some a) h = Done (head ys.*1, h) /\
  tree_precursor (Some a) h = Done (last xs.*1, h).
Proof.
  intros Hh E. destruct (fill_node t a k) as (C & l & r & ->); [rewrite E; set_solver |].
  pose proof (proj2 Hh) as Hn. unfold locs in Hn.
  rewrite nodes_fill in E, Hn. cbn in E, Hn. rewrite <- app_assoc, app_assoc in E, Hn. cbn in E, Hn.
  destruct (split_unique _ _ _ _ _ _ E Hn) as [<- <-].
  split; [by eapply successor_fill | by eapply precursor_fill].
Qed.
End Searches.

(** ** Updates *)

Section Updates.
Context `{Malloc tree_node}.
Implicit Types h : gmap loc tree_node.

Lemma sees_locs par t h a v : a ∉ locs t -> sees h (cells par t) -> sees (<[a := v]> h) (cells par t).
Proof. intros Ha. apply sees_insert. by rewrite cells_locs. Qed.

Lemma sees_ctx_locs C p h a v : a ∉ ctx_locs C -> sees h (ctx_cells C p) -> sees (<[a := v]> h) (ctx_cells C p).
Proof. intros Ha. apply sees_insert. by rewrite ctx_cells_locs. Qed.

(** [if(v != NULL) v->parent = ...] *)
Lemma reparent h q par s : sees h (cells par s) -> NoDup (locs s) ->
  exists h', (match root_of s with None => ret tt | Some _ => modify (root_of s) (set_parent q) end) h =
      Done (tt, h') /\
    sees h' (cells q s) /\ dom h' = dom h /\ (forall x, x ∉ locs s -> h' !! x = h !! x).
Proof.
  destruct s as [| a k l r]; intros Hs Hn; [by exists h |]. cbn in Hs.
  rewrite sees_cons, sees_app in Hs. destruct Hs as (Ha & Hl & Hr).
  rewrite locs_node in *. apply NoDup_app in Hn as (_ & Hd & [Hn _]%NoDup_cons).
  exists (<[a := mkNode k (root_of l) (root_of r) q]> h). cbn [root_of].
  split_and!.
  - unfold modify. rewrite (bind_load _ _ _ _ Ha). unfold store. by rewrite decide_True by eauto.
  - cbn. rewrite sees_cons, sees_app, lookup_insert_eq.
    split_and!; [done | |]; apply sees_locs; try done. intros ?; apply (Hd a); set_solver.
  - rewrite dom_insert_L. apply elem_of_dom_2 in Ha. set_solver.
  - intros x Hx. rewrite lookup_insert_ne; [done | set_solver].
Qed.

(** The assignment to the field of the parent that holds [u]. *)
Lemma relink h C u q : sees h (ctx_cells C (Some u)) -> NoDup (ctx_locs C) -> u ∉ ctx_locs C ->
  exists h', (match top C with
     | None => ret tt
     | Some _ => let! pn := load (top C) in
                 if decide (Some u = left pn) then modify (top C) (set_left q)
                 else modify (top C) (set_right q)
     end) h = Done (tt, h') /\
    sees h' (ctx_cells C q) /\ dom h' = dom h /\ (forall x, x ∉ ctx_locs C -> h' !! x = h !! x).
Proof.
  destruct C as [| [b k r | b k l] C]; intros Hs Hn Hu; [by exists h | |];
    cbn [ctx_cells frame_cells app frame_loc] in Hs; rewrite sees_cons, sees_app in Hs;
    destruct Hs as (Hb & Hr & HC);
    rewrite ?ctx_locs_left, ?ctx_locs_right in Hn, Hu; apply NoDup_cons in Hn as [Hn _];
    cbn [top frame_loc]; setoid_rewrite (bind_load _ _ _ _ Hb); cbn [left];
    [rewrite decide_True by done
    | rewrite decide_False by (intros E; symmetry in E; apply root_in in E; set_solver)].
  - exists (<[b := mkNode k q (root_of r) (top C)]> h). split_and!.
    + unfold modify. rewrite (bind_load _ _ _ _ Hb). unfold store. by rewrite decide_True by eauto.
    + cbn. rewrite sees_cons, sees_app, lookup_insert_eq.
      split_and!; [done | apply sees_locs | apply sees_ctx_locs]; set_solver.
    + rewrite dom_insert_L. apply elem_of_dom_2 in Hb. set_solver.
    + intros x. rewrite ctx_locs_left. intros Hx. rewrite lookup_insert_ne; [done | set_solver].
  - exists (<[b := mkNode k (root_of l) q (top C)]> h). split_and!.
    + unfold modify. rewrite (bind_load _ _ _ _ Hb). unfold store. by rewrite decide_True by eauto.
    + cbn. rewrite sees_cons, sees_app, lookup_insert_eq.
      split_and!; [done | apply sees_locs | apply sees_ctx_locs]; set_solver.
    + rewrite dom_insert_L. apply elem_of_dom_2 in Hb. set_solver.
    + intros x. rewrite ctx_locs_right. intros Hx. rewrite lookup_insert_ne; [done | set_solver].
Qed.

Lemma root_fill C s s' : root_of s = root_of s' -> root_of (fill C s) = root_of (fill C s').
Proof. revert s s'. induction C as [| [] C IH]; intros s s' E; [done | |]; by apply IH. Qed.

Lemma root_fill_top C s s' : top C <> None -> root_of (fill C s) = root_of (fill C s').
Proof. destruct C as [| [] C]; [done | |]; intros _; by apply (root_fill C). Qed.
(** [transplant] puts a subtree into the place of the node [u]. *)
Lemma transplant_spec h C u un s0 par s : root_of s0 = Some u ->
  sees h (ctx_cells C (Some u)) -> h !! u = Some un -> parent un = top C -> sees h (cells par s) ->
  NoDup (u :: ctx_locs C ++ locs s) ->
  exists h', transplant (root_of (fill C s0)) (Some u) (root_of s) h = Done (root_of (fill C s), h') /\
    sees h' (ctx_cells C (root_of s)) /\ sees h' (cells (top C) s) /\ dom h' = dom h /\
    (forall x, x ∉ ctx_locs C -> x ∉ locs s -> h' !! x = h !! x).
Proof.
  intros Hs0 HC Hu Hpar Hs Hn. apply NoDup_cons in Hn as [Hun Hn].
  apply NoDup_app in Hn as (HnC & Hd & Hns). rewrite elem_of_app in Hun.
  destruct (relink h C u (root_of s) HC HnC ltac:(tauto)) as (h1 & E1 & HC1 & D1 & F1).
  assert (sees h1 (cells par s)) as Hs1.
  { eapply sees_agree, Hs. intros x. rewrite cells_locs. intros Hx. apply F1. intros Hin. by apply (Hd x). }
  destruct (reparent h1 (top C) par s Hs1 Hns) as (h2 & E2 & Hs2 & D2 & F2).
  exists h2. split_and!; [| | done | by rewrite D2 | intros; by rewrite F2, F1].
  - assert (h1 !! u = Some un) as Hu1 by (rewrite F1; tauto).
    unfold transplant. rewrite (bind_load _ _ _ _ Hu), Hpar.
    erewrite bind_eq; cycle 1.
    + instantiate (1 := h1). instantiate (1 := root_of (fill C s)). destruct C as [| f C].
      * by injection E1 as <-.
      * rewrite (root_fill_top (f :: C) s0 s) by done. cbn [top] in *.
        by rewrite <- bind_bind, (bind_eq _ _ _ _ _ E1).
    + destruct s as [| x k l r]; [by injection E2 as <- |]. cbn [root_of] in *.
      by rewrite (bind_load _ _ _ _ Hu1), Hpar, (bind_eq _ _ _ _ _ E2).
  - eapply sees_agree, HC1. intros x. rewrite ctx_cells_locs. intros Hx. apply F2. by apply Hd.
Qed.
(** The end of [tree_delete]: the left subtree of [a] moves below [y]. *)
Lemma adopt_left h C a n y ky l q (rt : ptr) : h !! a = Some n -> left n = root_of l -> l <> Leaf ->
  sees h (ctx_cells C (Some y)) -> sees h (cells (top C) (Node y ky Leaf q)) -> sees h (cells (Some a) l) ->
  NoDup (a :: ctx_locs C ++ locs l ++ y :: locs q) ->
  exists h', (let! n := load (Some a) in
      modify (Some y) (set_left (left n)) ;!
      let! yn := load (Some y) in
      modify (left yn) (set_parent (Some y)) ;! ret (0, rt)) h = Done ((0, rt), h') /\
    sees h' (ctx_cells C (Some y)) /\ sees h' (cells (top C) (Node y ky l q)) /\ dom h' = dom h.
Proof.
  intros Ha Hl Hl0 HC Hy Hs Hn. cbn in Hy. apply sees_cons in Hy as [Hy Hq].
  apply NoDup_cons in Hn as [Ha' Hn]. apply NoDup_app in Hn as (HnC & HdC & Hn).
  apply NoDup_app in Hn as (Hnl & Hdl & [Hyq _]%NoDup_cons).
  assert (y ∉ ctx_locs C) as HyC by (intros ?; apply (HdC y); set_solver).
  assert (y ∉ locs l) as Hyl by (intros ?; apply (Hdl y); set_solver).
  rewrite (bind_load _ _ _ _ Ha), Hl, (bind_modify _ _ _ _ _ Hy). cbn [set_left key right parent].
  set (h1 := <[y := _]> h).
  rewrite (bind_load y (mkNode ky (root_of l) (root_of q) (top C))) by apply lookup_insert_eq. cbn [left].
  destruct (reparent h1 (Some y) (Some a) l) as (h2 & E2 & Hl2 & D2 & F2); [by apply sees_locs | done |].
  exists h2. split_and!.
  - destruct l; [done |]. cbn [root_of] in *. by rewrite (bind_eq _ _ _ _ _ E2).
  - eapply sees_agree, (sees_ctx_locs _ _ _ y); [| exact HyC | exact HC].
    intros x. rewrite ctx_cells_locs. intros Hx. apply F2. intros ?. apply (HdC x); set_solver.
  - cbn. rewrite sees_cons, sees_app. split_and!; [| done |].
    + rewrite F2 by done. apply lookup_insert_eq.
    + eapply sees_agree, (sees_locs _ _ _ y); [| exact Hyq | exact Hq].
      intros x. rewrite cells_locs. intros Hx. apply F2. intros ?. apply (Hdl x); set_solver.
  - rewrite D2. unfold h1. rewrite dom_insert_L. apply elem_of_dom_2 in Hy. set_solver.
Qed.
Lemma top_app C D : C <> [] -> top (C ++ D) = top C.
Proof. by destruct C. Qed.

Lemma top_locs C a : top C = Some a -> a ∈ ctx_locs C.
Proof.
  destruct C as [| [b k r | b k l] C]; cbn [top frame_loc]; intros; simplify_eq;
    rewrite ?ctx_locs_left, ?ctx_locs_right; set_solver.
Qed.

Lemma ctx_locs_app C D : ctx_locs (C ++ D) ≡ₚ ctx_locs C ++ ctx_locs D.
Proof. unfold ctx_locs. rewrite before_app, after_app, !fmap_app. solve_Permutation. Qed.

Lemma fill_root D s : D <> [] -> exists x, root_of (fill D s) = Some x.
Proof.
  revert s. induction D as [| f D IH]; intros s HD; [done |]. cbn.
  destruct D as [| g D]; [destruct f; cbn; eauto | by apply IH].
Qed.

Lemma adopt_right h a n y ky (old : ptr) par q (rt : ptr) : h !! a = Some n -> right n = root_of q -> root_of q <> None ->
  h !! y = Some (mkNode ky None old par) -> sees h (cells (Some a) q) -> y ∉ locs q -> NoDup (locs q) ->
  exists h', (let! n := load (Some a) in
      modify (Some y) (set_right (right n)) ;!
      let! yn := load (Some y) in
      modify (right yn) (set_parent (Some y)) ;! ret rt) h = Done (rt, h') /\
    sees h' (cells par (Node y ky Leaf q)) /\ dom h' = dom h /\
    (forall x, x <> y -> x ∉ locs q -> h' !! x = h !! x).
Proof.
  intros Ha Hr Hq0 Hy Hq Hyq Hn.
  rewrite (bind_load _ _ _ _ Ha), Hr, (bind_modify _ _ _ _ _ Hy). cbn [set_right key left parent].
  set (h1 := <[y := _]> h).
  rewrite (bind_load y (mkNode ky None (root_of q) par)) by apply lookup_insert_eq. cbn [right].
  destruct (reparent h1 (Some y) (Some a) q) as (h2 & E2 & Hq2 & D2 & F2); [by apply sees_locs | done |].
  exists h2. split_and!.
  - destruct (root_of q); [| done]. by rewrite (bind_eq _ _ _ _ _ E2).
  - cbn. rewrite sees_cons. split; [| done]. rewrite F2 by done. apply lookup_insert_eq.
  - rewrite D2. unfold h1. rewrite dom_insert_L. apply elem_of_dom_2 in Hy. set_solver.
  - intros x Hx Hxq. rewrite F2 by done. by apply lookup_insert_ne.
Qed.

Lemma detach_far h C a k l D y ky ry :
  let t := fill C (Node a k l (fill D (Node y ky Leaf ry))) in
  holds h t -> D <> [] ->
  exists yn h' n,
    h !! y = Some yn /\ right yn = root_of ry /\ detach (root_of t) (Some a) (Some y) yn h = Done (root_of t, h') /\
    sees h' (ctx_cells C (Some a)) /\ h' !! a = Some n /\ left n = root_of l /\ parent n = top C /\
    sees h' (cells (Some a) l) /\ sees h' (cells (parent yn) (Node y ky Leaf (fill D ry))) /\
    dom h' = dom h.
Proof.
  intros t Hh HD. assert (t = fill (D ++ InRight a k l :: C) (Node y ky Leaf ry)) as Et.
  { unfold t. by rewrite fill_app. }
  assert (root_of t = root_of (fill (D ++ InRight a k l :: C) ry)) as Er.
  { unfold t. rewrite fill_app. by apply (root_fill C). }
  clearbody t. rewrite Er. assert (Er0 := Er). rewrite Et in Er0. subst t. pose proof (proj1 (holds_fill _ _ _) Hh) as (HC & Hs & Hn).
  cbn in Hs. apply sees_cons in Hs as [Hy Hry].
  rewrite locs_node in Hn. cbn in Hn.
  assert (top (D ++ InRight a k l :: C) <> Some a) as Hpar.
  { rewrite top_app by done. intros E. apply top_locs in E. rewrite ctx_locs_app, ctx_locs_right in Hn.
    apply NoDup_app in Hn as (Hn & _). apply NoDup_app in Hn as (_ & Hd & _). apply (Hd a E). set_solver. }
  destruct (transplant_spec h (D ++ InRight a k l :: C) y _ (Node y ky Leaf ry) (Some y) ry eq_refl HC Hy)
    as (h1 & E1 & HC1 & Hs1 & D1 & F1); [done | done | nodup_perm Hn |].
  assert (holds h1 (fill (D ++ InRight a k l :: C) ry)) as Hh1.
  { apply holds_fill. split_and!; [done | done |]. apply NoDup_app in Hn as (H1 & H2 & H3).
    apply NoDup_app. apply NoDup_cons in H3 as [_ H3]. split_and!; [done | set_solver | done]. }
  assert ((y ∉ ctx_locs (D ++ InRight a k l :: C)) /\ (y ∉ locs ry)) as [HyC Hyr].
  { apply NoDup_app in Hn as (_ & Hd & [Hn _]%NoDup_cons). split; [intros Hx; apply (Hd y); set_solver | done]. }
  assert (h1 !! y = h !! y) as Hy1 by by apply F1. rewrite Hy in Hy1.
  rewrite fill_app in Hh1. apply holds_fill in Hh1 as (HC2 & Hr & Hn2).
  cbn [top frame_loc] in Hr. cbn [ctx_cells frame_cells app frame_loc] in HC2.
  rewrite sees_cons, sees_app in HC2. destruct HC2 as (Ha & Hl & HC2).
  assert (Hn3 := Hn2). rewrite ctx_locs_right in Hn2.
  apply NoDup_app in Hn2 as (HnC & HdC & Hnr). apply NoDup_cons in HnC as [HaC _].
  assert (y ∉ locs (fill D ry)) as Hyr2.
  { rewrite locs_fill. rewrite ctx_locs_app in HyC. set_solver. }
  rewrite ctx_locs_app, ctx_locs_right in HyC.
  destruct (fill_root D ry HD) as [x Hx].
  destruct (adopt_right h1 a _ y ky (root_of ry) (top (D ++ InRight a k l :: C)) (fill D ry)
    (root_of (fill (D ++ InRight a k l :: C) ry)) Ha eq_refl ltac:(by rewrite Hx) Hy1 Hr Hyr2 Hnr)
    as (h2 & E2 & Hy2 & D2 & F2).
  assert (forall z, z ∈ a :: locs l ++ ctx_locs C -> h2 !! z = h1 !! z) as F3.
  { intros z Hz. apply F2; [set_solver |]. intros Hz'. by apply (HdC z). }
  eexists _, h2, _. split; [exact Hy |]. split_and!; [done | | | rewrite F3 by set_solver; exact Ha
    | done | done | | done | by rewrite D2].
  - unfold detach. cbn [parent right]. rewrite decide_False by done. rewrite <- Er0.
    by rewrite (bind_eq _ _ _ _ _ E1), E2, Er0.
  - eapply sees_agree, HC2. intros z. rewrite ctx_cells_locs. intros. apply F3. set_solver.
  - eapply sees_agree, Hl. intros z. rewrite cells_locs. intros. apply F3. set_solver.
Qed.
Lemma delete_leaf h C a k l r s : holds h (fill C (Node a k l r)) ->
  (l = Leaf /\ s = r) \/ (r = Leaf /\ s = l) ->
  exists h', transplant (root_of (fill C (Node a k l r))) (Some a) (root_of s) h = Done (root_of (fill C s), h') /\
    holds h' (fill C s) /\ dom h' = dom h.
Proof.
  intros Hh Hs. apply holds_fill in Hh as (HC & Ht & Hn). cbn in Ht.
  rewrite sees_cons, sees_app in Ht. destruct Ht as (Ha & Hl & Hr).
  assert (sees h (cells (Some a) s) /\ NoDup (a :: ctx_locs C ++ locs s)) as [Hsc Hns].
  { rewrite locs_node in Hn. destruct Hs as [[-> ->] | [-> ->]]; (split; [done |]); cbn in Hn;
      rewrite ?app_nil_r in Hn; nodup_perm Hn. }
  destruct (transplant_spec h C a _ (Node a k l r) (Some a) s eq_refl HC Ha) as (h' & E & HC' & Hs' & D & _);
    [done.. |].
  exists h'. split_and!; [done | | done]. apply holds_fill. split_and!; [done | done |].
  by apply NoDup_cons in Hns as [_ Hns].
Qed.

Lemma delete_inner h C a k l D y ky ry :
  let r := fill D (Node y ky Leaf ry) in
  let t := fill C (Node a k l r) in
  let q := match D with [] => ry | _ => fill D ry end in
  holds h t -> l <> Leaf ->
  exists yn h',
    h !! y = Some yn /\
    (let! root := detach (root_of t) (Some a) (Some y) yn in
     let! root := transplant root (Some a) (Some y) in
     let! n := load (Some a) in
     modify (Some y) (set_left (left n)) ;!
     let! yn := load (Some y) in
     modify (left yn) (set_parent (Some y)) ;!
     ret (0, root)) h = Done ((0, root_of (fill C (Node y ky l q))), h') /\
    holds h' (fill C (Node y ky l q)) /\ dom h' = dom h.
Proof.
  intros r t q Hh Hl.
  assert (exists yn h1 n, h !! y = Some yn /\ detach (root_of t) (Some a) (Some y) yn h = Done (root_of t, h1) /\
    sees h1 (ctx_cells C (Some a)) /\ h1 !! a = Some n /\ left n = root_of l /\ parent n = top C /\
    sees h1 (cells (Some a) l) /\ sees h1 (cells (parent yn) (Node y ky Leaf q)) /\ dom h1 = dom h)
    as (yn & h1 & n & Hy & E1 & HC1 & Ha1 & Hl1 & Hp1 & Hlc1 & Hyc1 & D1).
  { destruct D as [| f D].
    - apply holds_fill in Hh as (HC & Ht & _). cbn in Ht. rewrite sees_cons, sees_app, sees_cons in Ht.
      destruct Ht as (Ha & Hlc & Hy & Hq). eexists _, h, _. split; [exact Hy |].
      split_and!; [| done | exact Ha | done | done | done | | done].
      + unfold detach. by rewrite decide_True.
      + cbn. by rewrite sees_cons.
    - destruct (detach_far h C a k l (f :: D) y ky ry Hh ltac:(done))
        as (yn & h1 & n & ? & ? & ? & ? & ? & ? & ? & ? & ? & ?). by exists yn, h1, n. }
  pose proof (proj2 Hh) as Hn. unfold t, r in Hn. rewrite locs_fill, locs_node, locs_fill, locs_node in Hn.
  assert (locs q ≡ₚ ctx_locs D ++ locs ry) as Eq.
  { unfold q. destruct D; [done |]. by rewrite locs_fill. }
  assert (NoDup (a :: ctx_locs C ++ locs l ++ y :: locs q)) as Hn1 by (rewrite Eq; nodup_perm Hn).
  assert (NoDup (locs l ++ a :: ctx_locs C ++ y :: locs q)) as (_ & Hd & Hn2)%NoDup_app by nodup_perm Hn1.
  destruct (transplant_spec h1 C a n (Node a k l r) (parent yn) (Node y ky Leaf q) eq_refl HC1 Ha1 Hp1 Hyc1)
    as (h2 & E2 & HC2 & Hs2 & D2 & F2).
  { rewrite locs_node. exact Hn2. }
  destruct (adopt_left h2 C a n y ky l q (root_of (fill C (Node y ky Leaf q)))) as (h3 & E3 & HC3 & Hs3 & D3);
    try done.
  - rewrite F2; [done | |]; rewrite ?locs_node; apply NoDup_cons in Hn2 as [Hn2 _]; set_solver.
  - eapply sees_agree, Hlc1. intros x. rewrite cells_locs. intros Hx.
    apply F2; rewrite ?locs_node; intros Hx'; apply (Hd x Hx); set_solver.
  - exists yn, h3. split_and!; [done | | | by rewrite D3, D2, D1].
    + rewrite (bind_eq _ _ _ _ _ E1), (bind_eq _ _ _ _ _ E2), E3. do 3 f_equal. by apply (root_fill C).
    + apply holds_fill. split_and!; [done | done |]. apply NoDup_cons in Hn1 as [_ Hn1].
      by rewrite locs_node.
Qed.
Lemma delete_node_spec h C a k l r : holds h (fill C (Node a k l r)) ->
  exists s h', nodes s = nodes l ++ nodes r /\
    delete_node (root_of (fill C (Node a k l r))) (Some a) h = Done ((0, root_of (fill C s)), h') /\
    holds h' (fill C s) /\ dom h' = dom h.
Proof.
  intros Hh. assert (h !! a = Some (mkNode k (root_of l) (root_of r) (top C))) as Ha by by eapply holds_climb.
  unfold delete_node. rewrite (bind_load _ _ _ _ Ha). cbn [left right].
  destruct l as [| b kb lb rb].
  { destruct (delete_leaf h C a k Leaf r r Hh) as (h' & E & Hh' & D); [by left |].
    exists r, h'. cbn [root_of]. by rewrite (bind_eq _ _ _ _ _ E). }
  destruct r as [| c kc lc rc].
  { destruct (delete_leaf h C a k (Node b kb lb rb) Leaf (Node b kb lb rb) Hh) as (h' & E & Hh' & D); [by right |].
    exists (Node b kb lb rb), h'. cbn [root_of nodes] in *. rewrite app_nil_r.
    by rewrite (bind_eq _ _ _ _ _ E). }
  assert (Hr := Hh). change (Node a k ?l ?r) with (fill [InRight a k l] r) in Hr. rewrite <- fill_app in Hr.
  destruct (minimum_spec _ _ _ Hr ltac:(done)) as (D & y & ky & ry & Er & HD & Em).
  cbn [root_of] in Em |- *. rewrite (bind_eq _ _ _ _ _ Em). rewrite Er in Hh |- *.
  destruct (delete_inner h C a k (Node b kb lb rb) D y ky ry Hh ltac:(done)) as (yn & h' & Hy & E & Hh' & Dm).
  rewrite (bind_load _ _ _ _ Hy). exists (Node y ky (Node b kb lb rb) (match D with [] => ry | _ => fill D ry end)), h'.
  split; [| by rewrite E]. rewrite nodes_fill, HD. cbn [nodes app]. do 2 f_equal.
  assert (nodes (fill D ry) = nodes ry ++ after D) as Eq by by rewrite nodes_fill, HD.
  destruct D; [| done]. cbn. by rewrite app_nil_r.
Qed.

(** Deleting takes exactly the node that the search finds out of the tree; it stays on the
    heap. *)
Lemma delete_spec h t k : holds h t ->
  match find k t with
  | None => tree_delete (root_of t) k h = Done ((-1, root_of t), h)
  | Some a => exists t' h' xs ys, nodes t = xs ++ (a, k) :: ys /\ nodes t' = xs ++ ys /\
      tree_delete (root_of t) k h = Done ((0, root_of t'), h') /\ holds h' t' /\ dom h' = dom h
  end.
Proof.
  intros Hh. unfold tree_delete. rewrite (bind_eq _ _ _ _ _ (tree_search_spec k h t Hh)).
  destruct (find k t) as [a |] eqn:Ef; [| done].
  apply find_fill in Ef as (C & l & r & ->).
  destruct (delete_node_spec h C a k l r Hh) as (s & h' & Es & E & Hh' & D).
  exists (fill C s), h', (before C ++ nodes l), (nodes r ++ after C).
  rewrite !nodes_fill, Es. cbn. by simplify_list_eq.
Qed.
(** Where a new key goes: after all that are not greater. *)
Definition place (C : list frame) (k : Z) : Prop :=
  Forall (fun c => c.2 <= k) (before C) /\ Forall (fun c => k < c.2) (after C).

Lemma descend_spec k h s : forall C fuel, sees h (cells (top C) s) -> (height s <= fuel)%nat ->
  StronglySorted Z.le (nodes s).*2 -> place C k ->
  exists C', fill C s = fill C' Leaf /\ place C' k /\
    descend_loop fuel k (top C) (root_of s) h = Done (top C', h).
Proof.
  induction s as [| a k' l IHl r IHr]; intros C fuel Hs Hf Hso [Hb Ha].
  { exists C. split_and!; [done | done | by destruct fuel]. }
  destruct fuel as [| fuel]; cbn in Hf; [lia |]. cbn in Hs. rewrite sees_cons, sees_app in Hs.
  destruct Hs as (Hx & Hl & Hr). cbn [descend_loop root_of]. rewrite (bind_load _ _ _ _ Hx).
  cbn [key left right]. cbn in Hso. rewrite fmap_app in Hso. csimpl in Hso.
  apply StronglySorted_app in Hso as (Hkl & Hsl & Hsr).
  inversion Hsr as [| ? ? Hsr' Hkr]; subst.
  case_match.
  - apply (IHl (InLeft a k' r :: C)); [done | lia | done |]. split; [done |]. cbn.
    apply Forall_cons. split; [cbn; lia |]. apply Forall_app. split; [| done].
    apply Forall_forall. intros c Hc. rewrite Forall_forall in Hkr. specialize (Hkr c.2 ltac:(by apply list_elem_of_fmap_2)). lia.
  - apply (IHr (InRight a k' l :: C)); [done | lia | done |]. split; [| done]. cbn.
    apply Forall_app. split; [done |]. apply Forall_app. split; [| by repeat constructor; cbn; lia].
    apply Forall_forall. intros c Hc. specialize (Hkl c.2 k' ltac:(by apply list_elem_of_fmap_2) ltac:(set_solver)). lia.
Qed.

Lemma attach h f C a k rt : sees h (ctx_cells (f :: C) None) -> NoDup (ctx_locs (f :: C)) ->
  a ∉ ctx_locs (f :: C) -> h !! a = Some (mkNode k None None None) -> place (f :: C) k ->
  let y := Some (frame_loc f) in
  exists h', (let! n := load y in
      (if k <? key n then modify y (set_left (Some a)) else modify y (set_right (Some a))) ;!
      modify (Some a) (set_parent y) ;! ret (0, rt : ptr)) h = Done ((0, rt), h') /\
    sees h' (ctx_cells (f :: C) (Some a)) /\ h' !! a = Some (mkNode k None None y) /\ dom h' = dom h.
Proof.
  intros Hs Hn Ha Hha [Hpb Hpa] y.
  destruct f as [b kb r | b kb l]; cbn [ctx_cells frame_cells app frame_loc] in Hs; rewrite sees_cons, sees_app in Hs;
    destruct Hs as (Hb & Hr & HC); rewrite ?ctx_locs_left, ?ctx_locs_right in Hn, Ha;
    apply NoDup_cons in Hn as [Hn _]; cbn [frame_loc] in y; subst y; rewrite (bind_load _ _ _ _ Hb);
    cbn [key frame_loc]; assert (a <> b) as Hab by set_solver.
  - apply Forall_cons in Hpa as [Hk _]. cbn in Hk. rewrite (proj2 (Z.ltb_lt k kb) Hk).
    rewrite (bind_modify _ _ _ _ _ Hb), (bind_modify _ (mkNode k None None None)) by by rewrite lookup_insert_ne.
    eexists. split_and!; [done | | by rewrite lookup_insert_eq |].
    + cbn. rewrite sees_cons, sees_app, lookup_insert_ne, lookup_insert_eq by done.
      split_and!; [done | |]; repeat first [apply sees_locs | apply sees_ctx_locs]; set_solver.
    + rewrite !dom_insert_L. apply elem_of_dom_2 in Hb, Hha. set_solver.
  - cbn [before] in Hpb. rewrite !Forall_app, Forall_singleton in Hpb. destruct Hpb as (_ & _ & Hk). cbn in Hk.
    rewrite (proj2 (Z.ltb_ge k kb) Hk).
    rewrite (bind_modify _ _ _ _ _ Hb), (bind_modify _ (mkNode k None None None)) by by rewrite lookup_insert_ne.
    eexists. split_and!; [done | | by rewrite lookup_insert_eq |].
    + cbn. rewrite sees_cons, sees_app, lookup_insert_ne, lookup_insert_eq by done.
      split_and!; [done | |]; repeat first [apply sees_locs | apply sees_ctx_locs]; set_solver.
    + rewrite !dom_insert_L. apply elem_of_dom_2 in Hb, Hha. set_solver.
Qed.

(** Insertion: after the last key that is not greater; or nothing, without memory. *)
Lemma insert_spec h t k : holds h t -> StronglySorted Z.le (nodes t).*2 ->
  match malloc h with
  | None => insert (root_of t) k h = Done ((-1, root_of t), h)
  | Some a => exists C h', t = fill C Leaf /\ place C k /\
      insert (root_of t) k h = Done ((0, root_of (fill C (Node a k Leaf Leaf))), h') /\
      holds h' (fill C (Node a k Leaf Leaf)) /\ dom h' = {[a]} ∪ dom h
  end.
Proof.
  intros Hh Hso. unfold insert, new_node. rewrite bind_alloc.
  destruct (malloc h) as [a |] eqn:Em; [| done]. apply malloc_fresh in Em.
  set (h1 := <[a := _]> h).
  assert (a ∉ locs t) as Hat.
  { rewrite <- (cells_locs t None). intros Hin. destruct (sees_dom _ _ _ (proj1 Hh) Hin) as [v Hv]. congruence. }
  pose proof (holds_size _ _ Hh). pose proof (height_nodes t).
  assert (size h <= size h1)%nat as Hsz by (unfold h1; rewrite map_size_insert, Em; cbn; lia).
  destruct (descend_spec k h1 t [] (S (size h1))) as (C & Et & Hp & E);
    [by apply sees_locs, Hh | lia | done | by split; constructor |].
  cbn in Et. subst t. exists C. erewrite bind_eq by exact E.
  assert (h1 !! a = Some (mkNode k None None None)) as Ha by apply lookup_insert_eq.
  apply holds_fill in Hh as (HC & _ & Hn). rewrite locs_fill in Hat. cbn in Hn, Hat. rewrite app_nil_r in Hn, Hat.
  assert (dom h1 = {[a]} ∪ dom h) as D1 by apply dom_insert_L.
  destruct C as [| f C].
  { exists h1. split_and!; [done | done | done | | done].
    split; [apply sees_cons; split; [done | apply sees_nil] |].
    exact (NoDup_singleton a). }
  apply (sees_ctx_locs _ _ _ a (mkNode k None None None) Hat) in HC.
  destruct (attach h1 f C a k (root_of (fill (f :: C) Leaf)) HC Hn Hat Ha Hp) as (h2 & E2 & HC2 & Ha2 & D2).
  exists h2. split_and!; [done | done | | | by rewrite D2].
  - cbn [top]. rewrite E2. do 3 f_equal. by apply root_fill_top.
  - apply holds_fill. split_and!; [done | apply sees_cons; split; [done | apply sees_nil] |]. rewrite locs_node.
    apply NoDup_app. split_and!; [done | | exact (NoDup_singleton a)]. set_solver.
Qed.

Lemma walk_loop_spec h t : forall par fuel, sees h (cells par t) -> (height t <= fuel)%nat ->
  walk_loop fuel (root_of t) h = Done (keys t, h).
Proof.
  unfold keys. induction t as [| a k l IHl r IHr]; intros par fuel Hs Hf; [by destruct fuel |].
  destruct fuel as [| fuel]; cbn in Hf; [lia |]. cbn in Hs. rewrite sees_cons, sees_app in Hs.
  destruct Hs as (Ha & Hl & Hr). cbn [walk_loop root_of]. rewrite (bind_load _ _ _ _ Ha). cbn [left right key].
  rewrite (bind_eq _ _ _ _ _ (IHl _ fuel Hl ltac:(lia))), (bind_eq _ _ _ _ _ (IHr _ fuel Hr ltac:(lia))).
  cbn. by rewrite fmap_app.
Qed.

Lemma free_loop_spec t : forall h par fuel, sees h (cells par t) -> NoDup (locs t) -> (height t <= fuel)%nat ->
  exists h', free_loop fuel (root_of t) h = Done (tt, h') /\ (forall x, x ∈ locs t -> h' !! x = None) /\
    (forall x, x ∉ locs t -> h' !! x = h !! x).
Proof.
  induction t as [| a k l IHl r IHr]; intros h par fuel Hs Hn Hf.
  { exists h. split_and!; [by destruct fuel | set_solver | done]. }
  destruct fuel as [| fuel]; cbn in Hf; [lia |]. cbn in Hs. rewrite sees_cons, sees_app in Hs.
  destruct Hs as (Ha & Hl & Hr). cbn [free_loop root_of]. rewrite (bind_load _ _ _ _ Ha). cbn [left].
  rewrite locs_node in *. apply NoDup_app in Hn as (Hnl & Hd & [Har Hnr]%NoDup_cons).
  destruct (IHl h _ fuel Hl Hnl ltac:(lia)) as (h1 & E1 & N1 & F1). rewrite (bind_eq _ _ _ _ _ E1).
  assert (h1 !! a = h !! a) as Ha1 by (apply F1; intros ?; apply (Hd a); set_solver).
  rewrite Ha in Ha1. rewrite (bind_load _ _ _ _ Ha1). cbn [right].
  destruct (IHr h1 (Some a) fuel) as (h2 & E2 & N2 & F2); [| done | lia |].
  { eapply sees_agree, Hr. intros x. rewrite cells_locs. intros Hx. apply F1. intros ?. apply (Hd x); set_solver. }
  rewrite (bind_eq _ _ _ _ _ E2).
  assert (h2 !! a = h1 !! a) as Ha2 by by apply F2. rewrite Ha1 in Ha2.
  exists (delete a h2). split_and!.
  - unfold dealloc. by rewrite decide_True by eauto.
  - intros x Hx. destruct (decide (x = a)) as [-> | Hxa]; [apply lookup_delete_eq |].
    rewrite lookup_delete_ne by done. destruct (decide (x ∈ locs r)); [by apply N2 |].
    rewrite F2 by done. apply N1. set_solver.
  - intros x Hx. rewrite lookup_delete_ne, F2, F1; set_solver.
Qed.
End Updates.

(** ** The tree as a sorted list *)

Inductive op := OInsert (k : Z) | ODelete (k : Z) | OSearch (k : Z) | OWalk.
Inductive answer := RInt (z : Z) | RFound (k : option Z) | RKeys (ks : list Z).

Section Refinement.
Context `{Malloc tree_node}.
Implicit Types h : gmap loc tree_node.

(** One call by a program that holds the root. *)
Definition call (o : op) (root : ptr) : M tree_node (answer * ptr) :=
  match o with
  | OInsert k => let! (z, root) := insert root k in ret (RInt z, root)
  | ODelete k => let! (z, root) := tree_delete root k in ret (RInt z, root)
  | OSearch k =>
    let! p := tree_search root k in
    match p with
    | None => ret (RFound None, root)
    | Some _ => let! n := load p in ret (RFound (Some (key n)), root)
    end
  | OWalk => let! ks := tree_inorder_walk root in ret (RKeys ks, root)
  end.
Fixpoint calls (os : list op) (root : ptr) : M tree_node (list answer * ptr) :=
  match os with
  | [] => ret ([], root)
  | o :: os => let! (r, root) := call o root in let! (rs, root) := calls os root in ret (r :: rs, root)
  end.

(** What a call does to the sorted list of the keys, when there is memory or not. *)
Inductive spec (mem : bool) : op -> list Z -> answer -> list Z -> Prop :=
  | spec_insert k xs ys : mem = true -> Forall (fun x => x <= k) xs -> Forall (fun y => k < y) ys ->
      spec mem (OInsert k) (xs ++ ys) (RInt 0) (xs ++ k :: ys)
  | spec_no_memory k ks : mem = false -> spec mem (OInsert k) ks (RInt (-1)) ks
  | spec_delete k xs ys : spec mem (ODelete k) (xs ++ k :: ys) (RInt 0) (xs ++ ys)
  | spec_absent k ks : k ∉ ks -> spec mem (ODelete k) ks (RInt (-1)) ks
  | spec_search k ks : spec mem (OSearch k) ks (RFound (if decide (k ∈ ks) then Some k else None)) ks
  | spec_walk ks : spec mem OWalk ks (RKeys ks) ks.

(** The nodes that a call leaves on the heap without a pointer to them. *)
Definition leaked (o : op) (r : answer) : nat :=
  match o, r with ODelete _, RInt 0 => 1 | _, _ => 0 end.

Inductive specs (may_fail : bool) : list op -> list Z -> list answer -> list Z -> nat -> Prop :=
  | specs_nil ks : specs may_fail [] ks [] ks 0
  | specs_cons mem o os ks a ks1 rs ks2 n : (mem = false -> may_fail = true) ->
      spec mem o ks a ks1 -> specs may_fail os ks1 rs ks2 n -> specs may_fail (o :: os) ks (a :: rs) ks2 (leaked o a + n).

Lemma find_keys k t : StronglySorted Z.le (keys t) -> (find k t = None <-> k ∉ keys t).
Proof.
  unfold keys. induction t as [| a k' l IHl r IHr]; cbn; [set_solver |].
  rewrite fmap_app. csimpl. intros (Hlr & Hl & Hr)%StronglySorted_app.
  inversion Hr as [| ? ? Hr' Hk]; subst. rewrite Forall_forall in Hk.
  assert (forall x, x ∈ (nodes l).*2 -> x <= k') as Hlk by (intros; apply Hlr; set_solver).
  case_match; [set_solver by lia |]. rewrite not_elem_of_app, not_elem_of_cons.
  case_match; [rewrite IHl by done | rewrite IHr by done]; split; try tauto; intros Hn; split_and!; try done; try lia.
  - intros Hx. specialize (Hk _ Hx). lia.
  - intros Hx. specialize (Hlk _ Hx). lia.
Qed.

Lemma sorted_remove (xs ys : list Z) k : StronglySorted Z.le (xs ++ k :: ys) -> StronglySorted Z.le (xs ++ ys).
Proof.
  intros (H1 & H2 & H3)%StronglySorted_app. apply StronglySorted_app.
  inversion H3; subst. split_and!; [set_solver | done | done].
Qed.

Lemma sorted_add (xs ys : list Z) k : Forall (fun x => x <= k) xs -> Forall (fun y => k < y) ys ->
  StronglySorted Z.le (xs ++ ys) -> StronglySorted Z.le (xs ++ k :: ys).
Proof.
  rewrite !Forall_forall. intros Hx Hy (H1 & H2 & H3)%StronglySorted_app. apply StronglySorted_app.
  split_and!; [| done |].
  - intros x y Hxin [-> | Hyin]%elem_of_cons; [by apply Hx | by apply H1].
  - constructor; [done |]. apply Forall_forall. intros y Hyin. specialize (Hy y Hyin). lia.
Qed.

Lemma call_spec o t h : holds h t -> StronglySorted Z.le (keys t) ->
  exists a t' h', call o (root_of t) h = Done ((a, root_of t'), h') /\ holds h' t' /\
    StronglySorted Z.le (keys t') /\ spec (bool_decide (is_Some (malloc h))) o (keys t) a (keys t') /\
    (size h' + length (keys t) = size h + length (keys t') + leaked o a)%nat.
Proof.
  intros Hh Hs. destruct o as [k | k | k |]; cbn [call].
  - pose proof (insert_spec h t k Hh Hs) as Hi. destruct (malloc h) as [a |] eqn:Em.
    + destruct Hi as (C & h' & -> & [Hb Ha] & E & Hh' & D). rewrite (bind_eq _ _ _ _ _ E).
      exists (RInt 0), (fill C (Node a k Leaf Leaf)), h'.
      unfold keys in *. rewrite !nodes_fill in *. cbn [nodes app] in *. rewrite !fmap_app in *. csimpl.
      rewrite <- (Forall_fmap snd (fun x => x <= k)) in Hb. rewrite <- (Forall_fmap snd (fun y => k < y)) in Ha.
      split_and!; [done | done | by apply sorted_add | by constructor |].
      apply malloc_fresh in Em. rewrite <- !(size_dom (D := gset loc)), D, size_union, size_singleton, !length_app.
      * cbn. lia.
      * apply not_elem_of_dom in Em. set_solver.
    + rewrite (bind_eq _ _ _ _ _ Hi). exists (RInt (-1)), t, h. split_and!; try done; first [by constructor | cbn; lia].
  - pose proof (delete_spec h t k Hh) as Hd. destruct (find k t) as [a |] eqn:Ef.
    + destruct Hd as (t' & h' & xs & ys & E1 & E2 & E & Hh' & D). rewrite (bind_eq _ _ _ _ _ E).
      exists (RInt 0), t', h'. unfold keys in *. rewrite E1, E2 in *. rewrite !fmap_app in *. csimpl in *.
      split_and!; [done | done | by eapply sorted_remove | by constructor |].
      rewrite <- !(size_dom (D := gset loc)), D, !length_app. cbn. lia.
    + rewrite (bind_eq _ _ _ _ _ Hd). apply find_keys in Ef; [| done].
      exists (RInt (-1)), t, h. split_and!; try done; first [by constructor | cbn; lia].
  - rewrite (bind_eq _ _ _ _ _ (tree_search_spec k h t Hh)).
    exists (RFound (if decide (k ∈ keys t) then Some k else None)), t, h.
    split_and!; try done; try first [by constructor | cbn; lia].
    destruct (find k t) as [a |] eqn:Ef.
    + rewrite decide_True.
      * apply find_fill in Ef as (C & l & r & ->). destruct (holds_climb _ _ _ _ _ _ Hh) as [Ha _].
        by rewrite (bind_load _ _ _ _ Ha).
      * destruct (decide (k ∈ keys t)) as [| Hk]; [done |]. apply find_keys in Hk; [congruence | done].
    + rewrite decide_False; [done | by apply find_keys].
  - pose proof (holds_size _ _ Hh). pose proof (height_nodes t).
    exists (RKeys (keys t)), t, h. split_and!; try done; try first [by constructor | cbn; lia].
    by erewrite bind_eq by exact (walk_loop_spec h t None (S (size h)) (proj1 Hh) ltac:(lia)).
Qed.

Lemma calls_spec may_fail os : (may_fail = false -> forall h, malloc h <> None) -> forall t h,
  holds h t -> StronglySorted Z.le (keys t) ->
  exists rs t' h' n, calls os (root_of t) h = Done ((rs, root_of t'), h') /\ holds h' t' /\
    StronglySorted Z.le (keys t') /\ specs may_fail os (keys t) rs (keys t') n /\
    (size h' + length (keys t) = size h + length (keys t') + n)%nat.
Proof.
  intros Hm. induction os as [| o os IH]; intros t h Hh Hs; cbn [calls].
  { exists [], t, h, 0%nat. split_and!; try done; first [by constructor | lia]. }
  destruct (call_spec o t h Hh Hs) as (a & t1 & h1 & E1 & Hh1 & Hs1 & Hsp & Hz1).
  destruct (IH t1 h1 Hh1 Hs1) as (rs & t2 & h2 & n & E2 & Hh2 & Hs2 & Hsps & Hz2).
  exists (a :: rs), t2, h2, (leaked o a + n)%nat. rewrite (bind_eq _ _ _ _ _ E1), (bind_eq _ _ _ _ _ E2).
  split_and!; try done; try lia. econstructor; [| done | done].
  intros Hf. destruct may_fail; [done |]. apply bool_decide_eq_false in Hf.
  destruct (malloc h) eqn:Em; [by destruct Hf | by apply Hm in Em].
Qed.

(** C20: The tree implements a sorted list of keys: from an empty tree, any calls of [insert],
    [tree_delete], [tree_search] and [tree_inorder_walk] run without undefined behaviour
    and answer as insertion into, deletion from and search in the sorted list do, on every
    path over the parent pointers; [insert] fails only when [malloc] does.  Each deletion
    leaves one node on the heap for good: when [tree_free] has returned, exactly one cell is
    left for each. *)
Theorem tree_refinement may_fail os : (may_fail = false -> forall h, malloc h <> None) ->
  exists rs root h ks n h', calls os None ∅ = Done ((rs, root), h) /\ specs may_fail os [] rs ks n /\
    StronglySorted Z.le ks /\ tree_inorder_walk root h = Done (ks, h) /\
    tree_free root h = Done (tt, h') /\ size h' = n.
Proof.
  intros Hm. destruct (calls_spec may_fail os Hm Leaf ∅) as (rs & t & h & n & E & Hh & Hs & Hsp & Hz).
  { split; [apply sees_nil | constructor]. }
  { constructor. }
  pose proof (holds_size _ _ Hh). pose proof (height_nodes t). pose proof (proj2 Hh) as Hn.
  destruct (free_loop_spec t h None (S (size h)) (proj1 Hh) Hn ltac:(lia)) as (h' & Ef & N & F).
  exists rs, (root_of t), h, (keys t), n, h'. split_and!; try done.
  - apply (walk_loop_spec h t None); [apply Hh | lia].
  - assert (dom h = dom h' ∪ list_to_set (locs t)) as D.
    { apply set_eq. intros x. rewrite elem_of_union, !elem_of_dom, elem_of_list_to_set.
      destruct (decide (x ∈ locs t)) as [Hx | Hx].
      - split; [auto |]. intros _. apply (sees_dom h (cells None t)); [apply Hh |]. by rewrite cells_locs.
      - rewrite F by done. naive_solver. }
    assert (dom h' ## list_to_set (locs t)) as Hdis.
    { intros x Hx Hx'%elem_of_list_to_set. apply elem_of_dom in Hx as [v Hv]. rewrite N in Hv; done. }
    assert (size (dom h) = size (dom h') + length (locs t))%nat as Hsz.
    { rewrite D, size_union, size_list_to_set by done. done. }
    rewrite !size_dom in Hsz. unfold locs, keys in *. rewrite ?length_fmap in *.
    change (length (nodes Leaf)) with 0%nat in Hz. rewrite map_size_empty in Hz. lia.
Qed.
End Refinement.
End TreeSpec.

Module TreeSamples.
(** An allocator that never fails. *)
#[export] Instance fresh_malloc : Malloc tree_node := {
  malloc h := Some (fresh (dom h));
  malloc_fresh h l := ltac:(intros [= <-]; apply not_elem_of_dom, is_fresh)
}.

(** The calls of [main]. *)
Definition main_calls : list TreeSpec.op :=
  (TreeSpec.OInsert <$> [2; 3; 1; 6; 0; 10; -10; 2; 5]) ++ (TreeSpec.OSearch 3 ::
  (TreeSpec.ODelete <$> [3; -10; 1; 2]) ++ [TreeSpec.OWalk]).

Example main_answers :
  (let* (rs, h) := TreeSpec.calls main_calls None ∅ in Done (drop 9 rs.1, size h)) =
  Done (TreeSpec.RFound (Some 3) :: (TreeSpec.RInt <$> [0; 0; 0; 0]) ++ [TreeSpec.RKeys [0; 2; 5; 6; 10]], 9%nat).
Proof. vm_compute. reflexivity. Qed.

Lemma tree_refinement_witness :
  exists rs root h ks n h', TreeSpec.calls main_calls None ∅ = Done ((rs, root), h) /\
    TreeSpec.specs false main_calls [] rs ks n /\
    StronglySorted Z.le ks /\ tree_inorder_walk root h = Done (ks, h) /\
    tree_free root h = Done (tt, h') /\ size h' = n.
Proof. apply (TreeSpec.tree_refinement false main_calls). by intros _ h. Defined.

Definition sample_tree : tree :=
  Node 1 2 (Node 2 1 (Node 3 0 Leaf Leaf) Leaf) (Node 4 3 Leaf (Node 5 6 Leaf Leaf)).
Definition sample_heap : gmap loc tree_node := list_to_map (cells None sample_tree).

Lemma neighbours_witness :
  nodes sample_tree = [(3%positive, 0); (2%positive, 1)] ++ (1%positive, 2) :: [(4%positive, 3); (5%positive, 6)] /\
  tree_successor (Some 1%positive) sample_heap = Done (Some 4%positive, sample_heap) /\
  tree_precursor (Some 1%positive) sample_heap = Done (Some 2%positive, sample_heap).
Proof.
  split; [reflexivity |].
  apply (TreeSpec.neighbours sample_heap sample_tree [(3%positive, 0); (2%positive, 1)] 1%positive 2
    [(4%positive, 3); (5%positive, 6)]); [| reflexivity].
  split; [repeat constructor |]. apply (bool_decide_unpack _). vm_compute. exact I.
Defined.
End TreeSamples.
