(* ===== verification/BTree.v ===== *)
(** The B-tree of [algorithm/btree.c], with [MAX_NODE_KEY] equal to 2: nodes of at
    most three keys on the heap.  Arrays are used from index 1 on; what [malloc]
    leaves in them is a parameter.  Printing returns the keys that are printed. *)
From S2P Require Import Prelude CHeap.

Module BTree.
Definition MAX_NODE_KEY : Z := 2.
Record btree_node := mkNode { leaf : bool; n : Z; keys : list Z; childs : list ptr }.

(** The arrays have [MAX_NODE_KEY * 2 + 1] elements. *)
Definition node_ok (x : btree_node) : Prop := length (keys x) = 5%nat /\ length (childs x) = 5%nat.

(** What a block of memory holds before it is written. *)
Class Uninit := { uninit : gmap loc btree_node -> btree_node; uninit_ok h : node_ok (uninit h) }.

Section Ops.
Context `{Malloc btree_node} `{Uninit}.
#[local] Abbreviation M := (M btree_node).

Definition get_n (p : ptr) : M Z := let! x := load p in ret (n x).
Definition get_leaf (p : ptr) : M bool := let! x := load p in ret (leaf x).
Definition get_key (p : ptr) (i : Z) : M Z := let! x := load p in index (keys x) i.
Definition get_child (p : ptr) (i : Z) : M ptr := let! x := load p in index (childs x) i.
Definition set_n (p : ptr) (v : Z) : M unit := modify p (fun x => mkNode (leaf x) v (keys x) (childs x)).
Definition set_leaf (p : ptr) (b : bool) : M unit := modify p (fun x => mkNode b (n x) (keys x) (childs x)).
Definition set_key (p : ptr) (i v : Z) : M unit :=
  let! _ := get_key p i in
  modify p (fun x => mkNode (leaf x) (n x) (<[Z.to_nat i := v]> (keys x)) (childs x)).
Definition set_child (p : ptr) (i : Z) (v : ptr) : M unit :=
  let! _ := get_child p i in
  modify p (fun x => mkNode (leaf x) (n x) (keys x) (<[Z.to_nat i := v]> (childs x))).

Fixpoint for_ (js : list Z) (body : Z -> M unit) : M unit :=
  match js with [] => ret tt | j :: js => body j ;! for_ js body end.

(** The result of [malloc] is not tested. *)
Definition btree_alloc_node : M ptr :=
  let! node := (fun h => alloc (uninit h) h) in
  set_leaf node true ;! set_n node 0 ;! ret node.

Definition btree_create : M ptr := btree_alloc_node.

(** [while(i <= p->n && key > p->keys[i]) i = i + 1;] *)
Fixpoint search_loop (fuel : nat) (p : ptr) (k i : Z) : M Z :=
  let! m := get_n p in
  if m <? i then ret i else
  let! x := get_key p i in
  if k <=? x then ret i
  else match fuel with O => no_fuel | S f => search_loop f p k (i + 1) end.
Fixpoint search_from (fuel : nat) (p : ptr) (k : Z) : M ptr :=
  match p, fuel with
  | None, _ => ret None
  | _, O => no_fuel
  | _, S f =>
    let! i := search_loop 5 p k 0 in
    let! m := get_n p in
    let! found := (if m <? i then ret false else let! x := get_key p i in ret (k =? x)) in
    if found : bool then ret p else
    let! b := get_leaf p in
    if b : bool then ret None else
    let! c := get_child p i in
    search_from f c k
  end.
Definition btree_search (p : ptr) (k : Z) : M ptr := with_fuel (fun f => search_from f p k).

Definition btree_split_child (x : ptr) (i : Z) : M unit :=
  let! z := btree_alloc_node in
  let! y := get_child x i in
  let! b := get_leaf y in
  set_leaf z b ;!
  set_n z (MAX_NODE_KEY - 1) ;!
  for_ (up 1 MAX_NODE_KEY) (fun j => let! v := get_key y (j + MAX_NODE_KEY) in set_key z j v) ;!
  let! b := get_leaf y in
  (if b : bool then ret tt
   else for_ (up 1 (MAX_NODE_KEY + 1)) (fun j => let! v := get_child y (j + MAX_NODE_KEY) in set_child z j v)) ;!
  set_n y (MAX_NODE_KEY - 1) ;!
  let! m := get_n x in
  for_ (down (m + 1) (i + 1)) (fun j => let! v := get_child x j in set_child x (j + 1) v) ;!
  set_child x (i + 1) z ;!
  let! m := get_n x in
  for_ (down m i) (fun j => let! v := get_key x j in set_key x (j + 1) v) ;!
  let! v := get_key y MAX_NODE_KEY in
  set_key x i v ;!
  let! m := get_n x in
  set_n x (m + 1).

(** [while(i >= 1 && key < p->keys[i]) { ...; i = i - 1; }], which shifts keys in a leaf. *)
Fixpoint shift_loop (shift : bool) (fuel : nat) (p : ptr) (k i : Z) : M Z :=
  if i <? 1 then ret i else
  let! x := get_key p i in
  if x <=? k then ret i else
  match fuel with
  | O => no_fuel
  | S f => (if shift then set_key p (i + 1) x else ret tt) ;! shift_loop shift f p k (i - 1)
  end.

Fixpoint insert_nonfull (fuel : nat) (p : ptr) (k : Z) : M unit :=
  match fuel with
  | O => no_fuel
  | S f =>
    let! i := get_n p in
    let! b := get_leaf p in
    if b : bool then
      let! i := shift_loop true 5 p k i in
      set_key p (i + 1) k ;!
      let! m := get_n p in
      set_n p (m + 1)
    else
      let! i := shift_loop false 5 p k i in
      let i := i + 1 in
      let! c := get_child p i in
      let! m := get_n c in
      let! i := (if m =? 2 * MAX_NODE_KEY - 1 then
                   btree_split_child p i ;!
                   let! x := get_key p i in
                   ret (if x <? k then i + 1 else i)
                 else ret i) in
      let! c := get_child p i in
      insert_nonfull f c k
  end.
Definition btree_insert_nonfull (p : ptr) (k : Z) : M unit := with_fuel (fun f => insert_nonfull f p k).

Definition btree_copy_node (p : ptr) : M ptr :=
  let! node := btree_alloc_node in
  let! m := get_n p in
  set_n node m ;!
  let! b := get_leaf p in
  set_leaf node b ;!
  let! m := get_n node in
  for_ (up 1 (m + 1)) (fun i => let! v := get_key p i in set_key node i v) ;!
  let! m := get_n node in
  for_ (up 1 (m + 2)) (fun i => let! v := get_child p i in set_child node i v) ;!
  ret node.

(** Returns the new root; the function's own result is always [NULL]. *)
Definition btree_insert (root : ptr) (k : Z) : M ptr :=
  let! m := get_n root in
  if m =? 2 * MAX_NODE_KEY - 1 then
    let! old_root := btree_copy_node root in
    let! node := btree_alloc_node in
    set_leaf node false ;!
    set_n node 0 ;!
    set_child node 1 old_root ;!
    btree_split_child node 1 ;!
    btree_insert_nonfull node k ;!
    ret node
  else btree_insert_nonfull root k ;! ret root.

Fixpoint print_loop (fuel : nat) (p : ptr) : M (list Z) :=
  match fuel with
  | O => no_fuel
  | S f =>
    let! m := get_n p in
    let! out := (fix go (js : list Z) (out : list Z) : M (list Z) :=
      match js with
      | [] => ret out
      | i :: js =>
        let! b := get_leaf p in
        let! xs := (if b : bool then ret [] else let! c := get_child p i in print_loop f c) in
        let! x := get_key p i in
        go js (out ++ xs ++ [x])
      end) (up 1 (m + 1)) [] in
    let! b := get_leaf p in
    let! xs := (if b : bool then ret [] else
      let! m := get_n p in let! c := get_child p (m + 1) in print_loop f c) in
    ret (out ++ xs)
  end.
Definition print_btree (p : ptr) : M (list Z) := with_fuel (fun f => print_loop f p).
End Ops.
End BTree.
Import BTree.

(** * Trees *)

(** A tree with the addresses of its nodes. *)
#[local] Set Warnings "-register-all".
Inductive bt := B (a : loc) (ks : list Z) (cs : list bt).
Definition addr (t : bt) : loc := match t with B a _ _ => a end.
Definition root_of (t : bt) : ptr := Some (addr t).
Definition bkeys (t : bt) : list Z := match t with B _ ks _ => ks end.

(** A node that holds these keys and these children, from index 1 on. *)
Definition cell (x : btree_node) (ks : list Z) (ps : list ptr) : Prop :=
  node_ok x /\ leaf x = bool_decide (ps = []) /\ n x = zlen ks /\
  take (length ks) (drop 1 (keys x)) = ks /\ take (length ps) (drop 1 (childs x)) = ps.

Module BTreeSpec.
Section Steps.
Context `{Malloc btree_node} `{Uninit}.
Implicit Types h : gmap loc btree_node.

Lemma bind_get_n {A} a x (f : Z -> M btree_node A) h :
  h !! a = Some x -> bind (get_n (Some a)) f h = f (n x) h.
Proof. intros E. unfold get_n. by rewrite bind_bind, (bind_load _ _ _ _ E). Qed.

Lemma bind_get_leaf {A} a x (f : bool -> M btree_node A) h :
  h !! a = Some x -> bind (get_leaf (Some a)) f h = f (leaf x) h.
Proof. intros E. unfold get_leaf. by rewrite bind_bind, (bind_load _ _ _ _ E). Qed.

Lemma bind_get_key {A} a i v x (f : Z -> M btree_node A) h :
  h !! a = Some x -> 0 <= i -> keys x !! Z.to_nat i = Some v -> bind (get_key (Some a) i) f h = f v h.
Proof.
  intros E Hi Hv. unfold get_key. rewrite bind_bind, (bind_load _ _ _ _ E). apply bind_eq.
  unfold index. by rewrite (proj2 (Z.leb_le 0 i) Hi), Hv.
Qed.

Lemma bind_get_child {A} a i v x (f : ptr -> M btree_node A) h :
  h !! a = Some x -> 0 <= i -> childs x !! Z.to_nat i = Some v -> bind (get_child (Some a) i) f h = f v h.
Proof.
  intros E Hi Hv. unfold get_child. rewrite bind_bind, (bind_load _ _ _ _ E). apply bind_eq.
  unfold index. by rewrite (proj2 (Z.leb_le 0 i) Hi), Hv.
Qed.

Lemma bind_set_n {A} a v x (f : unit -> M btree_node A) h :
  h !! a = Some x -> bind (set_n (Some a) v) f h = f tt (<[a := mkNode (leaf x) v (keys x) (childs x)]> h).
Proof. intros E. by apply (bind_modify _ x). Qed.

Lemma bind_set_leaf {A} a v x (f : unit -> M btree_node A) h :
  h !! a = Some x -> bind (set_leaf (Some a) v) f h = f tt (<[a := mkNode v (n x) (keys x) (childs x)]> h).
Proof. intros E. by apply (bind_modify _ x). Qed.

Lemma bind_set_key {A} a i v w x (f : unit -> M btree_node A) h :
  h !! a = Some x -> 0 <= i -> keys x !! Z.to_nat i = Some w ->
  bind (set_key (Some a) i v) f h =
  f tt (<[a := mkNode (leaf x) (n x) (<[Z.to_nat i := v]> (keys x)) (childs x)]> h).
Proof.
  intros E Hi Hv. unfold set_key. rewrite bind_bind, (bind_get_key _ _ _ _ _ _ E Hi Hv). by apply (bind_modify _ x).
Qed.

Lemma bind_set_child {A} a i v w x (f : unit -> M btree_node A) h :
  h !! a = Some x -> 0 <= i -> childs x !! Z.to_nat i = Some w ->
  bind (set_child (Some a) i v) f h =
  f tt (<[a := mkNode (leaf x) (n x) (keys x) (<[Z.to_nat i := v]> (childs x))]> h).
Proof.
  intros E Hi Hv. unfold set_child. rewrite bind_bind, (bind_get_child _ _ _ _ _ _ E Hi Hv).
  by apply (bind_modify _ x).
Qed.

Lemma bind_alloc_node {A} (f : ptr -> M btree_node A) h :
  bind btree_alloc_node f h =
  match malloc h with
  | Some z => f (Some z) (<[z := mkNode true 0 (keys (uninit h)) (childs (uninit h))]> h)
  | None => UB
  end.
Proof.
  unfold btree_alloc_node. rewrite bind_bind.
  change (bind (fun h => alloc (uninit h) h) ?g h) with (bind (alloc (uninit h)) g h).
  rewrite bind_alloc. destruct (malloc h) as [z |]; [| done].
  rewrite !bind_bind, (bind_set_leaf _ _ (uninit h)) by apply lookup_insert_eq.
  rewrite insert_insert_eq, bind_bind, (bind_set_n _ _ (mkNode true (n (uninit h)) (keys (uninit h)) (childs (uninit h))))
    by apply lookup_insert_eq.
  by rewrite insert_insert_eq, bind_ret.
Qed.
End Steps.

(** A heap with three cells that are written. *)
Definition three {V} (p y z : loc) (X Y Z : V) (h : gmap loc V) : gmap loc V :=
  <[p := X]> (<[y := Y]> (<[z := Z]> h)).

Section Three.
Context {V : Type} (p y z : loc) (Hpy : p <> y) (Hpz : p <> z) (Hyz : y <> z).
Implicit Types h : gmap loc V.
Lemma three_p X Y Z h : three p y z X Y Z h !! p = Some X.
Proof. apply lookup_insert_eq. Qed.
Lemma three_y X Y Z h : three p y z X Y Z h !! y = Some Y.
Proof using Hpy. unfold three. rewrite lookup_insert_ne by done. apply lookup_insert_eq. Qed.
Lemma three_z X Y Z h : three p y z X Y Z h !! z = Some Z.
Proof using Hpz Hyz. unfold three. rewrite !lookup_insert_ne by done. apply lookup_insert_eq. Qed.
Lemma three_set_p X X' Y Z h : <[p := X']> (three p y z X Y Z h) = three p y z X' Y Z h.
Proof. apply insert_insert_eq. Qed.
Lemma three_set_y X Y Y' Z h : <[y := Y']> (three p y z X Y Z h) = three p y z X Y' Z h.
Proof using Hpy. unfold three. rewrite insert_insert_ne by done. by rewrite insert_insert_eq. Qed.
Lemma three_set_z X Y Z Z' h : <[z := Z']> (three p y z X Y Z h) = three p y z X Y Z' h.
Proof using Hpz Hyz.
  unfold three. rewrite insert_insert_ne by done. f_equal. rewrite insert_insert_ne by done.
  by rewrite insert_insert_eq.
Qed.
End Three.

#[local] Arguments bind : simpl never.
#[local] Arguments three : simpl never.
#[local] Arguments get_n : simpl never.
#[local] Arguments get_leaf : simpl never.
#[local] Arguments get_key : simpl never.
#[local] Arguments get_child : simpl never.
#[local] Arguments set_n : simpl never.
#[local] Arguments set_leaf : simpl never.
#[local] Arguments set_key : simpl never.
#[local] Arguments set_child : simpl never.

(** Execution of one access to a node whose contents are known. *)
Ltac lk := first [eassumption | (rewrite lookup_insert_ne by done; eassumption) | apply lookup_insert_eq
  | apply three_p | by apply three_y | by apply three_z].
Ltac sidecond := first [lk | lia | reflexivity].
Ltac loops :=
  repeat match goal with
  | |- context [up ?a ?b] => let l := eval vm_compute in (up a b) in change (up a b) with l
  | |- context [down ?a ?b] => let l := eval vm_compute in (down a b) in change (down a b) with l
  end.
Ltac norm :=
  rewrite ?insert_insert_eq, ?three_set_p, ?three_set_y, ?three_set_z by done; cbn; loops; cbn [for_].
Ltac step :=
  first [ rewrite bind_ret | rewrite bind_bind
        | erewrite bind_get_n by lk | erewrite bind_get_leaf by lk
        | erewrite bind_get_key by sidecond | erewrite bind_get_child by sidecond
        | erewrite bind_set_n by lk | erewrite bind_set_leaf by lk
        | erewrite bind_set_key by sidecond | erewrite bind_set_child by sidecond ]; norm.

Lemma five {A} (l : list A) : length l = 5%nat -> exists a b c d e, l = [a; b; c; d; e].
Proof. intros Hl. do 6 (destruct l as [| ? l]; try discriminate Hl). by repeat eexists. Qed.

Section Split.
Context `{Malloc btree_node} `{Uninit}.
Implicit Types h : gmap loc btree_node.

(** A whole run of [btree_split_child], from the allocation on. *)
Ltac run_split Em Eu E3 :=
  intros ? ?; unfold btree_split_child, MAX_NODE_KEY; rewrite bind_bind, bind_alloc_node, Em, Eu;
  cbn [keys childs]; rewrite E3; repeat step; reflexivity.

Lemma split_cells h p y z ks ps qs k1 k2 k3 i x yx :
  malloc h = Some z -> h !! p = Some x -> cell x ks ps -> h !! y = Some yx -> cell yx [k1; k2; k3] qs ->
  p <> y -> length ps = S (length ks) -> (length ks <= 2)%nat -> qs = [] \/ length qs = 4%nat ->
  ps !! i = Some (Some y) ->
  exists x' y' z', (forall A (f : unit -> M btree_node A),
      bind (btree_split_child (Some p) (Z.of_nat i + 1)) f h = f tt (three p y z x' y' z' h)) /\
    cell x' (take i ks ++ k2 :: drop i ks) (take (S i) ps ++ Some z :: drop (S i) ps) /\
    cell y' [k1] (take 2 qs) /\ cell z' [k3] (drop 2 qs).
Proof.
  intros Em Hx Cx Hy Cy Hpy Hl Hl2 Hq Hi. assert (h !! z = None) as Hz by by apply malloc_fresh.
  assert (p <> z) as Hpz by congruence. assert (y <> z) as Hyz by congruence.
  assert (forall Z, <[z := Z]> h = three p y z x yx Z h) as E3.
  { intros Z. unfold three. rewrite (insert_id _ y), (insert_id _ p); [done | |]; by rewrite lookup_insert_ne. }
  pose proof (uninit_ok h) as Cz. destruct (uninit h) as [zl zn zk zc] eqn:Eu.
  clear Hx Hy.
  destruct x as [xl xn xk xc], yx as [yl yn yk yc]. unfold cell, node_ok in Cx, Cy, Cz. cbn in *.
  destruct Cz as [(z0 & z1 & z2 & z3 & z4 & ->)%five (w0 & w1 & w2 & w3 & w4 & ->)%five].
  destruct Cx as ([(a0 & a1 & a2 & a3 & a4 & ->)%five (b0 & b1 & b2 & b3 & b4 & ->)%five] & Lx & Nx & Kx & Px).
  destruct Cy as ([(c0 & c1 & c2 & c3 & c4 & ->)%five (d0 & d1 & d2 & d3 & d4 & ->)%five] & Ly & Ny & Ky & Py).
  cbn in *. subst yl yn. injection Ky as -> -> ->. clear Hz. unfold zlen in *.
  destruct ks as [| ka [| kb [| ? ?]]]; try (cbn in Hl2; lia);
    destruct ps as [| pa [| pb [| pc [| ? ?]]]]; try discriminate Hl;
    destruct i as [| [| [| i]]]; try discriminate Hi; injection Hi as ->;
    (destruct Hq as [-> | Hq];
      [| destruct qs as [| q1 [| q2 [| q3 [| q4 [| ? ?]]]]]; try discriminate Hq]);
    cbn in *; simplify_eq; eexists _, _, _; (split; [run_split Em Eu E3 |]);
    unfold cell, node_ok; split_and!; reflexivity.
Qed.

End Split.

(** Evaluation of constant indices and of their comparisons. *)
Ltac consts :=
  repeat match goal with
  | |- context [Z.of_nat ?n] => let v := eval vm_compute in (Z.of_nat n) in
      match v with Z0 => idtac | Zpos _ => idtac end; change (Z.of_nat n) with v
  | |- context [?a <? 1] => let v := eval vm_compute in (a <? 1) in
      match v with true => idtac | false => idtac end; change (a <? 1) with v
  | |- context [?a - 1] => let v := eval vm_compute in (a - 1) in
      match v with Z0 => idtac | Zpos _ => idtac | Zneg _ => idtac end; change (a - 1) with v
  | |- context [?a + 1] => let v := eval vm_compute in (a + 1) in
      match v with Z0 => idtac | Zpos _ => idtac | Zneg _ => idtac end; change (a + 1) with v
  end.

Ltac cell_done := unfold cell, node_ok; split_and!; reflexivity.
Ltac walk1 := repeat first [step | consts; cbn].

#[local] Arguments shift_loop : simpl never.

Section Leaf.
Context `{Malloc btree_node} `{Uninit}.
Implicit Types h : gmap loc btree_node.

Lemma bind_shift {A} shift f p k i (g : Z -> M btree_node A) :
  bind (shift_loop shift (S f) p k i) g =
  bind (if i <? 1 then ret i else
    let! x := get_key p i in
    if x <=? k then ret i
    else (if shift then set_key p (i + 1) x else ret tt) ;! shift_loop shift f p k (i - 1)) g.
Proof. done. Qed.

(** Insertion into a leaf. *)
Ltac walk :=
  cbn; repeat first [step | rewrite bind_shift; consts; cbn
    | match goal with E : (?a <=? ?b) = _ |- context [?a <=? ?b] => rewrite E end].

Lemma leaf_insert h p x ks k f : h !! p = Some x -> cell x ks [] -> (length ks <= 2)%nat ->
  exists xs ys x', ks = xs ++ ys /\ Forall (fun y => k < y) ys /\ (forall v, last xs = Some v -> v <= k) /\
    (forall A (g : unit -> M btree_node A),
      bind (insert_nonfull (S f) (Some p) k) g h = g tt (<[p := x']> h)) /\ cell x' (xs ++ k :: ys) [].
Proof.
  intros Hx Cx Hl. destruct x as [xl xn xk xc]. unfold cell, node_ok in Cx. cbn in Cx.
  destruct Cx as ([(a0 & a1 & a2 & a3 & a4 & ->)%five (b0 & b1 & b2 & b3 & b4 & ->)%five] & Lx & Nx & Kx & Px).
  unfold zlen in *.
  destruct ks as [| ka [| kb [| ? ?]]]; try (cbn in Hl; lia); cbn in *; simplify_eq.
  - eexists [], [], _. refine (conj eq_refl (conj _ (conj _ (conj _ _)))); [by constructor | done | (intros; walk; reflexivity) | cell_done].
  - destruct (ka <=? k) eqn:E1; [eexists [ka], [], _ | eexists [], [ka], _];
      (refine (conj eq_refl (conj _ (conj _ (conj _ _)))); [rewrite ?Forall_cons, ?Forall_nil; repeat split; lia | cbn; intros; simplify_eq; lia | (intros; walk; reflexivity) | cell_done]).
  - destruct (kb <=? k) eqn:E2; [eexists [ka; kb], [], _ | destruct (ka <=? k) eqn:E1; [eexists [ka], [kb], _ | eexists [], [ka; kb], _]];
      (refine (conj eq_refl (conj _ (conj _ (conj _ _)))); [rewrite ?Forall_cons, ?Forall_nil; repeat split; lia | cbn; intros; simplify_eq; lia | (intros; walk; reflexivity) | cell_done]).
Qed.

(** The last key that is not greater, from the right. *)
Lemma shift_index h p x ks ps k : h !! p = Some x -> cell x ks ps -> forall i f,
  (i <= length ks)%nat -> (i <= f)%nat -> Forall (fun v => k < v) (drop i ks) ->
  exists j, (j <= length ks)%nat /\ (forall v, last (take j ks) = Some v -> v <= k) /\
    Forall (fun v => k < v) (drop j ks) /\
    forall A (g : Z -> M btree_node A), bind (shift_loop false f (Some p) k (Z.of_nat i)) g h = g (Z.of_nat j) h.
Proof.
  intros Hx (Ok & _ & _ & Hks & _). induction i as [| i IH]; intros f Hi Hf Hd.
  { exists 0%nat. split_and!; [lia | done | done |]. intros A g. by destruct f. }
  destruct f as [| f]; [lia |]. destruct (lookup_lt_is_Some_2 ks i) as [v Hv]; [lia |].
  assert (keys x !! S i = Some v) as Hkv.
  { rewrite <- Hks in Hv. rewrite lookup_take, decide_True, lookup_drop in Hv by lia. exact Hv. }
  assert (forall A (g : Z -> M btree_node A), bind (shift_loop false (S f) (Some p) k (Z.of_nat (S i))) g h =
    bind (if v <=? k then ret (Z.of_nat (S i)) else shift_loop false f (Some p) k (Z.of_nat i)) g h) as E.
  { intros A g. rewrite bind_shift. rewrite (proj2 (Z.ltb_ge _ _)) by lia.
    rewrite bind_bind, (bind_get_key _ _ v _ _ _ Hx) by (lia || by rewrite Nat2Z.id).
    destruct (v <=? k); [done |]. rewrite bind_bind, bind_ret. do 3 f_equal. lia. }
  destruct (v <=? k) eqn:Ek.
  - exists (S i). split_and!; [lia | | done | intros A g; by rewrite E].
    intros w. rewrite (take_S_r _ _ v) by done. rewrite last_snoc. intros [= <-]. lia.
  - destruct (IH f) as (j & ? & ? & ? & Ej); [lia | lia | |].
    + rewrite (drop_S _ v) by done. constructor; [lia | done].
    + exists j. split_and!; try done. intros A g. by rewrite E.
Qed.
End Leaf.

(** ** Trees on the heap *)

(** Keys of a node between the keys of its children. *)
Fixpoint weave (xs : list (list Z)) (ks : list Z) : list Z :=
  match xs, ks with
  | x :: xs, k :: ks => x ++ k :: weave xs ks
  | x :: _, [] => x
  | [], _ => []
  end.

(** The keys in order, and the addresses, of a tree all of whose leaves are at depth [d]. *)
Fixpoint io (d : nat) (t : bt) : list Z :=
  match t with B _ ks cs => match d with O => ks | S d => weave (io d <$> cs) ks end end.
Fixpoint locs (d : nat) (t : bt) : list loc :=
  match t with B a _ cs => a :: match d with O => [] | S d => cs ≫= locs d end end.

(** The heap holds the tree: at most three keys in a node, at least one except in the root,
    and all leaves at the same depth. *)
Fixpoint reps (d : nat) (h : gmap loc btree_node) (t : bt) : Prop :=
  match t with
  | B a ks cs =>
    (exists x, h !! a = Some x /\ cell x ks (root_of <$> cs)) /\ (length ks <= 3)%nat /\
    match d with
    | O => cs = []
    | S d => length cs = S (length ks) /\ Forall (reps d h) cs /\
        Forall (fun c => 1 <= length (bkeys c))%nat cs
    end
  end.

Fixpoint wl (xs : list (list Z)) (ks : list Z) : list Z :=
  match xs, ks with x :: xs, k :: ks => x ++ k :: wl xs ks | _, _ => [] end.
Fixpoint wr (ks : list Z) (xs : list (list Z)) : list Z :=
  match ks, xs with k :: ks, x :: xs => k :: x ++ wr ks xs | _, _ => [] end.

Lemma weave_app xl kl x kr xr : length xl = length kl -> length xr = length kr ->
  weave (xl ++ x :: xr) (kl ++ kr) = wl xl kl ++ x ++ wr kr xr.
Proof.
  revert kl. induction xl as [| y xl IH]; intros [| k kl] Hl Hr; try discriminate Hl.
  - cbn. clear Hl. revert x kr Hr. induction xr as [| z xr IH]; intros x [| k kr] Hr; try discriminate Hr; cbn.
    + by rewrite app_nil_r.
    + by rewrite IH by (cbn in Hr; lia).
  - cbn. rewrite IH by (cbn in Hl; lia). by rewrite <- app_assoc.
Qed.

Lemma last_wl xl kl v : length xl = length kl -> last kl = Some v -> last (wl xl kl) = Some v.
Proof.
  revert kl. induction xl as [| y xl IH]; intros [| k kl] Hl Hv; try discriminate.
  cbn [wl]. rewrite last_app. destruct kl as [| k' kl]; [destruct xl; [| discriminate Hl]; done |].
  rewrite last_cons, (IH (k' :: kl)); [done | cbn in *; lia | done].
Qed.

Lemma reps_agree d : forall h h' t, (forall a, a ∈ locs d t -> h' !! a = h !! a) -> reps d h t -> reps d h' t.
Proof.
  induction d as [| d IH]; intros h h' [a ks cs] Ha; cbn in *; intros ((x & Hx & Cx) & Hl & Hr);
    (split; [exists x; split; [rewrite Ha; [done | set_solver] | done] | split; [done |]]).
  - done.
  - destruct Hr as (Hc & Hr & Hn). split_and!; [done | | done]. rewrite Forall_forall in *. intros c Hcin.
    apply (IH h); [| by apply Hr]. intros b Hb. apply Ha. apply elem_of_cons. right. apply list_elem_of_bind. eauto.
Qed.

Lemma reps_dom d : forall h t a, reps d h t -> a ∈ locs d t -> is_Some (h !! a).
Proof.
  induction d as [| d IH]; intros h [a ks cs] b; cbn; intros ((x & Hx & Cx) & Hl & Hr) Hb.
  - apply list_elem_of_singleton in Hb as ->. eauto.
  - apply elem_of_cons in Hb as [-> | Hb]; [eauto |]. apply list_elem_of_bind in Hb as (c & Hb & Hc).
    destruct Hr as (_ & Hr & _). rewrite Forall_forall in Hr. by apply (IH h c b); [apply Hr |].
Qed.

Lemma addr_locs d t : addr t ∈ locs d t.
Proof. destruct t, d; cbn; set_solver. Qed.

Section Insert.
Context `{Malloc btree_node} `{Uninit}.
Implicit Types h : gmap loc btree_node.

Definition sorted (l : list Z) : Prop := StronglySorted Z.le l.

(** From [h] with the tree [t] to [h'] with the tree [t']: the root keeps its address and
    does not lose keys, the other cells are untouched. *)
Record update (d : nat) h (t : bt) h' (t' : bt) : Prop := {
  u_reps : reps d h' t';
  u_addr : addr t' = addr t;
  u_size : (length (bkeys t) <= length (bkeys t'))%nat;
  u_locs : NoDup (locs d t');
  u_new a : a ∈ locs d t' -> a ∈ locs d t \/ h !! a = None;
  u_old a : is_Some (h !! a) -> a ∉ locs d t -> h' !! a = h !! a;
  u_dom a : is_Some (h !! a) -> is_Some (h' !! a)
}.

Lemma update_trans d h t h1 t1 h2 t2 : update d h t h1 t1 -> update d h1 t1 h2 t2 -> update d h t h2 t2.
Proof.
  intros [] []. split; try done; try congruence; try lia.
  - intros a Ha. destruct (u_new1 a Ha) as [| Hn]; [by apply u_new0 |]. right.
    destruct (h !! a) eqn:E; [| done]. destruct (u_dom0 a); [eauto | congruence].
  - intros a Ha Hn. rewrite <- (u_old0 a Ha Hn). apply u_old1; [by apply u_dom0 |].
    intros Hin. destruct (u_new0 a Hin) as [| E]; [done |]. rewrite E in Ha. by destruct Ha.
  - auto.
Qed.

Lemma locs_split d a ks cl c cr :
  locs (S d) (B a ks (cl ++ c :: cr)) ≡ₚ locs d c ++ a :: ((cl ++ cr) ≫= locs d).
Proof. cbn. rewrite !bind_app, bind_cons. solve_Permutation. Qed.

(** An update of a child is one of its parent. *)
Lemma update_child d h p ks cl c cr h' c' :
  reps (S d) h (B p ks (cl ++ c :: cr)) -> NoDup (locs (S d) (B p ks (cl ++ c :: cr))) ->
  update d h c h' c' -> update (S d) h (B p ks (cl ++ c :: cr)) h' (B p ks (cl ++ c' :: cr)).
Proof.
  intros Hr Hn [U1 U2 U3 U4 U5 U6 U7]. assert (Hrs := Hr). cbn in Hr.
  destruct Hr as ((x & Hx & Cx) & Hl & Hlc & Hrc & Hsz).
  rewrite locs_split in Hn. apply NoDup_app in Hn as (Hnc & Hd & Hno).
  assert (forall a, a ∈ p :: ((cl ++ cr) ≫= locs d) -> h' !! a = h !! a /\ is_Some (h !! a) /\ a ∉ locs d c) as Hf.
  { intros a Ha. assert (is_Some (h !! a)) as Hs.
    { apply (reps_dom (S d) _ (B p ks (cl ++ c :: cr))); [done |]. rewrite locs_split. set_solver. }
    assert (a ∉ locs d c) by (intros Hin; by apply (Hd a)). by rewrite U6. }
  split.
  - cbn. rewrite length_app in *. cbn in *. rewrite !Forall_app, !Forall_cons in *. split_and!; try tauto.
    + exists x. rewrite (proj1 (Hf p ltac:(set_solver))). split; [done |].
      rewrite fmap_app in *. cbn in *. unfold root_of in *. by rewrite U2.
    + apply Forall_forall. intros e He. destruct Hrc as (Hrc & _). rewrite Forall_forall in Hrc.
      apply (reps_agree d h); [| by apply Hrc]. intros a Ha. apply Hf. apply elem_of_cons. right.
      apply list_elem_of_bind. exists e. set_solver.
    + apply Forall_forall. intros e He. destruct Hrc as (_ & _ & Hrc). rewrite Forall_forall in Hrc.
      apply (reps_agree d h); [| by apply Hrc]. intros a Ha. apply Hf. apply elem_of_cons. right.
      apply list_elem_of_bind. exists e. set_solver.
    + lia.
  - done.
  - done.
  - rewrite locs_split. apply NoDup_app. split_and!; [done | | done]. intros a Ha Ha'.
    destruct (Hf a Ha') as (_ & Hs & Hnin). destruct (U5 a Ha) as [| E]; [done |]. rewrite E in Hs. by destruct Hs.
  - intros a. rewrite !locs_split, !elem_of_app. intros [Ha | Ha]; [| by auto]. destruct (U5 a Ha); auto.
  - intros a Ha. rewrite locs_split, elem_of_app. intros Hn. apply U6; tauto.
  - done.
Qed.

Lemma io_child d p kl kr cl c cr : length cl = length kl -> length cr = length kr ->
  io (S d) (B p (kl ++ kr) (cl ++ c :: cr)) = wl (io d <$> cl) kl ++ io d c ++ wr kr (io d <$> cr).
Proof. intros. cbn. rewrite fmap_app. cbn. apply weave_app; by rewrite length_fmap. Qed.

Lemma sorted_last l w v : sorted l -> last l = Some w -> v ∈ l -> v <= w.
Proof.
  intros Hs Hl Hv. apply last_Some in Hl as [l' ->]. apply StronglySorted_app in Hs as (Hs & _ & _).
  apply elem_of_app in Hv as [Hv | Hv]; [apply Hs; set_solver |]. apply list_elem_of_singleton in Hv. lia.
Qed.

(** Insertion into a child at the right place. *)
Lemma order_child d k p kl kr cl c c' cr : length cl = length kl -> length cr = length kr ->
  let t := B p (kl ++ kr) (cl ++ c :: cr) in
  let t' := B p (kl ++ kr) (cl ++ c' :: cr) in
  sorted (io (S d) t) -> (forall v, last kl = Some v -> v <= k) -> (forall v, head kr = Some v -> k <= v) ->
  sorted (io d c') -> io d c' ≡ₚ k :: io d c ->
  sorted (io (S d) t') /\ io (S d) t' ≡ₚ k :: io (S d) t.
Proof.
  intros El Er t t' Hs Hkl Hkr Hs' Hp. unfold t, t' in *. rewrite !io_child in * by done.
  assert (forall v, v ∈ wl (io d <$> cl) kl -> v <= k) as HL.
  { apply StronglySorted_app in Hs as (_ & Hs & _). intros v Hv. destruct (last kl) as [w |] eqn:Ew.
    - specialize (Hkl w eq_refl). assert (v <= w); [| lia]. eapply sorted_last; [exact Hs | | done].
      apply last_wl; [by rewrite length_fmap | done].
    - apply last_None in Ew as ->. destruct cl; [| done]. cbn in Hv. set_solver. }
  assert (forall v, v ∈ wr kr (io d <$> cr) -> k <= v) as HR.
  { apply StronglySorted_app in Hs as (_ & _ & Hs). apply StronglySorted_app in Hs as (_ & _ & Hs).
    intros v Hv. destruct kr as [| w kr]; [set_solver |]. destruct cr as [| e cr]; [done |].
    specialize (Hkr w eq_refl). cbn in Hv, Hs. inversion Hs as [| ? ? _ Hw]; subst.
    rewrite Forall_forall in Hw. apply elem_of_cons in Hv as [-> | Hv]; [done |]. specialize (Hw v Hv). lia. }
  split; [| rewrite Hp; solve_Permutation].
  apply StronglySorted_app in Hs as (H1 & H2 & Hs). apply StronglySorted_app in Hs as (H3 & H4 & H5).
  apply StronglySorted_app. split_and!; [| done |].
  - intros x y Hx. rewrite elem_of_app, Hp, elem_of_cons. intros [[-> | Hy] | Hy]; [by apply HL | |];
      apply H1; set_solver.
  - apply StronglySorted_app. split_and!; [| done | done]. intros x y. rewrite Hp, elem_of_cons.
    intros [-> | Hx] Hy; [by apply HR | by apply H3].
Qed.

Lemma split_io d h y z k1 k2 k3 ds : reps d h (B y [k1; k2; k3] ds) ->
  io d (B y [k1; k2; k3] ds) = io d (B y [k1] (take 2 ds)) ++ k2 :: io d (B z [k3] (drop 2 ds)).
Proof.
  destruct d as [| d]; cbn; intros (_ & _ & Hr); [by subst ds |]. destruct Hr as (Hl & _).
  destruct ds as [| d1 [| d2 [| d3 [| d4 [| ? ?]]]]]; try discriminate Hl. cbn. by simplify_list_eq.
Qed.

Lemma split_locs d p y z ka kb kc kd k1 cl cr ds :
  locs (S d) (B p ka (cl ++ B y kb (take 2 ds) :: B z kc (drop 2 ds) :: cr)) ≡ₚ
  z :: locs (S d) (B p kd (cl ++ B y k1 ds :: cr)).
Proof.
  rewrite !locs_split. cbn [locs]. rewrite !bind_app, bind_cons.
  destruct d as [| d]; cbn; [solve_Permutation |].
  assert (ds ≫= locs d = (take 2 ds ≫= locs d) ++ (drop 2 ds ≫= locs d)) as ->.
  { by rewrite <- bind_app, take_drop. }
  solve_Permutation.
Qed.

Lemma split_reps d h h1 p y z x' y' z' kl k1 k2 k3 kr cl ds cr :
  let t := B p (kl ++ kr) (cl ++ B y [k1; k2; k3] ds :: cr) in
  reps (S d) h t -> NoDup (locs (S d) t) -> (length (kl ++ kr) <= 2)%nat ->
  (forall a, a <> p -> a <> y -> is_Some (h !! a) -> h1 !! a = h !! a) ->
  h1 !! p = Some x' -> h1 !! y = Some y' -> h1 !! z = Some z' ->
  cell x' (kl ++ k2 :: kr) (root_of <$> (cl ++ B y [k1] (take 2 ds) :: B z [k3] (drop 2 ds) :: cr)) ->
  cell y' [k1] (root_of <$> take 2 ds) -> cell z' [k3] (root_of <$> drop 2 ds) ->
  reps (S d) h1 (B p (kl ++ k2 :: kr) (cl ++ B y [k1] (take 2 ds) :: B z [k3] (drop 2 ds) :: cr)).
Proof.
  intros t Hr Hn Hl2 Hag Hp Hy Hz Cx Cy Cz.
  assert (forall e b, e ∈ cl ++ cr -> b ∈ locs d e -> h1 !! b = h !! b) as Ho.
  { intros e b He Hb. assert (b ∈ (cl ++ cr) ≫= locs d) as Hin by (apply list_elem_of_bind; eauto).
    unfold t in Hn, Hr. rewrite locs_split in Hn. apply NoDup_app in Hn as (_ & Hd & [Hn _]%NoDup_cons).
    apply Hag; [by intros -> | |].
    - intros ->. apply (Hd y); [apply (addr_locs d (B y _ _)) | set_solver].
    - apply (reps_dom _ _ _ _ Hr). rewrite locs_split. set_solver. }
  assert (forall a, a ∈ locs d (B y [k1; k2; k3] ds) -> a <> y -> h1 !! a = h !! a) as Hi.
  { intros a Ha Hay. apply Hag; [| done |].
    - intros ->. unfold t in Hn. rewrite locs_split in Hn. apply NoDup_app in Hn as (_ & Hd & _).
      apply (Hd p Ha). set_solver.
    - apply (reps_dom _ _ _ _ Hr). unfold t. rewrite locs_split. set_solver. }
  assert (NoDup (locs d (B y [k1; k2; k3] ds))) as Hny.
  { unfold t in Hn. rewrite locs_split in Hn. by apply NoDup_app in Hn as (? & _). }
  cbn in Hr |- *. destruct Hr as (_ & _ & Hlc & Hrc & Hsz). rewrite !length_app in *. cbn in *.
  rewrite !Forall_app, !Forall_cons in *. destruct Hrc as (Hrl & Hry & Hrr), Hsz as (Hsl & _ & Hsr).
  assert (forall l, l ⊆ cl ++ cr -> Forall (reps d h) l -> Forall (reps d h1) l) as Hfr.
  { intros l Hl Hf. rewrite Forall_forall in *. intros e He. apply (reps_agree d h); [| by apply Hf].
    intros b Hb. apply (Ho e b); [by apply Hl | done]. }
  assert (reps d h1 (B y [k1] (take 2 ds)) /\ reps d h1 (B z [k3] (drop 2 ds))) as [Hr1 Hr2].
  { destruct d as [| d]; cbn in Hry |- *; destruct Hry as (_ & _ & Hry).
    - subst ds. cbn in *. split_and!; eauto; lia.
    - destruct Hry as (Hld & Hrd & Hsd). rewrite length_take, length_drop, Hld.
      assert (Forall (reps d h1) ds) as Hrd1.
      { rewrite Forall_forall in *. intros e He. apply (reps_agree d h); [| by apply Hrd].
        cbn [locs] in Hny. apply NoDup_cons in Hny as [Hny _]. intros b Hb.
        assert (b ∈ ds ≫= locs d) by (apply list_elem_of_bind; eauto). apply Hi; [set_solver | by intros ->]. }
      split_and!; eauto using Forall_take, Forall_drop; cbn; lia. }
  split_and!; eauto; try lia; apply Hfr; try done; set_solver.
Qed.

(** A full child is split in two around its middle key. *)
Lemma split_tree d h p kl kr cl c cr z : malloc h = Some z ->
  let t := B p (kl ++ kr) (cl ++ c :: cr) in
  reps (S d) h t -> NoDup (locs (S d) t) -> length cl = length kl -> (length (kl ++ kr) <= 2)%nat ->
  length (bkeys c) = 3%nat ->
  exists h1 k2 c1 c2,
    let t1 := B p (kl ++ k2 :: kr) (cl ++ c1 :: c2 :: cr) in
    (forall A (g : unit -> M btree_node A),
      bind (btree_split_child (Some p) (Z.of_nat (length cl) + 1)) g h = g tt h1) /\
    update (S d) h t h1 t1 /\ io (S d) t1 = io (S d) t /\
    length (bkeys c1) = 1%nat /\ length (bkeys c2) = 1%nat.
Proof.
  intros Em t Hr Hn El Hl2 Hc. assert (h !! z = None) as Hz by by apply malloc_fresh.
  destruct c as [y ks' ds]. cbn in Hc. destruct ks' as [| k1 [| k2 [| k3 [| ? ?]]]]; try discriminate Hc.
  assert (Hr0 := Hr). unfold t in Hr. cbn [reps] in Hr. destruct Hr as ((x & Hx & Cx) & Hl & Hlc & Hrc & Hsz).
  rewrite Forall_app, Forall_cons in Hrc. destruct Hrc as (Hrl & Hry & Hrr).
  assert (exists yx, h !! y = Some yx /\ cell yx [k1; k2; k3] (root_of <$> ds)) as (yx & Hy & Cy).
  { destruct d; cbn in Hry; tauto. }
  assert (length cr = length kr) as Er by (rewrite !length_app in Hlc; cbn in Hlc; lia).
  unfold t in Hn. rewrite locs_split in Hn.
  assert (p <> y) as Hpy.
  { apply NoDup_app in Hn as (_ & Hd & _). intros ->. apply (Hd y); [apply (addr_locs d (B y _ _)) | set_solver]. }
  destruct (split_cells h p y z (kl ++ kr) (root_of <$> (cl ++ B y [k1; k2; k3] ds :: cr)) (root_of <$> ds) k1 k2 k3
    (length cl) x yx) as (x' & y' & z' & E & Cx' & Cy' & Cz'); try done.
  { rewrite length_fmap. exact Hlc. }
  { destruct d; cbn in Hry; [left; by destruct Hry as (_ & _ & ->) | right; rewrite length_fmap; tauto]. }
  { rewrite list_lookup_fmap, list_lookup_middle by done. done. }
  assert (cell x' (kl ++ k2 :: kr) (root_of <$> (cl ++ B y [k1] (take 2 ds) :: B z [k3] (drop 2 ds) :: cr))) as Cx1.
  { rewrite fmap_app, fmap_cons in Cx'.
    rewrite El, !take_app_length, drop_app_length in Cx'. rewrite <- El in Cx'.
    rewrite (cons_middle (root_of (B y [k1; k2; k3] ds))), (app_assoc (root_of <$> cl)) in Cx'.
    rewrite take_app_length', drop_app_length' in Cx' by (rewrite length_app, length_fmap; cbn; lia).
    rewrite fmap_app. cbn. rewrite <- app_assoc in Cx'. exact Cx'. }
  clear Cx'. rewrite <- fmap_take in Cy'. rewrite <- fmap_drop in Cz'.
  set (h1 := three p y z x' y' z' h) in *.
  assert (forall a, a <> p -> a <> y -> is_Some (h !! a) -> h1 !! a = h !! a) as Hag.
  { intros a Hap Hay Ha. unfold h1, three. rewrite !lookup_insert_ne; try done. intros ->. rewrite Hz in Ha. by destruct Ha. }
  assert (forall a, is_Some (h !! a) -> is_Some (h1 !! a)) as Hdom.
  { intros a Ha. unfold h1, three. rewrite !lookup_insert_is_Some'. auto. }
  assert (p <> z) as Hpz by congruence. assert (y <> z) as Hyz by congruence.
  exists h1, k2, (B y [k1] (take 2 ds)), (B z [k3] (drop 2 ds)). intros t1. split; [exact E |].
  assert (locs (S d) t1 ≡ₚ z :: locs (S d) t) as Elocs by apply split_locs.
  split; [| split; [| done]].
  - split; [| done | | | | | done].
    + apply (split_reps d h h1 p y z x' y' z' kl k1 k2 k3 kr cl ds cr Hr0);
        first [done | apply three_p | by apply three_y | by apply three_z | unfold t; by rewrite locs_split].
    + unfold t, t1. cbn. rewrite !length_app. cbn. lia.
    + rewrite Elocs. apply NoDup_cons. split; [| unfold t; by rewrite locs_split].
      intros Hin. destruct (reps_dom _ _ _ _ Hr0 Hin) as [v Hv]. congruence.
    + intros a. rewrite Elocs, elem_of_cons. intros [-> | Ha]; auto.
    + intros a Ha Hnin. unfold t in Hnin. rewrite locs_split in Hnin. apply Hag; [| | done].
      * intros ->. set_solver.
      * intros ->. apply Hnin. apply elem_of_app. left. apply (addr_locs d (B y _ _)).
  - unfold t1, t. rewrite (io_child d p kl (k2 :: kr)), (io_child d p kl kr) by (cbn; lia).
    rewrite (split_io d h y z k1 k2 k3 ds Hry). cbn [fmap list_fmap wr]. by rewrite <- !app_assoc.
Qed.

(** ** Insertion *)

(** What insertion below a node does. *)
Definition inserts (d f : nat) (k : Z) h (t : bt) : Prop :=
  exists h' t', (forall A (g : unit -> M btree_node A), bind (insert_nonfull f (root_of t) k) g h = g tt h') /\
    update d h t h' t' /\ sorted (io d t') /\ io d t' ≡ₚ k :: io d t.

Lemma insert_leaf f k h a ks : reps 0 h (B a ks []) -> sorted ks -> (length ks <= 2)%nat ->
  inserts 0 (S f) k h (B a ks []).
Proof.
  intros ((x & Hx & Cx) & Hl & _) Hs Hl2.
  destruct (leaf_insert h a x ks k f Hx Cx Hl2) as (xs & ys & x' & -> & Hy & Hlast & E & Cx').
  exists (<[a := x']> h), (B a (xs ++ k :: ys) []). split; [exact E |]. cbn. rewrite length_app in Hl2.
  apply StronglySorted_app in Hs as (H1 & H2 & H3). rewrite Forall_forall in Hy.
  assert (forall x, x ∈ xs -> x <= k) as Hxs.
  { intros v Hv. destruct (last xs) as [w |] eqn:Ew; [| apply last_None in Ew as ->; set_solver].
    specialize (Hlast w eq_refl). pose proof (sorted_last xs w v H2 Ew Hv). lia. }
  split_and!.
  - split; cbn.
    + split_and!; [exists x'; by rewrite lookup_insert_eq | rewrite length_app; cbn; lia | done].
    + done.
    + rewrite !length_app. cbn. lia.
    + apply NoDup_singleton.
    + set_solver.
    + intros b _ Hb. apply lookup_insert_ne. set_solver.
    + intros b Hb. rewrite lookup_insert_is_Some'. auto.
  - apply StronglySorted_app. split_and!; [| done |].
    + intros v w Hv [-> | Hw]%elem_of_cons; [by apply Hxs | by apply H1].
    + constructor; [done |]. apply Forall_forall. intros v Hv. specialize (Hy v Hv). lia.
  - solve_Permutation.
Qed.

(** Going down into a child. *)
Lemma insert_below d f k h p kl kr cl c cr : length cl = length kl ->
  let t := B p (kl ++ kr) (cl ++ c :: cr) in
  reps (S d) h t -> NoDup (locs (S d) t) -> sorted (io (S d) t) ->
  (forall v, last kl = Some v -> v <= k) -> (forall v, head kr = Some v -> k <= v) ->
  inserts d f k h c ->
  exists h' t', (forall A (g : unit -> M btree_node A),
      bind (let! c := get_child (Some p) (Z.of_nat (length cl) + 1) in insert_nonfull f c k) g h = g tt h') /\
    update (S d) h t h' t' /\ sorted (io (S d) t') /\ io (S d) t' ≡ₚ k :: io (S d) t.
Proof.
  intros El t Hr Hn Hs Hkl Hkr (h' & c' & E & U & Hs' & Hp).
  exists h', (B p (kl ++ kr) (cl ++ c' :: cr)). assert (Hr0 := Hr). unfold t in Hr. cbn in Hr.
  destruct Hr as ((x & Hx & Cx) & Hl & Hlc & _). split.
  - intros A g. rewrite bind_bind.
    rewrite (bind_get_child p _ (root_of c) x _ h Hx); [apply E | lia |].
    destruct Cx as (_ & _ & _ & _ & Hps). replace (Z.to_nat _) with (S (length cl)) by lia.
    assert ((root_of <$> (cl ++ c :: cr)) !! length cl = Some (root_of c)) as Hc.
    { by rewrite list_lookup_fmap, list_lookup_middle. }
    rewrite <- Hps in Hc. rewrite lookup_take, decide_True, lookup_drop in Hc; [exact Hc |].
    rewrite length_fmap, length_app. cbn. lia.
  - split; [by apply update_child |]. apply order_child; try done. rewrite !length_app in Hlc. cbn in Hlc. lia.
Qed.

Lemma inserts_same d f k h h1 t t1 : update d h t h1 t1 -> io d t1 = io d t ->
  (exists h' t', (forall A (g : unit -> M btree_node A), bind (insert_nonfull f (root_of t) k) g h = g tt h') /\
    update d h1 t1 h' t' /\ sorted (io d t') /\ io d t' ≡ₚ k :: io d t1) -> inserts d f k h t.
Proof.
  intros U E (h' & t' & E' & U' & Hs & Hp). exists h', t'. split_and!; [done | by eapply update_trans | done |].
  by rewrite <- E.
Qed.

Lemma child_ok d h p kl kr cl c cr : length cl = length kl ->
  let t := B p (kl ++ kr) (cl ++ c :: cr) in
  reps (S d) h t -> NoDup (locs (S d) t) -> sorted (io (S d) t) ->
  reps d h c /\ NoDup (locs d c) /\ sorted (io d c).
Proof.
  intros El t Hr Hn Hs. cbn in Hr. destruct Hr as (_ & _ & Hlc & Hr & _).
  apply Forall_app in Hr as (_ & [Hr _]%Forall_cons).
  unfold t in Hn. rewrite locs_split in Hn. apply NoDup_app in Hn as (Hn & _).
  unfold t in Hs. rewrite io_child in Hs by (rewrite ?length_app in Hlc; cbn in Hlc; lia).
  apply StronglySorted_app in Hs as (_ & _ & Hs). by apply StronglySorted_app in Hs as (_ & Hs & _).
Qed.

(** A node with children, up to the choice of the child. *)
Lemma insert_inner f k h p x ks cs c j : h !! p = Some x -> cell x ks (root_of <$> cs) -> cs <> [] ->
  (length ks <= 3)%nat -> cs !! j = Some c ->
  (forall A (g : Z -> M btree_node A),
    bind (shift_loop false 5 (Some p) k (Z.of_nat (length ks))) g h = g (Z.of_nat j) h) ->
  forall A (g : unit -> M btree_node A), bind (insert_nonfull (S f) (Some p) k) g h =
    bind (let! m := get_n (root_of c) in
      let! i := (if m =? 3 then
          btree_split_child (Some p) (Z.of_nat j + 1) ;!
          let! x := get_key (Some p) (Z.of_nat j + 1) in
          ret (if x <? k then Z.of_nat j + 1 + 1 else Z.of_nat j + 1)
        else ret (Z.of_nat j + 1)) in
      let! c := get_child (Some p) i in insert_nonfull f c k) g h.
Proof.
  intros Hx Cx Hcs Hl Hc Ej A g. cbn [insert_nonfull].
  rewrite bind_bind, (bind_get_n _ _ _ _ Hx), bind_bind, (bind_get_leaf _ _ _ _ Hx).
  destruct Cx as (_ & -> & -> & _ & Hps). rewrite bool_decide_eq_false_2 by by destruct cs.
  rewrite bind_bind. unfold zlen. rewrite Ej, bind_bind.
  rewrite (bind_get_child p _ (root_of c) x _ h Hx); [done | lia |].
  replace (Z.to_nat _) with (S j) by lia.
  assert ((root_of <$> cs) !! j = Some (root_of c)) as Hc' by by rewrite list_lookup_fmap, Hc.
  rewrite <- Hps in Hc'. rewrite lookup_take, decide_True, lookup_drop in Hc'; [exact Hc' |].
  rewrite length_fmap. by apply lookup_lt_is_Some_1.
Qed.

Lemma root_n d h c : reps d h c -> exists x, h !! addr c = Some x /\ n x = zlen (bkeys c).
Proof. destruct c as [a ks cs], d; cbn; intros ((x & Hx & _ & _ & Hn & _) & _); eauto. Qed.

Context (Hm : forall h, malloc h <> None).

Lemma insert_nonfull_spec k d : forall f h t, (d < f)%nat -> reps d h t -> NoDup (locs d t) -> sorted (io d t) ->
  (length (bkeys t) <= 2)%nat -> inserts d f k h t.
Proof using Hm.
  induction d as [| d IH]; intros f h [p ks cs] Hf Hr Hn Hs Hl2; (destruct f as [| f]; [lia |]).
  { assert (cs = []) as -> by apply Hr. by apply insert_leaf. }
  assert (Hr0 := Hr). cbn in Hr. destruct Hr as ((x & Hx & Cx) & Hl & Hlc & _).
  destruct (shift_index h p x ks _ k Hx Cx (length ks) 5) as (j & Hj & Hlast & Hgt & Ej); [lia | lia | by rewrite drop_all |].
  destruct (lookup_lt_is_Some_2 cs j) as [c Hc]; [lia |].
  pose proof (insert_inner f k h p x ks cs c j Hx Cx ltac:(by destruct cs) Hl Hc Ej) as Ei.
  assert (exists kl kr, ks = kl ++ kr /\ length kl = j /\ (forall v, last kl = Some v -> v <= k) /\
    Forall (fun v => k < v) kr) as (kl & kr & -> & <- & Hkl & Hkr).
  { exists (take j ks), (drop j ks). rewrite take_drop, length_take. split_and!; try done. lia. }
  clear Hlast Hgt Ej Hj. apply list_elem_of_split_length in Hc as (cl & cr & -> & Elc).
  symmetry in Elc. rename Elc into El. rewrite <- El in Ei.
  destruct (child_ok d h p kl kr cl c cr El Hr0 Hn Hs) as (Hrc & Hnc & Hsc).
  destruct (root_n d h c Hrc) as (y & Hy & Hny). cbn in Hl2.
  assert (forall v, head kr = Some v -> k <= v) as Hkr'.
  { intros v Hv. destruct kr; [done |]. apply Forall_cons in Hkr as [Hk _]. cbn in Hv. simplify_eq. lia. }
  destruct (decide (length (bkeys c) = 3%nat)) as [E3 | E3].
  - destruct (malloc h) as [z |] eqn:Em; [| by apply Hm in Em].
    destruct (split_tree d h p kl kr cl c cr z Em Hr0 Hn El Hl2 E3) as (h1 & k2 & c1 & c2 & Esp & U & Eio & L1 & L2).
    apply (inserts_same _ _ _ _ h1 _ _ U Eio). destruct U as [Hr1 _ _ Hn1 _ _ _]. rewrite <- Eio in Hs.
    assert (exists x1, h1 !! p = Some x1 /\ keys x1 !! S (length cl) = Some k2) as (x1 & Hx1 & Hk1).
    { cbn in Hr1. destruct Hr1 as ((x1 & Hx1 & _ & _ & _ & Hks & _) & _). exists x1. split; [done |].
      assert ((kl ++ k2 :: kr) !! length cl = Some k2) as Hk2 by (rewrite El; by apply list_lookup_middle).
      rewrite <- Hks in Hk2. rewrite lookup_take, decide_True, lookup_drop in Hk2; [exact Hk2 |].
      rewrite length_app. cbn. lia. }
    assert (forall A (g : unit -> M btree_node A), bind (insert_nonfull (S f) (Some p) k) g h =
      bind (let! c := get_child (Some p) (if k2 <? k then Z.of_nat (length cl) + 1 + 1 else Z.of_nat (length cl) + 1) in
            insert_nonfull f c k) g h1) as E.
    { intros A g. rewrite Ei, bind_bind, (bind_get_n _ _ _ _ Hy), Hny, bind_bind. unfold zlen. rewrite E3.
      change (Z.of_nat 3 =? 3) with true. cbv iota. rewrite bind_bind, Esp, bind_bind.
      rewrite (bind_get_key p _ k2 x1 _ h1 Hx1), bind_ret; [done | lia |].
      by replace (Z.to_nat _) with (S (length cl)) by lia. }
    destruct (Z.ltb_spec k2 k) as [Hlt | Hge].
    + replace (kl ++ k2 :: kr) with ((kl ++ [k2]) ++ kr) in * by by rewrite <- app_assoc.
      replace (cl ++ c1 :: c2 :: cr) with ((cl ++ [c1]) ++ c2 :: cr) in * by by rewrite <- app_assoc.
      assert (length (cl ++ [c1]) = length (kl ++ [k2])) as El1 by (rewrite !length_app; cbn; lia).
      destruct (child_ok d h1 p _ _ _ _ _ El1 Hr1 Hn1 Hs) as (Hrc1 & Hnc1 & Hsc1).
      destruct (insert_below d f k h1 p _ _ _ _ _ El1 Hr1 Hn1 Hs) as (h' & t' & E' & R); [| done | |].
      * intros v. rewrite last_snoc. intros [= <-]. lia.
      * apply IH; try done; lia.
      * exists h', t'. split; [| exact R]. intros A g. rewrite E. rewrite <- E'. do 4 f_equal.
        rewrite length_app. cbn. lia.
    + destruct (child_ok d h1 p kl (k2 :: kr) cl c1 (c2 :: cr) El Hr1 Hn1 Hs) as (Hrc1 & Hnc1 & Hsc1).
      destruct (insert_below d f k h1 p kl (k2 :: kr) cl c1 (c2 :: cr) El Hr1 Hn1 Hs) as (h' & t' & E' & R); [done | | |].
      * intros v. cbn. intros [= <-]. lia.
      * apply IH; try done; lia.
      * exists h', t'. split; [| exact R]. intros A g. by rewrite E, E'.
  - assert (length (bkeys c) <= 2)%nat as Hc2.
    { destruct c as [a ? ?], d; cbn in Hrc |- *; cbn in E3; lia. }
    destruct (insert_below d f k h p kl kr cl c cr El Hr0 Hn Hs Hkl Hkr') as (h' & t' & E' & R); [apply IH; try done; lia |].
    exists h', t'. split; [| exact R]. intros A g. rewrite Ei, bind_bind, (bind_get_n _ _ _ _ Hy), Hny, bind_bind.
    rewrite (proj2 (Z.eqb_neq _ _)) by (unfold zlen; lia). by rewrite bind_ret.
Qed.
End Insert.

Section Root.
Context `{Malloc btree_node} `{Uninit}.
Implicit Types h : gmap loc btree_node.

(** A tree on the heap that is a B-tree: balanced, sorted, and with a key in the root
    if that has children. *)
Definition btree (d : nat) h (t : bt) : Prop :=
  reps d h t /\ NoDup (locs d t) /\ sorted (io d t) /\ (d <> 0%nat -> (1 <= length (bkeys t))%nat).

Lemma depth_locs d : forall h t, reps d h t -> (d < length (locs d t))%nat.
Proof.
  induction d as [| d IH]; intros h [a ks cs]; cbn; [lia |]. intros (_ & _ & Hlc & Hr & _).
  destruct cs as [| c cs]; [discriminate Hlc |]. apply Forall_cons in Hr as [Hr _].
  specialize (IH h c Hr). rewrite bind_cons, length_app. lia.
Qed.

Lemma depth_size d h t : reps d h t -> NoDup (locs d t) -> (d < size h)%nat.
Proof.
  intros Hr Hn. pose proof (depth_locs d h t Hr). assert (length (locs d t) <= size h)%nat; [| lia].
  rewrite <- size_dom, <- (size_list_to_set (C := gset loc)) by done. apply subseteq_size.
  intros a. rewrite elem_of_list_to_set, elem_of_dom. by apply reps_dom.
Qed.

(** Balance: the depth is logarithmic in the number of keys. *)
Lemma io_length d : forall h t, reps d h t -> (1 <= length (bkeys t))%nat -> (2 ^ S d <= S (length (io d t)))%nat.
Proof.
  induction d as [| d IH]; intros h [a ks cs]; cbn [io bkeys]; intros (_ & Hl & Hr) H1; [cbn; lia |].
  destruct Hr as (Hlc & Hr & Hsz). destruct ks as [| k ks]; [cbn in H1; lia |].
  destruct cs as [| c1 [| c2 cs]]; try discriminate Hlc.
  rewrite !Forall_cons in Hr, Hsz. destruct Hr as (R1 & R2 & _), Hsz as (S1 & S2 & _).
  pose proof (IH h c1 R1 S1) as I1. pose proof (IH h c2 R2 S2) as I2. cbn [fmap list_fmap weave].
  rewrite length_app. cbn [length].
  rewrite Nat.pow_succ_r'. destruct ks; rewrite ?length_app; lia.
Qed.

(** *** Printing *)

Lemma print_spec d : forall f h t, (d < f)%nat -> reps d h t -> print_loop f (root_of t) h = Done (io d t, h).
Proof.
  induction d as [| d IH]; intros [| f] h [a ks cs] Hf Hr; try lia;
    cbn in Hr; destruct Hr as ((x & Hx & Cx) & Hl & Hr); destruct x as [xl xn xk xc];
    unfold cell, node_ok in Cx; cbn in Cx;
    destruct Cx as ([(a0 & a1 & a2 & a3 & a4 & ->)%five (b0 & b1 & b2 & b3 & b4 & ->)%five] & -> & -> & Hks & Hps);
    unfold zlen, root_of in *.
  - subst cs. destruct ks as [| k1 [| k2 [| k3 [| ? ?]]]]; try (cbn in Hl; lia); cbn in Hks; simplify_eq;
      cbn [print_loop addr io]; walk1; reflexivity.
  - destruct Hr as (Hlc & Hr & _).
    assert (forall c, c ∈ cs -> forall A (g : list Z -> M btree_node A),
      bind (print_loop f (Some (addr c))) g h = g (io d c) h) as Hc.
    { intros c Hcin A g. apply bind_eq. apply IH; [lia |]. rewrite Forall_forall in Hr. by apply Hr. }
    destruct ks as [| k1 [| k2 [| k3 [| ? ?]]]]; try (cbn in Hl; lia);
      destruct cs as [| c1 [| c2 [| c3 [| c4 [| ? ?]]]]]; try discriminate Hlc;
      cbn in Hks, Hps; simplify_eq; cbn [print_loop addr io];
      repeat first [step | rewrite Hc by set_solver | consts; cbn]; cbn; simplify_list_eq; reflexivity.
Qed.

(** *** Insertion at the root *)

Lemma copy_node h p x ks ps z : h !! p = Some x -> cell x ks ps -> (length ks <= 3)%nat ->
  (ps = [] \/ length ps = S (length ks)) -> malloc h = Some z ->
  exists z', cell z' ks ps /\ forall A (g : ptr -> M btree_node A),
    bind (btree_copy_node (Some p)) g h = g (Some z) (<[z := z']> h).
Proof.
  intros Hx Cx Hl Hps Em. assert (h !! z = None) as Hz by by apply malloc_fresh.
  assert (z <> p) as Hzp by congruence.
  pose proof (uninit_ok h) as Cz. destruct (uninit h) as [zl zn zk zc] eqn:Eu.
  destruct x as [xl xn xk xc]. unfold cell, node_ok in Cx, Cz. cbn in *.
  destruct Cz as [(z0 & z1 & z2 & z3 & z4 & ->)%five (w0 & w1 & w2 & w3 & w4 & ->)%five].
  destruct Cx as ([(a0 & a1 & a2 & a3 & a4 & ->)%five (b0 & b1 & b2 & b3 & b4 & ->)%five] & -> & -> & Hks & Hqs).
  unfold zlen in *.
  assert (forall Z, <[z := Z]> h !! p = h !! p) as Hp by (intros; by apply lookup_insert_ne).
  destruct ks as [| k1 [| k2 [| k3 [| ? ?]]]]; try (cbn in Hl; lia);
    (destruct Hps as [-> | Hps];
      [| destruct ps as [| p1 [| p2 [| p3 [| p4 [| ? ?]]]]]; try discriminate Hps]);
    cbn in Hks, Hqs; simplify_eq; eexists; (split; cycle 1;
      [intros A g; unfold btree_copy_node; rewrite bind_bind, bind_alloc_node, Em, Eu; cbn [keys childs];
       repeat first [step | consts; cbn]; reflexivity |]);
    cell_done.
Qed.

Context (Hm : forall h, malloc h <> None).

Lemma insert_root k d h t : btree d h t -> (length (bkeys t) <= 2)%nat ->
  exists h' t', (forall A (g : unit -> M btree_node A), bind (btree_insert_nonfull (root_of t) k) g h = g tt h') /\
    addr t' = addr t /\ btree d h' t' /\ io d t' ≡ₚ k :: io d t.
Proof using Hm.
  intros (Hr & Hn & Hs & Hk) Hl. pose proof (depth_size d h t Hr Hn).
  destruct (insert_nonfull_spec Hm k d (S (size h)) h t ltac:(lia) Hr Hn Hs Hl) as (h' & t' & E & [] & Hs' & Hp).
  exists h', t'. split_and!; [exact E | done | | done]. split_and!; try done. intros Hd. specialize (Hk Hd). lia.
Qed.

(** A new root above the old one, which is copied. *)
Lemma grow_root d h t : btree d h t -> length (bkeys t) = 3%nat ->
  exists h' w c1 c2 k2, (forall A (g : ptr -> M btree_node A),
    (let! old_root := btree_copy_node (root_of t) in
      let! node := btree_alloc_node in
      set_leaf node false ;! set_n node 0 ;! set_child node 1 old_root ;!
      btree_split_child node 1 ;! g node) h = g (Some w) h') /\
    btree (S d) h' (B w [k2] [c1; c2]) /\ io (S d) (B w [k2] [c1; c2]) = io d t.
Proof using Hm.
  intros (Hr & Hn & Hs & _) H3. destruct t as [a ks cs]. cbn in H3.
  assert (exists x, h !! a = Some x /\ cell x ks (root_of <$> cs)) as (x & Hx & Cx) by (destruct d; cbn in Hr; tauto).
  assert ((root_of <$> cs) = [] \/ length (root_of <$> cs) = S (length ks)) as Hps.
  { destruct d; cbn in Hr; [left; by destruct Hr as (_ & _ & ->) | right; rewrite length_fmap; tauto]. }
  destruct (malloc h) as [z |] eqn:Ez; [| by apply Hm in Ez].
  destruct (copy_node h a x ks _ z Hx Cx ltac:(lia) Hps Ez) as (z' & Cz & Ecopy).
  set (h1 := <[z := z']> h) in *. destruct (malloc h1) as [w |] eqn:Ew; [| by apply Hm in Ew].
  apply malloc_fresh in Ez as Hz. apply malloc_fresh in Ew as Hw.
  assert (w <> z) as Hwz by (intros ->; unfold h1 in Hw; by rewrite lookup_insert_eq in Hw).
  pose proof (uninit_ok h1) as Cu. destruct (uninit h1) as [ul un uk uc] eqn:Eu.
  destruct Cu as [Huk (u0 & u1 & u2 & u3 & u4 & Euc)%five]. cbn in Huk, Euc. subst uc.
  set (h2 := <[w := mkNode false 0 uk [u0; Some z; u2; u3; u4]]> h1).
  assert (forall b, b ∈ locs d (B a ks cs) -> b <> z /\ b <> w) as Hfresh.
  { intros b Hb. destruct (reps_dom d h _ b Hr Hb) as [v Hv]. split; intros ->; [congruence |].
    unfold h1 in Hw. rewrite lookup_insert_ne in Hw by done. congruence. }
  assert (forall b, b ∈ tail (locs d (B a ks cs)) -> h2 !! b = h !! b) as Hag.
  { intros b Hb. destruct (Hfresh b) as [? ?]; [destruct d; cbn in *; set_solver |].
    unfold h2, h1. by rewrite !lookup_insert_ne. }
  assert (reps d h2 (B z ks cs)) as Hrz.
  { destruct d as [| d]; cbn in Hr, Hag |- *; destruct Hr as (_ & Hl & Hr);
      (split; [exists z'; split; [unfold h2; rewrite lookup_insert_ne by done; apply lookup_insert_eq | done] | split; [done |]]).
    - done.
    - destruct Hr as (Hlc & Hrc & Hsz). split_and!; try done. rewrite Forall_forall in *. intros c Hc.
      apply (reps_agree d h); [| by apply Hrc]. intros b Hb. apply Hag. apply list_elem_of_bind. eauto. }
  assert (reps (S d) h2 (B w [] [B z ks cs])) as Hr2.
  { cbn. split; [| split; [lia |]].
    - eexists. split; [apply lookup_insert_eq |]. unfold cell, node_ok. cbn. split_and!; done.
    - split_and!; [done | by apply Forall_singleton | apply Forall_singleton; cbn; lia]. }
  assert (NoDup (locs (S d) (B w [] [B z ks cs]))) as Hn2.
  { cbn [locs]. rewrite bind_cons. cbn [mbind list_bind]. rewrite app_nil_r.
    destruct d as [| d]; cbn [locs] in *.
    - apply NoDup_cons. split; [set_solver | apply NoDup_singleton].
    - apply NoDup_cons in Hn as [Hna Hn].
      apply NoDup_cons. split; [intros [-> | Hin]%elem_of_cons; [done | by apply (Hfresh w); set_solver] |].
      apply NoDup_cons. split; [| done]. intros Hin. by apply (Hfresh z); set_solver. }
  assert (io (S d) (B w [] [B z ks cs]) = io d (B a ks cs)) as Eio by (destruct d; done).
  destruct (malloc h2) as [v |] eqn:Ev; [| by apply Hm in Ev].
  destruct (split_tree d h2 w [] [] [] (B z ks cs) [] v Ev Hr2 Hn2 eq_refl ltac:(cbn; lia) H3)
    as (h3 & k2 & c1 & c2 & Esp & [U1 _ _ U4 _ _ _] & Eio3 & _ & _). cbn [app] in *.
  exists h3, w, c1, c2, k2. split_and!.
  - intros A g. unfold root_of. cbn [addr]. rewrite Ecopy, bind_alloc_node. fold h1.
    rewrite Ew, Eu. cbn [keys childs].
    rewrite (bind_set_leaf _ _ _ _ _ (lookup_insert_eq _ _ _)), insert_insert_eq. cbn [leaf n keys childs].
    rewrite (bind_set_n _ _ _ _ _ (lookup_insert_eq _ _ _)), insert_insert_eq. cbn [leaf n keys childs].
    rewrite (bind_set_child w 1 (Some z) u1 (mkNode false 0 uk [u0; u1; u2; u3; u4])); [| apply lookup_insert_eq | lia | done].
    rewrite insert_insert_eq. cbn [leaf n keys childs]. fold h2.
    apply Esp.
  - split_and!; [done | done | by rewrite Eio3, Eio | cbn; lia].
  - by rewrite Eio3, Eio.
Qed.

Lemma btree_insert_spec k d h t : btree d h t ->
  exists d' h' t', btree_insert (root_of t) k h = Done (root_of t', h') /\ btree d' h' t' /\ io d' t' ≡ₚ k :: io d t.
Proof using Hm.
  intros Hb. destruct (root_n d h t (proj1 Hb)) as (x & Hx & En).
  unfold btree_insert. rewrite (bind_get_n _ _ _ _ Hx), En. unfold zlen.
  destruct (decide (length (bkeys t) = 3%nat)) as [E3 | E3].
  - rewrite E3. change (Z.of_nat 3 =? 2 * MAX_NODE_KEY - 1) with true. cbv iota.
    destruct (grow_root d h t Hb E3) as (h1 & w & c1 & c2 & k2 & Eg & Hb1 & Eio).
    destruct (insert_root k (S d) h1 _ Hb1 ltac:(cbn; lia)) as (h2 & t' & Ei & Ea & Hb2 & Hp).
    exists (S d), h2, t'. split_and!; [| done | by rewrite Hp, Eio].
    rewrite (Eg ptr (fun node => btree_insert_nonfull node k ;! ret node)).
    unfold root_of in *. cbn [addr] in Ei, Ea. by rewrite Ei, Ea.
  - assert (length (bkeys t) <= 2)%nat as Hl.
    { destruct Hb as (Hr & _). destruct t as [a ? ?], d; cbn in Hr, E3 |- *; lia. }
    rewrite (proj2 (Z.eqb_neq _ _)) by (change (2 * MAX_NODE_KEY - 1) with 3; lia).
    destruct (insert_root k d h t Hb Hl) as (h' & t' & E & Ea & Hb' & Hp).
    exists d, h', t'. split_and!; [| done | done]. rewrite E. unfold root_of. by rewrite Ea.
Qed.

(** A program that inserts keys one after the other. *)
Fixpoint inserts_all (ks : list Z) (root : ptr) : M btree_node ptr :=
  match ks with [] => ret root | k :: ks => let! root := btree_insert root k in inserts_all ks root end.

Lemma inserts_all_spec ks : forall d h t, btree d h t ->
  exists d' h' t', inserts_all ks (root_of t) h = Done (root_of t', h') /\ btree d' h' t' /\
    io d' t' ≡ₚ ks ++ io d t.
Proof using Hm.
  induction ks as [| k ks IH]; intros d h t Hb; [by exists d, h, t |].
  destruct (btree_insert_spec k d h t Hb) as (d1 & h1 & t1 & E1 & Hb1 & Hp1).
  destruct (IH d1 h1 t1 Hb1) as (d2 & h2 & t2 & E2 & Hb2 & Hp2).
  exists d2, h2, t2. cbn [inserts_all]. rewrite (bind_eq _ _ _ _ _ E1), E2. split_and!; [done | done |].
  rewrite Hp2, Hp1. solve_Permutation.
Qed.

(** C18: The B-tree sorts what is inserted and stays balanced: inserting any keys (repeated ones
    too) into a new tree runs without undefined behaviour, whatever the memory holds that
    [malloc] returns, as long as it returns some; [print_btree] then prints exactly these
    keys in order; every node has at most three keys and every node except the root at
    least one, all leaves are at the same depth, which is at most the logarithm of the
    number of keys. *)
Theorem btree_refinement ks :
  exists root h l d t,
    (let! root := btree_create in inserts_all ks root) ∅ = Done (root, h) /\
    print_btree root h = Done (l, h) /\ sorted l /\ l ≡ₚ ks /\
    root = root_of t /\ reps d h t /\ (d = 0%nat \/ (2 ^ S d <= S (length ks))%nat).
Proof using Hm.
  unfold btree_create. rewrite bind_alloc_node. destruct (malloc ∅) as [z |] eqn:Ez; [| by apply Hm in Ez].
  set (h0 := <[z := _]> ∅). pose proof (uninit_ok ∅) as [Huk Huc].
  assert (btree 0 h0 (B z [] [])) as Hb0.
  { split_and!; [| cbn; apply NoDup_singleton | constructor | done]. cbn. split_and!; [| lia | done].
    eexists. split; [apply lookup_insert_eq |]. by unfold cell, node_ok. }
  destruct (inserts_all_spec ks 0 h0 _ Hb0) as (d & h & t & E & Hb & Hp). cbn in Hp. rewrite app_nil_r in Hp.
  exists (root_of t), h, (io d t), d, t. destruct Hb as (Hr & Hn & Hs & Hk).
  pose proof (depth_size d h t Hr Hn). split_and!; try done.
  - apply print_spec; [lia | done].
  - destruct d as [| d]; [by left | right]. rewrite <- Hp. apply (io_length _ h); [done | by apply Hk].
Qed.

(** [btree_search] reads [keys[0]], which is never written: on any tree whose root happens to
    hold there the key that is searched for, the root is returned whether or not the key is
    in the tree; if it holds something greater, [NULL] is returned for a tree that is only a
    root, although the key may be in it. *)
Theorem search_reads_junk d h t x k v : reps d h t -> h !! addr t = Some x -> keys x !! 0%nat = Some v -> k <= v ->
  (k = v -> btree_search (root_of t) k h = Done (root_of t, h)) /\
  (k < v -> d = 0%nat -> btree_search (root_of t) k h = Done (None, h)).
Proof.
  intros Hr Hx Hv Hkv. destruct (root_n d h t Hr) as (x' & Hx' & En). simplify_eq.
  unfold btree_search, with_fuel, root_of. cbn [search_from search_loop].
  assert ((n x <? 0) = false) as Hn by (rewrite En; unfold zlen; apply Z.ltb_ge; lia).
  rewrite bind_bind, (bind_get_n _ _ _ _ Hx), Hn, bind_bind, (bind_get_key _ 0 v _ _ _ Hx) by done.
  rewrite (proj2 (Z.leb_le k v) Hkv), bind_ret, (bind_get_n _ _ _ _ Hx), Hn, bind_bind.
  rewrite (bind_get_key _ 0 v _ _ _ Hx) by done. rewrite bind_ret. split.
  - intros ->. by rewrite Z.eqb_refl.
  - intros Hlt ->. rewrite (proj2 (Z.eqb_neq k v)) by lia. rewrite (bind_get_leaf _ _ _ _ Hx).
    destruct t as [a ks cs]. cbn in Hr, Hx. destruct Hr as ((x' & Hx'' & _ & Hl & _) & _ & ->). simplify_eq.
    by rewrite Hl.
Qed.
End Root.
End BTreeSpec.

Module BTreeSamples.
(** An allocator that never fails, and memory that holds fives. *)
#[export] Instance fresh_malloc : Malloc btree_node := {
  malloc h := Some (fresh (dom h));
  malloc_fresh h l := ltac:(intros [= <-]; apply not_elem_of_dom, is_fresh)
}.
#[export] Instance fives : Uninit := {
  uninit _ := mkNode false 5 [5; 5; 5; 5; 5] [None; None; None; None; None];
  uninit_ok _ := conj eq_refl eq_refl
}.

(** The calls of [main]. *)
Definition main_keys : list Z := [1; 2; 3; 4; 6; 5; 7; 8; 9].

Example main_prints :
  (let* (out, _) := (let! root := btree_create in
                     let! root := BTreeSpec.inserts_all main_keys root in print_btree root) ∅ in Done out) =
  Done [1; 2; 3; 4; 5; 6; 7; 8; 9].
Proof. vm_compute. reflexivity. Qed.

Lemma btree_refinement_witness :
  exists root h l d t,
    (let! root := btree_create in BTreeSpec.inserts_all main_keys root) ∅ = Done (root, h) /\
    print_btree root h = Done (l, h) /\ BTreeSpec.sorted l /\ l ≡ₚ main_keys /\
    root = root_of t /\ BTreeSpec.reps d h t /\ (d = 0%nat \/ (2 ^ S d <= S (length main_keys))%nat).
Proof. apply BTreeSpec.btree_refinement. intros h E. discriminate E. Defined.

(** A new tree after [btree_insert(&root, 1)]. *)
Definition one_node : btree_node := mkNode true 1 [5; 1; 5; 5; 5] [None; None; None; None; None].
Definition one_heap : gmap loc btree_node := {[1%positive := one_node]}.

Example one_insertion :
  (let! root := btree_create in btree_insert root 1) ∅ = Done (Some 1%positive, one_heap).
Proof. vm_compute. reflexivity. Qed.

(** Five is found in it, and one is not. *)
Lemma search_reads_junk_witness :
  btree_search (Some 1%positive) 5 one_heap = Done (Some 1%positive, one_heap) /\
  btree_search (Some 1%positive) 1 one_heap = Done (None, one_heap).
Proof.
  assert (BTreeSpec.reps 0 one_heap (B 1%positive [1] [])) as Hr.
  { split; [exists one_node; split; [reflexivity | repeat split; reflexivity] | split; [cbn; lia | reflexivity]]. }
  split.
  - apply (BTreeSpec.search_reads_junk 0 one_heap (B 1%positive [1] []) one_node 5 5 Hr); reflexivity || lia.
  - apply (BTreeSpec.search_reads_junk 0 one_heap (B 1%positive [1] []) one_node 1 5 Hr); reflexivity || lia.
Defined.
End BTreeSamples.
