(* ===== verification/SkipList.v ===== *)
(** The skip list of [algorithm/skip-list.c]: a circle of nodes on the heap, each with an
    array of pointers, one for each of its levels.  A node and its array are one cell;
    what [malloc] leaves in the array is a parameter.  The field [level] of a node is
    never used. *)
From S2P Require Import Prelude CHeap.

Module SkipList.
Definition MAX_LEVEL : Z := 32.
Record node := mkNode { key : Z; forward : list ptr }.
Record skip_list := mkList { head : ptr; level : Z }.

(** What a new array of pointers holds. *)
Class Uninit := { uninit : gmap loc node -> nat -> list ptr; uninit_length h m : length (uninit h m) = m }.

Section Ops.
Context `{Malloc node} `{Uninit}.
#[local] Abbreviation M := (M node).

Definition get_key (x : ptr) : M Z := let! n := load x in ret (key n).
Definition get_forward (x : ptr) (i : Z) : M ptr := let! n := load x in index (forward n) i.
Definition set_forward (x : ptr) (i : Z) (v : ptr) : M unit :=
  let! _ := get_forward x i in
  modify x (fun n => mkNode (key n) (<[Z.to_nat i := v]> (forward n))).

(** The result of [malloc] is not tested. *)
Definition node_alloc (k : Z) (m : Z) : M ptr :=
  let! x := (fun h => alloc (mkNode k (uninit h (Z.to_nat m))) h) in
  let! _ := load x in ret x.

Fixpoint fill_forward (x : ptr) (js : list Z) (v : ptr) : M unit :=
  match js with [] => ret tt | i :: js => set_forward x i v ;! fill_forward x js v end.
Definition skip_list_init : M skip_list :=
  let! x := node_alloc int_max (MAX_LEVEL + 1) in
  fill_forward x (up 0 (MAX_LEVEL + 1)) x ;!
  ret (mkList x 0).

(** [rand] is given by its successive values. *)
Fixpoint rand_loop (fuel : nat) (rand : nat -> Z) (l : nat) : Z :=
  if Z.land (rand l) 1 =? 1 then
    match fuel with O => Z.of_nat l | S f => if Z.of_nat (S l) =? MAX_LEVEL then MAX_LEVEL else rand_loop f rand (S l) end
  else Z.of_nat l.
Definition rand_level (rand : nat -> Z) : Z := rand_loop 32 rand 0.

(** [while(x->forward[i]->key < key) x = x->forward[i];] *)
Fixpoint walk (fuel : nat) (x : ptr) (i k : Z) : M ptr :=
  let! y := get_forward x i in
  let! yk := get_key y in
  if yk <? k then match fuel with O => no_fuel | S f => walk f y i k end else ret x.

(** The array [update] has [MAX_LEVEL + 1] elements; the ones that are not set may not be read. *)
Definition set_update (i : Z) (x : ptr) (u : gmap Z ptr) : M (gmap Z ptr) := fun h =>
  if (0 <=? i) && (i <=? MAX_LEVEL) then Done (<[i := x]> u, h) else UB.
Definition get_update (i : Z) (u : gmap Z ptr) : M ptr := fun h =>
  match u !! i with Some x => Done (x, h) | None => UB end.

Fixpoint descend (js : list Z) (x : ptr) (k : Z) (u : gmap Z ptr) : M (ptr * gmap Z ptr) :=
  match js with
  | [] => ret (x, u)
  | i :: js =>
    let! x := with_fuel (fun f => walk f x i k) in
    let! u := set_update i x u in
    descend js x k u
  end.

Fixpoint set_heads (js : list Z) (x : ptr) (u : gmap Z ptr) : M (gmap Z ptr) :=
  match js with [] => ret u | i :: js => let! u := set_update i x u in set_heads js x u end.

Fixpoint link (js : list Z) (x : ptr) (u : gmap Z ptr) : M unit :=
  match js with
  | [] => ret tt
  | i :: js =>
    let! p := get_update i u in
    let! v := get_forward p i in
    set_forward x i v ;!
    set_forward p i x ;!
    link js x u
  end.

Definition skip_list_insert (root : skip_list) (k : Z) (rand : nat -> Z) : M skip_list :=
  let! (x, u) := descend (down (level root) 0) (head root) k ∅ in
  let! x := get_forward x 0 in
  let! xk := get_key x in
  if k =? xk then ret root else
  let l := rand_level rand in
  let! (u, root) :=
    if level root <? l then
      let! u := set_heads (up (level root) (l + 1)) (head root) u in
      ret (u, mkList (head root) l)
    else ret (u, root) in
  let! x := node_alloc k (l + 1) in
  link (up 0 (l + 1)) x u ;!
  ret root.

Fixpoint find_loop (js : list Z) (x : ptr) (k : Z) : M ptr :=
  match js with
  | [] => ret x
  | i :: js => let! x := with_fuel (fun f => walk f x i k) in find_loop js x k
  end.
Definition skip_list_find (root : skip_list) (k : Z) : M ptr :=
  let! p := find_loop (down (level root) 0) (head root) k in
  let! q := get_forward p 0 in
  let! qk := get_key q in
  if qk =? k then ret p else ret None.

(** [for(...) { if(update[i]->forward[i] != p) break; update[i]->forward[i] = p->forward[i]; }] *)
Fixpoint unlink (js : list Z) (p : ptr) (u : gmap Z ptr) : M unit :=
  match js with
  | [] => ret tt
  | i :: js =>
    let! x := get_update i u in
    let! q := get_forward x i in
    if decide (q = p) then
      let! v := get_forward p i in
      set_forward x i v ;!
      unlink js p u
    else ret tt
  end.

(** [while(root->level > 0 && root->head->forward[root->level] == root->head) root->level--;] *)
Fixpoint lower (l : nat) (hd : ptr) : M Z :=
  match l with
  | O => ret 0
  | S l' => let! q := get_forward hd (Z.of_nat l) in
            if decide (q = hd) then lower l' hd else ret (Z.of_nat l)
  end.

Definition skip_list_remove (root : skip_list) (k : Z) : M skip_list :=
  let! (p, u) := descend (down (level root) 0) (head root) k ∅ in
  let! p := get_forward p 0 in
  let! pk := get_key p in
  if pk =? k then
    unlink (up 0 (level root + 1)) p u ;!
    dealloc p ;!
    let! l := lower (Z.to_nat (level root)) (head root) in
    ret (mkList (head root) l)
  else ret root.

Fixpoint free_loop (fuel : nat) (hd x : ptr) : M unit :=
  if decide (x = hd) then ret tt else
  let! next := get_forward x 0 in
  dealloc x ;!
  match fuel with O => no_fuel | S f => free_loop f hd next end.
Definition skip_list_free (root : skip_list) : M unit :=
  let! x := get_forward (head root) 0 in
  with_fuel (fun f => free_loop f (head root) x) ;!
  dealloc (head root).

Fixpoint dump_loop (fuel : nat) (hd x : ptr) : M (list Z) :=
  let! y := get_forward x 0 in
  if decide (y = hd) then ret [] else
  let! k := get_key y in
  match fuel with O => no_fuel | S f => let! ks := dump_loop f hd y in ret (k :: ks) end.
(** The keys that are printed. *)
Definition skip_list_dump (root : skip_list) : M (list Z) :=
  with_fuel (fun f => dump_loop f (head root) (head root)).
End Ops.
End SkipList.
Import SkipList.

(** * Lists on the heap *)

(** A node in the list: its address, its key and its highest level. *)
Record entry := E { e_loc : loc; e_key : Z; e_lev : nat }.
Definition keys (ns : list entry) : list Z := e_key <$> ns.
Definition locs (ns : list entry) : list loc := e_loc <$> ns.

(** The nodes that are linked at a level. *)
Definition chain (i : nat) (ns : list entry) : list loc := locs (filter (fun e => i <= e_lev e)%nat ns).

Definition fwd (h : gmap loc node) (p : loc) (i : nat) (q : loc) : Prop :=
  exists n, h !! p = Some n /\ forward n !! i = Some (Some q).
(** The pointers of a level lead from [p] through [ch] to [hd]. *)
Fixpoint links (h : gmap loc node) (i : nat) (p : loc) (ch : list loc) (hd : loc) : Prop :=
  match ch with
  | [] => fwd h p i hd
  | a :: ch => fwd h p i a /\ links h i a ch hd
  end.
Definition shape (h : gmap loc node) (a : loc) (k : Z) (m : nat) : Prop :=
  exists n, h !! a = Some n /\ key n = k /\ length (forward n) = m.

Record holds (h : gmap loc node) (hd : loc) (L : nat) (ns : list entry) : Prop := {
  h_nodes e : e ∈ ns -> shape h (e_loc e) (e_key e) (S (e_lev e));
  h_head : shape h hd int_max 33;
  h_links i : (i <= 32)%nat -> links h i hd (chain i ns) hd;
  h_locs : NoDup (hd :: locs ns);
  h_sorted : StronglySorted Z.lt (keys ns);
  h_keys e : e ∈ ns -> e_key e < int_max;
  h_levels e : e ∈ ns -> (e_lev e <= L)%nat;
  h_max : (L <= 32)%nat
}.

Module SkipListSpec.
(** The last of a list of addresses, or [p]. *)
Definition end_of (p : loc) (ch : list loc) : loc := default p (last ch).

Lemma end_of_cons p a ch : end_of p (a :: ch) = end_of a ch.
Proof. unfold end_of. rewrite last_cons. by destruct (last ch). Qed.
Lemma end_of_snoc p a ch : end_of p (ch ++ [a]) = a.
Proof. unfold end_of. by rewrite last_snoc. Qed.
Lemma end_of_app p A B : end_of p (A ++ B) = end_of (end_of p A) B.
Proof. unfold end_of. rewrite last_app. by destruct (last B). Qed.
Lemma end_of_in p ch : end_of p ch ∈ p :: ch.
Proof.
  unfold end_of. destruct (last ch) eqn:El; cbn; [| set_solver]. apply last_Some_elem_of in El. set_solver.
Qed.

Lemma chain_app i xs ys : chain i (xs ++ ys) = chain i xs ++ chain i ys.
Proof. unfold chain, locs. by rewrite filter_app, fmap_app. Qed.
Lemma chain_cons i e ys : chain i (e :: ys) = if decide (i <= e_lev e)%nat then e_loc e :: chain i ys else chain i ys.
Proof. unfold chain, locs. rewrite filter_cons. by case_decide. Qed.
Lemma elem_of_chain i ns a : a ∈ chain i ns <-> exists e, e ∈ ns /\ e_loc e = a /\ (i <= e_lev e)%nat.
Proof.
  unfold chain, locs. rewrite list_elem_of_fmap. setoid_rewrite list_elem_of_filter. naive_solver.
Qed.
Lemma chain_sublist i ns : chain i ns `sublist_of` locs ns.
Proof. unfold chain, locs. apply fmap_sublist, sublist_filter. Qed.
Lemma chain_all ns : chain 0 ns = locs ns.
Proof.
  induction ns as [| e ns IH]; [done |]. rewrite chain_cons, decide_True by lia. cbn. by rewrite IH.
Qed.
Lemma chain_above i ns : (forall e, e ∈ ns -> e_lev e < i)%nat -> chain i ns = [].
Proof.
  intros Hl. destruct (chain i ns) as [| a ch] eqn:Ec; [done |].
  assert (a ∈ chain i ns) as (e & He & _ & Hi)%elem_of_chain by (rewrite Ec; set_solver). specialize (Hl e He). lia.
Qed.

(** ** Pointers of one level *)

Section Links.
Implicit Types h : gmap loc node.

Lemma links_app h i hd A : forall p B, links h i p (A ++ B) hd -> links h i (end_of p A) B hd.
Proof.
  induction A as [| a A IH]; intros p B; cbn; [done |]. intros [_ Hl]. rewrite end_of_cons. by apply IH.
Qed.

(** What a node points to at a level: the next one of the chain, or the head. *)
Lemma links_next h i hd p B : links h i p B hd -> fwd h p i (default hd (hd_error B)).
Proof. destruct B; cbn; [done |]. by intros [? _]. Qed.

(** Programs that change one pointer. *)
Definition point h (a : loc) (i : nat) (q : loc) (n : node) : gmap loc node :=
  <[a := mkNode (key n) (<[i := Some q]> (forward n))]> h.

Lemma fwd_point_eq h a i q n : (i < length (forward n))%nat -> fwd (point h a i q n) a i q.
Proof.
  intros Hi. eexists. split; [apply lookup_insert_eq |]. cbn. by apply list_lookup_insert_eq.
Qed.

Lemma fwd_point_ne h a i q n b j r : h !! a = Some n -> (b <> a \/ j <> i) ->
  fwd h b j r -> fwd (point h a i q n) b j r.
Proof.
  intros Ha Hne (m & Hm & Hf). destruct (decide (b = a)) as [-> | Hb].
  - simplify_eq. eexists. split; [apply lookup_insert_eq |]. cbn.
    rewrite list_lookup_insert_ne; [done |]. destruct Hne; congruence.
  - exists m. split; [unfold point; by rewrite lookup_insert_ne | done].
Qed.

Lemma shape_point h a i q n b k m : h !! a = Some n -> shape h b k m -> shape (point h a i q n) b k m.
Proof.
  intros Ha (x & Hx & Hk & Hm). destruct (decide (b = a)) as [-> | Hb].
  - simplify_eq. eexists. split; [apply lookup_insert_eq |]. cbn. by rewrite length_insert.
  - exists x. split; [unfold point; by rewrite lookup_insert_ne | done].
Qed.

Lemma links_mono h h' i hd ch : forall p, (forall b r, b ∈ p :: ch -> fwd h b i r -> fwd h' b i r) ->
  links h i p ch hd -> links h' i p ch hd.
Proof.
  induction ch as [| a ch IH]; intros p Hf; cbn; [apply Hf; set_solver |].
  intros [H1 H2]. split; [apply Hf; [set_solver | done] |]. apply IH; [| done].
  intros b r Hb. apply Hf. set_solver.
Qed.

(** Other levels are not affected. *)
Lemma links_point_level h a i q n j p ch hd : h !! a = Some n -> j <> i ->
  links h j p ch hd -> links (point h a i q n) j p ch hd.
Proof. intros Ha Hj. apply links_mono. intros b r _. apply fwd_point_ne; [done | by right]. Qed.

(** Taking out the node after a position, or putting one in there. *)
Lemma links_bypass h i hd n B : forall A p x, let a := end_of p A in
  links h i p (A ++ x :: B) hd -> NoDup (p :: A ++ x :: B) -> h !! a = Some n ->
  links (point h a i (default hd (hd_error B)) n) i p (A ++ B) hd.
Proof.
  intros A. induction A as [| c A IH]; intros p x a Hl Hn Ha; cbn in *.
  - destruct Hl as [Hf Hl]. assert (i < length (forward n))%nat as Hi.
    { destruct Hf as (m & Hm & Hi). unfold a, end_of in *. cbn in *. simplify_eq. by eapply lookup_lt_Some. }
    destruct B as [| b B]; cbn; [by apply fwd_point_eq |]. split; [by apply fwd_point_eq |].
    destruct Hl as [_ Hl]. apply (links_mono h); [| done]. intros c r Hc. apply fwd_point_ne; [done |]. left.
    intros ->. apply NoDup_cons in Hn as [Hn _]. unfold a, end_of in Hc. cbn in Hc. set_solver.
  - unfold a in *. rewrite end_of_cons in *. destruct Hl as [Hf Hl]. apply NoDup_cons in Hn as [Hp Hn]. split.
    + apply fwd_point_ne; [done | | done]. left. intros ->. apply Hp. pose proof (end_of_in c A). set_solver.
    + by apply (IH c x).
Qed.

Lemma links_put h i hd n B x : forall A p, let a := end_of p A in
  links h i p (A ++ B) hd -> NoDup (p :: A ++ B) -> x ∉ p :: A ++ B -> h !! a = Some n ->
  fwd h x i (default hd (hd_error B)) ->
  links (point h a i x n) i p (A ++ x :: B) hd.
Proof.
  intros A. induction A as [| c A IH]; intros p a Hl Hn Hx Ha Hfx; cbn in *.
  - unfold a, end_of in *. cbn in *. assert (exists r, fwd h p i r) as (r & m & Hm & Hi).
    { apply links_next in Hl. eauto. }
    simplify_eq. assert (i < length (forward n))%nat by by eapply lookup_lt_Some.
    split; [by apply fwd_point_eq |].
    assert (fwd (point h p i x n) x i (default hd (hd_error B))) as Hfx'.
    { apply fwd_point_ne; [done | left; set_solver | done]. }
    destruct B as [| b B]; cbn in *; [done |]. split; [done |]. destruct Hl as [_ Hl].
    apply (links_mono h); [| done]. intros c s Hc. apply fwd_point_ne; [done |]. left. intros ->.
    apply NoDup_cons in Hn as [Hn _]. set_solver.
  - unfold a in *. rewrite end_of_cons in *. destruct Hl as [Hf Hl]. apply NoDup_cons in Hn as [Hp Hn]. split.
    + apply fwd_point_ne; [done | | done]. left. intros ->. apply Hp. pose proof (end_of_in c A). set_solver.
    + apply IH; try done. set_solver.
Qed.
End Links.

(** ** Programs *)

#[local] Arguments bind : simpl never.

Section Steps.
Context `{Malloc node} `{Uninit}.
Implicit Types h : gmap loc node.

Lemma bind_get_forward {A} h p i q (f : ptr -> M node A) :
  fwd h p i q -> bind (get_forward (Some p) (Z.of_nat i)) f h = f (Some q) h.
Proof.
  intros (n & Hn & Hi). unfold get_forward. rewrite bind_bind, (bind_load _ _ _ _ Hn).
  apply bind_index; [lia | by rewrite Nat2Z.id].
Qed.

Lemma skip_bind_get_key {A} h a k m (f : Z -> M node A) :
  shape h a k m -> bind (get_key (Some a)) f h = f k h.
Proof. intros (n & Hn & <- & _). unfold get_key. by rewrite bind_bind, (bind_load _ _ _ _ Hn). Qed.

Lemma bind_set_forward {A} h a i q n (f : unit -> M node A) :
  h !! a = Some n -> (i < length (forward n))%nat ->
  bind (set_forward (Some a) (Z.of_nat i) (Some q)) f h = f tt (point h a i q n).
Proof.
  intros Hn Hi. destruct (lookup_lt_is_Some_2 _ _ Hi) as [v Hv].
  unfold set_forward, get_forward. rewrite !bind_bind, (bind_load _ _ _ _ Hn), (bind_index _ _ v);
    [| lia | by rewrite Nat2Z.id].
  rewrite (bind_modify _ n) by done. by rewrite Nat2Z.id.
Qed.

Lemma walk_spec h i hd k C B : forall p f, links h i p (B ++ C) hd ->
  (forall b, b ∈ B -> exists m kb, shape h b kb m /\ kb < k) ->
  (exists m kc, shape h (default hd (hd_error C)) kc m /\ k <= kc) -> (length B <= f)%nat ->
  walk f (Some p) (Z.of_nat i) k h = Done (Some (end_of p B), h).
Proof.
  induction B as [| b B IH]; intros p f Hl Hb (m & kc & Hc & Hk) Hf; cbn in Hl.
  - assert (forall (X : ptr -> M node ptr) Y, (let! y := get_forward (Some p) (Z.of_nat i) in
      let! yk := get_key y in if yk <? k then X y else Y) h = Y h) as E.
    { intros X Y. rewrite (bind_get_forward _ _ _ _ _ (links_next _ _ _ _ _ Hl)), (skip_bind_get_key _ _ _ _ _ Hc).
      by rewrite (proj2 (Z.ltb_ge _ _) Hk). }
    destruct f; cbn [walk]; [by rewrite (E (fun _ => no_fuel)) | by rewrite (E (fun y => walk f y (Z.of_nat i) k))].
  - destruct Hl as [Hf1 Hl]. destruct (Hb b) as (mb & kb & Hsb & Hkb); [set_solver |].
    destruct f as [| f]; [cbn in Hf; lia |]. cbn [walk].
    rewrite (bind_get_forward _ _ _ _ _ Hf1), (skip_bind_get_key _ _ _ _ _ Hsb), (proj2 (Z.ltb_lt _ _) Hkb).
    rewrite end_of_cons. apply IH; [done | | by exists m, kc | cbn in Hf; lia]. intros c Hc'. apply Hb. set_solver.
Qed.

Lemma skip_holds_size h hd L ns : holds h hd L ns -> (length ns <= size h)%nat.
Proof.
  intros [Hns _ _ Hn _ _ _ _]. apply NoDup_cons in Hn as [_ Hn].
  rewrite <- (length_fmap e_loc), <- size_dom, <- (size_list_to_set (C := gset loc)) by done.
  apply subseteq_size. intros a. rewrite elem_of_list_to_set, elem_of_dom.
  intros (e & -> & He)%list_elem_of_fmap. destruct (Hns e He) as (n & Hn' & _). eauto.
Qed.

(** The heap changed in the nodes of the list only: those taken out are freed, and
    those added allocated. *)
Definition nodes (ns : list entry) : gset loc := list_to_set (locs ns).
Definition exchanged (h h' : gmap loc node) (ns ns' : list entry) : Prop :=
  dom h' = (dom h ∖ nodes ns) ∪ nodes ns'.

Lemma nodes_dom h hd L ns : holds h hd L ns -> nodes ns ⊆ dom h.
Proof.
  intros [Hns _ _ _ _ _ _ _] a. unfold nodes. rewrite elem_of_list_to_set, elem_of_dom.
  intros (e & -> & He)%list_elem_of_fmap. destruct (Hns e He) as (n & Hn' & _). eauto.
Qed.

Lemma exchanged_same h hd L ns : holds h hd L ns -> exchanged h h ns ns.
Proof.
  intros Hh. apply nodes_dom in Hh. apply set_eq. intros a. specialize (Hh a).
  rewrite elem_of_union, elem_of_difference. destruct (decide (a ∈ nodes ns)); tauto.
Qed.

Lemma nodes_middle lo e hi : nodes (lo ++ e :: hi) = {[e_loc e]} ∪ nodes (lo ++ hi).
Proof. unfold nodes, locs. rewrite !fmap_app. csimpl. rewrite !list_to_set_app_L. set_solver. Qed.

Lemma exchanged_insert h hd L lo hi e h' : holds h hd L (lo ++ hi) -> dom h' = {[e_loc e]} ∪ dom h ->
  exchanged h h' (lo ++ hi) (lo ++ e :: hi).
Proof.
  intros Hh E. apply exchanged_same in Hh. unfold exchanged in *. rewrite nodes_middle, E, Hh at 1. set_solver.
Qed.

Lemma exchanged_remove h hd L lo hi e h' : holds h hd L (lo ++ e :: hi) -> dom h' = dom h ∖ {[e_loc e]} ->
  exchanged h h' (lo ++ e :: hi) (lo ++ hi).
Proof.
  intros Hh E. assert (e_loc e ∉ nodes (lo ++ hi)) as Hn.
  { unfold nodes. rewrite elem_of_list_to_set. pose proof (h_locs _ _ _ _ Hh) as [_ Hn]%NoDup_cons.
    unfold locs in *. rewrite !fmap_app in *. csimpl in *. intros Hin.
    assert (e_loc e :: (e_loc <$> lo) ++ (e_loc <$> hi) ≡ₚ (e_loc <$> lo) ++ e_loc e :: (e_loc <$> hi)) as Hp
      by solve_Permutation.
    rewrite <- Hp in Hn. by apply NoDup_cons in Hn as [? _]. }
  apply nodes_dom in Hh. unfold exchanged. rewrite E. rewrite nodes_middle in *.
  apply set_eq. intros a. specialize (Hh a).
  rewrite !elem_of_union, !elem_of_difference, !elem_of_union, !elem_of_singleton in *.
  destruct (decide (a = e_loc e)) as [-> |]; [tauto |]. destruct (decide (a ∈ nodes (lo ++ hi))); tauto.
Qed.

(** A list around a key. *)
Definition around (k : Z) (lo hi : list entry) : Prop :=
  (forall e, e ∈ lo -> e_key e < k) /\ (forall e, e ∈ hi -> k <= e_key e).

Lemma around_exists k ns : StronglySorted Z.lt (keys ns) -> exists lo hi, ns = lo ++ hi /\ around k lo hi.
Proof.
  induction ns as [| e ns IH]; cbn; intros Hs; [exists [], []; by split; [| split; set_solver] |].
  inversion Hs as [| ? ? Hs' He]; subst. destruct (decide (e_key e < k)) as [Hk | Hk].
  - destruct (IH Hs') as (lo & hi & -> & Hlo & Hhi). exists (e :: lo), hi. split; [done |]. split; [| done].
    intros x [-> | Hx]%elem_of_cons; [done | by apply Hlo].
  - exists [], (e :: ns). split; [done |]. split; [set_solver |]. intros x [-> | Hx]%elem_of_cons; [lia |].
    rewrite Forall_forall in He. specialize (He (e_key x) ltac:(by apply list_elem_of_fmap_2)). lia.
Qed.

(** The last node before the key at a level. *)
Definition pos (hd : loc) (lo : list entry) (i : nat) : loc := end_of hd (chain i lo).

Lemma pos_next h hd L k lo hi i : holds h hd L (lo ++ hi) -> around k lo hi -> k <= int_max ->
  exists m kc, shape h (default hd (hd_error (chain i hi))) kc m /\ k <= kc.
Proof.
  intros Hh [_ Hhi] Hk. destruct (chain i hi) as [| a ch] eqn:Ec; cbn.
  - exists 33%nat, int_max. split; [apply Hh | done].
  - assert (a ∈ chain i hi) as (e & He & <- & _)%elem_of_chain by (rewrite Ec; set_solver).
    exists (S (e_lev e)), (e_key e). split; [apply Hh; set_solver | by apply Hhi].
Qed.

Lemma walk_level {A} h hd L k lo hi i (g : ptr -> M node A) :
  holds h hd L (lo ++ hi) -> around k lo hi -> k <= int_max -> (i <= 32)%nat ->
  bind (with_fuel (fun f => walk f (Some (pos hd lo (S i))) (Z.of_nat i) k)) g h = g (Some (pos hd lo i)) h.
Proof.
  intros Hh Ha Hk Hi. apply bind_eq. unfold with_fuel. set (p := pos hd lo (S i)).
  assert (exists A B, chain i lo = A ++ B /\ end_of hd A = p) as (A' & B & Ec & Ep).
  { assert (p ∈ hd :: chain (S i) lo) as [-> | Hp]%elem_of_cons by apply end_of_in.
    - by exists [], (chain i lo).
    - apply elem_of_chain in Hp as (e & He & Ee & Hl).
      assert (p ∈ chain i lo) as (A' & B & EAB)%list_elem_of_split by (apply elem_of_chain; exists e; split_and!; [done | done | lia]).
      exists (A' ++ [p]), B. split; [by rewrite EAB, <- app_assoc | apply end_of_snoc]. }
  pose proof (h_links _ _ _ _ Hh i Hi) as Hl. rewrite chain_app, Ec, <- app_assoc in Hl. apply links_app in Hl.
  rewrite Ep in Hl. rewrite (walk_spec h i hd k _ _ _ _ Hl).
  - unfold pos. by rewrite Ec, end_of_app, Ep.
  - intros b Hb. assert (b ∈ chain i lo) as (e & He & <- & _)%elem_of_chain by (rewrite Ec; set_solver).
    exists (S (e_lev e)), (e_key e). split; [apply Hh; set_solver | by apply Ha].
  - by apply (pos_next h hd L k lo hi i).
  - pose proof (skip_holds_size _ _ _ _ Hh) as Hsz. rewrite length_app in Hsz.
    pose proof (sublist_length _ _ (chain_sublist i lo)) as Hs. rewrite Ec, length_app in Hs.
    unfold locs in Hs. rewrite length_fmap in Hs. lia.
Qed.

Lemma down_S i : down (Z.of_nat (S i)) 0 = Z.of_nat (S i) :: down (Z.of_nat i) 0.
Proof.
  unfold down. replace (Z.to_nat (Z.of_nat (S i) - 0 + 1)) with (S (S i)) by lia.
  replace (Z.to_nat (Z.of_nat i - 0 + 1)) with (S i) by lia.
  change (seq 0 (S (S i))) with (0%nat :: seq 1 (S i)). rewrite fmap_cons. f_equal.
  rewrite <- fmap_S_seq, <- list_fmap_compose. apply list_fmap_ext. intros. cbn. lia.
Qed.

Lemma skip_descend_spec h hd L k lo hi : holds h hd L (lo ++ hi) -> around k lo hi -> k <= int_max ->
  forall i u, (i <= 32)%nat ->
  exists u', (forall A (g : _ -> M node A),
      bind (descend (down (Z.of_nat i) 0) (Some (pos hd lo (S i))) k u) g h = g (Some (pos hd lo 0), u') h) /\
    (forall j, (j <= i)%nat -> u' !! Z.of_nat j = Some (Some (pos hd lo j))) /\
    (forall j, (i < j)%nat -> u' !! Z.of_nat j = u !! Z.of_nat j).
Proof.
  intros Hh Ha Hk.
  assert (forall i u A (g : gmap Z ptr -> M node A) x, (i <= 32)%nat ->
    bind (set_update (Z.of_nat i) x u) g h = g (<[Z.of_nat i := x]> u) h) as Eu.
  { intros i u A g x Hi. apply bind_eq. unfold set_update, MAX_LEVEL.
    rewrite (proj2 (Z.leb_le 0 _)), (proj2 (Z.leb_le _ 32)) by lia. done. }
  induction i as [| i IH]; intros u Hi.
  - exists (<[0 := Some (pos hd lo 0)]> u). split_and!.
    + intros A g. change (down (Z.of_nat 0) 0) with [Z.of_nat 0]. cbn [descend].
      rewrite bind_bind, (walk_level h hd L k lo hi 0) by done. by rewrite bind_bind, Eu by lia.
    + intros j Hj. replace j with 0%nat by lia. apply lookup_insert_eq.
    + intros j Hj. apply lookup_insert_ne. lia.
  - destruct (IH (<[Z.of_nat (S i) := Some (pos hd lo (S i))]> u)) as (u' & E & Hu & Ho); [lia |].
    exists u'. split_and!.
    + intros A g. rewrite down_S. cbn [descend].
      rewrite bind_bind, (walk_level h hd L k lo hi (S i)) by done. by rewrite bind_bind, Eu by lia.
    + intros j Hj. destruct (decide (j = S i)) as [-> |]; [| apply Hu; lia].
      rewrite Ho by lia. apply lookup_insert_eq.
    + intros j Hj. rewrite Ho by lia. apply lookup_insert_ne. lia.
Qed.

Lemma find_loop_spec h hd L k lo hi : holds h hd L (lo ++ hi) -> around k lo hi -> k <= int_max ->
  forall i, (i <= 32)%nat -> forall A (g : _ -> M node A),
    bind (find_loop (down (Z.of_nat i) 0) (Some (pos hd lo (S i))) k) g h = g (Some (pos hd lo 0)) h.
Proof.
  intros Hh Ha Hk. induction i as [| i IH]; intros Hi A g.
  - change (down (Z.of_nat 0) 0) with [Z.of_nat 0]. cbn [find_loop].
    by rewrite bind_bind, (walk_level h hd L k lo hi 0).
  - rewrite down_S. cbn [find_loop]. rewrite bind_bind, (walk_level h hd L k lo hi (S i)) by done. apply IH. lia.
Qed.

Lemma pos_top h hd L lo hi : holds h hd L (lo ++ hi) -> pos hd lo (S L) = hd.
Proof.
  intros Hh. unfold pos. rewrite chain_above; [done |]. intros e He.
  pose proof (h_levels _ _ _ _ Hh e ltac:(set_solver)). lia.
Qed.

(** The node after the position at level 0. *)
Lemma first_next h hd L lo hi : holds h hd L (lo ++ hi) ->
  fwd h (pos hd lo 0) 0 (default hd (hd_error (locs hi))).
Proof.
  intros Hh. pose proof (h_links _ _ _ _ Hh 0%nat ltac:(lia)) as Hl. rewrite chain_app in Hl.
  apply links_app in Hl. rewrite (chain_all hi) in Hl. by apply links_next.
Qed.
End Steps.

(** ** Removal *)

Section Remove.
Context `{Malloc node} `{Uninit}.
Implicit Types h : gmap loc node.

Lemma up_cons i n : up (Z.of_nat i) (Z.of_nat (i + S n)) = Z.of_nat i :: up (Z.of_nat (S i)) (Z.of_nat (S i + n)).
Proof.
  unfold up. replace (Z.to_nat (Z.of_nat (i + S n) - Z.of_nat i)) with (S n) by lia.
  replace (Z.to_nat (Z.of_nat (S i + n) - Z.of_nat (S i))) with n by lia.
  change (seq 0 (S n)) with (0%nat :: seq 1 n). rewrite fmap_cons. f_equal; [lia |].
  rewrite <- fmap_S_seq, <- list_fmap_compose. apply list_fmap_ext. intros. cbn. lia.
Qed.
Lemma up_nil i : up (Z.of_nat i) (Z.of_nat (i + 0)) = [].
Proof. unfold up. by replace (Z.to_nat (Z.of_nat (i + 0) - Z.of_nat i)) with 0%nat by lia. Qed.

(** Same nodes, keys and lengths. *)
Definition same h h' : Prop := (forall a k m, shape h a k m -> shape h' a k m) /\ dom h' = dom h.

Lemma same_point h a i q n : h !! a = Some n -> same h (point h a i q n).
Proof.
  intros Ha. split; [intros b k m; by apply shape_point |]. unfold point. rewrite dom_insert_L.
  apply elem_of_dom_2 in Ha. set_solver.
Qed.
Lemma same_trans h h1 h2 : same h h1 -> same h1 h2 -> same h h2.
Proof. intros [H1 D1] [H2 D2]. split; [auto | congruence]. Qed.

Lemma chain_nodup i hd ns : NoDup (hd :: locs ns) -> NoDup (hd :: chain i ns).
Proof.
  intros Hn. apply (sublist_NoDup _ _ Hn). apply sublist_skip, chain_sublist.
Qed.

Lemma fwd_lookup h p i q : fwd h p i q -> exists n, h !! p = Some n /\ (i < length (forward n))%nat.
Proof. intros (n & Hn & Hi). exists n. split; [done |]. by eapply lookup_lt_Some. Qed.

(** The levels below [i] are relinked from [ns] to [ns']. *)
Definition between (h : gmap loc node) (hd : loc) (i : nat) (ns ns' : list entry) : Prop := forall j, (j <= 32)%nat ->
  links h j hd (chain j (if decide (j < i)%nat then ns' else ns)) hd.

Lemma unlink_spec hd lo e ys L u : NoDup (hd :: locs (lo ++ e :: ys)) -> (L <= 32)%nat -> (e_lev e <= L)%nat ->
  (forall j, (j <= L)%nat -> u !! Z.of_nat j = Some (Some (pos hd lo j))) ->
  forall m i h, (i + m = S L)%nat -> (i <= S (e_lev e))%nat -> between h hd i (lo ++ e :: ys) (lo ++ ys) ->
  exists h', (forall A (g : unit -> M node A),
      bind (unlink (up (Z.of_nat i) (Z.of_nat (i + m))) (Some (e_loc e)) u) g h = g tt h') /\
    between h' hd 33 (lo ++ e :: ys) (lo ++ ys) /\ same h h'.
Proof.
  intros Hn HL Hel Hu.
  assert (forall j, (e_lev e < j)%nat -> chain j (lo ++ e :: ys) = chain j (lo ++ ys)) as Habove.
  { intros j Hj. rewrite !chain_app, chain_cons, decide_False by lia. done. }
  assert (forall i h, (e_lev e < i)%nat -> between h hd i (lo ++ e :: ys) (lo ++ ys) ->
    between h hd 33 (lo ++ e :: ys) (lo ++ ys)) as Hend.
  { intros i h Hi Hb j Hj. specialize (Hb j Hj). rewrite decide_True by lia. case_decide; [done |].
    by rewrite Habove in Hb by lia. }
  induction m as [| m IH]; intros i h Him Hi Hb.
  { exists h. rewrite up_nil. split_and!; [done | apply (Hend i); [lia | done] | by split]. }
  rewrite up_cons. cbn [unlink].
  assert (forall A (g : ptr -> M node A), bind (get_update (Z.of_nat i) u) g h = g (Some (pos hd lo i)) h) as Eu.
  { intros A g. apply bind_eq. unfold get_update. by rewrite Hu by lia. }
  pose proof (Hb i ltac:(lia)) as Hl. rewrite decide_False in Hl by lia.
  pose proof Hl as Hl0. rewrite chain_app in Hl0. apply links_app, links_next in Hl0. fold (pos hd lo i) in Hl0.
  rewrite chain_cons in Hl0. destruct (decide (i <= e_lev e)%nat) as [Hie | Hie].
  - cbn in Hl0. destruct (fwd_lookup _ _ _ _ Hl0) as (n & Hpn & Hlen).
    rewrite chain_app, chain_cons, decide_True in Hl by done.
    assert (fwd h (e_loc e) i (default hd (hd_error (chain i ys)))) as Hfe.
    { rewrite cons_middle, app_assoc in Hl. apply links_app in Hl. rewrite end_of_snoc in Hl. by apply links_next. }
    set (h1 := point h (pos hd lo i) i (default hd (hd_error (chain i ys))) n).
    destruct (IH (S i) h1) as (h' & E & Hb' & Hs'); [lia | lia | |].
    + intros j Hj. specialize (Hb j Hj). destruct (decide (j = i)) as [-> | Hji].
      * rewrite decide_True by lia. rewrite chain_app. apply (links_bypass h i hd n _ _ _ (e_loc e)); [done | | done].
        pose proof (chain_nodup i hd _ Hn) as Hn'. by rewrite chain_app, chain_cons, decide_True in Hn' by done.
      * apply links_point_level; [done | done |]. destruct (decide (j < i)%nat); [rewrite decide_True by lia | rewrite decide_False by lia]; done.
    + exists h'. split_and!; [| done | eapply same_trans; [| exact Hs']; by apply same_point].
      intros A g. rewrite bind_bind, Eu, bind_bind, (bind_get_forward _ _ _ _ _ Hl0), decide_True by done.
      rewrite bind_bind, (bind_get_forward _ _ _ _ _ Hfe), bind_bind, (bind_set_forward _ _ _ _ n) by done. apply E.
  - exists h. split_and!; [| apply (Hend i); [lia | done] | by split].
    intros A g. rewrite bind_bind, Eu, bind_bind, (bind_get_forward _ _ _ _ _ Hl0), decide_False; [done |].
    intros [= Eq]. apply NoDup_cons in Hn as [Hhd Hn]. unfold locs in Hhd, Hn. rewrite fmap_app in Hhd, Hn. csimpl in *.
    destruct (chain i ys) as [| b ch] eqn:Ec; cbn in Eq; [set_solver |].
    assert (b ∈ chain i ys) as (e' & He' & Ee' & _)%elem_of_chain by (rewrite Ec; set_solver).
    apply NoDup_app in Hn as (_ & _ & [Hn _]%NoDup_cons). apply Hn. rewrite <- Eq, <- Ee'. by apply list_elem_of_fmap_2.
Qed.

Lemma lower_spec h hd ns : (forall i, (i <= 32)%nat -> links h i hd (chain i ns) hd) -> hd ∉ locs ns ->
  forall l, (l <= 32)%nat -> (forall e, e ∈ ns -> (e_lev e <= l)%nat) ->
  exists l', (l' <= 32)%nat /\ (forall e, e ∈ ns -> (e_lev e <= l')%nat) /\
    forall A (g : Z -> M node A), bind (lower l (Some hd)) g h = g (Z.of_nat l') h.
Proof.
  intros Hl Hhd. induction l as [| l IH]; intros Hm He; [by exists 0%nat |]. cbn [lower].
  pose proof (links_next _ _ _ _ _ (Hl (S l) Hm)) as Hf.
  destruct (chain (S l) ns) as [| a ch] eqn:Ec; cbn in Hf.
  - destruct IH as (l' & Hl' & He' & E'); [lia | |].
    + intros e Hin. specialize (He e Hin). destruct (decide (e_lev e = S l)) as [Hel |]; [| lia].
      assert (e_loc e ∈ chain (S l) ns) as Hc by (apply elem_of_chain; exists e; split_and!; [done | done | lia]).
      rewrite Ec in Hc. set_solver.
    + exists l'. split_and!; [done | done |]. intros A g.
      rewrite bind_bind, (bind_get_forward _ _ _ _ _ Hf), decide_True by done. apply E'.
  - exists (S l). split_and!; [done | done |]. intros A g.
    rewrite bind_bind, (bind_get_forward _ _ _ _ _ Hf), decide_False; [done |]. intros [= ->].
    apply Hhd. apply (elem_of_sublist (chain (S l) ns)); [rewrite Ec; set_solver | apply chain_sublist].
Qed.

Lemma links_delete h i p ch hd x : x ∉ p :: ch -> links h i p ch hd -> links (delete x h) i p ch hd.
Proof.
  intros Hx. apply links_mono. intros b r Hb (n & Hn & Hf). exists n. split; [| done].
  rewrite lookup_delete_ne; [done |]. by intros ->.
Qed.

Lemma shape_delete h x a k m : a <> x -> shape h a k m -> shape (delete x h) a k m.
Proof. intros Ha (n & Hn & Hk). exists n. by rewrite lookup_delete_ne. Qed.

(** What both operations do first. *)
Lemma search_spec h hd L k lo hi : holds h hd L (lo ++ hi) -> around k lo hi -> k <= int_max ->
  exists u, (forall A (g : _ -> M node A), bind (descend (down (Z.of_nat L) 0) (Some hd) k ∅) g h =
      g (Some (pos hd lo 0), u) h) /\
    (forall j, (j <= L)%nat -> u !! Z.of_nat j = Some (Some (pos hd lo j))) /\
    (forall A (g : _ -> M node A), bind (get_forward (Some (pos hd lo 0)) 0) g h =
      g (Some (default hd (hd_error (locs hi)))) h).
Proof.
  intros Hh Ha Hk. destruct (skip_descend_spec h hd L k lo hi Hh Ha Hk L ∅ (h_max _ _ _ _ Hh)) as (u & E & Hu & _).
  rewrite (pos_top h hd L lo hi Hh) in E. exists u. split_and!; [exact E | exact Hu |].
  intros B g'. change 0 with (Z.of_nat 0). apply bind_get_forward. by apply (first_next h hd L).
Qed.

Lemma next_key h hd L k lo hi : holds h hd L (lo ++ hi) -> around k lo hi -> k < int_max ->
  exists q, (forall A (g : _ -> M node A), bind (get_key (Some (default hd (hd_error (locs hi))))) g h = g q h) /\
    (q = k <-> exists e ys, hi = e :: ys /\ e_key e = k) /\ (q <> k -> k < q /\ k ∉ keys (lo ++ hi)).
Proof.
  intros Hh [Hlo Hhi] Hk. destruct hi as [| e ys]; cbn.
  - exists int_max. split_and!; [intros; by apply (skip_bind_get_key _ _ _ 33), Hh | |].
    + split; [lia |]. by intros (? & ? & [=] & _).
    + intros _. split; [lia |]. unfold keys. rewrite app_nil_r. intros (e & Ee & He)%list_elem_of_fmap.
      specialize (Hlo e He). lia.
  - exists (e_key e). split_and!; [intros; apply (skip_bind_get_key _ _ _ (S (e_lev e))), Hh; set_solver | |].
    + split; [intros; by exists e, ys |]. by intros (? & ? & [= -> ->] & ?).
    + intros Hne. assert (k < e_key e) as Hlt by (specialize (Hhi e ltac:(set_solver)); lia). split; [done |].
      unfold keys. rewrite fmap_app, elem_of_app. intros [(x & Ex & Hx)%list_elem_of_fmap | Hx].
      * specialize (Hlo x Hx). lia.
      * pose proof (h_sorted _ _ _ _ Hh) as Hs. unfold keys in Hs. rewrite fmap_app in Hs.
        apply StronglySorted_app in Hs as (_ & _ & Hs). csimpl in *. inversion Hs as [| ? ? _ Hf]; subst.
        rewrite Forall_forall in Hf. apply elem_of_cons in Hx as [Hx | Hx]; [lia |]. specialize (Hf k Hx). lia.
Qed.

Lemma remove_spec h hd L k lo e ys : holds h hd L (lo ++ e :: ys) -> around k lo (e :: ys) -> k < int_max ->
  e_key e = k -> exists h' L', skip_list_remove (mkList (Some hd) (Z.of_nat L)) k h =
      Done (mkList (Some hd) (Z.of_nat L'), h') /\ holds h' hd L' (lo ++ ys) /\ dom h' = dom h ∖ {[e_loc e]}.
Proof.
  intros Hh Ha Hk Ek. destruct (search_spec h hd L k lo _ Hh Ha ltac:(lia)) as (u & Ed & Hu & Ef).
  destruct (next_key h hd L k lo _ Hh Ha Hk) as (q & Eq & [_ Hq] & _). rewrite Hq in Eq by eauto. clear q Hq.
  assert (Hh0 := Hh). destruct Hh as [Hns Hhd Hl Hn Hs Hkeys Hlev Hmax].
  destruct (unlink_spec hd lo e ys L u Hn Hmax (Hlev e ltac:(set_solver)) Hu (S L) 0 h ltac:(lia) ltac:(lia))
    as (h1 & E1 & Hb & Hsh & Hdom).
  { intros j Hj. rewrite decide_False by lia. by apply Hl. }
  assert ((e_loc e ∉ hd :: locs (lo ++ ys)) /\ NoDup (hd :: locs (lo ++ ys))) as [Hx Hn'].
  { unfold locs in *. rewrite fmap_app in *. csimpl in *. apply NoDup_cons.
    refine (proj1 (NoDup_Permutation_proper _ _ _) Hn). solve_Permutation. }
  set (h2 := delete (e_loc e) h1).
  assert (forall i, (i <= 32)%nat -> links h2 i hd (chain i (lo ++ ys)) hd) as Hl2.
  { intros i Hi. specialize (Hb i Hi). rewrite decide_True in Hb by lia. apply links_delete; [| done].
    intros Hin. apply Hx. apply elem_of_cons in Hin as [-> | Hin]; [set_solver |]. apply elem_of_cons. right.
    eapply elem_of_sublist; [exact Hin | apply chain_sublist]. }
  destruct (lower_spec h2 hd (lo ++ ys) Hl2 (proj1 (proj1 (NoDup_cons _ _) Hn')) L Hmax) as (L' & HL' & Hlev' & E2).
  { intros x Hxin. apply Hlev. set_solver. }
  exists h2, L'. split_and!.
  - unfold skip_list_remove. cbn [head level]. rewrite Ed, Ef, Eq, Z.eqb_refl.
    change (up 0 (Z.of_nat L + 1)) with (up (Z.of_nat 0) (Z.of_nat L + 1)).
    replace (Z.of_nat L + 1) with (Z.of_nat (0 + S L)) by lia. cbn [fmap hd_error option_fmap default]. rewrite E1.
    destruct (Hns e) as (n & Hen & Hkn); [set_solver |].
    destruct (Hsh (e_loc e) (e_key e) (S (e_lev e))) as (n1 & Hen1 & _); [exists n; auto |].
    rewrite (bind_dealloc _ n1) by done. fold h2. rewrite Nat2Z.id. by rewrite E2.
  - assert (forall x, x ∈ lo ++ ys -> e_loc x <> e_loc e) as Hne.
    { intros x Hxin Eq'. apply Hx. rewrite <- Eq'. apply elem_of_cons. right. by apply list_elem_of_fmap_2. }
    split; try done.
    + intros x Hxin. apply shape_delete; [by apply Hne |]. apply Hsh, Hns. set_solver.
    + apply shape_delete; [set_solver | by apply Hsh].
    + unfold keys in *. rewrite fmap_app in *. csimpl in *. apply StronglySorted_app in Hs as (H1 & H2 & H3).
      inversion H3; subst. apply StronglySorted_app. split_and!; [set_solver | done | done].
    + intros x Hxin. apply Hkeys. set_solver.
  - unfold h2. by rewrite dom_delete_L, Hdom.
Qed.

Lemma find_spec h hd L k lo hi : holds h hd L (lo ++ hi) -> around k lo hi -> k < int_max ->
  skip_list_find (mkList (Some hd) (Z.of_nat L)) k h =
  Done (if decide (k ∈ keys (lo ++ hi)) then Some (pos hd lo 0) else None, h).
Proof.
  intros Hh Ha Hk. destruct (search_spec h hd L k lo hi Hh Ha ltac:(lia)) as (_ & _ & _ & Ef).
  destruct (next_key h hd L k lo hi Hh Ha Hk) as (q & Eq & Hq & Hne).
  unfold skip_list_find. cbn [head level]. rewrite <- (pos_top h hd L lo hi Hh).
  rewrite (find_loop_spec h hd L k lo hi Hh Ha ltac:(lia) L (h_max _ _ _ _ Hh)), Ef, Eq.
  rewrite (pos_top h hd L lo hi Hh). destruct (Z.eqb_spec q k) as [E | E].
  - rewrite decide_True; [done |]. apply Hq in E as (e & ys & -> & <-). unfold keys. rewrite fmap_app. set_solver.
  - rewrite decide_False; [done |]. by apply Hne.
Qed.
End Remove.

(** ** Insertion *)

Section Insert.
Context `{Malloc node} `{Uninit}.
Implicit Types h : gmap loc node.

Lemma rand_level_range rand : exists l, rand_level rand = Z.of_nat l /\ (l <= 32)%nat.
Proof.
  unfold rand_level. assert (forall f l, (l + f <= 32)%nat ->
    exists m, rand_loop f rand l = Z.of_nat m /\ (m <= 32)%nat) as Hl; [| by apply (Hl 32%nat 0%nat)].
  induction f as [| f IH]; intros l Hl; cbn [rand_loop].
  - exists l. split; [by case_match | lia].
  - case_match; [| exists l; split; [done | lia]]. case_match; [by exists 32%nat |]. apply IH. lia.
Qed.

(** An array [update] for the levels up to [l]: the pointers at these levels lead past the place. *)
Lemma link_spec hd lo hi x k l u h0 : NoDup (hd :: locs (lo ++ hi)) -> x ∉ hd :: locs (lo ++ hi) -> (l <= 32)%nat ->
  shape h0 x k (S l) ->
  (forall j, (j <= l)%nat -> u !! Z.of_nat j = Some (Some (pos hd lo j))) ->
  forall m i h, (i + m = S l)%nat -> between h hd i (lo ++ hi) (lo ++ E x k l :: hi) -> same h0 h ->
  exists h', (forall A (g : unit -> M node A),
      bind (link (up (Z.of_nat i) (Z.of_nat (i + m))) (Some x) u) g h = g tt h') /\
    between h' hd 33 (lo ++ hi) (lo ++ E x k l :: hi) /\ same h0 h'.
Proof.
  intros Hn Hx Hl32 Hsx Hu. induction m as [| m IH]; intros i h Him Hb Hsh.
  { exists h. rewrite up_nil. split_and!; [done | | done]. intros j Hj. specialize (Hb j Hj).
    rewrite decide_True by lia. case_decide; [done |].
    rewrite chain_app, chain_cons, decide_False by (cbn; lia). by rewrite chain_app in Hb. }
  rewrite up_cons. cbn [link].
  assert (forall A (g : ptr -> M node A), bind (get_update (Z.of_nat i) u) g h = g (Some (pos hd lo i)) h) as Eu.
  { intros A g. apply bind_eq. unfold get_update. by rewrite Hu by lia. }
  pose proof (Hb i ltac:(lia)) as Hl. rewrite decide_False in Hl by lia. rewrite chain_app in Hl.
  pose proof (links_next _ _ _ _ _ (links_app _ _ _ _ _ _ Hl)) as Hf. fold (pos hd lo i) in Hf.
  set (v := default hd (hd_error (chain i hi))) in *.
  assert (x ∉ hd :: chain i lo ++ chain i hi) as Hxc.
  { rewrite <- chain_app. intros Hin. apply Hx. apply elem_of_cons in Hin as [-> | Hin]; [set_solver |].
    apply elem_of_cons. right. eapply elem_of_sublist; [exact Hin | apply chain_sublist]. }
  assert (pos hd lo i <> x) as Hpx.
  { intros Eq. apply Hxc. pose proof (end_of_in hd (chain i lo)) as Hin. fold (pos hd lo i) in Hin. rewrite Eq in Hin. set_solver. }
  destruct (proj1 Hsh _ _ _ Hsx) as (nx & Hnx & _ & Hlen). destruct (fwd_lookup _ _ _ _ Hf) as (n & Hpn & Hlenp).
  set (h1 := point h x i v nx). set (h2 := point h1 (pos hd lo i) i x n).
  assert (h1 !! pos hd lo i = Some n) as Hpn1 by (unfold h1, point; by rewrite lookup_insert_ne).
  destruct (IH (S i) h2) as (h' & E' & Hb' & Hs'); [lia | | |].
  - intros j Hj. specialize (Hb j Hj). destruct (decide (j = i)) as [-> | Hji].
    + rewrite decide_True by lia. rewrite chain_app, chain_cons, decide_True by (cbn; lia).
      apply (links_put h1 i hd n); [| | done | done | apply fwd_point_eq; lia].
      * apply (links_mono h); [| done]. intros b r Hbin. apply fwd_point_ne; [done |]. left. by intros ->.
      * rewrite <- chain_app. by apply chain_nodup.
    + apply links_point_level; [done | done |]. apply links_point_level; [done | done |].
      destruct (decide (j < i)%nat); [rewrite decide_True by lia | rewrite decide_False by lia]; done.
  - eapply same_trans; [exact Hsh |]. eapply same_trans; by apply same_point.
  - exists h'. split_and!; [| done | done]. intros A g.
    rewrite bind_bind, Eu, bind_bind, (bind_get_forward _ _ _ _ _ Hf).
    rewrite bind_bind, (bind_set_forward _ _ _ _ nx) by (done || lia). fold h1.
    rewrite bind_bind, (bind_set_forward _ _ _ _ n) by done. apply E'.
Qed.

Lemma set_heads_spec h hd l : (l <= 32)%nat -> forall m i u, (i + m = S l)%nat ->
  exists u', (forall A (g : gmap Z ptr -> M node A),
      bind (set_heads (up (Z.of_nat i) (Z.of_nat (i + m))) (Some hd) u) g h = g u' h) /\
    (forall j, (i <= j <= l)%nat -> u' !! Z.of_nat j = Some (Some hd)) /\
    (forall j, (j < i)%nat -> u' !! Z.of_nat j = u !! Z.of_nat j).
Proof.
  intros Hl. induction m as [| m IH]; intros i u Him.
  - exists u. rewrite up_nil. split_and!; [done | lia | done].
  - destruct (IH (S i) (<[Z.of_nat i := Some hd]> u)) as (u' & E' & Hu & Ho); [lia |].
    exists u'. split_and!.
    + intros A g. rewrite up_cons. cbn [set_heads]. rewrite bind_bind. erewrite bind_eq; [apply E' |].
      unfold set_update, MAX_LEVEL. rewrite (proj2 (Z.leb_le 0 _)), (proj2 (Z.leb_le _ 32)) by lia. done.
    + intros j Hj. destruct (decide (j = i)) as [-> |]; [| apply Hu; lia]. rewrite Ho by lia. apply lookup_insert_eq.
    + intros j Hj. rewrite Ho by lia. apply lookup_insert_ne. lia.
Qed.

(** A place at which a node of level [l] can be inserted: nothing smaller is linked at the
    level of the list if that has to grow. *)
Definition fits (L l : nat) (lo : list entry) : Prop :=
  (L < l)%nat -> forall e, e ∈ lo -> (e_lev e < L)%nat.

Lemma bind_node_alloc {A} h k m (f : ptr -> M node A) :
  bind (node_alloc k (Z.of_nat m)) f h =
  match malloc h with Some x => f (Some x) (<[x := mkNode k (uninit h m)]> h) | None => UB end.
Proof.
  unfold node_alloc. rewrite bind_bind, Nat2Z.id.
  change (bind (fun h => alloc (mkNode k (uninit h m)) h) ?g h) with (bind (alloc (mkNode k (uninit h m))) g h).
  rewrite bind_alloc. destruct (malloc h) as [x |]; [| done].
  by rewrite bind_bind, (bind_load _ _ _ _ (lookup_insert_eq _ _ _)), bind_ret.
Qed.

Context (Hm : forall h, malloc h <> None).

Lemma skip_insert_spec h hd L k lo hi rand l : holds h hd L (lo ++ hi) -> around k lo hi -> k < int_max ->
  k ∉ keys (lo ++ hi) -> rand_level rand = Z.of_nat l -> (l <= 32)%nat -> fits L l lo ->
  exists x h', skip_list_insert (mkList (Some hd) (Z.of_nat L)) k rand h =
      Done (mkList (Some hd) (Z.of_nat (L `max` l)), h') /\
    holds h' hd (L `max` l) (lo ++ E x k l :: hi) /\ dom h' = {[x]} ∪ dom h.
Proof using Hm.
  intros Hh Ha Hk Hnk Er Hl32 Hfit.
  destruct (search_spec h hd L k lo hi Hh Ha ltac:(lia)) as (u & Ed & Hu & Ef).
  destruct (next_key h hd L k lo hi Hh Ha Hk) as (q & Eq & Hq & _).
  assert (q <> k) as Hqk.
  { intros E'. apply Hq in E' as (e & ys & -> & <-). apply Hnk. unfold keys. rewrite fmap_app. set_solver. }
  destruct (malloc h) as [x |] eqn:Em; [| by apply Hm in Em]. apply malloc_fresh in Em as Hx.
  pose proof Hh as [Hns Hhd Hl Hn Hs Hkeys Hlev Hmax].
  set (h0 := <[x := mkNode k (uninit h (S l))]> h).
  assert (exists u', (forall A (g : _ -> M node A), bind (if Z.of_nat L <? Z.of_nat l then
        let! u := set_heads (up (Z.of_nat L) (Z.of_nat l + 1)) (Some hd) u in ret (u, mkList (Some hd) (Z.of_nat l))
      else ret (u, mkList (Some hd) (Z.of_nat L))) g h = g (u', mkList (Some hd) (Z.of_nat (L `max` l))) h) /\
    (forall j, (j <= l)%nat -> u' !! Z.of_nat j = Some (Some (pos hd lo j)))) as (u' & Eu & Hu').
  { destruct (Z.ltb_spec (Z.of_nat L) (Z.of_nat l)) as [Hlt | Hge].
    - destruct (set_heads_spec h hd l Hl32 (S l - L) L u ltac:(lia)) as (u' & E' & Hh' & Ho'). exists u'. split.
      + intros A g. rewrite bind_bind. replace (Z.of_nat l + 1) with (Z.of_nat (L + (S l - L))) by lia.
        rewrite E', bind_ret. by rewrite Nat.max_r by lia.
      + intros j Hj. destruct (decide (j < L)%nat); [rewrite Ho' by lia; apply Hu; lia |]. rewrite Hh' by lia.
        do 2 f_equal. unfold pos. rewrite chain_above; [done |]. intros e He.
        specialize (Hfit ltac:(lia) e He). lia.
    - exists u. split; [intros A g; rewrite bind_ret; by rewrite Nat.max_l by lia |]. intros j Hj. apply Hu. lia. }
  assert (x ∉ hd :: locs (lo ++ hi)) as Hxn.
  { intros [-> | Hin]%elem_of_cons; [destruct Hhd as (n & Hn' & _); congruence |].
    apply list_elem_of_fmap in Hin as (e & -> & He). destruct (Hns e He) as (n & Hn' & _). congruence. }
  assert (forall a k m, shape h a k m -> shape h0 a k m) as Hsh0.
  { intros a k' m (n & Hn' & Hk'). exists n. split; [| done]. unfold h0. rewrite lookup_insert_ne; [done |]. congruence. }
  destruct (link_spec hd lo hi x k l u' h0 Hn Hxn Hl32) with (m := S l) (i := 0%nat) (h := h0)
    as (h' & El & Hb & Hsh & Hdom); [| done | lia | | by split |].
  { eexists. split; [apply lookup_insert_eq | split; [done | apply uninit_length]]. }
  { intros j Hj. rewrite decide_False by lia. apply (links_mono h); [| by apply Hl].
    intros b r Hbin (n & Hn' & Hfn). exists n. split; [| done]. unfold h0. rewrite lookup_insert_ne; [done |]. congruence. }
  exists x, h'. split_and!.
  - unfold skip_list_insert. cbn [head level]. rewrite Ed, Ef, Eq, (proj2 (Z.eqb_neq k q)) by done.
    rewrite Er. cbn zeta. rewrite Eu. replace (Z.of_nat l + 1) with (Z.of_nat (S l)) by lia.
    rewrite bind_node_alloc, Em. fold h0. apply (El skip_list).
  - split.
    + intros e. rewrite elem_of_app, elem_of_cons. intros [He | [-> | He]]; cbn.
      * apply Hsh, Hsh0, Hns. set_solver.
      * apply Hsh. eexists. split; [apply lookup_insert_eq | split; [done | apply uninit_length]].
      * apply Hsh, Hsh0, Hns. set_solver.
    + by apply Hsh, Hsh0.
    + intros i Hi. specialize (Hb i Hi). by rewrite decide_True in Hb by lia.
    + assert (NoDup (x :: hd :: locs (lo ++ hi))) as Hn' by by apply NoDup_cons.
      unfold locs in *. rewrite fmap_app in *. csimpl. nodup_perm Hn'.
    + unfold keys in *. rewrite fmap_app in *. csimpl. apply StronglySorted_app in Hs as (H1 & H2 & H3).
      apply StronglySorted_app. split_and!; [| done |].
      * intros a b Ha' [-> | Hb']%elem_of_cons; [| by apply H1].
        apply list_elem_of_fmap in Ha' as (e & -> & He). by apply Ha.
      * constructor; [done |]. apply Forall_forall. intros b Hb'. apply list_elem_of_fmap in Hb' as (e & -> & He).
        pose proof (proj2 Ha e He). assert (e_key e <> k); [| lia]. intros <-. apply Hnk.
        apply elem_of_app. right. by apply list_elem_of_fmap_2.
    + intros e. rewrite elem_of_app, elem_of_cons. intros [He | [-> | He]]; cbn; [apply Hkeys; set_solver | done | apply Hkeys; set_solver].
    + intros e. rewrite elem_of_app, elem_of_cons. intros [He | [-> | He]]; cbn; [| lia |];
        (assert (e_lev e <= L)%nat by (apply Hlev; set_solver); lia).
    + lia.
  - rewrite Hdom. unfold h0. by rewrite dom_insert_L.
Qed.
End Insert.

(** ** The list as a sorted set *)

Inductive op := OInsert (k : Z) (rand : nat -> Z) | ORemove (k : Z) | OFind (k : Z) | ODump.
Inductive answer := RDone | RFound (b : bool) | RKeys (ks : list Z).

Section Refinement.
Context `{Malloc node} `{Uninit}.
Implicit Types h : gmap loc node.

Definition call (o : op) (root : skip_list) : M node (answer * skip_list) :=
  match o with
  | OInsert k rand => let! root := skip_list_insert root k rand in ret (RDone, root)
  | ORemove k => let! root := skip_list_remove root k in ret (RDone, root)
  | OFind k => let! p := skip_list_find root k in ret (RFound (bool_decide (is_Some p)), root)
  | ODump => let! ks := skip_list_dump root in ret (RKeys ks, root)
  end.

(** Keys below the one of the head; and a list that grows in height does so before all
    nodes of its highest level. *)
Definition allowed (o : op) (L : nat) (ns : list entry) : Prop :=
  match o with
  | OInsert k rand => k < int_max /\
      (Z.of_nat L < rand_level rand -> forall e, e ∈ ns -> e_key e < k -> (e_lev e < L)%nat)
  | ORemove k | OFind k => k < int_max
  | ODump => True
  end.

(** What a call does to the sorted list of the keys. *)
Inductive spec : op -> list Z -> answer -> list Z -> Prop :=
  | spec_insert k rand xs ys : Forall (fun x => x < k) xs -> Forall (fun y => k < y) ys ->
      spec (OInsert k rand) (xs ++ ys) RDone (xs ++ k :: ys)
  | spec_present k rand ks : k ∈ ks -> spec (OInsert k rand) ks RDone ks
  | spec_remove k xs ys : spec (ORemove k) (xs ++ k :: ys) RDone (xs ++ ys)
  | spec_absent k ks : k ∉ ks -> spec (ORemove k) ks RDone ks
  | spec_find k ks : spec (OFind k) ks (RFound (bool_decide (k ∈ ks))) ks
  | spec_dump ks : spec ODump ks (RKeys ks) ks.

Lemma dump_loop_spec h hd ns : (forall e, e ∈ ns -> shape h (e_loc e) (e_key e) (S (e_lev e))) ->
  hd ∉ locs ns -> forall p f, links h 0 p (locs ns) hd -> (length ns <= f)%nat ->
  dump_loop f (Some hd) (Some p) h = Done (keys ns, h).
Proof.
  induction ns as [| e ns IH]; intros Hns Hhd p f Hl Hf; cbn in Hl.
  - assert (forall X : ptr -> M node (list Z), (let! y := get_forward (Some p) 0 in
      if decide (y = Some hd) then ret [] else X y) h = Done ([], h)) as E.
    { intros X. change 0 with (Z.of_nat 0). by rewrite (bind_get_forward _ _ _ _ _ Hl), decide_True by done. }
    destruct f; apply E.
  - destruct f as [| f]; [cbn in Hf; lia |]. destruct Hl as [Hf1 Hl]. cbn [dump_loop]. change 0 with (Z.of_nat 0).
    rewrite (bind_get_forward _ _ _ _ _ Hf1), decide_False by (intros [= E]; set_solver).
    rewrite (skip_bind_get_key _ _ _ _ _ (Hns e ltac:(set_solver))).
    erewrite bind_eq; [done |]. apply IH; [set_solver | set_solver | done | cbn in Hf; lia].
Qed.

Lemma remove_absent h hd L k lo hi : holds h hd L (lo ++ hi) -> around k lo hi -> k < int_max ->
  k ∉ keys (lo ++ hi) ->
  skip_list_remove (mkList (Some hd) (Z.of_nat L)) k h = Done (mkList (Some hd) (Z.of_nat L), h).
Proof.
  intros Hh Ha Hk Hnk. destruct (search_spec h hd L k lo hi Hh Ha ltac:(lia)) as (u & Ed & _ & Ef).
  destruct (next_key h hd L k lo hi Hh Ha Hk) as (q & Eq & Hq & _).
  unfold skip_list_remove. cbn [head level]. rewrite Ed, Ef, Eq. destruct (Z.eqb_spec q k) as [E' | E']; [| done].
  apply Hq in E' as (e & ys & -> & <-). exfalso. apply Hnk. unfold keys. rewrite fmap_app. set_solver.
Qed.

Lemma insert_present h hd L k lo hi rand : holds h hd L (lo ++ hi) -> around k lo hi -> k < int_max ->
  k ∈ keys (lo ++ hi) ->
  skip_list_insert (mkList (Some hd) (Z.of_nat L)) k rand h = Done (mkList (Some hd) (Z.of_nat L), h).
Proof.
  intros Hh Ha Hk Hin. destruct (search_spec h hd L k lo hi Hh Ha ltac:(lia)) as (u & Ed & _ & Ef).
  destruct (next_key h hd L k lo hi Hh Ha Hk) as (q & Eq & _ & Hq).
  unfold skip_list_insert. cbn [head level]. rewrite Ed, Ef, Eq. destruct (Z.eqb_spec k q) as [E' | E']; [done |].
  by destruct Hq.
Qed.

Context (Hm : forall h, malloc h <> None).

(** C19: The skip list implements a sorted set: on a well-formed list (every level a circle
    through the nodes that reach it, keys ascending and below [INT_MAX]) each operation runs
    without undefined behaviour and leaves a well-formed list; [skip_list_insert] adds the key at
    its place (or nothing, if it is there), [skip_list_remove] takes it out, [skip_list_find] tells
    whether it is there, [skip_list_dump] prints all keys in order.  The blocks of the heap are
    those it had before, without the nodes of the old list and with those of the new one: the node
    of a removed key is freed, an insertion allocates at most one, and nothing else is freed or
    leaked.  An insertion may draw any level that does not exceed the one of the list, and a
    greater one when no smaller key is linked at the level of the list; keys are below [INT_MAX]
    and [malloc] succeeds. *)
Theorem skip_list_refinement h hd L ns o : holds h hd L ns -> allowed o L ns ->
  exists a h' L' ns', call o (mkList (Some hd) (Z.of_nat L)) h = Done ((a, mkList (Some hd) (Z.of_nat L')), h') /\
    holds h' hd L' ns' /\ spec o (keys ns) a (keys ns') /\ exchanged h h' ns ns'.
Proof using Hm.
  intros Hh Ho.
  destruct o as [k rand | k | k |]; cbn [call allowed] in *;
    [destruct (around_exists k ns (h_sorted _ _ _ _ Hh)) as (lo & hi & -> & Ha) .. |].
  - destruct Ho as [Hk Hfit]. destruct (decide (k ∈ keys (lo ++ hi))) as [Hin | Hin].
    + exists RDone, h, L, (lo ++ hi). split_and!; [| done | by constructor | by eapply exchanged_same].
      by rewrite (bind_eq _ _ _ _ _ (insert_present h hd L k lo hi rand Hh Ha Hk Hin)).
    + destruct (rand_level_range rand) as (l & El & Hl).
      destruct (skip_insert_spec Hm h hd L k lo hi rand l Hh Ha Hk Hin El Hl) as (x & h' & E' & Hh' & Hdom).
      { intros Hlt e He. apply Hfit; [lia | set_solver | by apply Ha]. }
      exists RDone, h', (L `max` l)%nat, (lo ++ E x k l :: hi). split_and!; [by rewrite (bind_eq _ _ _ _ _ E') | done | | by eapply exchanged_insert].
      unfold keys in *. rewrite !fmap_app in *. csimpl. constructor; rewrite Forall_fmap; apply Forall_forall.
      * intros e He. by apply Ha.
      * intros e He. pose proof (proj2 Ha e He). assert (e_key e <> k); [| cbn; lia]. intros <-. apply Hin.
        apply elem_of_app. right. by apply list_elem_of_fmap_2.
  - destruct (decide (k ∈ keys (lo ++ hi))) as [Hin | Hin].
    + destruct (next_key h hd L k lo hi Hh Ha Ho) as (q & _ & Hq & Hne).
      destruct (decide (q = k)) as [E' |]; [| by destruct Hne]. apply Hq in E' as (e & ys & -> & Ek).
      destruct (remove_spec h hd L k lo e ys Hh Ha Ho Ek) as (h' & L' & E' & Hh' & Hdom).
      exists RDone, h', L', (lo ++ ys). split_and!; [by rewrite (bind_eq _ _ _ _ _ E') | done | | by eapply exchanged_remove].
      unfold keys. rewrite !fmap_app. csimpl. rewrite Ek. constructor.
    + exists RDone, h, L, (lo ++ hi). split_and!; [| done | by constructor | by eapply exchanged_same].
      by rewrite (bind_eq _ _ _ _ _ (remove_absent h hd L k lo hi Hh Ha Ho Hin)).
  - exists (RFound (bool_decide (k ∈ keys (lo ++ hi)))), h, L, (lo ++ hi). split_and!; [| done | by constructor | by eapply exchanged_same].
    rewrite (bind_eq _ _ _ _ _ (find_spec h hd L k lo hi Hh Ha Ho)). case_decide.
    + by rewrite !bool_decide_eq_true_2 by eauto.
    + rewrite !bool_decide_eq_false_2; [done | done | by intros [? [=]]].
  - exists (RKeys (keys ns)), h, L, ns. split_and!; [| done | by constructor | by eapply exchanged_same].
    pose proof (h_links _ _ _ _ Hh 0%nat ltac:(lia)) as Hl. rewrite chain_all in Hl.
    erewrite bind_eq; [done |]. unfold skip_list_dump, with_fuel. cbn [head].
    pose proof (skip_holds_size _ _ _ _ Hh). apply dump_loop_spec; [apply Hh | | done | lia].
    pose proof (h_locs _ _ _ _ Hh) as Hn. by apply NoDup_cons in Hn as [? _].
Qed.
End Refinement.

(** ** Creation, and two defects *)

Section Defects.
Context `{Malloc node} `{Uninit}.
Implicit Types h : gmap loc node.

Lemma fill_spec x : forall m i h n, h !! x = Some n -> length (forward n) = (i + m)%nat ->
  exists n', (forall A (g : unit -> M node A),
      bind (fill_forward (Some x) (up (Z.of_nat i) (Z.of_nat (i + m))) (Some x)) g h = g tt (<[x := n']> h)) /\
    key n' = key n /\ length (forward n') = length (forward n) /\
    (forall j, (i <= j < i + m)%nat -> forward n' !! j = Some (Some x)) /\
    (forall j, (j < i)%nat -> forward n' !! j = forward n !! j).
Proof.
  induction m as [| m IH]; intros i h n Hn Hl.
  - exists n. rewrite up_nil. split_and!; [intros; by rewrite insert_id | done | done | lia | done].
  - assert (i < length (forward n))%nat as Hi by lia.
    destruct (IH (S i) (point h x i x n) _ (lookup_insert_eq _ _ _)) as (n' & E' & Hk & Hl' & Hin & Hout).
    { cbn. rewrite length_insert. lia. }
    exists n'. cbn in Hk, Hl', Hout. rewrite length_insert in Hl'. split_and!; [| done | done | |].
    + intros A g. rewrite up_cons. cbn [fill_forward]. rewrite bind_bind, (bind_set_forward _ _ _ _ n) by done.
      rewrite E'. unfold point. by rewrite insert_insert_eq.
    + intros j Hj. destruct (decide (j = i)) as [-> |]; [| apply Hin; lia]. rewrite Hout by lia.
      by apply list_lookup_insert_eq.
    + intros j Hj. rewrite Hout by lia. rewrite list_lookup_insert_ne; [done | lia].
Qed.

Lemma init_spec h hd : malloc h = Some hd ->
  exists h', skip_list_init h = Done (mkList (Some hd) 0, h') /\ holds h' hd 0 [].
Proof.
  intros Em. set (n := mkNode int_max (uninit h 33)).
  destruct (fill_spec hd 33 0 (<[hd := n]> h) n (lookup_insert_eq _ _ _)) as (n' & E' & Hk & Hl & Hin & _).
  { cbn. apply uninit_length. }
  exists (<[hd := n']> h). split.
  - unfold skip_list_init. change (MAX_LEVEL + 1) with (Z.of_nat 33). rewrite bind_node_alloc, Em. fold n.
    change 0 with (Z.of_nat 0) at 1. change (Z.of_nat 33) with (Z.of_nat (0 + 33)). rewrite E', insert_insert_eq. done.
  - cbn in Hk, Hl. rewrite uninit_length in Hl. split; cbn; try done; try set_solver; try lia.
    + eexists. split; [apply lookup_insert_eq | done].
    + intros i Hi. eexists. split; [apply lookup_insert_eq |]. apply Hin. lia.
    + apply NoDup_singleton.
    + constructor.
Qed.

Lemma link_heads hd x k l u h0 : hd <> x -> shape h0 x k (S l) ->
  (forall j, (j <= l)%nat -> u !! Z.of_nat j = Some (Some hd)) ->
  forall m i h, (i + m = S l)%nat -> same h0 h -> (forall j, (j < i)%nat -> fwd h hd j x) ->
  (forall j, (j <= l)%nat -> exists r, fwd h hd j r) ->
  exists h', (forall A (g : unit -> M node A),
      bind (link (up (Z.of_nat i) (Z.of_nat (i + m))) (Some x) u) g h = g tt h') /\
    same h0 h' /\ (forall j, (j <= l)%nat -> fwd h' hd j x).
Proof.
  intros Hne Hsx Hu. induction m as [| m IH]; intros i h Him Hsh Hlow Hall.
  - exists h. rewrite up_nil. split_and!; [done | done | intros; apply Hlow; lia].
  - destruct (Hall i ltac:(lia)) as [v Hf]. destruct (proj1 Hsh _ _ _ Hsx) as (nx & Hnx & _ & Hlen).
    destruct (fwd_lookup _ _ _ _ Hf) as (n & Hn & Hlenp).
    set (h1 := point h x i v nx). assert (h1 !! hd = Some n) as Hn1 by (unfold h1, point; by rewrite lookup_insert_ne).
    destruct (IH (S i) (point h1 hd i x n)) as (h' & E' & R); [lia | | | |].
    + eapply same_trans; [exact Hsh |]. eapply same_trans; by apply same_point.
    + intros j Hj. destruct (decide (j = i)) as [-> |]; [by apply fwd_point_eq |].
      apply fwd_point_ne; [done | by right |]. apply fwd_point_ne; [done | by left | apply Hlow; lia].
    + intros j Hj. destruct (decide (j = i)) as [-> |]; [exists x; by apply fwd_point_eq |].
      destruct (Hall j Hj) as [r Hr]. exists r. apply fwd_point_ne; [done | by right |]. apply fwd_point_ne; [done | by left | done].
    + exists h'. split; [| exact R]. intros A g. rewrite up_cons. cbn [link]. rewrite bind_bind.
      erewrite bind_eq by (unfold get_update; by rewrite Hu by lia).
      rewrite bind_bind, (bind_get_forward _ _ _ _ _ Hf).
      rewrite bind_bind, (bind_set_forward _ _ _ _ nx) by (done || lia). fold h1.
      rewrite bind_bind, (bind_set_forward _ _ _ _ n) by done. apply E'.
Qed.

Lemma find_stays h hd x k j l : (forall i, (i <= l)%nat -> fwd h hd i x) -> (exists m, shape h x k m) -> j < k ->
  forall i, (i <= l)%nat -> forall A (g : _ -> M node A),
    bind (find_loop (down (Z.of_nat i) 0) (Some hd) j) g h = g (Some hd) h.
Proof.
  intros Hf [m Hx] Hj.
  assert (forall i A (g : ptr -> M node A), (i <= l)%nat ->
    bind (with_fuel (fun f => walk f (Some hd) (Z.of_nat i) j)) g h = g (Some hd) h) as Ew.
  { intros i A g Hi. apply bind_eq. unfold with_fuel. cbn [walk].
    rewrite (bind_get_forward _ _ _ _ _ (Hf i Hi)), (skip_bind_get_key _ _ _ _ _ Hx).
    by rewrite (proj2 (Z.ltb_ge k j)) by lia. }
  induction i as [| i IH]; intros Hi A g.
  - change (down (Z.of_nat 0) 0) with [Z.of_nat 0]. cbn [find_loop]. by rewrite bind_bind, Ew.
  - rewrite down_S. cbn [find_loop]. rewrite bind_bind, Ew by done. apply IH. lia.
Qed.

Lemma unlink_head hd ns L u : (L <= 32)%nat ->
  (forall j, (j <= L)%nat -> u !! Z.of_nat j = Some (Some (pos hd ns j))) ->
  forall m i h, (i + m = S L)%nat -> (forall j, (i <= j <= 32)%nat -> links h j hd (chain j ns) hd) ->
  exists h', (forall A (g : unit -> M node A),
      bind (unlink (up (Z.of_nat i) (Z.of_nat (i + m))) (Some hd) u) g h = g tt h') /\ same h h'.
Proof.
  intros HL Hu. induction m as [| m IH]; intros i h Him Hl; [exists h; rewrite up_nil; by split |].
  pose proof (Hl i ltac:(lia)) as Hi. pose proof (links_next _ _ _ _ _ Hi) as Hf.
  assert (fwd h (pos hd ns i) i hd) as Hlast.
  { rewrite <- (app_nil_r (chain i ns)) in Hi. apply links_app, links_next in Hi. exact Hi. }
  destruct (fwd_lookup _ _ _ _ Hlast) as (n & Hn & Hlen).
  destruct (IH (S i) (point h (pos hd ns i) i (default hd (hd_error (chain i ns))) n)) as (h' & E' & Hsh); [lia | |].
  - intros j Hj. apply links_point_level; [done | lia | apply Hl; lia].
  - exists h'. split; [| eapply same_trans; [by apply same_point | exact Hsh]].
    intros A g. rewrite up_cons. cbn [unlink]. rewrite bind_bind.
    erewrite bind_eq by (unfold get_update; by rewrite Hu by lia).
    rewrite bind_bind, (bind_get_forward _ _ _ _ _ Hlast), decide_True by done.
    rewrite bind_bind, (bind_get_forward _ _ _ _ _ Hf), bind_bind, (bind_set_forward _ _ _ _ n) by done. apply E'.
Qed.

Lemma dangling {A} h hd i (g : ptr -> M node A) : h !! hd = None -> bind (get_forward (Some hd) i) g h = UB.
Proof. intros Hn. unfold get_forward. rewrite bind_bind. unfold bind, load. cbn. by rewrite Hn. Qed.

(** The key of the head is taken for one of the list: [skip_list_remove] of [INT_MAX] frees the
    head of any list, and the next access to the list is undefined. *)
Theorem remove_int_max h hd L ns k : holds h hd L ns ->
  (let! root := skip_list_remove (mkList (Some hd) (Z.of_nat L)) int_max in skip_list_find root k) h = UB.
Proof.
  intros Hh. assert (around int_max ns []) as Ha by (split; [apply Hh | set_solver]).
  rewrite <- (app_nil_r ns) in Hh. destruct (search_spec h hd L int_max ns [] Hh Ha ltac:(lia)) as (u & Ed & Hu & Ef).
  rewrite app_nil_r in Hh. destruct (unlink_head hd ns L u (h_max _ _ _ _ Hh) Hu (S L) 0 h ltac:(lia)) as (h1 & Eu & Hsh & _).
  { intros j Hj. apply Hh. lia. }
  destruct (Hsh _ _ _ (h_head _ _ _ _ Hh)) as (n & Hn & _).
  unfold skip_list_remove. cbn [head level]. rewrite bind_bind, Ed, bind_bind, Ef. cbn [locs fmap list_fmap hd_error default].
  rewrite bind_bind, (skip_bind_get_key _ _ _ _ _ (h_head _ _ _ _ Hh)), Z.eqb_refl, bind_bind.
  change (up 0 (Z.of_nat L + 1)) with (up (Z.of_nat 0) (Z.of_nat L + 1)).
  replace (Z.of_nat L + 1) with (Z.of_nat (0 + S L)) by lia. rewrite Eu, bind_bind, (bind_dealloc _ n) by done.
  set (h2 := delete hd h1). assert (h2 !! hd = None) as Hd by apply lookup_delete_eq.
  rewrite bind_bind, Nat2Z.id. destruct L as [| L]; cbn [lower].
  - rewrite bind_ret, bind_ret. unfold skip_list_find. cbn [head level]. change (down 0 0) with [0]. cbn [find_loop].
    rewrite bind_bind. unfold bind at 1. unfold with_fuel. cbn [walk]. by rewrite dangling.
  - by rewrite bind_bind, dangling.
Qed.

Context (Hm : forall h, malloc h <> None).

(** An insertion can lose keys: when the list has level 0 and a higher level is drawn,
    [skip_list_insert] replaces the place it has found at level 0 by the head, so that the new node
    comes first; no smaller key is ever found again. *)
Theorem insert_loses_keys h hd ns k rand : holds h hd 0 ns -> k < int_max -> k ∉ keys ns -> 0 < rand_level rand ->
  exists root h', skip_list_insert (mkList (Some hd) 0) k rand h = Done (root, h') /\
    forall j, j ∈ keys ns -> j < k -> skip_list_find root j h' = Done (None, h').
Proof using Hm.
  intros Hh Hk Hnk Hr. destruct (around_exists k ns (h_sorted _ _ _ _ Hh)) as (lo & hi & -> & Ha).
  destruct (search_spec h hd 0 k lo hi Hh Ha ltac:(lia)) as (u & Ed & Hu & Ef).
  destruct (next_key h hd 0 k lo hi Hh Ha Hk) as (q & Eq & Hq & _).
  assert (q <> k) as Hqk.
  { intros E'. apply Hq in E' as (e & ys & -> & <-). apply Hnk. unfold keys. rewrite fmap_app. set_solver. }
  destruct (rand_level_range rand) as (l & El & Hl). rewrite El in Hr.
  destruct (malloc h) as [x |] eqn:Em; [| by apply Hm in Em]. apply malloc_fresh in Em as Hx.
  destruct Hh as [_ Hhd Hlinks _ _ _ _ _].
  assert (hd <> x) as Hne by (intros ->; destruct Hhd as (n & Hn & _); congruence).
  destruct (set_heads_spec h hd l Hl (S l) 0 u ltac:(lia)) as (u' & Eh & Hu' & _).
  set (h0 := <[x := mkNode k (uninit h (S l))]> h).
  assert (shape h0 x k (S l)) as Hsx by (eexists; split; [apply lookup_insert_eq | split; [done | apply uninit_length]]).
  destruct (link_heads hd x k l u' h0 Hne Hsx) with (m := S l) (i := 0%nat) (h := h0) as (h' & Elk & Hsh & Hfw);
    [intros; apply Hu'; lia | lia | by split | lia | |].
  { intros j Hj. destruct (links_next _ _ _ _ _ (Hlinks j ltac:(lia))) as (n & Hn & Hf). exists (default hd (hd_error (chain j (lo ++ hi)))), n.
    split; [| done]. unfold h0. by rewrite lookup_insert_ne. }
  exists (mkList (Some hd) (Z.of_nat l)), h'. split.
  - unfold skip_list_insert. cbn [head level]. change 0 with (Z.of_nat 0) at 1. rewrite Ed, Ef, Eq, (proj2 (Z.eqb_neq k q)) by done.
    rewrite El. cbn zeta. rewrite (proj2 (Z.ltb_lt 0 (Z.of_nat l))) by lia. rewrite bind_bind.
    change (up 0 (Z.of_nat l + 1)) with (up (Z.of_nat 0) (Z.of_nat l + 1)).
    replace (Z.of_nat l + 1) with (Z.of_nat (0 + S l)) by lia. rewrite Eh, bind_ret.
    rewrite bind_node_alloc, Em. fold h0. apply (Elk skip_list).
  - intros j _ Hj. unfold skip_list_find. cbn [head level].
    assert (exists m, shape h' x k m) as Hsx' by (exists (S l); by apply Hsh).
    rewrite (find_stays h' hd x k j l Hfw Hsx' Hj l) by lia. change 0 with (Z.of_nat 0).
    rewrite (bind_get_forward _ _ _ _ _ (Hfw 0%nat ltac:(lia))). destruct Hsx' as [m Hsx'].
    rewrite (skip_bind_get_key _ _ _ _ _ Hsx'). by rewrite (proj2 (Z.eqb_neq k j)) by lia.
Qed.
End Defects.
End SkipListSpec.

Module SkipListSamples.
#[export] Instance fresh_malloc : Malloc node := {
  malloc h := Some (fresh (dom h));
  malloc_fresh h l := ltac:(intros [= <-]; apply not_elem_of_dom, is_fresh)
}.
#[export] Instance zeros : Uninit := { uninit _ m := replicate m None; uninit_length _ m := length_replicate m None }.

Lemma never_fails : forall h : gmap loc node, malloc h <> None.
Proof. intros h E. discriminate E. Qed.

(** [rand] such that [rand_level] is [l]. *)
Definition draws (l : nat) (i : nat) : Z := if (i <? l)%nat then 1 else 0.

(** The calls of [main], for any levels drawn. *)
Fixpoint inserts (ks : list (Z * nat)) (root : skip_list) : M node skip_list :=
  match ks with [] => ret root | (k, l) :: ks => let! root := skip_list_insert root k (draws l) in inserts ks root end.
Definition main (levels : list nat) : M node (bool * bool * list Z) :=
  let! root := skip_list_init in
  let! root := inserts (zip [10; 25; 30; 20; 50] levels) root in
  let! p := skip_list_find root 50 in
  let! q := skip_list_find root (-50) in
  let! root := skip_list_remove root 25 in
  let! ks := skip_list_dump root in
  skip_list_free root ;! ret (bool_decide (p <> None), bool_decide (q = None), ks).

Example main_flat : (let* (r, h) := main [0; 0; 0; 0; 0]%nat ∅ in Done (r, size h)) = Done ((true, true, [10; 20; 30; 50]), 0%nat).
Proof. vm_compute. reflexivity. Qed.
(** With these levels the first key is out of order after the second insertion. *)
Example main_disordered : (let* (r, h) := main [0; 1; 0; 0; 0]%nat ∅ in Done (r, size h)) = Done ((true, true, [20; 10; 30; 50]), 0%nat).
Proof. vm_compute. reflexivity. Qed.

(** A list with one key. *)
Definition one : list entry := [E 2 10 0].
Definition one_heap : gmap loc node :=
  <[1%positive := mkNode int_max (Some 2%positive :: replicate 32 (Some 1%positive))]>
  (<[2%positive := mkNode 10 [Some 1%positive]]> ∅).

Lemma one_holds : holds one_heap 1 0 one.
Proof.
  split.
  - intros e ->%list_elem_of_singleton. by exists (mkNode 10 [Some 1%positive]).
  - by exists (mkNode int_max (Some 2%positive :: replicate 32 (Some 1%positive))).
  - intros [| i] Hi; cbn.
    + split; eexists; by split; [reflexivity |].
    + eexists. split; [reflexivity |]. apply (lookup_replicate_2 32 (Some 1%positive) i). lia.
  - apply (bool_decide_unpack _). vm_compute. exact I.
  - repeat constructor.
  - intros e ->%list_elem_of_singleton. done.
  - intros e ->%list_elem_of_singleton. done.
  - lia.
Qed.

Lemma skip_list_refinement_witness :
  exists a h' L' ns',
    SkipListSpec.call (SkipListSpec.OInsert 25 (draws 0)) (mkList (Some 1%positive) (Z.of_nat 0)) one_heap =
      Done ((a, mkList (Some 1%positive) (Z.of_nat L')), h') /\
    holds h' 1 L' ns' /\ SkipListSpec.spec (SkipListSpec.OInsert 25 (draws 0)) (keys one) a (keys ns') /\
    SkipListSpec.exchanged one_heap h' one ns'.
Proof.
  apply (SkipListSpec.skip_list_refinement never_fails one_heap 1 0 one); [apply one_holds |].
  split; [reflexivity |]. intros Hl. discriminate Hl.
Defined.

Lemma insert_loses_keys_witness :
  exists root h', skip_list_insert (mkList (Some 1%positive) 0) 25 (draws 1) one_heap = Done (root, h') /\
    forall j, j ∈ keys one -> j < 25 -> skip_list_find root j h' = Done (None, h').
Proof.
  apply (SkipListSpec.insert_loses_keys never_fails one_heap 1 one); [apply one_holds | reflexivity | | reflexivity].
  apply (bool_decide_unpack _). vm_compute. exact I.
Defined.

Lemma remove_int_max_witness :
  (let! root := skip_list_remove (mkList (Some 1%positive) (Z.of_nat 0)) int_max in skip_list_find root 10) one_heap = UB.
Proof. apply (SkipListSpec.remove_int_max one_heap 1 0 one 10). apply one_holds. Defined.
End SkipListSamples.
